(* ===== verification/_CoqProject ===== *)
-Q . S2P
Prelude.v
Crypto.v
Mersenne.v
Threshold.v
Encryption.v
Mempool.v
Shards.v
Merkle.v
Validators.v
Dag.v
Security.v
Blocks.v
Certificates.v
DataAvailability.v
Engine.v
DagInvariant.v
CrossShard.v
Commit.v
History.v
Pending.v
EngineSteps.v
Safety.v
Network.v
Agreement.v
BlockFlow.v
Transfer.v
Signing.v
Ledger.v
Tier1.v
Contracts.v
Executor.v
LedgerDemo.v
LedgerV3.v
Bonds.v
Tier1Laws.v
LegacyGaps.v
Channel.v
Locality.v
BlockStm.v
Footprint.v
Release.v
BlockExec.v
Registry.v
StateRoot.v
V3Blocks.v
V3Ledger.v
Admission.v
Authentication.v
Sealing.v
Recovery.v
Restart.v
WalFile.v
Reopen.v
