(* ===== verification/Prelude.v ===== *)
(** * ARC chain: a verification development (root)

    ** The program

    ARC is a chain of validators.  [src/crates/arc-consensus] agrees on a DAG of blocks:
    a validator proposes one block per round, a block names blocks of the previous round
    that carry a quorum of stake, the leader's block of a round (the anchor) is committed
    once a child of it is referenced by a quorum two rounds later, and a round that is not
    certified is decided later, from the causal history of a later certified anchor.
    Around this rule stand the validator set with stake and slashing, detectors of
    withholding and double votes, certificates of absence and finality, a holding area for
    early blocks, history transfer, erasure coding, cross-shard locks, a beacon of shard
    roots and a registry of subnets.  [src/crates/arc-mempool] holds transactions before
    they are ordered, in the clear or encrypted.  [src/crates/arc-state] executes ordered
    transactions on a ledger of accounts, seals blocks with a state root, writes every
    change to a write-ahead log and restarts from it.  [src/crates/arc-channel] runs payment
    channels that settle on the ledger.  [src/crates/arc-crypto] supplies hashing,
    signatures, Merkle trees, threshold shares and slot encryption, and
    [src/crates/arc-types] the data types.

    ** What models what: consensus

    - This file: the result type [outcome] of fallible methods ([Ok], [Err], [Panic]
      for an abort), record update, [u64] arithmetic (a [u64] is a [Z]; checked,
      wrapping and saturating operations are written out), list and map lemmas.
    - [Crypto]: arc-crypto signature.rs and hash.rs.  The primitives come from other
      packages: class [Crypto] has the operations and [CryptoLaws] their documented
      behaviour; [Demo.demo_crypto] is a concrete instance on which the witnesses run.
    - [Mersenne], [Threshold], [Encryption]: arc-crypto threshold.rs (field arithmetic,
      secret sharing, slot keys and the cipher) and bls.rs over the class [Blst].
    - [Mempool]: arc-mempool; the queue, the set and the counter are separate shared
      state, each call is a thread of atomic steps.
    - [Shards]: beacon.rs and subnet.rs of arc-consensus.
    - [Merkle]: arc-crypto merkle.rs ([MerkleTree], [IncrementalMerkle]).
    - [Validators], [Dag], [Security], [Certificates], [DataAvailability]: the validator
      set, DAG blocks, security.rs, view_change.rs, data_availability.rs.
    - [Blocks]: accounts and state-chain headers of arc-types.
    - [Engine], [CrossShard], [Commit], [History]: the record [ConsensusEngine] with the
      source's fields, and its methods; [Pending]: pending.rs.
    - [DagInvariant], [EngineSteps], [Safety]: the invariants of the engine, the step
      relations that have a rule for each of its methods, an abstract machine they refine,
      and the quorum arguments about the views of several engines.
    - [Network]: executable scripts of one engine or of four exchanging blocks.
    - [Agreement], [BlockFlow], [Transfer], [Signing]: the theorems about whole runs.

    A lock, an atomic or a concurrent map is its content and each method is one atomic
    step, the mempool excepted; wall clocks are arguments.  A method that returns early
    before any write returns [outcome E (A * state)]; one that writes before it fails
    returns the result paired with the state.

    ** What models what: ledger

    The ledger methods are terms of the state-error monad [ledger A := StateDB -> outcome
    StateError A * StateDB] of [Ledger]: writes made before a failure stay.

    - [Ledger]: [StateDB], transactions and their hashes, the log records and their
      replay, the protocol-3 families (transfer, faucet claim, community reward) with
      their admission; [Tier1]: inference requests; [Contracts]: deployment and WASM calls
      over a parameter [WasmEngine]; [Executor]: the other arms of [execute_tx] and the
      bond sweep.
    - [BlockStm]: access sets and batches of block_stm.rs; [Footprint]: the dirty marks;
      [BlockExec]: batch signature verification, admission and the loop over a block;
      [StateRoot]: the account root with its incremental tree.
    - [Sealing]: [execute_block_verified_at_with_proof] whole, with the root of a recovered
      chain, receipts, history and the log records that close a block.
    - [Recovery]: the plan of a log, its verified replay, the rebuilt index and the checks
      of a restart; [WalFile]: frames, the writer and the three readers of wal.rs;
      [Reopen]: the restart over the bytes of the file, with the quarantine of its tail.
    - [Channel]: arc-channel and the settlement of a closing state.
    - [LedgerV3], [Bonds], [Locality], [V3Blocks], [Registry] hold the lemmas
      about effects, escrows, locality, blocks and the registry that the theorems of
      [V3Ledger], [Admission], [Authentication], [Release], [Tier1Laws], [LegacyGaps],
      [Restart] and [Reopen] use; [LedgerDemo] has concrete states and transactions.

    Parameters: bincode ([TxCodec], [HeaderCodec], [SectionCodec], [WalCodec]), the order of
    a hash map ([HashOrder]), batch signature verification ([BatchVerify]), the WASM engine,
    the native inference lane ([NativeLane], [NativeBlocks]), strict Ed25519 verification
    ([StrictVerify]).  Their laws are classes; each has an instance in the witnesses.

    ** What the theorems show: consensus

    - Commit rule: in any reachable engine the DAG invariant holds
      ([engine_invariant]); every commit rests on a certificate or a later anchor that
      decides it ([try_commit_sound]); a round certified in one view of a committee is
      skipped by no other ([certified_round_never_skipped]); inside a recovery domain
      two views decide a round alike ([recovery_round_agreement]).  Outside a recovery
      domain agreement does not hold in general: [honest_views_can_fork] and
      [equivocating_leader_can_fork] are concrete runs.
    - Blocks: acceptance by [receive_block] is characterised on every input, honest
      proposals are accepted by peers in sync, an import of history is a run of ordinary
      steps, a validator never signs two blocks for a round above zero, whatever restarts
      happen ([never_signs_twice]), and round zero is the exception
      ([restart_in_round_zero_signs_twice]).
    - Certificates: which certificates verify, that conflicting ones convict more than the
      tolerated stake, that collectors build only certificates that verify, the signing
      discipline of the tracker, and that a certified tip fixes the snapshot and the resume
      round of a checkpoint envelope ([checkpoint_envelope_authority]).  Validators: the invariant of every reachable set.
    - Merkle trees: the incremental tree refines a finite map, its dirty-path update
      equals a rebuild, inclusion proofs are sound and complete.
    - Field arithmetic is exact, shares recover the secret, the pools keep their bounds
      under every interleaving, erasure coding and cross-shard locks: exact behaviour,
      and where the documentation claims more than the code gives.

    Theorems that rest on the hash assume that BLAKE3 has no collision among finitely many
    byte strings, which they name: [derive_key_apart] and [blake3_apart] of [Crypto] over the
    inputs of the blocks, headers or tree nodes at hand, or, for runs of engines, over a list
    that has what is hashed for every block held along the run ([hashed_within],
    [step_within]).  None assumes that the hash is injective on all strings, which no hash
    into 256 bits is.

    ** What the theorems show: ledger

    - Protocol 3: each family either fails without a trace or has its specified effect; a
      run never mints; rewards and claims are paid once and within their budgets; an
      admitted block succeeds.
    - Any family: a transaction succeeds in a block only with a signature of its sender that
      was verified before, verifies alone, or belongs to a batch the batch verifier accepted
      ([block_transactions_authenticated], which assumes nothing of that verifier);
      the staking pool is the total stake, Block-STM batches are serializable for the
      families whose access sets are complete, Tier-1 requests settle once and do settle,
      matured bonds are released, incremental roots are cold roots.  [LegacyGaps] has
      concrete runs of legacy families that create or destroy funds.
    - Restart: the replay that caches the verified root is the replay that takes it at
      every checkpoint ([cached_replay_exact]); the readers of a log file cut at any byte
      return exactly the whole frames ([torn_log_reads_whole_frames]); in the whole life of
      a node, with any number of crashes, reopening succeeds and returns to the state after
      the last block whose log is on disk ([reopening_recovers_blocks]).
    - Channels: payments round trip, the closing state settles what both signed, disputes
      submit the current state.

    ** Bounds and fuel

    Loops that are not structural run on fuel and are shown not to run out:
    [build_levels_complete] (length of the level), [recover_loop_stable] (one pass more
    than there are chunks), [walk_history] (the size of the DAG; [history_walk_exact]
    characterises the answer), the commit scan (the number of rounds to scan),
    [make_room] (the number of held blocks), the readers of a log file (the number of bytes,
    each frame takes at least five).  Heights of a run stay below the last [u64] and a log
    file has a [u64] length: both are hypotheses where they matter.

    ** Not modelled

    Methods that only read or report (memory gauges, [f64] fractions, the transaction
    classifier).  Interleavings inside a method of the engine or the ledger.  Of arc-state:
    the native inference lane (a parameter of admission and execution; its accounts are not
    among the dirty marks), the GPU-verified,
    optimistic and sharded execution paths, the Jellyfish tree, GPU, memory-mapped and
    io_uring stores, rent, pruning, the index of transactions by account, identities,
    the adoption of a checkpoint into a running state and the log records of these parts
    ([SetIdentity], [InferenceTransition], [Rebase]), log segments and the writer thread;
    failures of the file system, so that the check for a failed log ([require_healthy_wal])
    that opens the execution of a block always passes and is left out.  arc-node, arc-net,
    arc-vm, arc-inference, arc-gpu: I/O, virtual machines and numeric kernels around the
    modelled code. *)

From stdpp Require Export sorting strings numbers.
From stdpp Require Export base tactics list fin_maps gmap.

Open Scope Z_scope.

(** ** Functional record update

    Every component of the engine is a record that its methods update field by
    field.  [r <| f := v |>] is [r] with field [f] replaced.  A record joins the
    mechanism by giving its eta expansion once, as an instance of [Eta]. *)

Class Eta (R : Type) := eta_expand : R -> R.

Class Setter {R T : Type} (proj : R -> T) := set_field : (T -> T) -> R -> R.
Arguments set_field {R T} proj {_} _ _ / : assert.

Ltac solve_setter proj :=
  match type of proj with
  | ?R -> ?T =>
    let eta := constr:(_ : Eta R) in
    exact (fun (f : T -> T) (r : R) =>
      ltac:(let t := eval cbv beta delta [eta_expand] in (eta r) in
            let t' := eval red in t in
            let t'' := eval cbv beta in t' in
            match eval pattern (proj r) in t'' with
            | ?g _ => let u := eval cbv beta in (g (f (proj r))) in exact u
            end))
  end.

#[export] Hint Extern 1 (Setter ?p) => solve_setter p : typeclass_instances.

Declare Scope arc_scope.
Delimit Scope arc_scope with arc.

Notation "r <| p := v |>" := (set_field p (fun _ => v) r)
  (at level 1, left associativity, format "r  <| p  :=  v |>") : arc_scope.

Open Scope arc_scope.

(** ** Results of fallible methods

    A Rust method that returns [Result<A, E>] and can also hit an [expect] or an
    index out of range is a value of [outcome E A]: [Panic] is the abort. *)

Inductive outcome (E A : Type) : Type :=
| Ok (a : A)
| Err (e : E)
| Panic.
Arguments Ok {E A} a.
Arguments Err {E A} e.
Arguments Panic {E A}.

#[global] Instance outcome_ret {E} : MRet (outcome E) := fun A a => Ok a.
#[global] Instance outcome_bind {E} : MBind (outcome E) := fun A B f m =>
  match m with
  | Ok a => f a
  | Err e => Err e
  | Panic => Panic
  end.

(** [require b e] is the early return [if !b { return Err(e) }]. *)
Definition require {E} (b : bool) (e : E) : outcome E unit :=
  if b then Ok () else Err e.

(** [Option::ok_or] and [Option::expect]. *)
Definition ok_or {E A} (o : option A) (e : E) : outcome E A :=
  match o with Some a => Ok a | None => Err e end.

Definition expect {E A} (o : option A) : outcome E A :=
  match o with Some a => Ok a | None => Panic end.

Definition is_ok {E A} (o : outcome E A) : bool :=
  match o with Ok _ => true | _ => false end.

Lemma bind_Ok {E A B} (m : outcome E A) (f : A -> outcome E B) b :
  m ≫= f = Ok b <-> exists a, m = Ok a /\ f a = Ok b.
Proof. destruct m; split; naive_solver. Qed.

Lemma bind_Err {E A B} (m : outcome E A) (f : A -> outcome E B) e :
  m ≫= f = Err e <-> m = Err e \/ exists a, m = Ok a /\ f a = Err e.
Proof. destruct m; split; naive_solver. Qed.

Lemma bind_Panic {E A B} (m : outcome E A) (f : A -> outcome E B) :
  m ≫= f = Panic <-> m = Panic \/ exists a, m = Ok a /\ f a = Panic.
Proof. destruct m; split; naive_solver. Qed.

Lemma require_Ok {E} b (e : E) u : require b e = Ok u <-> b = true.
Proof. destruct b, u; naive_solver. Qed.

Lemma require_Err {E} b (e e' : E) : require b e = Err e' <-> b = false /\ e = e'.
Proof. destruct b; naive_solver. Qed.

Lemma require_Panic {E} b (e : E) : require b e = Panic <-> False.
Proof. destruct b; naive_solver. Qed.

Lemma ok_or_Ok {E A} (o : option A) (e : E) a : ok_or o e = Ok a <-> o = Some a.
Proof. destruct o; naive_solver. Qed.

Lemma ok_or_Panic {E A} (o : option A) (e : E) : ok_or o e = Panic <-> False.
Proof. destruct o; naive_solver. Qed.

Lemma expect_Ok {E A} (o : option A) (a : A) : expect (E := E) o = Ok a <-> o = Some a.
Proof. destruct o; naive_solver. Qed.

Lemma expect_Panic {E A} (o : option A) : expect (E := E) o = Panic <-> o = None.
Proof. destruct o; naive_solver. Qed.

(** A loop that stops at the first failure. *)
Fixpoint mfoldl {E A B} (f : A -> B -> outcome E A) (a : A) (l : list B) : outcome E A :=
  match l with
  | [] => Ok a
  | b :: l' => a' ← f a b; mfoldl f a' l'
  end.

Lemma mfoldl_app {E A B} (f : A -> B -> outcome E A) a l1 l2 :
  mfoldl f a (l1 ++ l2) = (a' ← mfoldl f a l1; mfoldl f a' l2).
Proof.
  revert a. induction l1 as [|b l1 IH]; intros a; [done|]. cbn [app mfoldl].
  destruct (f a b); cbn [mbind outcome_bind]; [apply IH|done..].
Qed.

(** Runs that cannot abort compose. *)
Lemma bind_no_panic {E A B} (m : outcome E A) (f : A -> outcome E B) :
  m <> Panic -> (forall a, m = Ok a -> f a <> Panic) -> m ≫= f <> Panic.
Proof. destruct m; naive_solver. Qed.

Lemma require_no_panic {E} b (e : E) : require b e <> Panic.
Proof. by destruct b. Qed.

Lemma ok_or_no_panic {E A} (o : option A) (e : E) : ok_or o e <> Panic.
Proof. by destruct o. Qed.

Create HintDb no_panic.
#[export] Hint Resolve require_no_panic ok_or_no_panic : no_panic.

(** [no_panic] descends through the binds and leaves the calls it cannot clear. *)
Ltac no_panic :=
  repeat (apply bind_no_panic; [auto with no_panic|intros ? ?]); auto with no_panic; try done.

(** [inv_ok] opens a successful run: it peels the binds, guards and lookups of a
    hypothesis [m = Ok a] one by one. *)
Ltac inv_ok1 :=
  match goal with
  | H : _ ≫= _ = Ok _ |- _ => apply bind_Ok in H as [? [? H]]
  | H : require _ _ = Ok _ |- _ => apply require_Ok in H
  | H : ok_or _ _ = Ok _ |- _ => apply ok_or_Ok in H
  | H : expect _ = Ok _ |- _ => apply expect_Ok in H
  | H : Ok _ = Ok _ |- _ => injection H as H
  | H : mret _ = Ok _ |- _ => injection H as H
  | H : Err _ = Ok _ |- _ => discriminate H
  | H : Panic = Ok _ |- _ => discriminate H
  | x : unit |- _ => destruct x
  end.
Ltac inv_ok := repeat inv_ok1; simplify_eq/=.

(** [dec_hyps] turns the boolean guards of the context into propositions. *)
Ltac dec_hyps :=
  repeat match goal with
  | H : bool_decide _ = true |- _ => apply bool_decide_eq_true in H
  | H : bool_decide _ = false |- _ => apply bool_decide_eq_false in H
  | H : negb _ = true |- _ => apply negb_true_iff in H
  | H : negb _ = false |- _ => apply negb_false_iff in H
  | H : _ && _ = true |- _ => apply andb_true_iff in H as [? ?]
  | H : _ || _ = false |- _ => apply orb_false_iff in H as [? ?]
  end.

(** ** Machine integers

    A [u64] is a [Z]; its operations write the width out. *)

Definition u64_max : Z := 18446744073709551615.
Definition u64 (x : Z) : Prop := 0 <= x <= u64_max.

Definition checked_add (a b : Z) : option Z :=
  if bool_decide (a + b <= u64_max) then Some (a + b) else None.
Definition checked_sub (a b : Z) : option Z :=
  if bool_decide (b <= a) then Some (a - b) else None.
Definition saturating_add (a b : Z) : Z := Z.min (a + b) u64_max.
Definition saturating_sub (a b : Z) : Z := Z.max 0 (a - b).

(** Unchecked [+] of the release profile. *)
Definition wrapping_add (a b : Z) : Z := (a + b) mod (u64_max + 1).

Lemma wrapping_add_small a b : 0 <= a + b <= u64_max -> wrapping_add a b = a + b.
Proof. intros ?. unfold wrapping_add. apply Z.mod_small. lia. Qed.

Lemma checked_add_Some a b c : checked_add a b = Some c <-> c = a + b /\ a + b <= u64_max.
Proof. unfold checked_add. case_bool_decide; naive_solver. Qed.

Lemma checked_add_None a b : checked_add a b = None <-> u64_max < a + b.
Proof. unfold checked_add. case_bool_decide; split; intros; try done; lia. Qed.

Lemma checked_sub_Some a b c : checked_sub a b = Some c <-> c = a - b /\ b <= a.
Proof. unfold checked_sub. case_bool_decide; naive_solver. Qed.

Lemma checked_sub_None a b : checked_sub a b = None <-> a < b.
Proof. unfold checked_sub. case_bool_decide; split; intros; try done; lia. Qed.

(** [split_checked] turns the checked operations of the context into linear
    facts, so that [lia] can finish. *)
Ltac split_checked :=
  repeat match goal with
  | H : checked_add _ _ = Some _ |- _ => apply checked_add_Some in H as [? ?]
  | H : checked_add _ _ = None |- _ => apply checked_add_None in H
  | H : checked_sub _ _ = Some _ |- _ => apply checked_sub_Some in H as [? ?]
  | H : checked_sub _ _ = None |- _ => apply checked_sub_None in H
  | H : u64 _ |- _ => unfold u64 in H
  end.

(** ** Byte encodings

    A byte string is a list of [Z].  [to_le_bytes] and [to_be_bytes] are the
    integer methods; a [Hash256] is the 256-bit number its 32 bytes spell in
    big-endian order, so that the derived lexicographic order on the byte arrays
    is the numerical order. *)

Fixpoint to_le_bytes (n : nat) (x : Z) : list Z :=
  match n with
  | O => []
  | S n' => x mod 256 :: to_le_bytes n' (x / 256)
  end.

Fixpoint from_le_bytes (l : list Z) : Z :=
  match l with
  | [] => 0
  | b :: l' => b + 256 * from_le_bytes l'
  end.

(** The bytes of an ASCII literal. *)
Fixpoint ascii_bytes (s : string) : list Z :=
  match s with
  | EmptyString => []
  | String c s' => Z.of_N (Ascii.N_of_ascii c) :: ascii_bytes s'
  end.

Definition to_be_bytes (n : nat) (x : Z) : list Z := reverse (to_le_bytes n x).

Lemma length_to_le_bytes n x : length (to_le_bytes n x) = n.
Proof. revert x; induction n; intros; simpl; auto. Qed.

Lemma length_to_be_bytes n x : length (to_be_bytes n x) = n.
Proof. unfold to_be_bytes. by rewrite length_reverse, length_to_le_bytes. Qed.

Lemma to_le_bytes_inj n x y :
  0 <= x < 256 ^ Z.of_nat n -> 0 <= y < 256 ^ Z.of_nat n ->
  to_le_bytes n x = to_le_bytes n y -> x = y.
Proof.
  revert x y; induction n as [|n IH]; intros x y Hx Hy H.
  { simpl in *. lia. }
  cbn [to_le_bytes] in H. injection H as Hm Hd.
  rewrite Nat2Z.inj_succ, Z.pow_succ_r in Hx, Hy by lia.
  apply IH in Hd.
  - rewrite (Z.div_mod x 256), (Z.div_mod y 256) by lia. lia.
  - split; [apply Z.div_pos; lia | apply Z.div_lt_upper_bound; lia].
  - split; [apply Z.div_pos; lia | apply Z.div_lt_upper_bound; lia].
Qed.

Definition byte (b : Z) : Prop := 0 <= b < 256.

Lemma to_le_bytes_byte n x : Forall byte (to_le_bytes n x).
Proof.
  revert x. induction n as [|n IH]; intros x; constructor; [apply Z.mod_pos_bound; lia|apply IH].
Qed.

Lemma from_to_le_bytes n x :
  0 <= x < 256 ^ Z.of_nat n -> from_le_bytes (to_le_bytes n x) = x.
Proof.
  revert x. induction n as [|n IH]; intros x Hx; [simpl in *; lia|].
  cbn [to_le_bytes from_le_bytes]. rewrite Nat2Z.inj_succ, Z.pow_succ_r in Hx by lia.
  rewrite IH by (split; [apply Z.div_pos; lia|apply Z.div_lt_upper_bound; lia]).
  rewrite (Z.div_mod x 256) at 3 by lia. lia.
Qed.

Lemma from_le_bytes_range l : Forall byte l -> 0 <= from_le_bytes l < 256 ^ Z.of_nat (length l).
Proof.
  unfold byte. induction 1 as [|b l Hb Hl IH]; cbn [from_le_bytes length]; [lia|].
  rewrite Nat2Z.inj_succ, Z.pow_succ_r by lia. lia.
Qed.

Lemma to_be_bytes_inj n x y :
  0 <= x < 256 ^ Z.of_nat n -> 0 <= y < 256 ^ Z.of_nat n ->
  to_be_bytes n x = to_be_bytes n y -> x = y.
Proof.
  intros Hx Hy H. apply (to_le_bytes_inj n); [done..|].
  by apply (inj reverse).
Qed.

(** The 256-bit identifiers: hashes and addresses. *)
Notation Hash256 := Z (only parsing).
Notation Address := Z (only parsing).

Definition hash256 (h : Z) : Prop := 0 <= h < 2 ^ 256.
Definition hash_to_bytes (h : Hash256) : list Z := to_be_bytes 32 h.
Definition u64_le (x : Z) : list Z := to_le_bytes 8 x.
Definition u64_be (x : Z) : list Z := to_be_bytes 8 x.

Lemma hash_to_bytes_inj x y :
  hash256 x -> hash256 y -> hash_to_bytes x = hash_to_bytes y -> x = y.
Proof.
  unfold hash256. replace (2 ^ 256) with (256 ^ Z.of_nat 32) by reflexivity.
  apply to_be_bytes_inj.
Qed.

Lemma u64_le_inj x y : u64 x -> u64 y -> u64_le x = u64_le y -> x = y.
Proof. unfold u64, u64_max. intros ??. apply to_le_bytes_inj; lia. Qed.

Lemma u64_be_inj x y : u64 x -> u64 y -> u64_be x = u64_be y -> x = y.
Proof. unfold u64, u64_max. intros ??. apply to_be_bytes_inj; lia. Qed.

Lemma length_hash_to_bytes h : length (hash_to_bytes h) = 32%nat.
Proof. apply length_to_be_bytes. Qed.
Lemma length_u64_le x : length (u64_le x) = 8%nat.
Proof. apply length_to_le_bytes. Qed.
Lemma length_u64_be x : length (u64_be x) = 8%nat.
Proof. apply length_to_be_bytes. Qed.

Create HintDb bytes.
#[export] Hint Rewrite length_hash_to_bytes length_u64_le length_u64_be : bytes.

(** Range checks by evaluation. *)
Lemma hash256_eval h : (0 <=? h) && (h <? 2 ^ 256) = true -> hash256 h.
Proof. unfold hash256. lia. Qed.

Lemma hashes256_eval l :
  forallb (fun h => (0 <=? h) && (h <? 2 ^ 256)) l = true -> Forall hash256 l.
Proof.
  intros Hl%Is_true_eq_left%forallb_True. eapply Forall_impl; [exact Hl|].
  intros h Hh. by apply hash256_eval, Is_true_eq_true.
Qed.

Lemma bytes_eval l : forallb (fun b => (0 <=? b) && (b <? 256)) l = true -> Forall byte l.
Proof.
  intros Hl%Is_true_eq_left%forallb_True. eapply Forall_impl; [exact Hl|].
  unfold byte. intros b Hb%Is_true_eq_true. lia.
Qed.

Lemma u64_eval x : (0 <=? x) && (x <=? u64_max) = true -> u64 x.
Proof. unfold u64. lia. Qed.

Ltac eval_range :=
  lazymatch goal with
  | |- hash256 _ => apply hash256_eval
  | |- Forall hash256 _ => apply hashes256_eval
  | |- Forall byte _ => apply bytes_eval
  | |- u64 _ => apply u64_eval
  end; vm_compute; reflexivity.

(** Concatenating fixed-width encodings loses nothing. *)
Definition hashes_to_bytes (l : list Hash256) : list Z := mjoin (hash_to_bytes <$> l).

Lemma hashes_to_bytes_app l k :
  hashes_to_bytes (l ++ k) = hashes_to_bytes l ++ hashes_to_bytes k.
Proof. unfold hashes_to_bytes. by rewrite fmap_app, join_app. Qed.

Lemma hashes_to_bytes_cons x l :
  hashes_to_bytes (x :: l) = hash_to_bytes x ++ hashes_to_bytes l.
Proof. reflexivity. Qed.

Lemma length_hashes_to_bytes l : length (hashes_to_bytes l) = (32 * length l)%nat.
Proof.
  induction l as [|x l IH]; [done|].
  rewrite hashes_to_bytes_cons, length_app, length_hash_to_bytes, IH. simpl. lia.
Qed.

Lemma hashes_to_bytes_inj l k :
  Forall hash256 l -> Forall hash256 k ->
  hashes_to_bytes l = hashes_to_bytes k -> l = k.
Proof.
  intros Hl. revert k. induction Hl as [|x l Hx Hl IH]; intros k Hk H.
  - apply (f_equal length) in H. rewrite !length_hashes_to_bytes in H.
    destruct k; [done | simpl in H; lia].
  - destruct Hk as [|y k Hy Hk].
    { apply (f_equal length) in H. rewrite !length_hashes_to_bytes in H. simpl in H. lia. }
    rewrite !hashes_to_bytes_cons in H.
    apply app_inj_1 in H as [H1 H2]; [|by rewrite !length_hash_to_bytes].
    f_equal; [by apply hash_to_bytes_inj | by apply IH].
Qed.

(** [app_cancel H] splits an equation between two concatenations whose first
    parts have the same fixed width. *)
Ltac app_cancel H :=
  let H1 := fresh H in
  apply app_inj_1 in H as [H1 H];
  [|by autorewrite with bytes].

(** ** Sorting by hash

    [sort_by_key(|h| h.0)] on hashes. *)

Definition sort_hashes (l : list Hash256) : list Hash256 := merge_sort (≤) l.

Lemma sort_hashes_Permutation l : sort_hashes l ≡ₚ l.
Proof. apply merge_sort_Permutation. Qed.

Lemma sort_hashes_Sorted l : StronglySorted (≤) (sort_hashes l).
Proof. apply StronglySorted_merge_sort; apply _. Qed.

Lemma elem_of_sort_hashes h l : h ∈ sort_hashes l <-> h ∈ l.
Proof. by rewrite sort_hashes_Permutation. Qed.

(** [windows(2).all(|w| w[0] <= w[1])]. *)
Fixpoint windows_sorted (l : list Hash256) : bool :=
  match l with
  | x :: (y :: _) as l' => bool_decide (x <= y) && windows_sorted l'
  | _ => true
  end.

Lemma windows_sorted_spec l : windows_sorted l = true <-> Sorted (≤) l.
Proof.
  induction l as [|x [|y l] IH].
  - split; auto.
  - split; auto.
  - cbn [windows_sorted]. rewrite andb_true_iff, IH, bool_decide_eq_true.
    split.
    + intros [??]; auto.
    + inversion 1 as [|??? Hh]; subst. inversion Hh; subst. done.
Qed.

(** ** Sums *)

Fixpoint zsum (l : list Z) : Z :=
  match l with
  | [] => 0
  | x :: l' => x + zsum l'
  end.

Lemma zsum_app l k : zsum (l ++ k) = zsum l + zsum k.
Proof. induction l; simpl; lia. Qed.

Lemma zsum_nonneg l : Forall (fun x => 0 <= x) l -> 0 <= zsum l.
Proof. induction 1; simpl; lia. Qed.

Lemma zsum_Permutation l k : l ≡ₚ k -> zsum l = zsum k.
Proof. induction 1; simpl; lia. Qed.

(** ** Lookups with a default *)

Lemma lookup_default_Some {A} (o : option (list A)) x :
  x ∈ default [] o <-> exists l, o = Some l /\ x ∈ l.
Proof. destruct o; simpl; set_solver. Qed.

(** ** Filters that keep nothing or everything *)

(** A prefix of an append ends in the first part or reaches into the second. *)
Lemma prefix_app_split {A} (p l1 l2 : list A) :
  p `prefix_of` l1 ++ l2 -> p `prefix_of` l1 \/ exists q, p = l1 ++ q /\ q `prefix_of` l2.
Proof.
  revert p. induction l1 as [|x l1 IH]; intros p Hp; [right; by exists p|].
  destruct p as [|y p]; [left; apply prefix_nil|]. apply prefix_cons_inv_1 in Hp as Hy.
  apply prefix_cons_inv_2 in Hp. subst y. destruct (IH p Hp) as [Hl|(q & -> & Hq)].
  - left. by apply prefix_cons.
  - right. by exists q.
Qed.

Lemma filter_none {A} (P : A -> Prop) `{!forall x, Decision (P x)} (l : list A) :
  (forall x, x ∈ l -> ~ P x) -> filter P l = [].
Proof.
  induction l as [|x l IH]; intros Hl; [done|].
  rewrite filter_cons_False by (apply Hl; set_solver). apply IH. set_solver.
Qed.

Lemma filter_all {A} (P : A -> Prop) `{!forall x, Decision (P x)} (l : list A) :
  (forall x, x ∈ l -> P x) -> filter P l = l.
Proof.
  induction l as [|x l IH]; intros Hl; [done|].
  rewrite filter_cons_True by (apply Hl; set_solver). f_equal. apply IH. set_solver.
Qed.

Lemma filter_ext_in {A} (P Q : A -> Prop) `{!forall x, Decision (P x), !forall x, Decision (Q x)}
    (l : list A) :
  (forall x, x ∈ l -> P x <-> Q x) -> filter P l = filter Q l.
Proof.
  induction l as [|x l IH]; intros Hl; [done|].
  rewrite !filter_cons, IH by set_solver.
  destruct (Hl x); [set_solver|]. repeat case_decide; naive_solver.
Qed.

Lemma length_filter_split {A} (P : A -> Prop) `{!forall x, Decision (P x)} (l : list A) :
  (length (filter P l) + length (filter (fun x => ~ P x) l) = length l)%nat.
Proof.
  induction l as [|x l IH]; [done|]. rewrite !filter_cons.
  repeat case_decide; try tauto; simpl; lia.
Qed.

Lemma filter_full {A} (P : A -> Prop) `{!forall x, Decision (P x)} (l : list A) x :
  length (filter P l) = length l -> x ∈ l -> P x.
Proof.
  intros Hlen Hx. pose proof (length_filter_split P l) as Hs.
  assert (filter (fun x => ~ P x) l = []) as Hnil by (apply nil_length_inv; lia).
  destruct (decide (P x)) as [?|Hn]; [done|].
  assert (x ∈ filter (fun x => ~ P x) l) as Hc by (by apply list_elem_of_filter).
  rewrite Hnil in Hc. by apply not_elem_of_nil in Hc.
Qed.
