(* ===== verification/Crypto.v ===== *)
(** * Hashing and signatures (crates/arc-crypto/src/hash.rs, signature.rs)

    The BLAKE3, Ed25519, secp256k1, ML-DSA and Falcon primitives and the bincode
    wire format come from crates outside the repository: they are the operations
    of the class [Crypto], and the documented facts the code relies on are the
    laws of [CryptoLaws].  The repository's own code around them (address
    derivation, the length and address checks of [Signature::verify], the
    assembly of signatures by [KeyPair::sign]) is translated below. *)

From S2P Require Import Prelude.

(** ** Signatures on the wire *)

Inductive Signature :=
| SigEd25519 (public_key : list Z) (signature : list Z)
| SigSecp256k1 (signature : list Z)
| SigMlDsa65 (public_key : list Z) (signature : list Z)
| SigFalcon512 (public_key : list Z) (signature : list Z).

#[global] Instance Signature_eq_dec : EqDecision Signature.
Proof. solve_decision. Defined.

Inductive SignatureError :=
| SigInvalidSignature
| SigInvalidPublicKey
| SigSigningFailed (msg : string)
| SigAddressMismatch (expected got : Hash256)
| SigHashMismatch
| SigInvalidLength (expected got : Z).

(** ** The external primitives *)

Class Crypto := {
  (* blake3 *)
  blake3_hash : list Z -> Hash256;
  blake3_derive_key : string -> list Z -> Hash256;
  blake3_keyed_hash : list Z -> list Z -> Hash256;
  (* ed25519_dalek *)
  Ed25519Key : Type;
  ed25519_verifying_key : Ed25519Key -> list Z;
  ed25519_sign : Ed25519Key -> list Z -> list Z;
  ed25519_key_parses : list Z -> bool;
  ed25519_verify : list Z -> list Z -> list Z -> bool;
  (* k256 *)
  Secp256k1Key : Type;
  secp256k1_point : Secp256k1Key -> list Z;
  secp256k1_sign : Secp256k1Key -> list Z -> string + (list Z * Z);
  secp256k1_recover : list Z -> list Z -> Z -> option (list Z);
  (* fips204 *)
  ml_dsa_sign : list Z -> list Z -> string + list Z;
  ml_dsa_key_parses : list Z -> bool;
  ml_dsa_verify : list Z -> list Z -> list Z -> bool;
  (* pqcrypto_falcon *)
  falcon_sign : list Z -> list Z -> string + list Z;
  falcon_key_parses : list Z -> bool;
  falcon_sig_parses : list Z -> bool;
  falcon_verify : list Z -> list Z -> list Z -> bool;
  (* bincode (cu_bincode behind crates/arc-bincode) *)
  bincode_signature : Signature -> option (list Z);
  bincode_read_signature : list Z -> option Signature;
  bincode_hashes : list Hash256 -> option (list Z);
  bincode_lock : Hash256 * Z * Z -> option (list Z);
  bincode_pair : Hash256 * Hash256 -> option (list Z);
}.

(** Documented behaviour of the primitives: digests are 32 bytes, and a value
    that bincode wrote reads back. *)
Class CryptoLaws `{Crypto} : Prop := {
  blake3_hash_range bytes : hash256 (blake3_hash bytes);
  blake3_derive_key_range ctx bytes : hash256 (blake3_derive_key ctx bytes);
  blake3_keyed_hash_range key bytes : hash256 (blake3_keyed_hash key bytes);
  bincode_signature_read s bytes :
    bincode_signature s = Some bytes -> bincode_read_signature bytes = Some s;
}.

Section Crypto.
Context `{Crypto}.

(** ** hash.rs *)

Definition hash_bytes (data : list Z) : Hash256 := blake3_hash data.

Definition hash_pair (left right : Hash256) : Hash256 :=
  blake3_hash (hash_to_bytes left ++ hash_to_bytes right).

(** ** signature.rs: addresses *)

Definition address_from_ed25519_pubkey (public_key : list Z) : Hash256 := hash_bytes public_key.
Definition address_from_secp256k1_pubkey (raw : list Z) : Hash256 := hash_bytes raw.
Definition address_from_ml_dsa_pubkey (public_key : list Z) : Hash256 := hash_bytes public_key.
Definition address_from_falcon_pubkey (public_key : list Z) : Hash256 := hash_bytes public_key.

Definition ML_DSA_PK_LEN : nat := 1952.
Definition ML_DSA_SK_LEN : nat := 4032.
Definition ML_DSA_SIG_LEN : nat := 3309.
Definition FALCON_PK_LEN : nat := 897.
Definition FALCON_SIG_MAX_LEN : nat := 752.

(** ** signature.rs: [Signature::verify] *)

Definition sig_verify (self : Signature) (message_hash expected_address : Hash256)
    : outcome SignatureError unit :=
  match self with
  | SigEd25519 public_key signature =>
      _ ← require (bool_decide (length signature = 64%nat))
            (SigInvalidLength 64 (Z.of_nat (length signature)));
      let derived := address_from_ed25519_pubkey public_key in
      _ ← require (bool_decide (derived = expected_address))
            (SigAddressMismatch expected_address derived);
      _ ← require (ed25519_key_parses public_key) SigInvalidPublicKey;
      require (ed25519_verify public_key (hash_to_bytes message_hash) signature)
        SigInvalidSignature
  | SigSecp256k1 signature =>
      _ ← require (bool_decide (length signature = 65%nat))
            (SigInvalidLength 65 (Z.of_nat (length signature)));
      point ← ok_or (secp256k1_recover (hash_to_bytes message_hash) (take 64 signature)
                       (nth 64 signature 0)) SigInvalidSignature;
      _ ← require (bool_decide (65 <= length point)%nat) SigInvalidPublicKey;
      let derived := address_from_secp256k1_pubkey (take 64 (drop 1 point)) in
      require (bool_decide (derived = expected_address))
        (SigAddressMismatch expected_address derived)
  | SigMlDsa65 public_key signature =>
      _ ← require (bool_decide (length signature = ML_DSA_SIG_LEN))
            (SigInvalidLength (Z.of_nat ML_DSA_SIG_LEN) (Z.of_nat (length signature)));
      _ ← require (bool_decide (length public_key = ML_DSA_PK_LEN)) SigInvalidPublicKey;
      let derived := address_from_ml_dsa_pubkey public_key in
      _ ← require (bool_decide (derived = expected_address))
            (SigAddressMismatch expected_address derived);
      _ ← require (ml_dsa_key_parses public_key) SigInvalidPublicKey;
      require (ml_dsa_verify public_key (hash_to_bytes message_hash) signature)
        SigInvalidSignature
  | SigFalcon512 public_key signature =>
      _ ← require (bool_decide (1 <= length signature <= FALCON_SIG_MAX_LEN)%nat)
            (SigInvalidLength (Z.of_nat FALCON_SIG_MAX_LEN) (Z.of_nat (length signature)));
      _ ← require (bool_decide (length public_key = FALCON_PK_LEN)) SigInvalidPublicKey;
      let derived := address_from_falcon_pubkey public_key in
      _ ← require (bool_decide (derived = expected_address))
            (SigAddressMismatch expected_address derived);
      _ ← require (falcon_key_parses public_key) SigInvalidPublicKey;
      _ ← require (falcon_sig_parses signature) SigInvalidSignature;
      require (falcon_verify public_key (hash_to_bytes message_hash) signature)
        SigInvalidSignature
  end.

(** ** signature.rs: [KeyPair] *)

Inductive KeyPair :=
| KpEd25519 (sk : Ed25519Key)
| KpSecp256k1 (sk : Secp256k1Key)
| KpMlDsa65 (sk_bytes pk_bytes : list Z)
| KpFalcon512 (sk_bytes pk_bytes : list Z).

Definition kp_address (self : KeyPair) : Hash256 :=
  match self with
  | KpEd25519 sk => address_from_ed25519_pubkey (ed25519_verifying_key sk)
  | KpSecp256k1 sk => address_from_secp256k1_pubkey (take 64 (drop 1 (secp256k1_point sk)))
  | KpMlDsa65 _ pk => address_from_ml_dsa_pubkey pk
  | KpFalcon512 _ pk => address_from_falcon_pubkey pk
  end.

Definition kp_sign (self : KeyPair) (message_hash : Hash256) : outcome SignatureError Signature :=
  match self with
  | KpEd25519 sk =>
      Ok (SigEd25519 (ed25519_verifying_key sk) (ed25519_sign sk (hash_to_bytes message_hash)))
  | KpSecp256k1 sk =>
      match secp256k1_sign sk (hash_to_bytes message_hash) with
      | inl e => Err (SigSigningFailed e)
      | inr (rs, recovery_id) => Ok (SigSecp256k1 (rs ++ [recovery_id]))
      end
  | KpMlDsa65 sk_bytes pk_bytes =>
      _ ← require (bool_decide (length sk_bytes = ML_DSA_SK_LEN))
            (SigSigningFailed "invalid ML-DSA secret key length");
      match ml_dsa_sign sk_bytes (hash_to_bytes message_hash) with
      | inl e => Err (SigSigningFailed e)
      | inr sig => Ok (SigMlDsa65 pk_bytes sig)
      end
  | KpFalcon512 sk_bytes pk_bytes =>
      match falcon_sign sk_bytes (hash_to_bytes message_hash) with
      | inl e => Err (SigSigningFailed e)
      | inr sig => Ok (SigFalcon512 pk_bytes sig)
      end
  end.

(** Verification is a decision: it never aborts. *)
Lemma sig_verify_no_panic s h a : sig_verify s h a <> Panic.
Proof.
  destruct s; simpl; intros Hp;
  repeat (apply bind_Panic in Hp as [Hp|[? [? Hp]]];
          [by apply require_Panic in Hp || by apply ok_or_Panic in Hp|]);
  by apply require_Panic in Hp.
Qed.

(** ** Collision freedom

    Digests are shorter than their inputs, so BLAKE3 has collisions.  The binding theorems
    assume that there is none among finitely many inputs, which they name: byte strings
    that the run or the objects at hand feed to the hash. *)
Definition derive_key_apart (inputs : list (string * list Z)) : Prop :=
  forall ctx x y, (ctx, x) ∈ inputs -> (ctx, y) ∈ inputs ->
    blake3_derive_key ctx x = blake3_derive_key ctx y -> x = y.

Definition blake3_apart (inputs : list (list Z)) : Prop :=
  forall x y, x ∈ inputs -> y ∈ inputs -> blake3_hash x = blake3_hash y -> x = y.

Lemma derive_key_apart_mono inputs inputs' :
  inputs' ⊆ inputs -> derive_key_apart inputs -> derive_key_apart inputs'.
Proof. intros Hs Ha ctx x y Hx Hy. apply Ha; by apply Hs. Qed.

Lemma blake3_apart_mono inputs inputs' : inputs' ⊆ inputs -> blake3_apart inputs -> blake3_apart inputs'.
Proof. intros Hs Ha x y Hx Hy. apply Ha; by apply Hs. Qed.

(** Each digest is computed once and compared with all the others. *)
Definition derive_key_apartb (inputs : list (string * list Z)) : bool :=
  let digests := (fun i => (i, blake3_derive_key i.1 i.2)) <$> inputs in
  forallb (fun a => forallb (fun b =>
    if bool_decide (a.2 = b.2) then
      if bool_decide (a.1.1 = b.1.1) then bool_decide (a.1.2 = b.1.2) else true
    else true) digests) digests.

Lemma derive_key_apartb_ok inputs : derive_key_apartb inputs = true -> derive_key_apart inputs.
Proof.
  intros Hb ctx x y Hx Hy Heq. unfold derive_key_apartb in Hb. rewrite forallb_forall in Hb.
  set (digest := fun i : string * list Z => (i, blake3_derive_key i.1 i.2)) in Hb.
  specialize (Hb (digest (ctx, x))). rewrite forallb_forall in Hb.
  specialize (Hb (proj1 (list_elem_of_In _ _) (list_elem_of_fmap_2 digest _ _ Hx)) (digest (ctx, y))
    (proj1 (list_elem_of_In _ _) (list_elem_of_fmap_2 digest _ _ Hy))).
  cbn in Hb. rewrite (bool_decide_true _ Heq), (bool_decide_true (ctx = ctx)) in Hb by done. by apply bool_decide_eq_true in Hb.
Qed.

Definition blake3_apartb (inputs : list (list Z)) : bool :=
  let digests := (fun i => (i, blake3_hash i)) <$> inputs in
  forallb (fun a => forallb (fun b =>
    if bool_decide (a.2 = b.2) then bool_decide (a.1 = b.1) else true) digests) digests.

Lemma blake3_apartb_ok inputs : blake3_apartb inputs = true -> blake3_apart inputs.
Proof.
  intros Hb x y Hx Hy Heq. unfold blake3_apartb in Hb. rewrite forallb_forall in Hb.
  set (digest := fun i : list Z => (i, blake3_hash i)) in Hb.
  specialize (Hb (digest x)). rewrite forallb_forall in Hb.
  specialize (Hb (proj1 (list_elem_of_In _ _) (list_elem_of_fmap_2 digest _ _ Hx)) (digest y)
    (proj1 (list_elem_of_In _ _) (list_elem_of_fmap_2 digest _ _ Hy))).
  cbn in Hb. rewrite (bool_decide_true _ Heq) in Hb. by apply bool_decide_eq_true in Hb.
Qed.

(** What [hash_pair] hashes. *)
Definition pair_bytes (left right : Hash256) : list Z := hash_to_bytes left ++ hash_to_bytes right.

Lemma hash_pair_inj inputs a b c d :
  blake3_apart inputs -> pair_bytes a b ∈ inputs -> pair_bytes c d ∈ inputs ->
  hash256 a -> hash256 b -> hash256 c -> hash256 d ->
  hash_pair a b = hash_pair c d -> a = c /\ b = d.
Proof.
  intros Ha H1 H2 ???? Heq%(Ha _ _ H1 H2).
  apply app_inj_1 in Heq as [Hl Hr]; [|by rewrite !length_hash_to_bytes].
  by split; apply hash_to_bytes_inj.
Qed.

End Crypto.

(** ** A small concrete instance

    A polynomial checksum and a keyless signature scheme that satisfy the laws:
    the witnesses of the development run on it. *)

Module Demo.

Definition checksum (seed : Z) (bytes : list Z) : Hash256 :=
  foldl (fun acc b => Z.land (acc * 257 + b + 1) (Z.ones 64)) (Z.land seed (Z.ones 64)) bytes.

Definition string_seed (s : string) : Z := Z.of_nat (String.length s) + 7.

Definition pad64 (l : list Z) : list Z := take 64 (l ++ replicate 64 0).

Definition write_parts (tag : Z) (pk sig : list Z) : list Z :=
  tag :: Z.of_nat (length pk) :: pk ++ sig.

Definition write_signature (s : Signature) : list Z :=
  match s with
  | SigEd25519 pk sig => write_parts 0 pk sig
  | SigSecp256k1 sig => write_parts 1 [] sig
  | SigMlDsa65 pk sig => write_parts 2 pk sig
  | SigFalcon512 pk sig => write_parts 3 pk sig
  end.

Definition read_signature (l : list Z) : option Signature :=
  match l with
  | tag :: n :: rest =>
      let pk := take (Z.to_nat n) rest in
      let sig := drop (Z.to_nat n) rest in
      if bool_decide (tag = 0) then Some (SigEd25519 pk sig)
      else if bool_decide (tag = 1) then Some (SigSecp256k1 sig)
      else if bool_decide (tag = 2) then Some (SigMlDsa65 pk sig)
      else if bool_decide (tag = 3) then Some (SigFalcon512 pk sig)
      else None
  | _ => None
  end.

#[export] Instance demo_crypto : Crypto := {|
  blake3_hash := checksum 1;
  blake3_derive_key ctx := checksum (string_seed ctx);
  blake3_keyed_hash key := checksum (checksum 2 key);
  Ed25519Key := list Z;
  ed25519_verifying_key sk := sk;
  ed25519_sign sk msg := pad64 msg;
  ed25519_key_parses _ := true;
  ed25519_verify pk msg sig := bool_decide (sig = pad64 msg);
  Secp256k1Key := list Z;
  secp256k1_point sk := sk;
  secp256k1_sign _ _ := inl "unsupported";
  secp256k1_recover _ _ _ := None;
  ml_dsa_sign _ _ := inl "unsupported";
  ml_dsa_key_parses _ := false;
  ml_dsa_verify _ _ _ := false;
  falcon_sign _ _ := inl "unsupported";
  falcon_key_parses _ := false;
  falcon_sig_parses _ := false;
  falcon_verify _ _ _ := false;
  bincode_signature s := Some (write_signature s);
  bincode_read_signature := read_signature;
  bincode_hashes l := Some (Z.of_nat (length l) :: l);
  bincode_lock '(h, s, t) := Some [h; s; t];
  bincode_pair '(a, b) := Some [a; b];
|}.

Lemma checksum_range seed bytes : hash256 (checksum seed bytes).
Proof.
  assert (forall x, hash256 (Z.land x (Z.ones 64))) as Hland.
  { intros x. rewrite Z.land_ones by lia. unfold hash256.
    pose proof (Z.mod_pos_bound x (2 ^ 64)). lia. }
  unfold checksum. generalize (Hland seed). generalize (Z.land seed (Z.ones 64)).
  induction bytes as [|b bytes IH]; intros acc Hacc; simpl; [done|].
  apply IH, Hland.
Qed.

Lemma read_write_signature s : read_signature (write_signature s) = Some s.
Proof.
  destruct s; unfold read_signature, write_signature, write_parts; simpl;
    rewrite ?Nat2Z.id, ?take_app_length, ?drop_app_length; done.
Qed.

#[export] Instance demo_laws : CryptoLaws.
Proof.
  constructor.
  - intros bytes. apply checksum_range.
  - intros ctx bytes. apply checksum_range.
  - intros key bytes. apply checksum_range.
  - intros s bytes Hs. simpl in *. simplify_eq. apply read_write_signature.
Qed.

End Demo.
