(* ===== verification/Mersenne.v ===== *)
(** * The field of the threshold scheme (crates/arc-crypto/src/threshold.rs lines 32-36,
    103-163)

    Arithmetic modulo 2^61 - 1 by shifts and masks.  The functions are shown to be
    the operations of the field [Zmod MERSENNE_P] of the Standard Library; that
    the modulus is prime is proved by Pocklington's criterion. *)

From S2P Require Import Prelude.
From Stdlib Require Import Zmod Zstar Znumtheory.

(** ** The functions of the source *)

Definition MERSENNE_P : Z := Z.shiftl 1 61 - 1.

Definition mod_mersenne (x : Z) : Z :=
  let p := MERSENNE_P in
  let r := Z.shiftr x 61 + Z.land x p in
  let r := Z.shiftr r 61 + Z.land r p in
  let r := if bool_decide (p <= r) then r - p else r in
  r mod 2 ^ 64.

Definition field_add (a b : Z) : Z := mod_mersenne (a + b).

Definition field_sub (a b : Z) : Z :=
  if bool_decide (b <= a) then
    let d := a - b in
    if bool_decide (MERSENNE_P <= d) then d - MERSENNE_P else d
  else mod_mersenne (a + MERSENNE_P - b).

Definition field_mul (a b : Z) : Z := mod_mersenne (a * b).

(** The loop of [field_pow]: a [u64] exponent has 64 bits, so 64 steps empty it. *)
Fixpoint field_pow_loop (fuel : nat) (result base exp : Z) : Z :=
  match fuel with
  | O => result
  | S fuel' =>
      if bool_decide (0 < exp) then
        let result := if bool_decide (Z.land exp 1 = 1) then field_mul result base else result in
        field_pow_loop fuel' result (field_mul base base) (Z.shiftr exp 1)
      else result
  end.

Definition field_pow (base exp : Z) : Z := field_pow_loop 64 1 (mod_mersenne base) exp.

Definition field_inv {E} (a : Z) : outcome E Z :=
  if bool_decide (a = 0) then Panic else Ok (field_pow a (MERSENNE_P - 2)).

(** ** The functions are exact *)

Lemma MERSENNE_P_val : MERSENNE_P = 2 ^ 61 - 1.
Proof. reflexivity. Qed.

Lemma fold61 x : 0 <= x ->
  Z.shiftr x 61 + Z.land x MERSENNE_P = x / 2 ^ 61 + x mod 2 ^ 61.
Proof.
  intros Hx. rewrite Z.shiftr_div_pow2 by lia. f_equal.
  change MERSENNE_P with (Z.ones 61). by rewrite Z.land_ones.
Qed.

Lemma mod_mersenne_exact x : 0 <= x < 2 ^ 128 -> mod_mersenne x = x mod MERSENNE_P.
Proof.
  intros Hx. unfold mod_mersenne. cbv zeta. rewrite (fold61 x) by lia.
  pose proof (Z.div_mod x (2 ^ 61)) as H1. pose proof (Z.mod_pos_bound x (2 ^ 61)) as B1.
  set (q1 := x / 2 ^ 61) in *. set (m1 := x mod 2 ^ 61) in *.
  assert (0 <= q1 < 2 ^ 67) as Q1 by (subst q1; split; [apply Z.div_pos; lia|apply Z.div_lt_upper_bound; lia]).
  rewrite fold61 by lia.
  pose proof (Z.div_mod (q1 + m1) (2 ^ 61)) as H2. pose proof (Z.mod_pos_bound (q1 + m1) (2 ^ 61)) as B2.
  set (q2 := (q1 + m1) / 2 ^ 61) in *. set (m2 := (q1 + m1) mod 2 ^ 61) in *.
  assert (0 <= q2 <= 64) as Q2 by lia.
  rewrite MERSENNE_P_val.
  assert (x = (q1 + q2) * (2 ^ 61 - 1) + (q2 + m2)) as Hx' by lia.
  case_bool_decide.
  - rewrite (Z.mod_small (_ - _)) by lia. apply (Zmod_unique _ _ (q1 + q2 + 1)); lia.
  - rewrite (Z.mod_small (q2 + m2)) by lia. apply (Zmod_unique _ _ (q1 + q2)); lia.
Qed.

(** The reduced representatives of the field. *)
Definition canonical (x : Z) : Prop := 0 <= x < MERSENNE_P.

Lemma canonical_mod x : canonical (x mod MERSENNE_P).
Proof. apply Z.mod_pos_bound. by rewrite MERSENNE_P_val. Qed.

Lemma canonical_small x : canonical x -> 0 <= x < 2 ^ 61.
Proof. unfold canonical. rewrite MERSENNE_P_val. lia. Qed.

Lemma field_add_exact a b : 0 <= a < 2 ^ 64 -> 0 <= b < 2 ^ 64 ->
  field_add a b = (a + b) mod MERSENNE_P.
Proof. intros. apply mod_mersenne_exact. lia. Qed.

Lemma field_mul_exact a b : 0 <= a < 2 ^ 64 -> 0 <= b < 2 ^ 64 ->
  field_mul a b = (a * b) mod MERSENNE_P.
Proof. intros. apply mod_mersenne_exact. nia. Qed.

Lemma field_sub_exact a b : canonical a -> canonical b ->
  field_sub a b = (a - b) mod MERSENNE_P.
Proof.
  intros Ha Hb. unfold field_sub, canonical in *. rewrite MERSENNE_P_val in *.
  case_bool_decide.
  - rewrite bool_decide_false by lia. by rewrite Z.mod_small by lia.
  - rewrite mod_mersenne_exact, MERSENNE_P_val by lia.
    rewrite (Z.mod_small (a + _ - b)) by lia. apply (Zmod_unique _ _ (-1)); lia.
Qed.

Lemma land_1_odd e : bool_decide (Z.land e 1 = 1) = Z.odd e.
Proof.
  assert (Z.land e 1 = if Z.odd e then 1 else 0) as ->.
  { change 1 with (Z.ones 1) at 1. rewrite Z.land_ones by lia. apply Zmod_odd. }
  by destruct (Z.odd e).
Qed.

Lemma field_pow_loop_exact fuel result base exp :
  canonical result -> canonical base -> 0 <= exp < 2 ^ Z.of_nat fuel ->
  field_pow_loop fuel result base exp = (result * base ^ exp) mod MERSENNE_P.
Proof.
  revert result base exp. induction fuel as [|fuel IH]; intros result base exp Hr Hb He.
  - assert (exp = 0) as -> by (change (2 ^ Z.of_nat 0) with 1 in He; lia). simpl.
    by rewrite Z.mul_1_r, Z.mod_small.
  - cbn [field_pow_loop]. case_bool_decide as Hpos.
    2:{ assert (exp = 0) as -> by lia. by rewrite Z.pow_0_r, Z.mul_1_r, Z.mod_small. }
    pose proof (canonical_small _ Hr). pose proof (canonical_small _ Hb).
    rewrite land_1_odd, !field_mul_exact by lia. rewrite IH.
    + rewrite Z.shiftr_div_pow2 by lia. change (2 ^ 1) with 2.
      pose proof (Z.div2_odd exp) as Hodd. rewrite Z.div2_div in Hodd.
      set (h := exp / 2) in *. assert (0 <= h) by (subst h; apply Z.div_pos; lia).
      rewrite Hodd at 2. rewrite Z.pow_add_r, Z.pow_mul_r, Z.pow_2_r by (destruct (Z.odd exp); simpl; lia).
      rewrite <- Zmult_mod_idemp_r, Z.mod_pow_l, Zmult_mod_idemp_r.
      destruct (Z.odd exp); simpl Z.b2z; rewrite ?Z.pow_1_r, ?Z.pow_0_r, ?Z.mul_1_r.
      * rewrite Zmult_mod_idemp_l. f_equal. ring.
      * done.
    + destruct (Z.odd exp); [apply canonical_mod|done].
    + apply canonical_mod.
    + rewrite Z.shiftr_div_pow2 by lia. change (2 ^ 1) with 2.
      rewrite Nat2Z.inj_succ, Z.pow_succ_r in He by lia.
      split; [apply Z.div_pos; lia|apply Z.div_lt_upper_bound; lia].
Qed.

Lemma field_pow_exact base exp :
  0 <= base < 2 ^ 64 -> 0 <= exp < 2 ^ 64 ->
  field_pow base exp = (base ^ exp) mod MERSENNE_P.
Proof.
  intros Hb He. unfold field_pow. rewrite mod_mersenne_exact by lia.
  rewrite field_pow_loop_exact.
  - by rewrite Z.mul_1_l, Z.mod_pow_l.
  - unfold canonical. rewrite MERSENNE_P_val. lia.
  - apply canonical_mod.
  - exact He.
Qed.

(** ** Pocklington's criterion *)

Section Pocklington.
Context (n a : Z) (Hn : 1 < n) (Ha : a ^ (n - 1) mod n = 1).

(** If [q] divides [n - 1] and [a^((n-1)/q) - 1] is a unit modulo [n], then [q]
    divides [r - 1] for every prime divisor [r] of [n]. *)
Lemma pocklington_factor q m r :
  Z.prime r -> (r | n) -> Z.prime q -> n - 1 = q * m -> 0 <= m ->
  Z.coprime (a ^ m - 1) n -> (q | r - 1).
Proof.
  intros Hr Hrn Hq Hm Hm0 Hunit. pose proof (proj1 Hr) as Hr1.
  assert (Zmod.pow (Zmod.of_Z r a) (n - 1) = Zmod.one) as Hone.
  { rewrite <- Zmod.of_Z_pow, <- Zmod.of_Z_1 by lia. apply Zmod.of_Z_inj.
    destruct Hrn as [c ->].
    by rewrite (Zmod_div_mod r (c * r) (a ^ (c * r - 1))), Ha by (try nia; by exists c). }
  assert (Z.coprime (Zmod.unsigned (Zmod.of_Z r a)) r) as Hcop.
  { rewrite Zmod.unsigned_of_Z. apply Z.coprime_mod_l_iff. unfold Z.coprime.
    rewrite Z.gcd_comm. apply Z.coprime_prime_l; [done|]. intros [c ->].
    replace (Zmod.of_Z r (c * r)) with (@Zmod.zero r) in Hone.
    - rewrite Zmod.pow_0_l in Hone by lia. symmetry in Hone. by apply (@Zmod.one_neq_zero r) in Hone; [|lia].
    - rewrite <- Zmod.of_Z_0. apply Zmod.of_Z_inj. by rewrite Z_mod_mult, Zmod_0_l. }
  destruct (Zdivide_dec q (r - 1)) as [|Hndiv]; [done|exfalso].
  apply (Z.coprime_prime_l q _ Hq), Z.Bezout_coprime_iff in Hndiv as (u & v & Huv).
  set (x := Zstar.of_Zmod (Zmod.of_Z r a)).
  assert (Zstar.to_Zmod x = Zmod.of_Z r a) as Hx by (by apply Zstar.to_Zmod_of_Zmod).
  assert (Zstar.pow x m = Zstar.one) as Hxm.
  { replace m with ((n - 1) * u + Z.pred r * (v * m)) by nia.
    rewrite Zstar.pow_add_r, !Zstar.pow_mul_r, (Zstar.fermat x Hr).
    replace (Zstar.pow x (n - 1)) with (@Zstar.one r).
    - by rewrite !Zstar.pow_1_l, Zstar.mul_1_l.
    - apply Zstar.to_Zmod_inj. by rewrite Zstar.to_Zmod_pow, Hx, Hone, Zstar.to_Zmod_1. }
  apply (f_equal Zstar.to_Zmod) in Hxm.
  rewrite Zstar.to_Zmod_pow, Hx, Zstar.to_Zmod_1, <- Zmod.of_Z_pow, <- Zmod.of_Z_1 in Hxm by lia.
  apply Zmod.of_Z_inj in Hxm.
  assert ((r | Z.gcd (a ^ m - 1) n)) as Hdiv.
  { apply Z.gcd_greatest; [|done]. apply Z.mod_divide; [lia|].
    rewrite Zminus_mod, Hxm, <- Zminus_mod. by rewrite Z.sub_diag. }
  rewrite Hunit in Hdiv. apply Z.divide_1_r in Hdiv. lia.
Qed.

End Pocklington.

Lemma prime_divisor_exists d : 1 < d -> exists r, Z.prime r /\ (r | d) /\ r <= d.
Proof.
  intros Hd. assert (0 <= d) as Hd0 by lia. revert d Hd0 Hd.
  apply (Z_lt_induction (fun d => 1 < d -> exists r, Z.prime r /\ (r | d) /\ r <= d)).
  intros d IH Hd. destruct (prime_dec d) as [Hp|Hp].
  - exists d. by rewrite prime_alt.
  - destruct (not_prime_divide d Hd Hp) as (k & Hk & Hkd).
    destruct (IH k) as (r & Hr & Hrk & Hle); [lia..|].
    exists r. split; [done|]. split; [by transitivity k|lia].
Qed.

(** Enough such factors leave no room for a divisor below the square root. *)
Lemma pocklington_prime n F :
  1 < n -> 0 < F -> n < F * F -> (forall r, Z.prime r -> (r | n) -> (F | r - 1)) -> Z.prime n.
Proof.
  intros Hn HF0 HF Hall. split; [done|]. intros d [Hd1 Hd2] [c Hc].
  assert (exists s, 1 < s /\ (s | n) /\ s * s <= n) as (s & Hs & Hsn & Hsq).
  { destruct (Z.le_gt_cases d c).
    - exists d. split; [lia|]. split; [by exists c|nia].
    - exists c. split; [nia|]. split; [exists d; lia|nia]. }
  destruct (prime_divisor_exists s Hs) as (r & Hr & Hrs & Hle).
  pose proof (proj1 Hr). assert (F <= r - 1); [|nia].
  apply Z.divide_pos_le; [lia|]. apply Hall; [done|]. by transitivity s.
Qed.

(** Four prime factors of [MERSENNE_P - 1] whose product exceeds its square root. *)
Definition mersenne_factors : list Z := [61; 151; 331; 1321].

(** Trial division, for the small factors. *)
Definition trial_prime (n : Z) : bool :=
  bool_decide (1 < n) &&
  forallb (fun d => negb (bool_decide (n mod d = 0))) (Z.of_nat <$> seq 2 (Z.to_nat (n - 2))).

Lemma trial_prime_ok n : trial_prime n = true -> Z.prime n.
Proof.
  unfold trial_prime. rewrite andb_true_iff, bool_decide_eq_true, List.forallb_forall.
  intros [Hn Hall]. split; [done|]. intros d Hd Hdiv.
  assert (d ∈ Z.of_nat <$> seq 2 (Z.to_nat (n - 2))) as Hin.
  { apply list_elem_of_fmap. exists (Z.to_nat d). split; [lia|]. apply elem_of_seq. lia. }
  apply list_elem_of_In, Hall, negb_true_iff, bool_decide_eq_false in Hin.
  apply Hin, Z.mod_divide; [lia|done].
Qed.

(** The premises of the criterion at base [a], evaluated with [field_pow] itself. *)
Definition pocklington_checks (a : Z) (factors : list Z) : bool :=
  bool_decide (field_pow a (MERSENNE_P - 1) = 1) &&
  forallb (fun q => trial_prime q && bool_decide ((MERSENNE_P - 1) mod q = 0) &&
                    bool_decide (Z.gcd (field_pow a ((MERSENNE_P - 1) / q) - 1) MERSENNE_P = 1))
    factors.

Lemma pocklington_checks_ok a factors q r :
  pocklington_checks a factors = true -> 0 <= a < 2 ^ 64 ->
  q ∈ factors -> Z.prime r -> (r | MERSENNE_P) -> (q | r - 1).
Proof.
  unfold pocklington_checks. rewrite andb_true_iff, bool_decide_eq_true, List.forallb_forall.
  intros [Hone Hall] Ha Hq Hr Hdiv. apply list_elem_of_In, Hall in Hq. clear Hall.
  rewrite !andb_true_iff, !bool_decide_eq_true in Hq. destruct Hq as [[Hp Hmod] Hgcd].
  apply trial_prime_ok in Hp. pose proof (proj1 Hp).
  assert (MERSENNE_P = 2 ^ 61 - 1) as HP by reflexivity.
  apply Z.mod_divide in Hmod as [m Hm]; [|lia].
  assert (0 <= m < 2 ^ 61) by nia.
  rewrite Hm, Z.div_mul in Hgcd by lia.
  rewrite field_pow_exact in Hone, Hgcd by lia.
  apply (pocklington_factor MERSENNE_P a ltac:(lia) Hone q m r); [done..|lia|lia|].
  apply Z.coprime_mod_l_iff. rewrite <- Zminus_mod_idemp_l. by apply Z.coprime_mod_l_iff.
Qed.

Lemma coprime_divide_mul a b c : Z.coprime a b -> (a | c) -> (b | c) -> (a * b | c).
Proof.
  intros Hab [x ->] Hb. rewrite (Z.mul_comm x a) in *.
  apply Z.gauss in Hb as [y ->]; [|by rewrite Z.gcd_comm]. exists y. ring.
Qed.

(** 2^61 - 1 is prime. *)
Lemma mersenne_prime : Z.prime MERSENNE_P.
Proof.
  apply (pocklington_prime _ (61 * (151 * (331 * 1321))));
    [reflexivity..|].
  intros r Hr Hdiv. repeat apply coprime_divide_mul; try reflexivity;
    (eapply (pocklington_checks_ok 3 mersenne_factors);
     [by vm_compute|done|unfold mersenne_factors; set_solver|done..]).
Qed.

(** ** The field the functions compute in *)

Notation Fp := (Zmod MERSENNE_P).

Definition el (x : Z) : Fp := Zmod.of_Z MERSENNE_P x.

Lemma canonical_0 : canonical 0.
Proof. split; reflexivity || discriminate. Qed.

Lemma canonical_1 : canonical 1.
Proof. split; reflexivity || discriminate. Qed.

Lemma el_inj a b : canonical a -> canonical b -> el a = el b -> a = b.
Proof. intros Ha Hb Hab%Zmod.of_Z_inj. by rewrite !Z.mod_small in Hab. Qed.

Lemma el_mod_mersenne x : 0 <= x < 2 ^ 128 -> el (mod_mersenne x) = el x.
Proof. intros. rewrite mod_mersenne_exact by done. apply Zmod.of_Z_mod. Qed.

Section Correspondence.
Context (a b : Z) (Ha : canonical a) (Hb : canonical b).

Lemma field_add_canonical : canonical (field_add a b).
Proof.
  pose proof (canonical_small _ Ha). pose proof (canonical_small _ Hb).
  rewrite field_add_exact by lia. apply canonical_mod.
Qed.

Lemma field_sub_canonical : canonical (field_sub a b).
Proof. rewrite field_sub_exact by done. apply canonical_mod. Qed.

Lemma field_mul_canonical : canonical (field_mul a b).
Proof.
  pose proof (canonical_small _ Ha). pose proof (canonical_small _ Hb).
  rewrite field_mul_exact by lia. apply canonical_mod.
Qed.

Lemma el_add : el (field_add a b) = Zmod.add (el a) (el b).
Proof.
  pose proof (canonical_small _ Ha). pose proof (canonical_small _ Hb).
  rewrite field_add_exact by lia. unfold el. by rewrite Zmod.of_Z_mod, Zmod.of_Z_add.
Qed.

Lemma el_sub : el (field_sub a b) = Zmod.sub (el a) (el b).
Proof. rewrite field_sub_exact by done. unfold el. by rewrite Zmod.of_Z_mod, Zmod.of_Z_sub. Qed.

Lemma el_mul : el (field_mul a b) = Zmod.mul (el a) (el b).
Proof.
  pose proof (canonical_small _ Ha). pose proof (canonical_small _ Hb).
  rewrite field_mul_exact by lia. unfold el. by rewrite Zmod.of_Z_mod, Zmod.of_Z_mul.
Qed.

End Correspondence.

Lemma el_0 : el 0 = Zmod.zero.
Proof. apply Zmod.of_Z_0. Qed.

Lemma el_1 : el 1 = Zmod.one.
Proof. apply Zmod.of_Z_1. Qed.

Lemma el_zero_iff a : canonical a -> el a = Zmod.zero <-> a = 0.
Proof.
  intros Ha. split; [|intros ->; apply el_0]. rewrite <- el_0.
  by apply el_inj, canonical_0.
Qed.

(** Fermat's theorem makes [field_inv] the inverse. *)
Lemma field_inv_ok {E} a : canonical a -> a <> 0 ->
  exists i, field_inv (E := E) a = Ok i /\ canonical i /\ el i = Zmod.inv (el a).
Proof.
  intros Ha Hnz. unfold field_inv. rewrite bool_decide_false by done.
  pose proof (canonical_small _ Ha). pose proof MERSENNE_P_val as HP.
  assert (MERSENNE_P - 2 = 2 ^ 61 - 3) as He by lia.
  eexists. split; [done|]. rewrite field_pow_exact by lia. split; [apply canonical_mod|].
  unfold el at 1. rewrite Zmod.of_Z_mod, Zmod.of_Z_pow by lia.
  apply Zmod.fermat_inv; [|apply mersenne_prime]. by rewrite el_zero_iff.
Qed.

Create HintDb field61.
#[export] Hint Resolve canonical_0 canonical_1 canonical_mod field_add_canonical
  field_sub_canonical field_mul_canonical : field61.

(** C34: the shift-and-mask routines of the threshold scheme compute in the field of
    integers modulo the prime 2^61 - 1: addition, multiplication and exponentiation are
    exact on all [u64] operands, subtraction on all reduced ones, and [field_inv] gives
    the inverse of every reduced operand but zero, where it aborts. *)
Theorem field_arithmetic_exact (a b : Z) (Ha : u64 a) (Hb : u64 b) :
  Z.prime MERSENNE_P /\
  field_add a b = (a + b) mod MERSENNE_P /\
  field_mul a b = (a * b) mod MERSENNE_P /\
  field_pow a b = a ^ b mod MERSENNE_P /\
  (a < MERSENNE_P -> b < MERSENNE_P -> field_sub a b = (a - b) mod MERSENNE_P) /\
  (a < MERSENNE_P ->
     match field_inv (E := unit) a with
     | Ok i => 0 <= i < MERSENNE_P /\ (a * i) mod MERSENNE_P = 1
     | Err _ => False
     | Panic => a = 0
     end).
Proof.
  assert (2 ^ 64 = u64_max + 1) as Hmax by reflexivity. unfold u64 in Ha, Hb.
  split; [exact mersenne_prime|]. split; [apply field_add_exact; lia|].
  split; [apply field_mul_exact; lia|]. split; [apply field_pow_exact; lia|].
  split; [intros; apply field_sub_exact; unfold canonical; lia|]. intros Hc.
  destruct (decide (a = 0)) as [->|Hnz]; [done|].
  assert (canonical a) as Hcan by (unfold canonical; lia).
  destruct (field_inv_ok (E := unit) a Hcan Hnz) as (i & -> & Hi & Hel). split; [exact Hi|].
  assert (el (a * i) = el 1) as Hone.
  { unfold el in *. rewrite Zmod.of_Z_mul, Hel, Zmod.of_Z_1.
    apply Zmod.mul_inv_same_r_prime; [apply mersenne_prime|]. by apply el_zero_iff in Hcan as ->. }
  apply Zmod.of_Z_inj in Hone. rewrite Hone. by apply Z.mod_small, canonical_1.
Qed.

Lemma field_arithmetic_exact_witness :
  field_mul (MERSENNE_P - 1) (MERSENNE_P - 1) =
    ((MERSENNE_P - 1) * (MERSENNE_P - 1)) mod MERSENNE_P.
Proof.
  refine (proj1 (proj2 (proj2 (field_arithmetic_exact (MERSENNE_P - 1) (MERSENNE_P - 1) _ _))));
    eval_range.
Defined.
