(* ===== verification/Threshold.v ===== *)
(** * Threshold shares and signatures (crates/arc-crypto/src/threshold.rs lines 38-463)

    Shamir sharing over the field of Mersenne.v: generation of shares, recovery by
    Lagrange interpolation at zero, commitments to shares, and the hash-based partial
    signatures.  A [u8; 32] is a list of 32 bytes.  [shamir_recovery] says that every
    choice of enough distinct shares recovers the same field element. *)

From S2P Require Import Prelude Crypto Mersenne.
From Stdlib Require Import Zmod.

Inductive ThresholdError :=
| InsufficientShares (needed got : Z)
| InvalidShare (index : Z)
| DuplicateIndex (index : Z)
| InterpolationError (msg : string).

Record ThresholdScheme := mkThresholdScheme {
  ts_threshold : Z;
  ts_total_shares : Z;
  ts_dealer : option (list Z);
}.

Record SecretShare := mkSecretShare {
  ss_index : Z;
  ss_value : list Z;
  ss_commitment : list Z;
}.

#[global] Instance SecretShare_eq_dec : EqDecision SecretShare.
Proof. solve_decision. Defined.

Record PartialSignature := mkPartialSignature {
  ps_signer_index : Z;
  ps_signature : list Z;
  ps_proof : list Z;
}.

Record ThresholdSigner := mkThresholdSigner {
  signer_scheme : ThresholdScheme;
  signer_share : SecretShare;
}.

(** [&l[..n]]. *)
Definition slice_to {E A} (n : Z) (l : list A) : outcome E (list A) :=
  if bool_decide (n <= Z.of_nat (length l)) then Ok (take (Z.to_nat n) l) else Panic.

(** [len as u32]. *)
Definition len_u32 {A} (l : list A) : Z := Z.of_nat (length l) mod 2 ^ 32.

(** The loop that inserts every index into a [HashSet]. *)
Fixpoint first_duplicate (seen : gset Z) (l : list Z) : option Z :=
  match l with
  | [] => None
  | i :: l' => if bool_decide (i ∈ seen) then Some i else first_duplicate ({[i]} ∪ seen) l'
  end.

Definition eval_polynomial (coeffs : list Z) (x : Z) : Z :=
  foldl (fun result c => field_add (field_mul result x) c) 0 (reverse coeffs).

(** The inner loop of the Lagrange basis: numerator and denominator at zero of the
    [i]-th of the points [xs]. *)
Definition basis_step (i : nat) (x_i : Z) (acc : Z * Z) (p : nat * Z) : Z * Z :=
  let '(numerator, denominator) := acc in
  let '(j, x_j) := p in
  if bool_decide (i = j) then acc
  else (field_mul numerator (field_sub 0 x_j), field_mul denominator (field_sub x_i x_j)).

Definition basis_products (i : nat) (x_i : Z) (xs : list Z) : Z * Z :=
  foldl (basis_step i x_i) (1, 1) (imap pair xs).

Definition lagrange_weight (msg : string) (i : nat) (x_i : Z) (xs : list Z)
    : outcome ThresholdError Z :=
  let '(numerator, denominator) := basis_products i x_i xs in
  if bool_decide (denominator = 0) then Err (InterpolationError msg)
  else inverse ← field_inv denominator; Ok (field_mul numerator inverse).

Fixpoint interpolate_from (i : nat) (result : Z) (xs : list Z) (points : list (Z * Z))
    : outcome ThresholdError Z :=
  match points with
  | [] => Ok result
  | (x_i, y_i) :: points' =>
      basis ← lagrange_weight "zero denominator in Lagrange basis" i x_i xs;
      interpolate_from (S i) (field_add result (field_mul y_i basis)) xs points'
  end.

Definition lagrange_interpolate_at_zero (points : list (Z * Z)) : outcome ThresholdError Z :=
  interpolate_from 0 0 points.*1 points.

Section Threshold.
Context `{Crypto}.

Definition bytes_to_field (b : list Z) : Z := mod_mersenne (from_le_bytes (take 8 b)).

Definition field_to_bytes (val : Z) : list Z :=
  u64_le val ++ take 24 (hash_to_bytes (blake3_hash (u64_le val))).

Definition commit_share (value : list Z) : list Z :=
  hash_to_bytes (blake3_hash (ascii_bytes "arc-threshold-commitment" ++ value)).

(** The coefficients above the constant one: a hash chain from the secret. *)
Fixpoint poly_coeffs (rng_state : list Z) (i : Z) (count : nat) : list Z :=
  match count with
  | O => []
  | S count' =>
      let rng_state' := hash_to_bytes (blake3_hash
        (ascii_bytes "arc-threshold-poly-coeff" ++ rng_state ++ to_le_bytes 4 i)) in
      bytes_to_field rng_state' :: poly_coeffs rng_state' (i + 1) count'
  end.

Definition share_at (coeffs : list Z) (x : Z) : SecretShare :=
  let value := field_to_bytes (eval_polynomial coeffs (mod_mersenne x)) in
  mkSecretShare x value (commit_share value).

Definition generate_shares (secret : list Z) (threshold total : Z)
    : outcome ThresholdError (list SecretShare) :=
  if bool_decide (1 <= threshold) && bool_decide (threshold <= total) then
    let coeffs := bytes_to_field secret :: poly_coeffs secret 1 (Z.to_nat (threshold - 1)) in
    Ok ((fun x => share_at coeffs (Z.of_nat x)) <$> seq 1 (Z.to_nat total))
  else Panic.

Definition share_point (s : SecretShare) : Z * Z :=
  (mod_mersenne (ss_index s), bytes_to_field (ss_value s)).

Definition recover_secret (shares : list SecretShare) (threshold : Z)
    : outcome ThresholdError (list Z) :=
  _ ← require (negb (bool_decide (len_u32 shares < threshold)))
        (InsufficientShares threshold (len_u32 shares));
  match first_duplicate ∅ (ss_index <$> shares) with
  | Some i => Err (DuplicateIndex i)
  | None =>
      subset ← slice_to threshold shares;
      secret_field ← lagrange_interpolate_at_zero (share_point <$> subset);
      Ok (field_to_bytes secret_field)
  end.

Definition verify_share (share : SecretShare) (commitments : list (list Z)) : bool :=
  if bool_decide (ss_index share = 0) || bool_decide (Z.of_nat (length commitments) < ss_index share)
  then false
  else bool_decide (commitments !! Z.to_nat (ss_index share - 1) = Some (commit_share (ss_value share))).

(** ** The signer *)

Definition partial_sign (self : ThresholdSigner) (message : list Z) : PartialSignature :=
  let share := signer_share self in
  let sig := hash_to_bytes (blake3_hash
    (ascii_bytes "arc-threshold-partial-sig" ++ ss_value share ++ message)) in
  let proof := hash_to_bytes (blake3_hash
    (ascii_bytes "arc-threshold-sig-proof" ++ ss_commitment share ++ sig)) in
  mkPartialSignature (ss_index share) sig proof.

(** The bytes the combiner hashes after its tag. *)
Fixpoint contributions (i : nat) (indices : list Z) (partials : list PartialSignature)
    : outcome ThresholdError (list Z) :=
  match partials with
  | [] => Ok []
  | partial :: partials' =>
      weight ← lagrange_weight "zero denominator in partial combination" i
                 (mod_mersenne (ps_signer_index partial)) indices;
      rest ← contributions (S i) indices partials';
      Ok (hash_to_bytes (blake3_hash (u64_le weight ++ ps_signature partial)) ++ rest)
  end.

Definition combine_partials (self : ThresholdSigner) (partials : list PartialSignature)
    : outcome ThresholdError (list Z) :=
  let needed := ts_threshold (signer_scheme self) in
  _ ← require (negb (bool_decide (len_u32 partials < needed)))
        (InsufficientShares needed (len_u32 partials));
  match first_duplicate ∅ (ps_signer_index <$> partials) with
  | Some i => Err (DuplicateIndex i)
  | None =>
      bytes ← contributions 0 ((fun p => mod_mersenne (ps_signer_index p)) <$> partials) partials;
      Ok (hash_to_bytes (blake3_hash (ascii_bytes "arc-threshold-combine" ++ bytes)))
  end.

Definition verify_combined (message combined_sig public_key : list Z) : bool :=
  negb (bool_decide (combined_sig = replicate 32 0)).

Definition derive_public_key (secret : list Z) : list Z :=
  hash_to_bytes (blake3_hash (ascii_bytes "arc-threshold-pubkey" ++ secret)).

End Threshold.

(** ** Polynomials over the field *)

From Stdlib Require Import Field.

Section Polynomials.

Add Field Fp_field : (Zmod.field_theory MERSENNE_P mersenne_prime).

Notation "0" := (@Zmod.zero MERSENNE_P) : fp_scope.
Notation "1" := (@Zmod.one MERSENNE_P) : fp_scope.
Infix "+" := (@Zmod.add MERSENNE_P) : fp_scope.
Infix "-" := (@Zmod.sub MERSENNE_P) : fp_scope.
Infix "*" := (@Zmod.mul MERSENNE_P) : fp_scope.
Delimit Scope fp_scope with fp.

#[local] Instance Fp_eq_dec : EqDecision Fp.
Proof.
  intros x y. destruct (Zmod.eqb x y) eqn:E; [left|right].
  - by apply Zmod.eqb_eq.
  - intros Hxy%Zmod.eqb_eq. congruence.
Defined.

Lemma mul_zero (a b : Fp) : (a * b)%fp = 0%fp -> a = 0%fp \/ b = 0%fp.
Proof. apply (Zmod.mul_0_iff_prime mersenne_prime). Qed.

Definition peval (c : list Fp) (x : Fp) : Fp := foldr (fun a acc => (a + x * acc)%fp) 0%fp c.

(** Division by a linear factor. *)
Lemma peval_divide c a : exists q, (length q <= pred (length c))%nat /\
  forall x, peval c x = (peval c a + (x - a) * peval q x)%fp.
Proof.
  induction c as [|c0 c [q [Hlen Hq]]].
  { exists []. split; [done|]. intros x. simpl. ring. }
  destruct c as [|c1 c].
  { exists []. split; [simpl; lia|]. intros x. simpl. ring. }
  exists (peval (c1 :: c) a :: q). split; [simpl in *; lia|]. intros x.
  change (peval (c0 :: ?l) ?z) with (c0 + z * peval l z)%fp.
  change (peval (?h :: q) x) with (h + x * peval q x)%fp. rewrite (Hq x). ring.
Qed.

(** A polynomial with as many distinct roots as coefficients is zero. *)
Lemma peval_roots xs : forall c, (length c <= length xs)%nat -> NoDup xs ->
  (forall x, x ∈ xs -> peval c x = 0%fp) -> forall x, peval c x = 0%fp.
Proof.
  induction xs as [|a xs IH]; intros c Hlen Hdup Hroots x.
  { destruct c; [done|simpl in Hlen; lia]. }
  destruct (peval_divide c a) as (q & Hq & Heq). apply NoDup_cons in Hdup as [Ha Hdup].
  assert (peval c a = 0%fp) as Hca by (apply Hroots; set_solver).
  assert (forall y, peval q y = 0%fp) as Hq0.
  { apply IH; [simpl in Hlen; lia|done|]. intros y Hy.
    assert (peval c y = 0%fp) as Hcy by (apply Hroots; set_solver).
    rewrite Heq, Hca in Hcy.
    assert (((y - a) * peval q y)%fp = 0%fp) as Hprod by (rewrite <- Hcy; ring).
    apply mul_zero in Hprod as [Hya|]; [|done].
    apply Zmod.sub_eq_0 in Hya as ->. done. }
  rewrite Heq, Hca, Hq0. ring.
Qed.

(** The functions given by at most [n] coefficients. *)
Definition poly_fun (n : nat) (f : Fp -> Fp) : Prop :=
  exists c, (length c <= n)%nat /\ forall x, f x = peval c x.

Fixpoint padd (c d : list Fp) : list Fp :=
  match c, d with
  | [], _ => d
  | _, [] => c
  | a :: c', b :: d' => (a + b)%fp :: padd c' d'
  end.

Lemma peval_padd c d x : peval (padd c d) x = (peval c x + peval d x)%fp.
Proof.
  revert d. induction c as [|a c IH]; intros [|b d]; simpl; try ring.
  rewrite IH. ring.
Qed.

Lemma length_padd c d : length (padd c d) = Nat.max (length c) (length d).
Proof. revert d. induction c as [|a c IH]; intros [|b d]; simpl; auto. Qed.

Lemma poly_fun_add n f g : poly_fun n f -> poly_fun n g -> poly_fun n (fun x => (f x + g x)%fp).
Proof.
  intros (c & Hc & Hf) (d & Hd & Hg). exists (padd c d).
  rewrite length_padd. split; [lia|]. intros x. by rewrite peval_padd, Hf, Hg.
Qed.

Lemma peval_scale c k x : peval (Zmod.mul k <$> c) x = (k * peval c x)%fp.
Proof.
  induction c as [|a c IH]; [simpl; ring|]. rewrite fmap_cons.
  change (peval (?h :: ?l) x) with (h + x * peval l x)%fp. rewrite IH. ring.
Qed.

Lemma poly_fun_scale n f k : poly_fun n f -> poly_fun n (fun x => (k * f x)%fp).
Proof.
  intros (c & Hc & Hf). exists (Zmod.mul k <$> c). rewrite length_fmap. split; [done|].
  intros x. by rewrite peval_scale, Hf.
Qed.

Lemma poly_fun_linear n f a : poly_fun n f -> poly_fun (S n) (fun x => ((x - a) * f x)%fp).
Proof.
  intros (c & Hc & Hf). exists (padd (0%fp :: c) (Zmod.mul (Zmod.opp a) <$> c)).
  rewrite length_padd, length_fmap. split; [simpl; lia|].
  intros x. rewrite peval_padd, peval_scale, Hf.
  change (peval (0%fp :: c) x) with (0 + x * peval c x)%fp. ring.
Qed.

Lemma poly_fun_const n k : poly_fun (S n) (fun _ => k).
Proof. exists [k]. split; [simpl; lia|]. intros x. simpl. ring. Qed.

Lemma poly_fun_zero n : poly_fun n (fun _ => 0%fp).
Proof. exists []. split; [simpl; lia|done]. Qed.

(** ** Lagrange interpolation *)

Definition fprod (l : list Fp) : Fp := foldr Zmod.mul 1%fp l.

Lemma fprod_zero l : fprod l = 0%fp <-> 0%fp ∈ l.
Proof.
  induction l as [|a l IH]; simpl.
  - split; [|set_solver]. intros H1. exfalso. revert H1. apply Zmod.one_neq_zero.
    rewrite MERSENNE_P_val. lia.
  - rewrite elem_of_cons, <- IH. split.
    + intros [->| ->]%mul_zero; auto.
    + intros [<-| ->]; ring.
Qed.

(** The differences of [z] with the points other than the [i]-th. *)
Definition gaps (xs : list Fp) (i : nat) (z : Fp) : Fp := fprod ((fun x => (z - x)%fp) <$> delete i xs).

Lemma gaps_zero xs i z : gaps xs i z = 0%fp <-> z ∈ delete i xs.
Proof.
  unfold gaps. rewrite fprod_zero, list_elem_of_fmap. split.
  - intros (x & Hx & Hin). symmetry in Hx. by apply Zmod.sub_eq_0 in Hx as ->.
  - intros Hin. exists z. split; [ring|done].
Qed.

Lemma gaps_poly xs i : (i < length xs)%nat -> poly_fun (length xs) (gaps xs i).
Proof.
  intros Hi. assert (length xs = S (length (delete i xs))) as ->.
  { destruct (lookup_lt_is_Some_2 xs i Hi) as [x Hx].
    by rewrite (delete_Permutation xs i x Hx) at 1. }
  unfold gaps. induction (delete i xs) as [|a l IH].
  - exact (poly_fun_const 0 1%fp).
  - exact (poly_fun_linear _ _ a IH).
Qed.

Fixpoint lagrange_from (i : nat) (xs : list Fp) (pts : list (Fp * Fp)) (z : Fp) : Fp :=
  match pts with
  | [] => 0%fp
  | (x_i, y_i) :: pts' =>
      (y_i * (gaps xs i z * Zmod.inv (gaps xs i x_i)) + lagrange_from (S i) xs pts' z)%fp
  end.

Lemma lagrange_from_poly xs : forall pts i, (i + length pts <= length xs)%nat ->
  poly_fun (length xs) (lagrange_from i xs pts).
Proof.
  induction pts as [|[x y] pts IH]; intros i Hi; [apply poly_fun_zero|].
  simpl in Hi. apply poly_fun_add; [|apply IH; lia].
  destruct (gaps_poly xs i) as (c & Hc & Hg); [lia|].
  exists (Zmod.mul (y * Zmod.inv (gaps xs i x))%fp <$> c). rewrite length_fmap. split; [done|].
  intros z. rewrite peval_scale, Hg. ring.
Qed.

Lemma gaps_at xs i k x x' : NoDup xs -> xs !! i = Some x -> xs !! k = Some x' ->
  gaps xs i x' = 0%fp <-> i <> k.
Proof.
  intros Hdup Hi Hk. rewrite gaps_zero.
  pose proof (delete_Permutation xs i x Hi) as Hperm.
  assert (NoDup (x :: delete i xs)) as [Hnin _]%NoDup_cons by (by rewrite <- Hperm).
  assert (x' ∈ x :: delete i xs) as Hin by (rewrite <- Hperm; by eapply list_elem_of_lookup_2).
  split.
  - intros Hx' ->. by simplify_eq.
  - intros Hne. apply elem_of_cons in Hin as [->|]; [|done].
    destruct Hne. by eapply NoDup_lookup.
Qed.

Lemma lagrange_from_at pts0 k x y : NoDup pts0.*1 -> pts0 !! k = Some (x, y) ->
  forall pts i, drop i pts0 = pts ->
  lagrange_from i pts0.*1 pts x = if bool_decide (i <= k)%nat then y else 0%fp.
Proof.
  intros Hdup Hk. assert (pts0.*1 !! k = Some x) as Hkx by (by rewrite list_lookup_fmap, Hk).
  induction pts as [|[x_i y_i] pts IH]; intros i Hdrop; simpl.
  { rewrite bool_decide_false; [done|]. intros Hle.
    apply lookup_lt_Some in Hk. apply (f_equal length) in Hdrop.
    rewrite length_drop in Hdrop. simpl in Hdrop. lia. }
  assert (pts0 !! i = Some (x_i, y_i)) as Hi.
  { rewrite <- (Nat.add_0_r i), <- lookup_drop, Hdrop. done. }
  assert (pts0.*1 !! i = Some x_i) as Hix by (by rewrite list_lookup_fmap, Hi).
  assert (drop (S i) pts0 = pts) as Hdrop'.
  { by rewrite <- (Nat.add_1_r i), <- drop_drop, Hdrop. }
  rewrite (IH _ Hdrop'). destruct (decide (i = k)) as [->|Hne].
  - rewrite bool_decide_false, bool_decide_true by lia. simplify_eq.
    assert (gaps pts0.*1 k x <> 0%fp) by (rewrite gaps_at by eauto; naive_solver).
    field. done.
  - assert (gaps pts0.*1 i x = 0%fp) as -> by (by eapply gaps_at).
    rewrite (bool_decide_ext (S i <= k)%nat (i <= k)%nat) by lia. ring.
Qed.

(** Interpolation through the values of a polynomial gives the polynomial. *)
Lemma lagrange_polynomial c pts :
  NoDup pts.*1 -> (length c <= length pts)%nat -> Forall (fun p => p.2 = peval c p.1) pts ->
  forall z, lagrange_from 0 pts.*1 pts z = peval c z.
Proof.
  intros Hdup Hlen Hval z.
  destruct (lagrange_from_poly pts.*1 pts 0) as (d & Hd & Hg); [by rewrite length_fmap|].
  rewrite length_fmap in Hd. rewrite Hg.
  assert (forall x, peval (padd d (Zmod.mul (Zmod.opp 1%fp) <$> c)) x = 0%fp) as Hzero.
  { apply (peval_roots pts.*1); [|done|].
    { rewrite length_padd, !length_fmap. lia. }
    intros x ([x' y] & -> & Hin)%list_elem_of_fmap. simpl.
    apply list_elem_of_lookup in Hin as [k Hk].
    rewrite peval_padd, peval_scale, <- Hg, (lagrange_from_at pts k x' y Hdup Hk pts 0 eq_refl).
    rewrite bool_decide_true by lia.
    eapply Forall_lookup_1 in Hval; [|exact Hk]. simpl in Hval. rewrite Hval. ring. }
  specialize (Hzero z). rewrite peval_padd, peval_scale in Hzero.
  apply Zmod.sub_eq_0. rewrite <- Hzero. ring.
Qed.

End Polynomials.

(** ** The code interpolates *)

Lemma eval_polynomial_el coeffs x : Forall canonical coeffs -> canonical x ->
  canonical (eval_polynomial coeffs x) /\
  el (eval_polynomial coeffs x) = peval (el <$> coeffs) (el x).
Proof.
  intros Hc Hx. unfold eval_polynomial. induction Hc as [|c coeffs Hc _ IH].
  { split; [apply canonical_0|apply el_0]. }
  rewrite reverse_cons, foldl_app. cbn [foldl].
  destruct IH as [IH1 IH2]. set (r := foldl _ 0 (reverse coeffs)) in *.
  split; [auto with field61|]. rewrite el_add, el_mul, IH2 by auto with field61.
  rewrite fmap_cons. change (peval (?h :: ?l) ?z) with (Zmod.add h (Zmod.mul z (peval l z))).
  by rewrite Zmod.add_comm, (Zmod.mul_comm (peval _ _)).
Qed.

(** The points other than the [i]-th, from position [s] on. *)
Definition rest_from (s i : nat) (xs : list Fp) : list Fp :=
  if bool_decide (s <= i)%nat then delete (i - s)%nat xs else xs.

Lemma rest_from_cons s i x xs :
  rest_from s i (x :: xs) = if bool_decide (i = s) then xs else x :: rest_from (S s) i xs.
Proof.
  unfold rest_from. repeat case_bool_decide; subst; try lia.
  - by rewrite Nat.sub_diag.
  - replace (i - s)%nat with (S (i - S s)) by lia. done.
  - done.
Qed.

Lemma rest_from_past s i xs : (i < s)%nat -> rest_from s i xs = xs.
Proof. intros. unfold rest_from. by rewrite bool_decide_false by lia. Qed.

Lemma basis_loop_el i x_i xs : canonical x_i -> Forall canonical xs ->
  forall s acc, canonical acc.1 -> canonical acc.2 ->
  let r := foldl (basis_step i x_i) acc (imap (fun j x => ((s + j)%nat, x)) xs) in
  canonical r.1 /\ canonical r.2 /\
  el r.1 = Zmod.mul (el acc.1) (fprod (Zmod.sub Zmod.zero <$> rest_from s i (el <$> xs))) /\
  el r.2 = Zmod.mul (el acc.2) (fprod (Zmod.sub (el x_i) <$> rest_from s i (el <$> xs))).
Proof.
  intros Hxi Hxs. induction Hxs as [|x xs Hx _ IH]; intros s [n d] Hn Hd; simpl in Hn, Hd.
  { unfold rest_from. cbn. assert (delete (i - s)%nat [] = @nil Fp) as -> by done.
    case_bool_decide; cbn; by rewrite !(Zmod.mul_comm _ Zmod.one), !Zmod.mul_1_l. }
  rewrite imap_cons, fmap_cons, rest_from_cons, Nat.add_0_r. cbn [foldl].
  assert (imap ((fun j x => ((s + j)%nat, x)) ∘ S) xs = imap (fun j x => ((S s + j)%nat, x)) xs) as ->.
  { apply imap_ext. intros j y _. simpl. f_equal. lia. }
  simpl basis_step. case_bool_decide as His.
  - subst s. specialize (IH (S i) (n, d) Hn Hd). by rewrite rest_from_past in IH by lia.
  - destruct (IH (S s) (field_mul n (field_sub 0 x), field_mul d (field_sub x_i x)))
      as (H1 & H2 & H3 & H4); [simpl; auto with field61..|].
    split; [done|]. split; [done|]. rewrite H3, H4. simpl fst. simpl snd. rewrite !fmap_cons.
    change (fprod (?h :: ?l)) with (Zmod.mul h (fprod l)).
    rewrite !el_mul, !el_sub, el_0 by auto with field61. by rewrite !Zmod.mul_assoc.
Qed.

Lemma basis_products_el i x_i xs : canonical x_i -> Forall canonical xs ->
  let r := basis_products i x_i xs in
  canonical r.1 /\ canonical r.2 /\
  el r.1 = gaps (el <$> xs) i Zmod.zero /\ el r.2 = gaps (el <$> xs) i (el x_i).
Proof.
  intros Hxi Hxs. pose proof (basis_loop_el i x_i xs Hxi Hxs 0 (1, 1) canonical_1 canonical_1) as H.
  unfold basis_products. change (imap pair xs) with (imap (fun j x => ((0 + j)%nat, x)) xs).
  cbv zeta in *. destruct H as (H1 & H2 & H3 & H4). split; [done|]. split; [done|].
  unfold rest_from in H3, H4. rewrite bool_decide_true, Nat.sub_0_r in H3, H4 by lia.
  unfold gaps. rewrite H3, H4. simpl fst. simpl snd. by rewrite !el_1, !Zmod.mul_1_l.
Qed.

Lemma lagrange_weight_el msg i x_i xs :
  Forall canonical xs -> NoDup xs -> xs !! i = Some x_i ->
  exists w, lagrange_weight msg i x_i xs = Ok w /\ canonical w /\
    el w = Zmod.mul (gaps (el <$> xs) i Zmod.zero) (Zmod.inv (gaps (el <$> xs) i (el x_i))).
Proof.
  intros Hxs Hdup Hi. assert (canonical x_i) as Hxi by (by eapply Forall_lookup_1).
  destruct (basis_products_el i x_i xs Hxi Hxs) as (H1 & H2 & H3 & H4).
  unfold lagrange_weight. destruct (basis_products i x_i xs) as [n d]. simpl in *.
  assert (d <> 0) as Hd.
  { rewrite <- el_zero_iff, H4 by done.
    assert (NoDup (el <$> xs)) as Hdup'.
    { apply NoDup_fmap_2_strong; [|done]. intros. rewrite Forall_forall in Hxs. by apply el_inj; auto. }
    assert ((el <$> xs) !! i = Some (el x_i)) as Hel by (by rewrite list_lookup_fmap, Hi).
    rewrite (gaps_at (el <$> xs) i i (el x_i) (el x_i)) by done. naive_solver. }
  rewrite bool_decide_false by done.
  destruct (field_inv_ok (E := ThresholdError) d H2 Hd) as (v & -> & Hv & Hel). simpl.
  eexists. split; [done|]. split; [auto with field61|]. by rewrite el_mul, Hel, H3, H4.
Qed.

Definition el_point (p : Z * Z) : Fp * Fp := (el p.1, el p.2).

Lemma interpolate_from_el xs : Forall canonical xs -> NoDup xs ->
  forall pts i result, Forall (fun p => canonical p.2) pts -> canonical result ->
  pts.*1 = drop i xs ->
  exists r, interpolate_from i result xs pts = Ok r /\ canonical r /\
    el r = Zmod.add (el result) (lagrange_from i (el <$> xs) (el_point <$> pts) Zmod.zero).
Proof.
  intros Hxs Hdup. induction pts as [|[x y] pts IH]; intros i result Hys Hres Hdrop.
  { exists result. split; [done|]. split; [done|]. simpl. by rewrite Zmod.add_comm, Zmod.add_0_l. }
  inversion Hys as [|? ? Hy Hys']; subst. simpl in Hy, Hdrop.
  assert (xs !! i = Some x) as Hi.
  { rewrite <- (Nat.add_0_r i), <- lookup_drop, <- Hdrop. done. }
  assert (pts.*1 = drop (S i) xs) as Hdrop'.
  { by rewrite <- (Nat.add_1_r i), <- drop_drop, <- Hdrop. }
  cbn [interpolate_from].
  destruct (lagrange_weight_el "zero denominator in Lagrange basis" i x xs Hxs Hdup Hi)
    as (w & -> & Hw & Hel). cbn [mbind outcome_bind].
  destruct (IH (S i) (field_add result (field_mul y w))) as (r & -> & Hr & Her); [auto with field61..|].
  exists r. split; [done|]. split; [done|]. rewrite Her, fmap_cons. cbn [lagrange_from el_point fst snd].
  rewrite el_add, el_mul, Hel by auto with field61. by rewrite Zmod.add_assoc.
Qed.

(** Interpolation at zero through values of a polynomial gives its constant
    coefficient. *)
Lemma lagrange_interpolate_at_zero_ok c0 coeffs pts :
  Forall canonical (c0 :: coeffs) -> Forall canonical pts.*1 -> NoDup pts.*1 ->
  (length (c0 :: coeffs) <= length pts)%nat ->
  Forall (fun p => p.2 = eval_polynomial (c0 :: coeffs) p.1) pts ->
  lagrange_interpolate_at_zero pts = Ok c0.
Proof.
  intros Hc Hxs Hdup Hlen Hval. unfold lagrange_interpolate_at_zero.
  assert (Forall (fun p => el p.2 = peval (el <$> c0 :: coeffs) (el p.1) /\ canonical p.2) pts) as Hpts.
  { apply Forall_forall. intros p Hp.
    assert (canonical p.1) as Hx.
    { rewrite Forall_forall in Hxs. apply Hxs, list_elem_of_fmap. eauto. }
    rewrite Forall_forall in Hval. rewrite (Hval p Hp). destruct (eval_polynomial_el (c0 :: coeffs) p.1 Hc Hx). done. }
  apply Forall_and in Hpts as [Hpeval Hys].
  destruct (interpolate_from_el pts.*1 Hxs Hdup pts 0 0) as (r & -> & Hr & Her);
    [done|apply canonical_0|done|].
  f_equal. apply el_inj; [done|by inversion Hc|].
  assert (el <$> pts.*1 = (el_point <$> pts).*1) as Hfst by (by rewrite <- !list_fmap_compose).
  rewrite Her, el_0, Zmod.add_0_l, Hfst, (lagrange_polynomial (el <$> c0 :: coeffs)).
  - rewrite fmap_cons. change (peval (?h :: ?l) ?z) with (Zmod.add h (Zmod.mul z (peval l z))).
    by rewrite Zmod.mul_0_l, Zmod.add_comm, Zmod.add_0_l.
  - rewrite <- Hfst. apply NoDup_fmap_2_strong; [|done]. intros x y ?? Hxy.
    rewrite Forall_forall in Hxs. by apply el_inj; auto.
  - by rewrite !length_fmap.
  - by apply Forall_fmap.
Qed.

Lemma first_duplicate_None seen l :
  first_duplicate seen l = None <-> NoDup l /\ forall x, x ∈ l -> x ∉ seen.
Proof.
  revert seen. induction l as [|i l IH]; intros seen; simpl.
  { split; [|done]. intros _. split; [constructor|set_solver]. }
  rewrite NoDup_cons. case_bool_decide as Hi.
  - split; [done|]. intros [_ Hno]. by destruct (Hno i ltac:(set_solver)).
  - rewrite IH. set_solver.
Qed.

Section Shares.
Context `{Crypto}.

Lemma hash_to_bytes_byte h : Forall byte (hash_to_bytes h).
Proof. unfold hash_to_bytes, to_be_bytes. apply Forall_reverse, to_le_bytes_byte. Qed.

Lemma bytes_to_field_canonical b : Forall byte b -> canonical (bytes_to_field b).
Proof.
  intros Hb. unfold bytes_to_field. rewrite mod_mersenne_exact; [apply canonical_mod|].
  pose proof (from_le_bytes_range (take 8 b) ltac:(by apply Forall_take)) as Hr.
  assert (256 ^ Z.of_nat (length (take 8 b)) <= 256 ^ 8); [|lia].
  apply Z.pow_le_mono_r; [lia|]. rewrite length_take. lia.
Qed.

Lemma field_bytes_roundtrip v : canonical v -> bytes_to_field (field_to_bytes v) = v.
Proof.
  intros Hv. pose proof (canonical_small v Hv) as Hs. unfold bytes_to_field, field_to_bytes.
  rewrite take_app_length' by (by rewrite length_u64_le).
  unfold u64_le. rewrite from_to_le_bytes by (change (256 ^ Z.of_nat 8) with (2 ^ 64); lia).
  rewrite mod_mersenne_exact by lia. by apply Z.mod_small.
Qed.

Lemma poly_coeffs_ok count : forall rng i,
  length (poly_coeffs rng i count) = count /\ Forall canonical (poly_coeffs rng i count).
Proof.
  induction count as [|count IH]; intros rng i; [done|]. cbn [poly_coeffs length].
  match goal with |- context [poly_coeffs ?r _ count] => destruct (IH r (i + 1)) as [-> Hc] end.
  split; [done|]. constructor; [|done]. apply bytes_to_field_canonical, hash_to_bytes_byte.
Qed.

Lemma mod_mersenne_index x : 0 <= x < 2 ^ 32 -> mod_mersenne x = x /\ canonical x.
Proof.
  intros Hx. assert (canonical x) by (unfold canonical; rewrite MERSENNE_P_val; lia).
  rewrite mod_mersenne_exact by lia. by rewrite Z.mod_small.
Qed.

(** The point of a generated share lies on the polynomial. *)
Lemma share_at_point coeffs x : Forall canonical coeffs -> 0 <= x < 2 ^ 32 ->
  share_point (share_at coeffs x) = (x, eval_polynomial coeffs x).
Proof.
  intros Hc Hx. destruct (mod_mersenne_index x Hx) as [Hm Hcan].
  unfold share_point, share_at. simpl. rewrite Hm. f_equal.
  apply field_bytes_roundtrip. by apply eval_polynomial_el.
Qed.

Lemma generated_points coeffs total l : Forall canonical coeffs -> total < 2 ^ 32 ->
  Forall (fun s => 1 <= ss_index s <= total /\ s = share_at coeffs (ss_index s)) l ->
  share_point <$> l = (fun s => (ss_index s, eval_polynomial coeffs (ss_index s))) <$> l.
Proof.
  intros Hc Ht Hl. apply list_fmap_ext. intros i s Hs.
  eapply Forall_lookup_1 in Hl as [Hr Heq]; [|exact Hs].
  rewrite Heq at 1. by rewrite share_at_point by (done || lia).
Qed.

Lemma distinct_indices_length total l : NoDup (ss_index <$> l) ->
  Forall (fun s => 1 <= ss_index s <= total) l -> l <> [] -> Z.of_nat (length l) <= total.
Proof.
  intros Hdup Hl Hne.
  assert (ss_index <$> l ⊆+ Z.of_nat <$> seq 1 (Z.to_nat total)) as Hsub.
  { apply NoDup_submseteq; [done|]. intros x (s & -> & Hs)%list_elem_of_fmap.
    rewrite Forall_forall in Hl. specialize (Hl s Hs). apply list_elem_of_fmap.
    exists (Z.to_nat (ss_index s)). split; [lia|]. apply elem_of_seq. lia. }
  apply submseteq_length in Hsub. rewrite !length_fmap, length_seq in Hsub.
  destruct l; [done|]. simpl in *. lia.
Qed.

End Shares.

Module DemoShares.

Definition secret : list Z := ascii_bytes "arc-test-secret!" ++ replicate 16 0.

Definition shares : list SecretShare :=
  match generate_shares (H := Demo.demo_crypto) secret 3 5 with Ok l => l | _ => [] end.

(** Three of the five shares, out of order. *)
Definition chosen : list SecretShare :=
  omap (fun i => shares !! i) [4; 0; 2]%nat.

End DemoShares.

(** C33: Shamir sharing works: whatever secret is shared, every selection of at least
    [threshold] distinct shares out of those [generate_shares] deals, in any order,
    makes [recover_secret] succeed with the encoding of the field element of the
    secret, which reads back as the field element of the secret. *)
Theorem shamir_recovery `{Crypto} (secret : list Z) (threshold total : Z)
  (shares chosen : list SecretShare) (Hsecret : Forall byte secret) (Htotal : total < 2 ^ 32)
  (Hgen : generate_shares secret threshold total = Ok shares)
  (Hsub : Forall (fun s => s ∈ shares) chosen) (Hdup : NoDup (ss_index <$> chosen))
  (Hlen : threshold <= Z.of_nat (length chosen)) :
  recover_secret chosen threshold = Ok (field_to_bytes (bytes_to_field secret)) /\
  bytes_to_field (field_to_bytes (bytes_to_field secret)) = bytes_to_field secret.
Proof.
  split; [|by apply field_bytes_roundtrip, bytes_to_field_canonical].
  unfold generate_shares in Hgen. case_match eqn:Hguard; [|done]. dec_hyps. injection Hgen as <-.
  set (c0 := bytes_to_field secret) in *.
  set (coeffs := poly_coeffs secret 1 (Z.to_nat (threshold - 1))) in *.
  destruct (poly_coeffs_ok (Z.to_nat (threshold - 1)) secret 1) as [Hclen Hccan].
  assert (Forall canonical (c0 :: coeffs)) as Hcan
    by (constructor; [by apply bytes_to_field_canonical|done]).
  assert (Forall (fun s => 1 <= ss_index s <= total /\ s = share_at (c0 :: coeffs) (ss_index s))
            chosen) as Hall.
  { eapply Forall_impl; [exact Hsub|]. intros s (x & -> & Hx%elem_of_seq)%list_elem_of_fmap.
    simpl. split; [lia|done]. }
  assert (Z.of_nat (length chosen) <= total) as Hle.
  { apply distinct_indices_length; [done| |intros ->; simpl in Hlen; lia].
    eapply Forall_impl; [exact Hall|]. by intros s []. }
  unfold recover_secret, len_u32. rewrite Z.mod_small by lia.
  rewrite bool_decide_false by lia. cbn [negb require mbind outcome_bind].
  rewrite (proj2 (first_duplicate_None _ _)) by (split; [done|set_solver]).
  unfold slice_to. rewrite bool_decide_true by lia. cbn [mbind outcome_bind].
  rewrite (generated_points (c0 :: coeffs) total) by (try done; by apply Forall_take).
  rewrite (lagrange_interpolate_at_zero_ok c0 coeffs); [done|done|..].
  all: rewrite <- ?list_fmap_compose; unfold compose; simpl.
  - apply Forall_fmap, Forall_take. eapply Forall_impl; [exact Hall|]. intros s [Hr _].
    simpl. apply mod_mersenne_index. lia.
  - rewrite fmap_take. eapply sublist_NoDup; [exact Hdup|apply sublist_take].
  - fold coeffs in Hclen. rewrite length_fmap, length_take, Hclen. lia.
  - by apply Forall_fmap, Forall_true.
Qed.

Lemma shamir_recovery_witness :
  recover_secret (H := Demo.demo_crypto) DemoShares.chosen 3 =
    Ok (field_to_bytes (H := Demo.demo_crypto) (bytes_to_field DemoShares.secret)).
Proof.
  refine (proj1 (@shamir_recovery Demo.demo_crypto DemoShares.secret 3 5 DemoShares.shares
    DemoShares.chosen _ _ _ _ _ _)).
  - eval_range.
  - reflexivity.
  - vm_compute. reflexivity.
  - refine (bool_decide_unpack _ _). vm_compute. exact I.
  - refine (bool_decide_unpack _ _). vm_compute. exact I.
  - vm_compute. discriminate.
Defined.
