(* ===== verification/Encryption.v ===== *)
(** * Slot encryption (crates/arc-crypto/src/bls.rs, crates/arc-crypto/src/threshold.rs
    lines 465-663)

    The key of a slot, derived from aggregated BLS signatures, and the authenticated
    encryption under it: a BLAKE3 keystream in counter mode and a BLAKE3 MAC over nonce,
    length and ciphertext.  The points of BLS12-381 come from another package: class
    [Blst] has the operations the wrappers of bls.rs call.  The keystream loop
    appends at least one byte per turn, so as many turns as bytes are enough
    ([length_derive_keystream]). *)

From S2P Require Import Prelude Crypto.

(** ** bls.rs *)

Inductive BlsError :=
| BlsInvalidSignature
| BlsInvalidPublicKey
| BlsAggregationFailed
| BlsEmptyInput.

(** The operations of the package [blst]. *)
Class Blst := {
  BlstSecretKey : Type;
  BlstPublicKey : Type;
  BlstSignature : Type;
  blst_key_gen : list Z -> option BlstSecretKey;
  blst_sk_serialize : BlstSecretKey -> list Z;
  blst_sk_deserialize : list Z -> option BlstSecretKey;
  blst_sk_to_pk : BlstSecretKey -> BlstPublicKey;
  blst_sign : BlstSecretKey -> list Z -> BlstSignature;
  blst_verify : BlstSignature -> list Z -> BlstPublicKey -> bool;
  blst_sig_compress : BlstSignature -> list Z;
  blst_sig_uncompress : list Z -> option BlstSignature;
  blst_pk_compress : BlstPublicKey -> list Z;
  blst_pk_uncompress : list Z -> option BlstPublicKey;
  blst_aggregate_sigs : list BlstSignature -> option BlstSignature;
  blst_aggregate_pks : list BlstPublicKey -> option BlstPublicKey;
}.

Record BlsKeypair := mkBlsKeypair {
  bls_secret : list Z;
  bls_public : list Z;
}.

Record AggregateSignature := mkAggregateSignature {
  agg_signature : list Z;
  agg_signers : list Z;
  agg_signer_count : Z;
}.

Record AggregatePublicKey := mkAggregatePublicKey {
  agg_key : list Z;
  agg_participant_count : Z;
}.

Record ThresholdConfig := mkThresholdConfig {
  tc_total_signers : Z;
  tc_threshold : Z;
}.

Definition meets_threshold (agg : AggregateSignature) (config : ThresholdConfig) : bool :=
  bool_decide (tc_threshold config <= agg_signer_count agg) &&
  bool_decide (agg_signer_count agg <= tc_total_signers config).

(** [collect] into a [Result]: the first failure wins. *)
Fixpoint collect_or {E A B} (f : A -> option B) (e : E) (l : list A) : outcome E (list B) :=
  match l with
  | [] => Ok []
  | a :: l' => b ← ok_or (f a) e; bs ← collect_or f e l'; Ok (b :: bs)
  end.

Section Bls.
Context `{Crypto} `{Blst}.

Definition bls_keygen {E} (seed : list Z) : outcome E BlsKeypair :=
  let ikm := if bool_decide (length seed < 32)%nat then hash_to_bytes (blake3_hash seed) else seed in
  sk ← expect (blst_key_gen ikm);
  Ok (mkBlsKeypair (blst_sk_serialize sk) (blst_pk_compress (blst_sk_to_pk sk))).

Definition bls_sign {E} (sk message : list Z) : outcome E (list Z) :=
  blst_sk ← expect (blst_sk_deserialize sk);
  Ok (blst_sig_compress (blst_sign blst_sk message)).

Definition bls_verify (pk message sig : list Z) : bool :=
  match blst_pk_uncompress pk, blst_sig_uncompress sig with
  | Some blst_pk, Some blst_sig => blst_verify blst_sig message blst_pk
  | _, _ => false
  end.

Definition aggregate_signatures (sigs : list (list Z)) : outcome BlsError (list Z) :=
  _ ← require (negb (bool_decide (sigs = []))) BlsEmptyInput;
  blst_sigs ← collect_or blst_sig_uncompress BlsInvalidSignature sigs;
  agg ← ok_or (blst_aggregate_sigs blst_sigs) BlsAggregationFailed;
  Ok (blst_sig_compress agg).

Definition aggregate_public_keys (pks : list (list Z)) : outcome BlsError AggregatePublicKey :=
  _ ← require (negb (bool_decide (pks = []))) BlsEmptyInput;
  blst_pks ← collect_or blst_pk_uncompress BlsInvalidPublicKey pks;
  agg ← ok_or (blst_aggregate_pks blst_pks) BlsAggregationFailed;
  Ok (mkAggregatePublicKey (blst_pk_compress agg) (Z.of_nat (length pks))).

Definition verify_aggregate (agg_pk : AggregatePublicKey) (message : list Z)
    (agg_sig : AggregateSignature) : bool :=
  if bool_decide (agg_signer_count agg_sig = 0) then false
  else bls_verify (agg_key agg_pk) message (agg_signature agg_sig).

Definition create_aggregate (sigs : list (Z * list Z)) : outcome BlsError AggregateSignature :=
  _ ← require (negb (bool_decide (sigs = []))) BlsEmptyInput;
  blst_sigs ← collect_or (fun s => blst_sig_uncompress s.2) BlsInvalidSignature sigs;
  agg ← ok_or (blst_aggregate_sigs blst_sigs) BlsAggregationFailed;
  Ok (mkAggregateSignature (blst_sig_compress agg) sigs.*1 (Z.of_nat (length sigs))).

Definition create_verifiable_aggregate (l : list (Z * list Z * list Z)) (message : list Z)
    : outcome BlsError (AggregatePublicKey * AggregateSignature) :=
  _ ← require (negb (bool_decide (l = []))) BlsEmptyInput;
  blst_pks ← collect_or (fun x => blst_pk_uncompress x.1.2) BlsInvalidPublicKey l;
  blst_sigs ← collect_or (fun x => blst_sig_uncompress x.2) BlsInvalidSignature l;
  agg_pk ← ok_or (blst_aggregate_pks blst_pks) BlsAggregationFailed;
  agg_sig ← ok_or (blst_aggregate_sigs blst_sigs) BlsAggregationFailed;
  Ok (mkAggregatePublicKey (blst_pk_compress agg_pk) (Z.of_nat (length l)),
      mkAggregateSignature (blst_sig_compress agg_sig) ((fun x => x.1.1) <$> l) (Z.of_nat (length l))).

Definition address_from_bls_pubkey (pk : list Z) : Hash256 := blake3_hash pk.

(** ** threshold.rs: the slot key *)

Definition slot_message (slot : Z) : list Z := ascii_bytes "ARC-slot-key-v1" ++ u64_le slot.

Definition derive_slot_key {E} (slot : Z) (sig_shares : list (list Z)) : outcome E (list Z) :=
  if bool_decide (sig_shares = []) then Panic
  else
    match aggregate_signatures sig_shares with
    | Ok agg_sig =>
        Ok (hash_to_bytes (blake3_derive_key "ARC-threshold-slot-key-v1" (agg_sig ++ u64_le slot)))
    | _ => Panic
    end.

End Bls.

(** ** threshold.rs: authenticated encryption *)

Definition THRESHOLD_TAG_LEN : nat := 32.

Definition constant_time_eq (a b : list Z) : bool :=
  if bool_decide (length a = length b) then
    bool_decide (foldl (fun diff p => Z.lor diff (Z.lxor p.1 p.2)) 0 (zip a b) = 0)
  else false.

Section Encryption.
Context `{Crypto}.

Fixpoint keystream_loop (fuel : nat) (enc_key nonce : list Z) (len : nat) (stream : list Z)
    (counter : Z) : list Z :=
  match fuel with
  | O => stream
  | S fuel' =>
      if bool_decide (length stream < len)%nat then
        let block := hash_to_bytes (blake3_keyed_hash enc_key (nonce ++ u64_le counter)) in
        let remaining := (len - length stream)%nat in
        keystream_loop fuel' enc_key nonce len (stream ++ take (Nat.min remaining 32) block)
          (wrapping_add counter 1)
      else stream
  end.

Definition derive_keystream (enc_key nonce : list Z) (len : nat) : list Z :=
  keystream_loop len enc_key nonce len [] 0.

Definition compute_mac (mac_key nonce ciphertext : list Z) : list Z :=
  hash_to_bytes (blake3_keyed_hash mac_key
    (nonce ++ u64_le (Z.of_nat (length ciphertext)) ++ ciphertext)).

Definition enc_key_of (key : list Z) : list Z :=
  hash_to_bytes (blake3_derive_key "ARC-threshold-enc-key-v1" key).
Definition mac_key_of (key : list Z) : list Z :=
  hash_to_bytes (blake3_derive_key "ARC-threshold-mac-key-v1" key).

Definition xor_bytes (l keystream : list Z) : list Z := zip_with Z.lxor l keystream.

Definition encrypt_with_nonce (key plaintext nonce : list Z) : list Z :=
  let keystream := derive_keystream (enc_key_of key) nonce (length plaintext) in
  let ciphertext := xor_bytes plaintext keystream in
  nonce ++ ciphertext ++ compute_mac (mac_key_of key) nonce ciphertext.

Definition decrypt (key data : list Z) : option (list Z) :=
  if bool_decide (length data < 12 + THRESHOLD_TAG_LEN)%nat then None
  else
    let nonce := take 12 data in
    let tag_start := (length data - THRESHOLD_TAG_LEN)%nat in
    let ciphertext := take (tag_start - 12) (drop 12 data) in
    let tag := drop tag_start data in
    if constant_time_eq tag (compute_mac (mac_key_of key) nonce ciphertext) then
      Some (xor_bytes ciphertext (derive_keystream (enc_key_of key) nonce (length ciphertext)))
    else None.

(** ** Lemmas *)

Lemma length_keystream_loop fuel enc_key nonce len stream counter :
  (length stream <= len)%nat -> (len - length stream <= fuel)%nat ->
  length (keystream_loop fuel enc_key nonce len stream counter) = len.
Proof.
  revert stream counter. induction fuel as [|fuel IH]; intros stream counter Hle Hfuel;
    cbn [keystream_loop]; [lia|].
  case_bool_decide; [|lia].
  assert (length (take (Nat.min (len - length stream) 32)
    (hash_to_bytes (blake3_keyed_hash enc_key (nonce ++ u64_le counter)))) =
    Nat.min (len - length stream) 32) as Htake by (rewrite length_take, length_hash_to_bytes; lia).
  apply IH; rewrite length_app, Htake; lia.
Qed.

Lemma length_derive_keystream enc_key nonce len :
  length (derive_keystream enc_key nonce len) = len.
Proof. apply length_keystream_loop; simpl; lia. Qed.

Lemma xor_bytes_invol l k : length k = length l -> xor_bytes (xor_bytes l k) k = l.
Proof.
  unfold xor_bytes. revert k. induction l as [|b l IH]; intros [|x k] Hlen; simpl in *; try done.
  f_equal; [|apply IH; lia]. by rewrite Z.lxor_assoc, Z.lxor_nilpotent, Z.lxor_0_r.
Qed.

Lemma length_xor_bytes l k : length k = length l -> length (xor_bytes l k) = length l.
Proof. intros Hlen. unfold xor_bytes. rewrite length_zip_with. lia. Qed.

Lemma fold_xor_zero l acc :
  foldl (fun diff p => Z.lor diff (Z.lxor p.1 p.2)) acc l = 0 <->
  acc = 0 /\ Forall (fun p => p.1 = p.2) l.
Proof.
  revert acc. induction l as [|[x y] l IH]; intros acc; simpl.
  { split; [|by intros [? _]]. intros ->. by split. }
  rewrite IH, Z.lor_eq_0_iff, Z.lxor_eq_0_iff, Forall_cons. naive_solver.
Qed.

Lemma constant_time_eq_true a b : constant_time_eq a b = true <-> a = b.
Proof.
  unfold constant_time_eq. case_bool_decide as Hlen.
  - rewrite bool_decide_eq_true, fold_xor_zero. split.
    + intros [_ Hall]. revert b Hlen Hall.
      induction a as [|x a IH]; intros [|y b] Hlen Hall; simpl in *; try done.
      apply Forall_cons in Hall as [Hxy Hall]. simpl in Hxy. subst y. f_equal. apply IH; [lia|done].
    + intros ->. split; [done|]. clear. induction b; simpl; by constructor.
  - split; [done|]. by intros ->.
Qed.

Lemma decrypt_sound key data plaintext : decrypt key data = Some plaintext ->
  exists nonce, length nonce = 12%nat /\ data = encrypt_with_nonce key plaintext nonce.
Proof.
  unfold decrypt, THRESHOLD_TAG_LEN. case_bool_decide as Hlen; [done|].
  destruct (constant_time_eq _ _) eqn:Htag; [|done]. intros [= <-].
  apply constant_time_eq_true in Htag.
  exists (take 12 data). split; [rewrite length_take; lia|]. unfold encrypt_with_nonce.
  set (c := take _ (drop 12 data)) in *. set (nonce := take 12 data) in *.
  rewrite length_xor_bytes, xor_bytes_invol by (by rewrite length_derive_keystream).
  rewrite <- Htag. subst c nonce. rewrite <- (take_drop 12 data) at 1. f_equal.
  rewrite <- (take_drop (length data - 32 - 12) (drop 12 data)) at 1. f_equal.
  rewrite drop_drop. f_equal. lia.
Qed.

Lemma decrypt_encrypt key plaintext nonce : length nonce = 12%nat ->
  decrypt key (encrypt_with_nonce key plaintext nonce) = Some plaintext.
Proof.
  intros Hn. unfold decrypt, encrypt_with_nonce, THRESHOLD_TAG_LEN.
  set (c := xor_bytes plaintext _).
  assert (length c = length plaintext) as Hc
    by (apply length_xor_bytes; by rewrite length_derive_keystream).
  set (tag := compute_mac (mac_key_of key) nonce c).
  assert (length tag = 32%nat) as Ht by apply length_hash_to_bytes.
  rewrite !length_app, Hn, Ht. rewrite bool_decide_false by lia.
  rewrite (take_app_length' nonce (c ++ tag) 12), (drop_app_length' nonce (c ++ tag) 12) by done.
  replace (12 + (length c + 32) - 32 - 12)%nat with (length c) by lia.
  rewrite (take_app_length' c tag) by done.
  replace (12 + (length c + 32) - 32)%nat with (length (nonce ++ c)) by (rewrite length_app; lia).
  rewrite app_assoc, drop_app_length. rewrite (proj2 (constant_time_eq_true _ _)) by done.
  f_equal. subst c. rewrite Hc. apply xor_bytes_invol. by rewrite length_derive_keystream.
Qed.

End Encryption.

(** [decrypt] accepts exactly what encryption under the same key produces: it
    returns a plaintext if and only if the data is, for some twelve-byte nonce, the
    output of [encrypt_with_nonce] on that plaintext; anything else, in particular data
    with a changed nonce, ciphertext or tag that is not itself such an output, is
    refused. *)
Theorem decrypt_exact `{Crypto} (key data plaintext : list Z) :
  decrypt key data = Some plaintext <->
  exists nonce, length nonce = 12%nat /\ data = encrypt_with_nonce key plaintext nonce.
Proof.
  split; [apply decrypt_sound|]. intros (nonce & Hn & ->). by apply decrypt_encrypt.
Qed.
