(* ===== verification/Mempool.v ===== *)
(** * The transaction pool (crates/arc-mempool/src/lib.rs)

    The plain pool (a queue, a set of hashes and a counter under separate locks) and
    the encrypted one.  Each method is given as the composition of its atomic actions.
    For runs of several threads the same actions are interleaved one at a time
    ([sys_event]), in any order.  Transactions are opaque: the pool reads their hash and
    sender only. *)

From stdpp Require Import pretty.
From S2P Require Import Prelude Crypto Encryption.

Inductive MempoolError :=
| MpDuplicate (hash : Hash256)
| MpFull (capacity : Z)
| MpDecryptionFailed
| MpDeserializationFailed.

(** ** The plain pool *)

Record Mempool (Tx : Type) := mkMempool {
  mp_queue : list Tx;
  mp_seen : gset Hash256;
  mp_capacity : Z;
  mp_count : Z;
}.
Arguments mkMempool {Tx} _ _ _ _.
Arguments mp_queue {Tx} _.
Arguments mp_seen {Tx} _.
Arguments mp_capacity {Tx} _.
Arguments mp_count {Tx} _.

#[global] Instance Mempool_eta {Tx} : Eta (Mempool Tx) :=
  fun p => mkMempool (mp_queue p) (mp_seen p) (mp_capacity p) (mp_count p).

Section Mempool.
Context {Tx : Type} (tx_hash : Tx -> Hash256).

Definition mempool_new (capacity : Z) : Mempool Tx := mkMempool [] ∅ capacity 0.

Definition mempool_default : Mempool Tx := mempool_new 1000000.

(** The part of [insert] under the counter's lock. *)
Definition insert_reserve (p : Mempool Tx) (tx : Tx) : outcome MempoolError (Mempool Tx) :=
  if bool_decide (mp_capacity p <= mp_count p) then Err (MpFull (mp_capacity p))
  else if bool_decide (tx_hash tx ∈ mp_seen p) then Err (MpDuplicate (tx_hash tx))
  else Ok (p <| mp_seen := {[tx_hash tx]} ∪ mp_seen p |>
             <| mp_count := wrapping_add (mp_count p) 1 |>).

Definition queue_push (p : Mempool Tx) (tx : Tx) : Mempool Tx :=
  p <| mp_queue := mp_queue p ++ [tx] |>.

Definition queue_pop (p : Mempool Tx) : option Tx * Mempool Tx :=
  match mp_queue p with
  | [] => (None, p)
  | tx :: queue => (Some tx, p <| mp_queue := queue |>)
  end.

Definition forget (p : Mempool Tx) (tx : Tx) : Mempool Tx :=
  p <| mp_seen := mp_seen p ∖ {[tx_hash tx]} |>.

Definition account (p : Mempool Tx) (n : nat) : Mempool Tx :=
  p <| mp_count := saturating_sub (mp_count p) (Z.of_nat n) |>.

Definition mempool_insert (p : Mempool Tx) (tx : Tx) : outcome MempoolError (Mempool Tx) :=
  p' ← insert_reserve p tx; Ok (queue_push p' tx).

Fixpoint drain_loop (max : nat) (p : Mempool Tx) (batch : list Tx) : list Tx * Mempool Tx :=
  match max with
  | O => (batch, p)
  | S max' =>
      match queue_pop p with
      | (Some tx, p') => drain_loop max' (forget p' tx) (batch ++ [tx])
      | (None, p') => (batch, p')
      end
  end.

Definition mempool_drain (p : Mempool Tx) (max : nat) : list Tx * Mempool Tx :=
  let '(batch, p') := drain_loop max p [] in (batch, account p' (length batch)).

Definition mempool_len (p : Mempool Tx) : Z := mp_count p.
Definition mempool_is_empty (p : Mempool Tx) : bool := bool_decide (mempool_len p = 0).
Definition mempool_contains (p : Mempool Tx) (h : Hash256) : bool := bool_decide (h ∈ mp_seen p).

Definition mempool_clear (p : Mempool Tx) : Mempool Tx :=
  p <| mp_queue := [] |> <| mp_seen := ∅ |> <| mp_count := 0 |>.

(** ** Threads *)

(** Where a call stands: each constructor but the last is about to perform one
    atomic action. *)
Inductive thread :=
| TReserve (tx : Tx)
| TPush (tx : Tx)
| TPop (more : nat) (batch : list Tx)
| TForget (more : nat) (batch : list Tx) (tx : Tx)
| TAccount (batch : list Tx)
| TClearQueue
| TClearSeen
| TClearCount
| TInserted (tx : Tx)
| TRefused (tx : Tx) (e : MempoolError)
| TDrained (batch : list Tx)
| TCleared.

Definition thread_step (p : Mempool Tx) (t : thread) : Mempool Tx * thread :=
  match t with
  | TReserve tx =>
      match insert_reserve p tx with
      | Ok p' => (p', TPush tx)
      | Err e => (p, TRefused tx e)
      | Panic => (p, t)
      end
  | TPush tx => (queue_push p tx, TInserted tx)
  | TPop O batch => (p, TAccount batch)
  | TPop (S more) batch =>
      match queue_pop p with
      | (Some tx, p') => (p', TForget more batch tx)
      | (None, p') => (p', TAccount batch)
      end
  | TForget more batch tx => (forget p tx, TPop more (batch ++ [tx]))
  | TAccount batch => (account p (length batch), TDrained batch)
  | TClearQueue =>
      match queue_pop p with
      | (Some _, p') => (p', TClearQueue)
      | (None, p') => (p', TClearSeen)
      end
  | TClearSeen => (p <| mp_seen := ∅ |>, TClearCount)
  | TClearCount => (p <| mp_count := 0 |>, TCleared)
  | TInserted _ | TRefused _ _ | TDrained _ | TCleared => (p, t)
  end.

Definition finished (t : thread) : bool :=
  match t with TInserted _ | TRefused _ _ | TDrained _ | TCleared => true | _ => false end.

(** A call arrives, or the scheduler lets thread [i] perform its next action. *)
Inductive event :=
| CallInsert (tx : Tx)
| CallDrain (max : nat)
| CallClear
| Schedule (i : nat).

Record system := mkSystem { sys_pool : Mempool Tx; sys_threads : list thread }.

Definition sys_event (s : system) (ev : event) : system :=
  match ev with
  | CallInsert tx => mkSystem (sys_pool s) (sys_threads s ++ [TReserve tx])
  | CallDrain max => mkSystem (sys_pool s) (sys_threads s ++ [TPop max []])
  | CallClear => mkSystem (sys_pool s) (sys_threads s ++ [TClearQueue])
  | Schedule i =>
      match sys_threads s !! i with
      | None => s
      | Some t =>
          let '(p', t') := thread_step (sys_pool s) t in
          mkSystem p' (<[i := t']> (sys_threads s))
      end
  end.

Definition sys_run (capacity : Z) (evs : list event) : system :=
  foldl sys_event (mkSystem (mempool_new capacity) []) evs.

Definition no_clear (ev : event) : bool := match ev with CallClear => false | _ => true end.

(** What the threads have done with transactions. *)
Definition accepted_by (t : thread) : list Tx :=
  match t with TPush tx | TInserted tx => [tx] | _ => [] end.
Definition reserved_by (t : thread) : list Tx :=
  match t with TPush tx => [tx] | _ => [] end.
Definition forgetting (t : thread) : list Tx :=
  match t with TForget _ _ tx => [tx] | _ => [] end.
Definition taken_by (t : thread) : list Tx :=
  match t with
  | TPop _ batch | TAccount batch | TDrained batch => batch
  | TForget _ batch tx => batch ++ [tx]
  | _ => []
  end.
(** Transactions popped whose departure the counter does not show yet. *)
Definition owed_by (t : thread) : list Tx :=
  match t with TDrained _ => [] | _ => taken_by t end.

Definition of_threads (f : thread -> list Tx) (s : system) : list Tx := sys_threads s ≫= f.

(** ** The invariant of every interleaving without [clear] *)

(** The transactions whose hash is in the set. *)
Definition live (p : Mempool Tx) (ts : list thread) : list Tx :=
  mp_queue p ++ (ts ≫= reserved_by) ++ (ts ≫= forgetting).

Definition clearing (t : thread) : bool :=
  match t with TClearQueue | TClearSeen | TClearCount | TCleared => true | _ => false end.

Record pool_inv (p : Mempool Tx) (ts : list thread) : Prop := {
  inv_distinct : NoDup (tx_hash <$> live p ts);
  inv_seen : forall h, h ∈ mp_seen p <-> h ∈ tx_hash <$> live p ts;
  inv_count : mp_count p =
    Z.of_nat (length (mp_queue p) + length (ts ≫= reserved_by) + length (ts ≫= owed_by));
  inv_capacity : mp_count p <= mp_capacity p <= u64_max;
  inv_conserved : ts ≫= accepted_by ≡ₚ (ts ≫= reserved_by) ++ mp_queue p ++ (ts ≫= taken_by);
  inv_no_clear : Forall (fun t => clearing t = false) ts;
}.

#[local] Instance pool_inv_perm p : Proper ((≡ₚ) ==> impl) (pool_inv p).
Proof.
  intros ts ts' Hts [Hd Hs Hc Hcap Hcons Hn]. unfold live in *.
  constructor; unfold live; [|intros h|..]; rewrite <- ?Hts; auto.
Qed.

(** The effect of a step on the live transactions settles the first two clauses. *)
Lemma live_same p ts p' ts' :
  live p ts ≡ₚ live p' ts' -> mp_seen p' = mp_seen p ->
  NoDup (tx_hash <$> live p ts) -> (forall h, h ∈ mp_seen p <-> h ∈ tx_hash <$> live p ts) ->
  NoDup (tx_hash <$> live p' ts') /\ (forall h, h ∈ mp_seen p' <-> h ∈ tx_hash <$> live p' ts').
Proof. intros Hl -> Hd Hs. split; [by rewrite <- Hl|]. intros h. by rewrite <- Hl. Qed.

Lemma pool_inv_reserve p tx ts p' : insert_reserve p tx = Ok p' ->
  pool_inv p (TReserve tx :: ts) -> pool_inv p' (TPush tx :: ts).
Proof.
  unfold insert_reserve. case_bool_decide as Hfull; [done|].
  case_bool_decide as Hseen; [done|]. intros [= <-] [Hd Hs Hc Hcap Hcons Hn].
  unfold live in *. simpl in *.
  assert (mp_queue p ++ (tx :: (ts ≫= reserved_by)) ++ (ts ≫= forgetting) ≡ₚ
    tx :: mp_queue p ++ (ts ≫= reserved_by) ++ (ts ≫= forgetting)) as Hl by solve_Permutation.
  constructor; unfold live; simpl.
  - rewrite Hl, fmap_cons, NoDup_cons. split; [|done]. by rewrite <- Hs.
  - intros h. rewrite Hl, fmap_cons, elem_of_cons, <- Hs. set_solver.
  - rewrite wrapping_add_small by lia. lia.
  - rewrite wrapping_add_small by lia. lia.
  - rewrite Hcons. solve_Permutation.
  - apply Forall_cons in Hn as [_ Hn]. by constructor.
Qed.

(** A step that keeps the live transactions, the set and the account of the counter. *)
Lemma pool_inv_same p t ts p' t' :
  mp_queue p' ++ reserved_by t' ++ forgetting t' ≡ₚ mp_queue p ++ reserved_by t ++ forgetting t ->
  mp_seen p' = mp_seen p -> mp_capacity p' = mp_capacity p -> mp_count p' = mp_count p ->
  (length (mp_queue p') + length (reserved_by t') + length (owed_by t') =
   length (mp_queue p) + length (reserved_by t) + length (owed_by t))%nat ->
  accepted_by t' = accepted_by t ->
  reserved_by t' ++ mp_queue p' ++ taken_by t' ≡ₚ reserved_by t ++ mp_queue p ++ taken_by t ->
  clearing t' = false -> pool_inv p (t :: ts) -> pool_inv p' (t' :: ts).
Proof.
  intros Hl Hseen Hcap' Hcnt Hlen Hacc Hcons' Hclr [Hd Hs Hc Hcap Hcons Hn]. simpl in *.
  destruct (live_same p (t :: ts) p' (t' :: ts)) as [Hd' Hs']; [|done..|].
  { unfold live. simpl. transitivity ((mp_queue p ++ reserved_by t ++ forgetting t) ++
      (ts ≫= reserved_by) ++ (ts ≫= forgetting)); [solve_Permutation|].
    rewrite <- Hl. solve_Permutation. }
  constructor; simpl; [done|done|..].
  - rewrite Hcnt, Hc, !length_app. lia.
  - by rewrite Hcap', Hcnt.
  - rewrite Hacc, Hcons. transitivity ((reserved_by t ++ mp_queue p ++ taken_by t) ++
      (ts ≫= reserved_by) ++ (ts ≫= taken_by)); [solve_Permutation|].
    rewrite <- Hcons'. solve_Permutation.
  - apply Forall_cons in Hn as [_ Hn]. by constructor.
Qed.

Lemma pool_inv_forget p more batch tx ts :
  pool_inv p (TForget more batch tx :: ts) ->
  pool_inv (forget p tx) (TPop more (batch ++ [tx]) :: ts).
Proof.
  intros [Hd Hs Hc Hcap Hcons Hn]. unfold live in *. simpl in *.
  assert (mp_queue p ++ (ts ≫= reserved_by) ++ tx :: (ts ≫= forgetting) ≡ₚ
    tx :: mp_queue p ++ (ts ≫= reserved_by) ++ (ts ≫= forgetting)) as Hl by solve_Permutation.
  rewrite Hl, fmap_cons, NoDup_cons in Hd. destruct Hd as [Hnin Hd].
  constructor; unfold live; simpl; [done| |done..|].
  - intros h. specialize (Hs h). rewrite Hl, fmap_cons, elem_of_cons in Hs.
    rewrite elem_of_difference, elem_of_singleton, Hs. split; [naive_solver|].
    intros Hin. split; [by right|]. by intros ->.
  - apply Forall_cons in Hn as [_ Hn]. by constructor.
Qed.

Lemma pool_inv_account p batch ts :
  pool_inv p (TAccount batch :: ts) -> pool_inv (account p (length batch)) (TDrained batch :: ts).
Proof.
  intros [Hd Hs Hc Hcap Hcons Hn]. unfold live in *. simpl in *. rewrite length_app in Hc.
  assert (saturating_sub (mp_count p) (Z.of_nat (length batch)) =
    mp_count p - Z.of_nat (length batch)) as Hsub by (unfold saturating_sub; lia).
  constructor; unfold live; simpl; [done..| | |done|].
  - rewrite Hsub. lia.
  - rewrite Hsub. lia.
  - apply Forall_cons in Hn as [_ Hn]. by constructor.
Qed.

Lemma pool_inv_step p t ts p' t' :
  thread_step p t = (p', t') -> pool_inv p (t :: ts) -> pool_inv p' (t' :: ts).
Proof.
  intros Hstep Hinv. pose proof (inv_no_clear _ _ Hinv) as Hclr. apply Forall_cons in Hclr as [Hclr _].
  destruct t as [tx|tx|[|more] batch|more batch tx|batch| | | |tx|tx e|batch|]; simpl in Hstep, Hclr;
    try done; try (simplify_eq; done).
  - destruct (insert_reserve p tx) as [p1|e|] eqn:Hres; simplify_eq; [by eapply pool_inv_reserve| |done].
    by apply (pool_inv_same p' (TReserve tx)).
  - simplify_eq. apply (pool_inv_same p (TPush tx)); simpl; try done; try solve_Permutation.
    rewrite length_app. simpl. lia.
  - simplify_eq. by apply (pool_inv_same p' (TPop 0 batch)).
  - unfold queue_pop in Hstep. destruct (mp_queue p) as [|tx queue] eqn:Hq; simplify_eq.
    + by apply (pool_inv_same p' (TPop (S more) batch)).
    + apply (pool_inv_same p (TPop (S more) batch)); simpl; rewrite ?Hq; try done; try solve_Permutation.
      rewrite length_app. simpl. lia.
  - simplify_eq. by apply pool_inv_forget.
  - simplify_eq. by apply pool_inv_account.
Qed.

Lemma pool_inv_spawn p ts t :
  taken_by t = [] -> accepted_by t = [] -> reserved_by t = [] -> forgetting t = [] ->
  owed_by t = [] -> clearing t = false -> pool_inv p ts -> pool_inv p (ts ++ [t]).
Proof.
  intros H1 H2 H3 H4 H5 H6 [Hd Hs Hc Hcap Hcons Hn].
  rewrite <- Permutation_cons_append. constructor; unfold live in *; simpl; rewrite ?H1, ?H2, ?H3, ?H4, ?H5; try done.
  by constructor.
Qed.

Lemma sys_event_inv s ev : no_clear ev = true ->
  pool_inv (sys_pool s) (sys_threads s) ->
  pool_inv (sys_pool (sys_event s ev)) (sys_threads (sys_event s ev)).
Proof.
  intros Hev Hinv. destruct ev as [tx|max| |i]; simpl; [by apply pool_inv_spawn..|done|].
  destruct (sys_threads s !! i) as [t|] eqn:Hi; [|done].
  destruct (thread_step (sys_pool s) t) as [p' t'] eqn:Hstep. simpl.
  assert (<[i:=t']> (sys_threads s) ≡ₚ t' :: delete i (sys_threads s)) as ->.
  { rewrite insert_take_drop, delete_take_drop by (by eapply lookup_lt_Some). solve_Permutation. }
  eapply pool_inv_step; [exact Hstep|]. by rewrite <- (delete_Permutation _ _ _ Hi).
Qed.

Lemma thread_step_capacity p t : mp_capacity (thread_step p t).1 = mp_capacity p.
Proof.
  destruct t as [tx|tx|[|more] batch|more batch tx|batch| | | |tx|tx e|batch|]; simpl; try done.
  - unfold insert_reserve. by repeat case_bool_decide.
  - unfold queue_pop. by destruct (mp_queue p).
  - unfold queue_pop. by destruct (mp_queue p).
Qed.

Lemma sys_events_inv evs : forallb no_clear evs = true -> forall s,
  pool_inv (sys_pool s) (sys_threads s) ->
  let s' := foldl sys_event s evs in
  pool_inv (sys_pool s') (sys_threads s') /\ mp_capacity (sys_pool s') = mp_capacity (sys_pool s).
Proof.
  induction evs as [|ev evs IH]; intros Hevs s Hinv; [done|].
  cbn [forallb] in Hevs. apply andb_true_iff in Hevs as [Hev Hevs]. cbn [foldl].
  destruct (IH Hevs (sys_event s ev)) as [Hinv' Hc]; [by apply sys_event_inv|].
  split; [done|]. rewrite Hc. destruct ev as [tx|max| |i]; simpl; try done.
  destruct (sys_threads s !! i) as [t|]; [|done].
  pose proof (thread_step_capacity (sys_pool s) t) as Hstep.
  by destruct (thread_step (sys_pool s) t).
Qed.

Lemma sys_run_inv capacity evs : 0 <= capacity <= u64_max -> forallb no_clear evs = true ->
  pool_inv (sys_pool (sys_run capacity evs)) (sys_threads (sys_run capacity evs)) /\
  mp_capacity (sys_pool (sys_run capacity evs)) = capacity.
Proof.
  intros Hcap Hevs. apply (sys_events_inv evs Hevs (mkSystem (mempool_new capacity) [])).
  constructor; unfold live; simpl; try done; [constructor|set_solver].
Qed.

Lemma finished_settled ts : forallb finished ts = true ->
  ts ≫= reserved_by = [] /\ ts ≫= forgetting = [] /\ ts ≫= owed_by = @nil Tx.
Proof.
  induction ts as [|t ts IH]; [done|]. cbn [forallb]. rewrite andb_true_iff. intros [Ht Hts].
  destruct (IH Hts) as (Hr & Hf & Ho). rewrite !bind_cons, Hr, Hf, Ho. by destruct t.
Qed.

End Mempool.
Arguments thread Tx : clear implicits.
Arguments event Tx : clear implicits.
Arguments system Tx : clear implicits.

(** C32: the plain pool is safe under every interleaving of its atomic actions, for any
    number of concurrent [insert] and [drain] calls: the queue never exceeds the
    capacity and never holds two transactions of the same hash; every accepted
    transaction is exactly once among those about to be queued, those in the queue and
    those taken by some drain; and once all calls have returned, the counter is the
    length of the queue and the set of hashes is that of the queue. *)
Theorem mempool_interleavings {Tx} (tx_hash : Tx -> Hash256) (capacity : Z) (evs : list (event Tx))
  (Hcap : 0 <= capacity <= u64_max) (Hevs : forallb no_clear evs = true) :
  let s := sys_run tx_hash capacity evs in
  let queue := mp_queue (sys_pool s) in
  Z.of_nat (length queue) <= capacity /\ NoDup (tx_hash <$> queue) /\
  of_threads accepted_by s ≡ₚ of_threads reserved_by s ++ queue ++ of_threads taken_by s /\
  (forallb finished (sys_threads s) = true ->
     mempool_len (sys_pool s) = Z.of_nat (length queue) /\
     forall h, mempool_contains (sys_pool s) h = true <-> h ∈ tx_hash <$> queue).
Proof.
  intros s queue. destruct (sys_run_inv tx_hash capacity evs Hcap Hevs) as [Hinv Hcapacity].
  fold s in Hinv, Hcapacity. destruct Hinv as [Hd Hs Hc Hle Hcons _]. fold queue in Hc, Hcons.
  unfold live in Hd, Hs. fold queue in Hd, Hs.
  split; [lia|]. split; [rewrite fmap_app in Hd; by apply NoDup_app in Hd as [? _]|].
  split; [exact Hcons|]. intros (Hr & Hf & Ho)%finished_settled.
  unfold mempool_len, mempool_contains. rewrite Hc, Hr, Ho. split; [simpl; lia|].
  intros h. rewrite bool_decide_eq_true, Hs, Hr, Hf. by rewrite !app_nil_r.
Qed.

Module DemoPool.

(** Two inserts of one transaction race, and a drain runs into them. *)
Definition racing : list (event Z) :=
  [CallInsert 7; CallInsert 7; Schedule 0; Schedule 1; CallInsert 8; Schedule 2; Schedule 2;
   CallDrain 2; Schedule 3; Schedule 0; Schedule 3; Schedule 3; Schedule 3; Schedule 3; Schedule 3].

(** A [clear] runs between the two halves of an insert, and the transaction is then
    inserted again. *)
Definition cleared : list (event Z) :=
  [CallInsert 7; Schedule 0; CallClear; Schedule 1; Schedule 1; Schedule 1; Schedule 0].

Definition reinserted : list (event Z) := cleared ++ [CallInsert 7; Schedule 2; Schedule 2].

End DemoPool.

Lemma mempool_interleavings_witness :
  let s := sys_run id 2 DemoPool.racing in
  mp_queue (sys_pool s) = [] /\ NoDup (id <$> mp_queue (sys_pool s)) /\
  mempool_len (sys_pool s) = 0.
Proof.
  destruct (@mempool_interleavings Z id 2 DemoPool.racing) as (_ & Hd & _ & _);
    [vm_compute; by split|reflexivity|].
  split; [vm_compute; reflexivity|]. split; [exact Hd|vm_compute; reflexivity].
Defined.

(** [clear] is not safe against a concurrent [insert]: there is an interleaving of one
    insert and one clear after which both calls have returned and the transaction is in
    the queue, while the pool reports length zero and does not contain it; inserting it
    again is then accepted and queues it twice. *)
Theorem clear_races_with_insert :
  (exists evs : list (event Z), let s := sys_run id 10 evs in
     forallb finished (sys_threads s) = true /\ mp_queue (sys_pool s) = [7] /\
     mempool_len (sys_pool s) = 0 /\ mempool_contains (sys_pool s) 7 = false) /\
  (exists evs : list (event Z), let s := sys_run id 10 evs in
     forallb finished (sys_threads s) = true /\ mp_queue (sys_pool s) = [7; 7]).
Proof.
  split; [exists DemoPool.cleared|exists DemoPool.reinserted]; vm_compute; done.
Qed.

(** ** The encrypted pool *)

Record EncryptedTx := mkEncryptedTx {
  etx_id : Hash256;
  etx_payload : list Z;
  etx_target_slot : Z;
  etx_key : list Z;
  etx_submitted_at : Z;
  etx_sender_commitment : Hash256;
}.

Record RevealedTx (Tx : Type) := mkRevealedTx {
  rtx_encrypted_id : Hash256;
  rtx_transaction : Tx;
  rtx_reveal_round : Z;
}.
Arguments mkRevealedTx {Tx} _ _ _.

Record BlsCommittee := mkBlsCommittee {
  bc_keypairs : list BlsKeypair;
  bc_public_keys : list (list Z);
}.

Record EncryptedMempool := mkEncryptedMempool {
  em_pending : list EncryptedTx;
  em_seen : gset Hash256;
  em_capacity : Z;
  em_committee : BlsCommittee;
  em_current_slot : Z;
}.

#[global] Instance EncryptedMempool_eta : Eta EncryptedMempool :=
  fun p => mkEncryptedMempool (em_pending p) (em_seen p) (em_capacity p) (em_committee p)
             (em_current_slot p).

(** What [encrypt_transaction] draws: the key of the transaction, two nonces, the
    salt, and the clock. *)
Record draws := mkDraws {
  dr_key : list Z;
  dr_payload_nonce : list Z;
  dr_key_nonce : list Z;
  dr_salt : list Z;
  dr_now : Z;
}.

Definition with_committee (capacity : Z) (committee : BlsCommittee) : EncryptedMempool :=
  mkEncryptedMempool [] ∅ capacity committee 0.

Definition advance_slot (p : EncryptedMempool) : EncryptedMempool :=
  p <| em_current_slot := wrapping_add (em_current_slot p) 1 |>.

Definition set_slot (p : EncryptedMempool) (slot : Z) : EncryptedMempool :=
  p <| em_current_slot := slot |>.

(** The three atomic actions of [submit_encrypted]. *)
Definition check_capacity (p : EncryptedMempool) : outcome MempoolError unit :=
  require (negb (bool_decide (em_capacity p <= Z.of_nat (length (em_pending p)))))
    (MpFull (em_capacity p)).

Definition mark_seen (p : EncryptedMempool) (etx : EncryptedTx)
    : outcome MempoolError EncryptedMempool :=
  if bool_decide (etx_id etx ∈ em_seen p) then Err (MpDuplicate (etx_id etx))
  else Ok (p <| em_seen := {[etx_id etx]} ∪ em_seen p |>).

Definition push_pending (p : EncryptedMempool) (etx : EncryptedTx) : EncryptedMempool :=
  p <| em_pending := em_pending p ++ [etx] |>.

Definition submit_encrypted (p : EncryptedMempool) (etx : EncryptedTx)
    : outcome MempoolError EncryptedMempool :=
  _ ← check_capacity p; p' ← mark_seen p etx; Ok (push_pending p' etx).

(** One turn of the loop of [drain_fifo], which holds the lock of the queue. *)
Fixpoint drain_turns (n : nat) (p : EncryptedMempool) (batch : list EncryptedTx)
    : list EncryptedTx * EncryptedMempool :=
  match n with
  | O => (batch, p)
  | S n' =>
      match em_pending p with
      | [] => drain_turns n' p batch
      | etx :: pending =>
          drain_turns n' (p <| em_pending := pending |> <| em_seen := em_seen p ∖ {[etx_id etx]} |>)
            (batch ++ [etx])
      end
  end.

Definition drain_fifo (p : EncryptedMempool) (max : nat) : list EncryptedTx * EncryptedMempool :=
  drain_turns (Nat.min max (length (em_pending p))) p [].

Fixpoint verify_fifo_ordering (batch : list EncryptedTx) : bool :=
  match batch with
  | a :: ((b :: _) as rest) =>
      if bool_decide (etx_submitted_at b < etx_submitted_at a) then false
      else verify_fifo_ordering rest
  | _ => true
  end.

Definition pending_count (p : EncryptedMempool) : Z := Z.of_nat (length (em_pending p)).

Section EncryptedPool.
Context `{Crypto} `{Blst}.

Definition new_deterministic (n : nat) : outcome MempoolError BlsCommittee :=
  keypairs ← mapM (fun i => bls_keygen (ascii_bytes ("ARC-committee-member-" +:+ pretty i))) (seq 0 n);
  Ok (mkBlsCommittee keypairs (bls_public <$> keypairs)).

Definition encrypted_new (capacity : Z) : outcome MempoolError EncryptedMempool :=
  committee ← new_deterministic 5; Ok (with_committee capacity committee).

Definition sign_slot (c : BlsCommittee) (slot : Z) : outcome MempoolError (list (list Z)) :=
  mapM (fun kp => bls_sign (bls_secret kp) (slot_message slot)) (bc_keypairs c).

Definition committee_slot_key (c : BlsCommittee) (slot : Z) : outcome MempoolError (list Z) :=
  sigs ← sign_slot c slot; derive_slot_key slot sigs.

Context {Tx : Type} (tx_from : Tx -> Address).
Context (bincode_tx : Tx -> option (list Z)) (bincode_read_tx : list Z -> option Tx).

Definition encrypt_transaction (tx : Tx) (slot_key : list Z) (target_slot : Z) (r : draws)
    : outcome MempoolError EncryptedTx :=
  plaintext ← expect (bincode_tx tx);
  let encrypted_payload := encrypt_with_nonce (dr_key r) plaintext (dr_payload_nonce r) in
  let encrypted_key := encrypt_with_nonce slot_key (dr_key r) (dr_key_nonce r) in
  let sender_commitment := blake3_derive_key "ARC-sender-commitment-v2"
    (hash_to_bytes (tx_from tx) ++ u64_le target_slot ++ dr_salt r) in
  Ok (mkEncryptedTx (hash_bytes encrypted_payload) encrypted_payload target_slot encrypted_key
        (dr_now r) sender_commitment).

Definition decrypt_transaction (etx : EncryptedTx) (slot_key : list Z) : outcome MempoolError Tx :=
  per_tx_key ← ok_or (decrypt slot_key (etx_key etx)) MpDecryptionFailed;
  _ ← require (bool_decide (length per_tx_key = 32%nat)) MpDecryptionFailed;
  plaintext ← ok_or (decrypt per_tx_key (etx_payload etx)) MpDecryptionFailed;
  ok_or (bincode_read_tx plaintext) MpDeserializationFailed.

(** A transaction that does not decrypt is logged and left out. *)
Definition reveal_one (etx : EncryptedTx) (slot_key : list Z) (reveal_round : Z) : list (RevealedTx Tx) :=
  match decrypt_transaction etx slot_key with
  | Ok tx => [mkRevealedTx (etx_id etx) tx reveal_round]
  | _ => []
  end.

Definition reveal_batch_with_key (batch : list EncryptedTx) (slot_key : list Z) (reveal_round : Z)
    : list (RevealedTx Tx) :=
  batch ≫= fun etx => reveal_one etx slot_key reveal_round.

Fixpoint reveal_batch (p : EncryptedMempool) (batch : list EncryptedTx) (reveal_round : Z)
    : outcome MempoolError (list (RevealedTx Tx)) :=
  match batch with
  | [] => Ok []
  | etx :: batch' =>
      slot_key ← committee_slot_key (em_committee p) (etx_target_slot etx);
      revealed ← reveal_batch p batch' reveal_round;
      Ok (reveal_one etx slot_key reveal_round ++ revealed)
  end.

End EncryptedPool.

(** Submissions one after the other. *)
Definition submit_all (p : EncryptedMempool) (etxs : list EncryptedTx)
    : outcome MempoolError EncryptedMempool := mfoldl submit_encrypted p etxs.

(** ** Concurrent submitters *)

Inductive submitter :=
| SCheck (etx : EncryptedTx)
| SMark (etx : EncryptedTx)
| SPush (etx : EncryptedTx)
| SSubmitted (etx : EncryptedTx)
| SRefused (etx : EncryptedTx).

Definition submitter_step (p : EncryptedMempool) (t : submitter) : EncryptedMempool * submitter :=
  match t with
  | SCheck etx => (p, if is_ok (check_capacity p) then SMark etx else SRefused etx)
  | SMark etx =>
      match mark_seen p etx with
      | Ok p' => (p', SPush etx)
      | _ => (p, SRefused etx)
      end
  | SPush etx => (push_pending p etx, SSubmitted etx)
  | SSubmitted _ | SRefused _ => (p, t)
  end.

(** The scheduler names the thread that performs its next action. *)
Definition submitters_run (p : EncryptedMempool) (ts : list submitter) (schedule : list nat)
    : EncryptedMempool * list submitter :=
  foldl (fun '(p, ts) i =>
    match ts !! i with
    | None => (p, ts)
    | Some t => let '(p', t') := submitter_step p t in (p', <[i := t']> ts)
    end) (p, ts) schedule.

Lemma drain_turns_exact n : forall p batch, (n <= length (em_pending p))%nat ->
  exists seen', drain_turns n p batch =
    (batch ++ take n (em_pending p),
     p <| em_pending := drop n (em_pending p) |> <| em_seen := seen' |>).
Proof.
  induction n as [|n IH]; intros p batch Hn; cbn [drain_turns].
  { exists (em_seen p). rewrite take_0, drop_0, app_nil_r. by destruct p. }
  destruct (em_pending p) as [|etx pending] eqn:Hp; [simpl in Hn; lia|].
  match goal with |- context [drain_turns n ?q ?b] => destruct (IH q b) as (seen' & ->) end.
  { simpl in *. lia. }
  exists seen'. simpl. by rewrite <- app_assoc.
Qed.

Lemma drain_fifo_exact p max : exists seen',
  drain_fifo p max = (take max (em_pending p),
    p <| em_pending := drop max (em_pending p) |> <| em_seen := seen' |>).
Proof.
  unfold drain_fifo. destruct (drain_turns_exact (Nat.min max (length (em_pending p))) p [])
    as (seen' & ->); [lia|]. exists seen'.
  destruct (Nat.min_spec max (length (em_pending p))) as [[_ ->]|[Hle ->]]; [done|].
  rewrite !take_ge, !drop_ge by lia. done.
Qed.

Lemma submit_all_pending etxs : forall p p', submit_all p etxs = Ok p' ->
  em_pending p' = em_pending p ++ etxs /\ em_committee p' = em_committee p.
Proof.
  unfold submit_all. induction etxs as [|etx etxs IH]; intros p p' Hsub; cbn [mfoldl] in Hsub.
  { simplify_eq. by rewrite app_nil_r. }
  apply bind_Ok in Hsub as (p1 & H1 & Hsub). apply IH in Hsub as [-> ->].
  unfold submit_encrypted in H1. inv_ok. unfold mark_seen in *. case_bool_decide; simplify_eq.
  simpl. by rewrite <- app_assoc.
Qed.

Section Delivery.
Context `{Crypto} `{Blst}.
Context {Tx : Type} (tx_from : Tx -> Address).
Context (bincode_tx : Tx -> option (list Z)) (bincode_read_tx : list Z -> option Tx).
Context (Hread : forall tx bytes, bincode_tx tx = Some bytes -> bincode_read_tx bytes = Some tx).

(** The widths of the arrays that are drawn. *)
Definition draws_ok (r : draws) : Prop :=
  length (dr_key r) = 32%nat /\ length (dr_payload_nonce r) = 12%nat /\
  length (dr_key_nonce r) = 12%nat.

Lemma decrypt_encrypt_transaction tx key slot r etx : draws_ok r ->
  encrypt_transaction tx_from bincode_tx tx key slot r = Ok etx ->
  decrypt_transaction bincode_read_tx etx key = Ok tx /\ etx_target_slot etx = slot.
Proof.
  intros (Hk & Hn1 & Hn2) Henc. unfold encrypt_transaction in Henc. inv_ok.
  split; [|done]. unfold decrypt_transaction. simpl.
  rewrite decrypt_encrypt by done. simpl. rewrite bool_decide_true by done. simpl.
  rewrite decrypt_encrypt by done. simpl. by erewrite Hread.
Qed.

Lemma reveal_batch_delivers p key slot reveal_round txs etxs :
  committee_slot_key (em_committee p) slot = Ok key ->
  Forall2 (fun x etx => draws_ok x.2 /\
    encrypt_transaction tx_from bincode_tx x.1 key slot x.2 = Ok etx) txs etxs ->
  reveal_batch bincode_read_tx p etxs reveal_round =
    Ok (zip_with (fun x etx => mkRevealedTx (etx_id etx) x.1 reveal_round) txs etxs).
Proof.
  intros Hkey. induction 1 as [|x etx txs etxs [Hr Henc] _ IH]; [done|].
  destruct (decrypt_encrypt_transaction _ _ _ _ _ Hr Henc) as [Hdec Hslot].
  cbn [reveal_batch]. rewrite Hslot, Hkey. cbn [mbind outcome_bind]. rewrite IH.
  cbn [mbind outcome_bind]. unfold reveal_one. by rewrite Hdec.
Qed.

End Delivery.

(** The encrypted pool delivers what was submitted: transactions encrypted under the
    key of a slot and submitted one after the other are drained in that order, as many
    as asked for, the rest stays pending, and [reveal_batch] with the committee's key of
    the slot reveals every drained transaction, in order, with its identifier. *)
Theorem encrypted_pool_delivers `{Crypto} `{Blst} {Tx} (tx_from : Tx -> Address)
  (bincode_tx : Tx -> option (list Z)) (bincode_read_tx : list Z -> option Tx)
  (committee : BlsCommittee) (capacity slot reveal_round : Z) (key : list Z)
  (txs : list (Tx * draws)) (etxs : list EncryptedTx) (p : EncryptedMempool) (max : nat)
  (Hread : forall tx bytes, bincode_tx tx = Some bytes -> bincode_read_tx bytes = Some tx)
  (Hdraws : Forall (fun x => draws_ok x.2) txs)
  (Hkey : committee_slot_key committee slot = Ok key)
  (Henc : Forall2 (fun x etx =>
    encrypt_transaction tx_from bincode_tx x.1 key slot x.2 = Ok etx) txs etxs)
  (Hsub : submit_all (with_committee capacity committee) etxs = Ok p) :
  let '(batch, p') := drain_fifo p max in
  batch = take max etxs /\ em_pending p' = drop max etxs /\
  reveal_batch bincode_read_tx p' batch reveal_round =
    Ok (zip_with (fun x etx => mkRevealedTx (etx_id etx) x.1 reveal_round)
          (take max txs) (take max etxs)).
Proof.
  apply submit_all_pending in Hsub as [Hp Hc]. simpl in Hp, Hc.
  destruct (drain_fifo_exact p max) as (seen' & ->). rewrite Hp. split; [done|]. split; [done|].
  apply (reveal_batch_delivers tx_from bincode_tx bincode_read_tx Hread _ key slot);
    [simpl; by rewrite Hc|].
  apply Forall2_take. clear - Henc Hdraws.
  induction Henc; [constructor|]. apply Forall_cons in Hdraws as [??]. constructor; auto.
Qed.

Module DemoEncrypted.

Definition pad96 (l : list Z) : list Z := take 96 (l ++ replicate 96 0).

#[export] Instance demo_blst : Blst := {|
  BlstSecretKey := list Z; BlstPublicKey := list Z; BlstSignature := list Z;
  blst_key_gen ikm := Some ikm;
  blst_sk_serialize sk := sk;
  blst_sk_deserialize bytes := Some bytes;
  blst_sk_to_pk sk := take 48 (sk ++ replicate 48 0);
  blst_sign sk msg := pad96 (sk ++ msg);
  blst_verify sig msg pk := true;
  blst_sig_compress sig := sig;
  blst_sig_uncompress bytes := Some bytes;
  blst_pk_compress pk := pk;
  blst_pk_uncompress bytes := Some bytes;
  blst_aggregate_sigs sigs := Some (foldr (zip_with Z.lxor) (replicate 96 0) sigs);
  blst_aggregate_pks pks := Some (foldr (zip_with Z.lxor) (replicate 48 0) pks);
|}.

Definition get {A} (o : outcome MempoolError A) (d : A) : A := match o with Ok a => a | _ => d end.

Definition committee : BlsCommittee :=
  get (new_deterministic (H := Demo.demo_crypto) (H0 := demo_blst) 5) (mkBlsCommittee [] []).

Definition key : list Z :=
  get (committee_slot_key (H := Demo.demo_crypto) (H0 := demo_blst) committee 3) [].

Definition draw (i now : Z) : draws :=
  mkDraws (replicate 32 i) (replicate 12 (i + 1)) (replicate 12 (i + 2)) (replicate 16 i) now.

Definition write_tx (tx : Z) : option (list Z) := Some [tx].
Definition read_tx (bytes : list Z) : option Z := match bytes with [tx] => Some tx | _ => None end.

Definition txs : list (Z * draws) := [(40, draw 1 100); (41, draw 2 90); (42, draw 3 120)].

Definition empty_etx : EncryptedTx := mkEncryptedTx 0 [] 0 [] 0 0.

Definition seal (x : Z * draws) : EncryptedTx :=
  get (encrypt_transaction (H := Demo.demo_crypto) (fun tx => tx) write_tx x.1 key 3 x.2) empty_etx.

Definition etxs : list EncryptedTx := seal <$> txs.

Definition pool : EncryptedMempool :=
  get (submit_all (with_committee 10 committee) etxs) (with_committee 10 committee).

(** Both submitters look at the capacity before either has queued. *)
Definition full_race : EncryptedMempool * list submitter :=
  submitters_run (with_committee 1 committee) (SCheck <$> take 2 etxs) [0; 1; 0; 1; 0; 1]%nat.

End DemoEncrypted.

Lemma encrypted_pool_delivers_witness :
  em_pending (drain_fifo DemoEncrypted.pool 2).2 = drop 2 DemoEncrypted.etxs /\
  length (em_pending DemoEncrypted.pool) = 3%nat.
Proof.
  split; [|vm_compute; reflexivity].
  pose proof (@encrypted_pool_delivers Demo.demo_crypto DemoEncrypted.demo_blst Z (fun tx => tx)
    DemoEncrypted.write_tx DemoEncrypted.read_tx DemoEncrypted.committee 10 3 7 DemoEncrypted.key
    DemoEncrypted.txs DemoEncrypted.etxs DemoEncrypted.pool 2) as Hall.
  destruct (drain_fifo DemoEncrypted.pool 2) as [batch p'].
  destruct Hall as (_ & Hp & _); [| | | | |exact Hp].
  - intros tx bytes [= <-]. reflexivity.
  - repeat constructor.
  - vm_compute. reflexivity.
  - repeat constructor; vm_compute; reflexivity.
  - vm_compute. reflexivity.
Defined.

(** C40: two promises of the encrypted pool are weaker than its comments state.  Two
    submitters that start [submit] on an empty pool and run concurrently can both pass the
    capacity check, after which the pool holds more than its capacity; and a proposer that drains in submission order
    can fail [verify_fifo_ordering], because the time it compares is set when the
    transaction is encrypted, not when it is submitted. *)
Theorem encrypted_pool_limits :
  (exists p etxs schedule, em_capacity p = 1 /\ em_pending p = [] /\ length etxs = 2%nat /\
     let '(p', ts') := submitters_run p (SCheck <$> etxs) schedule in
     ts' = SSubmitted <$> etxs /\ em_capacity p' = 1 /\ pending_count p' = 2) /\
  (exists p etxs p', em_pending p = [] /\ submit_all p etxs = Ok p' /\
     (drain_fifo p' (length etxs)).1 = etxs /\ verify_fifo_ordering etxs = false).
Proof.
  split.
  - exists (with_committee 1 DemoEncrypted.committee), (take 2 DemoEncrypted.etxs),
      [0; 1; 0; 1; 0; 1]%nat.
    split; [done|]. split; [done|]. split; [vm_compute; reflexivity|].
    change (submitters_run _ _ _) with DemoEncrypted.full_race.
    rewrite (surjective_pairing DemoEncrypted.full_race).
    split; [vm_compute; reflexivity|]. split; vm_compute; reflexivity.
  - exists (with_committee 10 DemoEncrypted.committee), DemoEncrypted.etxs, DemoEncrypted.pool.
    split; [done|]. split; [vm_compute; reflexivity|]. split; vm_compute; reflexivity.
Qed.
