(* ===== verification/Shards.v ===== *)
(** * Shard coordination and subnets (crates/arc-consensus/src/beacon.rs, subnet.rs)

    The beacon state collects one attestation per shard and epoch, combines their
    state roots and spreads validators over shards; the subnet registry records
    anchors and memberships.  A [DashMap] is a [gmap]; the clock is an argument. *)

From S2P Require Import Prelude Crypto.

(** ** beacon.rs *)

Inductive BeaconError :=
| InvalidShardId (id num_shards : Z)
| EpochMismatch (expected got : Z)
| InsufficientSignatures.

Record BeaconConfig := mkBeaconConfig {
  bc_num_shards : Z;
  bc_epoch_length : Z;
  bc_min_validators_per_shard : Z;
}.

Record ShardAttestation := mkShardAttestation {
  sa_shard_id : Z;
  sa_epoch : Z;
  sa_state_root : Hash256;
  sa_block_height : Z;
  sa_tx_count : Z;
  sa_proposer : Address;
  sa_validator_signatures : list (Address * list Z);
}.

Record EpochSummary := mkEpochSummary {
  es_epoch : Z;
  es_shard_count : Z;
  es_total_txs : Z;
  es_global_root : Hash256;
}.

Record BeaconState := mkBeaconState {
  be_config : BeaconConfig;
  be_current_epoch : Z;
  be_shard_roots : gmap Z ShardAttestation;
  be_global_root : Hash256;
  be_shard_assignments : gmap Address Z;
  be_shard_validators : gmap Z (list Address);
}.

#[global] Instance BeaconState_eta : Eta BeaconState :=
  fun s => mkBeaconState (be_config s) (be_current_epoch s) (be_shard_roots s) (be_global_root s)
             (be_shard_assignments s) (be_shard_validators s).

(** [0..n] for a [u32] bound. *)
Definition shard_range (n : Z) : list Z := Z.of_nat <$> seq 0 (Z.to_nat n).

Definition beacon_new (config : BeaconConfig) : BeaconState :=
  mkBeaconState config 0 ∅ 0 ∅
    (list_to_map ((fun i => (i, [])) <$> shard_range (bc_num_shards config))).

Definition submit_attestation (s : BeaconState) (att : ShardAttestation)
    : outcome BeaconError BeaconState :=
  _ ← require (negb (bool_decide (bc_num_shards (be_config s) <= sa_shard_id att)))
        (InvalidShardId (sa_shard_id att) (bc_num_shards (be_config s)));
  _ ← require (bool_decide (sa_epoch att = be_current_epoch s))
        (EpochMismatch (be_current_epoch s) (sa_epoch att));
  Ok (s <| be_shard_roots := <[sa_shard_id att := att]> (be_shard_roots s) |>).

Definition shard_leaf (s : BeaconState) (i : Z) : Hash256 :=
  default 0 (sa_state_root <$> be_shard_roots s !! i).

Definition shard_leaves (s : BeaconState) : list Hash256 :=
  shard_leaf s <$> shard_range (bc_num_shards (be_config s)).

Definition next_power_of_two (n : nat) : nat := Z.to_nat (2 ^ Z.log2_up (Z.of_nat n)).

(** [Vec::resize] to a longer length. *)
Definition vec_resize (n : nat) (l : list Hash256) : list Hash256 :=
  take n l ++ replicate (n - length l) 0.

Section Beacon.
Context `{Crypto}.

(** One level: [chunks(2)] with both elements read. *)
Fixpoint hash_chunks (l : list Hash256) : outcome BeaconError (list Hash256) :=
  match l with
  | [] => Ok []
  | [_] => Panic
  | a :: b :: l' => rest ← hash_chunks l'; Ok (hash_pair a b :: rest)
  end.

Fixpoint global_root_loop (fuel size : nat) (leaves : list Hash256)
    : outcome BeaconError (list Hash256) :=
  match fuel with
  | O => Ok leaves
  | S fuel' =>
      if bool_decide (1 < size)%nat then
        next ← hash_chunks leaves; global_root_loop fuel' (size / 2) next
      else Ok leaves
  end.

Definition compute_global_root (s : BeaconState) : outcome BeaconError Hash256 :=
  if bool_decide (bc_num_shards (be_config s) = 0) then Ok 0
  else
    let leaves := shard_leaves s in
    let size := next_power_of_two (length leaves) in
    final ← global_root_loop size size (vec_resize size leaves);
    expect (final !! 0%nat).

Definition advance_epoch (s : BeaconState) : outcome BeaconError (EpochSummary * BeaconState) :=
  global_root ← compute_global_root s;
  let shard_count := Z.of_nat (size (be_shard_roots s)) mod 2 ^ 32 in
  let total_txs := map_fold (fun _ att acc => wrapping_add acc (sa_tx_count att)) 0 (be_shard_roots s) in
  let epoch := be_current_epoch s in
  Ok (mkEpochSummary epoch shard_count total_txs global_root,
      s <| be_global_root := global_root |> <| be_current_epoch := wrapping_add epoch 1 |>
        <| be_shard_roots := ∅ |>).

End Beacon.

Definition shard_size (s : BeaconState) (i : Z) : Z :=
  Z.of_nat (length (default [] (be_shard_validators s !! i))).

(** The scan for the smallest shard, the first one on a tie. *)
Definition least_shard (s : BeaconState) : Z :=
  (foldl (fun '(min_shard, min_count) i =>
     let count := shard_size s i in
     if bool_decide (count < min_count) then (i, count) else (min_shard, min_count))
   (0, u64_max) (shard_range (bc_num_shards (be_config s)))).1.

Definition assign_validator (s : BeaconState) (validator : Address) : Z * BeaconState :=
  let min_shard := least_shard s in
  (min_shard,
   s <| be_shard_assignments := <[validator := min_shard]> (be_shard_assignments s) |>
     <| be_shard_validators :=
          <[min_shard := default [] (be_shard_validators s !! min_shard) ++ [validator]]>
            (be_shard_validators s) |>).

Definition get_shard_for_account (s : BeaconState) (address : Address) : outcome BeaconError Z :=
  let val := from_le_bytes (reverse (take 4 (hash_to_bytes address))) in
  if bool_decide (bc_num_shards (be_config s) = 0) then Panic
  else Ok (val mod bc_num_shards (be_config s)).

(** ** subnet.rs *)

Inductive SubnetError :=
| SubnetNotFound (id : Hash256)
| SubnetAlreadyExists
| SubnetNotAuthorized
| SubnetInsufficientValidators (have need : Z)
| SubnetInvalidAnchorHeight (new latest : Z)
| SubnetNotActive
| SubnetValidatorAlreadyJoined
| SubnetValidatorNotFound
| SubnetInsufficientStake (have need : Z).

Inductive SubnetVmType := VmEvm | VmWasm | VmCustom | VmZkRollup.

Inductive SubnetStatus := SnPending | SnActive | SnPaused | SnDeregistered.

#[global] Instance SubnetStatus_eq_dec : EqDecision SubnetStatus.
Proof. solve_decision. Defined.

Record SubnetConfig := mkSubnetConfig {
  sc_subnet_id : Hash256;
  sc_name : string;
  sc_owner : Address;
  sc_created_at : Z;
  sc_vm_type : SubnetVmType;
  sc_anchor_interval : Z;
  sc_min_validators : Z;
  sc_max_validators : Z;
  sc_stake_requirement : Z;
  sc_status : SubnetStatus;
}.

#[global] Instance SubnetConfig_eta : Eta SubnetConfig :=
  fun c => mkSubnetConfig (sc_subnet_id c) (sc_name c) (sc_owner c) (sc_created_at c) (sc_vm_type c)
             (sc_anchor_interval c) (sc_min_validators c) (sc_max_validators c)
             (sc_stake_requirement c) (sc_status c).

Record StateAnchor := mkStateAnchor {
  an_subnet_id : Hash256;
  an_subnet_height : Z;
  an_state_root : Hash256;
  an_tx_root : Hash256;
  an_anchor_height : Z;
  an_submitter : Address;
  an_timestamp : Z;
}.

Record SubnetValidator := mkSubnetValidator {
  sv_address : Address;
  sv_subnet_id : Hash256;
  sv_stake : Z;
  sv_joined_at : Z;
  sv_is_active : bool;
}.

Record SubnetRegistry := mkSubnetRegistry {
  sr_subnets : gmap Hash256 SubnetConfig;
  sr_anchors : gmap Hash256 (list StateAnchor);
  sr_validators : gmap Hash256 (list SubnetValidator);
  sr_latest_anchor : gmap Hash256 StateAnchor;
}.

#[global] Instance SubnetRegistry_eta : Eta SubnetRegistry :=
  fun r => mkSubnetRegistry (sr_subnets r) (sr_anchors r) (sr_validators r) (sr_latest_anchor r).

Definition subnet_registry_new : SubnetRegistry := mkSubnetRegistry ∅ ∅ ∅ ∅.

Definition register_subnet (r : SubnetRegistry) (config : SubnetConfig)
    : outcome SubnetError (Hash256 * SubnetRegistry) :=
  let id := sc_subnet_id config in
  _ ← require (bool_decide (sr_subnets r !! id = None)) SubnetAlreadyExists;
  Ok (id, r <| sr_subnets := <[id := config]> (sr_subnets r) |>
            <| sr_anchors := <[id := []]> (sr_anchors r) |>
            <| sr_validators := <[id := []]> (sr_validators r) |>).

Definition deregister_subnet (r : SubnetRegistry) (id : Hash256) (caller : Address)
    : outcome SubnetError SubnetRegistry :=
  entry ← ok_or (sr_subnets r !! id) (SubnetNotFound id);
  _ ← require (bool_decide (sc_owner entry = caller)) SubnetNotAuthorized;
  Ok (r <| sr_subnets := <[id := entry <| sc_status := SnDeregistered |>]> (sr_subnets r) |>).

Definition get_subnet (r : SubnetRegistry) (id : Hash256) : option SubnetConfig := sr_subnets r !! id.

Definition list_subnets (r : SubnetRegistry) : list SubnetConfig := snd <$> map_to_list (sr_subnets r).

Definition active_subnet_count (r : SubnetRegistry) : nat :=
  size (filter (fun kv => sc_status kv.2 = SnActive) (sr_subnets r)).

Definition submit_anchor (r : SubnetRegistry) (anchor : StateAnchor)
    : outcome SubnetError SubnetRegistry :=
  let id := an_subnet_id anchor in
  subnet ← ok_or (sr_subnets r !! id) (SubnetNotFound id);
  _ ← require (bool_decide (sc_status subnet = SnActive)) SubnetNotActive;
  _ ← match sr_latest_anchor r !! id with
      | Some latest =>
          require (negb (bool_decide (an_subnet_height anchor <= an_subnet_height latest)))
            (SubnetInvalidAnchorHeight (an_subnet_height anchor) (an_subnet_height latest))
      | None => Ok ()
      end;
  Ok (r <| sr_latest_anchor := <[id := anchor]> (sr_latest_anchor r) |>
        <| sr_anchors := <[id := default [] (sr_anchors r !! id) ++ [anchor]]> (sr_anchors r) |>).

Definition get_latest_anchor (r : SubnetRegistry) (id : Hash256) : option StateAnchor :=
  sr_latest_anchor r !! id.

Definition get_anchor_at_height (r : SubnetRegistry) (id : Hash256) (h : Z) : option StateAnchor :=
  anchors ← sr_anchors r !! id; snd <$> list_find (fun a => an_subnet_height a = h) anchors.

Definition anchor_count (r : SubnetRegistry) (id : Hash256) : nat :=
  default 0%nat (length <$> sr_anchors r !! id).

(** [join_subnet] writes the list of validators and then, in a second step, the status. *)
Definition join_subnet (r : SubnetRegistry) (id : Hash256) (validator : SubnetValidator)
    : outcome SubnetError SubnetRegistry :=
  subnet ← ok_or (sr_subnets r !! id) (SubnetNotFound id);
  _ ← require (negb (bool_decide (sv_stake validator < sc_stake_requirement subnet)))
        (SubnetInsufficientStake (sv_stake validator) (sc_stake_requirement subnet));
  let vals := default [] (sr_validators r !! id) in
  _ ← require (negb (existsb (fun v => bool_decide (sv_address v = sv_address validator)) vals))
        SubnetValidatorAlreadyJoined;
  let vals' := vals ++ [validator] in
  let active_count := Z.of_nat (length (filter (fun v => sv_is_active v = true) vals')) mod 2 ^ 32 in
  let r' := r <| sr_validators := <[id := vals']> (sr_validators r) |> in
  Ok (if bool_decide (sc_status subnet = SnPending) && bool_decide (sc_min_validators subnet <= active_count)
      then r' <| sr_subnets := <[id := subnet <| sc_status := SnActive |>]> (sr_subnets r') |>
      else r').

Definition leave_subnet (r : SubnetRegistry) (id : Hash256) (address : Address)
    : outcome SubnetError SubnetRegistry :=
  _ ← ok_or (sr_subnets r !! id) (SubnetNotFound id);
  vals ← ok_or (sr_validators r !! id) SubnetValidatorNotFound;
  idx ← ok_or (fst <$> list_find (fun v => sv_address v = address) vals) SubnetValidatorNotFound;
  Ok (r <| sr_validators := <[id := delete idx vals]> (sr_validators r) |>).

Definition subnet_validators (r : SubnetRegistry) (id : Hash256) : list SubnetValidator :=
  default [] (sr_validators r !! id).

Definition check_liveness (r : SubnetRegistry) (id : Hash256) (max_age now : Z) : bool :=
  match sr_latest_anchor r !! id with
  | Some a => bool_decide (saturating_sub now (an_timestamp a) <= max_age)
  | None => false
  end.

Fixpoint increasing_heights (l : list StateAnchor) : bool :=
  match l with
  | a :: ((b :: _) as rest) =>
      bool_decide (an_subnet_height a < an_subnet_height b) && increasing_heights rest
  | _ => true
  end.

Definition verify_anchor_sequence (r : SubnetRegistry) (id : Hash256) : bool :=
  match sr_anchors r !! id with
  | None => true
  | Some anchors => increasing_heights anchors
  end.

(** ** Balance of the shards *)

Lemma elem_of_shard_range n i : i ∈ shard_range n <-> 0 <= i < n.
Proof.
  unfold shard_range. rewrite list_elem_of_fmap. split.
  - intros (k & -> & Hk%elem_of_seq). lia.
  - intros Hi. exists (Z.to_nat i). split; [lia|]. apply elem_of_seq. lia.
Qed.

(** The scan keeps the least size seen so far. *)
Lemma scan_least (sz : Z -> Z) l : forall m c,
  let r := foldl (fun '(min_shard, min_count) i =>
    let count := sz i in
    if bool_decide (count < min_count) then (i, count) else (min_shard, min_count)) (m, c) l in
  r.2 <= c /\ (forall i, i ∈ l -> r.2 <= sz i) /\ (r = (m, c) \/ (r.1 ∈ l /\ sz r.1 = r.2)).
Proof.
  induction l as [|x l IH]; intros m c; cbn [foldl]; cbv zeta in *.
  { simpl. split; [lia|]. split; [set_solver|by left]. }
  case_bool_decide as Hc.
  - destruct (IH x (sz x)) as (H1 & H2 & H3). split; [lia|]. split.
    + intros i [->|Hi]%elem_of_cons; [done|by apply H2].
    + right. destruct H3 as [->|[H3 H4]]; [simpl; split; [set_solver|done]|]. split; [set_solver|done].
  - destruct (IH m c) as (H1 & H2 & H3). split; [lia|]. split.
    + intros i [->|Hi]%elem_of_cons; [lia|by apply H2].
    + destruct H3 as [->|[H3 H4]]; [by left|]. right. split; [set_solver|done].
Qed.

Lemma least_shard_spec s : 0 < bc_num_shards (be_config s) ->
  (forall i, 0 <= i < bc_num_shards (be_config s) -> shard_size s i < u64_max) ->
  0 <= least_shard s < bc_num_shards (be_config s) /\
  forall i, 0 <= i < bc_num_shards (be_config s) -> shard_size s (least_shard s) <= shard_size s i.
Proof.
  intros Hn Hsmall. unfold least_shard.
  destruct (scan_least (shard_size s) (shard_range (bc_num_shards (be_config s))) 0 u64_max)
    as (H1 & H2 & H3). cbv zeta in *. set (r := foldl _ _ _) in *.
  assert (r.1 ∈ shard_range (bc_num_shards (be_config s)) /\ shard_size s r.1 = r.2) as [Hin Heq].
  { destruct H3 as [Hr|]; [exfalso|done].
    assert (r.2 <= shard_size s 0) by (apply H2, elem_of_shard_range; lia).
    specialize (Hsmall 0 ltac:(lia)). rewrite Hr in *. simpl in *. lia. }
  split; [by apply elem_of_shard_range|]. intros i Hi. rewrite Heq.
  by apply H2, elem_of_shard_range.
Qed.

Lemma assign_validator_size s v i :
  shard_size (assign_validator s v).2 i = shard_size s i + if bool_decide (i = least_shard s) then 1 else 0.
Proof.
  unfold assign_validator, shard_size. cbn [snd]. case_bool_decide as Hi.
  - subst i. simpl. rewrite lookup_insert_eq. simpl. rewrite length_app. simpl. lia.
  - simpl. rewrite lookup_insert_ne by done. lia.
Qed.

Definition assign_all (s : BeaconState) (vs : list Address) : BeaconState :=
  foldl (fun s v => (assign_validator s v).2) s vs.

Lemma assign_all_balanced vs : forall s m,
  0 < bc_num_shards (be_config s) -> m + Z.of_nat (length vs) < u64_max ->
  (forall i, 0 <= i < bc_num_shards (be_config s) -> shard_size s i <= m) ->
  (forall i j, 0 <= i < bc_num_shards (be_config s) -> 0 <= j < bc_num_shards (be_config s) ->
     shard_size s i <= shard_size s j + 1) ->
  forall i j, 0 <= i < bc_num_shards (be_config s) -> 0 <= j < bc_num_shards (be_config s) ->
    shard_size (assign_all s vs) i <= shard_size (assign_all s vs) j + 1.
Proof.
  induction vs as [|v vs IH]; intros s m Hn Hm Hmax Hbal; [done|].
  cbn [assign_all foldl]. simpl length in Hm.
  destruct (least_shard_spec s Hn) as [Hr Hleast]; [intros i Hi; specialize (Hmax i Hi); lia|].
  apply (IH (assign_validator s v).2 (m + 1)); simpl be_config; [done|lia| |].
  - intros i Hi. rewrite assign_validator_size. specialize (Hmax i Hi). case_bool_decide; lia.
  - intros i j Hi Hj. rewrite !assign_validator_size.
    specialize (Hbal i j Hi Hj). specialize (Hleast j Hj).
    repeat case_bool_decide; subst; lia.
Qed.

(** ** Binding of the global root *)

Section GlobalRoot.
Context `{Crypto}.

Lemma hash_chunks_length l : Nat.Even (length l) ->
  exists l', hash_chunks l = Ok l' /\ (length l = 2 * length l')%nat.
Proof.
  assert (forall n l, length l = (2 * n)%nat -> exists l', hash_chunks l = Ok l' /\ length l' = n) as Hall.
  { intros n. induction n as [|n IH]; intros k Hk.
    { destruct k; [|simpl in Hk; lia]. by exists []. }
    destruct k as [|a [|b k]]; [simpl in Hk; lia..|].
    destruct (IH k) as (l' & Hl' & Hlen); [simpl in Hk; lia|].
    exists (hash_pair a b :: l'). cbn [hash_chunks]. rewrite Hl'. simpl. by rewrite Hlen. }
  intros [n Hn]. destruct (Hall n l Hn) as (l' & Hl & Hlen). exists l'. split; [done|lia].
Qed.

(** The byte strings that one pass hashes, and those of all passes. *)
Fixpoint chunk_inputs (l : list Hash256) : list (list Z) :=
  match l with
  | a :: b :: l' => pair_bytes a b :: chunk_inputs l'
  | _ => []
  end.

Fixpoint root_inputs (fuel size : nat) (leaves : list Hash256) : list (list Z) :=
  match fuel with
  | O => []
  | S fuel' =>
      if bool_decide (1 < size)%nat then
        chunk_inputs leaves ++
        match hash_chunks leaves with Ok next => root_inputs fuel' (size / 2) next | _ => [] end
      else []
  end.

Definition global_root_inputs (s : BeaconState) : list (list Z) :=
  let size := next_power_of_two (length (shard_leaves s)) in
  root_inputs size size (vec_resize size (shard_leaves s)).

Lemma hash_chunks_inj inputs l : blake3_apart inputs -> forall k l' k',
  chunk_inputs l ⊆ inputs -> chunk_inputs k ⊆ inputs ->
  Forall hash256 l -> Forall hash256 k -> hash_chunks l = Ok l' -> hash_chunks k = Ok k' ->
  l' = k' -> l = k.
Proof.
  intros Ha. induction l as [l IH] using (induction_ltof1 _ (@length _)). unfold ltof in IH.
  intros k l' k' Hi1 Hi2 Hl Hk Hhl Hhk ->.
  destruct l as [|a [|b l]]; cbn [hash_chunks] in Hhl; [|done|].
  - simplify_eq. destruct k as [|c [|d k]]; [done|done|].
    cbn [hash_chunks] in Hhk. inv_ok.
  - destruct k as [|c [|d k]]; cbn [hash_chunks] in Hhk; [inv_ok|done|].
    apply bind_Ok in Hhl as (rl & Hrl & [= <-]). apply bind_Ok in Hhk as (rk & Hrk & [= Hp Hr]).
    rewrite !Forall_cons in Hl, Hk. destruct Hl as (?&?&Hl), Hk as (?&?&Hk). cbn [chunk_inputs] in Hi1, Hi2.
    destruct (hash_pair_inj inputs a b c d) as [-> ->]; [done|apply Hi1; by left|apply Hi2; by left|done..|].
    do 2 f_equal. eapply (IH l); [simpl; lia| | |done|done|exact Hrl|exact Hrk|done].
    + intros x Hx. apply Hi1. by right.
    + intros x Hx. apply Hi2. by right.
Qed.

Lemma hash_chunks_hash256 `{!CryptoLaws} l : forall l', hash_chunks l = Ok l' -> Forall hash256 l'.
Proof.
  induction l as [l IH] using (induction_ltof1 _ (@length _)). unfold ltof in IH. intros l' Hl.
  destruct l as [|a [|b l]]; cbn [hash_chunks] in Hl; [by simplify_eq|done|].
  apply bind_Ok in Hl as (rl & Hrl & [= <-]). constructor; [apply blake3_hash_range|].
  eapply (IH l); [simpl; lia|done].
Qed.

Lemma pow2_half k : (2 ^ S k / 2 = 2 ^ k)%nat.
Proof. rewrite Nat.pow_succ_r', Nat.mul_comm. by apply Nat.div_mul. Qed.

Lemma pow2_gt k : (1 < 2 ^ S k)%nat.
Proof. rewrite Nat.pow_succ_r'. pose proof (Nat.pow_nonzero 2 k). lia. Qed.

Lemma global_root_loop_ok k : forall fuel leaves, (k <= fuel)%nat -> length leaves = (2 ^ k)%nat ->
  exists r, global_root_loop fuel (2 ^ k) leaves = Ok [r].
Proof.
  induction k as [|k IH]; intros fuel leaves Hfuel Hlen.
  - destruct leaves as [|r [|]]; [done| |done]. exists r. by destruct fuel.
  - destruct fuel as [|fuel]; [lia|]. cbn [global_root_loop].
    rewrite bool_decide_true by apply pow2_gt.
    destruct (hash_chunks_length leaves) as (l' & -> & Hl').
    { exists (2 ^ k)%nat. by rewrite Hlen, Nat.pow_succ_r'. }
    rewrite Hlen, Nat.pow_succ_r' in Hl'. cbn [mbind outcome_bind]. rewrite pow2_half.
    apply IH; lia.
Qed.

Lemma global_root_loop_inj `{!CryptoLaws} inputs k : blake3_apart inputs -> forall fuel l1 l2 r, (k <= fuel)%nat ->
  root_inputs fuel (2 ^ k) l1 ⊆ inputs -> root_inputs fuel (2 ^ k) l2 ⊆ inputs ->
  length l1 = (2 ^ k)%nat -> length l2 = (2 ^ k)%nat -> Forall hash256 l1 -> Forall hash256 l2 ->
  global_root_loop fuel (2 ^ k) l1 = Ok r -> global_root_loop fuel (2 ^ k) l2 = Ok r ->
  l1 = l2.
Proof.
  intros Ha. induction k as [|k IH]; intros fuel l1 l2 r Hfuel Hi1 Hi2 Hl1 Hl2 H1 H2 Hr1 Hr2.
  - destruct fuel; cbn [global_root_loop] in Hr1, Hr2; [congruence|].
    rewrite bool_decide_false in Hr1, Hr2 by (simpl; lia). congruence.
  - destruct fuel as [|fuel]; [lia|]. cbn [global_root_loop root_inputs] in *.
    rewrite bool_decide_true in Hr1, Hr2, Hi1, Hi2 by apply pow2_gt. rewrite pow2_half in Hr1, Hr2, Hi1, Hi2.
    apply bind_Ok in Hr1 as (n1 & Hn1 & Hr1). apply bind_Ok in Hr2 as (n2 & Hn2 & Hr2). rewrite Hn1 in Hi1. rewrite Hn2 in Hi2.
    apply list_subseteq_app_iff_l in Hi1 as [Hc1 Hi1], Hi2 as [Hc2 Hi2].
    assert (forall l n, length l = (2 ^ S k)%nat -> hash_chunks l = Ok n -> length n = (2 ^ k)%nat) as Hlen.
    { intros l n Hl Hn. destruct (hash_chunks_length l) as (n' & Hn' & Hlen).
      { exists (2 ^ k)%nat. by rewrite Hl, Nat.pow_succ_r'. }
      rewrite Hl, Nat.pow_succ_r' in Hlen. rewrite Hn in Hn'. simplify_eq. lia. }
    assert (n1 = n2) as Heq.
    { apply (IH fuel n1 n2 r); [lia|done|done|exact (Hlen _ _ Hl1 Hn1)|exact (Hlen _ _ Hl2 Hn2)| | |done|done];
        by eapply hash_chunks_hash256. }
    exact (hash_chunks_inj inputs l1 Ha l2 n1 n2 Hc1 Hc2 H1 H2 Hn1 Hn2 Heq).
Qed.

(** The padded leaves: as many as the power of two above their number. *)
Lemma next_power_of_two_pow n : (0 < n)%nat ->
  exists k, next_power_of_two n = (2 ^ k)%nat /\ (n <= 2 ^ k)%nat /\ (k <= 2 ^ k)%nat.
Proof.
  intros Hn. exists (Z.to_nat (Z.log2_up (Z.of_nat n))). unfold next_power_of_two.
  pose proof (Z.log2_up_nonneg (Z.of_nat n)).
  assert (Z.to_nat (2 ^ Z.log2_up (Z.of_nat n)) = (2 ^ Z.to_nat (Z.log2_up (Z.of_nat n)))%nat) as Hpow.
  { apply Nat2Z.inj. rewrite Nat2Z.inj_pow, !Z2Nat.id by (try lia; apply Z.pow_nonneg; lia). done. }
  split; [done|]. split.
  - rewrite <- Hpow. destruct (decide (n = 1%nat)) as [->|]; [done|].
    pose proof (Z.log2_up_spec (Z.of_nat n)). lia.
  - pose proof (Nat.pow_gt_lin_r 2 (Z.to_nat (Z.log2_up (Z.of_nat n)))). lia.
Qed.

Lemma vec_resize_pad n l : (length l <= n)%nat ->
  vec_resize n l = l ++ replicate (n - length l) 0 /\ length (vec_resize n l) = n.
Proof.
  intros Hn. unfold vec_resize. rewrite take_ge by done. split; [done|].
  rewrite length_app, length_replicate. lia.
Qed.

Lemma length_shard_leaves s : length (shard_leaves s) = Z.to_nat (bc_num_shards (be_config s)).
Proof. unfold shard_leaves, shard_range. by rewrite !length_fmap, length_seq. Qed.

Lemma compute_global_root_total s : 0 <= bc_num_shards (be_config s) ->
  exists r, compute_global_root s = Ok r.
Proof.
  intros Hn. unfold compute_global_root. case_bool_decide; [by eexists|].
  destruct (next_power_of_two_pow (length (shard_leaves s))) as (k & -> & Hle & Hk).
  { rewrite length_shard_leaves. lia. }
  destruct (vec_resize_pad (2 ^ k) (shard_leaves s) Hle) as [_ Hlen].
  destruct (global_root_loop_ok k (2 ^ k) _ Hk Hlen) as [r ->]. by exists r.
Qed.

End GlobalRoot.

Module DemoBeacon.

Definition config : BeaconConfig := mkBeaconConfig 3 100 1.

Definition attested (i root : Z) (s : BeaconState) : BeaconState :=
  match submit_attestation s (mkShardAttestation i 0 root 1 10 5 []) with Ok s' => s' | _ => s end.

Definition state : BeaconState := attested 1 77 (attested 0 66 (beacon_new config)).

End DemoBeacon.

(** The global root of an epoch commits to every shard: it is always computed, and
    two beacon states with the same number of shards and the same global root have the
    same state root for every shard, a shard without attestation counting as zero, if
    BLAKE3 has no collision among the node inputs of the two roots. *)
Theorem global_root_binding `{CryptoLaws} (s1 s2 : BeaconState)
  (Hn : 0 <= bc_num_shards (be_config s1))
  (Hsame : bc_num_shards (be_config s2) = bc_num_shards (be_config s1))
  (Hapart : blake3_apart (global_root_inputs s1 ++ global_root_inputs s2))
  (H1 : Forall hash256 (shard_leaves s1)) (H2 : Forall hash256 (shard_leaves s2)) :
  exists r1 r2, compute_global_root s1 = Ok r1 /\ compute_global_root s2 = Ok r2 /\
    (r1 = r2 -> forall i, 0 <= i < bc_num_shards (be_config s1) -> shard_leaf s1 i = shard_leaf s2 i).
Proof.
  destruct (compute_global_root_total s1 Hn) as [r1 Hr1].
  destruct (compute_global_root_total s2) as [r2 Hr2]; [by rewrite Hsame|].
  exists r1, r2. split; [done|]. split; [done|]. intros <-.
  destruct (decide (bc_num_shards (be_config s1) = 0)) as [Hz|Hnz]; [lia|].
  unfold compute_global_root in Hr1, Hr2.
  rewrite bool_decide_false in Hr1 by done. rewrite bool_decide_false in Hr2 by congruence.
  pose proof (length_shard_leaves s1) as Hl1. pose proof (length_shard_leaves s2) as Hl2.
  rewrite Hsame in Hl2.
  destruct (next_power_of_two_pow (length (shard_leaves s1))) as (k & Hk & Hle & Hfuel); [lia|].
  rewrite Hk in Hr1. assert (next_power_of_two (length (shard_leaves s2)) = (2 ^ k)%nat) as Hk2
    by (by rewrite Hl2, <- Hl1). rewrite Hk2 in Hr2.
  destruct (vec_resize_pad (2 ^ k) (shard_leaves s1)) as [Hp1 Hlen1]; [done|].
  destruct (vec_resize_pad (2 ^ k) (shard_leaves s2)) as [Hp2 Hlen2]; [lia|].
  destruct (global_root_loop_ok k (2 ^ k) _ Hfuel Hlen1) as [f1 Hf1].
  destruct (global_root_loop_ok k (2 ^ k) _ Hfuel Hlen2) as [f2 Hf2].
  rewrite Hf1 in Hr1. rewrite Hf2 in Hr2. simpl in Hr1, Hr2. simplify_eq.
  assert (forall n l, Forall hash256 l -> Forall hash256 (l ++ replicate n 0)) as Hpad.
  { intros n l Hl. apply Forall_app. split; [done|]. by apply Forall_replicate. }
  assert (vec_resize (2 ^ k) (shard_leaves s1) = vec_resize (2 ^ k) (shard_leaves s2)) as Heq.
  { apply (global_root_loop_inj _ k Hapart (2 ^ k) _ _ [r1] Hfuel); [| |done|done|rewrite Hp1; by apply Hpad|rewrite Hp2; by apply Hpad|done|done].
    - apply list_subseteq_app_l. unfold global_root_inputs. by rewrite Hk.
    - apply list_subseteq_app_r. unfold global_root_inputs. by rewrite Hk2. }
  rewrite Hp1, Hp2 in Heq. apply app_inj_1 in Heq as [Heq _]; [|lia].
  intros i Hi. unfold shard_leaves in Heq. rewrite Hsame in Heq.
  assert (shard_range (bc_num_shards (be_config s1)) !! Z.to_nat i = Some i) as Hlook.
  { unfold shard_range. rewrite list_lookup_fmap, lookup_seq_lt by lia. simpl. f_equal. lia. }
  apply (f_equal (fun l => l !! Z.to_nat i)) in Heq. rewrite !list_lookup_fmap, Hlook in Heq.
  by simplify_eq.
Qed.

Lemma global_root_binding_witness :
  exists r, compute_global_root (H := Demo.demo_crypto) DemoBeacon.state = Ok r.
Proof.
  destruct (@global_root_binding Demo.demo_crypto Demo.demo_laws DemoBeacon.state DemoBeacon.state)
    as (r1 & _ & Hr1 & _); [done|done| |eval_range|eval_range|by exists r1].
  apply (@blake3_apartb_ok Demo.demo_crypto). vm_compute. reflexivity.
Defined.

(** ** The subnet registry *)

Inductive subnet_op :=
| OpRegister (config : SubnetConfig)
| OpDeregister (id : Hash256) (caller : Address)
| OpAnchor (anchor : StateAnchor)
| OpJoin (id : Hash256) (v : SubnetValidator)
| OpLeave (id : Hash256) (a : Address).

(** A refused call leaves the registry as it was. *)
Definition subnet_apply (r : SubnetRegistry) (op : subnet_op) : SubnetRegistry :=
  let keep o := match o with Ok r' => r' | _ => r end in
  match op with
  | OpRegister config => match register_subnet r config with Ok (_, r') => r' | _ => r end
  | OpDeregister id caller => keep (deregister_subnet r id caller)
  | OpAnchor anchor => keep (submit_anchor r anchor)
  | OpJoin id v => keep (join_subnet r id v)
  | OpLeave id a => keep (leave_subnet r id a)
  end.

Record subnet_ok (r : SubnetRegistry) : Prop := {
  sn_anchors : forall id, increasing_heights (default [] (sr_anchors r !! id)) = true /\
    sr_latest_anchor r !! id = last (default [] (sr_anchors r !! id));
  sn_members : forall id, NoDup (sv_address <$> default [] (sr_validators r !! id));
  sn_registered : forall id, sr_subnets r !! id = None -> sr_anchors r !! id = None;
  sn_ids : forall id c, sr_subnets r !! id = Some c -> sc_subnet_id c = id;
}.

Lemma increasing_heights_snoc l a :
  increasing_heights (l ++ [a]) = true <->
  increasing_heights l = true /\ (forall b, last l = Some b -> an_subnet_height b < an_subnet_height a).
Proof.
  induction l as [|x l IH]; simpl.
  { split; [|done]. intros _. split; [done|]. intros b Hb. discriminate Hb. }
  destruct l as [|y l]; simpl in *.
  - rewrite andb_true_r, bool_decide_eq_true. naive_solver.
  - rewrite !andb_true_iff, IH. naive_solver.
Qed.

Ltac lookup_case id id' :=
  destruct (decide (id = id')) as [<-|]; [rewrite ?lookup_insert_eq|rewrite ?lookup_insert_ne by done].

Lemma register_subnet_ok r config id r' :
  register_subnet r config = Ok (id, r') -> subnet_ok r -> subnet_ok r'.
Proof.
  unfold register_subnet. intros Hreg [Ha Hm Hr Hi]. inv_ok. dec_hyps.
  constructor; simpl; intros id'.
  - destruct (decide (sc_subnet_id config = id')) as [<-|]; [|rewrite lookup_insert_ne by done; apply Ha].
    rewrite lookup_insert_eq. simpl. split; [done|].
    destruct (Ha (sc_subnet_id config)) as [_ ->]. by rewrite Hr.
  - lookup_case (sc_subnet_id config) id'; [constructor|apply Hm].
  - lookup_case (sc_subnet_id config) id'; [done|apply Hr].
  - intros c. lookup_case (sc_subnet_id config) id'; [by intros [= <-]|apply Hi].
Qed.

Lemma status_change_ok r id c st : sr_subnets r !! id = Some c -> subnet_ok r ->
  subnet_ok (r <| sr_subnets := <[id := c <| sc_status := st |>]> (sr_subnets r) |>).
Proof.
  intros Hc [Ha Hm Hr Hi]. constructor; simpl; [done|done|..]; intros id'.
  - lookup_case id id'; [done|apply Hr].
  - intros c'. lookup_case id id'; [|apply Hi]. intros [= <-]. exact (Hi id c Hc).
Qed.

Lemma submit_anchor_ok r a r' : submit_anchor r a = Ok r' -> subnet_ok r -> subnet_ok r'.
Proof.
  unfold submit_anchor. intros Hsub [Ha Hm Hr Hi].
  apply bind_Ok in Hsub as (c & Hc%ok_or_Ok & Hsub). apply bind_Ok in Hsub as (? & Hst & Hsub).
  apply bind_Ok in Hsub as (u & Hh & [= <-]).
  constructor; simpl; [|done|..|done]; intros id'.
  - destruct (decide (an_subnet_id a = id')) as [<-|];
      [rewrite !lookup_insert_eq|rewrite !lookup_insert_ne by done; apply Ha].
    simpl. rewrite last_snoc. split; [|done]. destruct (Ha (an_subnet_id a)) as [Hinc Hlast].
    apply increasing_heights_snoc. split; [done|]. intros b Hb. rewrite Hlast, Hb in Hh.
    apply require_Ok in Hh. dec_hyps. lia.
  - lookup_case (an_subnet_id a) id'; [congruence|apply Hr].
Qed.

Lemma join_subnet_ok r id v r' : join_subnet r id v = Ok r' -> subnet_ok r -> subnet_ok r'.
Proof.
  unfold join_subnet. intros Hjoin Hok. pose proof Hok as [Ha Hm Hr Hi].
  apply bind_Ok in Hjoin as (c & Hc%ok_or_Ok & Hjoin). apply bind_Ok in Hjoin as (? & Hst & Hjoin).
  apply bind_Ok in Hjoin as (? & Hdup%require_Ok & Hjoin).
  set (vals := default [] (sr_validators r !! id)) in *.
  set (r1 := r <| sr_validators := <[id := vals ++ [v]]> (sr_validators r) |>) in *.
  assert (subnet_ok r1) as Hok1.
  { constructor; simpl; [done| |done|done]. intros id'. lookup_case id id'; [|apply Hm].
    simpl. rewrite fmap_app. apply NoDup_app. split; [apply Hm|]. split; [|apply NoDup_singleton].
    intros y (w & -> & Hw)%list_elem_of_fmap Hx. apply list_elem_of_singleton in Hx.
    apply negb_true_iff in Hdup. rewrite <- not_true_iff_false, existsb_exists in Hdup. apply Hdup.
    exists w. split; [by apply list_elem_of_In|]. by apply bool_decide_eq_true. }
  injection Hjoin as <-. case_match; [|done]. by apply (status_change_ok r1).
Qed.

Lemma subnet_apply_ok r op : subnet_ok r -> subnet_ok (subnet_apply r op).
Proof.
  intros Hok. destruct op as [config|id caller|anchor|id v|id a]; simpl.
  - destruct (register_subnet r config) as [[id r']| |] eqn:Hop; [|done..]. by eapply register_subnet_ok.
  - destruct (deregister_subnet r id caller) as [r'| |] eqn:Hop; [|done..].
    unfold deregister_subnet in Hop. inv_ok. by apply status_change_ok.
  - destruct (submit_anchor r anchor) as [r'| |] eqn:Hop; [|done..]. by eapply submit_anchor_ok.
  - destruct (join_subnet r id v) as [r'| |] eqn:Hop; [|done..]. by eapply join_subnet_ok.
  - destruct (leave_subnet r id a) as [r'| |] eqn:Hop; [|done..].
    unfold leave_subnet in Hop. inv_ok. destruct Hok as [Ha Hm Hr Hi].
    constructor; simpl; [done| |done|done]. intros id'. lookup_case id id'; [|apply Hm].
    simpl. eapply sublist_NoDup; [apply (Hm id)|].
    replace (sr_validators r !! id) with (Some x0) by done. simpl.
    apply fmap_sublist, sublist_delete.
Qed.

Definition deregistered (r : SubnetRegistry) (id : Hash256) : Prop :=
  sc_status <$> sr_subnets r !! id = Some SnDeregistered.

Lemma subnet_apply_deregistered r op id : deregistered r id -> deregistered (subnet_apply r op) id.
Proof.
  unfold deregistered. intros Hd. destruct (sr_subnets r !! id) as [c|] eqn:Hc; [|done].
  simpl in Hd. injection Hd as Hd.
  destruct op as [config|id' caller|anchor|id' v|id' a]; simpl.
  - unfold register_subnet. case_bool_decide as Hnew; simpl; [|by rewrite Hc, <- Hd].
    rewrite lookup_insert_ne by congruence. by rewrite Hc, <- Hd.
  - unfold deregister_subnet. destruct (sr_subnets r !! id') as [c'|] eqn:Hc'; simpl; [|by rewrite Hc, <- Hd].
    case_bool_decide; simpl; [|by rewrite Hc, <- Hd].
    lookup_case id' id; [done|by rewrite Hc, <- Hd].
  - destruct (submit_anchor r anchor) as [r'| |] eqn:Hop; [|by rewrite Hc, <- Hd..].
    unfold submit_anchor in Hop. inv_ok. by rewrite Hc, <- Hd.
  - destruct (join_subnet r id' v) as [r'| |] eqn:Hop; [|by rewrite Hc, <- Hd..].
    unfold join_subnet in Hop. inv_ok. case_match eqn:Hst; simpl; [|by rewrite Hc, <- Hd].
    apply andb_true_iff in Hst as [Hst%bool_decide_eq_true _].
    rewrite lookup_insert_ne by congruence. by rewrite Hc, <- Hd.
  - destruct (leave_subnet r id' a) as [r'| |] eqn:Hop; [|by rewrite Hc, <- Hd..].
    unfold leave_subnet in Hop. inv_ok. by rewrite Hc, <- Hd.
Qed.

Lemma subnet_run_ok ops r : subnet_ok r -> subnet_ok (foldl subnet_apply r ops).
Proof. revert r. induction ops as [|op ops IH]; intros r Hr; [done|]. by apply IH, subnet_apply_ok. Qed.

Lemma subnet_run_deregistered ops r id :
  deregistered r id -> deregistered (foldl subnet_apply r ops) id.
Proof.
  revert r. induction ops as [|op ops IH]; intros r Hr; [done|]. by apply IH, subnet_apply_deregistered.
Qed.

Lemma subnet_new_ok : subnet_ok subnet_registry_new.
Proof. constructor; simpl; intros id; [done|constructor|done|]. by intros c Hc%lookup_empty_Some. Qed.

(** In every registry reached by any sequence of calls, accepted or refused, each
    subnet's anchors have strictly increasing heights, so that the registry's own
    [verify_anchor_sequence] holds, the latest anchor is the last one recorded, no
    validator is listed twice, and a deregistered subnet stays deregistered whatever is
    called later. *)
Theorem subnet_registry_sound (ops later : list subnet_op) (id : Hash256) :
  let r := foldl subnet_apply subnet_registry_new ops in
  verify_anchor_sequence r id = true /\
  get_latest_anchor r id = last (default [] (sr_anchors r !! id)) /\
  NoDup (sv_address <$> subnet_validators r id) /\
  (deregistered r id -> deregistered (foldl subnet_apply r later) id).
Proof.
  intros r. destruct (subnet_run_ok ops _ subnet_new_ok) as [Ha Hm _ _]. fold r in Ha, Hm.
  destruct (Ha id) as [Hinc Hlast]. split.
  { unfold verify_anchor_sequence. by destruct (sr_anchors r !! id). }
  split; [done|]. split; [apply Hm|apply subnet_run_deregistered].
Qed.

(** Assigning validators one after the other keeps the shards balanced: whatever the
    validators are, no shard of the beacon state ever has more than one validator more
    than another, as long as the number of validators fits the counter. *)
Theorem beacon_assignment_balanced (config : BeaconConfig) (vs : list Address) (i j : Z)
  (Hvs : Z.of_nat (length vs) < u64_max) (Hi : 0 <= i < bc_num_shards config)
  (Hj : 0 <= j < bc_num_shards config) :
  let s := assign_all (beacon_new config) vs in
  shard_size s i <= shard_size s j + 1.
Proof.
  assert (forall k, shard_size (beacon_new config) k = 0) as Hempty.
  { intros k. unfold shard_size, beacon_new. cbn [be_shard_validators].
    destruct (list_to_map _ !! k) as [l|] eqn:Hl; [|done].
    apply elem_of_list_to_map_2 in Hl. apply list_elem_of_fmap in Hl as (x & [= -> ->] & _). done. }
  apply (assign_all_balanced vs (beacon_new config) 0); simpl be_config; [lia|lia| |..|done|done].
  - intros k _. by rewrite Hempty.
  - intros k l _ _. by rewrite !Hempty.
Qed.

Lemma beacon_assignment_balanced_witness :
  shard_size (assign_all (beacon_new DemoBeacon.config) [11; 12; 13; 14]) 0 <=
  shard_size (assign_all (beacon_new DemoBeacon.config) [11; 12; 13; 14]) 2 + 1.
Proof. apply (beacon_assignment_balanced DemoBeacon.config [11; 12; 13; 14] 0 2); vm_compute; by try split. Defined.
