(* ===== verification/Merkle.v ===== *)
(** * Merkle trees (crates/arc-crypto/src/merkle.rs)

    The one-shot tree with its inclusion proofs, and the incremental tree that
    caches its levels.  The [while] loop of both constructions is a recursion on
    fuel; the length of the level is enough, since every iteration at least halves
    a level longer than one ([build_levels_complete]).  An out-of-range [Vec] access,
    which aborts in the source, is [Panic] where the source indexes unchecked. *)

From Stdlib Require Import ZifyNat.
From S2P Require Import Prelude Crypto.

Record MerkleProof := mkMerkleProof {
  mp_leaf : Hash256;
  mp_index : nat;
  mp_siblings : list (Hash256 * bool);
  mp_root : Hash256;
}.

(** The key of [sort_unstable_by_key]. *)
Definition entry_le (x y : Hash256 * Hash256) : Prop := x.1 <= y.1.

#[global] Instance entry_le_dec : RelDecision entry_le.
Proof. intros x y. unfold entry_le. apply _. Defined.

(** [windows(2).all(|w| w[0] != w[1])]. *)
Fixpoint windows_distinct (l : list Hash256) : bool :=
  match l with
  | x :: (y :: _) as l' => negb (bool_decide (x = y)) && windows_distinct l'
  | _ => true
  end.

Record IncrementalMerkle := mkIncrementalMerkle {
  im_keys : list Hash256;
  im_leaves : list Hash256;
  im_levels : list (list Hash256);
  im_real_lengths : list nat;
  im_key_index : gmap Hash256 nat;
}.

#[global] Instance eta_IncrementalMerkle : Eta IncrementalMerkle := fun t =>
  mkIncrementalMerkle (im_keys t) (im_leaves t) (im_levels t) (im_real_lengths t)
    (im_key_index t).

Section Merkle.
Context `{Crypto}.

(** [if len % 2 != 0 { push(last) }]. *)
Definition pad_even (l : list Hash256) : list Hash256 :=
  if Nat.even (length l) then l
  else match last l with Some x => l ++ [x] | None => l end.

(** [chunks(2)] with [hash_pair]. *)
Fixpoint hash_pairs (l : list Hash256) : list Hash256 :=
  match l with
  | a :: b :: l' => hash_pair a b :: hash_pairs l'
  | [a] => [hash_pair a a]
  | [] => []
  end.

(** The level above: hashed pairs, padded unless it is the root. *)
Definition next_level (l : list Hash256) : list Hash256 :=
  let next := hash_pairs l in
  if (1 <? length next)%nat then pad_even next else next.

(** [while current.len() > 1], pushing each level. *)
Fixpoint build_levels (fuel : nat) (current : list Hash256) : list (list Hash256) :=
  match fuel with
  | O => []
  | S fuel' =>
      if (1 <? length current)%nat
      then let next := next_level current in next :: build_levels fuel' next
      else []
  end.

Definition from_leaves (leaves : list Hash256) : list (list Hash256) :=
  match leaves with
  | [] => [[0]]
  | _ => let current := pad_even leaves in current :: build_levels (length current) current
  end.

(** [levels.last().and_then(first).unwrap_or(ZERO)]. *)
Definition merkle_root (levels : list (list Hash256)) : Hash256 :=
  default 0 (l ← last levels; head l).

Definition leaf_count (levels : list (list Hash256)) : nat :=
  match head levels with Some l => length l | None => 0%nat end.

Definition sibling_index (idx : nat) : nat := if Nat.even idx then (idx + 1)%nat else (idx - 1)%nat.

(** The loop over [levels[..len - 1]]. *)
Fixpoint proof_siblings (levels : list (list Hash256)) (idx : nat)
    : outcome unit (list (Hash256 * bool)) :=
  match levels with
  | [] | [_] => Ok []
  | level :: levels' =>
      sibling ← (if (sibling_index idx <? length level)%nat
                 then expect (level !! sibling_index idx)
                 else expect (level !! idx));
      rest ← proof_siblings levels' (idx / 2)%nat;
      Ok ((sibling, negb (Nat.even idx)) :: rest)
  end.

(** [MerkleTree::proof]. *)
Definition merkle_proof (levels : list (list Hash256)) (index : nat)
    : outcome unit (option MerkleProof) :=
  level0 ← expect (head levels);
  if (length level0 <=? index)%nat then Ok None
  else
    leaf ← expect (level0 !! index);
    siblings ← proof_siblings levels index;
    Ok (Some (mkMerkleProof leaf index siblings (merkle_root levels))).

Definition fold_sibling (current : Hash256) (s : Hash256 * bool) : Hash256 :=
  if s.2 then hash_pair s.1 current else hash_pair current s.1.

Definition verify_proof (p : MerkleProof) : bool :=
  bool_decide (foldl fold_sibling (mp_leaf p) (mp_siblings p) = mp_root p).

(** ** The incremental tree *)

Definition im_new : IncrementalMerkle := mkIncrementalMerkle [] [] [[0]] [1%nat] ∅.

(** [for (i, k) in keys.enumerate() { key_index.insert(k, i) }] from an empty map. *)
Definition index_keys (keys : list Hash256) : gmap Hash256 nat :=
  foldl (fun m ik => <[ik.2 := ik.1]> m) ∅ (zip (seq 0 (length keys)) keys).

(** [binary_search(..).unwrap_or_else(|i| i)]: the number of smaller keys, which is
    what the search returns on sorted keys. *)
Definition insert_position (keys : list Hash256) (key : Hash256) : nat :=
  length (filter (fun k => k < key) keys).

(** [Vec::insert] and [Vec::remove] at an index in range. *)
Definition vec_insert {A} (i : nat) (x : A) (l : list A) : list A := take i l ++ x :: drop i l.
Definition vec_remove {A} (i : nat) (l : list A) : list A := take i l ++ drop (S i) l.

Definition im_update (t : IncrementalMerkle) (key h : Hash256)
    : (nat * bool) * IncrementalMerkle :=
  match im_key_index t !! key with
  | Some idx => ((idx, false), t <| im_leaves := <[idx := h]> (im_leaves t) |>)
  | None =>
      let idx := insert_position (im_keys t) key in
      let keys := vec_insert idx key (im_keys t) in
      ((idx, true),
       t <| im_keys := keys |> <| im_leaves := vec_insert idx h (im_leaves t) |>
         <| im_key_index := index_keys keys |>)
  end.

Definition im_remove (t : IncrementalMerkle) (key : Hash256) : bool * IncrementalMerkle :=
  match im_key_index t !! key with
  | Some idx =>
      let keys := vec_remove idx (im_keys t) in
      (true, t <| im_keys := keys |> <| im_leaves := vec_remove idx (im_leaves t) |>
               <| im_key_index := index_keys keys |>)
  | None => (false, t)
  end.

(** The loop of [rebuild], which also records the length before padding. *)
Fixpoint rebuild_levels (fuel : nat) (current : list Hash256) : list (nat * list Hash256) :=
  match fuel with
  | O => []
  | S fuel' =>
      if (1 <? length current)%nat
      then let next := hash_pairs current in
           let padded := if (1 <? length next)%nat then pad_even next else next in
           (length next, padded) :: rebuild_levels fuel' padded
      else []
  end.

Definition im_rebuild (t : IncrementalMerkle) : IncrementalMerkle :=
  match im_leaves t with
  | [] => t <| im_levels := [[0]] |> <| im_real_lengths := [1%nat] |>
  | leaves =>
      let current := pad_even leaves in
      let rest := rebuild_levels (length current) current in
      t <| im_levels := current :: (snd <$> rest) |>
        <| im_real_lengths := length leaves :: (fst <$> rest) |>
  end.

(** [from_keyed_leaves]: sort by key, abort on a duplicate, build. *)
Definition im_from_keyed_leaves (entries : list (Hash256 * Hash256))
    : outcome unit IncrementalMerkle :=
  let sorted := merge_sort entry_le entries in
  if windows_distinct (fst <$> sorted)
  then Ok (im_rebuild (mkIncrementalMerkle (fst <$> sorted) (snd <$> sorted) [] []
                         (index_keys (fst <$> sorted))))
  else Panic.

(** The update of level 0 for one dirty index. *)
Definition refresh_leaf (n_real : nat) (leaves : list Hash256) (level : list Hash256) (idx : nat)
    : outcome unit (list Hash256) :=
  if (idx <? n_real)%nat then
    leaf ← expect (leaves !! idx);
    _ ← expect (level !! idx);
    let level := <[idx := leaf]> level in
    Ok (if ((idx =? n_real - 1) && (n_real <? length level))%nat
        then <[n_real := leaf]> level else level)
  else Ok level.

Definition with_twin (n_real : nat) (level : list Hash256) (dirty : gset nat) : gset nat :=
  if (0 <? n_real)%nat && (n_real <? length level)%nat &&
     bool_decide ((n_real - 1)%nat ∈ dirty)
  then {[n_real]} ∪ dirty else dirty.

(** Recompute one parent, and its padding twin if it is the last real node. *)
Definition refresh_parent (lower : list Hash256) (next_real : nat) (upper : list Hash256)
    (parent_idx : nat) : outcome unit (list Hash256) :=
  let left := (parent_idx * 2)%nat in
  left_hash ← expect (lower !! left);
  let right_hash := default left_hash (lower !! S left) in
  let h := hash_pair left_hash right_hash in
  _ ← expect (upper !! parent_idx);
  let upper := <[parent_idx := h]> upper in
  Ok (if ((parent_idx =? next_real - 1) && (next_real <? length upper))%nat
      then <[next_real := h]> upper else upper).

Fixpoint propagate (lower : list Hash256) (uppers : list (list Hash256)) (reals : list nat)
    (dirty : gset nat) : outcome unit (list (list Hash256)) :=
  match uppers, reals with
  | [], _ => Ok []
  | upper :: uppers', next_real :: reals' =>
      let dirty_parents : gset nat := set_map (fun idx => (idx / 2)%nat) dirty in
      upper' ← mfoldl (refresh_parent lower next_real) upper (elements dirty_parents);
      rest ← propagate upper' uppers' reals' (with_twin next_real upper' dirty_parents);
      Ok (upper' :: rest)
  | _ :: _, [] => Panic
  end.

Definition im_recompute_paths (t : IncrementalMerkle) (dirty_indices : list nat)
    : outcome unit IncrementalMerkle :=
  match im_levels t, im_real_lengths t with
  | level0 :: uppers, n_real :: reals =>
      if bool_decide (dirty_indices = []) || bool_decide (im_leaves t = []) then Ok t
      else
        level0' ← mfoldl (refresh_leaf n_real (im_leaves t)) level0 dirty_indices;
        uppers' ← propagate level0' uppers reals
                    (with_twin n_real level0' (list_to_set dirty_indices));
        Ok (t <| im_levels := level0' :: uppers' |>)
  | [], _ => Ok t
  | _ :: _, [] => Panic
  end.

Definition im_root (t : IncrementalMerkle) : Hash256 := merkle_root (im_levels t).

Definition im_proof (t : IncrementalMerkle) (index : nat) : outcome unit (option MerkleProof) :=
  match im_levels t, im_real_lengths t with
  | level0 :: _, n_real :: _ =>
      if (n_real <=? index)%nat then Ok None
      else
        leaf ← expect (level0 !! index);
        siblings ← proof_siblings (im_levels t) index;
        Ok (Some (mkMerkleProof leaf index siblings (im_root t)))
  | _, _ => Ok None
  end.

(** ** Shape of the levels *)

Lemma length_hash_pairs l : length (hash_pairs l) = Nat.div2 (S (length l)).
Proof.
  enough (length (hash_pairs l) = Nat.div2 (S (length l)) /\
          forall x, length (hash_pairs (x :: l)) = Nat.div2 (S (S (length l)))) as [? _] by done.
  induction l as [|y l [IH1 IH2]]; [done|].
  split; [by rewrite IH2|]. intros x. cbn [hash_pairs length]. rewrite IH1. done.
Qed.

Lemma even_mod2 n : Nat.even n = (n mod 2 =? 0)%nat.
Proof.
  destruct (Nat.even n) eqn:He; symmetry; [apply Nat.eqb_eq|apply Nat.eqb_neq].
  - apply Nat.even_spec in He as [k ->]. lia.
  - assert (Nat.odd n = true) as [k ->]%Nat.odd_spec by (by rewrite <- Nat.negb_even, He). lia.
Qed.

Lemma length_pad_even l : length (pad_even l) = (length l + length l mod 2)%nat.
Proof.
  unfold pad_even. rewrite even_mod2. destruct (_ =? 0)%nat eqn:He.
  - apply Nat.eqb_eq in He. lia.
  - apply Nat.eqb_neq in He. destruct (last l) as [x|] eqn:Hl.
    + rewrite length_app. cbn [length]. lia.
    + by apply last_None in Hl as ->.
Qed.

Lemma pad_even_even l : Nat.even (length (pad_even l)) = true.
Proof. rewrite even_mod2, length_pad_even, Nat.eqb_eq. lia. Qed.

Lemma pad_even_lookup l i : (i < length l)%nat -> pad_even l !! i = l !! i.
Proof.
  intros Hi. unfold pad_even. repeat case_match; try done. by rewrite lookup_app_l.
Qed.

Lemma hash_pairs_lookup l i a b :
  l !! (2 * i)%nat = Some a -> l !! (2 * i + 1)%nat = Some b ->
  hash_pairs l !! i = Some (hash_pair a b).
Proof.
  revert i. enough (forall n, (length l <= n)%nat -> forall i,
    l !! (2 * i)%nat = Some a -> l !! (2 * i + 1)%nat = Some b ->
    hash_pairs l !! i = Some (hash_pair a b)) as Hgen by (intros i; by apply (Hgen (length l))).
  intros n. revert l. induction n as [|n IH]; intros l Hn i Ha Hb.
  { destruct l; [done|simpl in *; lia]. }
  destruct l as [|x [|y l]]; [done| |].
  { apply lookup_lt_Some in Hb. simpl in Hb. lia. }
  destruct i as [|i]; [simpl in *; congruence|].
  replace (2 * S i)%nat with (S (S (2 * i))) in Ha by lia.
  replace (2 * S i + 1)%nat with (S (S (2 * i + 1))) in Hb by lia.
  cbn [hash_pairs lookup list_lookup]. apply IH; [simpl in Hn; lia|done|done].
Qed.

(** A level longer than one, of even length, has both children of every node. *)
Lemma even_children (l : list Hash256) i :
  Nat.even (length l) = true -> (i < length l)%nat ->
  exists a b, l !! (2 * (i / 2))%nat = Some a /\ l !! (2 * (i / 2) + 1)%nat = Some b.
Proof.
  rewrite even_mod2, Nat.eqb_eq. intros Hk Hi.
  destruct (l !! (2 * (i / 2))%nat) as [a|] eqn:Ha; [|apply lookup_ge_None in Ha; lia].
  destruct (l !! (2 * (i / 2) + 1)%nat) as [b|] eqn:Hb; [|apply lookup_ge_None in Hb; lia].
  eauto.
Qed.

Lemma next_level_lookup l i a b :
  l !! (2 * i)%nat = Some a -> l !! (2 * i + 1)%nat = Some b ->
  next_level l !! i = Some (hash_pair a b).
Proof.
  intros Ha Hb. pose proof (hash_pairs_lookup l i a b Ha Hb) as Hi. unfold next_level.
  case_match; [|done]. rewrite pad_even_lookup; [done|]. by eapply lookup_lt_Some.
Qed.

Lemma length_next_level l :
  (1 < length l)%nat ->
  (0 < length (next_level l) < length l)%nat /\
  (length (next_level l) = 1%nat \/ Nat.even (length (next_level l)) = true).
Proof.
  intros Hl. pose proof (length_hash_pairs l) as Hp. rewrite Nat.div2_div in Hp.
  unfold next_level. rewrite even_mod2, Nat.eqb_eq. case_match eqn:H1.
  - apply Nat.ltb_lt in H1. rewrite length_pad_even. lia.
  - apply Nat.ltb_ge in H1. lia.
Qed.

(** Complete trees: every level but the last is even and longer than one, the one
    above it is its [next_level], and the last is the root alone. *)
Inductive complete : list (list Hash256) -> Prop :=
| complete_root r : complete [[r]]
| complete_level l rest :
    (1 < length l)%nat -> Nat.even (length l) = true ->
    complete (next_level l :: rest) -> complete (l :: next_level l :: rest).

Lemma build_levels_complete fuel l :
  (length l <= fuel)%nat -> length l = 1%nat \/ (0 < length l)%nat /\ Nat.even (length l) = true ->
  complete (l :: build_levels fuel l).
Proof.
  revert l. induction fuel as [|fuel IH]; intros l Hf Hl; [lia|]. cbn [build_levels].
  destruct (1 <? length l)%nat eqn:H1.
  - apply Nat.ltb_lt in H1. destruct (length_next_level l H1) as [Hlen Hshape].
    constructor; [done|destruct Hl as [?|[_ ?]]; [lia|done]|].
    apply IH; [lia|]. destruct Hshape; [by left|right; split; [lia|done]].
  - apply Nat.ltb_ge in H1. destruct l as [|x [|y l]]; simpl in *; [|constructor|lia].
    destruct Hl as [?|[? _]]; lia.
Qed.

Lemma from_leaves_complete leaves : complete (from_leaves leaves).
Proof.
  unfold from_leaves. destruct leaves as [|x leaves]; [constructor|].
  apply build_levels_complete; [done|]. right. split; [|apply pad_even_even].
  rewrite length_pad_even. simpl. lia.
Qed.

(** The directions of a proof only depend on the index and the number of levels. *)
Fixpoint directions (n idx : nat) : list bool :=
  match n with
  | O => []
  | S n' => negb (Nat.even idx) :: directions n' (idx / 2)%nat
  end.

Lemma even_half i : Nat.even i = true -> i = (2 * (i / 2))%nat.
Proof. rewrite even_mod2, Nat.eqb_eq. lia. Qed.

Lemma odd_half i : Nat.even i = false -> i = (2 * (i / 2) + 1)%nat.
Proof. rewrite even_mod2, Nat.eqb_neq. lia. Qed.

Lemma proof_siblings_spec levels idx level leaf :
  complete levels -> head levels = Some level -> level !! idx = Some leaf ->
  exists sib, proof_siblings levels idx = Ok sib /\
    sib.*2 = directions (length levels - 1) idx /\
    foldl fold_sibling leaf sib = merkle_root levels.
Proof.
  intros Hc. revert idx level leaf.
  induction Hc as [r|l rest H1 He Hc IH]; intros idx level leaf Hhead Hleaf.
  { simplify_eq/=. destruct idx; [|done]. simplify_eq/=. by exists []. }
  injection Hhead as <-. pose proof (lookup_lt_Some _ _ _ Hleaf) as Hlt.
  destruct (even_children l idx He Hlt) as (a & b & Ha & Hb).
  pose proof (next_level_lookup l _ a b Ha Hb) as Hup.
  destruct (IH (idx / 2)%nat (next_level l) (hash_pair a b) eq_refl Hup) as (sib & Hs & Hd & Hf).
  change (proof_siblings (l :: next_level l :: rest) idx) with
    (sibling ← (if (sibling_index idx <? length l)%nat
                then expect (l !! sibling_index idx) else expect (l !! idx));
     rest ← proof_siblings (next_level l :: rest) (idx / 2)%nat;
     Ok ((sibling, negb (Nat.even idx)) :: rest)).
  unfold sibling_index. rewrite Hs. destruct (Nat.even idx) eqn:Hi.
  - apply even_half in Hi as Hidx. rewrite <- Hidx in Ha, Hb. simplify_eq.
    rewrite (proj2 (Nat.ltb_lt _ _)) by (by eapply lookup_lt_Some). rewrite Hb. simpl.
    eexists. split; [done|]. rewrite fmap_cons, Hd. simpl. rewrite Hi, Nat.sub_0_r. done.
  - apply odd_half in Hi as Hidx. rewrite <- Hidx in Hb. simplify_eq.
    replace (idx - 1)%nat with (2 * (idx / 2))%nat by lia.
    rewrite (proj2 (Nat.ltb_lt _ _)) by (by eapply lookup_lt_Some). rewrite Ha. simpl.
    eexists. split; [done|]. rewrite fmap_cons, Hd. simpl. rewrite Hi, Nat.sub_0_r. done.
Qed.

Lemma from_leaves_head leaves i x :
  leaves !! i = Some x ->
  exists level0, head (from_leaves leaves) = Some level0 /\ level0 !! i = Some x /\
    (i < length level0)%nat.
Proof.
  intros Hx. unfold from_leaves. destruct leaves as [|y leaves]; [done|].
  eexists. split; [done|]. pose proof (lookup_lt_Some _ _ _ Hx) as Hi.
  rewrite pad_even_lookup by done. split; [done|]. rewrite length_pad_even. lia.
Qed.

Lemma merkle_proof_spec leaves i x :
  leaves !! i = Some x ->
  exists sib, merkle_proof (from_leaves leaves) i =
      Ok (Some (mkMerkleProof x i sib (merkle_root (from_leaves leaves)))) /\
    sib.*2 = directions (length (from_leaves leaves) - 1) i /\
    foldl fold_sibling x sib = merkle_root (from_leaves leaves).
Proof.
  intros (level0 & Hh & Hi & Hlt)%from_leaves_head.
  destruct (proof_siblings_spec _ i _ _ (from_leaves_complete leaves) Hh Hi) as (sib & Hs & Hd & Hf).
  exists sib. split; [|done]. unfold merkle_proof. rewrite Hh. simpl.
  rewrite (proj2 (Nat.leb_gt _ _)) by done. by rewrite Hi, Hs.
Qed.

(** ** What a verified proof proves *)

Context `{!CryptoLaws}.

Lemma hash_pair_range a b : hash256 (hash_pair a b).
Proof. apply blake3_hash_range. Qed.

Lemma fold_sibling_range x s :
  hash256 x -> hash256 (foldl fold_sibling x s).
Proof.
  revert x. induction s as [|[h b] s IH]; intros x Hx; [done|]. simpl. apply IH.
  unfold fold_sibling. case_match; apply hash_pair_range.
Qed.

(** The byte strings that [verify_proof] hashes along a path. *)
Fixpoint path_inputs (current : Hash256) (siblings : list (Hash256 * bool)) : list (list Z) :=
  match siblings with
  | [] => []
  | sib :: rest =>
      (if sib.2 then pair_bytes sib.1 current else pair_bytes current sib.1) ::
      path_inputs (fold_sibling current sib) rest
  end.

Lemma path_inputs_snoc x s sib :
  path_inputs x (s ++ [sib]) = path_inputs x s ++
    [if sib.2 then pair_bytes sib.1 (foldl fold_sibling x s) else pair_bytes (foldl fold_sibling x s) sib.1].
Proof. revert x. induction s as [|y s IH]; intros x; [done|]. cbn. by rewrite IH. Qed.

(** Two paths to one root with the same directions are the same path. *)
Lemma path_binding inputs x y s1 s2 :
  blake3_apart inputs -> path_inputs x s1 ⊆ inputs -> path_inputs y s2 ⊆ inputs ->
  hash256 x -> hash256 y -> Forall hash256 s1.*1 -> Forall hash256 s2.*1 ->
  s1.*2 = s2.*2 -> foldl fold_sibling x s1 = foldl fold_sibling y s2 ->
  x = y /\ s1 = s2.
Proof.
  intros Ha Hi1 Hi2 Hx Hy. revert y s2 Hi2 Hy Hi1.
  induction s1 as [|[h b] s1 IH] using rev_ind; intros y s2 Hi2 Hy Hi1 H1 H2 Hd Hf.
  { destruct s2; done. }
  destruct s2 as [|[h' b'] s2 _] using rev_ind; [by destruct s1|].
  rewrite !fmap_app in *. simpl in *. apply app_inj_tail in Hd as [Hd <-].
  apply Forall_app in H1 as [H1 [Hh _]%Forall_cons]. apply Forall_app in H2 as [H2 [Hh' _]%Forall_cons].
  rewrite path_inputs_snoc in Hi1, Hi2. apply list_subseteq_app_iff_l in Hi1 as [Hi1 Hl1], Hi2 as [Hi2 Hl2].
  cbn [fst snd] in Hl1, Hl2. rewrite !foldl_app in Hf. simpl in Hf. unfold fold_sibling in Hf at 1 3. simpl in Hf.
  assert (foldl fold_sibling x s1 = foldl fold_sibling y s2 /\ h = h') as [Heq ->].
  { destruct b; apply (hash_pair_inj inputs) in Hf as [??]; auto using fold_sibling_range;
      first [by apply Hl1; left|by apply Hl2; left]. }
  destruct (IH y s2) as [-> ->]; done.
Qed.

Lemma pad_even_range l : Forall hash256 l -> Forall hash256 (pad_even l).
Proof.
  intros Hl. unfold pad_even. case_match; [done|]. destruct (last l) as [x|] eqn:Hx; [|done].
  apply Forall_app. split; [done|]. apply Forall_singleton.
  apply last_Some in Hx as [k ->]. apply Forall_app in Hl as [_ Hx]. by rewrite Forall_singleton in Hx.
Qed.

Lemma hash_pairs_range l : Forall hash256 (hash_pairs l).
Proof.
  enough (forall n l, (length l <= n)%nat -> Forall hash256 (hash_pairs l)) by eauto.
  clear l. induction n as [|n IH]; intros [|a [|b l]] Hn; simpl in *; try constructor;
    try apply hash_pair_range; try constructor; try lia. apply IH. lia.
Qed.

Lemma next_level_range l : Forall hash256 (next_level l).
Proof. unfold next_level. case_match; [apply pad_even_range|]; apply hash_pairs_range. Qed.

Lemma from_leaves_range leaves :
  Forall hash256 leaves -> Forall (Forall hash256) (from_leaves leaves).
Proof.
  intros Hl. unfold from_leaves. destruct leaves as [|x leaves].
  { repeat constructor. unfold hash256. lia. }
  constructor; [by apply pad_even_range|]. generalize (length (pad_even (x :: leaves))) as fuel.
  generalize (pad_even (x :: leaves)) as l. intros l fuel. revert l.
  induction fuel as [|fuel IH]; intros l; simpl; [constructor|].
  case_match; constructor; [apply next_level_range|apply IH].
Qed.

Lemma proof_siblings_range levels idx sib :
  Forall (Forall hash256) levels -> proof_siblings levels idx = Ok sib -> Forall hash256 sib.*1.
Proof.
  intros Hl. revert idx sib. induction Hl as [|level levels Hlevel Hl IH]; intros idx sib.
  { intros [= <-]. constructor. }
  destruct levels as [|l2 levels]; [intros [= <-]; constructor|]. intros Hs.
  cbn [proof_siblings] in Hs. inv_ok. constructor; [|by eapply IH].
  rewrite Forall_forall in Hlevel. apply Hlevel. clear IH.
  destruct (_ <? _)%nat; inv_ok; by eapply list_elem_of_lookup_2.
Qed.

(** The path that the tree itself gives for a leaf. *)
Lemma own_path leaves i x :
  Forall hash256 leaves -> leaves !! i = Some x ->
  exists q, merkle_proof (from_leaves leaves) i = Ok (Some q) /\ mp_leaf q = x /\ Forall hash256 (mp_siblings q).*1 /\
    (mp_siblings q).*2 = directions (length (from_leaves leaves) - 1) i /\
    foldl fold_sibling x (mp_siblings q) = merkle_root (from_leaves leaves).
Proof.
  intros Hl Hx. destruct (merkle_proof_spec leaves i x Hx) as (sib & Hp & Hd & Hf).
  eexists. split; [exact Hp|]. cbn. split; [done|]. split; [|done].
  unfold merkle_proof in Hp. destruct (head (from_leaves leaves)) as [level0|]; [|done]. cbn in Hp.
  destruct (_ <=? _)%nat; [done|]. repeat inv_ok1. simplify_eq.
  eapply proof_siblings_range; [by apply from_leaves_range|done].
Qed.

(** The byte strings hashed along the paths of all leaves of a tree. *)
Definition tree_inputs (leaves : list Hash256) : list (list Z) :=
  seq 0 (length leaves) ≫= fun i =>
    match merkle_proof (from_leaves leaves) i with
    | Ok (Some q) => path_inputs (mp_leaf q) (mp_siblings q)
    | _ => []
    end.

Lemma tree_inputs_path leaves i q :
  (i < length leaves)%nat -> merkle_proof (from_leaves leaves) i = Ok (Some q) ->
  path_inputs (mp_leaf q) (mp_siblings q) ⊆ tree_inputs leaves.
Proof.
  intros Hi Hq x Hx. apply list_elem_of_bind. exists i. rewrite Hq. split; [done|]. apply elem_of_seq. lia.
Qed.

Lemma length_from_leaves l1 l2 :
  length l1 = length l2 -> length (from_leaves l1) = length (from_leaves l2).
Proof.
  intros Hlen. unfold from_leaves. destruct l1 as [|x l1], l2 as [|y l2]; try done.
  cbn [length]. f_equal.
  assert (length (pad_even (x :: l1)) = length (pad_even (y :: l2))) as Hp
    by (by rewrite !length_pad_even, Hlen).
  rewrite <- Hp. revert Hp. generalize (length (pad_even (x :: l1))) at 2 3 as fuel.
  generalize (pad_even (x :: l1)) (pad_even (y :: l2)).
  intros k1 k2 fuel. revert k1 k2. induction fuel as [|fuel IH]; intros k1 k2 Hk; [done|].
  cbn [build_levels]. rewrite Hk. case_match; [|done]. cbn [length]. f_equal. apply IH.
  unfold next_level. rewrite !length_hash_pairs, Hk. case_match; rewrite ?length_pad_even,
    !length_hash_pairs, ?Hk; done.
Qed.

Lemma root_binding l1 l2 :
  blake3_apart (tree_inputs l1 ++ tree_inputs l2) ->
  Forall hash256 l1 -> Forall hash256 l2 -> length l1 = length l2 ->
  merkle_root (from_leaves l1) = merkle_root (from_leaves l2) -> l1 = l2.
Proof.
  intros Ha H1 H2 Hlen Hroot. apply list_eq_same_length with (length l1); [done|done|].
  intros i x y Hi Hx Hy. destruct (own_path l1 i x H1 Hx) as (q1 & Hq1 & <- & Hs1 & Hd1 & Hf1).
  destruct (own_path l2 i y H2 Hy) as (q2 & Hq2 & <- & Hs2 & Hd2 & Hf2).
  rewrite (length_from_leaves _ _ Hlen) in Hd1. rewrite Forall_forall in H1, H2.
  apply (path_binding (tree_inputs l1 ++ tree_inputs l2) _ _ (mp_siblings q1) (mp_siblings q2)); try done;
    [apply list_subseteq_app_l|apply list_subseteq_app_r|..|congruence|congruence]; eauto using list_elem_of_lookup_2.
  - eapply tree_inputs_path; [|done]. lia.
  - eapply tree_inputs_path; [|done]. lia.
Qed.

End Merkle.

(** ** Recomputing paths is rebuilding *)

Section Incremental.
Context `{Crypto}.

Lemma rebuild_levels_build fuel l : (rebuild_levels fuel l).*2 = build_levels fuel l.
Proof.
  revert l. induction fuel as [|fuel IH]; intros l; [done|]. cbn [rebuild_levels build_levels].
  case_match; [|done]. rewrite fmap_cons, IH. done.
Qed.

Lemma im_rebuild_levels t : im_levels (im_rebuild t) = from_leaves (im_leaves t).
Proof.
  unfold im_rebuild, from_leaves. destruct (im_leaves t); [done|].
  cbn [set_field im_levels]. by rewrite rebuild_levels_build.
Qed.

Lemma im_rebuild_leaves t : im_leaves (im_rebuild t) = im_leaves t.
Proof. unfold im_rebuild. destruct (im_leaves t) eqn:Hl; simpl; by rewrite Hl. Qed.

(** The padding above level 0. *)
Definition top_pad (r : list Hash256) : list Hash256 :=
  if (1 <? length r)%nat then pad_even r else r.

Lemma top_pad_lookup r i : (i < length r)%nat -> top_pad r !! i = r !! i.
Proof. intros Hi. unfold top_pad. case_match; [by apply pad_even_lookup|done]. Qed.

Lemma last_insert (r : list Hash256) p h x :
  last r = Some x -> (p < length r)%nat ->
  last (<[p := h]> r) = Some (if (p =? length r - 1)%nat then h else x).
Proof.
  rewrite !last_lookup, length_insert. intros Hx Hp.
  replace (pred (length r)) with (length r - 1)%nat in * by lia.
  destruct (p =? _)%nat eqn:He.
  - apply Nat.eqb_eq in He. rewrite He, list_lookup_insert_eq by lia. done.
  - apply Nat.eqb_neq in He. by rewrite list_lookup_insert_ne.
Qed.

(** Writing a node of a padded level, and the padding twin when the node is last. *)
Lemma pad_even_insert r p h :
  (p < length r)%nat ->
  (if ((p =? length r - 1) && (length r <? length (<[p := h]> (pad_even r))))%nat
   then <[length r := h]> (<[p := h]> (pad_even r)) else <[p := h]> (pad_even r)) =
  pad_even (<[p := h]> r).
Proof.
  intros Hp. rewrite length_insert. unfold pad_even. rewrite length_insert.
  destruct (Nat.even (length r)) eqn:He.
  { rewrite (proj2 (Nat.ltb_ge _ _)), andb_false_r by lia. done. }
  destruct (last r) as [x|] eqn:Hx; [|by apply last_None in Hx as ->; simpl in *; lia].
  rewrite (last_insert r p h x) by done. rewrite insert_app_l by done.
  rewrite (proj2 (Nat.ltb_lt _ _)), andb_true_r by (rewrite length_app; simpl; lia).
  destruct (p =? _)%nat; [|done].
  rewrite <- (length_insert r p h) at 1. rewrite <- (Nat.add_0_r (length _)), insert_app_r. done.
Qed.

Lemma top_pad_insert r p h :
  (p < length r)%nat ->
  (if ((p =? length r - 1) && (length r <? length (<[p := h]> (top_pad r))))%nat
   then <[length r := h]> (<[p := h]> (top_pad r)) else <[p := h]> (top_pad r)) =
  top_pad (<[p := h]> r).
Proof.
  intros Hp. unfold top_pad. rewrite (length_insert r).
  destruct (1 <? length r)%nat; [by apply pad_even_insert|].
  rewrite length_insert, (proj2 (Nat.ltb_ge _ _)), andb_false_r by lia. done.
Qed.

Definition left_child (lower : list Hash256) (p : nat) : Hash256 := default 0 (lower !! (2 * p)%nat).
Definition right_child (lower : list Hash256) (p : nat) : Hash256 :=
  default 0 (lower !! (2 * p + 1)%nat).
Definition parent_hash (lower : list Hash256) (p : nat) : Hash256 :=
  hash_pair (left_child lower p) (right_child lower p).

Lemma refresh_leaf_spec leaves r idx leaf :
  leaves !! idx = Some leaf -> (idx < length r)%nat ->
  refresh_leaf (length r) leaves (pad_even r) idx = Ok (pad_even (<[idx := leaf]> r)).
Proof.
  intros Hl Hi. unfold refresh_leaf. rewrite (proj2 (Nat.ltb_lt _ _)), Hl by done. simpl.
  rewrite pad_even_lookup by done. destruct (lookup_lt_is_Some_2 _ _ Hi) as [y ->]. simpl.
  by rewrite <- pad_even_insert.
Qed.

Lemma refresh_parent_spec lower r p :
  Nat.even (length lower) = true -> (2 * p < length lower)%nat -> (p < length r)%nat ->
  refresh_parent lower (length r) (top_pad r) p = Ok (top_pad (<[p := parent_hash lower p]> r)).
Proof.
  intros He Hp Hr. unfold refresh_parent, parent_hash, left_child, right_child.
  rewrite even_mod2, Nat.eqb_eq in He.
  replace (p * 2)%nat with (2 * p)%nat by lia. replace (S (2 * p)) with (2 * p + 1)%nat by lia.
  destruct (lookup_lt_is_Some_2 lower (2 * p)%nat) as [a ->]; [lia|].
  destruct (lookup_lt_is_Some_2 lower (2 * p + 1)%nat) as [b ->]; [lia|].
  cbn [expect mbind outcome_bind default from_option id]. rewrite top_pad_lookup by done.
  destruct (lookup_lt_is_Some_2 _ _ Hr) as [y ->]. simpl. by rewrite <- top_pad_insert.
Qed.

(** A loop of writes on a padded level is the padded loop of writes. *)
Lemma mfoldl_padded (f : list Hash256 -> nat -> outcome unit (list Hash256))
    (pad : list Hash256 -> list Hash256) (v : nat -> Hash256) n l r :
  length r = n -> Forall (fun p => (p < n)%nat) l ->
  (forall r p, length r = n -> p ∈ l -> f (pad r) p = Ok (pad (<[p := v p]> r))) ->
  mfoldl f (pad r) l = Ok (pad (foldl (fun r p => <[p := v p]> r) r l)).
Proof.
  intros Hr Hl Hf. revert r Hr. induction Hl as [|p l Hp Hl IH]; intros r Hr; [done|].
  cbn [mfoldl foldl]. rewrite Hf by (done || set_solver). simpl.
  apply IH; [|by rewrite length_insert]. intros r' q Hr' Hq. apply Hf; [done|set_solver].
Qed.

Lemma foldl_insert_lookup (v : nat -> Hash256) l r j :
  (j < length r)%nat ->
  foldl (fun r p => <[p := v p]> r) r l !! j =
  if decide (j ∈ l) then Some (v j) else r !! j.
Proof.
  revert r. induction l as [|p l IH]; intros r Hj; [by rewrite decide_False by set_solver|].
  cbn [foldl]. rewrite IH by (by rewrite length_insert).
  destruct (decide (j ∈ l)); [by rewrite decide_True by set_solver|].
  destruct (decide (p = j)) as [->|Hne].
  - rewrite decide_True by set_solver. by rewrite list_lookup_insert_eq.
  - rewrite decide_False by set_solver. by rewrite list_lookup_insert_ne.
Qed.

Lemma length_foldl_insert (v : nat -> Hash256) l r :
  length (foldl (fun r p => <[p := v p]> r) r l) = length r.
Proof. revert r. induction l as [|p l IH]; intros r; [done|]. simpl. by rewrite IH, length_insert. Qed.

(** [dirty] covers the positions where two levels of one shape differ. *)
Definition covers (dirty : gset nat) (old new : list Hash256) : Prop :=
  length old = length new /\ (forall i, i ∈ dirty -> (i < length old)%nat) /\
  forall i, i ∉ dirty -> old !! i = new !! i.

Definition parents (dirty : gset nat) : gset nat := set_map (fun idx => (idx / 2)%nat) dirty.

Lemma elem_of_parents dirty p :
  p ∈ parents dirty <-> exists i, i ∈ dirty /\ p = (i / 2)%nat.
Proof. unfold parents. rewrite elem_of_map. naive_solver. Qed.

Lemma length_hash_pairs_even (l : list Hash256) :
  Nat.even (length l) = true -> (2 * length (hash_pairs l) = length l)%nat.
Proof. rewrite even_mod2, Nat.eqb_eq, length_hash_pairs, Nat.div2_div. lia. Qed.

Lemma hash_pairs_parent l p :
  Nat.even (length l) = true -> (p < length (hash_pairs l))%nat ->
  hash_pairs l !! p = Some (parent_hash l p).
Proof.
  intros He Hp. pose proof (length_hash_pairs_even l He).
  unfold parent_hash, left_child, right_child.
  destruct (lookup_lt_is_Some_2 l (2 * p)%nat) as [a Ha]; [lia|].
  destruct (lookup_lt_is_Some_2 l (2 * p + 1)%nat) as [b Hb]; [lia|].
  rewrite Ha, Hb. by apply hash_pairs_lookup.
Qed.

Lemma hash_pairs_covers dirty old new :
  Nat.even (length old) = true -> covers dirty old new ->
  covers (parents dirty) (hash_pairs old) (hash_pairs new).
Proof.
  intros He (Hlen & Hin & Hout). assert (Nat.even (length new) = true) as He' by (by rewrite <- Hlen).
  pose proof (length_hash_pairs_even old He). pose proof (length_hash_pairs_even new He').
  split; [lia|]. split.
  - intros p (i & Hi & ->)%elem_of_parents. apply Hin in Hi. lia.
  - intros p Hp. destruct (decide (p < length (hash_pairs old))%nat) as [Hlt|Hge].
    2:{ rewrite !lookup_ge_None_2 by lia. done. }
    rewrite !hash_pairs_parent by (done || lia).
    unfold parent_hash, left_child, right_child. rewrite !Hout; [done|..];
      intros Hi; apply Hp, elem_of_parents; eexists; (split; [exact Hi|lia]).
Qed.

Lemma refresh_level dirty old new :
  Nat.even (length old) = true -> covers dirty old new ->
  mfoldl (refresh_parent new (length (hash_pairs old))) (top_pad (hash_pairs old))
    (elements (parents dirty)) = Ok (top_pad (hash_pairs new)).
Proof.
  intros He Hc. assert (Nat.even (length new) = true) as He' by (by rewrite <- (proj1 Hc)).
  destruct (hash_pairs_covers dirty old new He Hc) as (Hlen & Hin & Hout).
  pose proof (length_hash_pairs_even new He').
  rewrite (mfoldl_padded _ top_pad (parent_hash new) (length (hash_pairs old))); [|done|..].
  - do 2 f_equal. apply list_eq. intros j.
    destruct (decide (j < length (hash_pairs old))%nat) as [Hj|Hj].
    2:{ rewrite !lookup_ge_None_2; [done|lia|rewrite length_foldl_insert; lia]. }
    rewrite foldl_insert_lookup by done. case_decide as Hd.
    + rewrite hash_pairs_parent by (done || lia). done.
    + apply Hout. by rewrite <- elem_of_elements.
  - apply Forall_forall. intros p Hp%elem_of_elements. by apply Hin.
  - intros r p Hr Hp%elem_of_elements. rewrite <- Hr. apply refresh_parent_spec; [done|..];
      apply Hin in Hp; lia.
Qed.

(** A padded level differs only at the covered positions and their twins. *)
Lemma pad_even_twin (r : list Hash256) (i : nat) :
  (length r <= i < length (pad_even r))%nat ->
  i = length r /\ pad_even r !! i = r !! (length r - 1)%nat.
Proof.
  rewrite length_pad_even. unfold pad_even. rewrite even_mod2. intros Hi.
  destruct (_ =? 0)%nat eqn:He; [apply Nat.eqb_eq in He; lia|].
  assert (i = length r) as -> by lia. split; [done|].
  destruct (last r) as [x|] eqn:Hx; [|apply last_None in Hx as ->; simpl in *; lia].
  rewrite lookup_app_r, Nat.sub_diag by done. rewrite last_lookup in Hx.
  by replace (length r - 1)%nat with (pred (length r)) by lia.
Qed.

Lemma with_twin_covers (pad : list Hash256 -> list Hash256) dirty old new :
  pad = pad_even \/ pad = top_pad ->
  covers dirty old new -> (0 < length old)%nat ->
  covers (with_twin (length old) (pad new) dirty) (pad old) (pad new).
Proof.
  intros Hpad (Hlen & Hin & Hout) Hpos.
  assert (length (pad old) = length (pad new)) as Hplen.
  { destruct Hpad as [-> | ->]; unfold top_pad; rewrite ?Hlen; try case_match;
      rewrite ?length_pad_even, ?Hlen; done. }
  assert (length old <= length (pad old))%nat as Hge.
  { destruct Hpad as [-> | ->]; unfold top_pad; try case_match; rewrite ?length_pad_even; lia. }
  assert (forall l i, (i < length l)%nat -> pad l !! i = l !! i) as Hreal.
  { intros l i Hi. destruct Hpad as [-> | ->]; [by apply pad_even_lookup|by apply top_pad_lookup]. }
  assert (forall l i, (length l <= i < length (pad l))%nat ->
            i = length l /\ pad l !! i = l !! (length l - 1)%nat) as Htwin.
  { intros l i Hi. destruct Hpad as [-> | ->]; [by apply pad_even_twin|].
    unfold top_pad in *. case_match; [by apply pad_even_twin|lia]. }
  split; [done|]. split.
  - intros i. unfold with_twin. case_match eqn:Hw; [|intros ?%Hin; lia].
    intros [->%elem_of_singleton|?%Hin]%elem_of_union; [|lia]. apply andb_true_iff in Hw as [Hw _].
    apply andb_true_iff in Hw as [_ Hw%Nat.ltb_lt]. lia.
  - intros i Hi. destruct (decide (i < length old)%nat) as [Hlt|Hnlt].
    + rewrite !Hreal by lia. apply Hout. unfold with_twin in Hi. case_match; set_solver.
    + destruct (decide (i < length (pad old))%nat) as [Hlt2|?];
        [|by rewrite !lookup_ge_None_2 by lia].
      destruct (Htwin old i) as [-> ->]; [lia|]. destruct (Htwin new (length old)) as [_ ->]; [lia|].
      rewrite <- Hlen. apply Hout. intros Hd. apply Hi. unfold with_twin.
      rewrite (proj2 (Nat.ltb_lt 0 _)), (proj2 (Nat.ltb_lt (length old) _)) by lia.
      rewrite bool_decide_true by done. simpl. set_solver.
Qed.

Lemma propagate_rebuild fuel dirty old new :
  (length old <= fuel)%nat -> (length old = 1%nat \/ Nat.even (length old) = true) ->
  covers dirty old new ->
  propagate new (rebuild_levels fuel old).*2 (rebuild_levels fuel old).*1 dirty =
    Ok (rebuild_levels fuel new).*2 /\
  (rebuild_levels fuel old).*1 = (rebuild_levels fuel new).*1.
Proof.
  revert dirty old new. induction fuel as [|fuel IH]; intros dirty old new Hf Hs Hc; [done|].
  cbn [rebuild_levels]. rewrite <- (proj1 Hc). destruct (1 <? length old)%nat eqn:H1; [|done].
  apply Nat.ltb_lt in H1. destruct Hs as [?|He]; [lia|].
  fold (top_pad (hash_pairs old)) (top_pad (hash_pairs new)).
  rewrite !fmap_cons. cbn [fst snd propagate]. change (set_map _ dirty) with (parents dirty).
  rewrite (refresh_level dirty old new He Hc). simpl.
  pose proof (hash_pairs_covers dirty old new He Hc) as Hc'.
  destruct (length_next_level old H1) as [Hlen Hshape].
  change (next_level old) with (top_pad (hash_pairs old)) in *.
  pose proof (length_hash_pairs_even old He).
  destruct (IH (with_twin (length (hash_pairs old)) (top_pad (hash_pairs new)) (parents dirty))
              (top_pad (hash_pairs old)) (top_pad (hash_pairs new))) as [-> ->];
    [lia|done|apply with_twin_covers; [by right|done|lia]|].
  simpl. by rewrite (proj1 Hc').
Qed.

(** The optimised recomputation, on a tree whose cached levels are those of the old
    leaves, gives exactly the tree that a full rebuild from the new leaves gives. *)
Lemma recompute_is_rebuild t0 leaves dirty :
  length leaves = length (im_leaves t0) ->
  Forall (fun i => (i < length leaves)%nat) dirty ->
  (forall i, i ∉ dirty -> leaves !! i = im_leaves t0 !! i) ->
  let t := (im_rebuild t0) <| im_leaves := leaves |> in
  im_recompute_paths t dirty = Ok (im_rebuild t).
Proof.
  intros Hlen Hin Hout t. subst t. unfold im_rebuild at 1.
  destruct (im_leaves t0) as [|x old] eqn:Hold.
  { apply nil_length_inv in Hlen as ->. unfold im_recompute_paths, im_rebuild. simpl.
    rewrite Hold. simpl. by rewrite orb_true_r. }
  destruct (decide (dirty = [])) as [->|Hd].
  { assert (leaves = x :: old) as ->.
    { apply list_eq. intros i. apply Hout. set_solver. }
    unfold im_recompute_paths, im_rebuild. simpl. rewrite Hold. done. }
  assert (covers (list_to_set dirty) (x :: old) leaves) as Hc.
  { split; [done|]. rewrite Forall_forall in Hin. split.
    - intros i Hi%elem_of_list_to_set. rewrite <- Hlen. by apply Hin.
    - intros i Hi. symmetry. apply Hout. by rewrite <- (elem_of_list_to_set (C := gset nat)). }
  unfold im_recompute_paths. cbn [set_field im_levels im_real_lengths im_leaves].
  rewrite (bool_decide_false (dirty = [])), (bool_decide_false (leaves = [])) by (by intros ->).
  cbn [orb].
  rewrite (mfoldl_padded _ pad_even (fun i => default 0 (leaves !! i)) (length (x :: old)));
    [|done|by rewrite <- Hlen|].
  2:{ intros r p Hr Hp. rewrite <- Hr. rewrite Forall_forall in Hin. pose proof (Hin p Hp).
      destruct (lookup_lt_is_Some_2 leaves p) as [y Hy]; [done|].
      rewrite (refresh_leaf_spec leaves r p y) by (done || lia). by rewrite Hy. }
  assert (foldl (fun r p => <[p := default 0 (leaves !! p)]> r) (x :: old) dirty = leaves) as ->.
  { apply list_eq. intros j. destruct (decide (j < length leaves)%nat) as [Hj|?];
      [|by rewrite !lookup_ge_None_2; [|lia|rewrite length_foldl_insert; lia]].
    rewrite foldl_insert_lookup by lia. case_decide as Hjd; [|by rewrite <- Hout].
    by destruct (lookup_lt_is_Some_2 leaves j Hj) as [y ->]. }
  simpl mbind. change (S (length old)) with (length (x :: old)).
  destruct (propagate_rebuild (length (pad_even (x :: old)))
              (with_twin (length (x :: old)) (pad_even leaves) (list_to_set dirty))
              (pad_even (x :: old)) (pad_even leaves)) as [-> Hreal];
    [done|right; apply pad_even_even|apply with_twin_covers; [by left|done|simpl; lia]|].
  unfold im_rebuild. rewrite Hold. destruct leaves as [|y leaves]; [done|].
  cbn [set_field im_levels im_real_lengths im_leaves im_keys im_key_index mbind outcome_bind].
  rewrite Hreal, !length_pad_even, Hlen. done.
Qed.

End Incremental.

(** ** The keyed tree implements a finite map *)

Section Keyed.
Context `{Crypto}.

Definition im_entries (t : IncrementalMerkle) : list (Hash256 * Hash256) :=
  zip (im_keys t) (im_leaves t).

(** The map from keys to leaf hashes that a tree stands for. *)
Definition im_map (t : IncrementalMerkle) : gmap Hash256 Hash256 := list_to_map (im_entries t).

Definition im_wf (t : IncrementalMerkle) : Prop :=
  StronglySorted Z.lt (im_keys t) /\ length (im_leaves t) = length (im_keys t) /\
  im_key_index t = index_keys (im_keys t).

Lemma sorted_lt_NoDup (l : list Z) : StronglySorted Z.lt l -> NoDup l.
Proof.
  induction 1 as [|x l Hs IH Hx]; constructor; [|done].
  intros Hin. rewrite Forall_forall in Hx. apply Hx in Hin. lia.
Qed.

Lemma index_keys_spec keys k i :
  NoDup keys -> index_keys keys !! k = Some i <-> keys !! i = Some k.
Proof.
  intros Hnd. revert k i. induction keys as [|x keys IH] using rev_ind; intros k i.
  { unfold index_keys. simpl. rewrite lookup_empty. naive_solver. }
  apply NoDup_app in Hnd as (Hnd & Hx & _). unfold index_keys in *.
  rewrite length_app. cbn [length]. rewrite seq_app, zip_with_app by (by rewrite length_seq).
  rewrite foldl_app. cbn [foldl zip_with seq Nat.add fst snd].
  assert (x ∉ keys) as Hnew by set_solver.
  rewrite lookup_insert_Some, (IH Hnd).
  destruct (decide (i < length keys)%nat) as [Hi|Hi].
  - rewrite lookup_app_l by done. split; [|intros Hk].
    + intros [[? ?]|[? ?]]; [lia|done].
    + right. split; [|done]. intros ->. by apply Hnew, list_elem_of_lookup_2 with i.
  - rewrite lookup_app_r by lia. destruct (i - length keys)%nat as [|m] eqn:Hm; simpl.
    + split; [intros [[? ?]|[? Hk%lookup_lt_Some]]; [congruence|lia]|].
      intros [= <-]. left. split; [done|lia].
    + split; [intros [[? ?]|[? Hk%lookup_lt_Some]]; lia|]. by rewrite lookup_nil.
Qed.

Lemma fst_entries t : im_wf t -> (im_entries t).*1 = im_keys t.
Proof. intros (_ & Hlen & _). apply fst_zip. lia. Qed.

(** Removing position [i] of a list is taking out its element. *)
Lemma vec_remove_Permutation {A} (l : list A) i x :
  l !! i = Some x -> l ≡ₚ x :: vec_remove i l.
Proof.
  intros Hx. unfold vec_remove. rewrite <- (take_drop_middle l i x Hx) at 1.
  by rewrite Permutation_middle.
Qed.

Lemma vec_insert_Permutation {A} (l : list A) i x : vec_insert i x l ≡ₚ x :: l.
Proof. unfold vec_insert. by rewrite <- Permutation_middle, take_drop. Qed.

Lemma zip_vec_insert (ks ls : list Hash256) i k x :
  length ls = length ks -> zip (vec_insert i k ks) (vec_insert i x ls) = vec_insert i (k, x) (zip ks ls).
Proof.
  intros Hlen. unfold vec_insert. rewrite zip_with_app by (rewrite !length_take; lia).
  by rewrite zip_with_take, zip_with_drop.
Qed.

Lemma zip_vec_remove (ks ls : list Hash256) i :
  length ls = length ks -> zip (vec_remove i ks) (vec_remove i ls) = vec_remove i (zip ks ls).
Proof.
  intros Hlen. unfold vec_remove. rewrite zip_with_app by (rewrite !length_take; lia).
  by rewrite zip_with_take, zip_with_drop.
Qed.

Lemma vec_insert_sorted keys key :
  StronglySorted Z.lt keys -> key ∉ keys ->
  StronglySorted Z.lt (vec_insert (insert_position keys key) key keys).
Proof.
  unfold insert_position. induction 1 as [|x keys Hs IH Hx]; intros Hnin.
  { repeat constructor. }
  rewrite filter_cons. case_decide as Hlt; cbn [length].
  - change (vec_insert (S ?n) key (x :: keys)) with (x :: vec_insert n key keys).
    constructor; [apply IH; set_solver|]. rewrite vec_insert_Permutation. by constructor.
  - rewrite filter_none; [|intros y Hy; rewrite Forall_forall in Hx; apply Hx in Hy; lia].
    cbn. assert (key < x) by (assert (key <> x) by set_solver; lia).
    constructor; [by constructor|]. constructor; [done|].
    eapply Forall_impl; [exact Hx|]. simpl. lia.
Qed.

Lemma sorted_sublist (l k : list Z) : k `sublist_of` l -> StronglySorted Z.lt l -> StronglySorted Z.lt k.
Proof.
  intros Hk Hl. revert k Hk. induction Hl as [|x l Hs IH Hx]; intros k Hk.
  { apply sublist_nil_r in Hk as ->. constructor. }
  apply sublist_cons_r in Hk as [Hk|(k' & -> & Hk)]; [by apply IH|].
  constructor; [by apply IH|]. rewrite Forall_forall in *. intros y Hy. apply Hx.
  by eapply sublist_subseteq.
Qed.

Lemma vec_remove_sublist {A} (l : list A) i : vec_remove i l `sublist_of` l.
Proof.
  unfold vec_remove. rewrite <- (take_drop i l) at 3. apply sublist_app; [done|].
  replace (S i) with (i + 1)%nat by lia. rewrite <- drop_drop. apply sublist_drop.
Qed.

Lemma im_update_spec t key h :
  im_wf t -> let t' := (im_update t key h).2 in
  im_wf t' /\ im_map t' = <[key := h]> (im_map t).
Proof.
  intros Hwf. pose proof Hwf as (Hs & Hlen & Hidx). pose proof (sorted_lt_NoDup _ Hs) as Hnd.
  pose proof (fst_entries t Hwf) as Hfst.
  unfold im_update. rewrite Hidx. destruct (index_keys (im_keys t) !! key) as [i|] eqn:Hi.
  - apply index_keys_spec in Hi; [|done]. cbn [snd].
    split; [split_and!; simpl; [done|by rewrite length_insert|done]|].
    unfold im_map, im_entries in *. cbn [set_field im_keys im_leaves].
    destruct (lookup_lt_is_Some_2 (im_leaves t) i) as [x Hx]; [by apply lookup_lt_Some in Hi; lia|].
    assert (zip (im_keys t) (im_leaves t) !! i = Some (key, x)) as Hz
      by (by apply lookup_zip_with_Some; eauto).
    assert (zip (im_keys t) (<[i:=h]> (im_leaves t)) = <[i:=(key, h)]> (zip (im_keys t) (im_leaves t))) as Hzi.
    { by rewrite insert_zip_with, (list_insert_id (im_keys t) i key Hi). }
    rewrite Hzi. pose proof (vec_remove_Permutation _ i _ Hz) as Hp.
    assert (<[i:=(key, h)]> (zip (im_keys t) (im_leaves t)) ≡ₚ
            (key, h) :: vec_remove i (zip (im_keys t) (im_leaves t))) as Hp'.
    { rewrite insert_take_drop by (by eapply lookup_lt_Some). unfold vec_remove.
      by rewrite Permutation_middle. }
    assert (NoDup (zip (im_keys t) (im_leaves t)).*1) as Hndz by (by rewrite Hfst).
    assert (NoDup (<[i:=(key, h)]> (zip (im_keys t) (im_leaves t))).*1) as Hndi
      by (rewrite list_fmap_insert, Hfst; simpl; by rewrite list_insert_id).
    rewrite (list_to_map_proper _ _ Hndi Hp').
    rewrite (list_to_map_proper _ _ Hndz Hp). simpl. by rewrite insert_insert_eq.
  - assert (key ∉ im_keys t) as Hnew.
    { intros [i Hk]%list_elem_of_lookup. apply index_keys_spec in Hk; [congruence|done]. }
    cbn [snd]. split.
    + split_and!; simpl; [by apply vec_insert_sorted| |done].
      unfold vec_insert. rewrite !length_app, !length_take. cbn [length]. rewrite !length_drop. lia.
    + unfold im_map, im_entries in *. cbn [set_field im_keys im_leaves].
      rewrite zip_vec_insert by done.
      rewrite (list_to_map_proper _ ((key, h) :: zip (im_keys t) (im_leaves t))); [done| |apply vec_insert_Permutation].
      rewrite vec_insert_Permutation, fmap_cons, Hfst. by constructor.
Qed.

Lemma im_remove_spec t key :
  im_wf t -> let t' := (im_remove t key).2 in
  im_wf t' /\ im_map t' = delete key (im_map t).
Proof.
  intros Hwf. pose proof Hwf as (Hs & Hlen & Hidx). pose proof (sorted_lt_NoDup _ Hs) as Hnd.
  pose proof (fst_entries t Hwf) as Hfst.
  unfold im_remove. rewrite Hidx. destruct (index_keys (im_keys t) !! key) as [i|] eqn:Hi.
  - apply index_keys_spec in Hi; [|done]. cbn [snd]. pose proof (lookup_lt_Some _ _ _ Hi).
    split.
    + split_and!; simpl; [eapply sorted_sublist; [apply vec_remove_sublist|done]| |done].
      unfold vec_remove. rewrite !length_app, !length_take, !length_drop. lia.
    + unfold im_map, im_entries in *. cbn [set_field im_keys im_leaves]. rewrite zip_vec_remove by done.
      destruct (lookup_lt_is_Some_2 (im_leaves t) i) as [x Hx]; [lia|].
      assert (zip (im_keys t) (im_leaves t) !! i = Some (key, x)) as Hz
        by (by apply lookup_zip_with_Some; eauto).
      pose proof (vec_remove_Permutation _ i _ Hz) as Hp.
      assert (NoDup (zip (im_keys t) (im_leaves t)).*1) as Hndz by (by rewrite Hfst).
      rewrite (list_to_map_proper _ _ Hndz Hp). cbn [list_to_map fst snd foldr].
      rewrite Hp, fmap_cons in Hndz. apply NoDup_cons in Hndz as [Hkey _].
      symmetry. apply delete_insert_id. by apply not_elem_of_list_to_map_1.
  - cbn [snd]. split; [done|]. symmetry. apply delete_id. unfold im_map.
    apply not_elem_of_list_to_map_1. rewrite Hfst.
    intros [i Hk]%list_elem_of_lookup. apply index_keys_spec in Hk; [congruence|done].
Qed.

(** Well-formed trees for one map have the same leaves in the same order. *)
Lemma sorted_lt_le (l : list Z) : StronglySorted Z.lt l -> StronglySorted Z.le l.
Proof.
  induction 1 as [|x l Hs IH Hx]; constructor; [done|].
  eapply Forall_impl; [exact Hx|]. simpl. lia.
Qed.

Lemma sorted_lt_unique (l k : list Z) :
  StronglySorted Z.lt l -> StronglySorted Z.lt k -> (forall x, x ∈ l <-> x ∈ k) -> l = k.
Proof.
  intros Hl Hk Heq. apply (StronglySorted_unique Z.le).
  - by apply sorted_lt_le.
  - by apply sorted_lt_le.
  - apply NoDup_Permutation; auto using sorted_lt_NoDup.
Qed.

Lemma im_map_canonical t1 t2 :
  im_wf t1 -> im_wf t2 -> im_map t1 = im_map t2 ->
  im_keys t1 = im_keys t2 /\ im_leaves t1 = im_leaves t2.
Proof.
  intros Hwf1 Hwf2 Hm. pose proof Hwf1 as (Hs1 & Hlen1 & _). pose proof Hwf2 as (Hs2 & Hlen2 & _).
  assert (forall t, im_wf t -> dom (im_map t) = list_to_set (im_keys t)) as Hdom.
  { intros t Hwf. unfold im_map. rewrite dom_list_to_map_L. by rewrite fst_entries. }
  assert (im_keys t1 = im_keys t2) as Hk.
  { apply sorted_lt_unique; [done..|]. intros x.
    rewrite <- !(elem_of_list_to_set (C := gset Z)), <- !Hdom by done. by rewrite Hm. }
  split; [done|]. assert (im_entries t1 ≡ₚ im_entries t2) as Hp.
  { apply list_to_map_inj in Hm; [done|rewrite fst_entries by done; by apply sorted_lt_NoDup..]. }
  apply list_eq. intros i. destruct (decide (i < length (im_keys t1))%nat) as [Hi|?];
    [|by rewrite !lookup_ge_None_2 by (rewrite ?Hlen1, ?Hlen2, <- ?Hk; lia)].
  destruct (lookup_lt_is_Some_2 _ _ Hi) as [k Hki].
  destruct (lookup_lt_is_Some_2 (im_leaves t1) i) as [x Hx]; [lia|].
  assert ((k, x) ∈ im_entries t2) as (j & Hj)%list_elem_of_lookup.
  { rewrite <- Hp. apply list_elem_of_lookup. exists i. apply lookup_zip_with_Some. eauto. }
  apply lookup_zip_with_Some in Hj as (k' & x' & [= <- <-] & Hkj & Hxj).
  rewrite <- Hk in Hkj. pose proof (NoDup_lookup _ _ _ _ (sorted_lt_NoDup _ Hs1) Hki Hkj) as <-. congruence.
Qed.

(** [from_keyed_leaves] starts from a well-formed tree. *)
Lemma sorted_distinct (l : list Z) :
  Sorted Z.le l -> windows_distinct l = true -> StronglySorted Z.lt l.
Proof.
  intros Hs Hd. apply Sorted_StronglySorted; [intros x y z; lia|].
  induction Hs as [|x l Hs IH Hx]; [constructor|].
  destruct Hx as [|y l Hxy]; [repeat constructor|].
  cbn [windows_distinct] in Hd. dec_hyps. constructor; [by apply IH|]. constructor. lia.
Qed.

Lemma im_wf_rebuild t : im_wf t -> im_wf (im_rebuild t).
Proof.
  unfold im_wf, im_rebuild. intros Hwf.
  destruct (im_leaves t) eqn:Hl; simpl; by rewrite Hl.
Qed.

Lemma im_from_keyed_wf entries t : im_from_keyed_leaves entries = Ok t -> im_wf t.
Proof.
  unfold im_from_keyed_leaves. case_match eqn:Hd; [|done]. intros [= <-]. apply im_wf_rebuild.
  split_and!; simpl; [|by rewrite !length_fmap|done].
  apply sorted_distinct; [|done].
  assert (Sorted entry_le (merge_sort entry_le entries)) as Hs.
  { apply Sorted_merge_sort. intros x y. unfold entry_le. lia. }
  induction Hs as [|x l _ IH Hx]; [constructor|]. simpl. constructor.
  - apply IH. destruct l; [done|]. simpl in Hd. by apply andb_true_iff in Hd as [_ ?].
  - destruct Hx; constructor. done.
Qed.

(** ** Histories *)

Inductive im_reachable : IncrementalMerkle -> Prop :=
| im_reach_new : im_reachable im_new
| im_reach_keyed entries t : im_from_keyed_leaves entries = Ok t -> im_reachable t
| im_reach_update t key h : im_reachable t -> im_reachable (im_update t key h).2
| im_reach_remove t key : im_reachable t -> im_reachable (im_remove t key).2
| im_reach_rebuild t : im_reachable t -> im_reachable (im_rebuild t)
| im_reach_recompute t dirty t' :
    im_reachable t -> im_recompute_paths t dirty = Ok t' -> im_reachable t'.

Lemma recompute_keeps t dirty t' :
  im_recompute_paths t dirty = Ok t' -> exists ls, t' = t <| im_levels := ls |>.
Proof.
  unfold im_recompute_paths. intros Hr. destruct (im_levels t) eqn:Hl.
  { injection Hr as <-. exists []. destruct t; simpl in *; by subst. }
  destruct (im_real_lengths t); [done|]. case_match.
  - injection Hr as <-. exists (im_levels t). by destruct t.
  - inv_ok. eauto.
Qed.

Lemma im_reachable_wf t : im_reachable t -> im_wf t.
Proof.
  induction 1 as [|entries t He|t key h _ IH|t key _ IH|t _ IH|t dirty t' _ IH Hr].
  - split_and!; [constructor|done|done].
  - by eapply im_from_keyed_wf.
  - by apply im_update_spec.
  - by apply im_remove_spec.
  - by apply im_wf_rebuild.
  - apply recompute_keeps in Hr as [ls ->]. exact IH.
Qed.

(** A batch of updates, with the positions it reports. *)
Fixpoint im_update_all (t : IncrementalMerkle) (l : list (Hash256 * Hash256))
    : list (nat * bool) * IncrementalMerkle :=
  match l with
  | [] => ([], t)
  | (key, h) :: l' =>
      let r := im_update t key h in
      let rest := im_update_all r.2 l' in
      (r.1 :: rest.1, rest.2)
  end.

Lemma im_update_all_existing t l :
  im_wf t -> Forall (fun r => r.2 = false) (im_update_all t l).1 ->
  let dirty := (im_update_all t l).1.*1 in
  exists leaves, (im_update_all t l).2 = t <| im_leaves := leaves |> /\
    length leaves = length (im_leaves t) /\ Forall (fun i => (i < length leaves)%nat) dirty /\
    forall i, i ∉ dirty -> leaves !! i = im_leaves t !! i.
Proof.
  revert t. induction l as [|[key h] l IH]; intros t Hwf Hold dirty.
  { exists (im_leaves t). split; [by destruct t|]. split_and!; [done|constructor|done]. }
  subst dirty. cbn [im_update_all fst snd] in *. apply Forall_cons in Hold as [Hk Hold].
  destruct (im_update_spec t key h Hwf) as [Hwf' _].
  destruct (IH _ Hwf' Hold) as (leaves & Ht & Hlen & Hin & Hout). rewrite Ht.
  unfold im_update in *. destruct (im_key_index t !! key) as [i|] eqn:Hi; [|done].
  simpl in *. rewrite length_insert in Hlen. exists leaves. split_and!; [done|done| |].
  - constructor; [|done]. destruct Hwf as (Hs & Hl & Hidx). rewrite Hidx in Hi.
    apply index_keys_spec in Hi; [|by apply sorted_lt_NoDup]. apply lookup_lt_Some in Hi. lia.
  - intros j Hj. rewrite Hout by set_solver. apply list_lookup_insert_ne. set_solver.
Qed.

End Keyed.

(** ** The theorems *)

Module DemoMerkle.
Import Demo.

Definition leaves5 : list Hash256 := [101; 102; 103; 104; 105].

Definition keyed : IncrementalMerkle :=
  im_rebuild (im_update (im_update (im_update im_new 30 103).2 10 101).2 20 102).2.

Definition keyed' : IncrementalMerkle :=
  (im_remove (im_update (im_update (im_update (im_update im_new 10 7).2 20 102).2 15 9).2 30 103).2 15).2.

Lemma keyed_reachable : im_reachable keyed.
Proof. unfold keyed. repeat constructor. Qed.

Lemma keyed'_reachable : im_reachable (im_update keyed' 10 101).2.
Proof. unfold keyed'. repeat constructor. Qed.

(** The proof of the third leaf, and the same proof with another index, which is not hashed. *)
Definition proof2 : MerkleProof :=
  match merkle_proof (from_leaves (H := Demo.demo_crypto) leaves5) 2 with
  | Ok (Some p) => p
  | _ => mkMerkleProof 0 0 [] 0
  end.

Definition relabelled : MerkleProof := mkMerkleProof (mp_leaf proof2) 9 (mp_siblings proof2) (mp_root proof2).

End DemoMerkle.

(** For every leaf position of a tree built by [from_leaves], [proof] returns (and
    does not abort) an inclusion proof that names that leaf, that index and the root of
    the tree, and [verify_proof] accepts it. *)
Theorem merkle_inclusion_complete `{Crypto} (leaves : list Hash256) (i : nat) (x : Hash256)
  (Hx : leaves !! i = Some x) :
  exists p, merkle_proof (from_leaves leaves) i = Ok (Some p) /\ verify_proof p = true /\
    mp_leaf p = x /\ mp_index p = i /\ mp_root p = merkle_root (from_leaves leaves).
Proof.
  destruct (merkle_proof_spec leaves i x Hx) as (sib & Hp & _ & Hf).
  eexists. split; [exact Hp|]. split; [|done]. by apply bool_decide_eq_true.
Qed.

Lemma merkle_inclusion_complete_witness :
  exists p, merkle_proof (from_leaves (H := Demo.demo_crypto) DemoMerkle.leaves5) 4 = Ok (Some p) /\
    verify_proof (H := Demo.demo_crypto) p = true /\ mp_leaf p = 105.
Proof.
  destruct (@merkle_inclusion_complete Demo.demo_crypto DemoMerkle.leaves5 4 105 eq_refl)
    as (p & Hp & Hv & Hl & _). exists p. auto.
Defined.

(** C27: a proof that [verify_proof] accepts against the root of a tree, with as many
    siblings as the tree has levels above the leaves and with the left/right flags of
    position [i], is the proof that the tree itself gives for [i]: it names the leaf at [i]
    and the same siblings.  BLAKE3 is assumed to have no collision among the node inputs
    of the two paths. *)
Theorem merkle_inclusion_sound `{Crypto, !CryptoLaws} (leaves : list Hash256) (i : nat)
  (x : Hash256) (p q : MerkleProof) (Hr : Forall hash256 leaves) (Hx : leaves !! i = Some x)
  (Hq : merkle_proof (from_leaves leaves) i = Ok (Some q))
  (Hapart : blake3_apart (path_inputs (mp_leaf p) (mp_siblings p) ++ path_inputs (mp_leaf q) (mp_siblings q)))
  (Hleaf : hash256 (mp_leaf p)) (Hsib : Forall hash256 (mp_siblings p).*1)
  (Hdir : (mp_siblings p).*2 = directions (length (from_leaves leaves) - 1) i)
  (Hroot : mp_root p = merkle_root (from_leaves leaves)) (Hv : verify_proof p = true) :
  mp_leaf p = x /\ mp_siblings p = mp_siblings q.
Proof.
  destruct (own_path leaves i x Hr Hx) as (q' & Hq' & <- & Hs & Hd & Hf). rewrite Hq in Hq'. injection Hq' as <-.
  apply bool_decide_eq_true in Hv.
  eapply path_binding; [exact Hapart| | |done|..|by rewrite Hdir, Hd|congruence]; [| | |done|done].
  - by apply list_subseteq_app_l.
  - by apply list_subseteq_app_r.
  - rewrite Forall_forall in Hr. by eapply Hr, list_elem_of_lookup_2.
Qed.

Lemma merkle_inclusion_sound_witness :
  mp_leaf DemoMerkle.relabelled = 103 /\ mp_siblings DemoMerkle.relabelled = mp_siblings DemoMerkle.proof2.
Proof.
  apply (@merkle_inclusion_sound Demo.demo_crypto Demo.demo_laws DemoMerkle.leaves5 2 103
    DemoMerkle.relabelled DemoMerkle.proof2).
  - eval_range.
  - reflexivity.
  - vm_compute. reflexivity.
  - apply (@blake3_apartb_ok Demo.demo_crypto). vm_compute. reflexivity.
  - eval_range.
  - eval_range.
  - vm_compute. reflexivity.
  - vm_compute. reflexivity.
  - vm_compute. reflexivity.
Defined.

(** The root of [from_leaves] commits to the leaves: two lists of the same length
    with the same root are equal, if BLAKE3 has no collision among the node inputs of the
    two trees. *)
Theorem merkle_root_binding `{Crypto, !CryptoLaws} (l1 l2 : list Hash256)
  (Hapart : blake3_apart (tree_inputs l1 ++ tree_inputs l2))
  (H1 : Forall hash256 l1) (H2 : Forall hash256 l2) (Hlen : length l1 = length l2)
  (Hroot : merkle_root (from_leaves l1) = merkle_root (from_leaves l2)) :
  l1 = l2.
Proof. by apply root_binding. Qed.

(** C26: after a batch of updates that only touch keys already present, recomputing the
    paths of the reported positions succeeds and yields exactly the tree of a full
    [rebuild], whose root is the root of [MerkleTree::from_leaves] on the leaves. *)
Theorem recompute_paths_equals_rebuild `{Crypto} (t0 : IncrementalMerkle)
  (updates : list (Hash256 * Hash256)) (Hreach : im_reachable t0)
  (Hold : Forall (fun r => r.2 = false) (im_update_all (im_rebuild t0) updates).1) :
  let '(reported, t) := im_update_all (im_rebuild t0) updates in
  im_recompute_paths t reported.*1 = Ok (im_rebuild t) /\
  im_root (im_rebuild t) = merkle_root (from_leaves (im_leaves t)).
Proof.
  destruct (im_update_all_existing (im_rebuild t0) updates
              (im_wf_rebuild _ (im_reachable_wf _ Hreach)) Hold) as (leaves & Ht & Hlen & Hin & Hout).
  destruct (im_update_all (im_rebuild t0) updates) as [reported t]. simpl in *. subst t. split.
  - apply recompute_is_rebuild; [|done|].
    + by rewrite Hlen, im_rebuild_leaves.
    + intros i Hi. by rewrite Hout, im_rebuild_leaves.
  - unfold im_root. by rewrite im_rebuild_levels.
Qed.

Lemma recompute_paths_equals_rebuild_witness :
  let '(reported, t) := im_update_all (im_rebuild (H := Demo.demo_crypto) DemoMerkle.keyed) [(30, 55); (10, 56)] in
  reported.*1 = [2%nat; 0%nat] /\
  im_recompute_paths (H := Demo.demo_crypto) t reported.*1 = Ok (im_rebuild (H := Demo.demo_crypto) t).
Proof.
  split; [vm_compute; reflexivity|].
  refine (proj1 (@recompute_paths_equals_rebuild Demo.demo_crypto DemoMerkle.keyed [(30, 55); (10, 56)]
    DemoMerkle.keyed_reachable _)).
  vm_compute. repeat constructor.
Defined.

(** C18: the incremental tree implements a finite map from keys to leaf hashes: in every
    reachable tree [update] is insertion and [remove] deletion, and the root after a
    rebuild depends on that map only, not on the history of operations. *)
Theorem incremental_tree_refines_map `{Crypto} (t1 : IncrementalMerkle) (Hr1 : im_reachable t1) :
  (forall key h, im_map (im_update t1 key h).2 = <[key := h]> (im_map t1)) /\
  (forall key, im_map (im_remove t1 key).2 = delete key (im_map t1)) /\
  (forall t2, im_reachable t2 -> im_map t1 = im_map t2 ->
     im_root (im_rebuild t1) = im_root (im_rebuild t2)).
Proof.
  pose proof (im_reachable_wf _ Hr1) as Hwf1. split; [intros; by apply im_update_spec|].
  split; [intros; by apply im_remove_spec|]. intros t2 Hr2%im_reachable_wf Hm.
  destruct (im_map_canonical t1 t2 Hwf1 Hr2 Hm) as [_ Hl].
  unfold im_root. by rewrite !im_rebuild_levels, Hl.
Qed.

Lemma incremental_tree_refines_map_witness :
  im_root (im_rebuild (H := Demo.demo_crypto) DemoMerkle.keyed) =
  im_root (im_rebuild (H := Demo.demo_crypto) (im_update DemoMerkle.keyed' 10 101).2).
Proof.
  refine (proj2 (proj2 (@incremental_tree_refines_map Demo.demo_crypto DemoMerkle.keyed
    DemoMerkle.keyed_reachable)) _ DemoMerkle.keyed'_reachable _).
  vm_compute. reflexivity.
Defined.
