(* ===== verification/Validators.v ===== *)
(** * Validators, stake and quorum
    (crates/arc-consensus/src/lib.rs lines 41-429, crates/arc-types/src/lib.rs)

    The stake tiers, the validator set with its cached total and quorum, the
    slashing arithmetic and the membership changes the engine applies to a set.
    [vs_wf] is the invariant of a set; [stake_in] measures the stake of a set of
    addresses and carries the quorum-intersection argument. *)

From S2P Require Import Prelude.

(** ** Errors of the engine *)

Inductive ConsensusError :=
| InvalidBlock (msg : string)
| MissingParents (hash : Hash256) (missing : Z)
| RoundTooFarAhead (round current : Z)
| InsufficientParents
| InvalidRound
| NotValidator
| DuplicateBlock
| InvalidSignature
| CrossShardLockNotFound (tx : Hash256)
| CrossShardLockAlreadyExists (tx : Hash256)
| CrossShardLockFailed (msg : string)
| SlashError (msg : string)
| MevOrderingViolation (hash author : Hash256)
| CrossShardLockExpired (tx : Hash256)
| HistoryPersistence (msg : string).

(** ** Tiers *)

Definition STAKE_SPARK : Z := 500000.
Definition STAKE_ARC : Z := 5000000.
Definition STAKE_CORE : Z := 50000000.

Inductive StakeTier := Spark | Arc | Core.

#[global] Instance StakeTier_eq_dec : EqDecision StakeTier.
Proof. solve_decision. Defined.

Definition from_stake (stake : Z) : option StakeTier :=
  if bool_decide (STAKE_CORE <= stake) then Some Core
  else if bool_decide (STAKE_ARC <= stake) then Some Arc
  else if bool_decide (STAKE_SPARK <= stake) then Some Spark
  else None.

Definition tier_can_produce_blocks (t : StakeTier) : bool :=
  match t with Arc | Core => true | Spark => false end.

Definition can_govern (t : StakeTier) : bool :=
  match t with Core => true | _ => false end.

(** ** Slashing constants and records *)

Definition SLASH_RATE_SPARK : Z := 10.
Definition SLASH_RATE_ARC : Z := 20.
Definition SLASH_RATE_CORE : Z := 30.

Inductive SlashableOffense :=
| DoubleSigning
| LivenessFault
| InvalidBlockProposal
| EquivocationDAG.

Record SlashRecord := mkSlashRecord {
  sr_offense : SlashableOffense;
  sr_offender : Address;
  sr_evidence : Hash256;
  sr_round : Z;
  sr_timestamp : Z;
  sr_slash_amount : Z;
}.

(** ** Validators and validator sets *)

Record Validator := mkValidator {
  v_address : Address;
  v_stake : Z;
  v_tier : StakeTier;
  v_shard : Z;
}.

#[global] Instance Validator_eq_dec : EqDecision Validator.
Proof. solve_decision. Defined.

#[global] Instance eta_Validator : Eta Validator := fun v =>
  mkValidator (v_address v) (v_stake v) (v_tier v) (v_shard v).

(** [Validator::new]. *)
Definition validator_new (address stake shard : Z) : option Validator :=
  match from_stake stake with
  | Some tier => Some (mkValidator address stake tier shard)
  | None => None
  end.

Record ValidatorSet := mkValidatorSet {
  validators : list Validator;
  total_stake : Z;
  epoch : Z;
  quorum : Z;
  slashed_total : Z;
  slash_history : list SlashRecord;
}.

#[global] Instance eta_ValidatorSet : Eta ValidatorSet := fun s =>
  mkValidatorSet (validators s) (total_stake s) (epoch s) (quorum s)
    (slashed_total s) (slash_history s).

(** arc-types/src/lib.rs: the least power strictly above two thirds. *)
Definition strict_supermajority_threshold (total_power : Z) : Z :=
  if bool_decide (total_power = 0) then 1
  else total_power - (total_power - 1) / 3.

(** The loop of [checked_validator_total_stake], with its accumulators. *)
Fixpoint checked_total_from (seen : gset Address) (total : Z) (vs : list Validator)
    : outcome ConsensusError Z :=
  match vs with
  | [] => Ok total
  | v :: vs' =>
      _ ← require (bool_decide (from_stake (v_stake v) = Some (v_tier v)))
            (InvalidBlock "validator has invalid stake/tier metadata");
      _ ← require (bool_decide (v_address v ∉ seen))
            (InvalidBlock "duplicate validator address in validator set");
      total' ← ok_or (checked_add total (v_stake v))
            (InvalidBlock "total validator stake exceeds u64::MAX");
      checked_total_from ({[v_address v]} ∪ seen) total' vs'
  end.

Definition checked_validator_total_stake (vs : list Validator) : outcome ConsensusError Z :=
  checked_total_from ∅ 0 vs.

(** [.expect(..)] on a [Result]. *)
Definition unwrap {E A} (o : outcome E A) : outcome E A :=
  match o with Ok a => Ok a | _ => Panic end.

(** [ValidatorSet::new]: panics on a set that does not add up. *)
Definition validator_set_new (vs : list Validator) (ep : Z) : outcome ConsensusError ValidatorSet :=
  total ← unwrap (checked_validator_total_stake vs);
  Ok (mkValidatorSet vs total ep (strict_supermajority_threshold total) 0 []).

Definition get_validator (s : ValidatorSet) (a : Address) : option Validator :=
  snd <$> list_find (fun v => v_address v = a) (validators s).

Definition is_validator (s : ValidatorSet) (a : Address) : bool :=
  bool_decide (is_Some (get_validator s a)).

Definition can_produce_blocks (s : ValidatorSet) (a : Address) : bool :=
  match get_validator s a with
  | Some v => tier_can_produce_blocks (v_tier v)
  | None => false
  end.

Definition fault_tolerance_stake (s : ValidatorSet) : Z :=
  saturating_sub (total_stake s) (quorum s).

(** The tallies of the engine.  Both loops add the stake of each distinct known
    address once and abort if the sum leaves [u64]; they differ in whether an
    unknown address enters the set of seen authors. *)
Fixpoint tally_seen_first (s : ValidatorSet) (seen : gset Address) (acc : Z)
    (l : list Address) : outcome ConsensusError (gset Address * Z) :=
  match l with
  | [] => Ok (seen, acc)
  | a :: l' =>
      if bool_decide (a ∈ seen) then tally_seen_first s seen acc l'
      else match get_validator s a with
           | Some v =>
               acc' ← expect (checked_add acc (v_stake v));
               tally_seen_first s ({[a]} ∪ seen) acc' l'
           | None => tally_seen_first s ({[a]} ∪ seen) acc l'
           end
  end.

Fixpoint tally_known_first (s : ValidatorSet) (seen : gset Address) (acc : Z)
    (l : list Address) : outcome ConsensusError (gset Address * Z) :=
  match l with
  | [] => Ok (seen, acc)
  | a :: l' =>
      match get_validator s a with
      | Some v =>
          if bool_decide (a ∈ seen) then tally_known_first s seen acc l'
          else acc' ← expect (checked_add acc (v_stake v));
               tally_known_first s ({[a]} ∪ seen) acc' l'
      | None => tally_known_first s seen acc l'
      end
  end.

Definition stake_for_addresses (s : ValidatorSet) (l : list Address) : outcome ConsensusError Z :=
  r ← tally_seen_first s ∅ 0 l;
  Ok (snd r).

Definition has_quorum (s : ValidatorSet) (l : list Address) : outcome ConsensusError bool :=
  st ← stake_for_addresses s l;
  Ok (bool_decide (quorum s <= st)).

Definition block_producers (s : ValidatorSet) : list Validator :=
  filter (fun v => tier_can_produce_blocks (v_tier v)) (validators s).

Definition slash_rate (t : StakeTier) : Z :=
  match t with
  | Spark => SLASH_RATE_SPARK
  | Arc => SLASH_RATE_ARC
  | Core => SLASH_RATE_CORE
  end.

(** [ValidatorSet::report_offense]: returns the record and the set with the
    record appended. *)
Definition report_offense (s : ValidatorSet) (offender : Address) (offense : SlashableOffense)
    (evidence : Hash256) (round timestamp : Z)
    : outcome ConsensusError (SlashRecord * ValidatorSet) :=
  v ← ok_or (get_validator s offender) (SlashError "validator not found");
  let rate := slash_rate (v_tier v) in
  let slash_amount := (v_stake v * rate / 100) mod (u64_max + 1) in
  new_slashed_total ← ok_or (checked_add (slashed_total s) slash_amount)
    (SlashError "cumulative slashed stake exceeds u64::MAX");
  let record := mkSlashRecord offense offender evidence round timestamp slash_amount in
  Ok (record, s <| slashed_total := new_slashed_total |>
                <| slash_history := slash_history s ++ [record] |>).

(** [iter_mut().find(..)] followed by an update of the element found. *)
Fixpoint update_first (a : Address) (f : Validator -> Validator) (l : list Validator)
    : list Validator :=
  match l with
  | [] => []
  | v :: l' => if bool_decide (v_address v = a) then f v :: l' else v :: update_first a f l'
  end.

(** [ValidatorSet::apply_slash]. *)
Definition apply_slash (s : ValidatorSet) (offender : Address) (slash_amount : Z)
    : outcome ConsensusError ValidatorSet :=
  let vs' :=
    match get_validator s offender with
    | None => validators s
    | Some v =>
        let stake' := saturating_sub (v_stake v) slash_amount in
        if bool_decide (stake' < STAKE_SPARK)
        then filter (fun w => v_address w <> offender) (validators s)
        else update_first offender
               (fun w => w <| v_stake := stake' |>
                           <| v_tier := default Spark (from_stake stake') |>)
               (validators s)
    end in
  total ← unwrap (checked_validator_total_stake vs');
  Ok (s <| validators := vs' |> <| total_stake := total |>
        <| quorum := strict_supermajority_threshold total |>).

(** ** Membership changes of the active set

    The parts of [join_validator], [leave_validator], [update_validator_stake],
    [epoch_transition], [update_validator_set] and [freeze_epoch] that act on
    the validator set; the engine methods wrap them. *)

Definition set_join (s : ValidatorSet) (address stake shard : Z)
    : outcome ConsensusError ValidatorSet :=
  _ ← require (bool_decide (is_Some (from_stake stake)))
        (InvalidBlock "stake below minimum threshold");
  _ ← require (negb (is_validator s address)) (InvalidBlock "address already in validator set");
  _ ← require (bool_decide (length (validators s) < 100)%nat)
        (InvalidBlock "validator set at capacity (100)");
  v ← ok_or (validator_new address stake shard) (InvalidBlock "invalid stake");
  new_total ← ok_or (checked_add (total_stake s) stake)
        (InvalidBlock "total validator stake exceeds u64::MAX");
  Ok (s <| validators := validators s ++ [v] |> <| total_stake := new_total |>
        <| quorum := strict_supermajority_threshold new_total |>).

(** The source writes the shorter list before it recomputes the total; when the total overflows
    it returns with that list in place.  A sublist of a well-formed set never overflows, so the
    error is returned here without the write. *)
Definition set_leave (s : ValidatorSet) (address : Address)
    : outcome ConsensusError (Z * ValidatorSet) :=
  v ← ok_or (get_validator s address) (InvalidBlock "address not in validator set");
  let vs' := filter (fun w => v_address w <> address) (validators s) in
  total ← checked_validator_total_stake vs';
  Ok (v_stake v, s <| validators := vs' |> <| total_stake := total |>
                   <| quorum := strict_supermajority_threshold total |>).

Definition set_update_stake (s : ValidatorSet) (address new_stake : Z)
    : outcome ConsensusError ValidatorSet :=
  _ ← require (bool_decide (is_Some (from_stake new_stake)))
        (InvalidBlock "new stake below minimum threshold");
  v ← ok_or (get_validator s address) (InvalidBlock "address not in validator set");
  new_total ← ok_or (remaining ← checked_sub (total_stake s) (v_stake v);
                     checked_add remaining new_stake)
        (InvalidBlock "total validator stake exceeds u64::MAX");
  Ok (s <| validators := update_first address
             (fun w => w <| v_stake := new_stake |>
                         <| v_tier := default Spark (from_stake new_stake) |>)
             (validators s) |>
        <| total_stake := new_total |>
        <| quorum := strict_supermajority_threshold new_total |>).

(** [vs.epoch += 1] is unchecked in the release profile: it wraps. *)
Definition set_epoch_transition (s : ValidatorSet) : outcome ConsensusError ValidatorSet :=
  total ← unwrap (checked_validator_total_stake (validators s));
  Ok (s <| epoch := (epoch s + 1) mod (u64_max + 1) |> <| total_stake := total |>
        <| quorum := strict_supermajority_threshold total |>).

(** [update_validator_set]: accept a set only with canonical cached values. *)
Definition set_accept (new_set : ValidatorSet) : outcome ConsensusError ValidatorSet :=
  canonical_total ← checked_validator_total_stake (validators new_set);
  let canonical_quorum := strict_supermajority_threshold canonical_total in
  _ ← require (bool_decide (total_stake new_set = canonical_total)
               && bool_decide (quorum new_set = canonical_quorum))
        (InvalidBlock "validator set has non-canonical total stake or quorum");
  Ok new_set.

(** [freeze_epoch]: merge the queued validators and open the next epoch. *)
Fixpoint merge_pending (all pending : list Validator) : list Validator :=
  match pending with
  | [] => all
  | pv :: pending' =>
      let all' := if bool_decide (v_address pv ∈ (v_address <$> all))
                  then update_first (v_address pv) (fun _ => pv) all
                  else all ++ [pv] in
      merge_pending all' pending'
  end.

Definition set_freeze (s : ValidatorSet) (pending : list Validator)
    : outcome ConsensusError ValidatorSet :=
  let all := merge_pending (validators s) pending in
  new_epoch ← expect (checked_add (epoch s) 1);
  validator_set_new all new_epoch.

(** ** The invariant of a validator set *)

Definition vs_wf (s : ValidatorSet) : Prop :=
  checked_validator_total_stake (validators s) = Ok (total_stake s) /\
  quorum s = strict_supermajority_threshold (total_stake s).

Fixpoint stake_sum (l : list Validator) : Z :=
  match l with
  | [] => 0
  | v :: l' => v_stake v + stake_sum l'
  end.

Definition tier_ok (v : Validator) : Prop := from_stake (v_stake v) = Some (v_tier v).

(** What the checked total certifies, without the loop. *)
Definition members_ok (l : list Validator) : Prop :=
  Forall tier_ok l /\ NoDup (v_address <$> l) /\ stake_sum l <= u64_max.

Lemma from_stake_Some stake t : from_stake stake = Some t -> STAKE_SPARK <= stake.
Proof.
  unfold from_stake, STAKE_CORE, STAKE_ARC, STAKE_SPARK.
  repeat case_bool_decide; intros; simplify_eq; lia.
Qed.

Lemma from_stake_is_Some stake : is_Some (from_stake stake) <-> STAKE_SPARK <= stake.
Proof.
  split; [intros [t Ht]; by eapply from_stake_Some|].
  unfold from_stake. repeat case_bool_decide; naive_solver.
Qed.

Lemma tier_ok_stake_pos v : tier_ok v -> 0 < v_stake v.
Proof. intros H%from_stake_Some. unfold STAKE_SPARK in H. lia. Qed.

Lemma stake_sum_nonneg l : Forall tier_ok l -> 0 <= stake_sum l.
Proof. induction 1 as [|v l Hv%tier_ok_stake_pos]; simpl; lia. Qed.

Lemma stake_sum_app l k : stake_sum (l ++ k) = stake_sum l + stake_sum k.
Proof. induction l; simpl; lia. Qed.

Lemma checked_total_from_spec seen t l t' :
  t <= u64_max ->
  checked_total_from seen t l = Ok t' <->
  Forall tier_ok l /\ NoDup (v_address <$> l) /\ (forall v, v ∈ l -> v_address v ∉ seen) /\
  t' = t + stake_sum l /\ t' <= u64_max.
Proof.
  revert seen t. induction l as [|v l IH]; intros seen t Ht.
  { simpl. split; [intros [=]; subst; split_and!; try constructor; [set_solver|lia|lia]|].
    intros (_ & _ & _ & -> & _). f_equal. lia. }
  rewrite fmap_cons. cbn [checked_total_from stake_sum]. split.
  - intros Hrun. inv_ok. split_checked. subst.
    apply IH in Hrun as (Htiers & Hnd & Hseen & -> & Hmax); [|done].
    case_bool_decide; [|done]. case_bool_decide; [|done].
    split_and!; [by constructor| |..| |done].
    + constructor; [|done].
      intros (w & Hw & Hin)%list_elem_of_fmap. apply Hseen in Hin. set_solver.
    + intros w [->|Hin]%elem_of_cons; [done|]. apply Hseen in Hin. set_solver.
    + lia.
  - intros (Htiers & Hnd & Hseen & -> & Hmax).
    apply Forall_cons in Htiers as [Hv Hl]. apply NoDup_cons in Hnd as [Hnin Hnd].
    pose proof (stake_sum_nonneg _ Hl).
    rewrite (bool_decide_true (from_stake _ = _)) by done.
    rewrite (bool_decide_true (_ ∉ _)) by (apply Hseen; set_solver).
    unfold checked_add. rewrite bool_decide_true by lia.
    apply IH; [lia|]. split_and!; try done; [|lia].
    intros w Hin. apply not_elem_of_union. split; [|apply Hseen; set_solver].
    apply not_elem_of_singleton. intros Heq. apply Hnin. rewrite <- Heq.
    apply list_elem_of_fmap. eauto.
Qed.

Lemma checked_total_spec l t :
  checked_validator_total_stake l = Ok t <-> members_ok l /\ t = stake_sum l.
Proof.
  unfold checked_validator_total_stake, members_ok.
  rewrite checked_total_from_spec by (unfold u64_max; lia).
  split.
  - intros (? & ? & _ & -> & ?). split_and!; try done; lia.
  - intros ((? & ? & ?) & ->). split_and!; try done; lia.
Qed.

Lemma vs_wf_members s :
  vs_wf s <-> members_ok (validators s) /\ total_stake s = stake_sum (validators s) /\
            quorum s = strict_supermajority_threshold (total_stake s).
Proof. unfold vs_wf. rewrite checked_total_spec. naive_solver. Qed.

(** ** Stake of a set of addresses *)

Definition stake_in (s : ValidatorSet) (A : gset Address) : Z :=
  stake_sum (filter (fun v => v_address v ∈ A) (validators s)).

Definition addresses (s : ValidatorSet) : gset Address :=
  list_to_set (v_address <$> validators s).

Section stake_in.
Context (s : ValidatorSet) (Hwf : vs_wf s).
Implicit Types A B : gset Address.

Lemma wf_tiers : Forall tier_ok (validators s).
Proof. by apply vs_wf_members in Hwf as [[] _]. Qed.
Lemma wf_nodup : NoDup (v_address <$> validators s).
Proof. by apply vs_wf_members in Hwf as [(?&?&?) _]. Qed.

Lemma stake_in_inter_union A B :
  stake_in s A + stake_in s B = stake_in s (A ∩ B) + stake_in s (A ∪ B).
Proof.
  clear Hwf. unfold stake_in. induction (validators s) as [|v l IH]; [done|].
  rewrite !filter_cons.
  repeat case_decide; simpl in *; try lia; set_solver.
Qed.

Lemma stake_in_mono A B : A ⊆ B -> stake_in s A <= stake_in s B.
Proof.
  intros HAB. pose proof wf_tiers as Ht. clear Hwf. unfold stake_in.
  induction Ht as [|v l Hv Hl IH]; [done|]. apply tier_ok_stake_pos in Hv.
  rewrite !filter_cons. repeat case_decide; simpl in *; try lia.
  set_solver.
Qed.

Lemma stake_in_addresses : stake_in s (addresses s) = total_stake s.
Proof.
  apply vs_wf_members in Hwf as (_ & -> & _).
  unfold stake_in, addresses. f_equal. apply filter_all.
  intros v Hv. by apply elem_of_list_to_set, list_elem_of_fmap_2.
Qed.

Lemma stake_in_known A : stake_in s A = stake_in s (A ∩ addresses s).
Proof.
  unfold stake_in. f_equal. apply filter_ext_in. intros v Hv.
  rewrite elem_of_intersection. split; [|tauto]. split; [done|].
  by apply elem_of_list_to_set, list_elem_of_fmap_2.
Qed.

Lemma stake_in_le_total A : stake_in s A <= total_stake s.
Proof.
  rewrite stake_in_known, <- stake_in_addresses. apply stake_in_mono. set_solver.
Qed.

Lemma stake_in_nonneg A : 0 <= stake_in s A.
Proof.
  transitivity (stake_in s ∅).
  - unfold stake_in. clear. induction (validators s) as [|v l IH]; [done|].
    rewrite filter_cons_False by set_solver. done.
  - apply stake_in_mono. set_solver.
Qed.

Lemma stake_in_empty : stake_in s ∅ = 0.
Proof.
  unfold stake_in. clear. induction (validators s) as [|v l IH]; [done|].
  rewrite filter_cons_False by set_solver. done.
Qed.
End stake_in.

(** ** Lookup of a member *)

Lemma get_validator_Some_in s a v :
  get_validator s a = Some v -> v ∈ validators s /\ v_address v = a.
Proof.
  unfold get_validator. intros ([i w] & Hf & ->)%fmap_Some.
  apply list_find_Some in Hf as (Hi & Ha & _).
  split; [by eapply list_elem_of_lookup_2|done].
Qed.

Lemma get_validator_None s a :
  get_validator s a = None <-> a ∉ addresses s.
Proof.
  unfold get_validator, addresses. rewrite fmap_None, list_find_None, Forall_forall.
  rewrite elem_of_list_to_set, list_elem_of_fmap. naive_solver.
Qed.

Lemma is_validator_Some s a v : get_validator s a = Some v -> is_validator s a = true.
Proof. intros Hv. apply bool_decide_eq_true. eauto. Qed.

Lemma NoDup_fmap_inj_elem {A B} (f : A -> B) (l : list A) x y :
  NoDup (f <$> l) -> x ∈ l -> y ∈ l -> f x = f y -> x = y.
Proof.
  induction l as [|z l IH]; [set_solver|]. rewrite fmap_cons.
  intros [Hz Hl]%NoDup_cons [->|Hx]%elem_of_cons [->|Hy]%elem_of_cons Hf; [done|..].
  - destruct Hz. rewrite Hf. by apply list_elem_of_fmap_2.
  - destruct Hz. rewrite <- Hf. by apply list_elem_of_fmap_2.
  - by apply IH.
Qed.

Lemma get_validator_Some s a v :
  vs_wf s -> get_validator s a = Some v <-> v ∈ validators s /\ v_address v = a.
Proof.
  intros Hwf. split; [apply get_validator_Some_in|]. intros [Hin Ha].
  destruct (get_validator s a) as [w|] eqn:Hw.
  - apply get_validator_Some_in in Hw as [Hin' Ha']. f_equal.
    eapply (NoDup_fmap_inj_elem v_address); [by apply wf_nodup|done..|congruence].
  - apply get_validator_None in Hw. destruct Hw. unfold addresses.
    apply elem_of_list_to_set, list_elem_of_fmap. eauto.
Qed.

Lemma stake_in_unknown s a A :
  get_validator s a = None -> stake_in s ({[a]} ∪ A) = stake_in s A.
Proof.
  intros Ha%get_validator_None. rewrite stake_in_known, (stake_in_known _ A).
  f_equal. set_solver.
Qed.

Lemma filter_address_singleton l a v :
  NoDup (v_address <$> l) -> v ∈ l -> v_address v = a ->
  filter (fun w => v_address w ∈ ({[a]} : gset Address)) l = [v].
Proof.
  induction l as [|w l IH]; [set_solver|]. rewrite fmap_cons.
  intros [Hw Hl]%NoDup_cons Hin Ha. rewrite filter_cons.
  apply elem_of_cons in Hin as [->|Hin].
  - rewrite decide_True by set_solver. f_equal.
    apply filter_none. intros u Hu Hua. apply Hw.
    apply list_elem_of_fmap. exists u. set_solver.
  - rewrite decide_False; [by apply IH|]. intros Hwa. apply Hw.
    apply list_elem_of_fmap. exists v. set_solver.
Qed.

Lemma stake_in_singleton s a v :
  vs_wf s -> get_validator s a = Some v -> stake_in s {[a]} = v_stake v.
Proof.
  intros Hwf [Hin Ha]%get_validator_Some_in. unfold stake_in.
  rewrite (filter_address_singleton _ _ v); [simpl; lia|by apply wf_nodup|done..].
Qed.

Lemma stake_in_insert s a v A :
  vs_wf s -> get_validator s a = Some v -> a ∉ A ->
  stake_in s ({[a]} ∪ A) = v_stake v + stake_in s A.
Proof.
  intros Hwf Hv Ha. rewrite <- (stake_in_singleton s a v) by done.
  pose proof (stake_in_inter_union s {[a]} A) as Hsum.
  assert ({[a]} ∩ A = ∅) as Hdisj by set_solver.
  rewrite Hdisj, (stake_in_empty s) in Hsum. lia.
Qed.

(** ** The tallies compute [stake_in], and never abort on a well-formed set *)

Lemma list_to_set_cons_union (a : Address) (l : list Address) (A : gset Address) :
  {[a]} ∪ A ∪ list_to_set l = A ∪ list_to_set (a :: l).
Proof. set_solver. Qed.

Lemma tally_seen_first_spec s seen l :
  vs_wf s ->
  tally_seen_first s seen (stake_in s seen) l =
    Ok (seen ∪ list_to_set l, stake_in s (seen ∪ list_to_set l)).
Proof.
  intros Hwf. revert seen. induction l as [|a l IH]; intros seen; cbn [tally_seen_first].
  { by rewrite list_to_set_nil, union_empty_r_L. }
  case_bool_decide as Ha.
  { rewrite IH. replace (seen ∪ list_to_set (a :: l)) with (seen ∪ list_to_set l : gset Address)
      by set_solver. done. }
  rewrite <- list_to_set_cons_union. destruct (get_validator s a) as [v|] eqn:Hv.
  - pose proof (stake_in_insert s a v seen Hwf Hv Ha) as Hins.
    pose proof (stake_in_le_total s Hwf ({[a]} ∪ seen)).
    apply vs_wf_members in Hwf as Hm. destruct Hm as ((_ & _ & Hmax) & Htot & _).
    unfold checked_add. rewrite bool_decide_true by lia. simpl.
    rewrite (Z.add_comm _ (v_stake v)), <- Hins. apply IH.
  - rewrite <- (stake_in_unknown s a seen) by done. apply IH.
Qed.

Lemma known_step (a : Address) (A B L : gset Address) :
  a ∈ B -> a ∈ A -> A ∪ L ∩ B = A ∪ ({[a]} ∪ L) ∩ B.
Proof. set_solver. Qed.

Lemma known_step_new (a : Address) (A B L : gset Address) :
  a ∈ B -> {[a]} ∪ A ∪ L ∩ B = A ∪ ({[a]} ∪ L) ∩ B.
Proof. set_solver. Qed.

Lemma known_step_skip (a : Address) (A B L : gset Address) :
  a ∉ B -> A ∪ L ∩ B = A ∪ ({[a]} ∪ L) ∩ B.
Proof. set_solver. Qed.

Lemma tally_known_first_spec s seen l :
  vs_wf s ->
  exists seen',
    tally_known_first s seen (stake_in s seen) l =
      Ok (seen', stake_in s (seen ∪ list_to_set l)) /\
    seen' = seen ∪ (list_to_set l ∩ addresses s).
Proof.
  intros Hwf. revert seen. induction l as [|a l IH]; intros seen; cbn [tally_known_first].
  { exists seen. rewrite list_to_set_nil, union_empty_r_L. split; [done|set_solver]. }
  destruct (get_validator s a) as [v|] eqn:Hv.
  - assert (a ∈ addresses s).
    { destruct (decide (a ∈ addresses s)); [done|].
      by apply get_validator_None in n; rewrite n in Hv. }
    case_bool_decide as Ha.
    { replace (seen ∪ list_to_set (a :: l)) with (seen ∪ list_to_set l : gset Address)
        by set_solver.
      destruct (IH seen) as (seen' & -> & ->). eexists. split; [done|by apply known_step]. }
    pose proof (stake_in_insert s a v seen Hwf Hv Ha) as Hins.
    pose proof (stake_in_le_total s Hwf ({[a]} ∪ seen)).
    apply vs_wf_members in Hwf as Hm. destruct Hm as ((_ & _ & Hmax) & Htot & _).
    rewrite <- list_to_set_cons_union.
    unfold checked_add. rewrite bool_decide_true by lia. simpl.
    rewrite (Z.add_comm _ (v_stake v)), <- Hins.
    destruct (IH ({[a]} ∪ seen)) as (seen' & -> & ->). eexists.
    split; [done|by apply known_step_new].
  - replace (seen ∪ list_to_set (a :: l)) with ({[a]} ∪ (seen ∪ list_to_set l) : gset Address)
      by set_solver.
    rewrite (stake_in_unknown s a) by done. apply get_validator_None in Hv.
    destruct (IH seen) as (seen' & -> & ->). eexists. split; [done|by apply known_step_skip].
Qed.

Lemma stake_for_addresses_spec s l :
  vs_wf s -> stake_for_addresses s l = Ok (stake_in s (list_to_set l)).
Proof.
  intros Hwf. unfold stake_for_addresses. rewrite <- (stake_in_empty s) at 1.
  rewrite tally_seen_first_spec by done. simpl. by rewrite union_empty_l_L.
Qed.

(** ** Members that change *)

Lemma update_first_addresses a f l :
  (forall v, v_address v = a -> v_address (f v) = a) ->
  v_address <$> update_first a f l = v_address <$> l.
Proof.
  intros Hf. induction l as [|v l IH]; [done|]. cbn [update_first].
  case_bool_decide as Ha; rewrite !fmap_cons; [by rewrite (Hf v Ha), Ha|by rewrite IH].
Qed.

Lemma update_first_Forall (P : Validator -> Prop) a f l :
  Forall P l -> (forall v, v_address v = a -> P (f v)) -> Forall P (update_first a f l).
Proof.
  intros Hl Hf. induction Hl as [|v l Hv Hl IH]; cbn [update_first]; [done|].
  case_bool_decide; constructor; auto.
Qed.

Lemma update_first_sum s a v x f :
  get_validator s a = Some v -> (forall w, v_stake (f w) = x) ->
  stake_sum (update_first a f (validators s)) = stake_sum (validators s) - v_stake v + x.
Proof.
  unfold get_validator. intros ([i w] & Hfind & ->)%fmap_Some Hf. simpl.
  apply list_find_Some in Hfind as (Hi & Ha & Hfirst).
  revert i Hi Hfirst. induction (validators s) as [|u l IH]; intros i Hi Hfirst; [done|].
  cbn [update_first]. destruct i as [|i]; simpl in Hi.
  - simplify_eq. rewrite bool_decide_true by done. simpl. rewrite Hf. lia.
  - rewrite bool_decide_false by (apply (Hfirst 0%nat u); [done|lia]). simpl.
    rewrite (IH i); [lia|done|]. intros j y Hj Hlt. apply (Hfirst (S j)); [done|lia].
Qed.

Lemma members_ok_filter (P : Validator -> Prop) `{!forall v, Decision (P v)} l :
  members_ok l -> members_ok (filter P l) /\ stake_sum (filter P l) <= stake_sum l.
Proof.
  intros (Ht & Hnd & Hmax).
  assert (stake_sum (filter P l) <= stake_sum l) as Hle.
  { clear -Ht. induction Ht as [|v l Hv%tier_ok_stake_pos Hl IH]; [done|].
    rewrite filter_cons. case_decide; simpl; lia. }
  split; [|done]. split_and!; [| |lia].
  { rewrite Forall_forall in *. intros v [_ Hv]%list_elem_of_filter. by apply Ht. }
  clear -Hnd. induction l as [|v l IH]; [done|].
  rewrite fmap_cons in Hnd. apply NoDup_cons in Hnd as [Hv Hl].
  rewrite filter_cons. case_decide; [|by apply IH].
  rewrite fmap_cons. apply NoDup_cons. split; [|by apply IH].
  intros (w & Hw & Hin)%list_elem_of_fmap. apply list_elem_of_filter in Hin as [_ Hin].
  apply Hv, list_elem_of_fmap. eauto.
Qed.

(** Setting the stake of one member to an amount with a tier keeps the members
    in order as long as the total still fits. *)
Lemma members_ok_set_stake s a v x :
  vs_wf s -> get_validator s a = Some v -> STAKE_SPARK <= x ->
  total_stake s - v_stake v + x <= u64_max ->
  let l := update_first a (fun w => w <| v_stake := x |>
                                      <| v_tier := default Spark (from_stake x) |>)
             (validators s) in
  members_ok l /\ stake_sum l = total_stake s - v_stake v + x.
Proof.
  intros (Hm & Htot & _)%vs_wf_members Hv [t Ht]%from_stake_is_Some Hmax l.
  destruct Hm as (Htiers & Hnd & _).
  assert (stake_sum l = total_stake s - v_stake v + x) as Hsum.
  { subst l. rewrite (update_first_sum s a v x) by done. lia. }
  split; [|done]. split_and!; [| |lia].
  - subst l. apply update_first_Forall; [done|]. intros w _. unfold tier_ok. simpl.
    by rewrite Ht.
  - subst l. by rewrite update_first_addresses.
Qed.

Lemma checked_total_members l :
  members_ok l -> checked_validator_total_stake l = Ok (stake_sum l).
Proof. intros ?. by apply checked_total_spec. Qed.

(** ** Slashing *)

Lemma report_offense_no_panic s offender offense evidence rnd ts :
  report_offense s offender offense evidence rnd ts <> Panic.
Proof. unfold report_offense. no_panic. Qed.

Lemma report_offense_amount s offender offense evidence rnd ts record s' :
  report_offense s offender offense evidence rnd ts = Ok (record, s') -> 0 <= sr_slash_amount record.
Proof.
  unfold report_offense. intros Hr. inv_ok. apply Z.mod_pos_bound. unfold u64_max. lia.
Qed.

(** The validators after a slash, as [apply_slash] computes them. *)
Lemma slashed_members_ok s offender amount :
  vs_wf s -> 0 <= amount ->
  exists s', apply_slash s offender amount = Ok s' /\ vs_wf s' /\
    total_stake s' <= total_stake s.
Proof.
  intros Hwf Hamt. apply vs_wf_members in Hwf as Hm. destruct Hm as (Hm & Htot & Hq).
  unfold apply_slash. destruct (get_validator s offender) as [v|] eqn:Hv.
  2:{ rewrite (checked_total_members _ Hm). simpl. eexists. split; [done|].
      rewrite vs_wf_members. simpl. split_and!; [done..|lia]. }
  apply get_validator_Some_in in Hv as Hin. destruct Hin as [Hin _].
  assert (0 < v_stake v) as Hpos.
  { apply tier_ok_stake_pos. destruct Hm as (Ht & _).
    rewrite Forall_forall in Ht. by apply Ht. }
  case_bool_decide as Hlow.
  - destruct (members_ok_filter (fun w => v_address w <> offender) _ Hm) as [Hm' Hle].
    rewrite (checked_total_members _ Hm'). simpl. eexists. split; [done|].
    rewrite vs_wf_members. simpl. split_and!; [done..|lia].
  - unfold saturating_sub in *.
    destruct (members_ok_set_stake s offender v (Z.max 0 (v_stake v - amount)))
      as [Hm' Hsum]; [done..|lia|destruct Hm as (_ & _ & ?); lia|].
    rewrite (checked_total_members _ Hm'). eexists. split; [done|].
    rewrite vs_wf_members. simpl in *. rewrite Hsum in *. split_and!; [done..|lia].
Qed.

(** The lookup, on the list of members. *)
Definition find_member (l : list Validator) (a : Address) : option Validator :=
  snd <$> list_find (fun v => v_address v = a) l.

Lemma find_member_cons v l a :
  find_member (v :: l) a = if decide (v_address v = a) then Some v else find_member l a.
Proof.
  unfold find_member. cbn [list_find]. case_decide; [done|].
  by destruct (list_find _ l) as [[]|].
Qed.

Lemma find_member_filter_ne a b l :
  find_member (filter (fun w => v_address w <> a) l) b =
  if decide (b = a) then None else find_member l b.
Proof.
  induction l as [|v l IH]; [by case_decide|].
  rewrite filter_cons, (find_member_cons v l).
  destruct (decide (v_address v = a)) as [Ha|Ha].
  - rewrite decide_False, IH by tauto. repeat case_decide; naive_solver.
  - rewrite decide_True, find_member_cons, IH by done. repeat case_decide; naive_solver.
Qed.

Lemma find_member_update_first a f b l :
  (forall v, v_address v = a -> v_address (f v) = a) ->
  find_member (update_first a f l) b =
  if decide (b = a) then f <$> find_member l a else find_member l b.
Proof.
  intros Hf. induction l as [|v l IH]; cbn [update_first]; [by case_decide|].
  case_bool_decide as Hv; rewrite !find_member_cons, ?IH;
    repeat case_decide; subst; rewrite ?Hf in *; naive_solver.
Qed.

(** ** Reachable validator sets *)

Inductive set_change : ValidatorSet -> ValidatorSet -> Prop :=
| change_report s offender offense evidence round timestamp record s' :
    report_offense s offender offense evidence round timestamp = Ok (record, s') ->
    set_change s s'
| change_slash s offender amount s' :
    apply_slash s offender amount = Ok s' -> set_change s s'
| change_join s address stake shard s' :
    set_join s address stake shard = Ok s' -> set_change s s'
| change_leave s address stake s' :
    set_leave s address = Ok (stake, s') -> set_change s s'
| change_stake s address new_stake s' :
    set_update_stake s address new_stake = Ok s' -> set_change s s'
| change_epoch s s' :
    set_epoch_transition s = Ok s' -> set_change s s'
| change_accept s new_set s' :
    set_accept new_set = Ok s' -> set_change s s'
| change_freeze s pending s' :
    set_freeze s pending = Ok s' -> set_change s s'.

Lemma unwrap_Ok {E A} (o : outcome E A) a : unwrap o = Ok a -> o = Ok a.
Proof. destruct o; naive_solver. Qed.

Lemma validator_set_new_wf l ep s : validator_set_new l ep = Ok s -> vs_wf s.
Proof. unfold validator_set_new. intros (t & Ht%unwrap_Ok & [= <-])%bind_Ok. by split. Qed.

Lemma set_join_wf s a stake shard s' :
  vs_wf s -> set_join s a stake shard = Ok s' -> vs_wf s'.
Proof.
  intros Hwf Hj. unfold set_join in Hj. inv_ok. split_checked. subst.
  rename select (negb _ = true) into Hnew. rename select (validator_new _ _ _ = _) into Hv.
  apply negb_true_iff, bool_decide_eq_false, eq_None_not_Some, get_validator_None in Hnew.
  apply vs_wf_members in Hwf as ((Ht & Hnd & Hmax) & Htot & Hq).
  unfold validator_new in Hv. destruct (from_stake stake) as [t|] eqn:Htier; [|done].
  simplify_eq. rewrite vs_wf_members. simpl. unfold members_ok.
  rewrite stake_sum_app, fmap_app. simpl. split_and!; [| |lia|lia|done].
  - apply Forall_app. split; [done|]. by repeat constructor.
  - apply NoDup_app. split_and!; [done| |apply NoDup_singleton].
    intros x Hx Hx'. apply list_elem_of_singleton in Hx' as ->.
    destruct Hnew. by apply elem_of_list_to_set.
Qed.

Lemma set_update_stake_wf s a x s' :
  vs_wf s -> set_update_stake s a x = Ok s' -> vs_wf s'.
Proof.
  intros Hwf Hu. unfold set_update_stake in Hu. inv_ok.
  rename select (bool_decide _ = true) into Htier. rename select (_ ≫= _ = Some _) into Htot.
  rename select (get_validator _ _ = _) into Hv.
  apply bool_decide_eq_true, from_stake_is_Some in Htier.
  apply bind_Some in Htot as (y & Hsub & Hadd). split_checked. subst.
  destruct (members_ok_set_stake s a _ x Hwf Hv Htier) as [Hm Hsum]; [lia|].
  rewrite vs_wf_members. simpl in *. split_and!; [done|lia|done].
Qed.

Lemma set_change_wf s s' : vs_wf s -> set_change s s' -> vs_wf s'.
Proof.
  intros Hwf Hc. destruct Hc.
  - unfold report_offense in *. inv_ok. split; apply Hwf.
  - unfold apply_slash in *. inv_ok. rename select (unwrap _ = _) into Hu.
    apply unwrap_Ok in Hu. by split.
  - by eapply set_join_wf.
  - unfold set_leave in *. inv_ok. by split.
  - by eapply set_update_stake_wf.
  - unfold set_epoch_transition in *. inv_ok. rename select (unwrap _ = _) into Hu.
    apply unwrap_Ok in Hu. by split.
  - unfold set_accept in *. inv_ok. rename select (_ && _ = true) into Hcan.
    apply andb_true_iff in Hcan as [Ht%bool_decide_eq_true Hq%bool_decide_eq_true].
    split; congruence.
  - unfold set_freeze in *. inv_ok. by eapply validator_set_new_wf.
Qed.

Lemma reachable_wf l ep s0 s :
  validator_set_new l ep = Ok s0 -> rtc set_change s0 s -> vs_wf s.
Proof.
  intros Hnew%validator_set_new_wf Hr. induction Hr as [|s0 s1 s Hc _ IH]; [done|].
  by eapply IH, set_change_wf.
Qed.

(** ** Quorums *)

Lemma threshold_spec t :
  0 <= t -> let q := strict_supermajority_threshold t in
  1 <= q <= Z.max 1 t /\ 2 * t < 3 * q /\ 3 * (q - 1) <= 2 * t.
Proof.
  intros Ht. unfold strict_supermajority_threshold. case_bool_decide; [lia|].
  pose proof (Z.div_mod (t - 1) 3). pose proof (Z.mod_pos_bound (t - 1) 3). lia.
Qed.

Lemma wf_total_bounds s : vs_wf s -> u64 (total_stake s).
Proof.
  intros ((Ht & _ & Hmax) & -> & _)%vs_wf_members.
  pose proof (stake_sum_nonneg _ Ht). unfold u64. lia.
Qed.

Lemma wf_quorum_bounds s :
  vs_wf s -> 1 <= quorum s /\ 2 * total_stake s < 3 * quorum s.
Proof.
  intros Hwf. destruct (wf_total_bounds s Hwf) as [Ht _].
  apply vs_wf_members in Hwf as (_ & _ & ->).
  pose proof (threshold_spec _ Ht) as H. simpl in H. lia.
Qed.

Lemma has_quorum_spec s l :
  vs_wf s -> has_quorum s l = Ok (bool_decide (quorum s <= stake_in s (list_to_set l))).
Proof. intros Hwf. unfold has_quorum. by rewrite stake_for_addresses_spec. Qed.

(** Two sets of addresses that both hold a quorum overlap in more stake than the
    set tolerates to lose. *)
Lemma quorum_overlap s (A B : gset Address) :
  vs_wf s -> quorum s <= stake_in s A -> quorum s <= stake_in s B ->
  fault_tolerance_stake s < stake_in s (A ∩ B).
Proof.
  intros Hwf HA HB. pose proof (stake_in_inter_union s A B).
  pose proof (stake_in_le_total s Hwf (A ∪ B)). destruct (wf_quorum_bounds s Hwf).
  unfold fault_tolerance_stake, saturating_sub. lia.
Qed.

(** More stake than the Byzantine validators hold contains a validator that is not
    Byzantine. *)
Lemma outweighs_exists s (A byz : gset Address) :
  vs_wf s -> stake_in s byz < stake_in s A ->
  exists a, a ∈ A /\ a ∈ addresses s /\ a ∉ byz.
Proof.
  intros Hwf Hlt. destruct (decide ((A ∩ addresses s) ∖ byz = ∅)) as [He|He].
  - assert (A ∩ addresses s ⊆ byz) as Hsub.
    { intros a Ha. destruct (decide (a ∈ byz)); [done|].
      assert (a ∈ (A ∩ addresses s) ∖ byz) as Hc by (by apply elem_of_difference).
      rewrite He in Hc. set_solver. }
    rewrite (stake_in_known _ A) in Hlt. apply (stake_in_mono s Hwf) in Hsub. lia.
  - apply set_choose_L in He as [a Ha]. exists a. set_solver.
Qed.

Lemma honest_in_both s (A B byz : gset Address) :
  vs_wf s -> stake_in s byz <= fault_tolerance_stake s ->
  quorum s <= stake_in s A -> quorum s <= stake_in s B ->
  exists a, a ∈ A /\ a ∈ B /\ a ∈ addresses s /\ a ∉ byz.
Proof.
  intros Hwf Hbyz HA HB. pose proof (quorum_overlap s A B Hwf HA HB).
  destruct (outweighs_exists s (A ∩ B) byz Hwf) as (a & Ha & ? & ?); [lia|].
  exists a. set_solver.
Qed.

(** ** The theorems *)

Module DemoSet.

(** Four equal Arc-tier validators. *)
Definition four : list Validator :=
  [mkValidator 1 10000000 Arc 0; mkValidator 2 10000000 Arc 0;
   mkValidator 3 10000000 Arc 0; mkValidator 4 10000000 Arc 0].

Definition four_set : ValidatorSet :=
  mkValidatorSet four 40000000 1 26666667 0 [].

Lemma four_set_new : validator_set_new four 1 = Ok four_set.
Proof. vm_compute. reflexivity. Qed.

Lemma four_set_wf : vs_wf four_set.
Proof. exact (validator_set_new_wf _ _ _ four_set_new). Qed.

End DemoSet.

(** [strict_supermajority_threshold] of any [u64] power is
    the least [u64] strictly above two thirds of it (1 for an empty set), computed
    without leaving the machine width. *)
Theorem supermajority_threshold_exact (t : Z) (Ht : u64 t) :
  let q := strict_supermajority_threshold t in
  u64 q /\ 2 * t < 3 * q /\ forall q', 2 * t < 3 * q' -> q <= q'.
Proof.
  unfold u64 in *. pose proof (threshold_spec t) as H. simpl in *.
  assert (0 < u64_max) by (unfold u64_max; lia).
  split; [lia|]. split; [lia|]. intros q' Hq'. lia.
Qed.

Lemma supermajority_threshold_exact_witness :
  strict_supermajority_threshold u64_max = 12297829382473034411 /\
  u64 (strict_supermajority_threshold u64_max).
Proof.
  split; [reflexivity|].
  apply (supermajority_threshold_exact u64_max). unfold u64, u64_max. lia.
Defined.

(** On a well-formed validator set two lists of authors that
    both pass [has_quorum] share distinct members whose stake exceeds
    [fault_tolerance_stake]; so when the Byzantine validators hold no more than
    that stake, some validator that is not Byzantine is in both lists. *)
Theorem quorum_intersection (s : ValidatorSet) (l1 l2 : list Address) (byz : gset Address)
  (Hwf : vs_wf s) (H1 : has_quorum s l1 = Ok true) (H2 : has_quorum s l2 = Ok true)
  (Hbyz : stake_in s byz <= fault_tolerance_stake s) :
  fault_tolerance_stake s < stake_in s (list_to_set l1 ∩ list_to_set l2) /\
  exists a, a ∈ l1 /\ a ∈ l2 /\ is_validator s a = true /\ a ∉ byz.
Proof.
  rewrite has_quorum_spec in H1, H2 by done. injection H1 as H1%bool_decide_eq_true.
  injection H2 as H2%bool_decide_eq_true. split; [by apply quorum_overlap|].
  destruct (honest_in_both s _ _ byz Hwf Hbyz H1 H2) as (a & Ha1 & Ha2 & Ha & Hb).
  exists a. split_and!; [by apply elem_of_list_to_set in Ha1|by apply elem_of_list_to_set in Ha2| |done].
  apply bool_decide_eq_true. destruct (get_validator s a) eqn:Hv; [by eexists|].
  by apply get_validator_None in Hv.
Qed.

Lemma quorum_intersection_witness :
  fault_tolerance_stake DemoSet.four_set <
    stake_in DemoSet.four_set (list_to_set [1; 2; 3] ∩ list_to_set [2; 3; 4]) /\
  exists a, a ∈ [1; 2; 3] /\ a ∈ [2; 3; 4] /\
    is_validator DemoSet.four_set a = true /\ a ∉ ({[2]} : gset Address).
Proof.
  apply (quorum_intersection DemoSet.four_set).
  - apply DemoSet.four_set_wf.
  - vm_compute. reflexivity.
  - vm_compute. reflexivity.
  - apply (bool_decide_unpack _). vm_compute. exact I.
Defined.

(** C28: every validator set reached from [ValidatorSet::new]
    by reports, slashes, joins, leaves, stake updates, epoch transitions, accepted
    replacements and epoch freezes, in any order, keeps its members distinct and
    tiered and its cached total and quorum canonical; on it the tally behind
    [has_quorum] and [apply_slash] never abort, and a slash never raises the
    total. *)
Theorem validator_set_reachable_ok (l : list Validator) (ep : Z) (s0 s : ValidatorSet)
  (Hnew : validator_set_new l ep = Ok s0) (Hreach : rtc set_change s0 s) :
  vs_wf s /\ NoDup (v_address <$> validators s) /\
  total_stake s = stake_sum (validators s) /\ u64 (total_stake s) /\
  (forall l, has_quorum s l = Ok (bool_decide (quorum s <= stake_in s (list_to_set l)))) /\
  (forall offender amount, 0 <= amount ->
     exists s', apply_slash s offender amount = Ok s' /\ total_stake s' <= total_stake s).
Proof.
  pose proof (reachable_wf _ _ _ _ Hnew Hreach) as Hwf.
  split; [done|]. split; [by apply wf_nodup|]. split; [by apply vs_wf_members in Hwf as (_ & ? & _)|].
  split; [by apply wf_total_bounds|]. split; [intros; by apply has_quorum_spec|].
  intros offender amount Hamt.
  destruct (slashed_members_ok s offender amount Hwf Hamt) as (s' & ? & _ & ?). eauto.
Qed.

Lemma validator_set_reachable_ok_witness :
  exists s, rtc set_change DemoSet.four_set s /\ vs_wf s /\ length (validators s) = 3%nat.
Proof.
  assert (exists s, rtc set_change DemoSet.four_set s /\ length (validators s) = 3%nat)
    as (s & Hr & Hlen).
  { eexists. split.
    - eapply rtc_l; [eapply (change_slash _ 3 9900000); vm_compute; reflexivity|].
      eapply rtc_l; [eapply change_epoch; vm_compute; reflexivity|apply rtc_refl].
    - reflexivity. }
  exists s. split; [exact Hr|]. split; [|exact Hlen].
  exact (proj1 (validator_set_reachable_ok DemoSet.four 1 _ _ DemoSet.four_set_new Hr)).
Defined.

(** [apply_slash] on a well-formed set lowers exactly the
    offender: the offender keeps [stake - amount] with the tier of that stake, or
    leaves the set when that is below the Spark minimum; every other validator is
    looked up as before. *)
Theorem apply_slash_effect (s s' : ValidatorSet) (a : Address) (v : Validator) (amount : Z)
  (Hv : get_validator s a = Some v) (Hs : apply_slash s a amount = Ok s') :
  (forall b, b <> a -> get_validator s' b = get_validator s b) /\
  get_validator s' a =
    if bool_decide (Z.max 0 (v_stake v - amount) < STAKE_SPARK) then None
    else t ← from_stake (Z.max 0 (v_stake v - amount));
         Some (mkValidator a (Z.max 0 (v_stake v - amount)) t (v_shard v)).
Proof.
  unfold apply_slash in Hs. rewrite Hv in Hs. inv_ok. clear H.
  change (get_validator ?s ?b) with (find_member (validators s) b) in *. simpl.
  apply get_validator_Some_in in Hv as Ha. destruct Ha as [_ Ha].
  unfold saturating_sub in *. case_bool_decide as Hlow.
  - split; [|by rewrite find_member_filter_ne, decide_True].
    intros b Hb. by rewrite find_member_filter_ne, decide_False.
  - split.
    + intros b Hb. by rewrite find_member_update_first, decide_False.
    + rewrite find_member_update_first, decide_True by done.
      change (get_validator ?s ?b) with (find_member (validators s) b) in Hv.
      rewrite Hv. simpl. destruct (from_stake _) as [t|] eqn:Ht; simpl; [by rewrite Ha|].
      apply Z.nlt_ge, from_stake_is_Some in Hlow as [??]. congruence.
Qed.

Lemma apply_slash_effect_witness :
  exists s', apply_slash DemoSet.four_set 2 6000000 = Ok s' /\
    get_validator s' 2 = Some (mkValidator 2 4000000 Spark 0) /\
    get_validator s' 3 = get_validator DemoSet.four_set 3.
Proof.
  eexists. split; [vm_compute; reflexivity|].
  destruct (apply_slash_effect DemoSet.four_set _ 2 (mkValidator 2 10000000 Arc 0) 6000000
              eq_refl eq_refl) as [Hb Ha].
  split; [exact Ha|apply Hb; lia].
Defined.
