(* ===== verification/Dag.v ===== *)
(** * DAG blocks (crates/arc-consensus/src/lib.rs lines 431-661)

    The block of the DAG with its content hash (plain and bound to a recovery
    domain), its canonical transaction ordering, and the decision commitment
    that the state layer stores for a committed anchor.  The binding theorems say
    that equal hashes mean equal contents unless BLAKE3 collides. *)

From S2P Require Import Prelude Crypto Validators.

Record ConsensusDomain := mkConsensusDomain {
  domain_hash : Hash256;
  recovery_epoch : Z;
  validator_set_id : Z;
}.

#[global] Instance ConsensusDomain_eq_dec : EqDecision ConsensusDomain.
Proof. solve_decision. Defined.

Record DagBlock := mkDagBlock {
  author : Address;
  round : Z;
  parents : list Hash256;
  transactions : list Hash256;
  timestamp : Z;
  hash : Hash256;
  signature : list Z;
  ordering_commitment : Hash256;
}.

#[global] Instance DagBlock_eq_dec : EqDecision DagBlock.
Proof. solve_decision. Defined.

#[global] Instance eta_DagBlock : Eta DagBlock := fun b =>
  mkDagBlock (author b) (round b) (parents b) (transactions b) (timestamp b) (hash b)
    (signature b) (ordering_commitment b).

Record EquivocationProof := mkEquivocationProof {
  ep_author : Address;
  ep_round : Z;
  ep_block1_hash : Hash256;
  ep_block2_hash : Hash256;
}.

(** A structural container: only the stake threshold is examined. *)
Record FinalityProof := mkFinalityProof {
  fp_block_hash : Hash256;
  fp_round : Z;
  fp_height : Z;
  fp_quorum_signatures : list (Address * list Z);
  fp_signing_stake : Z;
  fp_total_stake : Z;
}.

Definition has_sufficient_stake (p : FinalityProof) : bool :=
  bool_decide (strict_supermajority_threshold (fp_total_stake p) <= fp_signing_stake p).

Section Dag.
Context `{Crypto}.

(** The bytes both hash functions feed after their own prefix. *)
Definition block_bytes (b : DagBlock) : list Z :=
  hash_to_bytes (author b) ++ u64_le (round b) ++
  hashes_to_bytes (parents b) ++ hashes_to_bytes (transactions b) ++
  u64_le (timestamp b) ++ hash_to_bytes (ordering_commitment b).

Definition dag_domain_bytes (d : ConsensusDomain) : list Z :=
  hash_to_bytes (domain_hash d) ++ u64_be (recovery_epoch d) ++ u64_be (validator_set_id d).

Definition compute_hash (b : DagBlock) : Hash256 :=
  blake3_derive_key "ARC-dag-block-v1" (block_bytes b).

Definition compute_hash_in_domain (b : DagBlock) (d : ConsensusDomain) : Hash256 :=
  blake3_derive_key "ARC-dag-block-v3" (dag_domain_bytes d ++ block_bytes b).

Definition decision_commitment (d : ConsensusDomain) (anchor : Hash256) (rnd : Z) : Hash256 :=
  blake3_derive_key "ARC-dag-state-decision-v3"
    (dag_domain_bytes d ++ hash_to_bytes anchor ++ u64_be rnd).

Definition state_decision_commitment (b : DagBlock) (d : ConsensusDomain) : Hash256 :=
  decision_commitment d (hash b) (round b).

Definition compute_ordering_commitment (txs : list Hash256) : Hash256 :=
  blake3_derive_key "ARC-ordering-commitment-v1" (hashes_to_bytes txs).

Definition verify_hash (b : DagBlock) : bool := bool_decide (hash b = compute_hash b).

Definition verify_hash_in_domain (b : DagBlock) (d : ConsensusDomain) : bool :=
  bool_decide (hash b = compute_hash_in_domain b d).

Definition verify_ordering (b : DagBlock) : bool :=
  if windows_sorted (transactions b)
  then bool_decide (ordering_commitment b = compute_ordering_commitment (transactions b))
  else false.

(** The hash the engine computes for a block, and its check, in the mode the
    engine runs in. *)
Definition block_hash_in (dom : option ConsensusDomain) (b : DagBlock) : Hash256 :=
  match dom with
  | Some d => compute_hash_in_domain b d
  | None => compute_hash b
  end.

Definition verify_hash_in (dom : option ConsensusDomain) (b : DagBlock) : bool :=
  match dom with
  | Some d => verify_hash_in_domain b d
  | None => verify_hash b
  end.

Lemma verify_hash_in_spec dom b :
  verify_hash_in dom b = bool_decide (hash b = block_hash_in dom b).
Proof. by destruct dom. Qed.

(** ** Ranges
    What the Rust types guarantee of a block and of a domain. *)

Definition block_ok (b : DagBlock) : Prop :=
  hash256 (author b) /\ u64 (round b) /\ Forall hash256 (parents b) /\
  Forall hash256 (transactions b) /\ u64 (timestamp b) /\ hash256 (ordering_commitment b).

Definition domain_ok (d : ConsensusDomain) : Prop :=
  hash256 (domain_hash d) /\ u64 (recovery_epoch d) /\ u64 (validator_set_id d).

(** ** Binding *)

Lemma length_dag_domain_bytes d : length (dag_domain_bytes d) = 48%nat.
Proof. unfold dag_domain_bytes. rewrite !length_app. by autorewrite with bytes. Qed.

Lemma dag_domain_bytes_inj d1 d2 :
  domain_ok d1 -> domain_ok d2 -> dag_domain_bytes d1 = dag_domain_bytes d2 -> d1 = d2.
Proof.
  intros (?&?&?) (?&?&?) Heq. unfold dag_domain_bytes in Heq.
  app_cancel Heq. app_cancel Heq.
  apply hash_to_bytes_inj in Heq0; [|done..]. apply u64_be_inj in Heq1; [|done..].
  apply u64_be_inj in Heq; [|done..]. destruct d1, d2; simpl in *; congruence.
Qed.

(** The hashed bytes determine everything but the border between the parents and
    the transactions. *)
Lemma block_bytes_inj b1 b2 :
  block_ok b1 -> block_ok b2 -> block_bytes b1 = block_bytes b2 ->
  author b1 = author b2 /\ round b1 = round b2 /\
  parents b1 ++ transactions b1 = parents b2 ++ transactions b2 /\
  timestamp b1 = timestamp b2 /\ ordering_commitment b1 = ordering_commitment b2.
Proof.
  intros (?&?&Hp1&Ht1&?&?) (?&?&Hp2&Ht2&?&?) Heq. unfold block_bytes in Heq.
  app_cancel Heq. app_cancel Heq.
  rewrite !(assoc_L (++) (hashes_to_bytes _)) in Heq.
  apply app_inj_2 in Heq as [Hb Heq]; [|rewrite !length_app; by autorewrite with bytes].
  app_cancel Heq. rewrite <- !hashes_to_bytes_app in Hb.
  apply hashes_to_bytes_inj in Hb; [|by apply Forall_app..].
  split_and!; [by apply hash_to_bytes_inj|by apply u64_le_inj|done|by apply u64_le_inj|
               by apply hash_to_bytes_inj].
Qed.

(** What is hashed for a block: its transactions, and its bytes in a domain. *)
Definition ordering_input (b : DagBlock) : string * list Z :=
  ("ARC-ordering-commitment-v1", hashes_to_bytes (transactions b)).

Definition hash_input (b : DagBlock) (dom : option ConsensusDomain) : string * list Z :=
  match dom with
  | Some d => ("ARC-dag-block-v3", dag_domain_bytes d ++ block_bytes b)
  | None => ("ARC-dag-block-v1", block_bytes b)
  end.

Definition block_inputs (dom : option ConsensusDomain) (b : DagBlock) : list (string * list Z) :=
  [ordering_input b; hash_input b dom].

Lemma block_hash_in_input dom b : block_hash_in dom b = blake3_derive_key (hash_input b dom).1 (hash_input b dom).2.
Proof. by destruct dom. Qed.

(** The domain and all fields of a block that its hash covers. *)
Definition content (b : DagBlock) :=
  (author b, round b, parents b, transactions b, timestamp b, ordering_commitment b).

Section Binding.
Context (inputs : list (string * list Z)) (Hapart : derive_key_apart inputs).

Lemma block_bytes_content b1 b2 :
  ordering_input b1 ∈ inputs -> ordering_input b2 ∈ inputs ->
  block_ok b1 -> block_ok b2 -> verify_ordering b1 = true -> verify_ordering b2 = true ->
  block_bytes b1 = block_bytes b2 -> content b1 = content b2.
Proof using Hapart.
  intros Hi1 Hi2 Hb1 Hb2 Ho1 Ho2 (Ha & Hr & Hpt & Hts & Hoc)%block_bytes_inj; [|done..].
  unfold verify_ordering in Ho1, Ho2. repeat case_match; try done.
  apply bool_decide_eq_true in Ho1, Ho2. rewrite Ho1, Ho2 in Hoc.
  apply (Hapart _ _ _ Hi1 Hi2) in Hoc.
  apply hashes_to_bytes_inj in Hoc as Htx; [|by apply Hb1|by apply Hb2].
  rewrite Htx in Hpt. apply app_inv_tail in Hpt. unfold content. congruence.
Qed.

Lemma hash_binds_content dom b1 b2 :
  block_inputs dom b1 ⊆ inputs -> block_inputs dom b2 ⊆ inputs ->
  block_ok b1 -> block_ok b2 -> verify_ordering b1 = true -> verify_ordering b2 = true ->
  block_hash_in dom b1 = block_hash_in dom b2 -> content b1 = content b2.
Proof using Hapart.
  intros Hi1 Hi2 Hb1 Hb2 Ho1 Ho2 Heq.
  apply block_bytes_content; [by apply Hi1; left|by apply Hi2; left|done..|].
  assert (hash_input b1 dom ∈ inputs) as He1 by (apply Hi1; right; left).
  assert (hash_input b2 dom ∈ inputs) as He2 by (apply Hi2; right; left).
  destruct dom as [d|]; apply (Hapart _ _ _ He1 He2) in Heq; [|done].
  by apply app_inj_1 in Heq as [_ Heq].
Qed.

End Binding.

(** ** Canonical ordering *)

Lemma verify_ordering_canonical b :
  verify_ordering b = true -> transactions b = sort_hashes (transactions b).
Proof.
  unfold verify_ordering. case_match eqn:Hs; [intros _|done].
  apply windows_sorted_spec in Hs.
  apply (StronglySorted_unique (≤)).
  - apply Sorted_StronglySorted; [apply _|done].
  - apply sort_hashes_Sorted.
  - by rewrite sort_hashes_Permutation.
Qed.

Lemma windows_sorted_sort l : windows_sorted (sort_hashes l) = true.
Proof. apply windows_sorted_spec, StronglySorted_Sorted, sort_hashes_Sorted. Qed.

End Dag.

(** ** A committee of four

    Four equal Arc-tier validators with keys of the concrete instance; the
    witnesses of the later files run on it. *)

Module DemoNet.
Import Demo.

Definition key (i : Z) : KeyPair := KpEd25519 ([i] : Ed25519Key).
Definition addr (i : Z) : Address := kp_address (key i).

Definition committee : list Validator :=
  (fun i => mkValidator (addr i) 10000000 Arc 0) <$> [0; 1; 2; 3].

Definition committee_set : ValidatorSet := mkValidatorSet committee 40000000 1 26666667 0 [].

Lemma committee_wf : vs_wf committee_set.
Proof. split; vm_compute; reflexivity. Qed.

End DemoNet.

(** ** The theorems *)

Module DemoDag.
Import Demo.

(** The recovery domain and two envelopes of one block, signed differently. *)
Definition demo_domain : ConsensusDomain := mkConsensusDomain 77 3 1.

Definition unhashed (sig : list Z) (txs : list Hash256) : DagBlock :=
  mkDagBlock 5 9 [11; 12; 13] txs 1000 0 sig (compute_ordering_commitment txs).

Definition envelope (sig : list Z) (txs : list Hash256) : DagBlock :=
  (unhashed sig txs) <| hash := compute_hash_in_domain (unhashed sig txs) demo_domain |>.

Lemma envelope_ok sig : block_ok (envelope sig [21; 22]).
Proof. unfold block_ok. split_and?; eval_range. Qed.

Lemma demo_domain_ok : domain_ok demo_domain.
Proof. unfold domain_ok. split_and?; eval_range. Qed.

End DemoDag.

(** Two blocks that pass the hash and ordering checks of the engine, each under
    its own domain (both legacy or both recovery domains), and carry the same hash
    agree on the domain, author, round, parents, transactions, timestamp and
    ordering commitment, if BLAKE3 has no collision among the inputs of the two blocks. *)
Theorem dag_hash_binding `{Crypto} (dom1 dom2 : option ConsensusDomain) (b1 b2 : DagBlock)
  (Hapart : derive_key_apart (block_inputs dom1 b1 ++ block_inputs dom2 b2))
  (Hb1 : block_ok b1) (Hb2 : block_ok b2)
  (Hd1 : forall d, dom1 = Some d -> domain_ok d) (Hd2 : forall d, dom2 = Some d -> domain_ok d)
  (Hmode : is_Some dom1 <-> is_Some dom2)
  (Hv1 : verify_hash_in dom1 b1 = true) (Hv2 : verify_hash_in dom2 b2 = true)
  (Ho1 : verify_ordering b1 = true) (Ho2 : verify_ordering b2 = true)
  (Heq : hash b1 = hash b2) :
  dom1 = dom2 /\ content b1 = content b2.
Proof.
  rewrite verify_hash_in_spec in Hv1, Hv2. apply bool_decide_eq_true in Hv1, Hv2.
  rewrite Hv1, Hv2 in Heq.
  assert (dom1 = dom2) as Hdd.
  { destruct dom1 as [d1|], dom2 as [d2|];
      [|by destruct Hmode as [[? [=]] _]; eauto|by destruct Hmode as [_ [? [=]]]; eauto|done].
    apply Hapart in Heq; [|right; left|do 3 right; left].
    apply app_inj_1 in Heq as [Heq _]; [|by rewrite !length_dag_domain_bytes].
    f_equal. apply dag_domain_bytes_inj; auto. }
  split; [done|]. subst dom2. apply (hash_binds_content _ Hapart dom1); try done.
  - apply list_subseteq_app_l. set_solver.
  - apply list_subseteq_app_r. set_solver.
Qed.

Lemma dag_hash_binding_witness :
  let b1 := DemoDag.envelope [1] [21; 22] in
  let b2 := DemoDag.envelope [2] [21; 22] in
  b1 <> b2 /\ Some DemoDag.demo_domain = Some DemoDag.demo_domain /\ content b1 = content b2.
Proof.
  intros b1 b2. split; [intros Heq%(f_equal signature); discriminate Heq|].
  apply (@dag_hash_binding Demo.demo_crypto (Some DemoDag.demo_domain) (Some DemoDag.demo_domain)).
  - apply (@derive_key_apartb_ok Demo.demo_crypto). vm_compute. reflexivity.
  - apply DemoDag.envelope_ok.
  - apply DemoDag.envelope_ok.
  - intros d [= <-]. apply DemoDag.demo_domain_ok.
  - intros d [= <-]. apply DemoDag.demo_domain_ok.
  - done.
  - vm_compute. reflexivity.
  - vm_compute. reflexivity.
  - vm_compute. reflexivity.
  - vm_compute. reflexivity.
  - vm_compute. reflexivity.
Defined.

(** A proposer has no discretion over ordering: two blocks over the same
    transactions (in whatever order the proposers hold them) that both pass
    [verify_ordering] list them in the same order and carry the same commitment. *)
Theorem ordering_is_canonical `{Crypto} (b1 b2 : DagBlock)
  (H1 : verify_ordering b1 = true) (H2 : verify_ordering b2 = true)
  (Hperm : transactions b1 ≡ₚ transactions b2) :
  transactions b1 = transactions b2 /\ ordering_commitment b1 = ordering_commitment b2.
Proof.
  assert (transactions b1 = transactions b2) as Htx.
  { rewrite (verify_ordering_canonical b1), (verify_ordering_canonical b2) by done.
    apply (StronglySorted_unique (≤)); [apply sort_hashes_Sorted..|].
    by rewrite !sort_hashes_Permutation. }
  split; [done|]. unfold verify_ordering in H1, H2. repeat case_match; try done.
  apply bool_decide_eq_true in H1, H2. congruence.
Qed.

Lemma ordering_is_canonical_witness :
  transactions (DemoDag.envelope [] [21; 22]) = transactions (DemoDag.unhashed [7] [21; 22]) /\
  ordering_commitment (DemoDag.envelope [] [21; 22]) =
    ordering_commitment (DemoDag.unhashed [7] [21; 22]).
Proof.
  apply (@ordering_is_canonical Demo.demo_crypto);
    [vm_compute; reflexivity|vm_compute; reflexivity|reflexivity].
Defined.

(** What [decision_commitment] hashes. *)
Definition decision_input (d : ConsensusDomain) (anchor : Hash256) (rnd : Z) : string * list Z :=
  ("ARC-dag-state-decision-v3", dag_domain_bytes d ++ hash_to_bytes anchor ++ u64_be rnd).

Lemma decision_binds `{Crypto} inputs d1 d2 a1 a2 r1 r2 :
  derive_key_apart inputs -> decision_input d1 a1 r1 ∈ inputs -> decision_input d2 a2 r2 ∈ inputs ->
  domain_ok d1 -> domain_ok d2 -> hash256 a1 -> hash256 a2 -> u64 r1 -> u64 r2 ->
  decision_commitment d1 a1 r1 = decision_commitment d2 a2 r2 -> d1 = d2 /\ a1 = a2 /\ r1 = r2.
Proof.
  intros Hapart Hi1 Hi2 ?????? Heq%(Hapart _ _ _ Hi1 Hi2).
  apply app_inj_1 in Heq as [Hd Heq]; [|by rewrite !length_dag_domain_bytes].
  app_cancel Heq.
  split_and!; [by apply dag_domain_bytes_inj|by apply hash_to_bytes_inj|by apply u64_be_inj].
Qed.

(** The decision commitment stored in a state block identifies the recovery
    domain, the committed anchor and its round, if BLAKE3 has no collision among the two
    inputs: a decision cannot be replayed in another chain, recovery epoch, validator set
    or DAG round. *)
Theorem decision_commitment_binding `{Crypto} (d1 d2 : ConsensusDomain) (b1 b2 : DagBlock)
  (Hapart : derive_key_apart [decision_input d1 (hash b1) (round b1); decision_input d2 (hash b2) (round b2)])
  (Hd1 : domain_ok d1) (Hd2 : domain_ok d2)
  (Hh1 : hash256 (hash b1)) (Hh2 : hash256 (hash b2))
  (Hr1 : u64 (round b1)) (Hr2 : u64 (round b2))
  (Heq : state_decision_commitment b1 d1 = state_decision_commitment b2 d2) :
  d1 = d2 /\ hash b1 = hash b2 /\ round b1 = round b2.
Proof. by apply (decision_binds _ _ _ _ _ _ _ Hapart); [left|right; left|..]. Qed.
