(* ===== verification/Security.v ===== *)
(** * Security detectors (crates/arc-consensus/src/security.rs)

    The withholding detector, the registry of certified checkpoints and the
    tracker of double votes.  Hash maps and sets are [gmap] and [gset]; what the
    source collects in hash order is collected in the order of [elements] and
    [map_to_list].  The withholding score, an [f64] quotient of two counts, is
    kept as the pair (missing, expected). *)

From S2P Require Import Prelude Crypto Validators Dag.

(** ** Withholding *)

Record WithholdingReport := mkWithholdingReport {
  wr_validator : Hash256;
  wr_missing_rounds : list Z;
  wr_total_expected : Z;
  wr_withholding_score : Z * Z;
}.

Record WithholdingDetector := mkWithholdingDetector {
  wd_expected : gmap Hash256 (gset Z);
  wd_received : gmap Hash256 (gset Z);
}.

#[global] Instance eta_WithholdingDetector : Eta WithholdingDetector := fun d =>
  mkWithholdingDetector (wd_expected d) (wd_received d).

Definition wd_new : WithholdingDetector := mkWithholdingDetector ∅ ∅.

(** [map.entry(k).or_default().insert(x)] on a map of sets. *)
Definition insert_in {K} `{Countable K} (m : gmap K (gset Z)) (k : K) (x : Z) : gmap K (gset Z) :=
  <[k := {[x]} ∪ default ∅ (m !! k)]> m.

Definition report_expected (d : WithholdingDetector) (validator : Hash256) (rnd : Z) :=
  d <| wd_expected := insert_in (wd_expected d) validator rnd |>.

Definition report_received (d : WithholdingDetector) (validator : Hash256) (rnd : Z) :=
  d <| wd_received := insert_in (wd_received d) validator rnd |>.

(** [iter().max().unwrap_or(0)]. *)
Definition max_or_zero (l : list Z) : Z := foldr Z.max 0 l.

Definition wd_max_round (d : WithholdingDetector) : Z :=
  max_or_zero (mjoin (elements ∘ snd <$> map_to_list (wd_expected d))).

Definition expected_in_window (d : WithholdingDetector) (window : Z) (rounds : gset Z) : list Z :=
  filter (fun r => saturating_sub (wd_max_round d) window < r /\ r <= wd_max_round d)
    (elements rounds).

Definition missing_rounds (d : WithholdingDetector) (validator : Hash256) (l : list Z) : list Z :=
  match wd_received d !! validator with
  | Some set => filter (fun r => r ∉ set) l
  | None => l
  end.

Definition withholding_report (d : WithholdingDetector) (window : Z)
    (entry : Hash256 * gset Z) : option WithholdingReport :=
  let validator := entry.1 in
  let in_window := expected_in_window d window entry.2 in
  let total_expected := Z.of_nat (length in_window) in
  if bool_decide (total_expected = 0) then None
  else
    let missing := missing_rounds d validator in_window in
    let score := (Z.of_nat (length missing), total_expected) in
    if bool_decide (total_expected < 2 * Z.of_nat (length missing))
    then Some (mkWithholdingReport validator missing total_expected score)
    else None.

Definition detect_withholding (d : WithholdingDetector) (window : Z) : list WithholdingReport :=
  omap (withholding_report d window) (map_to_list (wd_expected d)).

(** [retain] on the rounds of every validator, then on the map. *)
Definition prune_rounds (before_round : Z) (m : gmap Hash256 (gset Z)) : gmap Hash256 (gset Z) :=
  filter (fun kv => kv.2 <> ∅) (filter (fun r => before_round <= r) <$> m).

Definition wd_prune (d : WithholdingDetector) (before_round : Z) : WithholdingDetector :=
  mkWithholdingDetector (prune_rounds before_round (wd_expected d))
    (prune_rounds before_round (wd_received d)).

(** ** Certified checkpoints *)

Definition CHECKPOINT_INTERVAL : Z := 1000.

Record ValidatorSignature := mkValidatorSignature {
  vs_validator : Hash256;
  vs_public_key : list Z;
  vs_signature_halves : list Z * list Z;
}.

Definition from_ed25519_signature (validator : Hash256) (sig : Signature)
    : option ValidatorSignature :=
  match sig with
  | SigEd25519 public_key bytes =>
      if bool_decide (length bytes = 64%nat)
      then Some (mkValidatorSignature validator public_key (take 32 bytes, drop 32 bytes))
      else None
  | _ => None
  end.

Definition as_signature (v : ValidatorSignature) : Signature :=
  SigEd25519 (vs_public_key v) ((vs_signature_halves v).1 ++ (vs_signature_halves v).2).

Record Checkpoint := mkCheckpoint {
  cp_block_hash : Hash256;
  cp_round : Z;
  cp_height : Z;
  cp_state_root : Hash256;
  cp_timestamp : Z;
  cp_signatures : list ValidatorSignature;
}.

Record BlockRef := mkBlockRef {
  br_hash : Hash256;
  br_round : Z;
  br_height : Z;
}.

Inductive CheckpointError :=
| EmptyTrustedValidatorSet
| InvalidTrustedValidatorSet (msg : string)
| StaleRound (rnd latest : Z)
| ZeroRound
| EmptySignatures
| TooManySignatures (have maximum : Z)
| DuplicateSigner (a : Hash256)
| UnknownSigner (a : Hash256)
| CpInvalidSignature (a : Hash256)
| InsufficientIdentities (have need : Z)
| InsufficientStake (have need : Z).

(** The loop of [trusted_validator_stakes]. *)
Fixpoint trusted_stakes_from (stakes : gmap Hash256 Z) (total : Z) (l : list Validator)
    : outcome CheckpointError (gmap Hash256 Z * Z) :=
  match l with
  | [] => Ok (stakes, total)
  | v :: l' =>
      _ ← require (bool_decide (from_stake (v_stake v) = Some (v_tier v)))
            (InvalidTrustedValidatorSet "validator has inactive stake or inconsistent tier");
      _ ← require (bool_decide (stakes !! v_address v = None))
            (InvalidTrustedValidatorSet "duplicate validator");
      total' ← ok_or (checked_add total (v_stake v))
            (InvalidTrustedValidatorSet "total validator stake exceeds u64::MAX");
      trusted_stakes_from (<[v_address v := v_stake v]> stakes) total' l'
  end.

Definition trusted_validator_stakes (trusted : ValidatorSet)
    : outcome CheckpointError (gmap Hash256 Z * Z) :=
  _ ← require (negb (bool_decide (validators trusted = []))) EmptyTrustedValidatorSet;
  r ← trusted_stakes_from ∅ 0 (validators trusted);
  _ ← require (bool_decide (total_stake trusted = r.2))
        (InvalidTrustedValidatorSet "cached total stake does not match");
  _ ← require (bool_decide (quorum trusted = strict_supermajority_threshold r.2))
        (InvalidTrustedValidatorSet "cached quorum does not match strict threshold");
  Ok r.

Section Checkpoints.
Context `{Crypto}.

Definition signing_hash (c : Checkpoint) : Hash256 :=
  blake3_derive_key "ARC-consensus-finalized-checkpoint-v1"
    (hash_to_bytes (cp_block_hash c) ++ u64_le (cp_round c) ++ u64_le (cp_height c) ++
     hash_to_bytes (cp_state_root c) ++ u64_le (cp_timestamp c)).

(** The loop over the approvals: the set of signers seen and the stake. *)
Fixpoint approvals_from (stakes : gmap Hash256 Z) (sh : Hash256) (seen : gset Hash256)
    (approved : Z) (l : list ValidatorSignature)
    : outcome CheckpointError (gset Hash256 * Z) :=
  match l with
  | [] => Ok (seen, approved)
  | a :: l' =>
      _ ← require (bool_decide (vs_validator a ∉ seen)) (DuplicateSigner (vs_validator a));
      stake ← ok_or (stakes !! vs_validator a) (UnknownSigner (vs_validator a));
      _ ← require (is_ok (sig_verify (as_signature a) sh (vs_validator a)))
            (CpInvalidSignature (vs_validator a));
      approved' ← ok_or (checked_add approved stake)
            (InvalidTrustedValidatorSet "approved validator stake exceeds u64::MAX");
      approvals_from stakes sh ({[vs_validator a]} ∪ seen) approved' l'
  end.

Definition verify_against_trusted_validator_set (c : Checkpoint) (trusted : ValidatorSet)
    : outcome CheckpointError unit :=
  st ← trusted_validator_stakes trusted;
  let active := Z.of_nat (size (st.1 : gmap Hash256 Z)) in
  let signatures := Z.of_nat (length (cp_signatures c)) in
  _ ← require (negb (bool_decide (cp_signatures c = []))) EmptySignatures;
  _ ← require (bool_decide (signatures <= active)) (TooManySignatures signatures active);
  let required_identities := strict_supermajority_threshold active in
  r ← approvals_from st.1 (signing_hash c) ∅ 0 (cp_signatures c);
  let identities := Z.of_nat (size (r.1 : gset Hash256)) in
  _ ← require (bool_decide (required_identities <= identities))
        (InsufficientIdentities identities required_identities);
  let required_stake := strict_supermajority_threshold st.2 in
  require (bool_decide (required_stake <= r.2)) (InsufficientStake r.2 required_stake).

Record CheckpointRegistry := mkCheckpointRegistry {
  checkpoints : gmap Z Checkpoint;
  latest_round : Z;
}.

Definition registry_new : CheckpointRegistry := mkCheckpointRegistry ∅ 0.

Definition add_checkpoint (reg : CheckpointRegistry) (c : Checkpoint) (trusted : ValidatorSet)
    : outcome CheckpointError CheckpointRegistry :=
  _ ← require (negb (bool_decide (cp_round c = 0))) ZeroRound;
  _ ← require (negb (bool_decide (cp_round c <= latest_round reg) &&
                     bool_decide (0 < latest_round reg)))
        (StaleRound (cp_round c) (latest_round reg));
  _ ← verify_against_trusted_validator_set c trusted;
  Ok (mkCheckpointRegistry (<[cp_round c := c]> (checkpoints reg)) (cp_round c)).

Definition latest_checkpoint (reg : CheckpointRegistry) : option Checkpoint :=
  checkpoints reg !! latest_round reg.

(** The map of a chain by round; [None] on conflicting references. *)
Fixpoint chain_by_round (m : gmap Z BlockRef) (chain : list BlockRef) : option (gmap Z BlockRef) :=
  match chain with
  | [] => Some m
  | b :: chain' =>
      match m !! br_round b with
      | Some previous =>
          if negb (bool_decide (br_hash previous = br_hash b)) ||
             negb (bool_decide (br_height previous = br_height b))
          then None
          else chain_by_round (<[br_round b := b]> m) chain'
      | None => chain_by_round (<[br_round b := b]> m) chain'
      end
  end.

Definition verify_chain_against_checkpoints (reg : CheckpointRegistry) (chain : list BlockRef)
    : bool :=
  match latest_checkpoint reg with
  | None => false
  | Some _ =>
      if bool_decide (chain = []) then false
      else match chain_by_round ∅ chain with
           | None => false
           | Some by_round =>
               forallb (fun rc : Z * Checkpoint =>
                 match by_round !! rc.1 with
                 | Some b => bool_decide (br_hash b = cp_block_hash rc.2) &&
                             bool_decide (br_height b = cp_height rc.2)
                 | None => false
                 end) (map_to_list (checkpoints reg))
           end
  end.

Definition is_valid_fork_point (reg : CheckpointRegistry) (rnd : Z) : bool :=
  if bool_decide (latest_round reg = 0) then false
  else bool_decide (latest_round reg < rnd).

End Checkpoints.

(** ** Double votes *)

Record DoubleVoteEvidence := mkDoubleVoteEvidence {
  dv_validator : Hash256;
  dv_round : Z;
  dv_vote1_hash : Hash256;
  dv_vote2_hash : Hash256;
}.

Inductive PenalisedOffense :=
| DoubleVote
| WithholdingBlock
| PoInvalidBlock
| Equivocation.

Record PenaltyRecord := mkPenaltyRecord {
  pr_validator : Hash256;
  pr_offense : PenalisedOffense;
  pr_slash_amount : Z;
  pr_round : Z;
  pr_timestamp : Z;
}.

Definition calculate_slash_amount (offense : PenalisedOffense) (stake : Z) : Z :=
  match offense with
  | DoubleVote => stake
  | Equivocation => stake
  | PoInvalidBlock => stake / 2
  | WithholdingBlock => stake / 10
  end.

Record StakeTracker := mkStakeTracker {
  st_votes : gmap (Hash256 * Z) (gset Hash256);
  st_penalties : list PenaltyRecord;
}.

#[global] Instance eta_StakeTracker : Eta StakeTracker := fun t =>
  mkStakeTracker (st_votes t) (st_penalties t).

Definition tracker_new : StakeTracker := mkStakeTracker ∅ [].

Definition report_vote (t : StakeTracker) (validator : Hash256) (rnd : Z) (block_hash : Hash256) :=
  t <| st_votes := insert_in (st_votes t) (validator, rnd) block_hash |>.

Definition double_vote_of (rnd : Z) (entry : Hash256 * Z * gset Hash256)
    : option DoubleVoteEvidence :=
  let '(validator, r, hashes) := entry in
  if bool_decide (r = rnd)
  then match elements hashes with
       | v1 :: v2 :: _ => Some (mkDoubleVoteEvidence validator rnd v1 v2)
       | _ => None
       end
  else None.

Definition detect_double_voting (t : StakeTracker) (rnd : Z) : list DoubleVoteEvidence :=
  omap (double_vote_of rnd) (map_to_list (st_votes t)).

Definition record_penalty (t : StakeTracker) (r : PenaltyRecord) : StakeTracker :=
  t <| st_penalties := st_penalties t ++ [r] |>.

Definition penalties_for (t : StakeTracker) (validator : Hash256) : list PenaltyRecord :=
  filter (fun p => pr_validator p = validator) (st_penalties t).

(** The sum is unchecked: it wraps in the release profile. *)
Definition total_slashed (t : StakeTracker) (validator : Hash256) : Z :=
  zsum (pr_slash_amount <$> penalties_for t validator) mod (u64_max + 1).

Definition prune_votes (t : StakeTracker) (before_round : Z) : StakeTracker :=
  t <| st_votes := filter (fun kv => before_round <= kv.1.2) (st_votes t) |>.

(** ** The trusted set *)

(** The loop checks what [checked_validator_total_stake] checks, and its map
    answers exactly the members. *)
Lemma trusted_stakes_from_spec m t l m' t' :
  trusted_stakes_from m t l = Ok (m', t') ->
  checked_total_from (dom m) t l = Ok t' /\ size m' = (size m + length l)%nat /\
  forall a, m' !! a = match find_member l a with
                      | Some v => Some (v_stake v)
                      | None => m !! a
                      end.
Proof.
  revert m t. induction l as [|v l IH]; intros m t Hrun; cbn [trusted_stakes_from] in Hrun.
  { simplify_eq. cbn. split_and!; [done|lia|done]. }
  inv_ok. dec_hyps. rename select (checked_add _ _ = _) into Hadd.
  rename select (m !! _ = None) into Hnew.
  apply IH in Hrun as (Ht & Hsize & Hm). rewrite dom_insert_L in Ht.
  rewrite map_size_insert_None in Hsize by done.
  cbn [checked_total_from length]. rewrite !bool_decide_true by (try apply not_elem_of_dom; done).
  rewrite Hadd. split_and!; [done|lia|].
  intros a. rewrite Hm, find_member_cons. case_decide as Ha.
  - subst. destruct (find_member l (v_address v)) as [w|] eqn:Hw; [|by simplify_map_eq].
    exfalso. apply checked_total_from_spec in Ht as (_ & _ & Hseen & _); [|split_checked; lia].
    apply (get_validator_Some_in (mkValidatorSet l 0 0 0 0 [])) in Hw as [Hin Haddr].
    apply Hseen in Hin. set_solver.
  - destruct (find_member l a); [done|]. by rewrite lookup_insert_ne.
Qed.

Lemma trusted_validator_stakes_spec s m t :
  trusted_validator_stakes s = Ok (m, t) ->
  vs_wf s /\ t = total_stake s /\ size m = length (validators s) /\
  forall a, m !! a = v_stake <$> get_validator s a.
Proof.
  unfold trusted_validator_stakes. intros Hrun. inv_ok.
  rename select (trusted_stakes_from _ _ _ = _) into Hfrom.
  apply trusted_stakes_from_spec in Hfrom as (Ht & Hsize & Hm). simpl in *.
  dec_hyps. simplify_eq.
  split_and!; [by split|done|done|]. intros a. rewrite Hm, lookup_empty.
  change (get_validator s a) with (find_member (validators s) a). by case_match.
Qed.

(** ** Soundness of a checkpoint certificate *)

Definition signers (c : Checkpoint) : list Hash256 := vs_validator <$> cp_signatures c.

Section CheckpointTheorems.
Context `{Crypto}.

Definition approval_valid (c : Checkpoint) (a : ValidatorSignature) : Prop :=
  sig_verify (as_signature a) (signing_hash c) (vs_validator a) = Ok ().

Lemma is_ok_verify s h a : is_ok (sig_verify s h a) = true -> sig_verify s h a = Ok ().
Proof. by destruct (sig_verify s h a) as [[]| |]. Qed.

Lemma approvals_from_spec s m c seen approved l seen' approved' :
  vs_wf s -> (forall a, m !! a = v_stake <$> get_validator s a) ->
  approved = stake_in s seen ->
  approvals_from m (signing_hash c) seen approved l = Ok (seen', approved') ->
  NoDup (vs_validator <$> l) /\ Forall (approval_valid c) l /\
  (forall a, a ∈ l -> vs_validator a ∉ seen /\ is_validator s (vs_validator a) = true) /\
  seen' = seen ∪ list_to_set (vs_validator <$> l) /\ approved' = stake_in s seen'.
Proof.
  intros Hwf Hm. revert seen approved. induction l as [|a l IH];
    intros seen approved -> Hrun; cbn [approvals_from] in Hrun.
  { simplify_eq. split_and!; [constructor|constructor|set_solver|set_solver|done]. }
  inv_ok. dec_hyps. rename select (_ ∉ seen) into Hseen. rename select (m !! _ = _) into Hstake.
  rename select (is_ok _ = true) into Hsig. split_checked.
  rewrite Hm in Hstake. apply fmap_Some in Hstake as (v & Hv & ->).
  apply IH in Hrun as (Hnd & Hval & Hin & -> & ->);
    [|by subst; rewrite (stake_in_insert s _ v) by done; lia].
  split_and!; [| | | |].
  - constructor; [|done]. intros (b & Hb & Hbl)%list_elem_of_fmap.
    apply Hin in Hbl as [Hbl _]. set_solver.
  - constructor; [by apply is_ok_verify|done].
  - intros b [->|Hb]%elem_of_cons; [split; [done|]|apply Hin in Hb; set_solver].
    apply bool_decide_eq_true. rewrite Hv. eauto.
  - set_solver.
  - done.
Qed.

Lemma verify_checkpoint_spec c s :
  verify_against_trusted_validator_set c s = Ok () ->
  vs_wf s /\ NoDup (signers c) /\ Forall (approval_valid c) (cp_signatures c) /\
  (forall a, a ∈ signers c -> is_validator s a = true) /\
  quorum s <= stake_in s (list_to_set (signers c)) /\
  strict_supermajority_threshold (Z.of_nat (length (validators s))) <=
    Z.of_nat (length (signers c)).
Proof.
  unfold verify_against_trusted_validator_set. intros Hrun. inv_ok.
  destruct x as [m t]. rename select (trusted_validator_stakes _ = _) into Hst.
  apply trusted_validator_stakes_spec in Hst as (Hwf & -> & Hsize & Hm). simpl in *.
  rename select (approvals_from _ _ _ _ _ = _) into Happ. destruct x2 as [seen approved].
  apply (approvals_from_spec s) in Happ as (Hnd & Hval & Hin & -> & ->);
    [|done|done|by rewrite stake_in_empty].
  rewrite union_empty_l_L in *. dec_hyps. simpl in *.
  rewrite size_list_to_set in * by done. rewrite Hsize in *.
  split_and!; [done|done|done| |by rewrite (proj2 Hwf)|done].
  intros a (b & -> & Hb)%list_elem_of_fmap. by apply Hin in Hb as [_ ?].
Qed.

End CheckpointTheorems.

(** ** The registry *)

Section RegistryTheorems.
Context `{Crypto}.

Inductive registry_reachable : CheckpointRegistry -> Prop :=
| registry_start : registry_reachable registry_new
| registry_add reg c trusted reg' :
    registry_reachable reg -> u64 (cp_round c) -> add_checkpoint reg c trusted = Ok reg' ->
    registry_reachable reg'.

Definition certified (c : Checkpoint) : Prop :=
  exists trusted, verify_against_trusted_validator_set c trusted = Ok ().

Lemma registry_invariant reg :
  registry_reachable reg ->
  map_Forall (fun r c => cp_round c = r /\ certified c /\ 0 < r <= latest_round reg)
    (checkpoints reg).
Proof.
  induction 1 as [|reg c trusted reg' _ IH Hu Hadd]; [apply map_Forall_empty|].
  unfold u64 in Hu. unfold add_checkpoint in Hadd. inv_ok. dec_hyps.
  apply map_Forall_insert_2; [split; [done|]; split; [by eexists|simpl; lia]|].
  intros r c' (? & ? & ?)%IH. split; [done|]. split; [done|]. simpl.
  match goal with H : _ && _ = false |- _ => apply andb_false_iff in H as [?|?] end; dec_hyps; lia.
Qed.

Lemma chain_by_round_in m chain m' :
  chain_by_round m chain = Some m' ->
  forall r b, m' !! r = Some b -> (b ∈ chain /\ br_round b = r) \/ m !! r = Some b.
Proof.
  revert m. induction chain as [|c chain IH]; intros m Hrun r b Hb; cbn [chain_by_round] in Hrun.
  { simplify_eq. by right. }
  assert (chain_by_round (<[br_round c:=c]> m) chain = Some m') as Hrun'.
  { repeat case_match; done. }
  destruct (IH _ Hrun' r b Hb) as [[? ?]|Hm]; [left; set_solver|].
  apply lookup_insert_Some in Hm as [[? ->]|[? ?]]; [left; set_solver|by right].
Qed.

Lemma verify_chain_spec reg chain :
  verify_chain_against_checkpoints reg chain = true ->
  forall r c, checkpoints reg !! r = Some c ->
  exists b, b ∈ chain /\ br_round b = r /\ br_hash b = cp_block_hash c /\
            br_height b = cp_height c.
Proof.
  unfold verify_chain_against_checkpoints. intros Hv r c Hc. repeat case_match; try done.
  rename select (chain_by_round _ _ = _) into Hm.
  rewrite <- Is_true_true, forallb_True, Forall_forall in Hv.
  apply elem_of_map_to_list in Hc. apply Hv in Hc. simpl in Hc. case_match; [|done].
  apply Is_true_true in Hc. dec_hyps. eapply chain_by_round_in in Hm as [[? ?]|?]; [|by simplify_map_eq|done].
  eauto.
Qed.

End RegistryTheorems.

(** ** The trackers *)

Lemma elem_of_insert_in {K} `{Countable K} (m : gmap K (gset Z)) k x k' y :
  y ∈ default ∅ (insert_in m k x !! k') <-> (k' = k /\ y = x) \/ y ∈ default ∅ (m !! k').
Proof.
  unfold insert_in. destruct (decide (k = k')) as [->|Hk].
  - rewrite lookup_insert_eq. simpl. set_solver.
  - rewrite lookup_insert_ne by done. naive_solver.
Qed.

(** The tracker after a sequence of votes (validator, round, block hash). *)
Definition tracker_of (l : list (Hash256 * Z * Hash256)) : StakeTracker :=
  foldl (fun t v => report_vote t v.1.1 v.1.2 v.2) tracker_new l.

Lemma tracker_of_votes l a r h :
  h ∈ default ∅ (st_votes (tracker_of l) !! (a, r)) <-> (a, r, h) ∈ l.
Proof.
  unfold tracker_of. induction l as [|[[b r'] h'] l IH] using rev_ind; [cbn; set_solver|].
  rewrite foldl_app. cbn [foldl report_vote set_field st_votes fst snd].
  rewrite elem_of_insert_in, IH, elem_of_app, list_elem_of_singleton. naive_solver.
Qed.

Lemma elem_of_detect_double_voting t r e :
  e ∈ detect_double_voting t r <->
  exists hashes l, st_votes t !! (dv_validator e, r) = Some hashes /\ dv_round e = r /\
    elements hashes = dv_vote1_hash e :: dv_vote2_hash e :: l.
Proof.
  unfold detect_double_voting. rewrite list_elem_of_omap. split.
  - intros ([[a r'] hashes] & Hin%elem_of_map_to_list & He). simpl in He.
    case_bool_decide; [|done]. repeat case_match; try done. simplify_eq/=. eauto.
  - intros (hashes & l & Hv & Hr & He). exists (dv_validator e, r, hashes).
    split; [by apply elem_of_map_to_list|]. simpl. rewrite bool_decide_true, He by done.
    destruct e; simpl in *; congruence.
Qed.

(** ** The theorems *)

Module DemoSecurity.
Import Demo.

Definition unsigned : Checkpoint := mkCheckpoint 900 1000 640 901 5000 [].

Definition approve (i : Z) : option ValidatorSignature :=
  match kp_sign (DemoNet.key i) (signing_hash unsigned) with
  | Ok sig => from_ed25519_signature (DemoNet.addr i) sig
  | _ => None
  end.

Definition approved (signers : list Z) : Checkpoint :=
  mkCheckpoint 900 1000 640 901 5000 (omap approve signers).

Definition registry : CheckpointRegistry :=
  mkCheckpointRegistry {[1000 := approved [0; 1; 2]]} 1000.

Lemma registry_ok : registry_reachable registry.
Proof.
  apply (registry_add registry_new (approved [0; 1; 2]) DemoNet.committee_set).
  - constructor.
  - eval_range.
  - vm_compute. reflexivity.
Qed.

End DemoSecurity.

(** A checkpoint that [add_checkpoint] can register against a trusted set is
    signed, over its own signing hash, by distinct members of a well-formed set that
    hold at least the strict-supermajority stake and number at least the
    strict-supermajority count of identities. *)
Theorem checkpoint_certificate_sound `{Crypto} (c : Checkpoint) (trusted : ValidatorSet)
  (Hok : verify_against_trusted_validator_set c trusted = Ok ()) :
  vs_wf trusted /\ NoDup (signers c) /\
  Forall (fun a => sig_verify (as_signature a) (signing_hash c) (vs_validator a) = Ok ())
    (cp_signatures c) /\
  (forall a, a ∈ signers c -> is_validator trusted a = true) /\
  quorum trusted <= stake_in trusted (list_to_set (signers c)) /\
  strict_supermajority_threshold (Z.of_nat (length (validators trusted))) <=
    Z.of_nat (length (signers c)).
Proof. exact (verify_checkpoint_spec c trusted Hok). Qed.

Lemma checkpoint_certificate_sound_witness :
  quorum DemoNet.committee_set <=
    stake_in DemoNet.committee_set (list_to_set (signers (DemoSecurity.approved [3; 1; 0]))).
Proof.
  apply (@checkpoint_certificate_sound Demo.demo_crypto (DemoSecurity.approved [3; 1; 0])).
  vm_compute. reflexivity.
Defined.

(** In a registry built by any sequence of [add_checkpoint] calls, a chain that
    [verify_chain_against_checkpoints] accepts contains, for every registered
    checkpoint, a block at that round with the checkpoint's hash and height, and each
    of those checkpoints carries a verified certificate of some trusted set; no
    checkpoint is newer than [latest_round], so [is_valid_fork_point] holds only
    above all of them. *)
Theorem registry_anchors_chain `{Crypto} (reg : CheckpointRegistry) (chain : list BlockRef)
  (Hreach : registry_reachable reg)
  (Hchain : verify_chain_against_checkpoints reg chain = true)
  (r : Z) (c : Checkpoint) (Hc : checkpoints reg !! r = Some c) :
  (exists b, b ∈ chain /\ br_round b = r /\ br_hash b = cp_block_hash c /\
             br_height b = cp_height c) /\
  cp_round c = r /\ certified c /\
  (forall fork, is_valid_fork_point reg fork = true -> r < fork).
Proof.
  destruct (registry_invariant reg Hreach r c Hc) as (Hr & Hcert & Hle).
  split; [by eapply verify_chain_spec|]. split; [done|]. split; [done|].
  unfold is_valid_fork_point. intros fork Hfork. case_bool_decide; [done|]. dec_hyps. lia.
Qed.

Lemma registry_anchors_chain_witness :
  exists b, b ∈ [mkBlockRef 5 999 639; mkBlockRef 900 1000 640] /\ br_round b = 1000 /\
    br_hash b = 900 /\ br_height b = 640.
Proof.
  refine (proj1 (@registry_anchors_chain Demo.demo_crypto DemoSecurity.registry _
    DemoSecurity.registry_ok _ 1000 (DemoSecurity.approved [0; 1; 2]) _));
    vm_compute; reflexivity.
Defined.

(** The double-vote tracker is exact: after any sequence of reported votes,
    [detect_double_voting] for a round names a validator exactly when two different
    block hashes were reported for it in that round, and the two hashes of its
    evidence are different votes that were reported. *)
Theorem double_vote_detection_exact (l : list (Hash256 * Z * Hash256)) (r : Z) :
  (forall a, (exists e, e ∈ detect_double_voting (tracker_of l) r /\ dv_validator e = a) <->
             exists h1 h2, h1 <> h2 /\ (a, r, h1) ∈ l /\ (a, r, h2) ∈ l) /\
  (forall e, e ∈ detect_double_voting (tracker_of l) r ->
     dv_vote1_hash e <> dv_vote2_hash e /\ (dv_validator e, r, dv_vote1_hash e) ∈ l /\
     (dv_validator e, r, dv_vote2_hash e) ∈ l).
Proof.
  assert (forall e, e ∈ detect_double_voting (tracker_of l) r ->
     dv_vote1_hash e <> dv_vote2_hash e /\ (dv_validator e, r, dv_vote1_hash e) ∈ l /\
     (dv_validator e, r, dv_vote2_hash e) ∈ l) as Hsound.
  { intros e (hs & k & Hv & _ & He)%elem_of_detect_double_voting.
    pose proof (NoDup_elements hs) as Hnd. rewrite He in Hnd.
    rewrite <- !tracker_of_votes, Hv. simpl. rewrite <- !elem_of_elements, He.
    apply NoDup_cons in Hnd as [? _]. set_solver. }
  split; [|done]. intros a. split.
  - intros (e & He & <-). apply Hsound in He as (? & ? & ?). eauto.
  - intros (h1 & h2 & Hne & H1 & H2). rewrite <- tracker_of_votes in H1, H2.
    destruct (st_votes (tracker_of l) !! (a, r)) as [hs|] eqn:Hv; [|set_solver].
    simpl in *. rewrite <- elem_of_elements in H1, H2.
    destruct (elements hs) as [|x [|y k]] eqn:He; [set_solver|set_solver|].
    exists (mkDoubleVoteEvidence a r x y). split; [|done].
    apply elem_of_detect_double_voting. eauto.
Qed.
