(* ===== verification/Blocks.v ===== *)
(** * State-chain blocks (crates/arc-types/src/account.rs, block.rs)

    The account and the header of a state block, and the block hash.  The bincode
    bytes of a header come from outside the repository: [bincode_header] stands for
    them, and [header_reads_back] says that a header reads back from its bytes. *)

From S2P Require Import Prelude Crypto.

Record Account := mkAccount {
  acc_address : Address;
  acc_balance : Z;
  acc_nonce : Z;
  acc_code_hash : Hash256;
  acc_storage_root : Hash256;
  acc_staked_balance : Z;
}.

Definition account_new (address : Address) (balance : Z) : Account :=
  mkAccount address balance 0 0 0 0.

Definition account_new_contract (address code_hash : Hash256) : Account :=
  mkAccount address 0 0 code_hash 0 0.

Record AccountChange := mkAccountChange {
  ac_address : Hash256;
  ac_account : Account;
}.

Record StateDiff := mkStateDiff {
  sd_changes : list AccountChange;
  sd_new_root : Hash256;
}.

Record ProtocolVersion := mkProtocolVersion {
  major : Z;
  minor : Z;
  patch : Z;
}.

Definition GENESIS : ProtocolVersion := mkProtocolVersion 0 1 0.

Record BlockHeader := mkBlockHeader {
  bh_height : Z;
  bh_timestamp : Z;
  bh_parent_hash : Hash256;
  bh_tx_root : Hash256;
  bh_state_root : Hash256;
  bh_proof_hash : Hash256;
  bh_tx_count : Z;
  bh_producer : Hash256;
  bh_protocol_version : ProtocolVersion;
  bh_state_diff : option StateDiff;
}.

Record Block := mkBlock {
  blk_header : BlockHeader;
  blk_tx_hashes : list Hash256;
  blk_hash : Hash256;
}.

Class HeaderCodec := {
  bincode_header : BlockHeader -> list Z;
  bincode_read_header : list Z -> option BlockHeader;
}.

(** bincode reads a header back from its bytes. *)
Definition header_reads_back `{HeaderCodec} (h : BlockHeader) : Prop :=
  bincode_read_header (bincode_header h) = Some h.

Section Blocks.
Context `{Crypto, HeaderCodec}.

Definition block_compute_hash (header : BlockHeader) : Hash256 :=
  blake3_derive_key "ARC-chain-block-v1" (bincode_header header).

Definition block_new (header : BlockHeader) (tx_hashes : list Hash256) : Block :=
  mkBlock header tx_hashes (block_compute_hash header).

Definition block_genesis : Block :=
  block_new (mkBlockHeader 0 0 0 0 0 0 0 0 GENESIS None) [].

(** What the hash of a header reads. *)
Definition header_input (header : BlockHeader) : string * list Z :=
  ("ARC-chain-block-v1", bincode_header header).

Lemma block_hash_binds inputs h1 h2 :
  derive_key_apart inputs -> header_input h1 ∈ inputs -> header_input h2 ∈ inputs ->
  header_reads_back h1 -> header_reads_back h2 ->
  block_compute_hash h1 = block_compute_hash h2 -> h1 = h2.
Proof.
  intros Hapart Hi1 Hi2 Hr1 Hr2 Heq%(Hapart _ _ _ Hi1 Hi2).
  apply (inj Some). unfold header_reads_back in *. congruence.
Qed.

End Blocks.
