(* ===== verification/Certificates.v ===== *)
(** * Absence and finality certificates (crates/arc-consensus/src/view_change.rs)

    Signed statements of single validators, the quorum certificates made of them,
    the state machine that decides when an absence may be signed, the durable
    signing record, the vote collectors and the checkpoint envelope that finality
    certificates authorise. *)

From S2P Require Import Prelude Crypto Validators Dag Blocks.

Definition DEFAULT_SKIP_GRACE_MS : Z := 2000.
Definition RECENT_ABSENCE_GRACE_MS : Z := 250.
Definition RECENT_ABSENCE_ROUNDS : Z := 3.

Definition SKIP_VOTE_DOMAIN : list Z := ascii_bytes "arc.consensus.skipvote.v1".
Definition FINALITY_VOTE_DOMAIN : list Z := ascii_bytes "arc.consensus.finalityvote.v1".
Definition VALIDATOR_SET_DOMAIN : list Z := ascii_bytes "arc.consensus.validatorset.v1".

Inductive CertificateError :=
| WrongDomain (expected found : ConsensusDomain)
| WrongValidatorSet
| InconsistentVote (index : Z)
| UnknownVoter (a : Address)
| DuplicateVoter (a : Address)
| BadSignature (a : Address)
| BelowQuorum (signing q : Z)
| Empty
| ConflictingFinality (height : Z) (held offered : Hash256).

Inductive AbsenceReason := NoBlock.

#[global] Instance AbsenceReason_eq_dec : EqDecision AbsenceReason.
Proof. solve_decision. Defined.

#[global] Instance AbsenceReason_countable : Countable AbsenceReason.
Proof.
  apply (inj_countable' (fun _ => ()) (fun _ => NoBlock)). by intros [].
Defined.

Record SkipVote := mkSkipVote {
  sv_domain : ConsensusDomain;
  sv_validator_set_hash : Hash256;
  sv_round : Z;
  sv_absentee : Address;
  sv_voter : Address;
  sv_reason : AbsenceReason;
  sv_observed_round_stake : Z;
  sv_signature : Signature;
}.

Record SkipCertificate := mkSkipCertificate {
  sc_domain : ConsensusDomain;
  sc_validator_set_hash : Hash256;
  sc_round : Z;
  sc_absentee : Address;
  sc_reason : AbsenceReason;
  sc_votes : list SkipVote;
}.

Record FinalityVote := mkFinalityVote {
  fv_domain : ConsensusDomain;
  fv_validator_set_hash : Hash256;
  fv_height : Z;
  fv_block_hash : Hash256;
  fv_state_root : Hash256;
  fv_tx_root : Hash256;
  fv_voter : Address;
  fv_signature : Signature;
}.

Record FinalityCertificate := mkFinalityCertificate {
  fc_domain : ConsensusDomain;
  fc_validator_set_hash : Hash256;
  fc_height : Z;
  fc_block_hash : Hash256;
  fc_state_root : Hash256;
  fc_tx_root : Hash256;
  fc_votes : list FinalityVote;
}.

(** The key of [sort_by_key]. *)
Definition member_le (x y : Address * Z) : Prop := x.1 <= y.1.

#[global] Instance member_le_dec : RelDecision member_le.
Proof. intros x y. unfold member_le. apply _. Defined.

Section Votes.
Context `{Crypto}.

(** ** Transcripts *)

Definition sorted_members (s : ValidatorSet) : list (Address * Z) :=
  merge_sort member_le ((fun v => (v_address v, v_stake v)) <$> validators s).

Definition validator_set_hash (s : ValidatorSet) : Hash256 :=
  let members := sorted_members s in
  hash_bytes (VALIDATOR_SET_DOMAIN ++ u64_le (epoch s) ++ u64_le (Z.of_nat (length members)) ++
              mjoin ((fun m => hash_to_bytes m.1 ++ u64_le m.2) <$> members)).

Definition domain_bytes (d : ConsensusDomain) : list Z :=
  hash_to_bytes (domain_hash d) ++ u64_le (recovery_epoch d) ++ u64_le (validator_set_id d).

Definition reason_byte (r : AbsenceReason) : Z := match r with NoBlock => 0 end.

Definition skip_vote_transcript (d : ConsensusDomain) (vsh : Hash256) (rnd : Z)
    (absentee voter : Address) (reason : AbsenceReason) (observed : Z) : Hash256 :=
  hash_bytes (SKIP_VOTE_DOMAIN ++ domain_bytes d ++ hash_to_bytes vsh ++ u64_le rnd ++
              hash_to_bytes absentee ++ hash_to_bytes voter ++ [reason_byte reason] ++
              u64_le observed).

Definition sv_transcript (v : SkipVote) : Hash256 :=
  skip_vote_transcript (sv_domain v) (sv_validator_set_hash v) (sv_round v) (sv_absentee v)
    (sv_voter v) (sv_reason v) (sv_observed_round_stake v).

Definition sv_sign (d : ConsensusDomain) (vsh : Hash256) (rnd : Z) (absentee : Address)
    (reason : AbsenceReason) (observed : Z) (keypair : KeyPair) : outcome SignatureError SkipVote :=
  let voter := kp_address keypair in
  let transcript := skip_vote_transcript d vsh rnd absentee voter reason observed in
  sig ← kp_sign keypair transcript;
  Ok (mkSkipVote d vsh rnd absentee voter reason observed sig).

Definition finality_vote_transcript (d : ConsensusDomain) (vsh : Hash256) (height : Z)
    (block_hash state_root tx_root : Hash256) (voter : Address) : Hash256 :=
  hash_bytes (FINALITY_VOTE_DOMAIN ++ domain_bytes d ++ hash_to_bytes vsh ++ u64_le height ++
              hash_to_bytes block_hash ++ hash_to_bytes state_root ++ hash_to_bytes tx_root ++
              hash_to_bytes voter).

Definition fv_transcript (v : FinalityVote) : Hash256 :=
  finality_vote_transcript (fv_domain v) (fv_validator_set_hash v) (fv_height v)
    (fv_block_hash v) (fv_state_root v) (fv_tx_root v) (fv_voter v).

Definition fv_sign (d : ConsensusDomain) (vsh : Hash256) (height : Z)
    (block_hash state_root tx_root : Hash256) (keypair : KeyPair)
    : outcome SignatureError FinalityVote :=
  let voter := kp_address keypair in
  let transcript := finality_vote_transcript d vsh height block_hash state_root tx_root voter in
  sig ← kp_sign keypair transcript;
  Ok (mkFinalityVote d vsh height block_hash state_root tx_root voter sig).

(** ** Verification of one vote *)

(** [verify_against] of both kinds of vote: membership, then the signature. *)
Definition verify_member_signature (s : ValidatorSet) (voter : Address) (sig : Signature)
    (transcript : Hash256) : outcome CertificateError Z :=
  v ← ok_or (get_validator s voter) (UnknownVoter voter);
  _ ← require (is_ok (sig_verify sig transcript voter)) (BadSignature voter);
  Ok (v_stake v).

Definition sv_verify_against (v : SkipVote) (s : ValidatorSet) : outcome CertificateError Z :=
  verify_member_signature s (sv_voter v) (sv_signature v) (sv_transcript v).

Definition fv_verify_against (v : FinalityVote) (s : ValidatorSet) : outcome CertificateError Z :=
  verify_member_signature s (fv_voter v) (fv_signature v) (fv_transcript v).

(** ** Verification of a certificate *)

(** The loop both [verify] functions run over the votes, with the consistency
    check, the voter and the check of one vote as arguments. *)
Fixpoint vote_tally {V} (consistent : V -> bool) (voter : V -> Address)
    (verify : V -> outcome CertificateError Z) (index : Z) (seen : gset Address)
    (signing : Z) (l : list V) : outcome CertificateError Z :=
  match l with
  | [] => Ok signing
  | v :: l' =>
      _ ← require (consistent v) (InconsistentVote index);
      _ ← require (bool_decide (voter v ∉ seen)) (DuplicateVoter (voter v));
      stake ← verify v;
      signing' ← expect (checked_add signing stake);
      vote_tally consistent voter verify (index + 1) ({[voter v]} ∪ seen) signing' l'
  end.

Definition sv_consistent (c : SkipCertificate) (s : ValidatorSet) (v : SkipVote) : bool :=
  bool_decide (sv_domain v = sc_domain c) &&
  bool_decide (sv_validator_set_hash v = sc_validator_set_hash c) &&
  bool_decide (sv_round v = sc_round c) &&
  bool_decide (sv_absentee v = sc_absentee c) &&
  bool_decide (sv_reason v = sc_reason c) &&
  bool_decide (quorum s <= sv_observed_round_stake v).

Definition sc_tally (c : SkipCertificate) (s : ValidatorSet) : outcome CertificateError Z :=
  vote_tally (sv_consistent c s) sv_voter (fun v => sv_verify_against v s) 0 ∅ 0 (sc_votes c).

Definition sc_verify (c : SkipCertificate) (expected_domain : ConsensusDomain) (s : ValidatorSet)
    : outcome CertificateError Z :=
  _ ← require (bool_decide (sc_domain c = expected_domain))
        (WrongDomain expected_domain (sc_domain c));
  _ ← require (bool_decide (sc_validator_set_hash c = validator_set_hash s)) WrongValidatorSet;
  _ ← require (negb (bool_decide (length (sc_votes c) = 0%nat))) Empty;
  signing ← sc_tally c s;
  _ ← require (bool_decide (quorum s <= signing)) (BelowQuorum signing (quorum s));
  Ok signing.

Definition fv_consistent (c : FinalityCertificate) (v : FinalityVote) : bool :=
  bool_decide (fv_domain v = fc_domain c) &&
  bool_decide (fv_validator_set_hash v = fc_validator_set_hash c) &&
  bool_decide (fv_height v = fc_height c) &&
  bool_decide (fv_block_hash v = fc_block_hash c) &&
  bool_decide (fv_state_root v = fc_state_root c) &&
  bool_decide (fv_tx_root v = fc_tx_root c).

Definition fc_tally (c : FinalityCertificate) (s : ValidatorSet) : outcome CertificateError Z :=
  vote_tally (fv_consistent c) fv_voter (fun v => fv_verify_against v s) 0 ∅ 0 (fc_votes c).

Definition fc_verify (c : FinalityCertificate) (expected_domain : ConsensusDomain)
    (s : ValidatorSet) : outcome CertificateError Z :=
  _ ← require (bool_decide (fc_domain c = expected_domain))
        (WrongDomain expected_domain (fc_domain c));
  _ ← require (bool_decide (fc_validator_set_hash c = validator_set_hash s)) WrongValidatorSet;
  _ ← require (negb (bool_decide (length (fc_votes c) = 0%nat))) Empty;
  signing ← fc_tally c s;
  _ ← require (bool_decide (quorum s <= signing)) (BelowQuorum signing (quorum s));
  Ok signing.

End Votes.

(** ** The durable signing record *)

Record ConsensusSigningRecord := mkSigningRecord {
  skipped_rounds : gmap Z (gmap Address AbsenceReason);
  finality_votes : gmap Z (Hash256 * Hash256 * Hash256);
  last_applied_round : option Z;
}.

#[global] Instance eta_ConsensusSigningRecord : Eta ConsensusSigningRecord := fun r =>
  mkSigningRecord (skipped_rounds r) (finality_votes r) (last_applied_round r).

Definition record_prune (r : ConsensusSigningRecord) (finality_floor absence_floor : Z)
    : ConsensusSigningRecord :=
  r <| finality_votes := filter (fun kv => finality_floor <= kv.1) (finality_votes r) |>
    <| skipped_rounds := filter (fun kv => absence_floor <= kv.1) (skipped_rounds r) |>.

Definition next_round_to_scan (r : ConsensusSigningRecord) : Z :=
  match last_applied_round r with
  | Some applied => saturating_add applied 1
  | None => 0
  end.

Record LegacySigningRecordV1 := mkLegacySigningRecordV1 {
  lg_skipped_rounds : gmap Z (gmap Address AbsenceReason);
  lg_finality_votes : gmap Z (Hash256 * Hash256 * Hash256);
  lg_durable_commit_round : Z;
}.

Definition migrate (l : LegacySigningRecordV1) : ConsensusSigningRecord :=
  mkSigningRecord (lg_skipped_rounds l) (lg_finality_votes l)
    (if bool_decide (0 < lg_durable_commit_round l)
     then Some (lg_durable_commit_round l) else None).

Inductive SigningRecordError :=
| Truncated
| UnknownVersion (version : Z)
| Malformed.

(** bincode of the record bodies. *)
Class RecordCodec := {
  bincode_record : ConsensusSigningRecord -> list Z;
  bincode_read_record : list Z -> option ConsensusSigningRecord;
  bincode_read_legacy : list Z -> option LegacySigningRecordV1;
}.

Class RecordCodecLaws `{RecordCodec} : Prop :=
  bincode_record_read r : bincode_read_record (bincode_record r) = Some r.

Definition SIGNING_RECORD_MAGIC : list Z := ascii_bytes "ARC-SIGNREC".
Definition SIGNING_RECORD_VERSION : Z := 2.

Fixpoint strip_prefix (prefix bytes : list Z) : option (list Z) :=
  match prefix, bytes with
  | [], _ => Some bytes
  | p :: prefix', b :: bytes' =>
      if bool_decide (p = b) then strip_prefix prefix' bytes' else None
  | _ :: _, [] => None
  end.

Section Record.
Context `{RecordCodec}.

Definition record_encode (r : ConsensusSigningRecord) : list Z :=
  SIGNING_RECORD_MAGIC ++ [SIGNING_RECORD_VERSION] ++ bincode_record r.

Definition record_decode (bytes : list Z) : outcome SigningRecordError ConsensusSigningRecord :=
  match strip_prefix SIGNING_RECORD_MAGIC bytes with
  | Some rest =>
      match rest with
      | [] => Err Truncated
      | version :: payload =>
          _ ← require (bool_decide (version = SIGNING_RECORD_VERSION)) (UnknownVersion version);
          ok_or (bincode_read_record payload) Malformed
      end
  | None =>
      legacy ← ok_or (bincode_read_legacy bytes) Malformed;
      Ok (migrate legacy)
  end.

End Record.

(** ** The absence state machine *)

Inductive SkipRefusal :=
| RoundBelowQuorum
| AbsenteeBlockPresent
| WithinGrace
| ConflictingSkip
| RoundAlreadyPassed.

Record RoundObservation := mkRoundObservation {
  ob_stake : Z;
  ob_condition_broken : bool;
  ob_holding_since : option Z;
}.

Record SkipTracker := mkSkipTracker {
  tr_domain : ConsensusDomain;
  tr_validator_set_hash : Hash256;
  tr_grace_ms : Z;
  tr_recent_absence_grace_ms : Z;
  tr_recent_absence : gmap Address Z;
  tr_observations : gmap (Z * Address * AbsenceReason) RoundObservation;
  tr_record : ConsensusSigningRecord;
  tr_refused : gset (Z * Address);
}.

#[global] Instance eta_SkipTracker : Eta SkipTracker := fun t =>
  mkSkipTracker (tr_domain t) (tr_validator_set_hash t) (tr_grace_ms t)
    (tr_recent_absence_grace_ms t) (tr_recent_absence t) (tr_observations t) (tr_record t)
    (tr_refused t).

(** [entry(a).and_modify(|r| *r = r.max(round)).or_insert(round)]. *)
Definition note_recent (m : gmap Address Z) (a : Address) (rnd : Z) : gmap Address Z :=
  <[a := match m !! a with Some r => Z.max r rnd | None => rnd end]> m.

(** All (round, member) pairs of a record.  [NoBlock] is the only reason there is, so every
    pair also counts as a recent absence in [tracker_init]. *)
Definition attested_pairs (r : ConsensusSigningRecord) : list (Z * Address) :=
  mjoin ((fun rm : Z * gmap Address AbsenceReason =>
            (fun mr : Address * AbsenceReason => (rm.1, mr.1)) <$> map_to_list rm.2)
         <$> map_to_list (skipped_rounds r)).

Definition tracker_init (d : ConsensusDomain) (vsh : Hash256) (grace_ms : Z)
    (r : ConsensusSigningRecord) : SkipTracker :=
  mkSkipTracker d vsh grace_ms grace_ms
    (foldl (fun m p => note_recent m p.2 p.1) ∅ (attested_pairs r)) ∅ r
    (list_to_set (attested_pairs r)).

Definition with_recent_absence_grace (t : SkipTracker) (grace_ms : Z) : SkipTracker :=
  t <| tr_recent_absence_grace_ms := Z.min grace_ms (tr_grace_ms t) |>.

Definition refuses (t : SkipTracker) (rnd : Z) (absentee : Address) : bool :=
  bool_decide ((rnd, absentee) ∈ tr_refused t).

Definition note_durable_commit_round (t : SkipTracker) (rnd : Z) : SkipTracker :=
  if match last_applied_round (tr_record t) with
     | None => true
     | Some applied => bool_decide (applied < rnd)
     end
  then t <| tr_record := (tr_record t) <| last_applied_round := Some rnd |> |>
  else t.

Definition note_finality_vote (t : SkipTracker) (height : Z)
    (identity : Hash256 * Hash256 * Hash256) : SkipTracker :=
  t <| tr_record := (tr_record t)
         <| finality_votes := <[height := identity]> (finality_votes (tr_record t)) |> |>.

Definition observe (t : SkipTracker) (rnd : Z) (member : Address) (reason : AbsenceReason)
    (distinct_author_stake : Z) (condition_holds : bool) (q now_ms : Z) : SkipTracker :=
  let recent :=
    if bool_decide (reason = NoBlock) && negb condition_holds &&
       match tr_recent_absence t !! member with
       | Some r => bool_decide (r < rnd)
       | None => false
       end
    then delete member (tr_recent_absence t)
    else tr_recent_absence t in
  let key := (rnd, member, reason) in
  let entry := default (mkRoundObservation 0 false None) (tr_observations t !! key) in
  let stake := Z.max (ob_stake entry) distinct_author_stake in
  let broken := ob_condition_broken entry || negb condition_holds in
  let since :=
    if bool_decide (q <= stake) && negb broken
    then Some (default now_ms (ob_holding_since entry))
    else None in
  t <| tr_recent_absence := recent |>
    <| tr_observations := <[key := mkRoundObservation stake broken since]> (tr_observations t) |>.

(** Recording an attestation, shared by signing and by adopting a certificate. *)
Definition record_absence (t : SkipTracker) (rnd : Z) (absentee : Address)
    (reason : AbsenceReason) : SkipTracker :=
  let r := tr_record t in
  let members := default ∅ (skipped_rounds r !! rnd) in
  t <| tr_record := r <| skipped_rounds :=
                           <[rnd := <[absentee := reason]> members]> (skipped_rounds r) |> |>
    <| tr_refused := {[(rnd, absentee)]} ∪ tr_refused t |>
    <| tr_recent_absence :=
         if bool_decide (reason = NoBlock)
         then note_recent (tr_recent_absence t) absentee rnd
         else tr_recent_absence t |>.

Definition adopt_certificate (t : SkipTracker) (c : SkipCertificate) : SkipTracker :=
  record_absence t (sc_round c) (sc_absentee c) (sc_reason c).

Definition prune_observations_below (t : SkipTracker) (rnd : Z) : SkipTracker :=
  t <| tr_observations := filter (fun kv => rnd <= kv.1.1.1) (tr_observations t) |>
    <| tr_refused := filter (fun p => rnd <= p.1) (tr_refused t) |>.

Definition prune_record (t : SkipTracker) (finality_floor absence_floor : Z) : SkipTracker :=
  t <| tr_record := record_prune (tr_record t) finality_floor absence_floor |>.

Section Tracker.
Context `{Crypto}.

Definition sign_if_permitted (t : SkipTracker) (rnd : Z) (absentee : Address)
    (reason : AbsenceReason) (commit_cursor q now_ms : Z) (keypair : KeyPair)
    : outcome SkipRefusal (SkipVote * SkipTracker) :=
  _ ← require (negb (bool_decide (rnd < commit_cursor))) RoundAlreadyPassed;
  ob ← ok_or (tr_observations t !! (rnd, absentee, reason)) RoundBelowQuorum;
  _ ← require (negb (ob_condition_broken ob)) AbsenteeBlockPresent;
  _ ← require (negb (bool_decide (ob_stake ob < q))) RoundBelowQuorum;
  since ← ok_or (ob_holding_since ob) RoundBelowQuorum;
  let grace_ms :=
    if bool_decide (reason = NoBlock) &&
       match tr_recent_absence t !! absentee with
       | Some r => bool_decide (rnd <= saturating_add r RECENT_ABSENCE_ROUNDS)
       | None => false
       end
    then tr_recent_absence_grace_ms t
    else tr_grace_ms t in
  _ ← require (negb (bool_decide (saturating_sub now_ms since < grace_ms))) WithinGrace;
  match sv_sign (tr_domain t) (tr_validator_set_hash t) rnd absentee reason (ob_stake ob) keypair with
  | Ok vote => Ok (vote, record_absence t rnd absentee reason)
  | _ => Err ConflictingSkip
  end.

End Tracker.

(** ** The vote collectors *)

Notation SkipVoteCollector := (gmap (Z * Address * AbsenceReason) (gmap Address SkipVote)).
Notation FinalityVoteCollector := (gmap (Z * Hash256) (gmap Address FinalityVote)).

(** The saturating tally over the distinct keys of a slot. *)
Definition saturating_stake (s : ValidatorSet) (voters : list Address) : Z :=
  foldl (fun acc a => match get_validator s a with
                      | Some v => saturating_add acc (v_stake v)
                      | None => acc
                      end) 0 voters.

Section Collectors.
Context `{Crypto}.

(** [SkipVoteCollector::add]: the collector is updated even when no certificate
    results; a rejected vote leaves it unchanged. *)
Definition skip_add (col : SkipVoteCollector) (vote : SkipVote)
    (expected_domain : ConsensusDomain) (s : ValidatorSet)
    : outcome CertificateError (option SkipCertificate * SkipVoteCollector) :=
  _ ← require (bool_decide (sv_domain vote = expected_domain))
        (WrongDomain expected_domain (sv_domain vote));
  _ ← require (bool_decide (sv_validator_set_hash vote = validator_set_hash s)) WrongValidatorSet;
  _ ← require (negb (bool_decide (sv_observed_round_stake vote < quorum s))) (InconsistentVote 0);
  _ ← sv_verify_against vote s;
  let key := (sv_round vote, sv_absentee vote, sv_reason vote) in
  let round_votes := <[sv_voter vote := vote]> (default ∅ (col !! key)) in
  let col' := <[key := round_votes]> col in
  let signing := saturating_stake s (fst <$> map_to_list round_votes) in
  if bool_decide (quorum s <= signing)
  then Ok (Some (mkSkipCertificate expected_domain (validator_set_hash s) (sv_round vote)
                   (sv_absentee vote) (sv_reason vote) (snd <$> map_to_list round_votes)), col')
  else Ok (None, col').

Definition skip_prune_below (col : SkipVoteCollector) (rnd : Z) : SkipVoteCollector :=
  filter (fun kv => rnd <= kv.1.1.1) col.

Definition fv_header (v : FinalityVote) : Hash256 * Hash256 * ConsensusDomain * Hash256 :=
  (fv_state_root v, fv_tx_root v, fv_domain v, fv_validator_set_hash v).

(** The stored votes of a slot that count towards a header: same roots, domain and
    committee, from a current member. *)
Definition counted_votes (s : ValidatorSet) (header : Hash256 * Hash256 * ConsensusDomain * Hash256)
    (votes : gmap Address FinalityVote) : list (Address * FinalityVote) :=
  filter (fun av => fv_header av.2 = header /\ is_validator s av.1 = true) (map_to_list votes).

Definition finality_add (col : FinalityVoteCollector) (vote : FinalityVote)
    (expected_domain : ConsensusDomain) (s : ValidatorSet)
    : outcome CertificateError (option FinalityCertificate * FinalityVoteCollector) :=
  _ ← require (bool_decide (fv_domain vote = expected_domain))
        (WrongDomain expected_domain (fv_domain vote));
  _ ← require (bool_decide (fv_validator_set_hash vote = validator_set_hash s)) WrongValidatorSet;
  _ ← fv_verify_against vote s;
  let key := (fv_height vote, fv_block_hash vote) in
  let block_votes := default ∅ (col !! key) in
  _ ← require match block_votes !! fv_voter vote with
              | Some existing =>
                  bool_decide (fv_state_root existing = fv_state_root vote) &&
                  bool_decide (fv_tx_root existing = fv_tx_root vote)
              | None => true
              end (InconsistentVote 0);
  let block_votes' := <[fv_voter vote := vote]> block_votes in
  let col' := <[key := block_votes']> col in
  let counted := counted_votes s (fv_header vote) block_votes' in
  let signing := saturating_stake s (fst <$> counted) in
  if bool_decide (quorum s <= signing)
  then Ok (Some (mkFinalityCertificate expected_domain (validator_set_hash s) (fv_height vote)
                   (fv_block_hash vote) (fv_state_root vote) (fv_tx_root vote)
                   (snd <$> counted)), col')
  else Ok (None, col').

Definition finality_prune_below (col : FinalityVoteCollector) (height : Z) : FinalityVoteCollector :=
  filter (fun kv => height <= kv.1.1) col.

End Collectors.

(** ** Checkpoint envelopes *)

Inductive EnvelopeError :=
| EnvCertificate (e : CertificateError)
| DigestMismatch (expected found : Hash256)
| StateRootMismatch (expected found : Hash256)
| HeightMismatch (expected found : Z)
| TipMismatch
| AnchorMismatch.

Record SnapshotIdentity := mkSnapshotIdentity {
  si_height : Z;
  si_state_root : Hash256;
  si_digest : Hash256;
}.

Record CheckpointEnvelope := mkCheckpointEnvelope {
  ce_certificate : FinalityCertificate;
  ce_snapshot : SnapshotIdentity;
  ce_anchor_hash : Hash256;
  ce_anchor_round : Z;
}.

(** The [?] that converts a [CertificateError]. *)
Definition map_certificate_error {A} (o : outcome CertificateError A) : outcome EnvelopeError A :=
  match o with
  | Ok a => Ok a
  | Err e => Err (EnvCertificate e)
  | Panic => Panic
  end.

Section Envelope.
Context `{Crypto, HeaderCodec}.

Definition ce_verify (e : CheckpointEnvelope) (expected_domain : ConsensusDomain)
    (s : ValidatorSet) : outcome EnvelopeError Z :=
  signing ← map_certificate_error (fc_verify (ce_certificate e) expected_domain s);
  _ ← require (bool_decide (si_height (ce_snapshot e) = fc_height (ce_certificate e)))
        (HeightMismatch (fc_height (ce_certificate e)) (si_height (ce_snapshot e)));
  _ ← require (bool_decide (si_state_root (ce_snapshot e) = fc_state_root (ce_certificate e)))
        (StateRootMismatch (fc_state_root (ce_certificate e)) (si_state_root (ce_snapshot e)));
  Ok signing.

Definition verify_resume_point (e : CheckpointEnvelope) (tip : Block) (d : ConsensusDomain)
    : outcome EnvelopeError Z :=
  _ ← require (bool_decide (blk_hash tip = fc_block_hash (ce_certificate e)) &&
               bool_decide (bh_height (blk_header tip) = fc_height (ce_certificate e)) &&
               bool_decide (block_compute_hash (blk_header tip) = blk_hash tip)) TipMismatch;
  let commitment := decision_commitment d (ce_anchor_hash e) (ce_anchor_round e) in
  _ ← require (bool_decide (commitment = bh_proof_hash (blk_header tip))) AnchorMismatch;
  ok_or (checked_add (ce_anchor_round e) 1) AnchorMismatch.

Definition verify_payload (e : CheckpointEnvelope) (payload : list Z)
    (expected_domain : ConsensusDomain) (s : ValidatorSet) : outcome EnvelopeError Z :=
  signing ← ce_verify e expected_domain s;
  let digest := hash_bytes payload in
  _ ← require (bool_decide (digest = si_digest (ce_snapshot e)))
        (DigestMismatch (si_digest (ce_snapshot e)) digest);
  Ok signing.

End Envelope.

(** ** Certificates: what verification establishes *)

Section VerifyTheorems.
Context `{Crypto}.

Lemma verify_member_signature_Ok s voter sig transcript stake :
  verify_member_signature s voter sig transcript = Ok stake <->
  (exists v, get_validator s voter = Some v /\ v_stake v = stake) /\
  sig_verify sig transcript voter = Ok ().
Proof.
  unfold verify_member_signature. split.
  - intros Hrun. inv_ok. split; [eauto|].
    by destruct (sig_verify sig transcript voter) as [[]| |].
  - intros [(v & -> & <-) Hsig]. simpl. by rewrite Hsig.
Qed.

Lemma verify_member_signature_no_panic s voter sig transcript :
  verify_member_signature s voter sig transcript <> Panic.
Proof.
  unfold verify_member_signature. destruct (get_validator s voter); [|done].
  simpl. by destruct (is_ok _).
Qed.

Section Tally.
Context {V : Type} (s : ValidatorSet) (Hwf : vs_wf s).
Context (consistent : V -> bool) (voter : V -> Address) (sig : V -> Signature)
  (transcript : V -> Hash256).

Let verify (v : V) := verify_member_signature s (voter v) (sig v) (transcript v).

Lemma vote_tally_Ok index seen l signing :
  vote_tally consistent voter verify index seen (stake_in s seen) l = Ok signing <->
  Forall (fun v => consistent v = true) l /\ NoDup (voter <$> l) /\
  Forall (fun v => voter v ∉ seen /\ is_validator s (voter v) = true /\
                   sig_verify (sig v) (transcript v) (voter v) = Ok ()) l /\
  signing = stake_in s (seen ∪ list_to_set (voter <$> l)).
Proof.
  revert index seen. induction l as [|v l IH]; intros index seen; cbn [vote_tally].
  { split.
    - intros [= <-]. split_and!; try constructor. f_equal. set_solver.
    - intros (_ & _ & _ & ->). do 2 f_equal. set_solver. }
  rewrite fmap_cons, !Forall_cons, NoDup_cons, <- list_to_set_cons_union. split.
  - intros Hrun. inv_ok. dec_hyps. unfold verify in *.
    match goal with Hv : verify_member_signature _ _ _ _ = _ |- _ =>
      apply verify_member_signature_Ok in Hv as [(w & Hw & <-) Hsig] end.
    split_checked. subst.
    rewrite (Z.add_comm _ (v_stake w)), <- (stake_in_insert s (voter v) w seen) in Hrun by done.
    apply IH in Hrun as (Hc & Hnd & Hl & ->). split_and!; try done.
    + intros (u & Hu & Hin)%list_elem_of_fmap. rewrite Forall_forall in Hl.
      apply Hl in Hin as [Hin _]. set_solver.
    + apply bool_decide_eq_true. eauto.
    + eapply Forall_impl; [exact Hl|]. simpl. set_solver.
  - intros ((Hcv & Hc) & (Hnin & Hnd) & ((Hseen & Hmem & Hsig) & Hl) & ->).
    rewrite Hcv, bool_decide_true by done. simpl. apply bool_decide_eq_true in Hmem as [w Hw].
    unfold verify. rewrite (proj2 (verify_member_signature_Ok _ _ _ _ (v_stake w))) by eauto.
    simpl. pose proof (stake_in_insert s (voter v) w seen Hwf Hw Hseen) as Hins.
    pose proof (stake_in_le_total s Hwf ({[voter v]} ∪ seen)).
    pose proof (wf_total_bounds s Hwf). unfold u64 in *.
    unfold checked_add. rewrite bool_decide_true by lia. simpl.
    rewrite (Z.add_comm _ (v_stake w)), <- Hins. apply IH. split_and!; try done.
    rewrite Forall_forall in *. intros u Hu. destruct (Hl u Hu) as (? & ? & ?).
    split_and!; try done. intros [Heq%elem_of_singleton|?]%elem_of_union; [|done].
    apply Hnin. rewrite <- Heq. by apply list_elem_of_fmap_2.
Qed.

Lemma vote_tally_no_panic index seen l :
  vote_tally consistent voter verify index seen (stake_in s seen) l <> Panic.
Proof.
  revert index seen. induction l as [|v l IH]; intros index seen; cbn [vote_tally]; [done|].
  destruct (consistent v); [simpl|done]. case_bool_decide as Hseen; [simpl|done].
  unfold verify. pose proof (verify_member_signature_no_panic s (voter v) (sig v) (transcript v)).
  destruct (verify_member_signature _ _ _ _) as [stake| |] eqn:Hv; [|done|done].
  apply verify_member_signature_Ok in Hv as [(w & Hw & <-) _]. simpl.
  pose proof (stake_in_insert s (voter v) w seen Hwf Hw Hseen) as Hins.
  pose proof (stake_in_le_total s Hwf ({[voter v]} ∪ seen)).
  pose proof (wf_total_bounds s Hwf). unfold u64 in *.
  unfold checked_add. rewrite bool_decide_true by lia. simpl.
  rewrite (Z.add_comm _ (v_stake w)), <- Hins. apply IH.
Qed.

Lemma vote_tally_start l signing :
  vote_tally consistent voter verify 0 ∅ 0 l = Ok signing <->
  Forall (fun v => consistent v = true) l /\ NoDup (voter <$> l) /\
  Forall (fun v => is_validator s (voter v) = true /\
                   sig_verify (sig v) (transcript v) (voter v) = Ok ()) l /\
  signing = stake_in s (list_to_set (voter <$> l)).
Proof.
  pose proof (vote_tally_Ok 0 ∅ l signing) as Ht.
  rewrite stake_in_empty, union_empty_l_L in Ht. rewrite Ht.
  split; intros (Hc & Hnd & Hl & Hs); split_and!; try done;
    eapply Forall_impl; try exact Hl; simpl; set_solver.
Qed.

Lemma vote_tally_start_no_panic l : vote_tally consistent voter verify 0 ∅ 0 l <> Panic.
Proof. rewrite <- (stake_in_empty s) at 2. apply vote_tally_no_panic. Qed.

End Tally.

(** The statement a finality certificate makes, as each of its voters signed it. *)
Definition fc_transcript (c : FinalityCertificate) (voter : Address) : Hash256 :=
  finality_vote_transcript (fc_domain c) (fc_validator_set_hash c) (fc_height c)
    (fc_block_hash c) (fc_state_root c) (fc_tx_root c) voter.

Definition fc_voters (c : FinalityCertificate) : list Address := fv_voter <$> fc_votes c.
Definition sc_voters (c : SkipCertificate) : list Address := sv_voter <$> sc_votes c.

Lemma fv_consistent_spec c v :
  fv_consistent c v = true <->
  fv_domain v = fc_domain c /\ fv_validator_set_hash v = fc_validator_set_hash c /\
  fv_height v = fc_height c /\ fv_block_hash v = fc_block_hash c /\
  fv_state_root v = fc_state_root c /\ fv_tx_root v = fc_tx_root c.
Proof. unfold fv_consistent. rewrite !andb_true_iff, !bool_decide_eq_true. tauto. Qed.

Lemma sv_consistent_spec c s v :
  sv_consistent c s v = true <->
  sv_domain v = sc_domain c /\ sv_validator_set_hash v = sc_validator_set_hash c /\
  sv_round v = sc_round c /\ sv_absentee v = sc_absentee c /\ sv_reason v = sc_reason c /\
  quorum s <= sv_observed_round_stake v.
Proof. unfold sv_consistent. rewrite !andb_true_iff, !bool_decide_eq_true. tauto. Qed.

Lemma fv_consistent_transcript c v :
  fv_consistent c v = true -> fv_transcript v = fc_transcript c (fv_voter v).
Proof.
  intros (? & ? & ? & ? & ? & ?)%fv_consistent_spec.
  unfold fv_transcript, fc_transcript. congruence.
Qed.

Definition fv_valid (s : ValidatorSet) (v : FinalityVote) : Prop :=
  is_validator s (fv_voter v) = true /\
  sig_verify (fv_signature v) (fv_transcript v) (fv_voter v) = Ok ().

Definition sv_valid (s : ValidatorSet) (v : SkipVote) : Prop :=
  is_validator s (sv_voter v) = true /\
  sig_verify (sv_signature v) (sv_transcript v) (sv_voter v) = Ok ().

Lemma fc_verify_Ok c d s signing :
  vs_wf s ->
  fc_verify c d s = Ok signing <->
  fc_domain c = d /\ fc_validator_set_hash c = validator_set_hash s /\
  length (fc_votes c) <> 0%nat /\
  Forall (fun v => fv_consistent c v = true) (fc_votes c) /\ NoDup (fc_voters c) /\
  Forall (fv_valid s) (fc_votes c) /\
  signing = stake_in s (list_to_set (fc_voters c)) /\ quorum s <= signing.
Proof.
  intros Hwf. unfold fc_verify, fc_tally, fv_verify_against. split.
  - intros Hrun. inv_ok. dec_hyps. rename select (vote_tally _ _ _ _ _ _ _ = _) into Ht.
    apply (vote_tally_start s Hwf _ _ fv_signature fv_transcript) in Ht as (? & ? & ? & ->). done.
  - intros (? & ? & ? & Hc & Hnd & Hl & Hs & Hq).
    rewrite (bool_decide_true (_ = d)), (bool_decide_true (_ = validator_set_hash s)),
      bool_decide_false by done. simpl.
    rewrite (proj2 (vote_tally_start s Hwf (fv_consistent c) fv_voter fv_signature fv_transcript
                      (fc_votes c) signing)) by done.
    simpl. by rewrite bool_decide_true.
Qed.

Lemma sc_verify_Ok c d s signing :
  vs_wf s ->
  sc_verify c d s = Ok signing <->
  sc_domain c = d /\ sc_validator_set_hash c = validator_set_hash s /\
  length (sc_votes c) <> 0%nat /\
  Forall (fun v => sv_consistent c s v = true) (sc_votes c) /\ NoDup (sc_voters c) /\
  Forall (sv_valid s) (sc_votes c) /\
  signing = stake_in s (list_to_set (sc_voters c)) /\ quorum s <= signing.
Proof.
  intros Hwf. unfold sc_verify, sc_tally, sv_verify_against. split.
  - intros Hrun. inv_ok. dec_hyps. rename select (vote_tally _ _ _ _ _ _ _ = _) into Ht.
    apply (vote_tally_start s Hwf _ _ sv_signature sv_transcript) in Ht as (? & ? & ? & ->). done.
  - intros (? & ? & ? & Hc & Hnd & Hl & Hs & Hq).
    rewrite (bool_decide_true (_ = d)), (bool_decide_true (_ = validator_set_hash s)),
      bool_decide_false by done. simpl.
    rewrite (proj2 (vote_tally_start s Hwf (sv_consistent c s) sv_voter sv_signature sv_transcript
                      (sc_votes c) signing)) by done.
    simpl. by rewrite bool_decide_true.
Qed.

(** Verification always answers: neither certificate check can abort. *)
Lemma verify_no_panic s d (c1 : SkipCertificate) (c2 : FinalityCertificate) :
  vs_wf s -> sc_verify c1 d s <> Panic /\ fc_verify c2 d s <> Panic.
Proof.
  intros Hwf. unfold sc_verify, fc_verify, sc_tally, fc_tally, sv_verify_against, fv_verify_against.
  split; no_panic; by apply vote_tally_start_no_panic.
Qed.

End VerifyTheorems.

(** ** Collectors: every emitted finality certificate verifies *)

Lemma saturating_stake_from s seen l :
  vs_wf s -> NoDup l -> (forall a, a ∈ l -> a ∉ seen) ->
  foldl (fun acc a => match get_validator s a with
                      | Some v => saturating_add acc (v_stake v)
                      | None => acc
                      end) (stake_in s seen) l = stake_in s (seen ∪ list_to_set l).
Proof.
  intros Hwf. revert seen. induction l as [|a l IH]; intros seen Hnd Hseen; cbn [foldl].
  { f_equal. set_solver. }
  apply NoDup_cons in Hnd as [Ha Hnd]. rewrite <- list_to_set_cons_union.
  destruct (get_validator s a) as [v|] eqn:Hv.
  - assert (a ∉ seen) as Hnin by (apply Hseen; set_solver).
    pose proof (stake_in_insert s a v seen Hwf Hv Hnin) as Hins.
    pose proof (stake_in_le_total s Hwf ({[a]} ∪ seen)).
    pose proof (wf_total_bounds s Hwf). unfold u64, saturating_add in *.
    rewrite Z.min_l, Z.add_comm, <- Hins by lia. apply IH; set_solver.
  - rewrite <- (stake_in_unknown s a seen) by done. apply IH; set_solver.
Qed.

Lemma saturating_stake_spec s l :
  vs_wf s -> NoDup l -> saturating_stake s l = stake_in s (list_to_set l).
Proof.
  intros Hwf Hnd. unfold saturating_stake. rewrite <- (stake_in_empty s) at 1.
  rewrite saturating_stake_from by set_solver. by rewrite union_empty_l_L.
Qed.

Section CollectorTheorems.
Context `{Crypto}.

(** What every stored vote keeps of its admission. *)
Definition finality_col_ok (col : FinalityVoteCollector) : Prop :=
  forall key votes a v, col !! key = Some votes -> votes !! a = Some v ->
    fv_voter v = a /\ (fv_height v, fv_block_hash v) = key /\
    sig_verify (fv_signature v) (fv_transcript v) a = Ok ().

Inductive finality_reachable : FinalityVoteCollector -> Prop :=
| finality_start : finality_reachable ∅
| finality_collect col vote d s c col' :
    finality_reachable col -> finality_add col vote d s = Ok (c, col') ->
    finality_reachable col'
| finality_forget col height :
    finality_reachable col -> finality_reachable (finality_prune_below col height).

Lemma finality_add_Ok col vote d s c col' :
  finality_add col vote d s = Ok (c, col') ->
  fv_domain vote = d /\ fv_validator_set_hash vote = validator_set_hash s /\ fv_valid s vote /\
  let votes := <[fv_voter vote := vote]> (default ∅ (col !! (fv_height vote, fv_block_hash vote))) in
  let counted := counted_votes s (fv_header vote) votes in
  col' = <[(fv_height vote, fv_block_hash vote) := votes]> col /\
  c = if bool_decide (quorum s <= saturating_stake s (fst <$> counted))
      then Some (mkFinalityCertificate d (validator_set_hash s) (fv_height vote)
                   (fv_block_hash vote) (fv_state_root vote) (fv_tx_root vote) (snd <$> counted))
      else None.
Proof.
  unfold finality_add. intros Hrun. inv_ok. dec_hyps.
  rename select (fv_verify_against _ _ = _) into Hv.
  apply verify_member_signature_Ok in Hv as [(w & Hw & _) Hsig].
  split; [done|]. split; [done|].
  split; [split; [by eapply is_validator_Some|done]|]. simpl. case_bool_decide; by simplify_eq.
Qed.

Lemma finality_reachable_ok col : finality_reachable col -> finality_col_ok col.
Proof.
  induction 1 as [|col vote d s c col' _ IH Hadd|col height _ IH].
  - intros key votes a v Hk. by rewrite lookup_empty in Hk.
  - apply finality_add_Ok in Hadd as (_ & _ & [_ Hsig] & -> & _).
    intros key votes a v Hk Ha. apply lookup_insert_Some in Hk as [[<- <-]|[? Hk]]; [|by eapply IH].
    apply lookup_insert_Some in Ha as [[<- <-]|[? Ha]]; [done|].
    destruct (col !! _) as [old|] eqn:Hold; [by eapply IH|]. simpl in Ha. by rewrite lookup_empty in Ha.
  - intros key votes a v [Hk _]%map_lookup_filter_Some. by eapply IH.
Qed.

(** The voters of the counted votes are distinct. *)
Lemma counted_voters_NoDup s h votes : NoDup (fst <$> counted_votes s h votes).
Proof.
  unfold counted_votes. eapply sublist_NoDup; [apply (NoDup_fst_map_to_list votes)|].
  apply fmap_sublist, sublist_filter.
Qed.

Lemma counted_voters col s h key votes :
  finality_col_ok col -> col !! key = Some votes ->
  fv_voter <$> (snd <$> counted_votes s h votes) = fst <$> counted_votes s h votes.
Proof.
  intros Hok Hk. rewrite <- list_fmap_compose. apply list_fmap_ext.
  intros i [a v] Hi%list_elem_of_lookup_2. apply list_elem_of_filter in Hi as [_ Hi].
  apply elem_of_map_to_list in Hi. by destruct (Hok _ _ _ _ Hk Hi).
Qed.

Lemma finality_add_verifies col vote d s c col' :
  vs_wf s -> finality_reachable col -> finality_add col vote d s = Ok (Some c, col') ->
  fc_verify c d s = Ok (stake_in s (list_to_set (fc_voters c))).
Proof.
  intros Hwf Hreach Hadd. assert (finality_col_ok col') as Hok'
    by (by eapply finality_reachable_ok, finality_collect).
  apply finality_add_Ok in Hadd as (<- & Hvsh & Hvalid & Hcol & Hc). case_bool_decide as Hq; [|done].
  injection Hc as ->. set (votes := <[fv_voter vote:=vote]> _) in *.
  assert (col' !! (fv_height vote, fv_block_hash vote) = Some votes) as Hk
    by (by rewrite Hcol, lookup_insert_eq).
  pose proof (counted_voters col' s (fv_header vote) _ _ Hok' Hk) as Hvoters.
  pose proof (counted_voters_NoDup s (fv_header vote) votes) as Hnd.
  rewrite saturating_stake_spec in Hq by done.
  apply fc_verify_Ok; [done|]. unfold fc_voters. simpl. rewrite Hvoters. split_and!; try done.
  - rewrite length_fmap. intros Hlen%nil_length_inv. rewrite Hlen in Hq. simpl in Hq.
    rewrite stake_in_empty in Hq. pose proof (wf_quorum_bounds s Hwf). lia.
  - apply Forall_fmap, Forall_forall. intros [a v] [[Hh _] Hin%elem_of_map_to_list]%list_elem_of_filter.
    destruct (Hok' _ _ _ _ Hk Hin) as (_ & Hkey & _). apply fv_consistent_spec. simpl in *.
    unfold fv_header in Hh. simplify_eq. by rewrite <- Hvsh.
  - apply Forall_fmap, Forall_forall. intros [a v] [[_ Hm] Hin%elem_of_map_to_list]%list_elem_of_filter.
    destruct (Hok' _ _ _ _ Hk Hin) as (Ha & _ & Hsig). simpl in *. unfold fv_valid. simpl.
    by subst.
Qed.

End CollectorTheorems.

(** ** Histories of the absence state machine *)

Section TrackerTheorems.
Context `{Crypto}.

Inductive tracker_op :=
| OpObserve (rnd : Z) (member : Address) (reason : AbsenceReason) (stake : Z) (holds : bool)
    (q now_ms : Z)
| OpSign (rnd : Z) (absentee : Address) (reason : AbsenceReason) (cursor q now_ms : Z)
    (keypair : KeyPair)
| OpAdopt (c : SkipCertificate)
| OpDurableCommit (rnd : Z)
| OpFinalityVote (height : Z) (identity : Hash256 * Hash256 * Hash256)
| OpPruneObservations (rnd : Z)
| OpPruneRecord (finality_floor absence_floor : Z).

Definition tracker_apply (t : SkipTracker) (op : tracker_op) : SkipTracker :=
  match op with
  | OpObserve rnd m reason stake holds q now => observe t rnd m reason stake holds q now
  | OpSign rnd a reason cursor q now kp =>
      match sign_if_permitted t rnd a reason cursor q now kp with
      | Ok (_, t') => t'
      | _ => t
      end
  | OpAdopt c => adopt_certificate t c
  | OpDurableCommit rnd => note_durable_commit_round t rnd
  | OpFinalityVote h id => note_finality_vote t h id
  | OpPruneObservations rnd => prune_observations_below t rnd
  | OpPruneRecord ff af => prune_record t ff af
  end.

Definition tracker_run (t : SkipTracker) (ops : list tracker_op) : SkipTracker :=
  foldl tracker_apply t ops.

Lemma tracker_run_snoc t ops op :
  tracker_run t (ops ++ [op]) = tracker_apply (tracker_run t ops) op.
Proof. unfold tracker_run. by rewrite foldl_app. Qed.

Lemma sign_if_permitted_Ok t rnd a reason cursor q now kp vote t' :
  sign_if_permitted t rnd a reason cursor q now kp = Ok (vote, t') ->
  cursor <= rnd /\ t' = record_absence t rnd a reason /\
  sv_sign (tr_domain t) (tr_validator_set_hash t) rnd a reason (sv_observed_round_stake vote) kp
    = Ok vote /\
  exists since, tr_observations t !! (rnd, a, reason) =
      Some (mkRoundObservation (sv_observed_round_stake vote) false (Some since)) /\
    q <= sv_observed_round_stake vote /\
    Z.min (tr_recent_absence_grace_ms t) (tr_grace_ms t) <= saturating_sub now since.
Proof.
  unfold sign_if_permitted. intros Hrun. inv_ok. dec_hyps.
  destruct (sv_sign _ _ _ _ _ _ _) as [vote'| |] eqn:Hsign; [|done|done]. simplify_eq.
  assert (sv_observed_round_stake vote = ob_stake x0) as Hst
    by (unfold sv_sign in Hsign; inv_ok; done).
  rewrite Hst. split; [lia|]. split; [done|]. split; [done|].
  exists x3. destruct x0 as [st broken since]; simpl in *; subst.
  split; [done|]. split; [lia|].
  match goal with H : ~ saturating_sub _ _ < _ |- _ => revert H end. case_match; lia.
Qed.

(** Only [observe] and pruning touch the observations. *)
Lemma tracker_apply_observations t op :
  match op with
  | OpObserve _ _ _ _ _ _ _ | OpPruneObservations _ => True
  | _ => tr_observations (tracker_apply t op) = tr_observations t
  end.
Proof.
  destruct op; try done; simpl.
  - case_match eqn:Hs; [|done..]. case_match. subst.
    by apply sign_if_permitted_Ok in Hs as (_ & -> & _).
  - unfold note_durable_commit_round. by case_match.
Qed.

Lemma observe_lookup t rnd m reason st holds q now key :
  tr_observations (observe t rnd m reason st holds q now) !! key =
  if decide (key = (rnd, m, reason)) then
    let entry := default (mkRoundObservation 0 false None) (tr_observations t !! key) in
    let stake := Z.max (ob_stake entry) st in
    let broken := ob_condition_broken entry || negb holds in
    Some (mkRoundObservation stake broken
      (if bool_decide (q <= stake) && negb broken
       then Some (default now (ob_holding_since entry)) else None))
  else tr_observations t !! key.
Proof.
  unfold observe. cbn [set_field tr_observations]. case_decide as Hk.
  - subst. by rewrite lookup_insert_eq.
  - by rewrite lookup_insert_ne.
Qed.

(** A member seen in a round stays unattestable until the round is pruned. *)
Lemma broken_persists t rnd m reason ops :
  (exists ob, tr_observations t !! (rnd, m, reason) = Some ob /\ ob_condition_broken ob = true) ->
  (forall r, OpPruneObservations r ∈ ops -> r <= rnd) ->
  exists ob, tr_observations (tracker_run t ops) !! (rnd, m, reason) = Some ob /\
             ob_condition_broken ob = true.
Proof.
  intros Ht. induction ops as [|op ops IH] using rev_ind; intros Hp; [done|].
  rewrite tracker_run_snoc. destruct IH as (ob & Hob & Hb); [set_solver|].
  pose proof (tracker_apply_observations (tracker_run t ops) op) as Hkeep.
  destruct op; try (rewrite Hkeep; by eauto); cbn [tracker_apply].
  - rewrite observe_lookup. case_decide as Hk; [|by eauto].
    eexists. split; [done|]. rewrite Hob. simpl. by rewrite Hb.
  - exists ob. split; [|done]. unfold prune_observations_below. cbn [set_field tr_observations].
    apply map_lookup_filter_Some. split; [done|]. simpl. apply Hp. set_solver.
Qed.

(** What an observation says about the history that produced it. *)
Definition observation_ok (ops : list tracker_op) (key : Z * Address * AbsenceReason)
    (ob : RoundObservation) : Prop :=
  (ob_stake ob = 0 \/ exists holds q now,
     OpObserve key.1.1 key.1.2 key.2 (ob_stake ob) holds q now ∈ ops) /\
  (forall since, ob_holding_since ob = Some since ->
     exists st q, OpObserve key.1.1 key.1.2 key.2 st true q since ∈ ops).

Lemma observations_from_history t0 ops :
  tr_observations t0 = ∅ ->
  map_Forall (observation_ok ops) (tr_observations (tracker_run t0 ops)).
Proof.
  intros H0. induction ops as [|op ops IH] using rev_ind.
  { simpl. rewrite H0. apply map_Forall_empty. }
  rewrite tracker_run_snoc. intros key ob Hob.
  assert (forall k o, observation_ok ops k o -> observation_ok (ops ++ [op]) k o) as Hmono.
  { intros k o [[?|(? & ? & ? & ?)] Hs]; split; set_solver. }
  pose proof (tracker_apply_observations (tracker_run t0 ops) op) as Hkeep.
  destruct op; try (rewrite Hkeep in Hob; by apply Hmono, IH); cbn [tracker_apply] in Hob.
  - rewrite observe_lookup in Hob. case_decide as Hk; [|by apply Hmono, IH].
    injection Hob as <-. subst key.
    set (entry := default _ _) in *.
    assert (observation_ok ops (rnd, member, reason) entry) as [Hst Hsince].
    { subst entry. destruct (tr_observations _ !! _) as [e|] eqn:He; [by apply IH|].
      split; [by left|done]. }
    split; simpl.
    + destruct (Z.max_spec (ob_stake entry) stake) as [[_ ->]|[_ ->]].
      * right. set_solver.
      * destruct Hst as [?|(? & ? & ? & ?)]; [by left|right; set_solver].
    + intros since. case_match eqn:Hhold; [|done]. dec_hyps. destruct holds; [|by destruct (ob_condition_broken entry)].
      destruct (ob_holding_since entry) as [t|]; simpl; intros [= <-].
      * destruct (Hsince t) as (? & ? & ?); [done|]. set_solver.
      * set_solver.
  - unfold prune_observations_below in Hob. cbn [set_field tr_observations] in Hob.
    apply map_lookup_filter_Some in Hob as [Hob _]. by apply Hmono, IH.
Qed.

End TrackerTheorems.

(** ** The theorems *)

Module DemoCert.
Import Demo.

Definition committee_hash : Hash256 := validator_set_hash DemoNet.committee_set.

Definition finality_vote (i block_hash : Z) : option FinalityVote :=
  match fv_sign DemoDag.demo_domain committee_hash 7 block_hash 31 32 (DemoNet.key i) with
  | Ok v => Some v
  | _ => None
  end.

Definition certificate (block_hash : Hash256) (voters : list Z) : FinalityCertificate :=
  mkFinalityCertificate DemoDag.demo_domain committee_hash 7 block_hash 31 32
    (omap (fun i => finality_vote i block_hash) voters).

(** A collector that has taken the votes of two members. *)
Definition collect (col : FinalityVoteCollector) (i : Z) : FinalityVoteCollector :=
  match finality_vote i 50 with
  | Some v => match finality_add col v DemoDag.demo_domain DemoNet.committee_set with
              | Ok (_, col') => col'
              | _ => col
              end
  | None => col
  end.

Definition two_votes : FinalityVoteCollector := collect (collect ∅ 0) 1.

Lemma collect_reachable col i : finality_reachable col -> finality_reachable (collect col i).
Proof.
  intros Hcol. unfold collect. case_match; [|done]. case_match eqn:Hadd; [|done|done].
  case_match. subst. by eapply finality_collect.
Qed.

Lemma two_votes_reachable : finality_reachable two_votes.
Proof. apply collect_reachable, collect_reachable, finality_start. Qed.

(** A tracker that has watched validator 3 miss round 9 for two seconds. *)
Definition tracker0 : SkipTracker :=
  with_recent_absence_grace
    (tracker_init DemoDag.demo_domain committee_hash DEFAULT_SKIP_GRACE_MS (mkSigningRecord ∅ ∅ None))
    RECENT_ABSENCE_GRACE_MS.

Definition watch : list tracker_op :=
  [OpObserve 9 (DemoNet.addr 3) NoBlock 30000000 true 26666667 100;
   OpObserve 9 (DemoNet.addr 3) NoBlock 30000000 true 26666667 1500].

Definition signed_skip : option (SkipVote * SkipTracker) :=
  match sign_if_permitted (tracker_run tracker0 watch) 9 (DemoNet.addr 3) NoBlock 4 26666667 2200
          (DemoNet.key 0) with
  | Ok r => Some r
  | _ => None
  end.

End DemoCert.

(** [FinalityCertificate::verify] on a well-formed committee never aborts and
    accepts exactly the certificates of the expected domain and committee whose votes
    all state the header of the certificate, come from distinct members, carry valid
    signatures over that statement, and hold at least the quorum of stake, which is
    the stake it returns. *)
Theorem finality_certificate_exact `{Crypto} (c : FinalityCertificate) (d : ConsensusDomain)
  (s : ValidatorSet) (Hwf : vs_wf s) :
  fc_verify c d s <> Panic /\
  forall signing, fc_verify c d s = Ok signing <->
    fc_domain c = d /\ fc_validator_set_hash c = validator_set_hash s /\
    length (fc_votes c) <> 0%nat /\
    Forall (fun v => fv_consistent c v = true) (fc_votes c) /\ NoDup (fc_voters c) /\
    Forall (fun v => is_validator s (fv_voter v) = true /\
                     sig_verify (fv_signature v) (fv_transcript v) (fv_voter v) = Ok ())
      (fc_votes c) /\
    signing = stake_in s (list_to_set (fc_voters c)) /\ quorum s <= signing.
Proof.
  split; [|intros signing; by apply fc_verify_Ok].
  exact (proj2 (verify_no_panic s d (mkSkipCertificate d 0 0 0 NoBlock []) c Hwf)).
Qed.

Lemma finality_certificate_exact_witness :
  fc_verify (H := Demo.demo_crypto) (DemoCert.certificate 50 [2; 0; 3]) DemoDag.demo_domain
    DemoNet.committee_set = Ok 30000000 /\
  NoDup (fc_voters (DemoCert.certificate 50 [2; 0; 3])).
Proof.
  assert (fc_verify (H := Demo.demo_crypto) (DemoCert.certificate 50 [2; 0; 3])
            DemoDag.demo_domain DemoNet.committee_set = Ok 30000000) as Hok
    by (vm_compute; reflexivity).
  split; [exact Hok|].
  exact (proj1 (proj2 (proj2 (proj2 (proj2 (proj1 (proj2 (@finality_certificate_exact
    Demo.demo_crypto _ _ _ DemoNet.committee_wf) _) Hok)))))).
Defined.

(** The common voters of two certificates that verify. *)
Lemma finality_overlap `{Crypto} (c1 c2 : FinalityCertificate)
  (d : ConsensusDomain) (s : ValidatorSet) (n1 n2 : Z) :
  vs_wf s -> fc_verify c1 d s = Ok n1 -> fc_verify c2 d s = Ok n2 ->
  let double : gset Address := list_to_set (fc_voters c1) ∩ list_to_set (fc_voters c2) in
  fault_tolerance_stake s < stake_in s double /\
  forall a, a ∈ double -> is_validator s a = true /\
    (exists sig, sig_verify sig (fc_transcript c1 a) a = Ok ()) /\
    (exists sig, sig_verify sig (fc_transcript c2 a) a = Ok ()).
Proof.
  intros Hwf H1 H2.
  apply fc_verify_Ok in H1 as (_ & _ & _ & Hc1 & _ & Hv1 & -> & Hq1); [|done].
  apply fc_verify_Ok in H2 as (_ & _ & _ & Hc2 & _ & Hv2 & -> & Hq2); [|done].
  intros double. split; [by apply quorum_overlap|].
  assert (forall c a, Forall (fun v => fv_consistent c v = true) (fc_votes c) ->
    Forall (fv_valid s) (fc_votes c) -> a ∈ fc_voters c ->
    is_validator s a = true /\ exists sig, sig_verify sig (fc_transcript c a) a = Ok ()) as Hvote.
  { intros c a Hc Hv (v & -> & Hin)%list_elem_of_fmap. rewrite Forall_forall in Hc, Hv.
    destruct (Hv v Hin) as [? Hsig]. split; [done|]. exists (fv_signature v).
    by rewrite <- fv_consistent_transcript by auto. }
  intros a [Ha1 Ha2]%elem_of_intersection.
  apply elem_of_list_to_set in Ha1. apply elem_of_list_to_set in Ha2.
  destruct (Hvote c1 a Hc1 Hv1 Ha1), (Hvote c2 a Hc2 Hv2 Ha2). done.
Qed.

(** C17: two certificates that verify for the same domain and committee at any heights
    expose their common voters: these hold more than [fault_tolerance_stake], and each
    of them has validly signed the transcripts of both certificates; so conflicting
    finality at one height convicts more than the tolerated stake of double signing. *)
Theorem conflicting_finality_accountability `{Crypto} (c1 c2 : FinalityCertificate)
  (d : ConsensusDomain) (s : ValidatorSet) (n1 n2 : Z) (Hwf : vs_wf s)
  (H1 : fc_verify c1 d s = Ok n1) (H2 : fc_verify c2 d s = Ok n2) :
  let double : gset Address := list_to_set (fc_voters c1) ∩ list_to_set (fc_voters c2) in
  fault_tolerance_stake s < stake_in s double /\
  forall a, a ∈ double -> is_validator s a = true /\
    (exists sig, sig_verify sig (fc_transcript c1 a) a = Ok ()) /\
    (exists sig, sig_verify sig (fc_transcript c2 a) a = Ok ()).
Proof. by eapply finality_overlap. Qed.

Lemma conflicting_finality_accountability_witness :
  fault_tolerance_stake DemoNet.committee_set <
    stake_in DemoNet.committee_set
      (list_to_set (fc_voters (DemoCert.certificate 50 [0; 1; 2])) ∩
       list_to_set (fc_voters (DemoCert.certificate 51 [1; 2; 3]))).
Proof.
  refine (proj1 (@conflicting_finality_accountability Demo.demo_crypto
    (DemoCert.certificate 50 [0; 1; 2]) (DemoCert.certificate 51 [1; 2; 3])
    DemoDag.demo_domain DemoNet.committee_set 30000000 30000000 DemoNet.committee_wf _ _));
  vm_compute; reflexivity.
Defined.

(** Whatever votes a [FinalityVoteCollector] has taken before, under whatever
    domains and committees, and whatever it has pruned, a certificate that [add]
    returns verifies under the domain and the well-formed committee of that call. *)
Theorem finality_collector_sound `{Crypto} (col col' : FinalityVoteCollector)
  (vote : FinalityVote) (d : ConsensusDomain) (s : ValidatorSet) (c : FinalityCertificate)
  (Hwf : vs_wf s) (Hreach : finality_reachable col)
  (Hadd : finality_add col vote d s = Ok (Some c, col')) :
  fc_verify c d s = Ok (stake_in s (list_to_set (fc_voters c))) /\
  fc_height c = fv_height vote /\ fc_block_hash c = fv_block_hash vote /\
  fc_state_root c = fv_state_root vote /\ fc_tx_root c = fv_tx_root vote.
Proof.
  split; [by eapply finality_add_verifies|].
  apply finality_add_Ok in Hadd as (_ & _ & _ & _ & Hc). case_bool_decide; by simplify_eq.
Qed.

Lemma finality_collector_sound_witness :
  exists vote c col', finality_add (H := Demo.demo_crypto) DemoCert.two_votes vote
      DemoDag.demo_domain DemoNet.committee_set = Ok (Some c, col') /\
    is_ok (fc_verify (H := Demo.demo_crypto) c DemoDag.demo_domain DemoNet.committee_set) = true.
Proof.
  assert (exists vote c col', finality_add (H := Demo.demo_crypto) DemoCert.two_votes vote
      DemoDag.demo_domain DemoNet.committee_set = Ok (Some c, col')) as (vote & c & col' & Hadd).
  { destruct (DemoCert.finality_vote 3 50) as [v|] eqn:Hv; [|by vm_compute in Hv].
    exists v. vm_compute in Hv. injection Hv as <-. do 2 eexists. vm_compute. reflexivity. }
  exists vote, c, col'. split; [exact Hadd|].
  destruct (@finality_collector_sound Demo.demo_crypto DemoCert.two_votes col' vote
    DemoDag.demo_domain DemoNet.committee_set c DemoNet.committee_wf
    DemoCert.two_votes_reachable Hadd) as [-> _]. reflexivity.
Defined.

(** C35: after any history of a fresh tracker, built as a node builds it with the full and
    the recent-absence grace, [sign_if_permitted] signs an absence only
    for a round at or past the commit cursor, states a round stake of at least the
    quorum that some observation of that round reported, only when the condition was
    observed to hold at a time at least the (shortest configured) grace ago, and with
    the decision already in the durable record it leaves behind. *)
Theorem skip_signing_discipline `{Crypto} (d : ConsensusDomain) (vsh : Hash256) (grace_ms recent_ms : Z)
  (r0 : ConsensusSigningRecord) (ops : list tracker_op)
  (rnd : Z) (a : Address) (reason : AbsenceReason) (cursor q now : Z) (kp : KeyPair)
  (vote : SkipVote) (t' : SkipTracker) (Hq : 0 < q)
  (Hsign : let t := tracker_run (with_recent_absence_grace (tracker_init d vsh grace_ms r0) recent_ms) ops in
           sign_if_permitted t rnd a reason cursor q now kp = Ok (vote, t')) :
  let t := tracker_run (with_recent_absence_grace (tracker_init d vsh grace_ms r0) recent_ms) ops in
  cursor <= rnd /\ sv_round vote = rnd /\ sv_absentee vote = a /\
  q <= sv_observed_round_stake vote /\
  (exists holds q' at_ms,
     OpObserve rnd a reason (sv_observed_round_stake vote) holds q' at_ms ∈ ops) /\
  (exists since st q', OpObserve rnd a reason st true q' since ∈ ops /\
     Z.min (tr_recent_absence_grace_ms t) (tr_grace_ms t) <= saturating_sub now since) /\
  (m ← skipped_rounds (tr_record t') !! rnd; m !! a) = Some reason /\ refuses t' rnd a = true.
Proof.
  intros t. apply sign_if_permitted_Ok in Hsign as (Hcur & -> & Hsv & since & Hob & Hst & Hgr).
  unfold sv_sign in Hsv. inv_ok.
  destruct (observations_from_history (with_recent_absence_grace (tracker_init d vsh grace_ms r0) recent_ms) ops eq_refl _ _ Hob)
    as [Hstake Hsince]. simpl in *.
  split; [done|]. split; [by rewrite <- Hsv|]. split; [by rewrite <- Hsv|]. split; [done|].
  split; [destruct Hstake as [?|?]; [lia|done]|].
  split; [destruct (Hsince since eq_refl) as (st & q' & ?); eauto 10|].
  split; [by rewrite lookup_insert_eq; simpl; rewrite lookup_insert_eq|].
  apply bool_decide_eq_true. simpl. set_solver.
Qed.

Lemma skip_signing_discipline_witness :
  exists vote t', DemoCert.signed_skip = Some (vote, t') /\
    sv_observed_round_stake vote = 30000000 /\ refuses t' 9 (DemoNet.addr 3) = true.
Proof.
  destruct DemoCert.signed_skip as [[vote t']|] eqn:Hs; [|by vm_compute in Hs].
  exists vote, t'. split; [reflexivity|].
  assert (sign_if_permitted (H := Demo.demo_crypto) (tracker_run DemoCert.tracker0 DemoCert.watch) 9
    (DemoNet.addr 3) NoBlock 4 26666667 2200 (DemoNet.key 0) = Ok (vote, t')) as Hok.
  { unfold DemoCert.signed_skip in Hs. destruct (sign_if_permitted _ _ _ _ _ _ _ _); congruence. }
  split; [vm_compute in Hs; injection Hs as <- _; reflexivity|].
  assert (0 < 26666667) as Hq by reflexivity.
  exact (proj2 (proj2 (proj2 (proj2 (proj2 (proj2 (proj2 (@skip_signing_discipline Demo.demo_crypto
    _ _ _ _ _ DemoCert.watch 9 (DemoNet.addr 3) NoBlock 4 26666667 2200 (DemoNet.key 0) vote t'
    Hq Hok)))))))).
Defined.

(** Once a validator has seen the block of a member in a round (an observation in
    which the condition does not hold), no later history signs the absence of that
    member in that round, as long as observations of the round are not pruned: the
    request is always refused, as [AbsenteeBlockPresent] at or past the cursor. *)
Theorem skip_presence_sticky `{Crypto} (t : SkipTracker) (rnd : Z) (m : Address)
  (reason : AbsenceReason) (stake q now : Z) (ops : list tracker_op)
  (Hprune : forall r, OpPruneObservations r ∈ ops -> r <= rnd)
  (cursor q' now' : Z) (kp : KeyPair) :
  sign_if_permitted (tracker_run (observe t rnd m reason stake false q now) ops)
    rnd m reason cursor q' now' kp =
  Err (if bool_decide (rnd < cursor) then RoundAlreadyPassed else AbsenteeBlockPresent).
Proof.
  destruct (broken_persists (observe t rnd m reason stake false q now) rnd m reason ops)
    as (ob & Hob & Hb); [|done|].
  - rewrite observe_lookup, decide_True by done. eexists. split; [done|].
    simpl. by rewrite orb_true_r.
  - unfold sign_if_permitted. rewrite Hob.
    destruct (bool_decide (rnd < cursor)); [done|]. simpl. by rewrite Hb.
Qed.

Lemma skip_presence_sticky_witness :
  sign_if_permitted (H := Demo.demo_crypto)
    (tracker_run (observe DemoCert.tracker0 9 (DemoNet.addr 3) NoBlock 30000000 false 26666667 50)
       (OpPruneObservations 4 :: DemoCert.watch))
    9 (DemoNet.addr 3) NoBlock 4 26666667 9000 (DemoNet.key 0) = Err AbsenteeBlockPresent.
Proof.
  refine (@skip_presence_sticky Demo.demo_crypto DemoCert.tracker0 9 (DemoNet.addr 3) NoBlock
    30000000 26666667 50 (OpPruneObservations 4 :: DemoCert.watch) _ 4 26666667 9000 (DemoNet.key 0)).
  intros r [[= ->]|Hin]%elem_of_cons; [lia|].
  unfold DemoCert.watch in Hin. set_solver.
Defined.

(** ** The durable record *)

Lemma strip_prefix_app p l : strip_prefix p (p ++ l) = Some l.
Proof. induction p as [|x p IH]; [done|]. simpl. by rewrite bool_decide_true. Qed.

Lemma strip_prefix_Some p l k : strip_prefix p l = Some k -> l = p ++ k.
Proof.
  revert l. induction p as [|x p IH]; intros l; simpl; [by intros [= ->]|].
  destruct l as [|y l]; [done|]. case_bool_decide; [|done]. subst.
  intros ->%IH. done.
Qed.

(** A record codec for the witnesses: it writes the last applied round only. *)
Module DemoRecord.

#[export] Instance round_codec : RecordCodec := {|
  bincode_record r := match last_applied_round r with Some x => [1; x] | None => [0] end;
  bincode_read_record l :=
    match l with
    | [1; x] => Some (mkSigningRecord ∅ ∅ (Some x))
    | [0] => Some (mkSigningRecord ∅ ∅ None)
    | _ => None
    end;
  bincode_read_legacy l :=
    match l with [x] => Some (mkLegacySigningRecordV1 ∅ ∅ x) | _ => None end;
|}.

End DemoRecord.

(** A signing record that bincode reads back survives [encode] and [decode], so a
    restart resumes scanning at the same round; a record written by another version
    is refused with its version, never read as a fresh start; and an untagged v1 file
    is migrated without claiming that round 0 was applied. *)
Theorem signing_record_roundtrip `{RecordCodec} (r : ConsensusSigningRecord)
  (Hcodec : bincode_read_record (bincode_record r) = Some r) :
  record_decode (record_encode r) = Ok r /\
  (forall version payload, version <> SIGNING_RECORD_VERSION ->
     record_decode (SIGNING_RECORD_MAGIC ++ version :: payload) = Err (UnknownVersion version)) /\
  (forall bytes legacy, strip_prefix SIGNING_RECORD_MAGIC bytes = None ->
     bincode_read_legacy bytes = Some legacy -> 0 <= lg_durable_commit_round legacy ->
     exists r', record_decode bytes = Ok r' /\ last_applied_round r' <> Some 0 /\
       (0 < lg_durable_commit_round legacy < u64_max ->
        next_round_to_scan r' = lg_durable_commit_round legacy + 1)).
Proof.
  unfold record_decode, record_encode. split; [|split].
  - rewrite strip_prefix_app. simpl. by rewrite Hcodec.
  - intros version payload Hv. rewrite strip_prefix_app. by rewrite bool_decide_false.
  - intros bytes legacy -> -> Hpos. eexists. split; [done|].
    unfold next_round_to_scan, migrate, saturating_add. simpl.
    split; case_bool_decide; naive_solver lia.
Qed.

Lemma signing_record_roundtrip_witness :
  record_decode (H := DemoRecord.round_codec)
    (record_encode (H := DemoRecord.round_codec) (mkSigningRecord ∅ ∅ (Some 41))) =
  Ok (mkSigningRecord ∅ ∅ (Some 41)).
Proof.
  exact (proj1 (@signing_record_roundtrip DemoRecord.round_codec
    (mkSigningRecord ∅ ∅ (Some 41)) eq_refl)).
Defined.

(** ** Checkpoint envelopes *)

Module DemoEnvelope.
Import Demo.

(** A header codec that keeps the scalar fields. *)
#[export] Instance scalar_codec : HeaderCodec := {|
  bincode_header h :=
    [bh_height h; bh_timestamp h; bh_parent_hash h; bh_tx_root h; bh_state_root h;
     bh_proof_hash h; bh_tx_count h; bh_producer h];
  bincode_read_header l :=
    match l with
    | [he; ts; pa; tx; st; pr; n; p] => Some (mkBlockHeader he ts pa tx st pr n p GENESIS None)
    | _ => None
    end;
|}.

Definition tip : Block :=
  block_new (mkBlockHeader 7 10 20 32 31
               (decision_commitment DemoDag.demo_domain 600 88) 2 258 GENESIS None) [21; 22].

Definition envelope (digest : Hash256) : CheckpointEnvelope :=
  mkCheckpointEnvelope (DemoCert.certificate (blk_hash tip) [0; 1; 2])
    (mkSnapshotIdentity 7 31 digest) 600 88.

End DemoEnvelope.

(** What the tip's hash and the decision it names are computed from. *)
Definition resume_inputs `{HeaderCodec} (d : ConsensusDomain) (e : CheckpointEnvelope) (tip : Block) :
    list (string * list Z) :=
  [header_input (blk_header tip); decision_input d (ce_anchor_hash e) (ce_anchor_round e)].

(** C7: a payload accepted through a checkpoint envelope carries the height and state
    root of a quorum certificate and the digest of its own bytes; and the resume round
    is not the server's choice: two envelopes for the same certified block hash, checked
    against any tips, yield the same anchor and the same resume round in a domain,
    if BLAKE3 has no collision among the two tips' headers and the two decisions. *)
Theorem checkpoint_envelope_authority `{Crypto, HeaderCodec} (e1 e2 : CheckpointEnvelope)
  (tip1 tip2 : Block) (d : ConsensusDomain) (s : ValidatorSet) (payload : list Z)
  (signing n1 n2 : Z) (Hwf : vs_wf s) (Hd : domain_ok d)
  (Hapart : derive_key_apart (resume_inputs d e1 tip1 ++ resume_inputs d e2 tip2))
  (Hr1 : u64 (ce_anchor_round e1)) (Hr2 : u64 (ce_anchor_round e2))
  (Ha1 : hash256 (ce_anchor_hash e1)) (Ha2 : hash256 (ce_anchor_hash e2))
  (Hc1 : header_reads_back (blk_header tip1)) (Hc2 : header_reads_back (blk_header tip2))
  (Hpayload : verify_payload e1 payload d s = Ok signing)
  (Hsame : fc_block_hash (ce_certificate e1) = fc_block_hash (ce_certificate e2))
  (Hp1 : verify_resume_point e1 tip1 d = Ok n1) (Hp2 : verify_resume_point e2 tip2 d = Ok n2) :
  (si_height (ce_snapshot e1) = fc_height (ce_certificate e1) /\
   si_state_root (ce_snapshot e1) = fc_state_root (ce_certificate e1) /\
   si_digest (ce_snapshot e1) = hash_bytes payload /\
   quorum s <= stake_in s (list_to_set (fc_voters (ce_certificate e1)))) /\
  n1 = n2 /\ ce_anchor_hash e1 = ce_anchor_hash e2.
Proof.
  split.
  - unfold verify_payload, ce_verify, map_certificate_error in Hpayload. inv_ok. dec_hyps.
    destruct (fc_verify _ _ _) as [n| |] eqn:Hv; try done. simplify_eq.
    apply fc_verify_Ok in Hv as (_ & _ & _ & _ & _ & _ & -> & Hq); done.
  - unfold verify_resume_point in Hp1, Hp2. inv_ok. dec_hyps. split_checked. subst.
    assert (block_compute_hash (blk_header tip1) = block_compute_hash (blk_header tip2)) as Hh
      by congruence.
    apply (block_hash_binds _ _ _ Hapart) in Hh; [|cbn; set_solver..|done|done].
    assert (decision_commitment d (ce_anchor_hash e1) (ce_anchor_round e1) =
            decision_commitment d (ce_anchor_hash e2) (ce_anchor_round e2)) as Hdc by congruence.
    apply (decision_binds _ _ _ _ _ _ _ Hapart) in Hdc as (_ & ? & ?); [lia|cbn; set_solver..|done|done|done|done|done|done].
Qed.

Lemma checkpoint_envelope_authority_witness :
  let e := DemoEnvelope.envelope (hash_bytes (H := Demo.demo_crypto) [1; 2; 3]) in
  si_digest (ce_snapshot e) = hash_bytes (H := Demo.demo_crypto) [1; 2; 3] /\
  verify_resume_point (H := Demo.demo_crypto) (H0 := DemoEnvelope.scalar_codec) e
    DemoEnvelope.tip DemoDag.demo_domain = Ok 89.
Proof.
  intros e. split; [|vm_compute; reflexivity].
  refine (proj1 (proj2 (proj2 (proj1 (@checkpoint_envelope_authority Demo.demo_crypto
    DemoEnvelope.scalar_codec e e DemoEnvelope.tip DemoEnvelope.tip DemoDag.demo_domain
    DemoNet.committee_set [1; 2; 3] 30000000 89 89 DemoNet.committee_wf DemoDag.demo_domain_ok
    _ _ _ _ _ _ _ _ eq_refl _ _))))).
  - apply (@derive_key_apartb_ok Demo.demo_crypto). vm_compute. reflexivity.
  - eval_range.
  - eval_range.
  - eval_range.
  - eval_range.
  - vm_compute. reflexivity.
  - vm_compute. reflexivity.
  - vm_compute. reflexivity.
  - vm_compute. reflexivity.
  - vm_compute. reflexivity.
Defined.
