(* ===== verification/DataAvailability.v ===== *)
(** * Erasure coding of block data (crates/arc-consensus/src/data_availability.rs)

    Encoding into data chunks and rotating-XOR parity chunks, decoding with
    recovery, and the commitment published with a block.  Bytes are [Z] below 256;
    a [u16] cast is the remainder modulo 65536.  The random draws of the sampler are
    an argument.  The recovery loop runs on fuel: every pass that continues fills a
    missing slot, so one pass more than there are data chunks is enough
    ([recover_loop_stable]). *)

From Stdlib Require Import ZifyNat.
From S2P Require Import Prelude Crypto Merkle.

Record DataChunk := mkDataChunk {
  ch_index : Z;
  ch_data : list Z;
  ch_proof : Hash256;
}.

Record ErasureEncoding := mkErasureEncoding {
  original_size : nat;
  chunk_count : Z;
  data_chunks : Z;
  parity_chunks : Z;
  chunks : list DataChunk;
  encoding_merkle_root : Hash256;
}.

#[global] Instance eta_ErasureEncoding : Eta ErasureEncoding := fun e =>
  mkErasureEncoding (original_size e) (chunk_count e) (data_chunks e) (parity_chunks e) (chunks e)
    (encoding_merkle_root e).

Record DACommitment := mkDACommitment {
  da_block_hash : Hash256;
  da_data_root : Hash256;
  da_chunk_count : Z;
  da_data_chunks : Z;
  da_encoding_root : Hash256;
}.

Record DASampleResult := mkDASampleResult {
  ds_available : bool;
  ds_samples_checked : nat;
  ds_samples_valid : nat;
}.

Definition as_u16 (x : Z) : Z := x mod 65536.

(** [original_size.div_ceil(k)], at least one byte. *)
Definition chunk_size (size k : nat) : nat :=
  if (size =? 0)%nat then 1%nat else ((size + k - 1) / k)%nat.

(** The [i]-th slice of the data, zero-padded to the chunk size. *)
Definition raw_chunk (data : list Z) (cs i : nat) : list Z :=
  let slice := if (i * cs <? length data)%nat then take cs (drop (i * cs) data) else [] in
  slice ++ replicate (cs - length slice) 0.

(** [acc[b] ^= byte] for every byte that has a position in [acc]. *)
Fixpoint xor_into (acc c : list Z) : list Z :=
  match acc, c with
  | a :: acc', b :: c' => Z.lxor a b :: xor_into acc' c'
  | _, _ => acc
  end.

(** The loop that accumulates the parity chunks. *)
Definition parity_of (p cs : nat) (raw : list (list Z)) : list (list Z) :=
  foldl (fun acc ic => alter (fun a => xor_into a ic.2) (ic.1 mod p)%nat acc)
    (replicate p (replicate cs 0)) (zip (seq 0 (length raw)) raw).

Section DataAvailability.
Context `{Crypto}.

Definition chunk_new (index : Z) (data : list Z) : DataChunk :=
  mkDataChunk index data (hash_bytes data).

Definition verify_integrity (c : DataChunk) : bool :=
  bool_decide (hash_bytes (ch_data c) = ch_proof c).

Definition encode_block_data (data : list Z) (k16 p16 : Z) : outcome unit ErasureEncoding :=
  if bool_decide (0 < k16) && bool_decide (0 < p16) then
    let k := Z.to_nat k16 in
    let p := Z.to_nat p16 in
    let size := length data in
    let cs := chunk_size size k in
    let raw := raw_chunk data cs <$> seq 0 k in
    let parity := parity_of p cs raw in
    let chunks :=
      zip_with (fun i c => chunk_new (as_u16 (Z.of_nat i)) c) (seq 0 k) raw ++
      zip_with (fun j c => chunk_new (as_u16 (Z.of_nat (k + j))) c) (seq 0 p) parity in
    Ok (mkErasureEncoding size (as_u16 (k16 + p16)) k16 p16 chunks
          (merkle_root (from_leaves (ch_proof <$> chunks))))
  else Panic.

(** ** Decoding *)

Notation slots := (list (option (list Z))).

(** Slot one chunk; a corrupted chunk is skipped. *)
Definition place_chunk (k p : nat) (ds : slots * slots) (c : DataChunk) : slots * slots :=
  let idx := Z.to_nat (ch_index c) in
  if verify_integrity c then
    if (idx <? k)%nat then (<[idx := Some (ch_data c)]> ds.1, ds.2)
    else if (idx <? k + p)%nat then (ds.1, <[(idx - k)%nat := Some (ch_data c)]> ds.2)
    else ds
  else ds.

Definition count_some (l : slots) : nat := length (filter (fun o => is_Some o) l).
Definition all_some (l : slots) : bool := forallb (fun o => bool_decide (is_Some o)) l.

Definition group_indices (k p j : nat) : list nat := filter (fun i => (i mod p)%nat = j) (seq 0 k).

Definition missing_in (ds : slots) (l : list nat) : list nat :=
  filter (fun i => ds !! i = Some None) l.

(** Recover the single missing chunk of a parity group, if there is just one. *)
Definition recover_group (k p : nat) (st : slots * bool) (jp : nat * option (list Z))
    : slots * bool :=
  match jp.2 with
  | None => st
  | Some parity_data =>
      let group := group_indices k p jp.1 in
      match missing_in st.1 group with
      | [m] =>
          let reconstructed :=
            foldl (fun acc i =>
              if bool_decide (i = m) then acc
              else match st.1 !! i with Some (Some c) => xor_into acc c | _ => acc end)
              parity_data group in
          (<[m := Some reconstructed]> st.1, true)
      | _ => st
      end
  end.

Definition recover_pass (k p : nat) (parity : slots) (ds : slots) : slots * bool :=
  foldl (recover_group k p) (ds, false) (zip (seq 0 (length parity)) parity).

(** [while recovered { .. if all present { break } }]. *)
Fixpoint recover_loop (fuel k p : nat) (parity ds : slots) : slots :=
  match fuel with
  | O => ds
  | S fuel' =>
      let '(ds', recovered) := recover_pass k p parity ds in
      if all_some ds' then ds'
      else if recovered then recover_loop fuel' k p parity ds' else ds'
  end.

Definition concat_slots (l : slots) : list Z := mjoin (default [] <$> l).

Definition decode_block_data (e : ErasureEncoding) : outcome string (list Z) :=
  let k := Z.to_nat (data_chunks e) in
  let p := Z.to_nat (parity_chunks e) in
  _ ← require (negb (bool_decide (length (chunks e) = 0%nat))) "no chunks available";
  let '(data_slots, parity_slots) :=
    foldl (place_chunk k p) (replicate k None, replicate p None) (chunks e) in
  let available_data := count_some data_slots in
  let available_parity := count_some parity_slots in
  _ ← require (negb (available_data + available_parity <? k)%nat) "insufficient chunks";
  if (available_data =? k)%nat
  then Ok (take (original_size e) (concat_slots data_slots))
  else
    let data_slots' := recover_loop (S k) k p parity_slots data_slots in
    _ ← require (all_some data_slots')
          "could not reconstruct all data chunks from available parity";
    Ok (take (original_size e) (concat_slots data_slots')).

Definition verify_chunk (c : DataChunk) (_root : Hash256) (_total_chunks : Z) : bool :=
  verify_integrity c.

Definition sample_valid (e : ErasureEncoding) (i : nat) : bool :=
  match chunks e !! i with Some c => verify_integrity c | None => false end.

(** [sample_availability], with the drawn indices as an argument. *)
Definition sample_availability (e : ErasureEncoding) (sample_count : nat)
    (draw : nat -> nat -> list nat) : DASampleResult :=
  if bool_decide (length (chunks e) = 0%nat) || bool_decide (sample_count = 0%nat)
  then mkDASampleResult false 0 0
  else
    let n := length (chunks e) in
    let effective := Nat.min sample_count n in
    let valid := length (filter (fun i => sample_valid e i = true) (draw n effective)) in
    mkDASampleResult (bool_decide (valid = effective)) effective valid.

Definition create_da_commitment (block_data : list Z) (block_hash : Hash256)
    : outcome unit DACommitment :=
  let data_root := hash_bytes block_data in
  encoding ← encode_block_data block_data 4 4;
  Ok (mkDACommitment block_hash data_root (chunk_count encoding) (data_chunks encoding)
        (encoding_merkle_root encoding)).

Definition verify_da_commitment (commitment : DACommitment) (c : DataChunk) : bool :=
  if bool_decide (da_chunk_count commitment <= ch_index c) then false
  else if verify_integrity c then true else false.

End DataAvailability.

(** ** XOR of chunks *)

Lemma length_xor_into acc c : length (xor_into acc c) = length acc.
Proof. revert c. induction acc as [|a acc IH]; intros [|b c]; simpl; auto. Qed.

Lemma xor_into_cancel acc c : length acc = length c -> xor_into (xor_into acc c) c = acc.
Proof.
  revert c. induction acc as [|a acc IH]; intros [|b c] Hlen; simpl in *; try done.
  by rewrite Z.lxor_assoc, Z.lxor_nilpotent, Z.lxor_0_r, IH by lia.
Qed.

Lemma xor_into_comm acc c d : xor_into (xor_into acc c) d = xor_into (xor_into acc d) c.
Proof.
  revert c d. induction acc as [|a acc IH]; intros [|b c] [|e d]; simpl; try done.
  rewrite IH. by rewrite !Z.lxor_assoc, (Z.lxor_comm b e).
Qed.

Lemma xor_into_zeros c : xor_into (replicate (length c) 0) c = c.
Proof. induction c as [|b c IH]; simpl; [done|]. by rewrite Z.lxor_0_l, IH. Qed.

Lemma foldl_xor_comm acc c l :
  foldl xor_into (xor_into acc c) l = xor_into (foldl xor_into acc l) c.
Proof.
  revert acc. induction l as [|d l IH]; intros acc; [done|]. simpl. by rewrite xor_into_comm, IH.
Qed.

Lemma length_foldl_xor acc l : length (foldl xor_into acc l) = length acc.
Proof. revert acc. induction l as [|c l IH]; intros acc; [done|]. simpl. by rewrite IH, length_xor_into. Qed.

Lemma foldl_xor_cancel acc l :
  Forall (fun c => length c = length acc) l ->
  foldl xor_into (foldl xor_into acc l) l = acc.
Proof.
  intros Hl. revert acc Hl. induction l as [|c l IH]; intros acc Hl; [done|].
  apply Forall_cons in Hl as [Hc Hl]. cbn [foldl]. rewrite (foldl_xor_comm acc c l), xor_into_cancel.
  - by apply IH.
  - by rewrite length_foldl_xor.
Qed.

Lemma foldl_xor_Permutation acc l k : l ≡ₚ k -> foldl xor_into acc l = foldl xor_into acc k.
Proof.
  intros Hp. revert acc. induction Hp as [|c l k _ IH|c d l|l k m _ IH1 _ IH2]; intros acc; simpl; auto.
  - by rewrite xor_into_comm.
  - by rewrite IH1.
Qed.

(** A parity chunk with all the other chunks of its group gives the missing one. *)
Lemma xor_recover cs group (raw : nat -> list Z) m :
  (forall i, length (raw i) = cs) -> NoDup group -> m ∈ group ->
  foldl xor_into (foldl xor_into (replicate cs 0) (raw <$> group))
    (raw <$> filter (fun i => i <> m) group) = raw m.
Proof.
  intros Hcs Hnd Hm.
  assert (group ≡ₚ m :: filter (fun i => i <> m) group) as Hp.
  { apply NoDup_Permutation; [done| |].
    - constructor; [rewrite list_elem_of_filter; tauto|by apply NoDup_filter].
    - intros x. rewrite elem_of_cons, list_elem_of_filter. destruct (decide (x = m)); naive_solver. }
  rewrite (foldl_xor_Permutation _ (raw <$> group) (raw <$> (m :: filter (fun i => i <> m) group)))
    by (by apply fmap_Permutation).
  cbn [fmap list_fmap foldl]. rewrite foldl_xor_cancel.
  - rewrite <- (Hcs m). apply xor_into_zeros.
  - apply Forall_forall. intros c (i & -> & _)%list_elem_of_fmap.
    by rewrite length_xor_into, length_replicate.
Qed.

(** ** The parity chunks *)

Lemma length_parity_of p cs raw : length (parity_of p cs raw) = p.
Proof.
  unfold parity_of. rewrite <- (length_replicate p (replicate cs 0)) at 2.
  generalize (replicate p (replicate cs 0)).
  generalize (zip (seq 0 (length raw)) raw) as l.
  induction l as [|[i c] l IH]; intros acc; [done|]. simpl. by rewrite IH, length_alter.
Qed.

Lemma parity_of_snoc p cs raw c :
  parity_of p cs (raw ++ [c]) =
  alter (fun a => xor_into a c) (length raw mod p)%nat (parity_of p cs raw).
Proof.
  unfold parity_of. rewrite length_app, seq_app. cbn [length].
  rewrite zip_with_app by (by rewrite length_seq). by rewrite foldl_app.
Qed.

Lemma parity_lookup p cs (raw : nat -> list Z) k j :
  (0 < p)%nat -> (j < p)%nat ->
  parity_of p cs (raw <$> seq 0 k) !! j =
    Some (foldl xor_into (replicate cs 0) (raw <$> group_indices k p j)).
Proof.
  intros Hp Hj. induction k as [|k IH].
  { unfold parity_of, group_indices. simpl. by apply lookup_replicate_2. }
  rewrite seq_S, fmap_app. change (raw <$> [(0 + k)%nat]) with [raw k].
  rewrite parity_of_snoc, length_fmap, length_seq.
  unfold group_indices in *. rewrite seq_S, filter_app. cbn [Nat.add].
  destruct (decide ((k mod p)%nat = j)) as [He|Hne].
  - rewrite filter_cons_True by done. rewrite <- He in *. rewrite list_lookup_alter_eq, IH.
    rewrite filter_nil, fmap_app, foldl_app. done.
  - rewrite filter_cons_False by done. rewrite list_lookup_alter_ne by done.
    by rewrite filter_nil, app_nil_r.
Qed.

(** ** Splitting and joining *)

Lemma length_raw_chunk data cs i : length (raw_chunk data cs i) = cs.
Proof.
  unfold raw_chunk. rewrite length_app, length_replicate. case_match; simpl; [|lia].
  rewrite length_take. lia.
Qed.

Lemma join_raw_chunks data cs k :
  mjoin (raw_chunk data cs <$> seq 0 k) =
  take (k * cs) data ++ replicate (k * cs - length data) 0.
Proof.
  induction k as [|k IH]; [done|].
  rewrite seq_S, fmap_app, join_app, IH. cbn [Nat.add].
  change (mjoin (raw_chunk data cs <$> [k])) with (raw_chunk data cs k ++ []). rewrite app_nil_r.
  unfold raw_chunk. destruct (k * cs <? length data)%nat eqn:Hk.
  - apply Nat.ltb_lt in Hk. replace (k * cs - length data)%nat with 0%nat by lia.
    rewrite app_nil_r, (assoc_L (++)), take_take_drop, length_take, length_drop.
    replace (S k * cs)%nat with (k * cs + cs)%nat by lia. do 2 f_equal. lia.
  - apply Nat.ltb_ge in Hk. rewrite !take_ge by lia. rewrite <- (assoc_L (++)). f_equal.
    simpl. rewrite <- replicate_add. f_equal. lia.
Qed.

Lemma chunk_size_enough size k : (0 < k)%nat -> (size <= k * chunk_size size k)%nat.
Proof.
  intros Hk. unfold chunk_size. destruct (size =? 0)%nat eqn:H0; [apply Nat.eqb_eq in H0; lia|].
  pose proof (Nat.div_mod_eq (size + k - 1) k). pose proof (Nat.mod_upper_bound (size + k - 1) k). lia.
Qed.

(** ** Counting slots *)

Lemma count_some_fmap (f : nat -> option (list Z)) l :
  count_some (f <$> l) = length (filter (fun i => is_Some (f i)) l).
Proof.
  unfold count_some. induction l as [|i l IH]; [done|]. rewrite fmap_cons, !filter_cons.
  repeat case_decide; simpl; naive_solver.
Qed.

Lemma all_some_spec (l : list (option (list Z))) :
  all_some l = true <-> forall i o, l !! i = Some o -> is_Some o.
Proof.
  unfold all_some. rewrite <- Is_true_true, forallb_True, Forall_lookup.
  split; intros Hl i o Ho; specialize (Hl i o Ho); by rewrite bool_decide_spec in *.
Qed.

(** ** Decoding what survives of an encoding *)

Section Decode.
Context `{Crypto} (k p cs : nat) (raw : nat -> list Z).
Context (Hp : (0 < p)%nat) (Hcs : forall i, length (raw i) = cs).

Notation slots := (list (option (list Z))).

Definition parity_value (j : nat) : list Z :=
  foldl xor_into (replicate cs 0) (raw <$> group_indices k p j).

(** A chunk of the encoding. *)
Definition genuine (c : DataChunk) : Prop :=
  (exists i, (i < k)%nat /\ c = chunk_new (Z.of_nat i) (raw i)) \/
  (exists j, (j < p)%nat /\ c = chunk_new (Z.of_nat (k + j)) (parity_value j)).

Definition kept_index (kept : list DataChunk) (i : nat) : Prop :=
  Z.of_nat i ∈ ch_index <$> kept.

#[local] Instance kept_index_dec kept i : Decision (kept_index kept i).
Proof. unfold kept_index. apply _. Defined.

Lemma verify_integrity_new i d : verify_integrity (chunk_new i d) = true.
Proof. by apply bool_decide_eq_true. Qed.

(** The slots after all kept chunks are placed. *)
Definition data_slot (kept : list DataChunk) (i : nat) : option (list Z) :=
  if decide (kept_index kept i) then Some (raw i) else None.
Definition parity_slot (kept : list DataChunk) (j : nat) : option (list Z) :=
  if decide (kept_index kept (k + j)) then Some (parity_value j) else None.

Lemma kept_index_snoc kept c i :
  kept_index (kept ++ [c]) i <-> kept_index kept i \/ ch_index c = Z.of_nat i.
Proof.
  unfold kept_index. rewrite fmap_app, elem_of_app. cbn. rewrite list_elem_of_singleton. naive_solver.
Qed.

(** A slot changes only for the index of the chunk. *)
Lemma slot_other {A} kept c i (x : A) :
  ch_index c <> Z.of_nat i ->
  (if decide (kept_index (kept ++ [c]) i) then Some x else None) =
  (if decide (kept_index kept i) then Some x else None).
Proof.
  intros Hne. destruct (decide (kept_index kept i)) as [Hk|Hk].
  - rewrite decide_True; [done|]. apply kept_index_snoc. by left.
  - rewrite decide_False; [done|]. rewrite kept_index_snoc. tauto.
Qed.

Lemma slot_same {A} kept c i (x : A) :
  ch_index c = Z.of_nat i ->
  (if decide (kept_index (kept ++ [c]) i) then Some x else None) = Some x.
Proof. intros He. rewrite decide_True; [done|]. apply kept_index_snoc. by right. Qed.

Lemma replicate_fmap_seq {A} (f : nat -> A) n m x :
  (forall i, f i = x) -> replicate n x = f <$> seq m n.
Proof. intros Hf. revert m. induction n as [|n IH]; intros m; [done|]. cbn. by rewrite Hf, <- IH. Qed.

Lemma fmap_seq_insert {A} (f g : nat -> A) n i x :
  f i = x -> (forall j, j <> i -> f j = g j) -> <[i := x]> (g <$> seq 0 n) = f <$> seq 0 n.
Proof.
  intros <- Hfg. apply list_eq. intros j. destruct (decide (i = j)) as [->|Hne].
  - destruct (decide (j < n)%nat) as [Hj|Hj].
    + rewrite list_lookup_insert_eq by (by rewrite length_fmap, length_seq).
      by rewrite list_lookup_fmap, lookup_seq_lt.
    + rewrite !lookup_ge_None_2; [done|rewrite length_fmap, length_seq; lia|].
      rewrite length_insert, length_fmap, length_seq. lia.
  - rewrite list_lookup_insert_ne, !list_lookup_fmap by done.
    destruct (seq 0 n !! j) as [x|] eqn:Hx; [|done]. apply lookup_seq in Hx as [-> _].
    simpl. by rewrite Hfg.
Qed.

Lemma place_spec kept :
  Forall genuine kept ->
  foldl (place_chunk k p) (replicate k None, replicate p None) kept =
  (data_slot kept <$> seq 0 k, parity_slot kept <$> seq 0 p).
Proof.
  induction kept as [|c kept IH] using rev_ind; intros Hg.
  { simpl. f_equal; by apply replicate_fmap_seq. }
  apply Forall_app in Hg as [Hg Hc]. rewrite Forall_singleton in Hc.
  rewrite foldl_app, IH by done. cbn [foldl]. unfold place_chunk.
  destruct Hc as [(i & Hi & ->)|(j & Hj & ->)]; rewrite verify_integrity_new;
    cbn [chunk_new ch_index ch_data fst snd]; rewrite Nat2Z.id.
  - rewrite (proj2 (Nat.ltb_lt _ _)) by done. f_equal.
    + apply fmap_seq_insert; [by apply slot_same|].
      intros j Hj. apply slot_other. simpl. lia.
    + apply list_fmap_ext. intros n j [-> Hj]%lookup_seq. symmetry. apply slot_other. simpl. lia.
  - rewrite (proj2 (Nat.ltb_ge _ _)), (proj2 (Nat.ltb_lt _ _)) by lia.
    replace (k + j - k)%nat with j by lia. f_equal.
    + apply list_fmap_ext. intros n i [-> Hi]%lookup_seq. symmetry. apply slot_other. simpl. lia.
    + apply fmap_seq_insert; [by apply slot_same|].
      intros n Hn. apply slot_other. simpl. lia.
Qed.

(** Slots that hold what was encoded or nothing. *)
Definition slots_ok (ds : slots) : Prop :=
  length ds = k /\ forall i, (i < k)%nat -> ds !! i = Some (Some (raw i)) \/ ds !! i = Some None.

Lemma elem_of_group j i : i ∈ group_indices k p j <-> (i < k)%nat /\ (i mod p)%nat = j.
Proof. unfold group_indices. rewrite list_elem_of_filter, elem_of_seq. naive_solver lia. Qed.

Lemma elem_of_missing ds l i : i ∈ missing_in ds l <-> i ∈ l /\ ds !! i = Some None.
Proof. unfold missing_in. rewrite list_elem_of_filter. tauto. Qed.

(** The reconstruction loop is the XOR of the other chunks of the group. *)
Lemma reconstruct_spec ds m acc l :
  slots_ok ds -> (forall i, i ∈ l -> (i < k)%nat /\ (i <> m -> ds !! i <> Some None)) ->
  foldl (fun acc i => if bool_decide (i = m) then acc
                      else match ds !! i with Some (Some c) => xor_into acc c | _ => acc end) acc l =
  foldl xor_into acc (raw <$> filter (fun i => i <> m) l).
Proof.
  intros [_ Hds]. revert acc. induction l as [|i l IH]; intros acc Hl; [done|].
  cbn [foldl]. rewrite filter_cons. destruct (Hl i) as [Hi Hsome]; [set_solver|].
  case_bool_decide as Him.
  - rewrite decide_False by tauto. apply IH. set_solver.
  - rewrite decide_True by done. cbn [fmap list_fmap foldl].
    destruct (Hds i Hi) as [->|?]; [|naive_solver]. apply IH. set_solver.
Qed.

(** One group: it fills the only missing chunk with what was encoded, or nothing. *)
Lemma recover_group_spec ds b j o :
  slots_ok ds -> o = Some (parity_value j) \/ o = None ->
  recover_group k p (ds, b) (j, o) = (ds, b) \/
  exists m, (m < k)%nat /\ recover_group k p (ds, b) (j, o) = (<[m := Some (raw m)]> ds, true).
Proof.
  intros Hok Ho. unfold recover_group. cbn [fst snd]. destruct o as [pd|]; [|by left].
  destruct Ho as [[= ->]|?]; [|done].
  destruct (missing_in ds (group_indices k p j)) as [|m [|m2 ms]] eqn:Hm; [by left| |by left].
  right. exists m. assert (m ∈ missing_in ds (group_indices k p j)) as Hin by (rewrite Hm; set_solver).
  apply elem_of_missing in Hin as [Hg _]. apply elem_of_group in Hg as Hmk. split; [by destruct Hmk|].
  do 2 f_equal. rewrite reconstruct_spec.
  - unfold parity_value. rewrite (xor_recover cs); [done|done| |done].
    apply NoDup_filter, NoDup_seq.
  - done.
  - intros i Hi. split; [by apply elem_of_group in Hi as [? _]|]. intros Hne Hnone.
    assert (i ∈ missing_in ds (group_indices k p j)) as Hc by (by apply elem_of_missing).
    rewrite Hm in Hc. set_solver.
Qed.

Lemma slots_ok_fill ds m : slots_ok ds -> slots_ok (<[m := Some (raw m)]> ds).
Proof.
  intros [Hlen Hds]. split; [by rewrite length_insert|]. intros i Hi.
  destruct (decide (m = i)) as [->|Hne].
  - left. apply list_lookup_insert_eq. lia.
  - rewrite list_lookup_insert_ne by done. by apply Hds.
Qed.

(** Filled slots stay; a slot that is alone missing in its group gets filled. *)
Lemma recover_pass_from l ds b :
  slots_ok ds -> Forall (fun jo => jo.2 = Some (parity_value jo.1) \/ jo.2 = None) l ->
  let ds' := (foldl (recover_group k p) (ds, b) l).1 in
  slots_ok ds' /\ (forall i, (i < k)%nat -> ds' !! i = Some None -> ds !! i = Some None) /\
  forall i, (i < k)%nat -> ((i mod p)%nat, Some (parity_value (i mod p)%nat)) ∈ l ->
    (forall i', (i' < k)%nat -> (i' mod p = i mod p)%nat -> ds !! i' = Some None -> i' = i) ->
    ds' !! i = Some (Some (raw i)).
Proof.
  revert ds b. induction l as [|[j o] l IH]; intros ds b Hok Hl; [split_and!; [done|done|set_solver]|].
  apply Forall_cons in Hl as [Ho Hl]. cbn [foldl fst snd] in *.
  set (st := recover_group k p (ds, b) (j, o)).
  assert (slots_ok st.1 /\ (forall i, (i < k)%nat -> st.1 !! i = Some None -> ds !! i = Some None)) as [Hok1 Hsub1].
  { destruct (recover_group_spec ds b j o Hok Ho) as [Hst|(m & Hm & Hst)]; subst st; rewrite Hst; cbn.
    - done.
    - split; [by apply slots_ok_fill|]. intros i Hi. destruct (decide (m = i)) as [->|?].
      + rewrite list_lookup_insert_eq by (destruct Hok; lia). done.
      + by rewrite list_lookup_insert_ne. }
  destruct (IH st.1 st.2 Hok1 Hl) as (Hok' & Hsub' & Hfill').
  rewrite <- (surjective_pairing st) in Hok', Hsub', Hfill'.
  split; [done|]. split; [intros i Hi Hn; by apply Hsub1, Hsub'|].
  intros i Hi Hin Honly. apply elem_of_cons in Hin as [[= <- <-]|Hin].
  2:{ apply Hfill'; [done|done|]. intros i' Hi' Hmod Hn. apply Honly; [done|done|by apply Hsub1]. }
  destruct (proj2 Hok' i Hi) as [?|Hn]; [done|]. exfalso. apply Hsub' in Hn as Hn1; [|done].
  apply Hsub1 in Hn1 as Hn0; [|done]. revert Hn1. subst st. unfold recover_group. cbn [fst snd].
  assert (missing_in ds (group_indices k p (i mod p)) = [i]) as ->.
  { apply Permutation_singleton_r.
    apply NoDup_Permutation; [apply NoDup_filter, NoDup_filter, NoDup_seq|apply NoDup_singleton|].
    intros x. rewrite elem_of_missing, elem_of_group, list_elem_of_singleton. naive_solver. }
  cbn [fst]. rewrite list_lookup_insert_eq by (destruct Hok; lia). done.
Qed.

(** ** Counting *)

(** The chunks that are kept leave enough to recover the rest: every data chunk that
    is lost is the only one lost in its parity group, and the parity is kept. *)
Definition recoverable (kept : list DataChunk) : Prop :=
  forall i, (i < k)%nat -> ~ kept_index kept i ->
    kept_index kept (k + i mod p) /\
    forall i', (i' < k)%nat -> (i' mod p = i mod p)%nat -> ~ kept_index kept i' -> i' = i.

Lemma data_slot_is_Some kept i : is_Some (data_slot kept i) <-> kept_index kept i.
Proof. unfold data_slot. case_decide; split; try done; by intros [? [=]]. Qed.

Lemma parity_slot_is_Some kept j : is_Some (parity_slot kept j) <-> kept_index kept (k + j).
Proof. unfold parity_slot. case_decide; split; try done; by intros [? [=]]. Qed.

Lemma enough_chunks kept :
  recoverable kept ->
  (k <= count_some (data_slot kept <$> seq 0 k) + count_some (parity_slot kept <$> seq 0 p))%nat.
Proof.
  intros Hrec. rewrite !count_some_fmap.
  pose proof (length_filter_split (fun i => is_Some (data_slot kept i)) (seq 0 k)) as Hsplit.
  rewrite length_seq in Hsplit.
  set (lost := filter (fun i => ~ is_Some (data_slot kept i)) (seq 0 k)) in *.
  set (have := filter (fun i => is_Some (parity_slot kept i)) (seq 0 p)).
  assert (forall i, i ∈ lost <-> (i < k)%nat /\ ~ kept_index kept i) as Hlost.
  { intros i. subst lost. rewrite list_elem_of_filter, elem_of_seq, data_slot_is_Some. naive_solver lia. }
  enough (length lost <= length have)%nat by lia.
  rewrite <- (length_fmap (fun i => (i mod p)%nat) lost). apply submseteq_length, NoDup_submseteq.
  - apply NoDup_fmap_2_strong; [|apply NoDup_filter, NoDup_seq].
    intros x y [Hx Hnx]%Hlost [Hy Hny]%Hlost Hxy. by apply (Hrec y Hy Hny).
  - intros j (i & -> & [Hi Hni]%Hlost)%list_elem_of_fmap. subst have.
    rewrite list_elem_of_filter, elem_of_seq, parity_slot_is_Some.
    destruct (Hrec i Hi Hni) as [? _]. pose proof (Nat.mod_upper_bound i p). lia || (split; [done|lia]).
Qed.

Lemma filled_is_encoded ds :
  slots_ok ds -> all_some ds = true -> ds = Some ∘ raw <$> seq 0 k.
Proof.
  intros [Hlen Hds] Hall. rewrite all_some_spec in Hall. apply list_eq. intros i.
  destruct (decide (i < k)%nat) as [Hi|Hi].
  - rewrite list_lookup_fmap, lookup_seq_lt by done. simpl.
    destruct (Hds i Hi) as [?|Hn]; [done|]. apply Hall in Hn as [? [=]].
  - rewrite !lookup_ge_None_2; [done|rewrite length_fmap, length_seq; lia|lia].
Qed.

Lemma data_slots_ok kept : slots_ok (data_slot kept <$> seq 0 k).
Proof.
  split; [by rewrite length_fmap, length_seq|]. intros i Hi.
  rewrite list_lookup_fmap, lookup_seq_lt by done. simpl. unfold data_slot. case_decide; auto.
Qed.

Lemma recover_loop_recovers kept :
  recoverable kept ->
  recover_loop (S k) k p (parity_slot kept <$> seq 0 p) (data_slot kept <$> seq 0 k) =
  Some ∘ raw <$> seq 0 k.
Proof.
  intros Hrec. cbn [recover_loop]. unfold recover_pass. rewrite length_fmap, length_seq.
  set (l := zip (seq 0 p) (parity_slot kept <$> seq 0 p)).
  assert (Forall (fun jo => jo.2 = Some (parity_value jo.1) \/ jo.2 = None) l) as Hl.
  { apply Forall_forall. intros [j o] (n & Hn)%list_elem_of_lookup.
    apply lookup_zip_with_Some in Hn as (j' & o' & [= <- <-] & Hj & Ho).
    apply lookup_seq in Hj as [-> Hj]. rewrite list_lookup_fmap, lookup_seq_lt in Ho by done.
    injection Ho as <-. simpl. unfold parity_slot. case_decide; auto. }
  pose proof (recover_pass_from l _ false (data_slots_ok kept) Hl) as (Hok & Hsub & Hfill).
  destruct (foldl (recover_group k p) _ l) as [ds' b] eqn:Hfold. cbn [fst] in *.
  assert (all_some ds' = true) as Hall.
  { apply all_some_spec. intros i o Ho. apply lookup_lt_Some in Ho as Hi. rewrite (proj1 Hok) in Hi.
    destruct (proj2 Hok i Hi) as [?|Hn]; [naive_solver|]. exfalso.
    assert (forall i, (i < k)%nat -> (data_slot kept <$> seq 0 k) !! i = Some None -> ~ kept_index kept i) as Hnot.
    { intros n Hlt Hslot. rewrite list_lookup_fmap, lookup_seq_lt in Hslot by done. simpl in Hslot.
      rewrite <- data_slot_is_Some. by injection Hslot as ->; intros [? [=]]. }
    pose proof (Hnot i Hi (Hsub i Hi Hn)) as Hk. destruct (Hrec i Hi Hk) as [Hpar Honly].
    rewrite Hfill in Hn; [done|done| |].
    - apply list_elem_of_lookup. exists (i mod p)%nat. pose proof (Nat.mod_upper_bound i p).
      apply lookup_zip_with_Some. do 2 eexists. split; [done|].
      rewrite list_lookup_fmap, lookup_seq_lt by lia. split; [done|]. simpl. f_equal.
      unfold parity_slot. by rewrite decide_True.
    - intros i' Hi' Hmod Hslot. apply Honly; [done|done|by apply Hnot]. }
  rewrite Hall. by apply filled_is_encoded.
Qed.

End Decode.

(** ** The whole round trip *)

Section RoundTrip.
Context `{Crypto}.

Lemma elem_of_zip_with_seq {A B} (f : nat -> A -> B) (g : nat -> A) n y :
  y ∈ zip_with f (seq 0 n) (g <$> seq 0 n) -> exists i, (i < n)%nat /\ y = f i (g i).
Proof.
  intros (m & Hm)%list_elem_of_lookup. apply lookup_zip_with_Some in Hm as (i & x & -> & Hi & Hx).
  apply lookup_seq in Hi as [-> Hlt]. rewrite list_lookup_fmap, lookup_seq_lt in Hx by done.
  injection Hx as <-. eauto.
Qed.

Lemma as_u16_small x : 0 <= x < 65536 -> as_u16 x = x.
Proof. intros Hx. unfold as_u16. by rewrite Z.mod_small. Qed.

(** Every chunk of an encoding is a data chunk or a parity chunk. *)
Lemma encode_genuine data k p e :
  (0 < p)%nat -> Z.of_nat (k + p) < 65536 ->
  encode_block_data data (Z.of_nat k) (Z.of_nat p) = Ok e ->
  let cs := chunk_size (length data) k in
  original_size e = length data /\ data_chunks e = Z.of_nat k /\ parity_chunks e = Z.of_nat p /\
  Forall (genuine k p cs (raw_chunk data cs)) (chunks e).
Proof.
  intros Hp Hn. unfold encode_block_data. case_match; [|done]. intros [= <-]. simpl.
  split; [done|]. split; [done|]. split; [done|]. rewrite !Nat2Z.id.
  set (cs := chunk_size (length data) k). apply Forall_app. split.
  - apply Forall_forall. intros c (i & Hi & ->)%elem_of_zip_with_seq. left. exists i.
    split; [done|]. rewrite as_u16_small by lia. done.
  - assert (parity_of p cs (raw_chunk data cs <$> seq 0 k) =
            parity_value k p cs (raw_chunk data cs) <$> seq 0 p) as ->.
    { apply list_eq. intros j. destruct (decide (j < p)%nat) as [Hj|Hj].
      - rewrite parity_lookup, list_lookup_fmap, lookup_seq_lt by done. done.
      - rewrite !lookup_ge_None_2; [done|rewrite length_fmap, length_seq; lia|].
        rewrite length_parity_of. lia. }
    apply Forall_forall. intros c (j & Hj & ->)%elem_of_zip_with_seq. right. exists j.
    split; [done|]. rewrite as_u16_small by lia. done.
Qed.

Lemma concat_encoded (raw : nat -> list Z) l :
  concat_slots (Some ∘ raw <$> l) = mjoin (raw <$> l).
Proof. unfold concat_slots. rewrite <- list_fmap_compose. done. Qed.

Lemma decode_kept data k p e kept :
  (0 < k)%nat -> (0 < p)%nat -> Z.of_nat (k + p) < 65536 ->
  encode_block_data data (Z.of_nat k) (Z.of_nat p) = Ok e ->
  (forall c, c ∈ kept -> c ∈ chunks e) -> recoverable k p kept ->
  decode_block_data (e <| chunks := kept |>) = Ok data.
Proof.
  intros Hk Hp Hn He Hkept Hrec.
  destruct (encode_genuine data k p e Hp Hn He) as (Hsize & Hdk & Hpk & Hg).
  set (cs := chunk_size (length data) k) in *. set (raw := raw_chunk data cs) in *.
  assert (forall i, length (raw i) = cs) as Hcs by (intros; apply length_raw_chunk).
  assert (Forall (genuine k p cs raw) kept) as Hgk.
  { rewrite Forall_forall in *. auto. }
  assert (take (length data) (mjoin (raw <$> seq 0 k)) = data) as Hjoin.
  { subst raw. rewrite join_raw_chunks, (take_ge data) by (apply chunk_size_enough; done).
    by rewrite take_app_length. }
  unfold decode_block_data. cbn [set_field chunks data_chunks parity_chunks original_size].
  rewrite Hdk, Hpk, Hsize, !Nat2Z.id. rewrite bool_decide_false.
  2:{ intros ->%nil_length_inv. destruct (Hrec 0%nat Hk) as [Hc _]; [|by apply not_elem_of_nil in Hc].
      by apply not_elem_of_nil. }
  rewrite (place_spec k p cs raw) by done. cbn [negb require mbind outcome_bind].
  pose proof (enough_chunks k p cs raw Hp kept Hrec) as Hcount.
  rewrite (proj2 (Nat.ltb_ge _ _)) by done. cbn [negb require mbind outcome_bind].
  destruct (_ =? k)%nat eqn:Hall.
  - apply Nat.eqb_eq in Hall.
    rewrite (filled_is_encoded k p raw Hp (data_slot raw kept <$> seq 0 k)).
    + by rewrite concat_encoded, Hjoin.
    + apply data_slots_ok.
    + apply all_some_spec. intros i o Ho. apply lookup_lt_Some in Ho as Hi.
      rewrite length_fmap, length_seq in Hi. rewrite list_lookup_fmap, lookup_seq_lt in Ho by done.
      injection Ho as <-. apply (filter_full (fun i => is_Some (data_slot raw kept i)) (seq 0 k)).
      * by rewrite <- count_some_fmap, length_seq.
      * apply elem_of_seq. lia.
  - rewrite (recover_loop_recovers k p cs raw Hp Hcs kept Hrec).
    rewrite (proj2 (all_some_spec _)).
    + by rewrite concat_encoded, Hjoin.
    + intros i o Ho. rewrite list_lookup_fmap in Ho. destruct (seq 0 k !! i); simplify_eq/=. eauto.
Qed.

End RoundTrip.

(** ** The recovery loop ends *)

Definition count_none (l : list (option (list Z))) : nat := length (filter (fun o => ~ is_Some o) l).

Lemma count_none_fill l m r :
  l !! m = Some None -> (count_none (<[m := Some r]> l) < count_none l)%nat.
Proof.
  intros Hm. unfold count_none. rewrite <- (take_drop_middle l m None Hm) at 2.
  rewrite insert_take_drop by (by eapply lookup_lt_Some).
  rewrite !filter_app, (filter_cons_False _ (Some r)) by (intros Hn; apply Hn; eauto).
  rewrite (filter_cons_True _ None) by (intros [? [=]]). rewrite !length_app. simpl. lia.
Qed.

Lemma recover_group_fills k p st jo :
  recover_group k p st jo = st \/
  ((recover_group k p st jo).2 = true /\
   (count_none (recover_group k p st jo).1 < count_none st.1)%nat).
Proof.
  unfold recover_group. destruct jo.2 as [pd|]; [|by left].
  destruct (missing_in st.1 _) as [|m [|]] eqn:Hm; [by left| |by left]. right. split; [done|].
  apply count_none_fill. assert (m ∈ missing_in st.1 (group_indices k p jo.1)) as Hin
    by (rewrite Hm; set_solver).
  by apply list_elem_of_filter in Hin as [? _].
Qed.

Lemma recover_pass_fills k p parity ds :
  recover_pass k p parity ds = (ds, false) \/
  (count_none (recover_pass k p parity ds).1 < count_none ds)%nat.
Proof.
  unfold recover_pass. generalize (zip (seq 0 (length parity)) parity) as l.
  assert (forall l st, (foldl (recover_group k p) st l = st \/
            (count_none (foldl (recover_group k p) st l).1 < count_none st.1)%nat)) as Hgen.
  { induction l as [|jo l IH]; intros st; [by left|]. cbn [foldl].
    destruct (recover_group_fills k p st jo) as [->|[_ Hlt]]; [apply IH|].
    destruct (IH (recover_group k p st jo)) as [->|?]; right; [done|lia]. }
  intros l. exact (Hgen l (ds, false)).
Qed.

Lemma recover_loop_stable fuel k p parity ds :
  (count_none ds < fuel)%nat ->
  recover_loop (S fuel) k p parity ds = recover_loop fuel k p parity ds.
Proof.
  revert ds. induction fuel as [|fuel IH]; intros ds Hf; [lia|].
  change (recover_loop (S (S fuel)) k p parity ds) with
    (let '(ds', recovered) := recover_pass k p parity ds in
     if all_some ds' then ds'
     else if recovered then recover_loop (S fuel) k p parity ds' else ds').
  change (recover_loop (S fuel) k p parity ds) with
    (let '(ds', recovered) := recover_pass k p parity ds in
     if all_some ds' then ds'
     else if recovered then recover_loop fuel k p parity ds' else ds').
  destruct (recover_pass_fills k p parity ds) as [Hp|Hlt].
  - rewrite Hp. by destruct (all_some ds).
  - destruct (recover_pass k p parity ds) as [ds' b]. simpl in Hlt.
    destruct (all_some ds'); [done|]. destruct b; [|done]. apply IH. lia.
Qed.

(** ** The theorems *)

Module DemoDA.
Import Demo.

Definition payload : list Z := [1; 2; 3; 4; 5; 6; 7; 8; 9].

Definition encoded (k p : Z) : ErasureEncoding :=
  match encode_block_data payload k p with
  | Ok e => e
  | _ => mkErasureEncoding 0 0 0 0 [] 0
  end.

(** The encoding with only the chunks at some indices. *)
Definition keep (l : list Z) (e : ErasureEncoding) : list DataChunk :=
  filter (fun c => ch_index c ∈ l) (chunks e).

End DemoDA.

(** C38: block data survives erasure: take any chunks of an encoding, in any order and
    with repetitions, such that every lost data chunk is the only data chunk lost in
    its parity group and that parity chunk is there; then [decode_block_data] returns
    exactly the original data (in particular with no loss at all). *)
Theorem erasure_recovery `{Crypto} (data : list Z) (k p : nat) (e : ErasureEncoding)
  (kept : list DataChunk) (Hk : (0 < k)%nat) (Hp : (0 < p)%nat) (Hn : Z.of_nat (k + p) < 65536)
  (He : encode_block_data data (Z.of_nat k) (Z.of_nat p) = Ok e)
  (Hkept : forall c, c ∈ kept -> c ∈ chunks e) (Hrec : recoverable k p kept) :
  decode_block_data (e <| chunks := kept |>) = Ok data.
Proof. exact (decode_kept data k p e kept Hk Hp Hn He Hkept Hrec). Qed.

Lemma erasure_recovery_witness :
  decode_block_data (H := Demo.demo_crypto)
    ((DemoDA.encoded 4 2) <| chunks := DemoDA.keep [5; 0; 1; 4] (DemoDA.encoded 4 2) |>) =
  Ok DemoDA.payload.
Proof.
  apply (@erasure_recovery Demo.demo_crypto DemoDA.payload 4 2); try lia.
  - reflexivity.
  - intros c Hc. unfold DemoDA.keep in Hc. by apply list_elem_of_filter in Hc as [_ ?].
  - assert (ch_index <$> DemoDA.keep [5; 0; 1; 4] (DemoDA.encoded 4 2) = [0; 1; 4; 5]) as Hidx
      by (vm_compute; reflexivity).
    unfold recoverable, kept_index. rewrite Hidx.
    assert (forall i, (i < 4)%nat -> Z.of_nat i ∉ [0; 1; 4; 5] -> i = 2%nat \/ i = 3%nat) as Hlost.
    { intros [|[|[|[|i]]]] Hi Hni; try (by auto); try lia; destruct Hni; cbn; set_solver. }
    intros i Hi Hni. split.
    + destruct (Hlost i Hi Hni) as [-> | ->]; cbn; set_solver.
    + intros i' Hi' Hmod Hni'. destruct (Hlost i Hi Hni) as [-> | ->],
        (Hlost i' Hi' Hni') as [-> | ->]; done.
Defined.

(** Reconstruction is not possible from just any [k] of the [n] chunks, contrary to
    the description of the module: with the four data and four parity chunks that
    [create_da_commitment] uses, losing data chunk 0 together with its parity chunk
    leaves six chunks of eight, and decoding fails; with two parity chunks, losing data chunks
    0 and 2 leaves four of six, and decoding fails. *)
Theorem any_k_chunks_do_not_suffice :
  let e44 := DemoDA.encoded 4 4 in
  let e42 := DemoDA.encoded 4 2 in
  length (DemoDA.keep [1; 2; 3; 5; 6; 7] e44) = 6%nat /\
  decode_block_data (H := Demo.demo_crypto) (e44 <| chunks := DemoDA.keep [1; 2; 3; 5; 6; 7] e44 |>)
    = Err "could not reconstruct all data chunks from available parity"%string /\
  length (DemoDA.keep [1; 3; 4; 5] e42) = 4%nat /\
  decode_block_data (H := Demo.demo_crypto) (e42 <| chunks := DemoDA.keep [1; 3; 4; 5] e42 |>)
    = Err "could not reconstruct all data chunks from available parity"%string.
Proof. cbn zeta. split_and!; vm_compute; reflexivity. Qed.
