(* ===== verification/Engine.v ===== *)
(** * The consensus engine (crates/arc-consensus/src/lib.rs)

    The state of [ConsensusEngine] as one record with the source's fields, and
    its methods as state-passing functions.  A lock or an atomic is its content,
    a [DashMap] a [gmap]; the wall clock is an argument ([now], in milliseconds)
    of the methods that read it.  A method of type
    [outcome ConsensusError (A * ConsensusEngine)] performs all its early returns
    before its first write, so that [Err] leaves the engine as it was; a method
    that writes before it fails returns the pair of its result and the engine. *)

From S2P Require Import Prelude Crypto Validators Dag Security Blocks Certificates.
From S2P Require Import DataAvailability.

(** ** Constants *)

Definition PRUNE_DEPTH : Z := 100.
Definition DEFAULT_RETAINED_FINALITY_HEIGHTS : Z := 8192.
Definition FINALITY_PRUNE_EVERY : Z := 256.
Definition DEFAULT_RETAINED_ROUNDS : Z := 4096.
Definition SECURITY_HISTORY_DEPTH : Z := 10 * PRUNE_DEPTH.
Definition CROSS_SHARD_LOCK_TIMEOUT_MS : Z := 30000.
Definition PROPOSER_TIMEOUT_MS : Z := 100.
Definition VIEW_CHANGE_TIMEOUT_MS : Z := 5000.
Definition MAX_RETAINED_ROUND_SPAN : Z := 4096.

(** ** Cross-shard records *)

Inductive CrossShardStatus := Locked | Committed | Aborted.

#[global] Instance CrossShardStatus_eq_dec : EqDecision CrossShardStatus.
Proof. solve_decision. Defined.

Record CrossShardProof := mkCrossShardProof {
  cs_tx_hash : Hash256;
  cs_source_shard : Z;
  cs_target_shard : Z;
  cs_source_block_hash : Hash256;
  cs_source_round : Z;
  cs_status : CrossShardStatus;
  cs_lock_hash : Hash256;
  cs_inclusion_proof : list Z;
  cs_locked_at_ms : Z;
  cs_locked_at_round : Z;
}.

#[global] Instance eta_CrossShardProof : Eta CrossShardProof := fun p =>
  mkCrossShardProof (cs_tx_hash p) (cs_source_shard p) (cs_target_shard p)
    (cs_source_block_hash p) (cs_source_round p) (cs_status p) (cs_lock_hash p)
    (cs_inclusion_proof p) (cs_locked_at_ms p) (cs_locked_at_round p).

Inductive NodeRole := Proposer | Verifier | Full.

Section Engine.
Context `{Crypto}.

(** ** State *)

Record ConsensusEngine := mkConsensusEngine {
  dag : gmap Hash256 DagBlock;
  rounds : gmap Z (list Hash256);
  committed : list Hash256;
  last_committed_round : Z;
  current_round : Z;
  validator_set : ValidatorSet;
  frozen_validator_set : ValidatorSet;
  pending_validators : list Validator;
  local_address : Address;
  local_keypair : option KeyPair;
  testnet_mode : bool;
  validator_keys : gmap Address (list Z);
  author_round_blocks : gmap (Address * Z) Hash256;
  da_commitments : gmap Hash256 DACommitment;
  pending_cross_shard : gmap Hash256 CrossShardProof;
  completed_cross_shard : gmap Hash256 CrossShardProof;
  finality_proofs : gmap Hash256 FinalityProof;
  round_start : Z;
  force_advanced : bool;
  withholding_detector : WithholdingDetector;
  checkpoint_registry : CheckpointRegistry;
  stake_tracker : StakeTracker;
  node_role : NodeRole;
  consensus_domain : option ConsensusDomain;
  certificate_domain : option ConsensusDomain;
  skip_certificates : gmap (Z * Address) SkipCertificate;
  finality_certificates : gmap Z FinalityCertificate;
  highest_finalized : Z;
  retained_finality_heights : Z;
  retained_rounds : Z;
  recovery_bootstrap_round : option Z;
  restart_base_round : option Z;
  proposal_floor : Z;
  dag_bootstrapping : bool;
  local_recovery_boundary_round : option Z;
  local_recovery_replay_active : bool;
}.

#[global] Instance eta_ConsensusEngine : Eta ConsensusEngine := fun e =>
  mkConsensusEngine (dag e) (rounds e) (committed e) (last_committed_round e)
    (current_round e) (validator_set e) (frozen_validator_set e) (pending_validators e)
    (local_address e) (local_keypair e) (testnet_mode e) (validator_keys e)
    (author_round_blocks e) (da_commitments e) (pending_cross_shard e)
    (completed_cross_shard e) (finality_proofs e) (round_start e) (force_advanced e)
    (withholding_detector e) (checkpoint_registry e) (stake_tracker e) (node_role e)
    (consensus_domain e) (certificate_domain e) (skip_certificates e)
    (finality_certificates e) (highest_finalized e) (retained_finality_heights e)
    (retained_rounds e) (recovery_bootstrap_round e) (restart_base_round e)
    (proposal_floor e) (dag_bootstrapping e) (local_recovery_boundary_round e)
    (local_recovery_replay_active e).

(** ** Construction *)

(** The struct literal shared by [new_with_keypair] and [new]. *)
Definition engine_with (vs : ValidatorSet) (address : Address) (keypair : option KeyPair)
    (now : Z) : ConsensusEngine :=
  {| dag := ∅; rounds := ∅; committed := []; last_committed_round := 0; current_round := 0;
     validator_set := vs; frozen_validator_set := vs; pending_validators := [];
     local_address := address; local_keypair := keypair; testnet_mode := false;
     validator_keys := ∅; author_round_blocks := ∅; da_commitments := ∅;
     pending_cross_shard := ∅; completed_cross_shard := ∅; finality_proofs := ∅;
     round_start := now; force_advanced := false; withholding_detector := wd_new;
     checkpoint_registry := registry_new; stake_tracker := tracker_new; node_role := Full;
     consensus_domain := None; certificate_domain := None; skip_certificates := ∅;
     finality_certificates := ∅; highest_finalized := 0;
     retained_finality_heights := DEFAULT_RETAINED_FINALITY_HEIGHTS;
     retained_rounds := DEFAULT_RETAINED_ROUNDS; recovery_bootstrap_round := None;
     restart_base_round := None; proposal_floor := 0; dag_bootstrapping := false;
     local_recovery_boundary_round := None; local_recovery_replay_active := false |}.

Definition new_with_keypair (vs : ValidatorSet) (address : Address) (keypair : KeyPair) (now : Z) :=
  engine_with vs address (Some keypair) now.

Definition engine_new (vs : ValidatorSet) (address : Address) (now : Z) :=
  engine_with vs address None now.

Definition new_testnet (vs : ValidatorSet) (address : Address) (now : Z) :=
  (engine_new vs address now) <| testnet_mode := true |>.

Definition new_testnet_with_keypair (vs : ValidatorSet) (address : Address) (keypair : KeyPair)
    (now : Z) :=
  (new_with_keypair vs address keypair now) <| testnet_mode := true |>.

Definition register_validator_key (e : ConsensusEngine) (address : Address) (key : list Z) :=
  e <| validator_keys := <[address := key]> (validator_keys e) |>.

Definition reset_round_timer (e : ConsensusEngine) (now : Z) := e <| round_start := now |>.

Definition is_proposer_timed_out (e : ConsensusEngine) (now : Z) : bool :=
  bool_decide (PROPOSER_TIMEOUT_MS < now - round_start e).

Definition needs_view_change (e : ConsensusEngine) (now : Z) : bool :=
  bool_decide (VIEW_CHANGE_TIMEOUT_MS < now - round_start e).

(** ** Reading the DAG *)

Definition get_block (e : ConsensusEngine) (h : Hash256) : option DagBlock := dag e !! h.

Definition blocks_in_round (e : ConsensusEngine) (r : Z) : list Hash256 :=
  default [] (rounds e !! r).

Definition is_excused_for_round (e : ConsensusEngine) (r : Z) (a : Address) : bool :=
  bool_decide (is_Some (skip_certificates e !! (r, a))).

Definition dag_is_empty (e : ConsensusEngine) : bool := bool_decide (dag e = ∅).

(** ** Certificate and recovery domains *)

Definition install_certificate_domain (e : ConsensusEngine) (d : ConsensusDomain)
    : outcome ConsensusError ConsensusEngine :=
  match certificate_domain e with
  | Some existing =>
      if bool_decide (existing = d) then Ok e
      else Err (InvalidBlock "certificate domain is already bound to another chain/epoch")
  | None => Ok (e <| certificate_domain := Some d |>)
  end.

(** The engine has seen neither a block nor a cursor. *)
Definition untouched (e : ConsensusEngine) : bool :=
  dag_is_empty e && bool_decide (current_round e = 0) && bool_decide (last_committed_round e = 0).

Definition install_consensus_domain (e : ConsensusEngine) (d : ConsensusDomain)
    : outcome ConsensusError ConsensusEngine :=
  match consensus_domain e with
  | Some existing =>
      if bool_decide (existing = d) then install_certificate_domain e d
      else Err (InvalidBlock "consensus recovery domain is already bound to another epoch/set")
  | None =>
      _ ← require (untouched e)
            (InvalidBlock "consensus recovery domain must be installed before DAG/cursor recovery");
      e' ← install_certificate_domain e d;
      Ok (e' <| consensus_domain := Some d |>)
  end.

Definition is_recovery_bootstrap_round (e : ConsensusEngine) (r : Z) : bool :=
  bool_decide (recovery_bootstrap_round e = Some r).

Definition install_recovery_cursor (e : ConsensusEngine) (source_consensus_round now : Z)
    : outcome ConsensusError (Z * ConsensusEngine) :=
  _ ← require (bool_decide (is_Some (consensus_domain e)))
        (InvalidBlock "recovery cursor requires an installed consensus domain");
  bootstrap ← ok_or (checked_add source_consensus_round 1)
        (InvalidBlock "recovery source consensus round overflows u64");
  match recovery_bootstrap_round e with
  | Some existing =>
      if bool_decide (existing = bootstrap) && bool_decide (current_round e = bootstrap)
         && bool_decide (last_committed_round e = bootstrap)
      then Ok (bootstrap, e)
      else Err (InvalidBlock "recovery cursor is already bound to another position")
  | None =>
      _ ← require (untouched e)
            (InvalidBlock "recovery cursor must be installed before DAG/local-WAL recovery");
      Ok (bootstrap, e <| current_round := bootstrap |> <| last_committed_round := bootstrap |>
                       <| recovery_bootstrap_round := Some bootstrap |>
                       <| round_start := now |>)
  end.

Definition install_recovery_generation_cursor (e : ConsensusEngine)
    (retention_floor_round current next_commit_round now : Z)
    : outcome ConsensusError ConsensusEngine :=
  bootstrap ← ok_or (recovery_bootstrap_round e)
        (InvalidBlock "local recovery generation requires the signed bootstrap cursor");
  _ ← require (bool_decide (is_Some (consensus_domain e)) && dag_is_empty e
               && negb (local_recovery_replay_active e)
               && bool_decide (local_recovery_boundary_round e = None))
        (InvalidBlock "local recovery generation must be installed once on an empty domain-bound engine");
  _ ← require (bool_decide (current_round e = bootstrap)
               && bool_decide (last_committed_round e = bootstrap)
               && bool_decide (bootstrap <= retention_floor_round)
               && bool_decide (retention_floor_round <= next_commit_round)
               && bool_decide (next_commit_round <= current)
               && bool_decide (saturating_sub current retention_floor_round
                               <= MAX_RETAINED_ROUND_SPAN))
        (InvalidBlock "local recovery generation cursors are inconsistent or outside the bounded window");
  Ok (e <| local_recovery_boundary_round := Some retention_floor_round |>
        <| current_round := current |> <| last_committed_round := next_commit_round |>
        <| local_recovery_replay_active := true |> <| round_start := now |>).

Definition finish_recovery_generation_replay (e : ConsensusEngine)
    : outcome ConsensusError ConsensusEngine :=
  _ ← require (local_recovery_replay_active e)
        (InvalidBlock "local recovery generation replay is not active");
  Ok (e <| local_recovery_replay_active := false |>).

(** ** Restart and rebase *)

Definition set_restart_base_round (e : ConsensusEngine) (r : Z)
    : outcome ConsensusError ConsensusEngine :=
  _ ← require (negb (bool_decide (r = 0)) && dag_is_empty e
               && bool_decide (recovery_bootstrap_round e = None)
               && bool_decide (r = last_committed_round e))
        (InvalidBlock "a restart base round needs an empty DAG and must be this node's own commit cursor");
  Ok (e <| restart_base_round := Some r |>).

Definition set_dag_bootstrapping (e : ConsensusEngine) (active : bool) :=
  e <| dag_bootstrapping := active |>.

Definition is_restart_base_round (e : ConsensusEngine) (r : Z) : bool :=
  bool_decide (restart_base_round e = Some r) &&
  bool_decide (last_committed_round e <= saturating_add r 1).

(** The method [restart_base_round]: the base round while it is open. *)
Definition open_restart_base_round (e : ConsensusEngine) : option Z :=
  base ← restart_base_round e;
  if is_restart_base_round e base then Some base else None.

Definition close_restart_base_round (e : ConsensusEngine) := e <| restart_base_round := None |>.

Definition find_committed_anchor (e : ConsensusEngine) (proof_hash : Hash256)
    (d : ConsensusDomain) : option (Hash256 * Z) :=
  found ← list_find (fun hb => state_decision_commitment hb.2 d = proof_hash)
            (map_to_list (dag e));
  Some (hash found.2.2, round found.2.2).

Definition check_rebase (e : ConsensusEngine) (anchor_round : Z) : outcome ConsensusError Z :=
  cursor ← ok_or (checked_add anchor_round 1) (InvalidBlock "checkpoint anchor round overflows");
  _ ← require (bool_decide (recovery_bootstrap_round e = None))
        (InvalidBlock "a recovery-domain engine is repositioned by its signed recovery path");
  _ ← require (negb (bool_decide (cursor <= last_committed_round e)))
        (InvalidBlock "a checkpoint must move the commit cursor forward");
  Ok cursor.

Definition rebase_to (e : ConsensusEngine) (anchor_round now : Z)
    : outcome ConsensusError (Z * ConsensusEngine) :=
  cursor ← check_rebase e anchor_round;
  let reached := current_round e in
  Ok (cursor, e <| dag := ∅ |> <| rounds := ∅ |> <| committed := [] |>
                <| author_round_blocks := ∅ |> <| da_commitments := ∅ |>
                <| finality_proofs := ∅ |>
                <| proposal_floor := Z.max (proposal_floor e) reached |>
                <| current_round := Z.max reached cursor |>
                <| last_committed_round := cursor |>
                <| restart_base_round := Some cursor |> <| round_start := now |>).

Definition restore_round_from_local_wal (e : ConsensusEngine) (r com now : Z) : ConsensusEngine :=
  if bool_decide (r < com) then e
  else
    let e' := e <| proposal_floor := Z.max (proposal_floor e) r |> in
    if bool_decide (current_round e < r)
    then e' <| current_round := r |> <| last_committed_round := com |> <| round_start := now |>
    else e'.

Definition reset_dag (e : ConsensusEngine) (now : Z) : ConsensusEngine :=
  e <| current_round := 0 |> <| dag := ∅ |> <| rounds := ∅ |> <| committed := [] |>
    <| author_round_blocks := ∅ |> <| finality_proofs := ∅ |> <| force_advanced := false |>
    <| round_start := now |>.

(** An unauthenticated hint moves nothing. *)
Definition observe_untrusted_round_hint (e : ConsensusEngine) (r com : Z) : ConsensusEngine := e.

(** ** Participation *)

Definition requires_full_round_participation (e : ConsensusEngine) : bool :=
  bool_decide (is_Some (consensus_domain e)).

Definition round_participation_satisfies_quorum (e : ConsensusEngine) (s : ValidatorSet) (r : Z)
    (authors : gset Address) (stake : Z) : bool :=
  bool_decide (quorum s <= stake) &&
  (negb (requires_full_round_participation e) ||
   forallb (fun v => negb (bool_decide (0 < v_stake v))
                     || (bool_decide (v_address v ∈ authors)
                         || is_excused_for_round e r (v_address v)))
     (validators s)).

(** The authors of the blocks of a list of hashes that the DAG holds. *)
Definition authors_of (e : ConsensusEngine) (hashes : list Hash256) : list Address :=
  omap (fun h => author <$> dag e !! h) hashes.

Definition has_quorum_parents_for_round (e : ConsensusEngine) (r : Z) : outcome ConsensusError bool :=
  let s := validator_set e in
  t ← tally_seen_first s ∅ 0 (authors_of e (blocks_in_round e r));
  Ok (round_participation_satisfies_quorum e s r t.1 t.2).

Definition advance_round (e : ConsensusEngine) (now : Z)
    : outcome ConsensusError (bool * ConsensusEngine) :=
  let current := current_round e in
  let s := validator_set e in
  t ← tally_seen_first s ∅ 0 (authors_of e (blocks_in_round e current));
  if round_participation_satisfies_quorum e s current t.1 t.2
  then match checked_add current 1 with
       | None => Ok (false, e)
       | Some new_round =>
           Ok (true, e <| current_round := new_round |> <| force_advanced := false |>
                       <| round_start := now |>)
       end
  else Ok (false, e).

Definition force_advance_round (e : ConsensusEngine) (now : Z) : ConsensusEngine :=
  match checked_add (current_round e) 1 with
  | None => e <| round_start := now |>
  | Some r => e <| current_round := r |> <| force_advanced := true |> <| round_start := now |>
  end.

(** ** Membership *)

Definition queue_validator (e : ConsensusEngine) (v : Validator) : ConsensusEngine :=
  if bool_decide (v_address v ∈ (v_address <$> pending_validators e)) then e
  else e <| pending_validators := pending_validators e ++ [v] |>.

Definition freeze_epoch (e : ConsensusEngine) : outcome ConsensusError ConsensusEngine :=
  new_set ← set_freeze (validator_set e) (pending_validators e);
  Ok (e <| validator_set := new_set |> <| frozen_validator_set := new_set |>
        <| pending_validators := [] |>).

Definition join_validator (e : ConsensusEngine) (address stake : Z) (pubkey : list Z) (shard : Z)
    : outcome ConsensusError ConsensusEngine :=
  s ← set_join (validator_set e) address stake shard;
  Ok (register_validator_key (e <| validator_set := s |>) address pubkey).

Definition leave_validator (e : ConsensusEngine) (address : Address)
    : outcome ConsensusError (Z * ConsensusEngine) :=
  r ← set_leave (validator_set e) address;
  Ok (r.1, e <| validator_set := r.2 |> <| validator_keys := delete address (validator_keys e) |>).

Definition update_validator_stake (e : ConsensusEngine) (address new_stake : Z)
    : outcome ConsensusError ConsensusEngine :=
  s ← set_update_stake (validator_set e) address new_stake;
  Ok (e <| validator_set := s |>).

Definition epoch_transition (e : ConsensusEngine) : outcome ConsensusError (Z * ConsensusEngine) :=
  s ← set_epoch_transition (validator_set e);
  Ok (epoch s, e <| validator_set := s |>).

Definition update_validator_set (e : ConsensusEngine) (new_set : ValidatorSet)
    : outcome ConsensusError ConsensusEngine :=
  s ← set_accept new_set;
  Ok (e <| validator_set := s |>).

Definition enforce_slash (e : ConsensusEngine) (offender : Address) (amount : Z)
    : outcome ConsensusError (bool * ConsensusEngine) :=
  match get_validator (validator_set e) offender with
  | None => Ok (false, e)
  | Some _ =>
      s ← apply_slash (validator_set e) offender amount;
      Ok (negb (is_validator s offender), e <| validator_set := s |>)
  end.

(** [submit_fraud_proof]: the record stays even when the slash that follows
    aborts the process, which is the only failure after it. *)
Definition submit_fraud_proof (e : ConsensusEngine) (block_hash proposer claimed_root actual_root : Hash256)
    (r now : Z) : outcome ConsensusError (SlashRecord * ConsensusEngine) :=
  let evidence := hash_pair claimed_root actual_root in
  rs ← report_offense (validator_set e) proposer InvalidBlockProposal evidence r now;
  s ← apply_slash rs.2 proposer (sr_slash_amount rs.1);
  Ok (rs.1, e <| validator_set := s |>).

(** ** Security bookkeeping *)

Definition prune_security_history (e : ConsensusEngine) (r : Z) : ConsensusEngine :=
  if negb (bool_decide (r mod PRUNE_DEPTH = 0)) then e
  else match checked_sub r SECURITY_HISTORY_DEPTH with
       | None => e
       | Some before_round =>
           e <| withholding_detector := wd_prune (withholding_detector e) before_round |>
             <| stake_tracker := prune_votes (stake_tracker e) before_round |>
       end.

Definition detect_equivocation (e : ConsensusEngine) (b : DagBlock) : option EquivocationProof :=
  match author_round_blocks e !! (author b, round b) with
  | Some existing =>
      if bool_decide (existing <> hash b)
      then Some (mkEquivocationProof (author b) (round b) existing (hash b))
      else None
  | None => None
  end.

Definition insert_block_into_dag (e : ConsensusEngine) (b : DagBlock) : ConsensusEngine :=
  e <| dag := <[hash b := b]> (dag e) |>
    <| rounds := <[round b := blocks_in_round e (round b) ++ [hash b]]> (rounds e) |>.

Definition store_da_commitment (e : ConsensusEngine) (c : DACommitment) : ConsensusEngine :=
  e <| da_commitments := <[da_block_hash c := c]> (da_commitments e) |>.

(** ** Proposing *)

(** One deterministic block per known author, in hash order: the parents, their
    authors and their stake. *)
Fixpoint select_parents (e : ConsensusEngine) (s : ValidatorSet) (sel : list Hash256)
    (seen : gset Address) (stake : Z) (hashes : list Hash256)
    : outcome ConsensusError (list Hash256 * gset Address * Z) :=
  match hashes with
  | [] => Ok (sel, seen, stake)
  | h :: hashes' =>
      match dag e !! h with
      | Some b =>
          match get_validator s (author b) with
          | Some v =>
              if bool_decide (author b ∈ seen) then select_parents e s sel seen stake hashes'
              else stake' ← expect (checked_add stake (v_stake v));
                   select_parents e s (sel ++ [h]) ({[author b]} ∪ seen) stake' hashes'
          | None => select_parents e s sel seen stake hashes'
          end
      | None => select_parents e s sel seen stake hashes'
      end
  end.

Definition proposal_parents (e : ConsensusEngine) (r : Z) : outcome ConsensusError (list Hash256) :=
  if bool_decide (r = 0) || is_recovery_bootstrap_round e r then Ok []
  else
    let s := validator_set e in
    let prev_round := r - 1 in
    let prev_hashes := sort_hashes (blocks_in_round e prev_round) in
    t ← select_parents e s [] ∅ 0 prev_hashes;
    _ ← require (round_participation_satisfies_quorum e s prev_round t.1.2 t.2)
          InsufficientParents;
    Ok t.1.1.

(** The block with its canonical ordering and its hash, before it is signed. *)
Definition proposal_body (e : ConsensusEngine) (r : Z) (ps txs : list Hash256) (ts : Z) : DagBlock :=
  let txs' := sort_hashes txs in
  let b := mkDagBlock (local_address e) r ps txs' ts 0 [] (compute_ordering_commitment txs') in
  b <| hash := block_hash_in (consensus_domain e) b |>.

Definition sign_proposal (e : ConsensusEngine) (b : DagBlock) : outcome ConsensusError DagBlock :=
  match local_keypair e with
  | None => Ok b
  | Some keypair =>
      match kp_sign keypair (hash b) with
      | Ok sig => Ok (b <| signature := default [] (bincode_signature sig) |>)
      | Err _ => Err (InvalidBlock "failed to sign block")
      | Panic => Panic
      end
  end.

(** The writes of [propose_block] after the block is built. *)
Definition record_proposal (e : ConsensusEngine) (b : DagBlock)
    : outcome ConsensusError ConsensusEngine :=
  let e1 := insert_block_into_dag e b in
  let e2 := e1 <| author_round_blocks :=
                    <[(author b, round b) := hash b]> (author_round_blocks e1) |> in
  let block_data := default [] (bincode_hashes (transactions b)) in
  match create_da_commitment block_data (hash b) with
  | Ok commitment =>
      let e3 := store_da_commitment e2 commitment in
      let wd := report_received (report_expected (withholding_detector e3) (local_address e3) (round b))
                  (local_address e3) (round b) in
      Ok (prune_security_history (e3 <| withholding_detector := wd |>) (round b))
  | _ => Panic
  end.

Definition propose_block (e : ConsensusEngine) (txs : list Hash256) (ts : Z)
    : outcome ConsensusError (DagBlock * ConsensusEngine) :=
  _ ← require (can_produce_blocks (validator_set e) (local_address e)) NotValidator;
  let r := current_round e in
  _ ← require (bool_decide (author_round_blocks e !! (local_address e, r) = None)) DuplicateBlock;
  _ ← require (negb (bool_decide (0 < proposal_floor e) && bool_decide (r <= proposal_floor e)))
        DuplicateBlock;
  ps ← proposal_parents e r;
  b ← sign_proposal e (proposal_body e r ps txs ts);
  e' ← record_proposal e b;
  Ok (b, e').

(** ** Receiving *)

(** A registered key must be the key of an Ed25519 signature. *)
Definition registered_key_matches (e : ConsensusEngine) (a : Address) (sig : Signature) : bool :=
  match validator_keys e !! a, sig with
  | Some registered_key, SigEd25519 public_key _ => bool_decide (public_key = registered_key)
  | _, _ => true
  end.

Definition is_authentic_committee_block (e : ConsensusEngine) (b : DagBlock) : bool :=
  if negb (can_produce_blocks (validator_set e) (author b)) then false
  else if negb (verify_hash_in (consensus_domain e) b) || bool_decide (signature b = []) then false
  else match bincode_read_signature (signature b) with
       | None => false
       | Some sig => is_ok (sig_verify sig (hash b) (author b))
                     && registered_key_matches e (author b) sig
       end.

(** Step 3c. *)
Definition check_signature (e : ConsensusEngine) (b : DagBlock) : outcome ConsensusError unit :=
  if negb (bool_decide (signature b = [])) then
    sig ← ok_or (bincode_read_signature (signature b)) InvalidSignature;
    _ ← require (is_ok (sig_verify sig (hash b) (author b))) InvalidSignature;
    require (registered_key_matches e (author b) sig) InvalidSignature
  else require (bool_decide (local_keypair e = None)) InvalidSignature.

(** A parent list that may stand without its parents. *)
Definition well_formed_parents (b : DagBlock) : bool :=
  negb (bool_decide (parents b = [])) && negb (bool_decide (0 ∈ parents b))
  && bool_decide (NoDup (parents b)).

(** Is [p] held, at the round a parent of round [r] must have? *)
Definition parent_at (e : ConsensusEngine) (expected : Z) (p : Hash256) : option DagBlock :=
  b ← dag e !! p;
  if bool_decide (round b = expected) then Some b else None.

(** The ordinary branch of step 5. *)
Definition check_parents (e : ConsensusEngine) (b : DagBlock) : outcome ConsensusError unit :=
  let s := validator_set e in
  let expected_parent_round := round b - 1 in
  let found := omap (parent_at e expected_parent_round) (parents b) in
  let missing_parents := Z.of_nat (length (parents b) - length found) in
  t ← tally_known_first s ∅ 0 (author <$> found);
  _ ← require (negb (bool_decide (0 < missing_parents)))
        (MissingParents (hash b) missing_parents);
  require (round_participation_satisfies_quorum e s (saturating_sub (round b) 1) t.1 t.2)
    InsufficientParents.

(** The rounds whose blocks need no parents here, and which exception applies. *)
Definition check_parentage (e : ConsensusEngine) (b : DagBlock) (base_exception : bool)
    : outcome ConsensusError unit :=
  if bool_decide (round b = 0) || is_recovery_bootstrap_round e (round b) then
    require (bool_decide (parents b = [])) (InvalidBlock "bootstrap block must not have parents")
  else if base_exception && is_restart_base_round e (round b) then
    require (well_formed_parents b)
      (InvalidBlock "restart base round block has an empty, zero, or duplicate parent list")
  else if local_recovery_replay_active e
          && bool_decide (local_recovery_boundary_round e = Some (round b)) then
    require (well_formed_parents b)
      (InvalidBlock "local recovery boundary has an empty, zero, or duplicate parent commitment")
  else check_parents e b.

(** Everything [receive_block_inner_with_persistence] checks before it persists. *)
Definition validate_block (e : ConsensusEngine) (b : DagBlock) (base_exception : bool)
    : outcome ConsensusError unit :=
  _ ← require (can_produce_blocks (validator_set e) (author b)) NotValidator;
  _ ← require (bool_decide (dag e !! hash b = None)) DuplicateBlock;
  _ ← require (verify_hash_in (consensus_domain e) b)
        (InvalidBlock "hash does not match block contents");
  _ ← require (verify_ordering b) (MevOrderingViolation (hash b) (author b));
  _ ← check_signature e b;
  _ ← require (negb (bool_decide (1 < saturating_sub (round b) (current_round e))))
        (RoundTooFarAhead (round b) (current_round e));
  check_parentage e b base_exception.

(** The answer to an equivocation: outside a recovery domain the author is
    slashed in the active set. *)
Definition punish_equivocation (e : ConsensusEngine) (b : DagBlock) (p : EquivocationProof)
    : outcome ConsensusError ConsensusEngine :=
  let evidence := hash_pair (ep_block1_hash p) (ep_block2_hash p) in
  match consensus_domain e with
  | Some _ => Ok e
  | None =>
      match report_offense (validator_set e) (author b) EquivocationDAG evidence (round b)
              (timestamp b) with
      | Ok (record, s) =>
          s' ← apply_slash s (author b) (sr_slash_amount record);
          Ok (e <| validator_set := s' |>)
      | Err _ => Ok e
      | Panic => Panic
      end
  end.

(** [author_round_blocks.entry(key)]: the first block of an author wins. *)
Definition note_author_block (e : ConsensusEngine) (b : DagBlock) : ConsensusEngine :=
  match author_round_blocks e !! (author b, round b) with
  | None => e <| author_round_blocks :=
                   <[(author b, round b) := hash b]> (author_round_blocks e) |>
  | Some _ => e
  end.

(** The writes of [receive_block_inner_with_persistence].  The double votes that
    [detect_double_voting] finds are only logged. *)
Definition admit_block (e : ConsensusEngine) (b : DagBlock) : outcome ConsensusError ConsensusEngine :=
  e1 ← match detect_equivocation e b with
       | Some p => punish_equivocation e b p
       | None => Ok (note_author_block e b)
       end;
  let e2 := insert_block_into_dag e1 b in
  let e3 := e2 <| withholding_detector :=
                    report_received (withholding_detector e2) (author b) (round b) |> in
  let is_equivocation :=
    match author_round_blocks e3 !! (author b, round b) with
    | Some existing => bool_decide (existing <> hash b)
    | None => false
    end in
  let e4 := if is_equivocation then e3
            else e3 <| stake_tracker :=
                         report_vote (stake_tracker e3) (author b) (round b) (hash b) |> in
  Ok (prune_security_history e4 (round b)).

(** The hook that makes a block durable: it has a state of its own and may
    refuse. *)
Definition persist_hook (S : Type) := S -> DagBlock -> outcome ConsensusError unit * S.

Definition no_persistence : persist_hook unit := fun s _ => (Ok (), s).

Definition receive_block_inner_with_persistence {S} (e : ConsensusEngine) (st : S)
    (b : DagBlock) (base_exception : bool) (persist : persist_hook S)
    : outcome ConsensusError unit * S * ConsensusEngine :=
  match validate_block e b base_exception with
  | Ok _ =>
      match persist st b with
      | (Ok _, st') =>
          match admit_block e b with
          | Ok e' => (Ok (), st', e')
          | Err x => (Err x, st', e)
          | Panic => (Panic, st', e)
          end
      | (Err x, st') => (Err x, st', e)
      | (Panic, st') => (Panic, st', e)
      end
  | Err x => (Err x, st, e)
  | Panic => (Panic, st, e)
  end.

Definition receive_block_inner (e : ConsensusEngine) (b : DagBlock) (base_exception : bool)
    : outcome ConsensusError unit * ConsensusEngine :=
  let '(r, _, e') := receive_block_inner_with_persistence e () b base_exception no_persistence in
  (r, e').

Definition receive_block (e : ConsensusEngine) (b : DagBlock)
    : outcome ConsensusError unit * ConsensusEngine :=
  receive_block_inner e b false.

(** ** Gaps *)

(** The rounds [from], [from + 1], ... that hold blocks; [fuel] is the number of
    rounds to look at, at most [limit]. *)
Fixpoint first_missing_from (e : ConsensusEngine) (fuel : nat) (r : Z) : option Z :=
  match fuel with
  | O => None
  | S fuel' =>
      if bool_decide (blocks_in_round e r = []) then Some r
      else first_missing_from e fuel' (saturating_add r 1)
  end.

Definition first_missing_round (e : ConsensusEngine) (from limit : Z) : Z :=
  let end_ := saturating_add from limit in
  default end_ (first_missing_from e (Z.to_nat (end_ - from)) from).

Fixpoint absent_from (e : ConsensusEngine) (expected : Z) (ps : list Hash256)
    : option (list Hash256) :=
  match ps with
  | [] => Some []
  | p :: ps' =>
      match dag e !! p with
      | Some held => if bool_decide (round held <> expected) then None
                     else absent_from e expected ps'
      | None => absent ← absent_from e expected ps'; Some (p :: absent)
      end
  end.

Definition absent_parents (e : ConsensusEngine) (b : DagBlock) : option (list Hash256) :=
  expected ← checked_sub (round b) 1;
  absent_from e expected (parents b).

Definition set_retained_rounds (e : ConsensusEngine) (r : Z) : ConsensusEngine :=
  e <| retained_rounds := Z.max r PRUNE_DEPTH |>.

End Engine.

(** ** What the operations write *)

Section EngineFacts.
Context `{Crypto}.
Implicit Types e : ConsensusEngine.

Lemma prune_security_history_eq e r :
  exists wd st, prune_security_history e r =
    e <| withholding_detector := wd |> <| stake_tracker := st |>.
Proof.
  unfold prune_security_history. destruct (negb _).
  { exists (withholding_detector e), (stake_tracker e). by destruct e. }
  destruct (checked_sub _ _); [by eexists _, _|].
  exists (withholding_detector e), (stake_tracker e). by destruct e.
Qed.

(** The author index after a block: the first block of an author stays. *)
Definition index_author (m : gmap (Address * Z) Hash256) (b : DagBlock)
    : gmap (Address * Z) Hash256 :=
  match m !! (author b, round b) with
  | Some _ => m
  | None => <[(author b, round b) := hash b]> m
  end.

(** An engine with one more block: the DAG, its two indexes, and whatever the
    active set and the security trackers became. *)
Definition with_block e (b : DagBlock) (s : ValidatorSet) (wd : WithholdingDetector)
    (st : StakeTracker) (da : gmap Hash256 DACommitment) : ConsensusEngine :=
  e <| dag := <[hash b := b]> (dag e) |>
    <| rounds := <[round b := blocks_in_round e (round b) ++ [hash b]]> (rounds e) |>
    <| author_round_blocks := index_author (author_round_blocks e) b |>
    <| validator_set := s |> <| withholding_detector := wd |> <| stake_tracker := st |>
    <| da_commitments := da |>.

Lemma punish_equivocation_Ok e b p e' :
  punish_equivocation e b p = Ok e' ->
  exists s, e' = e <| validator_set := s |> /\ rtc set_change (validator_set e) s /\
    (is_Some (consensus_domain e) -> s = validator_set e).
Proof.
  unfold punish_equivocation. destruct (consensus_domain e) as [d|] eqn:Hd.
  { intros [= <-]. exists (validator_set e). split; [by destruct e|]. by split; [constructor|]. }
  destruct (report_offense _ _ _ _ _ _) as [[record s]|x|] eqn:Hr; intros Hok; inv_ok.
  - eexists. split; [done|]. split; [|by intros []].
    eapply rtc_l; [by eapply change_report|]. eapply rtc_l; [by eapply change_slash|constructor].
  - exists (validator_set e'). split; [by destruct e'|]. split; [constructor|by intros []].
Qed.

Lemma index_author_seen e b p :
  detect_equivocation e b = Some p ->
  index_author (author_round_blocks e) b = author_round_blocks e.
Proof.
  unfold detect_equivocation, index_author. by destruct (author_round_blocks e !! _).
Qed.

Lemma admit_block_eq e b e' :
  admit_block e b = Ok e' ->
  exists s wd st, e' = with_block e b s wd st (da_commitments e) /\
    rtc set_change (validator_set e) s /\
    (is_Some (consensus_domain e) \/ detect_equivocation e b = None -> s = validator_set e).
Proof.
  unfold admit_block. intros (e1 & He1 & Hok)%bind_Ok. injection Hok as <-.
  assert (exists s, e1 = e <| author_round_blocks := index_author (author_round_blocks e) b |>
                           <| validator_set := s |> /\ rtc set_change (validator_set e) s /\
            (is_Some (consensus_domain e) \/ detect_equivocation e b = None ->
             s = validator_set e)) as (s & -> & Hs & Hs').
  { destruct (detect_equivocation e b) as [p|] eqn:Hp.
    - apply punish_equivocation_Ok in He1 as (s & -> & ? & ?).
      rewrite (index_author_seen e b p Hp). exists s. split; [by destruct e|]. naive_solver.
    - injection He1 as <-. exists (validator_set e). split; [|split; [constructor|done]].
      unfold note_author_block, index_author.
      destruct (author_round_blocks e !! _); by destruct e. }
  match goal with |- context [prune_security_history ?x ?r] =>
    destruct (prune_security_history_eq x r) as (wd & st & ->) end.
  exists s, wd, st. split; [|done]. destruct e; simpl in *.
  unfold with_block, insert_block_into_dag, blocks_in_round, index_author; simpl.
  by repeat case_match.
Qed.

Lemma receive_block_inner_Ok e b base e' :
  receive_block_inner e b base = (Ok (), e') <->
  validate_block e b base = Ok () /\ admit_block e b = Ok e'.
Proof.
  unfold receive_block_inner, receive_block_inner_with_persistence, no_persistence.
  destruct (validate_block e b base) as [[]| |], (admit_block e b); naive_solver.
Qed.

(** A block that is not accepted leaves the engine as it was. *)
Lemma receive_with_persistence_refused {S} e (st : S) b base persist x st' e' :
  receive_block_inner_with_persistence e st b base persist = (x, st', e') ->
  x <> Ok () -> e' = e.
Proof.
  unfold receive_block_inner_with_persistence.
  destruct (validate_block e b base) as [[]| |], (persist st b) as [[[]| |] ?],
    (admit_block e b); naive_solver.
Qed.

Lemma receive_with_persistence_Ok {S} e (st : S) b base persist st' e' :
  receive_block_inner_with_persistence e st b base persist = (Ok (), st', e') ->
  persist st b = (Ok (), st') /\ receive_block_inner e b base = (Ok (), e').
Proof.
  rewrite receive_block_inner_Ok. unfold receive_block_inner_with_persistence.
  destruct (validate_block e b base) as [[]| |], (persist st b) as [[[]| |] ?],
    (admit_block e b); naive_solver.
Qed.

End EngineFacts.
