(* ===== verification/DagInvariant.v ===== *)
(** * The invariants of the engine's DAG

    [dag_ok] ties the block map of the engine to its round index and its author
    index and says that every block held passed the hash and ordering checks of
    the engine's domain.  [parents_ok] is what the parent check of
    [receive_block] and the parent selection of [propose_block] establish for a
    block.  The lemmas show how inserting a block and dropping a round act on
    both. *)

From S2P Require Import Prelude Crypto Validators Dag Security Blocks Certificates.
From S2P Require Import DataAvailability Engine.

Section DagInvariant.
Context `{Crypto}.
Implicit Types e : ConsensusEngine.

Record dag_ok e : Prop := {
  dag_key h b : dag e !! h = Some b -> hash b = h;
  dag_valid h b : dag e !! h = Some b ->
    block_ok b /\ verify_hash_in (consensus_domain e) b = true /\ verify_ordering b = true;
  dag_rounds h b : dag e !! h = Some b -> h ∈ blocks_in_round e (round b);
  rounds_dag r h : h ∈ blocks_in_round e r -> exists b, dag e !! h = Some b /\ round b = r;
  rounds_nodup r : NoDup (blocks_in_round e r);
  dag_author h b : dag e !! h = Some b -> is_Some (author_round_blocks e !! (author b, round b));
  author_dag a r h : author_round_blocks e !! (a, r) = Some h ->
    exists b, dag e !! h = Some b /\ author b = a /\ round b = r;
}.

(** The fields the invariant reads. *)
Definition dag_part e := (dag e, rounds e, author_round_blocks e, consensus_domain e).

Lemma dag_ok_ext e e' : dag_part e' = dag_part e -> dag_ok e -> dag_ok e'.
Proof.
  intros [= Hd Hr Ha Hc] [H1 H2 H3 H4 H5 H6 H7].
  split; unfold blocks_in_round in *; rewrite ?Hd, ?Hr, ?Ha, ?Hc; eauto.
Qed.

Lemma dag_ok_empty e :
  dag e = ∅ -> rounds e = ∅ -> author_round_blocks e = ∅ -> dag_ok e.
Proof.
  intros Hd Hr Ha.
  split; unfold blocks_in_round; rewrite ?Hd, ?Hr, ?Ha; intros *;
    rewrite ?lookup_empty; simpl; try done; [by intros ?%not_elem_of_nil|constructor].
Qed.

(** ** Inserting a block *)

Lemma blocks_in_round_insert e b s wd st da r :
  blocks_in_round (with_block e b s wd st da) r =
  if decide (r = round b) then blocks_in_round e r ++ [hash b] else blocks_in_round e r.
Proof.
  unfold blocks_in_round, with_block; simpl. case_decide as Hr.
  - subst. by rewrite lookup_insert_eq.
  - by rewrite lookup_insert_ne.
Qed.

Lemma elem_of_blocks_in_round_insert e b s wd st da r h :
  h ∈ blocks_in_round (with_block e b s wd st da) r <->
  h ∈ blocks_in_round e r \/ (r = round b /\ h = hash b).
Proof.
  rewrite blocks_in_round_insert. case_decide; [rewrite elem_of_app|]; set_solver.
Qed.

Lemma index_author_lookup m b k h :
  index_author m b !! k = Some h <->
  m !! k = Some h \/ (m !! k = None /\ k = (author b, round b) /\ h = hash b).
Proof.
  unfold index_author. destruct (m !! (author b, round b)) eqn:Hm.
  - split; [tauto|]. intros [?|(?&->&?)]; [done|congruence].
  - destruct (decide (k = (author b, round b))) as [->|Hk].
    + rewrite lookup_insert_eq. naive_solver.
    + rewrite lookup_insert_ne by done. naive_solver.
Qed.

Lemma dag_with_block e b s wd st da h b' :
  dag (with_block e b s wd st da) !! h = Some b' <->
  (hash b = h /\ b = b') \/ (hash b <> h /\ dag e !! h = Some b').
Proof. apply lookup_insert_Some. Qed.

Lemma dag_with_block_old e b s wd st da h b' :
  dag e !! hash b = None -> dag e !! h = Some b' ->
  dag (with_block e b s wd st da) !! h = Some b'.
Proof. intros. apply dag_with_block. right. split; congruence. Qed.

Lemma dag_ok_insert e b s wd st da :
  dag_ok e -> dag e !! hash b = None -> block_ok b ->
  verify_hash_in (consensus_domain e) b = true -> verify_ordering b = true ->
  dag_ok (with_block e b s wd st da).
Proof.
  intros [H1 H2 H3 H4 H5 H6 H7] Hnew Hb Hh Ho. split.
  - intros h b' [[<- <-]|[? ?]]%dag_with_block; eauto.
  - intros h b' [[<- <-]|[? ?]]%dag_with_block; [done|by eapply H2].
  - intros h b' Hin. rewrite elem_of_blocks_in_round_insert.
    apply dag_with_block in Hin as [[<- <-]|[? ?]]; eauto.
  - intros r h [(b' & Hb' & Hr)%H4|[-> ->]]%elem_of_blocks_in_round_insert.
    + exists b'. split; [by apply dag_with_block_old|done].
    + exists b. split; [apply dag_with_block; by left|done].
  - intros r. rewrite blocks_in_round_insert. case_decide; [|done].
    apply NoDup_app. split; [done|]. split; [|apply NoDup_singleton].
    intros h Hin ->%list_elem_of_singleton. apply H4 in Hin as (? & ? & ?). congruence.
  - intros h b' Hin. change (author_round_blocks (with_block _ _ _ _ _ _))
      with (index_author (author_round_blocks e) b).
    destruct (author_round_blocks e !! (author b', round b')) as [h'|] eqn:Ha.
    { exists h'. apply index_author_lookup. by left. }
    apply dag_with_block in Hin as [[<- <-]|[? Hin]].
    { exists (hash b). apply index_author_lookup. by right. }
    apply H6 in Hin as [? ?]. congruence.
  - intros a r h [Ha|(? & [= -> ->] & ->)]%index_author_lookup.
    + apply H7 in Ha as (b' & ? & ? & ?). exists b'. split; [by apply dag_with_block_old|done].
    + exists b. split; [apply dag_with_block; by left|done].
Qed.

(** ** What validation establishes *)

Lemma validate_block_Ok e b base :
  validate_block e b base = Ok () <->
  can_produce_blocks (validator_set e) (author b) = true /\ dag e !! hash b = None /\
  verify_hash_in (consensus_domain e) b = true /\ verify_ordering b = true /\
  check_signature e b = Ok () /\ saturating_sub (round b) (current_round e) <= 1 /\
  check_parentage e b base = Ok ().
Proof.
  unfold validate_block. repeat setoid_rewrite bind_Ok. setoid_rewrite require_Ok. split.
  - intros ([] & H1 & [] & H2 & [] & H3 & [] & H4 & [] & H5 & [] & H6 & H7).
    dec_hyps. split_and!; try done. lia.
  - intros (H1 & H2 & H3 & H4 & H5 & H6 & H7). exists (). split; [done|]. exists ().
    split; [by apply bool_decide_eq_true|]. exists (). split; [done|]. exists (). split; [done|].
    exists (). split; [done|]. exists (). split; [|done].
    by apply negb_true_iff, bool_decide_eq_false, Z.nlt_ge.
Qed.

Lemma receive_block_dag_ok e b base e' :
  dag_ok e -> block_ok b -> receive_block_inner e b base = (Ok (), e') -> dag_ok e'.
Proof.
  intros Hok Hb [(_ & ? & ? & ? & _)%validate_block_Ok
                 (s & wd & st & -> & _)%admit_block_eq]%receive_block_inner_Ok.
  by apply dag_ok_insert.
Qed.

(** ** Parents *)

(** The authors of the parents of [b] that [e] holds. *)
Definition parent_authors e (b : DagBlock) : gset Address :=
  list_to_set (authors_of e (parents b)).

(** Every parent is held one round below, the parents carry a quorum of [s], and
    in a recovery domain every member is an author of a parent or excused. *)
Definition parents_ok e (s : ValidatorSet) (excused : Z -> Address -> Prop) (b : DagBlock) : Prop :=
  (forall p, p ∈ parents b -> exists pb, dag e !! p = Some pb /\ round pb = round b - 1) /\
  quorum s <= stake_in s (parent_authors e b) /\
  (is_Some (consensus_domain e) -> forall v, v ∈ validators s ->
     v_address v ∈ parent_authors e b \/ excused (round b - 1) (v_address v)).

Definition excused_by e (r : Z) (a : Address) : Prop := is_Some (skip_certificates e !! (r, a)).

Lemma participation_spec e s r A stake :
  vs_wf s ->
  round_participation_satisfies_quorum e s r A stake = true <->
  quorum s <= stake /\
  (is_Some (consensus_domain e) -> forall v, v ∈ validators s ->
     v_address v ∈ A \/ excused_by e r (v_address v)).
Proof.
  intros Hwf. unfold round_participation_satisfies_quorum, requires_full_round_participation.
  rewrite andb_true_iff, bool_decide_eq_true, orb_true_iff, negb_true_iff, bool_decide_eq_false.
  rewrite forallb_forall. apply and_iff_compat_l. split.
  - intros [?|Hall] Hdom v Hv; [done|]. apply list_elem_of_In in Hv as Hv'. apply Hall in Hv'.
    assert (0 < v_stake v) as Hpos.
    { eapply tier_ok_stake_pos, (Forall_forall tier_ok); [by apply wf_tiers|done]. }
    rewrite bool_decide_true in Hv' by done. simpl in Hv'.
    apply orb_true_iff in Hv' as [Hin|Hex]; [left|right];
      [by apply bool_decide_eq_true in Hin|by apply bool_decide_eq_true in Hex].
  - intros Hall. destruct (decide (is_Some (consensus_domain e))) as [Hd|Hd]; [right|by left].
    intros v Hv%list_elem_of_In. destruct (Hall Hd v Hv) as [Hin|Hex].
    + rewrite (bool_decide_true (_ ∈ _)) by done. by destruct (negb _).
    + unfold is_excused_for_round. rewrite (bool_decide_true (is_Some _)) by done.
      by rewrite orb_true_r, orb_true_r.
Qed.

Lemma authors_of_elem e hs a :
  a ∈ authors_of e hs <-> exists h b, h ∈ hs /\ dag e !! h = Some b /\ author b = a.
Proof.
  unfold authors_of. rewrite list_elem_of_omap. setoid_rewrite fmap_Some. naive_solver.
Qed.

Lemma parent_authors_elem e b a :
  a ∈ parent_authors e b <->
  exists p pb, p ∈ parents b /\ dag e !! p = Some pb /\ author pb = a.
Proof. unfold parent_authors. by rewrite elem_of_list_to_set, authors_of_elem. Qed.

(** The parents found at the expected round, when none is missing. *)
Lemma omap_cons_eq {A B} (f : A -> option B) x l :
  omap f (x :: l) = match f x with Some y => y :: omap f l | None => omap f l end.
Proof. reflexivity. Qed.

Lemma length_omap_le {A B} (f : A -> option B) l : (length (omap f l) <= length l)%nat.
Proof.
  induction l as [|y l IH]; [done|]. rewrite omap_cons_eq. destruct (f y); simpl; lia.
Qed.

Lemma omap_full {A B} (f : A -> option B) l :
  length (omap f l) = length l <-> forall x, x ∈ l -> is_Some (f x).
Proof.
  induction l as [|y l IH]; [set_solver|]. rewrite omap_cons_eq.
  pose proof (length_omap_le f l). split.
  - destruct (f y) eqn:Hy; simpl; intros Hlen; [|lia].
    intros x [->|Hx]%elem_of_cons; [done|]. apply IH; [lia|done].
  - intros Hall. destruct (Hall y) as [z ->]; [set_solver|]. simpl. f_equal. apply IH. set_solver.
Qed.

Lemma parent_at_Some e r p b :
  parent_at e r p = Some b <-> dag e !! p = Some b /\ round b = r.
Proof.
  unfold parent_at. rewrite bind_Some.
  split.
  - intros (x & Hx & Hg). case_bool_decide; naive_solver.
  - intros [Hd Hr]. exists b. split; [done|]. by rewrite bool_decide_true.
Qed.

Lemma found_authors e r ps :
  (forall p, p ∈ ps -> is_Some (parent_at e r p)) ->
  author <$> omap (parent_at e r) ps = authors_of e ps.
Proof.
  induction ps as [|p ps IH]; intros Hall; [done|].
  destruct (Hall p) as [b Hb]; [set_solver|]. simpl. rewrite Hb. simpl.
  apply parent_at_Some in Hb as [-> _]. simpl. f_equal. apply IH. set_solver.
Qed.

Lemma tally_known_first_start s l :
  vs_wf s -> tally_known_first s ∅ 0 l =
    Ok (list_to_set l ∩ addresses s, stake_in s (list_to_set l)).
Proof.
  intros Hwf. destruct (tally_known_first_spec s ∅ l Hwf) as (A & Ht & ->).
  rewrite stake_in_empty in Ht. rewrite Ht. by rewrite !union_empty_l_L.
Qed.

Lemma tally_seen_first_start s l :
  vs_wf s -> tally_seen_first s ∅ 0 l = Ok (list_to_set l, stake_in s (list_to_set l)).
Proof.
  intros Hwf. pose proof (tally_seen_first_spec s ∅ l Hwf) as Ht.
  rewrite stake_in_empty in Ht. rewrite Ht. by rewrite !union_empty_l_L.
Qed.

Lemma check_parents_Ok e b :
  vs_wf (validator_set e) -> 0 < round b ->
  check_parents e b = Ok () <-> parents_ok e (validator_set e) (excused_by e) b.
Proof.
  intros Hwf Hr. unfold check_parents, parents_ok, parent_authors.
  set (found := omap (parent_at e (round b - 1)) (parents b)).
  rewrite tally_known_first_start by done. simpl.
  replace (saturating_sub (round b) 1) with (round b - 1) by (unfold saturating_sub; lia).
  pose proof (length_omap_le (parent_at e (round b - 1)) (parents b)) as Hle. fold found in Hle.
  split.
  - intros ([] & Hm%require_Ok & Hp%require_Ok)%bind_Ok.
    apply negb_true_iff, bool_decide_eq_false in Hm.
    assert (forall p, p ∈ parents b -> is_Some (parent_at e (round b - 1) p)) as Hall.
    { apply omap_full. fold found. lia. }
    unfold found in Hp. rewrite found_authors in Hp by done.
    apply participation_spec in Hp as [Hq Hx]; [|done]. split_and!; [|done|].
    + intros p (pb & Hpb%parent_at_Some)%Hall. eauto.
    + intros Hd v Hv. destruct (Hx Hd v Hv); [left; set_solver|by right].
  - intros (Hall & Hq & Hx).
    assert (forall p, p ∈ parents b -> is_Some (parent_at e (round b - 1) p)) as Hall'.
    { intros p (pb & Hpb)%Hall. exists pb. by apply parent_at_Some. }
    assert (length found = length (parents b)) as Hlen by (by apply omap_full).
    rewrite Hlen, Nat.sub_diag. simpl. apply require_Ok, participation_spec; [done|].
    unfold found. rewrite found_authors by done. split; [done|].
    intros Hd v Hv. destruct (Hx Hd v Hv) as [Hin|?]; [left|by right].
    apply elem_of_intersection. split; [done|].
    by apply elem_of_list_to_set, list_elem_of_fmap_2.
Qed.

Lemma parents_ok_mono e e' s (ex ex' : Z -> Address -> Prop) b :
  (forall p pb, p ∈ parents b -> dag e !! p = Some pb -> dag e' !! p = Some pb) ->
  consensus_domain e' = consensus_domain e ->
  (forall r a, ex r a -> ex' r a) ->
  parents_ok e s ex b -> parents_ok e' s ex' b.
Proof.
  intros Hdag Hdom Hex (Hall & Hq & Hx).
  assert (parent_authors e' b = parent_authors e b) as Ha.
  { apply set_eq. intros a. rewrite !parent_authors_elem. split.
    - intros (p & pb & Hp & Hd & <-). destruct (Hall p Hp) as (pb' & Hd' & _).
      rewrite (Hdag p pb' Hp Hd') in Hd. naive_solver.
    - intros (p & pb & Hp & Hd & <-). naive_solver. }
  split_and!.
  - intros p Hp. destruct (Hall p Hp) as (pb & ? & ?). eauto.
  - by rewrite Ha.
  - rewrite Hdom, Ha. intros Hd v Hv. destruct (Hx Hd v Hv); eauto.
Qed.

Lemma parents_ok_set e s s' ex b :
  validators s' = validators s -> quorum s' = quorum s -> parents_ok e s ex b -> parents_ok e s' ex b.
Proof. unfold parents_ok, stake_in. by intros -> ->. Qed.

(** ** Proposing *)

Lemma select_parents_spec e s sel hs :
  vs_wf s ->
  exists sel' A, select_parents e s sel (list_to_set (authors_of e sel))
                   (stake_in s (list_to_set (authors_of e sel))) hs = Ok (sel', A, stake_in s A) /\
    A = list_to_set (authors_of e sel') /\
    A = list_to_set (authors_of e sel) ∪ (list_to_set (authors_of e hs) ∩ addresses s) /\
    (forall h, h ∈ sel' -> h ∈ sel \/ h ∈ hs).
Proof.
  intros Hwf. revert sel. induction hs as [|h hs IH]; intros sel; cbn [select_parents].
  { exists sel, (list_to_set (authors_of e sel)). split; [done|]. set_solver. }
  assert (authors_of e (h :: hs) = match dag e !! h with
            | Some b => author b :: authors_of e hs | None => authors_of e hs end) as Hcons.
  { unfold authors_of. rewrite omap_cons_eq. by destruct (dag e !! h). }
  destruct (IH sel) as (sel' & A & Hrun & HA & HA' & Hsel).
  destruct (dag e !! h) as [b|] eqn:Hb; rewrite Hcons.
  2:{ exists sel', A. set_solver. }
  destruct (get_validator s (author b)) as [v|] eqn:Hv.
  2:{ apply get_validator_None in Hv. exists sel', A. split_and!; [done..|set_solver|set_solver]. }
  assert (author b ∈ addresses s) as Hknown.
  { apply dec_stable. intros Hn%get_validator_None. congruence. }
  case_bool_decide as Hseen.
  { exists sel', A. split_and!; [done..| |set_solver]. rewrite HA', list_to_set_cons.
    by apply known_step. }
  assert (list_to_set (authors_of e (sel ++ [h])) =
          {[author b]} ∪ list_to_set (authors_of e sel) :> gset Address) as Hext.
  { unfold authors_of. rewrite omap_app, omap_cons_eq, Hb. simpl.
    rewrite list_to_set_app_L. set_solver. }
  destruct (IH (sel ++ [h])) as (sel2 & A2 & Hrun2 & HA2 & HA2' & Hsel2).
  rewrite Hext, (stake_in_insert s _ v) in Hrun2 by done.
  pose proof (stake_in_le_total s Hwf ({[author b]} ∪ list_to_set (authors_of e sel))) as Hle.
  rewrite (stake_in_insert s _ v) in Hle by done. destruct (wf_total_bounds s Hwf).
  assert (checked_add (stake_in s (list_to_set (authors_of e sel))) (v_stake v) =
          Some (v_stake v + stake_in s (list_to_set (authors_of e sel)))) as ->.
  { apply checked_add_Some. lia. }
  cbn [expect mbind outcome_bind]. exists sel2, A2. split_and!; [done|done| |].
  - rewrite HA2', Hext, list_to_set_cons. by apply known_step_new.
  - intros x [?%elem_of_app|?]%Hsel2; set_solver.
Qed.

Lemma proposal_parents_Ok e r ps :
  dag_ok e -> vs_wf (validator_set e) -> proposal_parents e r = Ok ps ->
  (r = 0 \/ recovery_bootstrap_round e = Some r) /\ ps = [] \/
  (forall b, round b = r -> parents b = ps -> parents_ok e (validator_set e) (excused_by e) b).
Proof.
  intros Hok Hwf. unfold proposal_parents.
  destruct (bool_decide (r = 0) || is_recovery_bootstrap_round e r) eqn:Hc.
  { intros [= <-]. left. split; [|done]. apply orb_true_iff in Hc as [Hb|Hb];
      apply bool_decide_eq_true in Hb; auto. }
  intros (t & Hsel & Hrest)%bind_Ok. right.
  destruct (select_parents_spec e (validator_set e) [] (sort_hashes (blocks_in_round e (r - 1)))
              Hwf) as (sel & A & Hrun & HA & _ & Hin).
  simpl in Hrun. rewrite stake_in_empty in Hrun. rewrite Hrun in Hsel. injection Hsel as <-.
  apply bind_Ok in Hrest as ([] & Hp%require_Ok & [= <-]). simpl in *.
  apply participation_spec in Hp as [Hq Hx]; [|done].
  intros b <- Hb. unfold parents_ok, parent_authors. rewrite Hb, <- HA. split_and!; [|done..].
  intros p [?%not_elem_of_nil|Hp]%Hin; [done|]. rewrite elem_of_sort_hashes in Hp.
  by apply (rounds_dag e Hok).
Qed.

(** What a proposal consists of. *)
Lemma sign_proposal_eq e b b' : sign_proposal e b = Ok b' -> exists sig, b' = b <| signature := sig |>.
Proof.
  unfold sign_proposal. destruct (local_keypair e) as [k|].
  - destruct (kp_sign k (hash b)); intros [= <-]. by eexists.
  - intros [= <-]. exists (signature b). by destruct b.
Qed.

Lemma record_proposal_eq e b e' :
  author_round_blocks e !! (author b, round b) = None ->
  record_proposal e b = Ok e' ->
  exists wd st da, e' = with_block e b (validator_set e) wd st da.
Proof.
  intros Ha. unfold record_proposal. destruct (create_da_commitment _ _) as [c| |]; [|done..].
  intros [= <-].
  match goal with |- context [prune_security_history ?x ?r] =>
    destruct (prune_security_history_eq x r) as (wd & st & ->) end.
  eexists wd, st, _. unfold with_block, index_author. rewrite Ha. by destruct e.
Qed.

(** The block a successful proposal builds: the parents chosen, hashed and ordered
    for the engine's domain; the engine gains exactly this block. *)
Lemma propose_block_Ok e txs ts b e' :
  propose_block e txs ts = Ok (b, e') ->
  can_produce_blocks (validator_set e) (local_address e) = true /\
  author b = local_address e /\ round b = current_round e /\ timestamp b = ts /\
  transactions b = sort_hashes txs /\
  author_round_blocks e !! (author b, round b) = None /\
  (proposal_floor e <= 0 \/ proposal_floor e < round b) /\
  proposal_parents e (round b) = Ok (parents b) /\
  sign_proposal e (proposal_body e (round b) (parents b) txs ts) = Ok b /\
  verify_hash_in (consensus_domain e) b = true /\ verify_ordering b = true /\
  exists wd st da, e' = with_block e b (validator_set e) wd st da.
Proof.
  unfold propose_block. intros Hp. inv_ok. dec_hyps.
  rename select (record_proposal _ _ = _) into Hrec. rename select (sign_proposal _ _ = _) into Hs.
  rename select (proposal_parents _ _ = _) into Hpp. rename select (_ && _ = false) into Hfl.
  apply sign_proposal_eq in Hs as Hs'. destruct Hs' as (sig & ->). simpl in Hs.
  split_and!; try done.
  - apply andb_false_iff in Hfl as [?%bool_decide_eq_false|?%bool_decide_eq_false]; simpl; lia.
  - rewrite verify_hash_in_spec. apply bool_decide_eq_true.
    unfold proposal_body. simpl. by destruct (consensus_domain e).
  - unfold verify_ordering. simpl. rewrite windows_sorted_sort. by apply bool_decide_eq_true.
  - by eapply record_proposal_eq in Hrec.
Qed.

(** ** A proposal is a new block *)

Section Fresh.
Context `{!CryptoLaws}.

Lemma block_hash_in_range dom b : hash256 (block_hash_in dom b).
Proof. destruct dom; apply blake3_derive_key_range. Qed.

Lemma dag_hash_range e h b : dag_ok e -> dag e !! h = Some b -> hash256 h.
Proof.
  intros Hok Hb. rewrite <- (dag_key e Hok h b Hb). destruct (dag_valid e Hok h b Hb) as (_ & Hv & _).
  rewrite verify_hash_in_spec in Hv. apply bool_decide_eq_true in Hv as ->.
  apply block_hash_in_range.
Qed.

(** Two blocks the same domain accepts under one hash have the same content. *)
Lemma same_hash_content inputs dom b1 b2 :
  derive_key_apart inputs -> block_inputs dom b1 ⊆ inputs -> block_inputs dom b2 ⊆ inputs ->
  block_ok b1 -> block_ok b2 -> verify_hash_in dom b1 = true -> verify_hash_in dom b2 = true ->
  verify_ordering b1 = true -> verify_ordering b2 = true -> hash b1 = hash b2 ->
  content b1 = content b2.
Proof.
  rewrite !verify_hash_in_spec.
  intros Hapart ???? Hv1%bool_decide_eq_true Hv2%bool_decide_eq_true ?? Heq.
  apply (hash_binds_content inputs Hapart dom); [done..|congruence].
Qed.

Lemma propose_block_ok e txs ts b e' :
  dag_ok e -> vs_wf (validator_set e) -> hash256 (local_address e) -> u64 (current_round e) ->
  Forall hash256 txs -> u64 ts -> propose_block e txs ts = Ok (b, e') -> block_ok b.
Proof.
  intros Hok Hwf Ha Hr Htx Hts (_ & Hau & Hro & Hti & Htr & _ & _ & Hpp & Hsg & _)%propose_block_Ok.
  apply sign_proposal_eq in Hsg as (sig & Hb).
  unfold block_ok. rewrite Hau, Hro, Hti, Htr. split_and!; [done|done| |by rewrite sort_hashes_Permutation|done|].
  - apply proposal_parents_Ok in Hpp as [[_ ->]|Hpo]; [constructor| |done|done].
    destruct (Hpo b eq_refl eq_refl) as (Hall & _). apply Forall_forall. intros p (pb & Hd & _)%Hall.
    by eapply dag_hash_range.
  - rewrite Hb. apply blake3_derive_key_range.
Qed.

(** Everything hashed for the blocks of an engine is among [inputs]. *)
Definition hashed_within (inputs : list (string * list Z)) e : Prop :=
  forall h b, dag e !! h = Some b -> block_inputs (consensus_domain e) b ⊆ inputs.

Lemma propose_fresh inputs e txs ts b e' :
  derive_key_apart inputs -> hashed_within inputs e -> hashed_within inputs e' ->
  dag_ok e -> block_ok b -> propose_block e txs ts = Ok (b, e') -> dag e !! hash b = None.
Proof.
  intros Hapart Hin Hin' Hok Hb (_ & _ & _ & _ & _ & Hnone & _ & _ & _ & Hv & Ho & wd & st & da & ->)%propose_block_Ok.
  destruct (dag e !! hash b) as [b0|] eqn:Hb0; [|done].
  destruct (dag_valid e Hok _ _ Hb0) as (Hb0ok & Hv0 & Ho0).
  apply (dag_key e Hok) in Hb0 as Hh.
  assert (content b0 = content b) as [= Ha Hr _ _ _ _].
  { apply (same_hash_content inputs (consensus_domain e)); try done; [by apply (Hin (hash b))|].
    apply (Hin' (hash b)). simpl. by rewrite lookup_insert_eq. }
  apply (dag_author e Hok) in Hb0 as [? Hs]. rewrite Ha, Hr in Hs. congruence.
Qed.

End Fresh.

End DagInvariant.
