(* ===== verification/CrossShard.v ===== *)
(** * Cross-shard locks (crates/arc-consensus/src/lib.rs lines 586-635, 3246-3258,
    3556-3706, 3905-3958, 4020-4036)

    Two-phase locking of cross-shard transactions in the engine: lock, commit,
    abort, the all-or-nothing batch, and the expiry of stale locks; and the
    assignment of addresses to shards. *)

From S2P Require Import Prelude Crypto Validators Dag Security Blocks Certificates.
From S2P Require Import DataAvailability Engine.

(** ** Shards *)

Definition bytes_le (l : list Z) : Z := foldr (fun b acc => b + 256 * acc) 0 l.

Definition shard_of (a : Address) (num_shards : Z) : Z :=
  if bool_decide (num_shards = 0) then 0
  else bytes_le (take 8 (hash_to_bytes a)) mod num_shards.

(** The remainder by zero aborts. *)
Definition assign_shard (a : Hash256) (num_shards : Z) : outcome ConsensusError Z :=
  if bool_decide (num_shards = 0) then Panic
  else Ok (bytes_le (take 2 (hash_to_bytes a)) mod num_shards).

Definition is_cross_shard (from to : Hash256) (num_shards : Z) : outcome ConsensusError bool :=
  if bool_decide (num_shards <= 1) then Ok false
  else a ← assign_shard from num_shards;
       b ← assign_shard to num_shards;
       Ok (bool_decide (a <> b)).

Definition MAX_LOCK_ROUNDS : Z := 100.

Section CrossShard.
Context `{Crypto}.

Definition lock_cross_shard (e : ConsensusEngine) (tx_hash : Hash256) (source_shard target_shard : Z)
    (source_block_hash : Hash256) (source_round now_ms : Z)
    : outcome ConsensusError (CrossShardProof * ConsensusEngine) :=
  _ ← require (bool_decide (pending_cross_shard e !! tx_hash = None))
        (CrossShardLockAlreadyExists tx_hash);
  bytes ← ok_or (bincode_lock (tx_hash, source_shard, target_shard))
        (CrossShardLockFailed "serialize lock");
  let lock_hash := hash_bytes bytes in
  let inclusion_proof := default [] (bincode_pair (tx_hash, source_block_hash)) in
  let proof := mkCrossShardProof tx_hash source_shard target_shard source_block_hash source_round
                 Locked lock_hash inclusion_proof now_ms (current_round e) in
  Ok (proof, e <| pending_cross_shard := <[tx_hash := proof]> (pending_cross_shard e) |>).

(** Take a lock out of the pending map and file it under its final status. *)
Definition settle_lock (e : ConsensusEngine) (tx_hash : Hash256) (p : CrossShardProof)
    : ConsensusEngine :=
  e <| pending_cross_shard := delete tx_hash (pending_cross_shard e) |>
    <| completed_cross_shard := <[tx_hash := p]> (completed_cross_shard e) |>.

Definition commit_cross_shard (e : ConsensusEngine) (tx_hash : Hash256)
    : outcome ConsensusError (CrossShardProof * ConsensusEngine) :=
  p ← ok_or (pending_cross_shard e !! tx_hash) (CrossShardLockNotFound tx_hash);
  let p' := p <| cs_status := Committed |> in
  Ok (p', settle_lock e tx_hash p').

Definition abort_cross_shard (e : ConsensusEngine) (tx_hash : Hash256)
    : outcome ConsensusError (CrossShardProof * ConsensusEngine) :=
  p ← ok_or (pending_cross_shard e !! tx_hash) (CrossShardLockNotFound tx_hash);
  let p' := p <| cs_status := Aborted |> in
  Ok (p', settle_lock e tx_hash p').

(** [let _ = self.abort_cross_shard(..)]. *)
Definition abort_quietly (e : ConsensusEngine) (p : CrossShardProof) : ConsensusEngine :=
  match abort_cross_shard e (cs_tx_hash p) with
  | Ok (_, e') => e'
  | _ => e
  end.

Definition batch_block : Hash256 :=
  hash_bytes [98; 97; 116; 99; 104; 95; 115; 111; 117; 114; 99; 101].

(** The loop of [atomic_cross_shard_batch]; [proofs] are the locks taken so far. *)
Fixpoint lock_batch (e : ConsensusEngine) (now_ms : Z) (proofs : list CrossShardProof)
    (tx_hashes : list Hash256) (shards : list (Z * Z))
    : outcome ConsensusError (list CrossShardProof) * ConsensusEngine :=
  match tx_hashes with
  | [] => (Ok proofs, e)
  | tx_hash :: tx_hashes' =>
      match shards with
      | [] => (Panic, e)
      | (src, tgt) :: shards' =>
          match lock_cross_shard e tx_hash src tgt batch_block 0 now_ms with
          | Ok (proof, e') => lock_batch e' now_ms (proofs ++ [proof]) tx_hashes' shards'
          | Err _ => (Err (CrossShardLockFailed "batch failed"), foldl abort_quietly e proofs)
          | Panic => (Panic, e)
          end
      end
  end.

Definition atomic_cross_shard_batch (e : ConsensusEngine) (tx_hashes : list Hash256)
    (shards : list (Z * Z)) (now_ms : Z)
    : outcome ConsensusError (list CrossShardProof) * ConsensusEngine :=
  lock_batch e now_ms [] tx_hashes shards.

Definition cross_shard_stats (e : ConsensusEngine) : Z * Z :=
  (Z.of_nat (size (pending_cross_shard e)), Z.of_nat (size (completed_cross_shard e))).

(** ** Expiry *)

Definition lock_expired (now_ms timeout_ms current : Z) (p : CrossShardProof) : bool :=
  bool_decide (timeout_ms < saturating_sub now_ms (cs_locked_at_ms p)) ||
  bool_decide (MAX_LOCK_ROUNDS < saturating_sub current (cs_locked_at_round p)).

Definition expire_one (e : ConsensusEngine) (tx_hash : Hash256) : ConsensusEngine :=
  match pending_cross_shard e !! tx_hash with
  | Some p => settle_lock e tx_hash (p <| cs_status := Aborted |>)
  | None => e
  end.

Definition expire_locks (e : ConsensusEngine) (now_ms timeout_ms : Z) : Z * ConsensusEngine :=
  let expired := fst <$> filter (fun kp => lock_expired now_ms timeout_ms (current_round e) kp.2 = true)
                   (map_to_list (pending_cross_shard e)) in
  (Z.of_nat (length expired), foldl expire_one e expired).

Definition expire_stale_locks (e : ConsensusEngine) (now_ms : Z) : Z * ConsensusEngine :=
  expire_locks e now_ms CROSS_SHARD_LOCK_TIMEOUT_MS.

(** [timeout_secs * 1000] is unchecked. *)
Definition expire_stale_locks_with_timeout (e : ConsensusEngine) (timeout_secs now_ms : Z)
    : Z * ConsensusEngine :=
  expire_locks e now_ms ((timeout_secs * 1000) mod (u64_max + 1)).

End CrossShard.

(** ** Batches *)

Section Batch.
Context `{Crypto}.
Implicit Types e : ConsensusEngine.

Lemma lock_Ok e tx src tgt bh r now p e' :
  lock_cross_shard e tx src tgt bh r now = Ok (p, e') ->
  pending_cross_shard e !! tx = None /\ cs_tx_hash p = tx /\ cs_status p = Locked /\
  cs_source_shard p = src /\ cs_target_shard p = tgt /\
  e' = e <| pending_cross_shard := <[tx := p]> (pending_cross_shard e) |>.
Proof. unfold lock_cross_shard. intros Hrun. inv_ok. dec_hyps. done. Qed.

Lemma lock_no_panic e tx src tgt bh r now : lock_cross_shard e tx src tgt bh r now <> Panic.
Proof. unfold lock_cross_shard. no_panic. Qed.

(** [e'] is [e] up to its two lock tables. *)
Definition same_but_locks e e' : Prop :=
  e' = e <| pending_cross_shard := pending_cross_shard e' |>
         <| completed_cross_shard := completed_cross_shard e' |>.

Definition aborted (p : CrossShardProof) : CrossShardProof := p <| cs_status := Aborted |>.

(** The record of [h] once a pending lock on it is aborted. *)
Definition abort_record e (h : Hash256) : option CrossShardProof :=
  match pending_cross_shard e !! h with
  | Some p => Some (aborted p)
  | None => completed_cross_shard e !! h
  end.

Lemma abort_quietly_spec e p :
  same_but_locks e (abort_quietly e p) /\
  pending_cross_shard (abort_quietly e p) = delete (cs_tx_hash p) (pending_cross_shard e) /\
  (forall h, completed_cross_shard (abort_quietly e p) !! h =
     if decide (h = cs_tx_hash p) then abort_record e h else completed_cross_shard e !! h).
Proof.
  unfold abort_quietly, abort_cross_shard, same_but_locks, abort_record.
  destruct (pending_cross_shard e !! cs_tx_hash p) as [q|] eqn:Hq; simpl.
  - split; [by destruct e|]. split; [done|]. intros h. case_decide as Hd; [subst h|].
    + by rewrite Hq, lookup_insert_eq.
    + by rewrite lookup_insert_ne.
  - split; [by destruct e|]. rewrite delete_id by done. split; [done|]. intros h.
    case_decide; [subst h|]; [by rewrite Hq|done].
Qed.

Lemma same_but_locks_trans e1 e2 e3 :
  same_but_locks e1 e2 -> same_but_locks e2 e3 -> same_but_locks e1 e3.
Proof. unfold same_but_locks. intros H1 H2. rewrite H2. rewrite H1 at 1. done. Qed.

Lemma abort_all_spec e l :
  let e' := foldl abort_quietly e l in
  same_but_locks e e' /\
  (forall h, pending_cross_shard e' !! h =
     if decide (h ∈ cs_tx_hash <$> l) then None else pending_cross_shard e !! h) /\
  (forall h, completed_cross_shard e' !! h =
     if decide (h ∈ cs_tx_hash <$> l) then abort_record e h else completed_cross_shard e !! h).
Proof.
  revert e. induction l as [|p l IH]; intros e; cbn [foldl].
  { split; [by destruct e|]. by split; intros h; rewrite decide_False by apply not_elem_of_nil. }
  destruct (abort_quietly_spec e p) as (Hs & Hp & Hc). destruct (IH (abort_quietly e p)) as (Hs' & Hp' & Hc').
  split; [by eapply same_but_locks_trans|]. rewrite fmap_cons.
  split; intros h; [rewrite Hp', Hp|rewrite Hc']; unfold abort_record; rewrite ?Hp, ?Hc;
    destruct (decide (h = cs_tx_hash p)) as [->|Hne];
    rewrite ?(decide_True (P := cs_tx_hash p ∈ cs_tx_hash p :: _)) by set_solver;
    rewrite ?lookup_delete_eq, ?lookup_delete_ne by done; try by case_decide.
  - repeat case_decide; set_solver.
  - repeat case_decide; set_solver.
Qed.

(** The locks taken so far by a batch that started at [e0]. *)
Record locking e0 (proofs : list CrossShardProof) e : Prop := {
  lk_rest : same_but_locks e0 e;
  lk_completed : completed_cross_shard e = completed_cross_shard e0;
  lk_nodup : NoDup (cs_tx_hash <$> proofs);
  lk_new p : p ∈ proofs -> pending_cross_shard e0 !! cs_tx_hash p = None /\
    pending_cross_shard e !! cs_tx_hash p = Some p /\ cs_status p = Locked;
  lk_old h : h ∉ cs_tx_hash <$> proofs -> pending_cross_shard e !! h = pending_cross_shard e0 !! h;
}.

Lemma locking_abort e0 proofs e :
  locking e0 proofs e -> pending_cross_shard (foldl abort_quietly e proofs) = pending_cross_shard e0.
Proof.
  intros [_ _ _ Hnew Hold]. apply map_eq. intros h. destruct (abort_all_spec e proofs) as (_ & -> & _).
  case_decide as Hin; [|by apply Hold]. apply list_elem_of_fmap in Hin as (p & -> & Hp).
  symmetry. by apply Hnew.
Qed.

Lemma locking_push e0 proofs e p :
  locking e0 proofs e -> pending_cross_shard e !! cs_tx_hash p = None -> cs_status p = Locked ->
  locking e0 (proofs ++ [p]) (e <| pending_cross_shard := <[cs_tx_hash p := p]> (pending_cross_shard e) |>).
Proof.
  intros [Hr Hc Hn Hnew Hold] Hp Hs.
  assert (cs_tx_hash p ∉ cs_tx_hash <$> proofs) as Hfresh.
  { intros (q & Hq & Hin)%list_elem_of_fmap. destruct (Hnew q Hin) as (_ & Hx & _). congruence. }
  split.
  - unfold same_but_locks in *. rewrite Hr at 1. done.
  - done.
  - rewrite fmap_app. apply NoDup_app. split; [done|]. simpl. split; [set_solver|apply NoDup_singleton].
  - intros q. rewrite elem_of_app, list_elem_of_singleton. intros [Hq| ->]; simpl.
    + destruct (Hnew q Hq) as (? & ? & ?). rewrite lookup_insert_ne; [done|].
      intros Heq. apply Hfresh. rewrite Heq. by apply list_elem_of_fmap_2.
    + rewrite <- (Hold (cs_tx_hash p)) by done. by rewrite lookup_insert_eq.
  - intros h Hh. rewrite fmap_app in Hh. simpl. rewrite lookup_insert_ne; [apply Hold|]; set_solver.
Qed.

(** How a batch ends: with every lock, or at a transaction it cannot lock. *)
Lemma lock_batch_spec e0 now proofs e txs shards :
  locking e0 proofs e -> (length txs <= length shards)%nat ->
  (exists proofs' e', lock_batch e now proofs txs shards = (Ok proofs', e') /\
     locking e0 proofs' e' /\ cs_tx_hash <$> proofs' = (cs_tx_hash <$> proofs) ++ txs) \/
  (exists x e1 l pre tx post, lock_batch e now proofs txs shards = (Err x, foldl abort_quietly e1 l) /\
     locking e0 l e1 /\ txs = pre ++ tx :: post /\ cs_tx_hash <$> l = (cs_tx_hash <$> proofs) ++ pre /\
     (tx ∈ cs_tx_hash <$> l \/ is_Some (pending_cross_shard e0 !! tx) \/
      exists src tgt, bincode_lock (tx, src, tgt) = None)).
Proof.
  revert proofs e shards. induction txs as [|tx txs IH]; intros proofs e shards Hlk Hlen.
  { left. exists proofs, e. by rewrite app_nil_r. }
  destruct shards as [|[src tgt] shards]; [simpl in Hlen; lia|]. cbn [lock_batch].
  destruct (lock_cross_shard e tx src tgt batch_block 0 now) as [[p e1]|x|] eqn:Hlock.
  - apply lock_Ok in Hlock as (Hnone & <- & Hs & _ & _ & ->).
    destruct (IH (proofs ++ [p]) (e <| pending_cross_shard := <[cs_tx_hash p := p]>
        (pending_cross_shard e) |>) shards)
      as [(ps & e' & Hrun & Hlk' & Heq)|(x & e1 & l & pre & tx & post & Hrun & Hlk' & -> & Heq & Hwhy)];
      [by apply locking_push|simpl in Hlen; lia|left|right];
      rewrite fmap_app, <- app_assoc in Heq.
    + by exists ps, e'.
    + by exists x, e1, l, (cs_tx_hash p :: pre), tx, post.
  - right. exists (CrossShardLockFailed "batch failed"), e, proofs, [], tx, txs.
    rewrite app_nil_r. split_and!; [done..|]. unfold lock_cross_shard in Hlock.
    case_bool_decide as Hp.
    + right. right. destruct (bincode_lock (tx, src, tgt)) eqn:Hb; [done|]. by exists src, tgt.
    + destruct (decide (tx ∈ cs_tx_hash <$> proofs)) as [?|Hn]; [by left|]. right. left.
      rewrite (lk_old _ _ _ Hlk tx Hn) in Hp. by apply not_eq_None_Some.
  - by apply lock_no_panic in Hlock.
Qed.

Lemma locking_start e : locking e [] e.
Proof. split; [by destruct e|done|constructor|by intros ? ?%not_elem_of_nil|done]. Qed.

(** ** Expiry as aborts *)

Definition lock_on (h : Hash256) : CrossShardProof :=
  mkCrossShardProof h 0 0 0 0 Locked 0 [] 0 0.

Lemma expire_aborts e hs : foldl expire_one e hs = foldl abort_quietly e (lock_on <$> hs).
Proof.
  revert e. induction hs as [|h hs IH]; intros e; [done|]. cbn [foldl fmap list_fmap].
  rewrite IH. f_equal. unfold expire_one, abort_quietly, abort_cross_shard. simpl.
  by destruct (pending_cross_shard e !! h).
Qed.

Lemma lock_on_keys (hs : list Hash256) : cs_tx_hash <$> (lock_on <$> hs) = hs.
Proof. rewrite <- list_fmap_compose. apply list_fmap_id. Qed.

Lemma expire_locks_spec e now timeout :
  let e' := (expire_locks e now timeout).2 in
  let stale h := p ← pending_cross_shard e !! h;
                 if lock_expired now timeout (current_round e) p then Some p else None in
  same_but_locks e e' /\
  (forall h, pending_cross_shard e' !! h =
     match stale h with Some _ => None | None => pending_cross_shard e !! h end) /\
  (forall h, completed_cross_shard e' !! h =
     match stale h with Some p => Some (aborted p) | None => completed_cross_shard e !! h end).
Proof.
  intros e' stale. unfold e', expire_locks. cbn [snd]. rewrite expire_aborts.
  set (keys := fst <$> filter _ _).
  assert (forall h, h ∈ keys <-> is_Some (stale h)) as Hkeys.
  { intros h. unfold keys, stale. rewrite list_elem_of_fmap. split.
    - intros ([h' p] & -> & [Hexp Hin%elem_of_map_to_list]%list_elem_of_filter). simpl in *.
      rewrite Hin. simpl. rewrite Hexp. by eexists.
    - intros [p (q & Hq & Hp)%bind_Some]. destruct (lock_expired _ _ _ q) eqn:Hexp; [|done].
      exists (h, q). split; [done|]. apply list_elem_of_filter. by rewrite elem_of_map_to_list. }
  destruct (abort_all_spec e (lock_on <$> keys)) as (Hs & Hp & Hc). rewrite lock_on_keys in *.
  split; [done|]. split; intros h; [rewrite Hp|rewrite Hc]; case_decide as Hin; rewrite Hkeys in Hin.
  - by destruct Hin as [p ->].
  - by destruct (stale h) eqn:Hst; [destruct Hin|].
  - destruct Hin as [p Hst]. rewrite Hst. unfold stale in Hst. unfold abort_record.
    apply bind_Some in Hst as (q & -> & Hq). by destruct (lock_expired _ _ _ q); simplify_eq.
  - by destruct (stale h) eqn:Hst; [destruct Hin|].
Qed.

End Batch.

(** ** The theorems *)

Module DemoShard.
Import Demo.

Definition engine : ConsensusEngine := engine_new (mkValidatorSet [] 0 1 1 0 []) 5 0.

(** An engine that already holds a lock on transaction 30. *)
Definition busy : ConsensusEngine :=
  match lock_cross_shard engine 30 0 1 9 4 1000 with Ok (_, e) => e | _ => engine end.

End DemoShard.

(** A cross-shard batch is all or nothing.  Given a shard pair per transaction,
    [atomic_cross_shard_batch] never aborts the process and touches nothing but the lock
    tables.  When it succeeds, every transaction of the batch, all distinct and none
    locked before, holds a lock and no other lock changed.  When it fails, some
    transaction repeats an earlier one, was already locked or does not serialise, and
    the table of pending locks is what it was; the transactions before it are recorded
    as aborted and no other record changes. *)
Theorem cross_shard_batch_atomic `{Crypto} (e : ConsensusEngine) (txs : list Hash256)
  (shards : list (Z * Z)) (now : Z) (Hlen : (length txs <= length shards)%nat) :
  let '(res, e') := atomic_cross_shard_batch e txs shards now in
  same_but_locks e e' /\
  match res with
  | Ok proofs =>
      cs_tx_hash <$> proofs = txs /\ NoDup txs /\
      completed_cross_shard e' = completed_cross_shard e /\
      (forall p, p ∈ proofs -> pending_cross_shard e !! cs_tx_hash p = None /\
         pending_cross_shard e' !! cs_tx_hash p = Some p /\ cs_status p = Locked) /\
      (forall h, h ∉ txs -> pending_cross_shard e' !! h = pending_cross_shard e !! h)
  | Err _ =>
      pending_cross_shard e' = pending_cross_shard e /\
      exists pre tx post, txs = pre ++ tx :: post /\
        (tx ∈ pre \/ is_Some (pending_cross_shard e !! tx) \/
         exists src tgt, bincode_lock (tx, src, tgt) = None) /\
        (forall h, h ∈ pre -> cs_status <$> completed_cross_shard e' !! h = Some Aborted) /\
        (forall h, h ∉ pre -> completed_cross_shard e' !! h = completed_cross_shard e !! h)
  | Panic => False
  end.
Proof.
  unfold atomic_cross_shard_batch.
  destruct (lock_batch_spec e now [] e txs shards (locking_start e) Hlen)
    as [(ps & e' & -> & [Hr Hc Hn Hnew Hold] & Hkeys)|(x & e1 & l & pre & tx & post & -> & Hlk & -> & Hkeys & Hwhy)];
    simpl in Hkeys; [split; [done|]; rewrite Hkeys in *; by split_and!|].
  destruct (abort_all_spec e1 l) as (Hs & _ & Hcomp). rewrite Hkeys in *.
  split; [eapply same_but_locks_trans; [apply Hlk|done]|]. split; [by apply locking_abort|].
  exists pre, tx, post. split; [done|]. split; [done|].
  split; intros h Hh; rewrite Hcomp; case_decide; try done; [|by rewrite (lk_completed _ _ _ Hlk)].
  rewrite <- Hkeys in Hh. apply list_elem_of_fmap in Hh as (p & -> & Hp).
  unfold abort_record. destruct (lk_new _ _ _ Hlk p Hp) as (_ & -> & _). done.
Qed.

Lemma cross_shard_batch_atomic_witness :
  let '(res, e') := @atomic_cross_shard_batch Demo.demo_crypto DemoShard.busy [10; 20; 30]
                      [(0, 1); (1, 2); (2, 3)] 2000 in
  is_ok res = false /\ pending_cross_shard e' = pending_cross_shard DemoShard.busy.
Proof.
  pose proof (@cross_shard_batch_atomic Demo.demo_crypto DemoShard.busy [10; 20; 30]
    [(0, 1); (1, 2); (2, 3)] 2000 ltac:(simpl; lia)) as Hb.
  assert (is_ok (@atomic_cross_shard_batch Demo.demo_crypto DemoShard.busy [10; 20; 30]
    [(0, 1); (1, 2); (2, 3)] 2000).1 = false) as Hres by (vm_compute; reflexivity).
  destruct (@atomic_cross_shard_batch Demo.demo_crypto DemoShard.busy [10; 20; 30]
    [(0, 1); (1, 2); (2, 3)] 2000) as [[ps|x|] e'].
  - discriminate Hres.
  - split; [reflexivity|]. apply Hb.
  - destruct Hb as [_ []].
Defined.

(** Expiry frees exactly the stale locks: [expire_stale_locks] removes from the pending
    table every lock older than 30 seconds or than 100 rounds, files it as aborted, keeps
    every other lock and every other record, and changes nothing else of the engine. *)
Theorem expire_frees_stale_locks `{Crypto} (e : ConsensusEngine) (now : Z) :
  let e' := (expire_stale_locks e now).2 in
  let stale p := lock_expired now CROSS_SHARD_LOCK_TIMEOUT_MS (current_round e) p in
  same_but_locks e e' /\
  (forall h p, pending_cross_shard e' !! h = Some p <->
     pending_cross_shard e !! h = Some p /\ stale p = false) /\
  (forall h, completed_cross_shard e' !! h =
     match pending_cross_shard e !! h with
     | Some p => if stale p then Some (aborted p) else completed_cross_shard e !! h
     | None => completed_cross_shard e !! h
     end).
Proof.
  intros e' stale. destruct (expire_locks_spec e now CROSS_SHARD_LOCK_TIMEOUT_MS) as (Hs & Hp & Hc).
  fold (expire_stale_locks e now) in *. fold e' in Hs, Hp, Hc. split; [done|]. split.
  - intros h p. rewrite Hp. destruct (pending_cross_shard e !! h) as [q|]; simpl; [|by split; [|intros []]].
    fold (stale q). destruct (stale q) eqn:Hst; split; try done.
    + intros [[= ->] ?]. congruence.
    + by intros [= ->].
    + by intros [[= ->] _].
  - intros h. rewrite Hc. destruct (pending_cross_shard e !! h) as [q|]; [|done]. simpl.
    fold (stale q). by destruct (stale q).
Qed.
