(* ===== verification/Commit.v ===== *)
(** * The commit rule (crates/arc-consensus/src/lib.rs lines 2142-2177,
    2653-2982, 3080-3178, 3758-3838)

    Two-round support, the walk through a block's causal history, the scan of
    [try_commit] with the retroactive decision of rounds, and the pruning that
    follows a commit. *)

From S2P Require Import Prelude Crypto Validators Dag Security Blocks Certificates.
From S2P Require Import DataAvailability Engine DagInvariant CrossShard.

Section Commit.
Context `{Crypto}.

(** ** Two-round support *)

(** The author of [h] when [h] is held and references [child]. *)
Definition certifier_of (e : ConsensusEngine) (child h : Hash256) : option Address :=
  b ← dag e !! h;
  if bool_decide (child ∈ parents b) then Some (author b) else None.

Definition certifiers (e : ConsensusEngine) (child : Hash256) (r : Z) : list Address :=
  omap (certifier_of e child) (blocks_in_round e (wrapping_add r 2)).

Fixpoint first_supported (e : ConsensusEngine) (s : ValidatorSet) (block_hash : Hash256) (r : Z)
    (children : list Hash256) : outcome ConsensusError (option Z) :=
  match children with
  | [] => Ok None
  | child_hash :: children' =>
      match dag e !! child_hash with
      | None => first_supported e s block_hash r children'
      | Some child =>
          if negb (bool_decide (block_hash ∈ parents child))
          then first_supported e s block_hash r children'
          else
            t ← tally_known_first s ∅ 0 (certifiers e child_hash r);
            if bool_decide (quorum s <= t.2) then Ok (Some t.2)
            else first_supported e s block_hash r children'
      end
  end.

Definition two_round_commit_support (e : ConsensusEngine) (block_hash : Hash256) (r : Z)
    (s : ValidatorSet) : outcome ConsensusError (option Z) :=
  first_supported e s block_hash r (blocks_in_round e (wrapping_add r 1)).

Definition leader_commit_support (e : ConsensusEngine) (block_hash : Hash256) (r : Z) :=
  two_round_commit_support e block_hash r (frozen_validator_set e).

(** ** Causal history *)

(** The inner loop over the parents of a block: [None] when the target is among
    them, else the seen set and the stack with the new parents pushed. *)
Fixpoint push_parents (target : Hash256) (seen : gset Hash256) (frontier ps : list Hash256)
    : option (gset Hash256 * list Hash256) :=
  match ps with
  | [] => Some (seen, frontier)
  | p :: ps' =>
      if bool_decide (p = target) then None
      else if bool_decide (p ∈ seen) then push_parents target seen frontier ps'
      else push_parents target ({[p]} ∪ seen) (p :: frontier) ps'
  end.

(** The [while let Some(hash) = frontier.pop()] loop. *)
Fixpoint walk_history (e : ConsensusEngine) (fuel : nat) (target : Hash256) (floor_round : Z)
    (seen : gset Hash256) (frontier : list Hash256) : bool :=
  match fuel with
  | O => false
  | S fuel' =>
      match frontier with
      | [] => false
      | h :: frontier' =>
          match dag e !! h with
          | None => walk_history e fuel' target floor_round seen frontier'
          | Some b =>
              if bool_decide (round b < floor_round)
              then walk_history e fuel' target floor_round seen frontier'
              else match push_parents target seen frontier' (parents b) with
                   | None => true
                   | Some (seen', frontier'') =>
                       walk_history e fuel' target floor_round seen' frontier''
                   end
          end
      end
  end.

(** Every reference in the DAG: a hash enters the stack at most once, so this
    many iterations and two more are enough. *)
Definition all_references (e : ConsensusEngine) : list Hash256 :=
  mjoin (parents ∘ snd <$> map_to_list (dag e)).

Definition history_fuel (e : ConsensusEngine) : nat := length (all_references e) + 2.

Definition causal_history_contains (e : ConsensusEngine) (from target : Hash256) (floor_round : Z)
    : bool :=
  if bool_decide (from = target) then true
  else walk_history e (history_fuel e) target floor_round {[from]} [from].

(** ** Anchors *)

Fixpoint dedup (l : list Hash256) : list Hash256 :=
  match l with
  | x :: (y :: _) as l' => if bool_decide (x = y) then dedup l' else x :: dedup l'
  | _ => l
  end.

Definition leader_order (s : ValidatorSet) : list Address := sort_hashes (v_address <$> validators s).

Definition leader_of (vals : list Address) (r : Z) : option Address :=
  vals !! Z.to_nat (r mod Z.max 1 (Z.of_nat (length vals))).

Definition authored_by (e : ConsensusEngine) (a : Address) (h : Hash256) : bool :=
  match dag e !! h with Some b => bool_decide (author b = a) | None => false end.

Definition anchors_of (e : ConsensusEngine) (vals : list Address) (r : Z) : list Hash256 :=
  match leader_of vals r with
  | None => []
  | Some leader =>
      dedup (sort_hashes (filter (fun h => authored_by e leader h = true) (blocks_in_round e r)))
  end.

(** The candidates with a two-round certificate. *)
Fixpoint certified_among (e : ConsensusEngine) (s : ValidatorSet) (r : Z) (l : list Hash256)
    : outcome ConsensusError (list Hash256) :=
  match l with
  | [] => Ok []
  | h :: l' =>
      support ← two_round_commit_support e h r s;
      rest ← certified_among e s r l';
      Ok (match support with Some _ => h :: rest | None => rest end)
  end.

(** ** Deciding a round *)

Inductive lookahead :=
| Decider (decider_round : Z) (decider_hash : Hash256)
| AmbiguousAhead
| NoDecider.

(** The search [for r2 in (r + 3)..=scan_end]; [fuel] counts the rounds left. *)
Fixpoint find_decider (e : ConsensusEngine) (s : ValidatorSet) (vals : list Address)
    (domain_bound : bool) (fuel : nat) (r2 : Z) : outcome ConsensusError lookahead :=
  match fuel with
  | O => Ok NoDecider
  | S fuel' =>
      let candidates := anchors_of e vals r2 in
      if domain_bound && bool_decide (1 < length candidates)%nat then Ok AmbiguousAhead
      else
        certified_ahead ← certified_among e s r2 candidates;
        match certified_ahead with
        | [] => find_decider e s vals domain_bound fuel' (r2 + 1)
        | [h] => Ok (Decider r2 h)
        | _ => Ok AmbiguousAhead
        end
  end.

(** What the scan does with a round: commit the named anchor, pass over the
    round, or stop there. *)
Inductive verdict :=
| CommitAnchor (h : Hash256)
| SkipRound
| Fence.

Definition rounds_between (from to : Z) : nat := Z.to_nat (to - from + 1).

Definition decide_by_history (e : ConsensusEngine) (candidates : list Hash256) (r : Z)
    (decider_hash : Hash256) : verdict :=
  match filter (fun h => causal_history_contains e decider_hash h r = true) candidates with
  | [] => SkipRound
  | [h] => CommitAnchor h
  | _ => Fence
  end.

Definition decide_round (e : ConsensusEngine) (s : ValidatorSet) (vals : list Address)
    (domain_bound : bool) (scan_end r : Z) : outcome ConsensusError verdict :=
  let candidates := anchors_of e vals r in
  if domain_bound && bool_decide (1 < length candidates)%nat then Ok Fence
  else
    certified_all ← certified_among e s r candidates;
    match certified_all with
    | [h] => Ok (CommitAnchor h)
    | _ :: _ :: _ => Ok Fence
    | [] =>
        let first := wrapping_add r 3 in
        ahead ← find_decider e s vals domain_bound (rounds_between first scan_end) first;
        match ahead with
        | AmbiguousAhead => Ok Fence
        | NoDecider => Ok Fence
        | Decider _ decider_hash => Ok (decide_by_history e candidates r decider_hash)
        end
    end.

(** Push the block of a decided anchor unless it was committed before. *)
Definition push_commit (e : ConsensusEngine) (committed_set : gset Hash256) (h : Hash256)
    (newly : list DagBlock) : list DagBlock :=
  if bool_decide (h ∈ committed_set) then newly
  else match dag e !! h with Some b => newly ++ [b] | None => newly end.

(** The [while r <= scan_end] loop: the committed blocks and the commit cursor. *)
Fixpoint commit_scan (e : ConsensusEngine) (s : ValidatorSet) (vals : list Address)
    (domain_bound : bool) (scan_end : Z) (committed_set : gset Hash256) (maximum_blocks : Z)
    (fuel : nat) (r : Z) (newly : list DagBlock) (cursor : Z)
    : outcome ConsensusError (list DagBlock * Z) :=
  match fuel with
  | O => Ok (newly, cursor)
  | S fuel' =>
      if bool_decide (r <= scan_end) && bool_decide (Z.of_nat (length newly) < maximum_blocks) then
        if bool_decide (vals = []) then Ok (newly, cursor)
        else
          v ← decide_round e s vals domain_bound scan_end r;
          match v with
          | Fence => Ok (newly, cursor)
          | SkipRound =>
              commit_scan e s vals domain_bound scan_end committed_set maximum_blocks fuel'
                (wrapping_add r 1) newly (wrapping_add r 1)
          | CommitAnchor h =>
              commit_scan e s vals domain_bound scan_end committed_set maximum_blocks fuel'
                (wrapping_add r 1) (push_commit e committed_set h newly) (wrapping_add r 1)
          end
      else Ok (newly, cursor)
  end.

Definition append_committed (l : list Hash256) (b : DagBlock) : list Hash256 :=
  if bool_decide (hash b ∈ l) then l else l ++ [hash b].

(** The decision part of [try_commit_limited]. *)
Definition commit_decisions (e : ConsensusEngine) (maximum_blocks : Z)
    : outcome ConsensusError (list DagBlock * ConsensusEngine) :=
  let s := frozen_validator_set e in
  let scan_start := last_committed_round e in
  let scan_end := saturating_sub (current_round e) 2 in
  d ← commit_scan e s (leader_order s) (bool_decide (is_Some (consensus_domain e))) scan_end
        (list_to_set (committed e)) maximum_blocks (rounds_between scan_start scan_end)
        scan_start [] scan_start;
  Ok (d.1, e <| last_committed_round := d.2 |>
             <| committed := foldl append_committed (committed e) d.1 |>).

(** ** Pruning *)

(** Drop a round with its blocks and its author index. *)
Definition drop_round (e : ConsensusEngine) (r : Z) : ConsensusEngine :=
  let e1 := match rounds e !! r with
            | Some hashes => e <| rounds := delete r (rounds e) |>
                               <| dag := foldl (fun m h => delete h m) (dag e) hashes |>
            | None => e
            end in
  e1 <| author_round_blocks := filter (fun kh => kh.1.2 <> r) (author_round_blocks e1) |>.

Definition rounds_below (e : ConsensusEngine) (cutoff : Z) : list Z :=
  fst <$> filter (fun rh => rh.1 < cutoff) (map_to_list (rounds e)).

Definition blocks_below (e : ConsensusEngine) (cutoff : Z) : nat :=
  length (mjoin (blocks_in_round e <$> rounds_below e cutoff)).

(** Entries that do not name a block of the DAG. *)
Definition retain_in_dag {A} (e : ConsensusEngine) (m : gmap Hash256 A) : gmap Hash256 A :=
  filter (fun kv => is_Some (dag e !! kv.1)) m.

Definition retain_committed (e : ConsensusEngine) : ConsensusEngine :=
  e <| committed := filter (fun h => is_Some (dag e !! h)) (committed e) |>.

Definition prune_old_rounds (e : ConsensusEngine) : ConsensusEngine :=
  let current := current_round e in
  let retained := retained_rounds e in
  if bool_decide (current <= retained) then e
  else
    let prune_below := Z.min (current - retained) (last_committed_round e) in
    let e1 := foldl drop_round e (rounds_below e prune_below) in
    if bool_decide (0 < blocks_below e prune_below)%nat then
      let e2 := retain_committed e1 in
      e2 <| finality_proofs := retain_in_dag e2 (finality_proofs e2) |>
         <| da_commitments := retain_in_dag e2 (da_commitments e2) |>
         <| completed_cross_shard := retain_in_dag e2 (completed_cross_shard e2) |>
    else e1.

Definition prune_below_round (e : ConsensusEngine) (committed_round : Z) : Z * ConsensusEngine :=
  let retained := retained_rounds e in
  if bool_decide (committed_round < retained) then (0, e)
  else
    let cutoff := committed_round - retained in
    let pruned_count := blocks_below e cutoff in
    let e1 := foldl drop_round e (rounds_below e cutoff) in
    let e2 := e1 <| skip_certificates :=
                      filter (fun kc => cutoff <= kc.1.1) (skip_certificates e1) |> in
    (Z.of_nat pruned_count, if bool_decide (0 < pruned_count)%nat then retain_committed e2 else e2).

(** ** [try_commit] *)

(** One report of the withholding detector: a liveness slash of the active set. *)
Definition slash_withholding (max_round : Z) (os : outcome ConsensusError ValidatorSet)
    (report : WithholdingReport) : outcome ConsensusError ValidatorSet :=
  s ← os;
  match report_offense s (wr_validator report) LivenessFault
          (hash_bytes (hash_to_bytes (wr_validator report))) max_round 0 with
  | Ok (record, s') => apply_slash s' (wr_validator report) (sr_slash_amount record)
  | Err _ => Ok s
  | Panic => Panic
  end.

Definition check_withholding (e : ConsensusEngine) (max_round : Z)
    : outcome ConsensusError ConsensusEngine :=
  if bool_decide (max_round mod 100 = 0) then
    s ← foldl (slash_withholding max_round) (Ok (validator_set e))
          (detect_withholding (withholding_detector e) 100);
    Ok (e <| validator_set := s |>)
  else Ok e.

(** The maintenance after a scan that committed something. *)
Definition after_commits (e : ConsensusEngine) (newly : list DagBlock)
    : outcome ConsensusError ConsensusEngine :=
  if bool_decide (newly = []) then Ok e
  else
    let max_round := max_or_zero (round <$> newly) in
    e1 ← check_withholding e max_round;
    Ok (prune_below_round (prune_old_rounds e1) max_round).2.

Definition try_commit_limited (e : ConsensusEngine) (maximum_blocks : Z)
    (maintain_live_state : bool) (now_ms : Z)
    : outcome ConsensusError (list DagBlock * ConsensusEngine) :=
  if bool_decide (epoch (frozen_validator_set e) = 0) then Ok ([], e)
  else if bool_decide (current_round e < 2) then Ok ([], e)
  else
    d ← commit_decisions e maximum_blocks;
    if negb maintain_live_state then Ok d
    else
      e1 ← after_commits d.2 d.1;
      let e2 := (expire_stale_locks e1 now_ms).2 in
      Ok (d.1, (expire_stale_locks_with_timeout e2 30 now_ms).2).

Definition try_commit (e : ConsensusEngine) (now_ms : Z) :=
  try_commit_limited e u64_max true now_ms.

(** ** Replaying commits at startup *)

Definition restore_next_recovery_commit_from_local_wal (e : ConsensusEngine) (now_ms : Z)
    : outcome ConsensusError DagBlock * ConsensusEngine :=
  if bool_decide (consensus_domain e = None) || negb (local_recovery_replay_active e)
  then (Err (InvalidBlock "recovery commit replay requires an active bound local generation"), e)
  else match try_commit_limited e 1 false now_ms with
       | Ok (b :: _, e') => (Ok b, e')
       | Ok ([], e') =>
           (Err (InvalidBlock "recovery DAG has no certified next canonical decision"), e')
       | Err x => (Err x, e)
       | Panic => (Panic, e)
       end.

Definition restore_recovery_commit_from_local_wal (e : ConsensusEngine) (block_hash : Hash256)
    (now_ms : Z) : outcome ConsensusError Z * ConsensusEngine :=
  match restore_next_recovery_commit_from_local_wal e now_ms with
  | (Ok b, e') =>
      if bool_decide (hash b <> block_hash)
      then (Err (InvalidBlock "recovery commit differs from next certified decision"), e')
      else (Ok (last_committed_round e'), e')
  | (Err x, e') => (Err x, e')
  | (Panic, e') => (Panic, e')
  end.

End Commit.

(** ** Support, as a quorum of certifiers *)

Section Support.
Context `{Crypto}.
Implicit Types e : ConsensusEngine.

(** Some child of [h] one round above is referenced two rounds above by a quorum. *)
Definition certified e (s : ValidatorSet) (h : Hash256) (r : Z) : Prop :=
  exists ch child, ch ∈ blocks_in_round e (wrapping_add r 1) /\ dag e !! ch = Some child /\
    h ∈ parents child /\ quorum s <= stake_in s (list_to_set (certifiers e ch r)).

Lemma certifiers_elem e ch r a :
  a ∈ certifiers e ch r <->
  exists h b, h ∈ blocks_in_round e (wrapping_add r 2) /\ dag e !! h = Some b /\
    ch ∈ parents b /\ author b = a.
Proof.
  unfold certifiers, certifier_of. rewrite list_elem_of_omap. setoid_rewrite bind_Some. split.
  - intros (h & Hh & b & Hb & Ha). case_bool_decide; naive_solver.
  - intros (h & b & Hh & Hb & Hc & <-). exists h. split; [done|]. exists b. split; [done|].
    by rewrite bool_decide_true.
Qed.

Lemma first_supported_spec e s h r l :
  vs_wf s ->
  exists o, first_supported e s h r l = Ok o /\
    (is_Some o <-> exists ch child, ch ∈ l /\ dag e !! ch = Some child /\ h ∈ parents child /\
       quorum s <= stake_in s (list_to_set (certifiers e ch r))).
Proof.
  intros Hwf. induction l as [|ch l (o & Ho & Hiff)]; cbn [first_supported].
  { exists None. split; [done|]. split; [by intros []|set_solver]. }
  destruct (dag e !! ch) as [child|] eqn:Hch.
  2:{ exists o. split; [done|]. rewrite Hiff. split; [set_solver|].
      intros (x & c & [->|?]%elem_of_cons & ? & ? & ?); [congruence|eauto 10]. }
  case_bool_decide as Hp; simpl.
  2:{ exists o. split; [done|]. rewrite Hiff. split; [set_solver|].
      intros (x & c & [->|?]%elem_of_cons & ? & ? & ?); [by simplify_eq|eauto 10]. }
  rewrite tally_known_first_start by done. simpl. case_bool_decide as Hq.
  - eexists. split; [done|]. split; [|eauto]. intros _. exists ch, child. set_solver.
  - exists o. split; [done|]. rewrite Hiff. split; [set_solver|].
    intros (x & c & [->|?]%elem_of_cons & ? & ? & ?); [simplify_eq; lia|eauto 10].
Qed.

Lemma two_round_commit_support_spec e s h r :
  vs_wf s ->
  exists o, two_round_commit_support e h r s = Ok o /\ (is_Some o <-> certified e s h r).
Proof. intros Hwf. by apply first_supported_spec. Qed.

Lemma certified_among_spec e s r l :
  vs_wf s ->
  exists l', certified_among e s r l = Ok l' /\ sublist l' l /\
    forall h, h ∈ l' <-> h ∈ l /\ certified e s h r.
Proof.
  intros Hwf. induction l as [|h l (l' & Hl' & Hsub & Hiff)]; cbn [certified_among].
  { exists []. split; [done|]. split; [constructor|set_solver]. }
  destruct (two_round_commit_support_spec e s h r Hwf) as (o & -> & Ho). simpl. rewrite Hl'. simpl.
  destruct o as [x|]; eexists; (split; [done|]); (split; [by constructor|]); intros h';
    rewrite ?elem_of_cons, Hiff.
  - split; [intros [->|?]; [by rewrite <- Ho; eauto|tauto]|tauto].
  - split; [tauto|]. intros [[->|?] Hc]; [by apply Ho in Hc as []|done].
Qed.

(** ** Anchors *)

Lemma dedup_cons x y l :
  dedup (x :: y :: l) = if bool_decide (x = y) then dedup (y :: l) else x :: dedup (y :: l).
Proof. reflexivity. Qed.

Lemma elem_of_dedup l h : h ∈ dedup l <-> h ∈ l.
Proof.
  induction l as [|x [|y l] IH]; [done..|]. rewrite dedup_cons. case_bool_decide as Hxy.
  - subst. rewrite IH. set_solver.
  - rewrite elem_of_cons, IH. set_solver.
Qed.

Lemma dedup_NoDup l : StronglySorted (≤) l -> NoDup (dedup l).
Proof.
  induction l as [|x [|y l] IH]; intros Hs; [constructor|apply NoDup_singleton|].
  rewrite dedup_cons. apply StronglySorted_inv in Hs as [Hs Hx]. case_bool_decide as Hxy; [by apply IH|].
  apply NoDup_cons_2; [|by apply IH]. rewrite elem_of_dedup. intros Hin.
  apply StronglySorted_inv in Hs as [_ Hy]. apply Forall_inv in Hx as Hle.
  apply elem_of_cons in Hin as [->|Hin]; [done|].
  rewrite Forall_forall in Hy. apply Hy in Hin. lia.
Qed.

Lemma anchors_of_elem e vals r h :
  h ∈ anchors_of e vals r <->
  exists leader b, leader_of vals r = Some leader /\ h ∈ blocks_in_round e r /\
    dag e !! h = Some b /\ author b = leader.
Proof.
  unfold anchors_of, authored_by. destruct (leader_of vals r) as [a|]; [|set_solver].
  rewrite elem_of_dedup, elem_of_sort_hashes, list_elem_of_filter. split.
  - intros [Ha Hin]. destruct (dag e !! h) as [b|] eqn:Hb; [|done].
    apply bool_decide_eq_true in Ha. eauto 10.
  - intros (l & b & [= <-] & Hin & -> & Ha). split; [by apply bool_decide_eq_true|done].
Qed.

Lemma anchors_of_NoDup e vals r : NoDup (anchors_of e vals r).
Proof.
  unfold anchors_of. destruct (leader_of vals r); [|constructor].
  apply dedup_NoDup, sort_hashes_Sorted.
Qed.

End Support.

(** ** The history walk decides reachability *)

Section Walk.
Context `{Crypto} (e : ConsensusEngine).

(** A parent reference of a held block at or above the floor. *)
Definition references (floor_round : Z) (h p : Hash256) : Prop :=
  exists b, dag e !! h = Some b /\ floor_round <= round b /\ p ∈ parents b.

Lemma push_parents_spec target seen fr ps :
  match push_parents target seen fr ps with
  | None => target ∈ ps
  | Some (seen', fr') =>
      target ∉ ps /\ seen' = seen ∪ list_to_set ps /\ (forall x, x ∈ fr -> x ∈ fr') /\
      (forall x, x ∈ fr' -> x ∈ fr \/ x ∈ ps) /\ (forall x, x ∈ seen' -> x ∈ seen \/ x ∈ fr') /\
      (length fr' + size seen = length fr + size seen')%nat
  end.
Proof.
  revert seen fr. induction ps as [|p ps IH]; intros seen fr; cbn [push_parents].
  { split_and!; [set_solver..|lia]. }
  case_bool_decide as Ht; [set_solver|]. case_bool_decide as Hp.
  - specialize (IH seen fr). destruct (push_parents _ _ _ _) as [[seen' fr']|]; [|set_solver].
    destruct IH as (? & -> & ? & ? & ? & ?). split_and!; set_solver.
  - specialize (IH ({[p]} ∪ seen) (p :: fr)).
    destruct (push_parents _ _ _ _) as [[seen' fr']|]; [|set_solver].
    destruct IH as (? & -> & Hfr & ? & Hs & Hlen).
    rewrite (size_union {[p]} seen), size_singleton in Hlen by set_solver. simpl in Hlen.
    split_and!; [set_solver|set_solver|set_solver|set_solver| |].
    + intros x [Hx|?]%Hs; [|by right]. assert (p ∈ fr') by (apply Hfr; set_solver). set_solver.
    + lia.
Qed.

Lemma walk_history_spec fuel from target fl seen fr (U : gset Hash256) :
  (forall h p, references fl h p -> p ∈ U) -> seen ⊆ U ->
  (size U + length fr < fuel + size seen)%nat ->
  from ∈ seen -> target ∉ seen -> (forall x, x ∈ fr -> x ∈ seen) ->
  (forall x, x ∈ seen -> rtc (references fl) from x) ->
  (forall x p, x ∈ seen -> x ∉ fr -> references fl x p -> p ∈ seen) ->
  walk_history e fuel target fl seen fr = true <-> rtc (references fl) from target.
Proof.
  intros HU. revert seen fr.
  induction fuel as [|fuel IH]; intros seen fr HsU Hfuel Hfrom Htgt Hfr Hreach Hclosed.
  { pose proof (subseteq_size _ _ HsU). lia. }
  cbn [walk_history]. destruct fr as [|h fr].
  { split; [done|]. intros Hr. destruct Htgt.
    assert (forall x y, rtc (references fl) x y -> x ∈ seen -> y ∈ seen) as Hstay.
    { induction 1 as [|x y z Hxy _ IHr]; [done|]. intros Hx. apply IHr.
      eapply Hclosed; [done| |done]. apply not_elem_of_nil. }
    by eapply Hstay. }
  assert (forall x, references fl h x -> dag e !! h = None -> False) as Hnone.
  { intros x (b & ? & _) ?. congruence. }
  destruct (dag e !! h) as [b|] eqn:Hb.
  2:{ apply IH; try done; [simpl in Hfuel; lia|set_solver|].
      intros x p Hx Hn Hxp. destruct (decide (x = h)) as [->|Hne]; [by destruct (Hnone p)|].
      eapply Hclosed; [done| |done]. set_solver. }
  case_bool_decide as Hlow.
  { apply IH; try done; [simpl in Hfuel; lia|set_solver|].
    intros x p Hx Hn Hxp. destruct (decide (x = h)) as [->|Hne].
    - destruct Hxp as (b' & ? & ? & ?). simplify_eq. lia.
    - eapply Hclosed; [done| |done]. set_solver. }
  assert (forall p, p ∈ parents b -> references fl h p) as Hpar.
  { intros p Hp. exists b. split_and!; [done|lia|done]. }
  assert (rtc (references fl) from h) as Hh by (apply Hreach, Hfr; set_solver).
  pose proof (push_parents_spec target seen fr (parents b)) as Hpush.
  destruct (push_parents _ _ _ _) as [[seen' fr']|].
  2:{ split; [intros _|done]. eapply rtc_r; [done|by apply Hpar]. }
  destruct Hpush as (Htp & -> & Hkeep & Hfrom' & Hnew & Hlen). simpl in Hfuel.
  apply IH.
  - intros x [?|Hx%elem_of_list_to_set]%elem_of_union; [set_solver|]. by eapply HU, Hpar.
  - lia.
  - set_solver.
  - set_solver.
  - intros x [?|?]%Hfrom'; set_solver.
  - intros x [?|Hx%elem_of_list_to_set]%elem_of_union; [by apply Hreach|].
    eapply rtc_r; [done|by apply Hpar].
  - intros x p Hx Hn Hxp. destruct (decide (x = h)) as [->|Hne].
    + destruct Hxp as (b' & ? & ? & ?). simplify_eq. set_solver.
    + apply Hnew in Hx as [Hx|]; [|done]. apply elem_of_union_l. eapply Hclosed; [done| |done].
      intros [->|Hx']%elem_of_cons; [done|]. by apply Hn, Hkeep.
Qed.

Lemma all_references_elem fl h p : references fl h p -> p ∈ all_references e.
Proof.
  intros (b & Hb & _ & Hp). unfold all_references. apply list_elem_of_join. exists (parents b).
  split; [done|]. apply list_elem_of_fmap. exists (h, b). split; [done|].
  by apply elem_of_map_to_list.
Qed.

Lemma causal_history_reachable from target fl :
  causal_history_contains e from target fl = true <-> rtc (references fl) from target.
Proof.
  unfold causal_history_contains. case_bool_decide as Heq; [subst; by split|].
  apply (walk_history_spec _ from target fl _ _ ({[from]} ∪ list_to_set (all_references e))).
  - intros h p Hp%all_references_elem. set_solver.
  - set_solver.
  - assert (size ({[from]} ∪ list_to_set (all_references e) : gset Hash256) <=
            1 + length (all_references e))%nat as Hsize.
    { transitivity (size ({[from]} : gset Hash256) +
                    size (list_to_set (all_references e) : gset Hash256))%nat.
      - rewrite size_union_alt.
        apply Nat.add_le_mono_l, subseteq_size. set_solver.
      - rewrite size_singleton. apply Nat.add_le_mono_l.
        induction (all_references e) as [|x l IH]; [done|]. simpl.
        rewrite size_union_alt, size_singleton.
        assert (size (list_to_set l ∖ {[x]} : gset Hash256) <= size (list_to_set l : gset Hash256))%nat
          by (apply subseteq_size; set_solver). lia. }
    rewrite size_singleton. unfold history_fuel. simpl. lia.
  - set_solver.
  - set_solver.
  - set_solver.
  - intros x ->%elem_of_singleton. constructor.
  - intros x p ->%elem_of_singleton Hn. set_solver.
Qed.

End Walk.

(** ** The verdict on a round *)

Section Verdict.
Context `{Crypto} (e : ConsensusEngine) (s : ValidatorSet) (Hwf : vs_wf s).
Context (vals : list Address) (domain_bound : bool) (scan_end : Z).

(** A certified anchor between the rounds [from] and [to]. *)
Definition decides (from to rd : Z) (d : Hash256) : Prop :=
  from <= rd <= to /\ d ∈ anchors_of e vals rd /\ certified e s d rd.

Lemma find_decider_spec fuel r2 :
  exists la, find_decider e s vals domain_bound fuel r2 = Ok la /\
    match la with
    | Decider rd d => decides r2 (r2 + Z.of_nat fuel - 1) rd d
    | _ => True
    end.
Proof.
  revert r2. induction fuel as [|fuel IH]; intros r2; cbn [find_decider]; [by eexists|].
  destruct (domain_bound && _); [by eexists|].
  destruct (certified_among_spec e s r2 (anchors_of e vals r2) Hwf) as (l & -> & _ & Hl). simpl.
  destruct l as [|d [|? ?]]; [|eexists; split; [done|]|by eexists].
  - destruct (IH (r2 + 1)) as (la & Hla & Hd). exists la. split; [done|].
    destruct la; [|done..]. unfold decides in *. destruct Hd as (? & ? & ?).
    split; [lia|done].
  - destruct (Hl d) as [(Hd & Hc) _]; [set_solver|]. split_and!; [lia|lia|done|done].
Qed.

(** How an anchor of round [r] gets committed, and why a round is passed over. *)
Definition commit_reason (r : Z) (h : Hash256) : Prop :=
  h ∈ anchors_of e vals r /\
  (certified e s h r \/
   exists rd d, decides (r + 3) scan_end rd d /\ rtc (references e r) d h).

Definition skip_reason (r : Z) : Prop :=
  exists rd d, decides (r + 3) scan_end rd d /\
    forall h, h ∈ anchors_of e vals r -> ~ certified e s h r /\ ~ rtc (references e r) d h.

Lemma decide_by_history_spec r d :
  match decide_by_history e (anchors_of e vals r) r d with
  | CommitAnchor h => h ∈ anchors_of e vals r /\ rtc (references e r) d h
  | SkipRound => forall h, h ∈ anchors_of e vals r -> ~ rtc (references e r) d h
  | Fence => True
  end.
Proof.
  unfold decide_by_history.
  pose proof (list_elem_of_filter (fun h => causal_history_contains e d h r = true)
                (anchors_of e vals r)) as Hin.
  destruct (filter _ _) as [|h [|? ?]]; [| |done].
  - intros h Hh Hr%causal_history_reachable. destruct (Hin h) as [_ Hc].
    by apply (not_elem_of_nil h), Hc.
  - destruct (Hin h) as [[Hr Hh] _]; [set_solver|]. by apply causal_history_reachable in Hr.
Qed.

Lemma decide_round_spec r :
  0 <= r -> r + 3 <= u64_max ->
  exists v, decide_round e s vals domain_bound scan_end r = Ok v /\
    match v with
    | CommitAnchor h => commit_reason r h
    | SkipRound => skip_reason r
    | Fence => True
    end.
Proof.
  intros Hr Hmax. unfold decide_round. destruct (domain_bound && _); [by eexists|].
  destruct (certified_among_spec e s r (anchors_of e vals r) Hwf) as (l & -> & _ & Hl). simpl.
  destruct l as [|h [|? ?]]; [| |by eexists].
  2:{ eexists. split; [done|]. destruct (Hl h) as [(? & ?) _]; [set_solver|]. split; [done|by left]. }
  rewrite wrapping_add_small by lia.
  destruct (find_decider_spec (rounds_between (r + 3) scan_end) (r + 3)) as (la & -> & Hla). simpl.
  destruct la as [rd d| |]; [|by eexists..]. eexists. split; [done|].
  assert (decides (r + 3) scan_end rd d) as Hd.
  { destruct Hla as ((? & Hrd) & Han & Hc). split; [|done]. unfold rounds_between in Hrd. lia. }
  pose proof (decide_by_history_spec r d) as Hh.
  destruct (decide_by_history _ _ _ _) as [h| |]; [| |done].
  - destruct Hh as [? ?]. split; [done|]. right. eauto.
  - exists rd, d. split; [done|]. intros h Hin. split; [|by apply Hh].
    intros Hc. destruct (Hl h) as [_ Hn]. by apply not_elem_of_nil in Hn.
Qed.

(** ** The scan *)

(** The decisions of a scan from round [r] to the cursor [r']: the blocks it
    commits, in order. *)
Inductive decided (committed_set : gset Hash256) : Z -> Z -> list DagBlock -> Prop :=
| decided_stop r : decided committed_set r r []
| decided_skip r r' l :
    r <= scan_end -> skip_reason r -> decided committed_set (r + 1) r' l ->
    decided committed_set r r' l
| decided_known r r' h l :
    r <= scan_end -> commit_reason r h -> h ∈ committed_set ->
    decided committed_set (r + 1) r' l -> decided committed_set r r' l
| decided_commit r r' h b l :
    r <= scan_end -> commit_reason r h -> h ∉ committed_set -> dag e !! h = Some b ->
    decided committed_set (r + 1) r' l -> decided committed_set r r' (b :: l).

Lemma commit_scan_spec cs maximum fuel r newly :
  0 <= r -> scan_end + 3 <= u64_max ->
  exists r' l, commit_scan e s vals domain_bound scan_end cs maximum fuel r newly r =
                 Ok (newly ++ l, r') /\ decided cs r r' l.
Proof.
  revert r newly. induction fuel as [|fuel IH]; intros r newly Hr Hend; cbn [commit_scan].
  { exists r, []. rewrite app_nil_r. split; [done|constructor]. }
  assert (exists r' l, @Ok ConsensusError _ (newly, r) = Ok (newly ++ l, r') /\ decided cs r r' l)
    as Hstop.
  { exists r, []. rewrite app_nil_r. split; [done|constructor]. }
  case_bool_decide as Hle; simpl; [|done]. case_bool_decide; simpl; [|done].
  case_bool_decide; [done|].
  destruct (decide_round_spec r) as (v & -> & Hv); [lia..|]. cbn [mbind outcome_bind].
  rewrite wrapping_add_small by lia.
  destruct v as [h| |]; [| |done].
  - unfold push_commit. case_bool_decide as Hcs.
    { destruct (IH (r + 1) newly) as (r' & l & -> & Hl); [lia..|].
      exists r', l. split; [done|]. by eapply decided_known. }
    destruct Hv as [Hh Hv]. apply anchors_of_elem in Hh as Hb.
    destruct Hb as (a & b & _ & _ & Hb & _). rewrite Hb.
    destruct (IH (r + 1) (newly ++ [b])) as (r' & l & -> & Hl); [lia..|].
    exists r', (b :: l). rewrite <- (assoc_L (++)). split; [done|].
    by eapply decided_commit.
  - destruct (IH (r + 1) newly) as (r' & l & -> & Hl); [lia..|].
    exists r', l. split; [done|]. by apply decided_skip.
Qed.

Lemma certified_among_sub r l l' : certified_among e s r l = Ok l' -> forall h, h ∈ l' -> h ∈ l.
Proof.
  clear Hwf. revert l'. induction l as [|x l IH]; intros l'; cbn [certified_among].
  { intros [= <-]. set_solver. }
  intros (o & _ & (l2 & Hl2 & [= <-])%bind_Ok)%bind_Ok h.
  destruct o; [rewrite elem_of_cons|]; intros; set_solver.
Qed.

Lemma decide_round_anchor r h :
  decide_round e s vals domain_bound scan_end r = Ok (CommitAnchor h) -> h ∈ anchors_of e vals r.
Proof.
  unfold decide_round. destruct (domain_bound && _); [done|].
  intros (l & Hl & Hrest)%bind_Ok. pose proof (certified_among_sub _ _ _ Hl) as Hsub.
  destruct l as [|x [|? ?]]; [|injection Hrest as <-; set_solver|done].
  apply bind_Ok in Hrest as ([rd d| |] & _ & Hrest); [|done..]. injection Hrest as Hh.
  pose proof (decide_by_history_spec r d) as Hd. rewrite Hh in Hd. apply Hd.
Qed.

(** The cursor moves forward, stays below the round after the scan, and the
    blocks committed lie below it. *)
Lemma commit_scan_cursor cs maximum fuel r newly l r' :
  dag_ok e -> 0 <= r -> scan_end + 1 <= u64_max ->
  commit_scan e s vals domain_bound scan_end cs maximum fuel r newly r = Ok (l, r') ->
  Forall (fun b => round b < r) newly ->
  r <= r' <= Z.max r (scan_end + 1) /\ Forall (fun b => round b < r') l.
Proof.
  intros Hok. revert r newly.
  induction fuel as [|fuel IH]; intros r newly Hr Hend; cbn [commit_scan].
  { intros [= -> <-] ?. split; [lia|done]. }
  case_bool_decide as Hle; simpl; [|intros [= -> <-] ?; split; [lia|done]].
  case_bool_decide; simpl; [|intros [= -> <-] ?; split; [lia|done]].
  case_bool_decide; [intros [= -> <-] ?; split; [lia|done]|].
  destruct (decide_round _ _ _ _ _ _) as [[h| |]| |] eqn:Hv; simpl; try done;
    [..|intros [= -> <-] ?; split; [lia|done]];
    rewrite wrapping_add_small by lia; intros Hrun Hnewly; apply IH in Hrun as [? ?]; try lia.
  - split; [lia|done].
  - assert (Forall (fun b => round b < r + 1) newly)
      by (eapply Forall_impl; [done|intros ? ?; simpl in *; lia]).
    unfold push_commit. case_bool_decide; [done|]. destruct (dag e !! h) as [b|] eqn:Hb; [|done].
    apply Forall_app. split; [done|]. constructor; [|constructor].
    apply decide_round_anchor, anchors_of_elem in Hv as (a & b' & _ & Hin & _).
    apply (rounds_dag e Hok) in Hin as (? & ? & ?). simplify_eq. lia.
  - split; [lia|done].
  - eapply Forall_impl; [done|intros ? ?; simpl in *; lia].
Qed.

Lemma decided_cursor cs r r' l : decided cs r r' l -> r <= r' /\ (r < r' -> r' <= scan_end + 1).
Proof. induction 1; lia. Qed.

(** What a committed block is. *)
Definition committed_block (committed_set : gset Hash256) (r r' : Z) (b : DagBlock) : Prop :=
  r <= round b < r' /\ dag e !! hash b = Some b /\ hash b ∉ committed_set /\
  leader_of vals (round b) = Some (author b) /\ commit_reason (round b) (hash b).

Lemma commit_reason_block r h b :
  dag_ok e -> commit_reason r h -> dag e !! h = Some b ->
  hash b = h /\ round b = r /\ leader_of vals r = Some (author b).
Proof.
  intros Hok [(a & b' & Hl & Hin & Hb' & <-)%anchors_of_elem _] Hb.
  apply (rounds_dag e Hok) in Hin as (b2 & Hb2 & <-). simplify_eq.
  split; [by apply (dag_key e Hok)|done].
Qed.

Lemma decided_blocks cs r r' l :
  dag_ok e -> decided cs r r' l ->
  Forall (committed_block cs r r') l /\ StronglySorted (fun b b' => round b < round b') l.
Proof.
  intros Hok. induction 1 as [r|r r' l ? _ Hd [IH IHs]|r r' h l ? _ _ Hd [IH IHs]|
    r r' h b l ? Hc Hn Hb Hd [IH IHs]]; [by split; constructor|..].
  1,2: split; [|done]; eapply Forall_impl; [exact IH|]; intros b (? & ?); split; [lia|done].
  destruct (commit_reason_block r h b Hok Hc Hb) as (Hh & Hrb & Hl).
  apply decided_cursor in Hd. split.
  - constructor.
    + unfold committed_block. rewrite Hh, Hrb. split; [lia|]. done.
    + eapply Forall_impl; [exact IH|]. intros b' (? & ?). split; [lia|done].
  - constructor; [done|]. eapply Forall_impl; [exact IH|]. intros b' (? & ?). simpl. lia.
Qed.

(** Every round the cursor passed was committed now, committed before, or skipped
    for a reason. *)
Lemma decided_rounds cs r r' l x :
  dag_ok e -> decided cs r r' l -> r <= x < r' ->
  (exists b, b ∈ l /\ round b = x) \/ (exists h, h ∈ cs /\ commit_reason x h) \/ skip_reason x.
Proof.
  intros Hok. induction 1 as [r|r r' l ? Hsk Hd IH|r r' h l ? Hc Hcs Hd IH|
    r r' h b l ? Hc Hn Hb Hd IH]; intros Hx; [lia|..].
  - destruct (decide (x = r)) as [->|]; [by auto|]. apply IH. lia.
  - destruct (decide (x = r)) as [->|]; [by eauto|]. apply IH. lia.
  - destruct (commit_reason_block r h b Hok Hc Hb) as (_ & Hrb & _).
    destruct (decide (x = r)) as [->|]; [left; exists b; set_solver|].
    destruct IH as [(b' & ? & ?)|?]; [lia| |by right]. left. exists b'. set_solver.
Qed.

(** More fuel than rounds changes nothing: the loop ends by its own guard. *)
Lemma commit_scan_fuel cs maximum fuel fuel' r newly cursor :
  0 <= r -> scan_end + 1 <= u64_max ->
  (rounds_between r scan_end <= fuel)%nat -> (fuel <= fuel')%nat ->
  commit_scan e s vals domain_bound scan_end cs maximum fuel' r newly cursor =
  commit_scan e s vals domain_bound scan_end cs maximum fuel r newly cursor.
Proof.
  unfold rounds_between. intros Hr Hend. revert fuel' r newly cursor Hr.
  induction fuel as [|fuel IH]; intros [|fuel'] r newly cursor Hr Hf Hf'; try lia; [done| |].
  - cbn [commit_scan]. rewrite bool_decide_false by lia. done.
  - cbn [commit_scan]. case_bool_decide; simpl; [|done]. case_bool_decide; [|done].
    case_bool_decide; [done|]. destruct (decide_round _ _ _ _ _ _) as [[h| |]| |]; simpl; try done;
      rewrite wrapping_add_small by lia; apply IH; lia.
Qed.

End Verdict.

(** ** What pruning drops *)

Section Prune.
Context `{Crypto}.
Implicit Types e : ConsensusEngine.

Lemma foldl_delete_lookup {A} (m : gmap Hash256 A) l h :
  foldl (fun m h => delete h m) m l !! h = if decide (h ∈ l) then None else m !! h.
Proof.
  revert m. induction l as [|x l IH]; intros m; simpl; [done|]. rewrite IH.
  destruct (decide (h = x)) as [->|Hne].
  - rewrite lookup_delete_eq, (decide_True (P := x ∈ x :: l)) by set_solver. by case_decide.
  - rewrite lookup_delete_ne by done. repeat case_decide; set_solver.
Qed.

(** The DAG part of an engine cut down to the rounds that satisfy [P]. *)
Definition restricted (P : Z -> Prop) e e' : Prop :=
  (forall h b, dag e' !! h = Some b <-> dag e !! h = Some b /\ P (round b)) /\
  (forall r h, h ∈ blocks_in_round e' r <-> h ∈ blocks_in_round e r /\ P r) /\
  (forall r, NoDup (blocks_in_round e r) -> NoDup (blocks_in_round e' r)) /\
  (forall a r h, author_round_blocks e' !! (a, r) = Some h <->
                 author_round_blocks e !! (a, r) = Some h /\ P r) /\
  consensus_domain e' = consensus_domain e.

Lemma restricted_dag_ok P e e' : restricted P e e' -> dag_ok e -> dag_ok e'.
Proof.
  intros (Hd & Hr & Hn & Ha & Hc) [H1 H2 H3 H4 H5 H6 H7]. split.
  - intros h b []%Hd. eauto.
  - intros h b []%Hd. rewrite Hc. eauto.
  - intros h b []%Hd. apply Hr. eauto.
  - intros r h [Hin HP]%Hr. apply H4 in Hin as (b & ? & <-). exists b. by rewrite Hd.
  - intros r. auto.
  - intros h b [Hb HP]%Hd. destruct (H6 h b Hb) as [x Hx]. exists x. by apply Ha.
  - intros a r h [Hx HP]%Ha. apply H7 in Hx as (b & ? & ? & <-). exists b. by rewrite Hd.
Qed.

Lemma restricted_refl (P : Z -> Prop) e : (forall r, P r) -> restricted P e e.
Proof. intros HP. split_and!; naive_solver. Qed.

Lemma restricted_trans (P Q : Z -> Prop) e e' e'' :
  restricted P e e' -> restricted Q e' e'' -> restricted (fun r => P r /\ Q r) e e''.
Proof.
  intros (Hd & Hr & Hn & Ha & Hc) (Hd' & Hr' & Hn' & Ha' & Hc'). split_and!.
  - intros h b. rewrite Hd', Hd. tauto.
  - intros r h. rewrite Hr', Hr. tauto.
  - auto.
  - intros a r h. rewrite Ha', Ha. tauto.
  - congruence.
Qed.

Lemma restricted_ext (P Q : Z -> Prop) e e' e'' :
  restricted P e e' -> dag_part e'' = dag_part e' -> (forall r, P r <-> Q r) -> restricted Q e e''.
Proof.
  intros (Hd & Hr & Hn & Ha & Hc) [= E1 E2 E3 E4] HPQ.
  unfold restricted, blocks_in_round in *. rewrite E1, E2, E3, E4.
  split_and!; intros; rewrite <- ?HPQ; auto.
Qed.

(** Which parts of an engine a drop can write. *)
Lemma drop_round_eq e r :
  exists d x a, drop_round e r = e <| dag := d |> <| rounds := x |> <| author_round_blocks := a |>.
Proof.
  unfold drop_round. destruct (rounds e !! r); [by eexists _, _, _|].
  exists (dag e), (rounds e), (filter (fun kh => kh.1.2 <> r) (author_round_blocks e)).
  by destruct e.
Qed.

Lemma drop_round_restricted e r : dag_ok e -> restricted (fun x => x <> r) e (drop_round e r).
Proof.
  intros Hok. unfold drop_round. destruct (rounds e !! r) as [hashes|] eqn:Hr.
  - assert (blocks_in_round e r = hashes) as Hb by (unfold blocks_in_round; by rewrite Hr).
    split_and!; simpl.
    + intros h b. rewrite foldl_delete_lookup. case_decide as Hin.
      * split; [done|]. intros [Hd Hne]. subst hashes.
        apply (rounds_dag e Hok) in Hin as (b' & ? & ?). congruence.
      * split; [|tauto]. intros Hd. split; [done|]. intros <-. subst hashes.
        by apply Hin, (dag_rounds e Hok).
    + intros x h. unfold blocks_in_round. simpl. destruct (decide (x = r)) as [->|Hne].
      * rewrite lookup_delete_eq. set_solver.
      * rewrite lookup_delete_ne by done. tauto.
    + intros x Hx. unfold blocks_in_round in *. simpl. destruct (decide (x = r)) as [->|Hne].
      * rewrite lookup_delete_eq. constructor.
      * by rewrite lookup_delete_ne.
    + intros a x h. by rewrite map_lookup_filter_Some.
    + done.
  - split_and!; simpl.
    + intros h b. split; [|tauto]. intros Hd. split; [done|]. intros <-.
      apply (dag_rounds e Hok) in Hd. unfold blocks_in_round in Hd. rewrite Hr in Hd. set_solver.
    + intros x h. split; [|tauto]. intros Hx. split; [done|]. intros ->.
      unfold blocks_in_round in Hx. simpl in Hx. rewrite Hr in Hx. set_solver.
    + done.
    + intros a x h. by rewrite map_lookup_filter_Some.
    + done.
Qed.

Lemma drop_rounds_eq e l :
  exists d x a, foldl drop_round e l = e <| dag := d |> <| rounds := x |> <| author_round_blocks := a |>.
Proof.
  revert e. induction l as [|r l IH]; intros e; simpl.
  { exists (dag e), (rounds e), (author_round_blocks e). by destruct e. }
  destruct (drop_round_eq e r) as (d & x & a & ->).
  destruct (IH (e <| dag := d |> <| rounds := x |> <| author_round_blocks := a |>))
    as (d' & x' & a' & ->). by exists d', x', a'.
Qed.

Lemma drop_rounds_restricted e l :
  dag_ok e -> restricted (fun x => x ∉ l) e (foldl drop_round e l).
Proof.
  revert e. induction l as [|r l IH]; intros e Hok; cbn [foldl].
  { apply restricted_refl. set_solver. }
  pose proof (drop_round_restricted e r Hok) as Hd.
  eapply (restricted_ext (fun x => x <> r /\ x ∉ l)); [|done|set_solver].
  eapply restricted_trans; [done|]. apply IH. by eapply restricted_dag_ok.
Qed.

Lemma rounds_below_elem e c r :
  r ∈ rounds_below e c <-> r < c /\ is_Some (rounds e !! r).
Proof.
  unfold rounds_below. rewrite list_elem_of_fmap. setoid_rewrite list_elem_of_filter. split.
  - intros ([r' hs] & -> & Hlt & Hin%elem_of_map_to_list). simpl in *. eauto.
  - intros (Hlt & hs & Hhs). exists (r, hs). split; [done|]. split; [done|].
    by apply elem_of_map_to_list.
Qed.

Lemma restricted_iff (P Q : Z -> Prop) e e' :
  dag_ok e -> (forall r h, h ∈ blocks_in_round e r -> P r <-> Q r) ->
  restricted P e e' -> restricted Q e e'.
Proof.
  intros Hok HPQ (Hd & Hr & Hn & Ha & Hc). split_and!; [| |done| |done].
  - intros h b. rewrite Hd. split; intros [Hb ?]; (split; [done|]);
      apply (dag_rounds e Hok) in Hb; by eapply HPQ.
  - intros r h. rewrite Hr. split; intros [Hb ?]; (split; [done|]); by eapply HPQ.
  - intros a r h. rewrite Ha. split; intros [Hb ?]; (split; [done|]);
      apply (author_dag e Hok) in Hb as (b & Hb & _ & <-);
      apply (dag_rounds e Hok) in Hb; by eapply HPQ.
Qed.

Lemma drop_below_restricted e c :
  dag_ok e -> restricted (fun r => c <= r) e (foldl drop_round e (rounds_below e c)).
Proof.
  intros Hok. eapply (restricted_iff (fun r => r ∉ rounds_below e c)); [done| |
    by apply drop_rounds_restricted].
  intros r h Hin. rewrite rounds_below_elem. unfold blocks_in_round in Hin.
  destruct (rounds e !! r) eqn:Hr; [|set_solver]. split; [|naive_solver lia].
  intros Hn. apply Z.nlt_ge. naive_solver.
Qed.

End Prune.

(** ** The effect of [try_commit] on the engine *)

Section Effect.
Context `{Crypto}.
Implicit Types e : ConsensusEngine.

(** Everything but the DAG part, the commit list and what hangs off the DAG. *)
Definition prune_part e :=
  (last_committed_round e, current_round e, validator_set e, frozen_validator_set e,
   local_address e, recovery_bootstrap_round e, restart_base_round e,
   local_recovery_boundary_round e, proposal_floor e, retained_rounds e).

(** Whole rounds may be gone, but none from [c] on. *)
Definition keeps_from (c : Z) e e' : Prop :=
  exists P, restricted P e e' /\ forall r, c <= r -> P r.

Lemma keeps_from_same c e e' : dag_part e' = dag_part e -> keeps_from c e e'.
Proof.
  intros Hd. exists (fun _ => True). split; [|done].
  by apply (restricted_ext (fun _ => True) _ e e); [apply restricted_refl|..].
Qed.

Lemma keeps_from_trans c e e' e'' :
  keeps_from c e e' -> keeps_from c e' e'' -> keeps_from c e e''.
Proof.
  intros (P & HP & HP') (Q & HQ & HQ'). exists (fun r => P r /\ Q r).
  split; [by eapply restricted_trans|auto].
Qed.

Lemma keeps_from_dag_ok c e e' : keeps_from c e e' -> dag_ok e -> dag_ok e'.
Proof. intros (P & HP & _). by eapply restricted_dag_ok. Qed.

(** Dropping the rounds below [c], and writing outside the DAG part afterwards. *)
Lemma drop_below_keeps e e' c c' :
  dag_ok e -> c <= c' -> dag_part e' = dag_part (foldl drop_round e (rounds_below e c)) ->
  keeps_from c' e e'.
Proof.
  intros Hok Hc Hd. exists (fun r => c <= r). split; [|lia].
  eapply restricted_ext; [by apply drop_below_restricted|done|done].
Qed.

Lemma prune_old_rounds_spec e :
  dag_ok e ->
  keeps_from (last_committed_round e) e (prune_old_rounds e) /\
  prune_part (prune_old_rounds e) = prune_part e.
Proof.
  intros Hok. unfold prune_old_rounds. case_bool_decide; [by split; [apply keeps_from_same|]|].
  set (c := Z.min _ _).
  pose proof (drop_below_keeps e (foldl drop_round e (rounds_below e c)) c
                (last_committed_round e) Hok ltac:(lia) eq_refl) as Hk.
  destruct (drop_rounds_eq e (rounds_below e c)) as (d & x & a & He). rewrite He in *.
  case_bool_decide; (split; [|done]); [|done].
  eapply keeps_from_trans; [exact Hk|by apply keeps_from_same].
Qed.

Lemma prune_below_round_spec e r c :
  dag_ok e -> 0 <= retained_rounds e -> r <= c ->
  keeps_from c e (prune_below_round e r).2 /\
  prune_part (prune_below_round e r).2 = prune_part e.
Proof.
  intros Hok Hret Hrc. unfold prune_below_round.
  case_bool_decide; [by split; [apply keeps_from_same|]|].
  set (cut := r - retained_rounds e).
  pose proof (drop_below_keeps e (foldl drop_round e (rounds_below e cut)) cut c Hok
                ltac:(lia) eq_refl) as Hk.
  destruct (drop_rounds_eq e (rounds_below e cut)) as (d & x & a & He). rewrite He in *.
  cbn [snd]. case_bool_decide; (split; [|done]);
    (eapply keeps_from_trans; [exact Hk|by apply keeps_from_same]).
Qed.

Lemma slash_withholding_ok m s l :
  vs_wf s -> exists s', foldl (slash_withholding m) (Ok s) l = Ok s' /\ rtc set_change s s'.
Proof.
  revert s. induction l as [|x l IH]; intros s Hwf; cbn [foldl].
  { exists s. split; [done|constructor]. }
  unfold slash_withholding at 2. cbn [mbind outcome_bind].
  destruct (report_offense s _ _ _ _ _) as [[record s1]| |] eqn:Hr.
  - assert (set_change s s1) as H1 by (by eapply change_report).
    apply report_offense_amount in Hr as Hpos.
    destruct (slashed_members_ok s1 (wr_validator x) (sr_slash_amount record)) as (s2 & H2 & Hwf2 & _).
    { by eapply set_change_wf. } { done. }
    rewrite H2. destruct (IH s2 Hwf2) as (s' & -> & Hs'). exists s'. split; [done|].
    eapply rtc_l; [done|]. eapply rtc_l; [by eapply change_slash|done].
  - by apply IH.
  - by apply report_offense_no_panic in Hr.
Qed.

Lemma settle_parts e tx p :
  dag_part (settle_lock e tx p) = dag_part e /\ prune_part (settle_lock e tx p) = prune_part e.
Proof. done. Qed.

Lemma expire_locks_parts e now timeout :
  dag_part (expire_locks e now timeout).2 = dag_part e /\
  prune_part (expire_locks e now timeout).2 = prune_part e.
Proof.
  unfold expire_locks. cbn [snd]. generalize (fst <$> filter (fun kp : Hash256 * CrossShardProof =>
    lock_expired now timeout (current_round e) kp.2 = true) (map_to_list (pending_cross_shard e))).
  intros l. revert e. induction l as [|h l IH]; intros e; cbn [foldl]; [done|].
  destruct (IH (expire_one e h)) as [-> ->]. unfold expire_one. by case_match.
Qed.

Lemma expire_parts e now :
  dag_part (expire_stale_locks e now).2 = dag_part e /\
  prune_part (expire_stale_locks e now).2 = prune_part e.
Proof. apply expire_locks_parts. Qed.

Lemma expire_timeout_parts e secs now :
  dag_part (expire_stale_locks_with_timeout e secs now).2 = dag_part e /\
  prune_part (expire_stale_locks_with_timeout e secs now).2 = prune_part e.
Proof. apply expire_locks_parts. Qed.

Lemma max_or_zero_le l c : 0 <= c -> Forall (fun x => x < c) l -> max_or_zero l <= c.
Proof. intros Hc. induction 1; simpl; lia. Qed.

(** What [after_commits] does to an engine whose decisions are made: the active
    set may be slashed and rounds below the cursor go. *)
Lemma after_commits_spec e l :
  dag_ok e -> vs_wf (validator_set e) -> 0 <= retained_rounds e ->
  max_or_zero (round <$> l) <= last_committed_round e ->
  exists e' s, after_commits e l = Ok e' /\ rtc set_change (validator_set e) s /\
    keeps_from (last_committed_round e) e e' /\
    prune_part e' = prune_part (e <| validator_set := s |>).
Proof.
  intros Hok Hwf Hret Hmax. unfold after_commits. case_bool_decide.
  { exists e, (validator_set e). split_and!; try done. by apply keeps_from_same. }
  assert (exists s, check_withholding e (max_or_zero (round <$> l)) = Ok (e <| validator_set := s |>)
                    /\ rtc set_change (validator_set e) s) as (s & -> & Hs).
  { unfold check_withholding. case_bool_decide.
    - destruct (slash_withholding_ok (max_or_zero (round <$> l)) (validator_set e)
        (detect_withholding (withholding_detector e) 100) Hwf) as (s & -> & ?). by exists s.
    - exists (validator_set e). split; [by destruct e|constructor]. }
  cbn [mbind outcome_bind]. set (e1 := e <| validator_set := s |>).
  assert (dag_ok e1) as Hok1 by (by apply (dag_ok_ext e)).
  destruct (prune_old_rounds_spec e1 Hok1) as (Hk1 & Hp1).
  apply keeps_from_dag_ok in Hk1 as Hok2; [|done].
  destruct (prune_below_round_spec (prune_old_rounds e1) (max_or_zero (round <$> l))
              (last_committed_round e) Hok2) as (Hk2 & Hp2); [|done|].
  { by rewrite (f_equal snd Hp1 : retained_rounds _ = _). }
  eexists _, s. split; [done|]. split; [done|]. split; [|by rewrite Hp2, Hp1].
  eapply keeps_from_trans; [|exact Hk2]. exact Hk1.
Qed.

Lemma commit_decisions_spec e maximum :
  dag_ok e -> vs_wf (frozen_validator_set e) -> u64 (last_committed_round e) ->
  u64 (current_round e) -> 2 <= current_round e ->
  forall l e', commit_decisions e maximum = Ok (l, e') ->
  exists r', e' = e <| last_committed_round := r' |>
                    <| committed := foldl append_committed (committed e) l |> /\
    last_committed_round e <= r' <= Z.max (last_committed_round e) (current_round e - 1) /\
    Forall (fun b => round b < r') l.
Proof.
  intros Hok Hwf Hl Hc H2 l e'. unfold commit_decisions. intros ([l' r'] & Hscan & [= <- <-])%bind_Ok.
  exists r'. split; [done|]. simpl. unfold u64, saturating_sub, u64_max in *.
  apply commit_scan_cursor in Hscan; [|done|done|lia|unfold u64_max; lia|constructor].
  destruct Hscan as [? ?]. split; [lia|done].
Qed.

(** The only writes of a commit: the cursor moves up to [r'], the active set may
    be slashed, and rounds below the cursor may go. *)
Definition commit_effect e e' : Prop :=
  exists r' s, last_committed_round e <= r' <= Z.max (last_committed_round e) (current_round e - 1) /\
    rtc set_change (validator_set e) s /\ keeps_from r' e e' /\
    prune_part e' = prune_part (e <| last_committed_round := r' |> <| validator_set := s |>).

Lemma commit_effect_idle e : commit_effect e e.
Proof.
  exists (last_committed_round e), (validator_set e).
  split_and!; [lia|lia|constructor|by apply keeps_from_same|done].
Qed.

Lemma try_commit_limited_effect e maximum live now l e' :
  dag_ok e -> vs_wf (validator_set e) -> vs_wf (frozen_validator_set e) ->
  u64 (last_committed_round e) -> u64 (current_round e) -> 0 <= retained_rounds e ->
  try_commit_limited e maximum live now = Ok (l, e') -> commit_effect e e'.
Proof.
  intros Hok Hwf Hwf' Hl Hc Hret. unfold try_commit_limited.
  case_bool_decide; [intros [= <- <-]; apply commit_effect_idle|].
  case_bool_decide; [intros [= <- <-]; apply commit_effect_idle|].
  intros ([l1 e1] & Hd & Hrest)%bind_Ok.
  apply commit_decisions_spec in Hd as (r' & He1 & Hr' & Hrounds); [|done..|lia].
  destruct live; cbn [negb fst snd] in Hrest.
  2:{ injection Hrest as <- <-. exists r', (validator_set e). subst e1.
      split_and!; [lia|lia|constructor|by apply keeps_from_same|done]. }
  apply bind_Ok in Hrest as (e2 & Hafter & Hfin).
  assert (e' = (expire_stale_locks_with_timeout (expire_stale_locks e2 now).2 30 now).2) as ->
    by congruence. clear Hfin.
  assert (dag_ok e1) as Hok1 by (subst e1; by apply (dag_ok_ext e)).
  destruct (after_commits_spec e1 l1) as (e2' & s & Ha & Hs & Hk & Hp); [done|by subst e1|by subst e1| |].
  { subst e1. apply max_or_zero_le; [unfold u64 in *; simpl; lia|]. by apply Forall_fmap. }
  rewrite Hafter in Ha. injection Ha as <-.
  destruct (expire_parts e2 now) as [Hd1 Hp1].
  destruct (expire_timeout_parts (expire_stale_locks e2 now).2 30 now) as [Hd2 Hp2].
  exists r', s. split; [done|]. split; [by subst e1|]. split.
  - eapply keeps_from_trans; [|apply keeps_from_same; exact Hd2].
    eapply keeps_from_trans; [|apply keeps_from_same; exact Hd1]. by subst e1.
  - rewrite Hp2, Hp1, Hp. by subst e1.
Qed.

(** With a cursor that leaves room for the scan, [try_commit] returns. *)
Lemma try_commit_limited_runs e maximum live now :
  dag_ok e -> vs_wf (validator_set e) -> vs_wf (frozen_validator_set e) ->
  u64 (last_committed_round e) -> u64 (current_round e) -> 0 <= retained_rounds e ->
  2 <= current_round e < u64_max -> epoch (frozen_validator_set e) <> 0 ->
  let s := frozen_validator_set e in
  exists l e', try_commit_limited e maximum live now = Ok (l, e') /\
    decided e s (leader_order s) (current_round e - 2) (list_to_set (committed e))
      (last_committed_round e) (last_committed_round e') l.
Proof.
  intros Hok Hwf Hwf' Hl Hc Hret Hcur Hep s. unfold try_commit_limited.
  rewrite bool_decide_false, bool_decide_false by lia. unfold u64 in *.
  destruct (commit_scan_spec e s Hwf' (leader_order s) (bool_decide (is_Some (consensus_domain e)))
    (saturating_sub (current_round e) 2) (list_to_set (committed e)) maximum
    (rounds_between (last_committed_round e) (saturating_sub (current_round e) 2))
    (last_committed_round e) []) as (r' & l & Hscan & Hdec);
    [lia|unfold saturating_sub; lia|].
  replace (saturating_sub (current_round e) 2) with (current_round e - 2) in Hdec
    by (unfold saturating_sub; lia).
  set (e1 := e <| last_committed_round := r' |>
               <| committed := foldl append_committed (committed e) l |>).
  assert (commit_decisions e maximum = Ok (l, e1)) as Hd
    by (unfold commit_decisions; fold s; by rewrite Hscan).
  rewrite Hd. cbn [mbind outcome_bind fst snd]. destruct live; cbn [negb]; [|by exists l, e1].
  apply commit_decisions_spec in Hd as (r1 & He1 & Hr1 & Hrounds); [|done..|lia].
  assert (r1 = r') as -> by (apply (f_equal last_committed_round) in He1; by simpl in He1).
  destruct (after_commits_spec e1 l) as (e2 & s2 & -> & _ & _ & Hp); [by apply (dag_ok_ext e)|done|done| |].
  { apply max_or_zero_le; [simpl; lia|]. by apply Forall_fmap. }
  cbn [mbind outcome_bind]. eexists l, _. split; [reflexivity|].
  destruct (expire_parts e2 now) as [_ Hp1].
  destruct (expire_timeout_parts (expire_stale_locks e2 now).2 30 now) as [_ Hp2].
  assert (last_committed_round (expire_stale_locks_with_timeout (expire_stale_locks e2 now).2 30 now).2
          = r') as ->; [|done].
  rewrite Hp1 in Hp2. rewrite Hp in Hp2.
  exact (f_equal (fun t => t.1.1.1.1.1.1.1.1.1) Hp2).
Qed.

End Effect.
