(* ===== verification/History.v ===== *)
(** * Certificates held by the engine and history transfer
    (crates/arc-consensus/src/lib.rs lines 2181-2513, 2520-2592, 3700-3760)

    Registration of absence and finality certificates, the export of a finality
    proof, and the import of a run of history from a peer.  The [BTreeMap] of a
    run is an association list kept in ascending key order. *)

From S2P Require Import Prelude Crypto Validators Dag Security Blocks Certificates.
From S2P Require Import DataAvailability Engine.

Section History.
Context `{Crypto}.

(** ** Certificates *)

Definition register_skip_certificate (e : ConsensusEngine) (c : SkipCertificate)
    : outcome CertificateError (Z * ConsensusEngine) :=
  d ← ok_or (certificate_domain e) WrongValidatorSet;
  signing ← sc_verify c d (frozen_validator_set e);
  Ok (signing, e <| skip_certificates :=
                      <[(sc_round c, sc_absentee c) := c]> (skip_certificates e) |>).

Definition has_skip_certificate (e : ConsensusEngine) (r : Z) (absentee : Address) : bool :=
  bool_decide (is_Some (skip_certificates e !! (r, absentee))).

Definition register_finality_certificate (e : ConsensusEngine) (c : FinalityCertificate)
    : outcome CertificateError (Z * ConsensusEngine) :=
  d ← ok_or (certificate_domain e) WrongValidatorSet;
  signing ← fc_verify c d (frozen_validator_set e);
  _ ← match finality_certificates e !! fc_height c with
      | Some held => require (bool_decide (fc_block_hash held = fc_block_hash c))
                       (ConflictingFinality (fc_height c) (fc_block_hash held) (fc_block_hash c))
      | None => Ok ()
      end;
  let height := fc_height c in
  let certs := <[height := c]> (finality_certificates e) in
  let highest := Z.max (highest_finalized e) height in
  let certs' := if bool_decide (height mod FINALITY_PRUNE_EVERY = 0)
                then filter (fun hc => saturating_sub highest (retained_finality_heights e) <= hc.1)
                       certs
                else certs in
  Ok (signing, e <| finality_certificates := certs' |> <| highest_finalized := highest |>).

Definition highest_finalized_height (e : ConsensusEngine) : option Z :=
  if bool_decide (0 < highest_finalized e) || bool_decide (is_Some (finality_certificates e !! 0))
  then Some (highest_finalized e) else None.

Definition set_retained_finality_heights (e : ConsensusEngine) (heights : Z) : ConsensusEngine :=
  e <| retained_finality_heights := Z.max heights FINALITY_PRUNE_EVERY |>.

Definition finalized_block_at (e : ConsensusEngine) (height : Z) : option Hash256 :=
  fc_block_hash <$> finality_certificates e !! height.

(** The export loop: the signatures re-verified and their stake. *)
Fixpoint export_votes (s : ValidatorSet) (stake : Z) (sigs : list (Address * list Z))
    (votes : list FinalityVote) : option (Z * list (Address * list Z)) :=
  match votes with
  | [] => Some (stake, sigs)
  | v :: votes' =>
      member ← get_validator s (fv_voter v);
      if negb (is_ok (sig_verify (fv_signature v) (fv_transcript v) (fv_voter v))) then None
      else
        stake' ← checked_add stake (v_stake member);
        bytes ← bincode_signature (fv_signature v);
        export_votes s stake' (sigs ++ [(fv_voter v, bytes)]) votes'
  end.

Definition generate_finality_proof (e : ConsensusEngine) (block_hash : Hash256) (height : Z)
    : option FinalityProof :=
  c ← finality_certificates e !! height;
  if negb (bool_decide (fc_block_hash c = block_hash)) then None
  else
    let s := frozen_validator_set e in
    r ← export_votes s 0 [] (fc_votes c);
    if bool_decide (r.1 < quorum s) then None
    else Some (mkFinalityProof block_hash height height r.2 r.1 (total_stake s)).

(** ** History import *)

Notation round_map := (list (Z * list DagBlock)).

(** [by_round.entry(round).or_default().push(block)]. *)
Fixpoint push_round (b : DagBlock) (m : round_map) : round_map :=
  match m with
  | [] => [(round b, [b])]
  | (r, bs) :: m' =>
      if bool_decide (round b = r) then (r, bs ++ [b]) :: m'
      else if bool_decide (round b < r) then (round b, [b]) :: m
      else (r, bs) :: push_round b m'
  end.

Definition group_by_round (blocks : list DagBlock) : round_map :=
  foldl (fun m b => push_round b m) [] blocks.

Definition round_blocks (m : round_map) (r : Z) : option (list DagBlock) :=
  snd ∘ snd <$> list_find (fun rb => rb.1 = r) m.

(** [by_round.insert] at a key that is present. *)
Definition replace_round (r : Z) (bs : list DagBlock) (m : round_map) : round_map :=
  (fun rb => if bool_decide (rb.1 = r) then (r, bs) else rb) <$> m.

(** Stake of the distinct known authors of the supporters of a base block. *)
Fixpoint supporting_stake (s : ValidatorSet) (candidate : Hash256) (seen : gset Address)
    (next : list DagBlock) : Z :=
  match next with
  | [] => 0
  | b :: next' =>
      if bool_decide (candidate ∈ parents b) && bool_decide (author b ∉ seen)
      then wrapping_add (match get_validator s (author b) with Some v => v_stake v | None => 0 end)
             (supporting_stake s candidate ({[author b]} ∪ seen) next')
      else supporting_stake s candidate seen next'
  end.

(** The run a restarting node keeps: nothing below its base, and at the base only
    blocks that authentic next-round blocks of more than f stake name. *)
Definition restrict_to_base (e : ConsensusEngine) (base : Z) (m : round_map)
    : outcome ConsensusError round_map :=
  let m' := filter (fun rb => base <= rb.1) m in
  _ ← require (negb (bool_decide (m' = [])))
        (InvalidBlock "history is entirely below this node's commit cursor");
  match round_blocks m' base with
  | None => Ok m'
  | Some base_blocks =>
      let s := validator_set e in
      let one_honest := saturating_add (saturating_sub (total_stake s) (quorum s)) 1 in
      let next := filter (fun b => is_authentic_committee_block e b = true)
                    (default [] (round_blocks m' (saturating_add base 1))) in
      let supported := filter (fun b => one_honest <= supporting_stake s (hash b) ∅ next)
                         base_blocks in
      _ ← require (negb (bool_decide (supported = [])))
            (InvalidBlock "history names no base-round block its next round supports");
      Ok (replace_round base supported m')
  end.

(** Stake of the distinct known authors of a round, saturating, and the authors. *)
Fixpoint round_stake (s : ValidatorSet) (seen : gset Address) (stake : Z) (bs : list DagBlock)
    : gset Address * Z :=
  match bs with
  | [] => (seen, stake)
  | b :: bs' =>
      match get_validator s (author b) with
      | Some v =>
          if bool_decide (author b ∈ seen) then round_stake s seen stake bs'
          else round_stake s ({[author b]} ∪ seen) (saturating_add stake (v_stake v)) bs'
      | None => round_stake s seen stake bs'
      end
  end.

Definition thin_round (e : ConsensusEngine) (rb : Z * list DagBlock) : bool :=
  let s := validator_set e in
  let t := round_stake s ∅ 0 rb.2 in
  let excused := forallb (fun v => negb (bool_decide (0 < v_stake v))
                                   || (bool_decide (v_address v ∈ t.1)
                                       || is_excused_for_round e rb.1 (v_address v)))
                   (validators s) in
  bool_decide (t.2 < quorum s) && negb excused.

Fixpoint take_until_thin (e : ConsensusEngine) (m : round_map) : round_map :=
  match m with
  | [] => []
  | rb :: m' => if thin_round e rb then [] else rb :: take_until_thin e m'
  end.

(** The checks on the shape of a run; the rounds that will be applied. *)
Definition plan_import (e : ConsensusEngine) (blocks : list DagBlock) (max_rounds : Z)
    : outcome ConsensusError round_map :=
  _ ← require (negb (bool_decide (blocks = []))) (InvalidBlock "empty history");
  let start := current_round e in
  let m := group_by_round blocks in
  m1 ← match open_restart_base_round e with
       | Some base => restrict_to_base e base m
       | None => Ok m
       end;
  first ← expect (fst <$> head m1);
  lst ← expect (fst <$> last m1);
  _ ← require (negb (bool_decide (start < first)))
        (InvalidBlock "history starts after the round this node is waiting at");
  _ ← require (negb (bool_decide (max_rounds < saturating_sub lst start)))
        (InvalidBlock "history spans more rounds than the bound");
  _ ← require (forallb (fun r => bool_decide (is_Some (round_blocks m1 r)))
                 (seqZ first (lst - first + 1)))
        (InvalidBlock "history has a gap");
  let kept := take_until_thin e m1 in
  _ ← require (negb (bool_decide (kept = [])))
        (InvalidBlock "first history round is below quorum");
  Ok kept.

(** How a loop of the import ends. *)
Inductive flow := Continue | BreakRounds | ReturnError (x : ConsensusError) | AbortImport.

(** The blocks of one round, in order; [inserted] counts the new ones. *)
Fixpoint import_blocks {S} (e : ConsensusEngine) (st : S) (persist : persist_hook S)
    (base_exception : bool) (inserted : Z) (bs : list DagBlock)
    : flow * S * ConsensusEngine * Z :=
  match bs with
  | [] => (Continue, st, e, inserted)
  | b :: bs' =>
      match receive_block_inner_with_persistence e st b base_exception persist with
      | (Ok _, st', e') => import_blocks e' st' persist base_exception (inserted + 1) bs'
      | (Err DuplicateBlock, st', e') => import_blocks e' st' persist base_exception inserted bs'
      | (Err (HistoryPersistence msg), st', e') =>
          (ReturnError (HistoryPersistence msg), st', e', inserted)
      | (Err _, st', e') => (BreakRounds, st', e', inserted)
      | (Panic, st', e') => (AbortImport, st', e', inserted)
      end
  end.

(** The rounds in ascending order, advancing after each round that is reached. *)
Fixpoint import_rounds {S} (e : ConsensusEngine) (st : S) (persist : persist_hook S)
    (base : option Z) (now reached inserted : Z) (m : round_map)
    : flow * S * ConsensusEngine * Z * Z :=
  match m with
  | [] => (Continue, st, e, reached, inserted)
  | (r, bs) :: m' =>
      match import_blocks e st persist (bool_decide (base = Some r)) inserted bs with
      | (Continue, st', e', inserted') =>
          if bool_decide (reached <= r) then
            match advance_round e' now with
            | Ok (true, e'') =>
                import_rounds e'' st' persist base now (current_round e'') inserted' m'
            | Ok (false, e'') => import_rounds e'' st' persist base now reached inserted' m'
            | _ => (AbortImport, st', e', reached, inserted')
            end
          else import_rounds e' st' persist base now reached inserted' m'
      | (f, st', e', inserted') => (f, st', e', reached, inserted')
      end
  end.

Definition import_history_with_persistence {S} (e : ConsensusEngine) (st : S)
    (blocks : list DagBlock) (max_rounds : Z) (persist : persist_hook S) (now : Z)
    : outcome ConsensusError Z * S * ConsensusEngine :=
  match plan_import e blocks max_rounds with
  | Err x => (Err x, st, e)
  | Panic => (Panic, st, e)
  | Ok m =>
      let start := current_round e in
      match import_rounds e st persist (open_restart_base_round e) now start 0 m with
      | (ReturnError x, st', e', _, _) => (Err x, st', e')
      | (AbortImport, st', e', _, _) => (Panic, st', e')
      | (_, st', e', reached, inserted) =>
          if bool_decide (inserted = 0) && bool_decide (reached = start)
          then (Err (InvalidBlock "history added nothing this node did not already have"), st', e')
          else (Ok reached, st', e')
      end
  end.

Definition import_history (e : ConsensusEngine) (blocks : list DagBlock) (max_rounds now : Z)
    : outcome ConsensusError Z * ConsensusEngine :=
  let '(r, _, e') := import_history_with_persistence e () blocks max_rounds no_persistence now in
  (r, e').

End History.
