(* ===== verification/Pending.v ===== *)
(** * Blocks that arrived early (crates/arc-consensus/src/pending.rs)

    The bounded holding area for authenticated blocks whose parents or round are
    not here yet.  An [Instant] is a number of milliseconds; transactions are
    opaque to the area.  [pending_ok] ties its four indexes together. *)

From S2P Require Import Prelude Crypto Validators Dag Security Blocks Certificates.
From S2P Require Import DataAvailability Engine.

Definition MAX_PENDING_BLOCKS : nat := 2048.
Definition MAX_PENDING_PER_AUTHOR : Z := 256.
Definition MAX_PENDING_AGE : Z := 30000.

Section Pending.
Context {Tx : Type}.

Record Held := mkHeld {
  held_block : DagBlock;
  held_transactions : list Tx;
  held_missing : gset Hash256;
  held_since : Z;
}.

#[global] Instance eta_Held : Eta Held := fun h =>
  mkHeld (held_block h) (held_transactions h) (held_missing h) (held_since h).

Record PendingBlocks := mkPendingBlocks {
  held : gmap Hash256 Held;
  waiting_on : gmap Hash256 (gset Hash256);
  order : gset (Z * Hash256);
  per_author : gmap Address Z;
  evicted_full : Z;
  evicted_expired : Z;
  refused_per_author : Z;
}.

#[global] Instance eta_PendingBlocks : Eta PendingBlocks := fun p =>
  mkPendingBlocks (held p) (waiting_on p) (order p) (per_author p) (evicted_full p)
    (evicted_expired p) (refused_per_author p).

Definition pending_new : PendingBlocks := mkPendingBlocks ∅ ∅ ∅ ∅ 0 0 0.

Definition pending_len (p : PendingBlocks) : nat := size (held p).
Definition pending_contains (p : PendingBlocks) (h : Hash256) : bool :=
  bool_decide (is_Some (held p !! h)).

(** The keys of the [BTreeMap] in ascending order. *)
Definition arrival_le (x y : Z * Hash256) : Prop := x.1 < y.1 \/ (x.1 = y.1 /\ x.2 <= y.2).

#[global] Instance arrival_le_dec x y : Decision (arrival_le x y).
Proof. unfold arrival_le. apply _. Defined.

Definition arrivals (p : PendingBlocks) : list (Z * Hash256) :=
  merge_sort arrival_le (elements (order p)).

(** ** Removing *)

(** [*count -= 1] wraps in the release profile. *)
Definition release_author (m : gmap Address Z) (a : Address) : gmap Address Z :=
  match m !! a with
  | Some count =>
      let count' := (count - 1) mod (u64_max + 1) in
      if bool_decide (count' = 0) then delete a m else <[a := count']> m
  | None => m
  end.

Definition unlink (h : Hash256) (m : gmap Hash256 (gset Hash256)) (parent : Hash256)
    : gmap Hash256 (gset Hash256) :=
  match m !! parent with
  | Some set => if bool_decide (set ∖ {[h]} = ∅) then delete parent m
                else <[parent := set ∖ {[h]}]> m
  | None => m
  end.

Definition pending_remove (p : PendingBlocks) (h : Hash256) : option Held * PendingBlocks :=
  match held p !! h with
  | None => (None, p)
  | Some x =>
      (Some x,
       p <| held := delete h (held p) |>
         <| order := order p ∖ {[(held_since x, h)]} |>
         <| per_author := release_author (per_author p) (author (held_block x)) |>
         <| waiting_on := foldl (unlink h) (waiting_on p) (elements (held_missing x)) |>)
  end.

(** ** Holding *)

(** The [while] loop of [hold]: drop the oldest block until there is room. *)
Fixpoint make_room (fuel : nat) (p : PendingBlocks) : PendingBlocks :=
  match fuel with
  | O => p
  | S fuel' =>
      if bool_decide (MAX_PENDING_BLOCKS <= size (held p))%nat then
        match arrivals p with
        | [] => p
        | (_, oldest) :: _ =>
            let p' := (pending_remove p oldest).2 in
            make_room fuel' (p' <| evicted_full := wrapping_add (evicted_full p') 1 |>)
        end
      else p
  end.

Definition link (h : Hash256) (m : gmap Hash256 (gset Hash256)) (parent : Hash256)
    : gmap Hash256 (gset Hash256) :=
  <[parent := {[h]} ∪ default ∅ (m !! parent)]> m.

Definition pending_hold (p : PendingBlocks) (b : DagBlock) (txs : list Tx)
    (missing : list Hash256) (now : Z) : bool * PendingBlocks :=
  if bool_decide (is_Some (held p !! hash b)) then (false, p)
  else if bool_decide (MAX_PENDING_PER_AUTHOR <= default 0 (per_author p !! author b))
  then (false, p <| refused_per_author := wrapping_add (refused_per_author p) 1 |>)
  else
    let p1 := make_room (S (size (held p))) p in
    let set := list_to_set missing in
    (true,
     p1 <| waiting_on := foldl (link (hash b)) (waiting_on p1) (elements set) |>
        <| per_author := <[author b := default 0 (per_author p1 !! author b) + 1]> (per_author p1) |>
        <| order := {[(now, hash b)]} ∪ order p1 |>
        <| held := <[hash b := mkHeld b txs set now]> (held p1) |>).

(** ** Releasing *)

Definition by_round_le (x y : DagBlock * list Tx) : Prop := round x.1 <= round y.1.

#[global] Instance by_round_le_dec x y : Decision (by_round_le x y).
Proof. unfold by_round_le. apply _. Defined.

(** One child of [release_on]: it loses the parent and leaves when it was the
    last one missing. *)
Definition release_child (parent : Hash256) (acc : list (DagBlock * list Tx) * PendingBlocks)
    (child : Hash256) : list (DagBlock * list Tx) * PendingBlocks :=
  let '(ready, p) := acc in
  match held p !! child with
  | None => (ready, p)
  | Some x =>
      let x' := x <| held_missing := held_missing x ∖ {[parent]} |> in
      let p1 := p <| held := <[child := x']> (held p) |> in
      if bool_decide (held_missing x' = ∅) then
        match pending_remove p1 child with
        | (Some y, p2) => (ready ++ [(held_block y, held_transactions y)], p2)
        | (None, p2) => (ready, p2)
        end
      else (ready, p1)
  end.

Definition release_on (p : PendingBlocks) (parent : Hash256)
    : list (DagBlock * list Tx) * PendingBlocks :=
  match waiting_on p !! parent with
  | None => ([], p)
  | Some children =>
      let p1 := p <| waiting_on := delete parent (waiting_on p) |> in
      let '(ready, p2) := foldl (release_child parent) ([], p1) (elements children) in
      (merge_sort by_round_le ready, p2)
  end.

(** [filter_map(|h| self.remove(&h))] over a list of hashes. *)
Definition remove_into (acc : list (DagBlock * list Tx) * PendingBlocks) (h : Hash256)
    : list (DagBlock * list Tx) * PendingBlocks :=
  match pending_remove acc.2 h with
  | (Some x, p') => (acc.1 ++ [(held_block x, held_transactions x)], p')
  | (None, p') => (acc.1, p')
  end.

Definition remove_all (p : PendingBlocks) (hs : list Hash256)
    : list (DagBlock * list Tx) * PendingBlocks :=
  let '(out, p') := foldl remove_into ([], p) hs in
  (merge_sort by_round_le out, p').

Definition release_up_to_round (p : PendingBlocks) (current : Z) :=
  remove_all p
    (fst <$> filter (fun hx => held_missing hx.2 = ∅ /\
                               round (held_block hx.2) <= saturating_add current 1)
               (map_to_list (held p))).

Definition drain_all (p : PendingBlocks) := remove_all p (fst <$> map_to_list (held p)).

(** [keys().take_while(..)]: the arrivals too old to keep. *)
Fixpoint take_stale (now : Z) (l : list (Z * Hash256)) : list Hash256 :=
  match l with
  | [] => []
  | (since, h) :: l' =>
      if bool_decide (MAX_PENDING_AGE < Z.max 0 (now - since)) then h :: take_stale now l' else []
  end.

Definition expire (p : PendingBlocks) (now : Z) : Z * PendingBlocks :=
  let stale := take_stale now (arrivals p) in
  let p' := foldl (fun q h => (pending_remove q h).2) p stale in
  (Z.of_nat (length stale),
   p' <| evicted_expired := wrapping_add (evicted_expired p') (Z.of_nat (length stale)) |>).

Definition fetch_targets (p : PendingBlocks) : list (Address * Z) :=
  let note (m : gmap Address Z) (x : Held) :=
    let from := saturating_sub (round (held_block x)) 1 in
    <[author (held_block x) := match m !! author (held_block x) with
                               | Some r => Z.min r from
                               | None => from
                               end]> m in
  map_to_list (foldl note ∅ (snd <$> map_to_list (held p))).

(** ** The decision to hold *)

Inductive Offered :=
| Accepted (b : DagBlock) (txs : list Tx)
| OfferedHeld
| NotHeld (x : ConsensusError)
| Rejected (x : ConsensusError).

Section Offer.
Context `{Crypto}.

Definition hold_if_early (e : ConsensusEngine) (p : PendingBlocks) (b : DagBlock) (txs : list Tx)
    (error : ConsensusError) (now : Z) : Offered * PendingBlocks :=
  match error with
  | MissingParents _ _ | RoundTooFarAhead _ _ =>
      match absent_parents e b with
      | None => (Rejected error, p)
      | Some missing =>
          match pending_hold p b txs missing now with
          | (true, p') => (OfferedHeld, p')
          | (false, p') => (NotHeld error, p')
          end
      end
  | other => (Rejected other, p)
  end.

Definition receive_or_hold (e : ConsensusEngine) (p : PendingBlocks) (b : DagBlock)
    (txs : list Tx) (now : Z) : outcome ConsensusError Offered * PendingBlocks * ConsensusEngine :=
  match receive_block e b with
  | (Ok _, e') => (Ok (Accepted b txs), p, e')
  | (Err error, e') =>
      let '(o, p') := hold_if_early e' p b txs error now in (Ok o, p', e')
  | (Panic, e') => (Panic, p, e')
  end.

End Offer.

End Pending.

Arguments Held : clear implicits.
Arguments PendingBlocks : clear implicits.
Arguments Offered : clear implicits.

(** ** The invariant of the area *)

Section Indexes.
Implicit Types m : gmap Hash256 (gset Hash256).

Definition waiters m (q : Hash256) : gset Hash256 := default ∅ (m !! q).

Definition no_empty m : Prop := map_Forall (fun _ set => set <> ∅) m.

Lemma waiters_unlink h m q q' :
  waiters (unlink h m q) q' = if decide (q' = q) then waiters m q' ∖ {[h]} else waiters m q'.
Proof.
  unfold unlink, waiters. destruct (m !! q) as [set|] eqn:Hq; case_decide as Hd; subst;
    rewrite ?Hq; try case_bool_decide as He;
    rewrite ?lookup_delete_eq, ?lookup_delete_ne, ?lookup_insert_eq, ?lookup_insert_ne by done;
    simpl; try done; set_solver.
Qed.

Lemma no_empty_unlink h m q : no_empty m -> no_empty (unlink h m q).
Proof.
  intros Hm. unfold unlink. destruct (m !! q) as [set|]; [|done].
  case_bool_decide; [by apply map_Forall_delete|by apply map_Forall_insert_2].
Qed.

Lemma waiters_unlink_all h m l q :
  waiters (foldl (unlink h) m l) q = if decide (q ∈ l) then waiters m q ∖ {[h]} else waiters m q.
Proof.
  revert m. induction l as [|x l IH]; intros m; cbn [foldl].
  - case_decide as Hq; [by apply not_elem_of_nil in Hq|done].
  - rewrite IH, waiters_unlink. repeat case_decide; set_solver.
Qed.

Lemma no_empty_unlink_all h m l : no_empty m -> no_empty (foldl (unlink h) m l).
Proof. revert m. induction l as [|x l IH]; intros m Hm; simpl; [done|]. by apply IH, no_empty_unlink. Qed.

Lemma waiters_link h m q q' :
  waiters (link h m q) q' = if decide (q' = q) then {[h]} ∪ waiters m q' else waiters m q'.
Proof.
  unfold link, waiters. case_decide; subst; [by rewrite lookup_insert_eq|].
  by rewrite lookup_insert_ne by done.
Qed.

Lemma waiters_link_all h m l q :
  waiters (foldl (link h) m l) q = if decide (q ∈ l) then {[h]} ∪ waiters m q else waiters m q.
Proof.
  revert m. induction l as [|x l IH]; intros m; cbn [foldl].
  - case_decide as Hq; [by apply not_elem_of_nil in Hq|done].
  - rewrite IH, waiters_link. repeat case_decide; set_solver.
Qed.

Lemma no_empty_link_all h m l : no_empty m -> no_empty (foldl (link h) m l).
Proof.
  revert m. induction l as [|x l IH]; intros m Hm; simpl; [done|].
  apply IH. apply map_Forall_insert_2; [set_solver|done].
Qed.

End Indexes.

Section PendingTheorems.
Context {Tx : Type}.
Implicit Types p : PendingBlocks Tx.

(** How many held blocks an author has. *)
Definition author_count (m : gmap Hash256 (Held Tx)) (a : Address) : nat :=
  size (filter (fun hx => author (held_block hx.2) = a) m).

(** The indexes agree with the blocks held.  [hide] names a parent whose waiters are
    being released and no longer indexed. *)
Record pending_wf (hide : option Hash256) p : Prop := {
  pend_key h x : held p !! h = Some x -> hash (held_block x) = h;
  pend_order t h : (t, h) ∈ order p <-> exists x, held p !! h = Some x /\ held_since x = t;
  pend_author a : per_author p !! a =
    if decide (author_count (held p) a = 0%nat) then None
    else Some (Z.of_nat (author_count (held p) a));
  pend_waiting q h : h ∈ waiters (waiting_on p) q <->
    exists x, held p !! h = Some x /\ q ∈ held_missing x /\ hide <> Some q;
  pend_nonempty : no_empty (waiting_on p);
  pend_size : (size (held p) <= MAX_PENDING_BLOCKS)%nat;
  pend_bound a : Z.of_nat (author_count (held p) a) <= MAX_PENDING_PER_AUTHOR;
}.

Definition pending_ok p : Prop := pending_wf None p.

Lemma per_author_count hide p a :
  pending_wf hide p -> default 0 (per_author p !! a) = Z.of_nat (author_count (held p) a).
Proof. intros Hok. rewrite (pend_author _ _ Hok). case_decide as H0; [by rewrite H0|done]. Qed.

Lemma pending_new_ok : pending_ok pending_new.
Proof.
  split; intros *; simpl; rewrite ?lookup_empty; try done.
  - set_solver.
  - unfold waiters. rewrite lookup_empty. set_solver.
  - rewrite map_size_empty. lia.
Qed.

Lemma author_count_insert (m : gmap Hash256 (Held Tx)) h x a :
  m !! h = None ->
  author_count (<[h := x]> m) a =
    ((if decide (author (held_block x) = a) then 1 else 0) + author_count m a)%nat.
Proof.
  intros Hh. unfold author_count. destruct (decide (author (held_block x) = a)) as [Ha|Ha].
  - rewrite map_filter_insert_True by exact Ha. rewrite map_size_insert_None; [lia|].
    apply map_lookup_filter_None. by left.
  - rewrite map_filter_insert_False by exact Ha. by rewrite delete_id.
Qed.

Lemma author_count_delete (m : gmap Hash256 (Held Tx)) h x a :
  m !! h = Some x ->
  author_count m a =
    ((if decide (author (held_block x) = a) then 1 else 0) + author_count (delete h m) a)%nat.
Proof.
  intros Hh. rewrite <- (insert_delete_id m h x Hh) at 1.
  rewrite author_count_insert by apply lookup_delete_eq. done.
Qed.

Lemma author_count_mono (m m' : gmap Hash256 (Held Tx)) a :
  m ⊆ m' -> (author_count m a <= author_count m' a)%nat.
Proof. intros Hm. apply map_subseteq_size. by apply map_filter_subseteq_mono. Qed.

Lemma release_author_ok hide p h x :
  pending_wf hide p -> held p !! h = Some x ->
  forall a, release_author (per_author p) (author (held_block x)) !! a =
    if decide (author_count (delete h (held p)) a = 0%nat) then None
    else Some (Z.of_nat (author_count (delete h (held p)) a)).
Proof.
  intros Hok Hh a. pose proof (pend_author _ _ Hok) as Hpa.
  pose proof (author_count_delete _ _ _ a Hh) as Hca.
  pose proof (author_count_delete _ _ _ (author (held_block x)) Hh) as Hcx.
  pose proof (pend_bound _ _ Hok (author (held_block x))) as Hb.
  rewrite decide_True in Hcx by done.
  unfold release_author. rewrite Hpa, decide_False by lia. cbn zeta.
  unfold MAX_PENDING_PER_AUTHOR in Hb. rewrite Z.mod_small by (unfold u64_max; lia).
  destruct (decide (author (held_block x) = a)) as [Ha|Ha]; [subst a|]; case_bool_decide as H0;
    rewrite ?lookup_delete_eq, ?lookup_delete_ne, ?lookup_insert_eq, ?lookup_insert_ne by done.
  - by rewrite decide_True by lia.
  - rewrite decide_False by lia. f_equal. lia.
  - rewrite Hpa. by rewrite Hca.
  - rewrite Hpa. by rewrite Hca.
Qed.

Lemma pending_remove_None p h : held p !! h = None -> (pending_remove p h).2 = p.
Proof. unfold pending_remove. by intros ->. Qed.

Lemma pending_remove_held p h : held (pending_remove p h).2 = delete h (held p).
Proof.
  unfold pending_remove. destruct (held p !! h) eqn:Hh; [done|]. simpl. by rewrite delete_id.
Qed.

Lemma pending_remove_wf hide p h : pending_wf hide p -> pending_wf hide (pending_remove p h).2.
Proof.
  intros Hok. destruct (held p !! h) as [x|] eqn:Hh; [|by rewrite pending_remove_None].
  unfold pending_remove. rewrite Hh. cbn [snd]. split; simpl.
  - intros h' y [_ Hy]%lookup_delete_Some. by eapply pend_key.
  - intros t h'. rewrite elem_of_difference, (pend_order _ _ Hok), not_elem_of_singleton.
    setoid_rewrite lookup_delete_Some. split.
    + intros [(y & Hy & Ht) Hne]. exists y. split; [split; [|done]|done]. intros ->. naive_solver.
    + intros (y & [Hne Hy] & Ht). split; [by exists y|]. naive_solver.
  - by eapply release_author_ok.
  - intros q h'. rewrite waiters_unlink_all. setoid_rewrite lookup_delete_Some.
    case_decide as Hq; [rewrite elem_of_difference, not_elem_of_singleton|];
      rewrite (pend_waiting _ _ Hok); rewrite elem_of_elements in Hq; naive_solver.
  - by apply no_empty_unlink_all, (pend_nonempty _ _ Hok).
  - rewrite map_size_delete_Some by (by eexists). pose proof (pend_size _ _ Hok). lia.
  - intros a. pose proof (pend_bound _ _ Hok a). rewrite (author_count_delete _ _ _ a Hh) in *.
    case_decide; lia.
Qed.

(** A change of the counters alone. *)
Lemma pending_wf_counters hide p p' :
  held p' = held p -> waiting_on p' = waiting_on p -> order p' = order p ->
  per_author p' = per_author p -> pending_wf hide p -> pending_wf hide p'.
Proof.
  intros E1 E2 E3 E4 [H1 H2 H3 H4 H5 H6 H7].
  split; rewrite ?E1, ?E2, ?E3, ?E4; done.
Qed.

(** The oldest arrival is a held block. *)
Lemma arrivals_head p t h l :
  pending_ok p -> arrivals p = (t, h) :: l -> is_Some (held p !! h).
Proof.
  intros Hok Ha. assert ((t, h) ∈ arrivals p) as Hin by (rewrite Ha; apply elem_of_cons; by left).
  unfold arrivals in Hin. rewrite merge_sort_Permutation, elem_of_elements in Hin.
  apply (pend_order _ _ Hok) in Hin as (x & Hx & _). by eexists.
Qed.

Lemma arrivals_nil p : pending_ok p -> arrivals p = [] -> held p = ∅.
Proof.
  intros Hok Ha. apply map_empty. intros h. destruct (held p !! h) as [x|] eqn:Hh; [|done].
  assert ((held_since x, h) ∈ arrivals p) as Hin.
  { unfold arrivals. rewrite merge_sort_Permutation, elem_of_elements. apply (pend_order _ _ Hok). by exists x. }
  rewrite Ha in Hin. by apply not_elem_of_nil in Hin.
Qed.

(** The fuel of [make_room] suffices: every pass removes one block. *)
Lemma make_room_spec fuel p :
  pending_ok p -> (size (held p) < fuel)%nat ->
  pending_ok (make_room fuel p) /\ (size (held (make_room fuel p)) < MAX_PENDING_BLOCKS)%nat /\
  held (make_room fuel p) ⊆ held p /\
  ((size (held p) < MAX_PENDING_BLOCKS)%nat -> make_room fuel p = p).
Proof.
  revert p. induction fuel as [|fuel IH]; intros p Hok Hf; [lia|]. cbn [make_room].
  case_bool_decide as Hfull; [|by split_and!; [|lia|..]].
  destruct (arrivals p) as [|[t h] l] eqn:Ha.
  { apply (arrivals_nil p Hok) in Ha. rewrite Ha, map_size_empty in Hfull.
    unfold MAX_PENDING_BLOCKS in Hfull. lia. }
  apply (arrivals_head p t h l Hok) in Ha as Hh.
  pose proof (pending_remove_wf None p h Hok) as Hok'. pose proof (pending_remove_held p h) as Hheld.
  assert (S (size (held (pending_remove p h).2)) = size (held p)) as Hs.
  { rewrite Hheld, map_size_delete_Some by done. destruct (size (held p)); [|lia].
    unfold MAX_PENDING_BLOCKS in *. lia. }
  set (p1 := (pending_remove p h).2 <| evicted_full := _ |>).
  assert (pending_ok p1) as Hok1 by (by apply (pending_wf_counters None (pending_remove p h).2)).
  change (held (pending_remove p h).2) with (held p1) in *.
  destruct (IH p1) as (? & ? & Hsub & _); [done|lia|]. split_and!; [done|done| |lia].
  etrans; [exact Hsub|]. rewrite Hheld. apply delete_subseteq.
Qed.

Lemma pending_hold_ok p b txs missing now :
  pending_ok p -> pending_ok (pending_hold p b txs missing now).2.
Proof.
  intros Hok. unfold pending_hold. case_bool_decide as Hh; [done|].
  case_bool_decide as Hq; [by apply (pending_wf_counters None p)|]. cbn [snd].
  destruct (make_room_spec (S (size (held p))) p) as (Hok1 & Hs & Hsub & _); [done|lia|].
  set (p1 := make_room (S (size (held p))) p) in *.
  assert (held p1 !! hash b = None) as Hn.
  { destruct (held p1 !! hash b) as [x|] eqn:Hx; [|done]. destruct Hh. exists x.
    by eapply lookup_weaken. }
  rewrite (per_author_count _ _ _ Hok) in Hq. rewrite (per_author_count _ _ _ Hok1).
  split; simpl.
  - intros h x [[<- <-]|[_ Hx]]%lookup_insert_Some; [done|]. by eapply pend_key.
  - intros t h. rewrite elem_of_union, elem_of_singleton, (pend_order _ _ Hok1).
    setoid_rewrite lookup_insert_Some. split.
    + intros [[= -> ->]|(x & Hx & ?)]; [eexists; split; [by left|done]|].
      exists x. split; [right; split; [congruence|done]|done].
    + intros (x & [[<- <-]|[? Hx]] & <-); [by left|]. right. by exists x.
  - intros a. rewrite author_count_insert by done. cbn [held_block].
    destruct (decide (author b = a)) as [<-|Hne].
    + rewrite lookup_insert_eq, decide_False by lia. f_equal. lia.
    + rewrite lookup_insert_ne by done. by rewrite (pend_author _ _ Hok1).
  - intros q h. rewrite waiters_link_all. setoid_rewrite lookup_insert_Some.
    case_decide as Hin; [rewrite elem_of_union, elem_of_singleton|]; rewrite (pend_waiting _ _ Hok1);
      rewrite elem_of_elements in Hin; split.
    + intros [->|(x & Hx & ? & ?)]; [eexists; split; [by left|done]|].
      exists x. split; [right; split; [congruence|done]|done].
    + intros (x & [[<- <-]|[? Hx]] & ? & ?); [by left|]. right. by exists x.
    + intros (x & Hx & ? & ?). exists x. split; [right; split; [congruence|done]|done].
    + intros (x & [[<- <-]|[? Hx]] & ? & ?); [done|]. by exists x.
  - by apply no_empty_link_all, (pend_nonempty _ _ Hok1).
  - rewrite map_size_insert_None by done. lia.
  - intros a. rewrite author_count_insert by done. cbn [held_block].
    pose proof (pend_bound _ _ Hok1 a). case_decide as Ha; [subst a|lia].
    pose proof (author_count_mono _ _ (author b) Hsub). lia.
Qed.

(** ** Removing lists of blocks *)

Definition drop_all p (hs : list Hash256) : PendingBlocks Tx :=
  foldl (fun q h => (pending_remove q h).2) p hs.

Definition payload (x : Held Tx) : DagBlock * list Tx := (held_block x, held_transactions x).

Lemma drop_all_wf hide p hs : pending_wf hide p -> pending_wf hide (drop_all p hs).
Proof. revert p. induction hs as [|h hs IH]; intros p Hok; [done|]. by apply IH, pending_remove_wf. Qed.

Lemma drop_all_held p hs h : held (drop_all p hs) !! h = if decide (h ∈ hs) then None else held p !! h.
Proof.
  revert p. induction hs as [|x hs IH]; intros p.
  - by rewrite decide_False by apply not_elem_of_nil.
  - cbn [drop_all foldl]. fold (drop_all (pending_remove p x).2 hs). rewrite IH, pending_remove_held.
    destruct (decide (h = x)) as [->|Hne].
    + rewrite lookup_delete_eq, (decide_True (P := x ∈ x :: hs)) by set_solver. by case_decide.
    + rewrite lookup_delete_ne by done. repeat case_decide; set_solver.
Qed.

Lemma remove_into_eq acc p h :
  remove_into (acc, p) h = (acc ++ option_list (payload <$> held p !! h), (pending_remove p h).2).
Proof.
  unfold remove_into, pending_remove. cbn [fst snd]. destruct (held p !! h); [done|]. by rewrite app_nil_r.
Qed.

Lemma remove_all_eq p acc hs :
  NoDup hs ->
  foldl remove_into (acc, p) hs =
    (acc ++ omap (fun h => payload <$> held p !! h) hs, drop_all p hs).
Proof.
  intros Hn. revert acc p. induction Hn as [|h hs Hh Hn IH]; intros acc p; [by rewrite app_nil_r|].
  cbn [foldl]. rewrite remove_into_eq, IH. cbn [drop_all foldl]. f_equal.
  rewrite <- app_assoc. f_equal.
  assert (omap (fun h' => payload <$> held (pending_remove p h).2 !! h') hs =
          omap (fun h' => payload <$> held p !! h') hs) as ->.
  { apply list_omap_ext. apply Forall2_same_length_lookup_2; [done|].
    intros i x y Hx Hy. simplify_eq. rewrite pending_remove_held, lookup_delete_ne; [done|].
    intros ->. by eapply Hh, list_elem_of_lookup_2. }
  cbn [omap list_omap]. by destruct (held p !! h).
Qed.

Lemma remove_all_ok p hs : NoDup hs -> pending_ok p -> pending_ok (remove_all p hs).2.
Proof. intros Hn Hok. unfold remove_all. rewrite remove_all_eq by done. by apply drop_all_wf. Qed.

Lemma held_keys_NoDup (m : gmap Hash256 (Held Tx)) (P : Hash256 * Held Tx -> Prop)
  `{!forall x, Decision (P x)} : NoDup (fst <$> filter P (map_to_list m)).
Proof.
  apply NoDup_fmap_fst; [|apply NoDup_filter, NoDup_map_to_list].
  intros h x y [_ Hx]%list_elem_of_filter [_ Hy]%list_elem_of_filter.
  apply elem_of_map_to_list in Hx, Hy. congruence.
Qed.

(** ** Releasing the children of a parent *)

(** [x] once [parent] has arrived. *)
Definition settle (parent : Hash256) (x : Held Tx) : Held Tx :=
  x <| held_missing := held_missing x ∖ {[parent]} |>.

Definition settled (parent : Hash256) (x : Held Tx) : bool :=
  bool_decide (held_missing (settle parent x) = ∅).

Definition release_one (parent : Hash256) (x : Held Tx) : option (Held Tx) :=
  if settled parent x then None else Some (settle parent x).

Lemma settle_wf parent p child x :
  pending_wf (Some parent) p -> held p !! child = Some x ->
  pending_wf (Some parent) (p <| held := <[child := settle parent x]> (held p) |>).
Proof.
  intros Hok Hx. assert (forall a, author_count (<[child := settle parent x]> (held p)) a =
    author_count (held p) a) as Hc.
  { intros a. rewrite <- (insert_delete_eq (held p)), author_count_insert by apply lookup_delete_eq.
    by rewrite (author_count_delete (held p) child x a Hx). }
  split; simpl.
  - intros h y [[<- <-]|[_ Hy]]%lookup_insert_Some; [exact (pend_key _ _ Hok _ _ Hx)|].
    by eapply (pend_key _ _ Hok).
  - intros t h. rewrite (pend_order _ _ Hok). setoid_rewrite lookup_insert_Some.
    destruct (decide (child = h)) as [->|Hne]; [|naive_solver]. split; [|naive_solver].
    intros (y & Hy & <-). simplify_eq. eexists. split; [by left|done].
  - intros a. rewrite Hc. apply (pend_author _ _ Hok).
  - intros q h. rewrite (pend_waiting _ _ Hok). setoid_rewrite lookup_insert_Some.
    destruct (decide (child = h)) as [->|Hne]; [|naive_solver]. split.
    + intros (y & Hy & Hq & Hne). simplify_eq. eexists. split; [by left|]. split; [|done].
      simpl. set_solver.
    + intros (y & [[_ <-]|[? _]] & Hq & Hne); [|done]. exists x. split; [done|]. simpl in Hq. set_solver.
  - apply (pend_nonempty _ _ Hok).
  - rewrite map_size_insert_Some by (by eexists). apply (pend_size _ _ Hok).
  - intros a. rewrite Hc. apply (pend_bound _ _ Hok).
Qed.

Lemma release_child_spec parent ready p child :
  pending_wf (Some parent) p ->
  exists p', release_child parent (ready, p) child =
      (ready ++ option_list (x ← held p !! child; if settled parent x then Some (payload x) else None),
       p') /\
    pending_wf (Some parent) p' /\
    (forall h, held p' !! h = if decide (h = child) then held p !! h ≫= release_one parent
                              else held p !! h).
Proof.
  intros Hok. unfold release_child. destruct (held p !! child) as [x|] eqn:Hx; cbn zeta.
  2:{ exists p. simpl. rewrite app_nil_r. split; [done|]. split; [done|]. intros h. case_decide; [|done].
      subst. by rewrite Hx. }
  fold (settle parent x). fold (settled parent x). unfold release_one. cbn [mbind option_bind].
  pose proof (settle_wf parent p child x Hok Hx) as Hok1.
  set (p1 := p <| held := <[child := settle parent x]> (held p) |>) in *.
  destruct (settled parent x) eqn:Hs.
  - exists (pending_remove p1 child).2. split; [|split; [by apply pending_remove_wf|]].
    + unfold pending_remove. simpl. by rewrite lookup_insert_eq.
    + intros h. rewrite pending_remove_held. simpl. case_decide as Hd.
      * subst. by rewrite lookup_delete_eq, Hx; simpl; rewrite Hs.
      * by rewrite lookup_delete_ne, lookup_insert_ne by done.
  - exists p1. cbn [option_list]. rewrite app_nil_r. split; [done|]. split; [done|]. intros h. simpl. case_decide as Hd.
    + subst. rewrite lookup_insert_eq, Hx. simpl. by rewrite Hs.
    + by rewrite lookup_insert_ne by done.
Qed.

Lemma release_children_spec parent ready p children :
  NoDup children -> pending_wf (Some parent) p ->
  exists p', foldl (release_child parent) (ready, p) children =
      (ready ++ omap (fun h => x ← held p !! h; if settled parent x then Some (payload x) else None)
                  children, p') /\
    pending_wf (Some parent) p' /\
    (forall h, held p' !! h = if decide (h ∈ children) then held p !! h ≫= release_one parent
                              else held p !! h).
Proof.
  intros Hn. revert ready p. induction Hn as [|c cs Hc Hn IH]; intros ready p Hok.
  { exists p. rewrite app_nil_r. split; [done|]. split; [done|]. intros h.
    by rewrite decide_False by apply not_elem_of_nil. }
  cbn [foldl]. destruct (release_child_spec parent ready p c Hok) as (p1 & -> & Hok1 & Hp1).
  destruct (IH (ready ++ option_list (x ← held p !! c; if settled parent x then Some (payload x) else None))
    p1 Hok1) as (p2 & -> & Hok2 & Hp2).
  exists p2. split; [|split; [done|]].
  - f_equal. rewrite <- app_assoc. f_equal.
    assert (omap (fun h => x ← held p1 !! h; if settled parent x then Some (payload x) else None) cs =
            omap (fun h => x ← held p !! h; if settled parent x then Some (payload x) else None) cs) as ->.
    { apply list_omap_ext. apply Forall2_same_length_lookup_2; [done|]. intros i x y Hx Hy.
      simplify_eq. rewrite Hp1, decide_False; [done|]. intros ->. by eapply Hc, list_elem_of_lookup_2. }
    cbn [omap list_omap]. by destruct (x ← held p !! c; _).
  - intros h. rewrite Hp2, Hp1. destruct (decide (h = c)) as [->|Hne].
    + rewrite decide_False by done. by rewrite decide_True by set_solver.
    + repeat case_decide; set_solver.
Qed.

(** Hiding the waiters of a parent, and showing them again once there are none. *)
Lemma hide_parent p parent :
  pending_ok p -> pending_wf (Some parent) (p <| waiting_on := delete parent (waiting_on p) |>).
Proof.
  intros Hok. split; simpl; try apply Hok.
  - intros q h. unfold waiters. destruct (decide (q = parent)) as [->|Hne].
    + rewrite lookup_delete_eq. simpl. set_solver.
    + rewrite lookup_delete_ne by done. fold (waiters (waiting_on p) q).
      rewrite (pend_waiting _ _ Hok). naive_solver.
  - apply map_Forall_delete, (pend_nonempty _ _ Hok).
Qed.

Lemma show_parent p parent :
  pending_wf (Some parent) p -> (forall h x, held p !! h = Some x -> parent ∉ held_missing x) ->
  pending_ok p.
Proof.
  intros Hok Hnone. split; try apply Hok.
  intros q h. rewrite (pend_waiting _ _ Hok). split; [naive_solver|].
  intros (x & Hx & Hq & _). exists x. split; [done|]. split; [done|]. intros [= ->]. by eapply Hnone.
Qed.

(** The blocks a list of keys yields are in different places. *)
Lemma omap_payload_NoDup (f : Hash256 -> option (DagBlock * list Tx)) l :
  (forall h y, f h = Some y -> hash y.1 = h) -> NoDup l -> NoDup (hash ∘ fst <$> omap f l).
Proof.
  intros Hf. induction 1 as [|h l Hh Hn IH]; [constructor|].
  cbn [omap list_omap]. destruct (f h) as [y|] eqn:Hy; [|done]. cbn [fmap list_fmap].
  apply NoDup_cons_2; [|done].
  intros (y' & Heq & (h' & Hin & Hy')%list_elem_of_omap)%list_elem_of_fmap.
  apply Hf in Hy, Hy'. simpl in Heq. congruence.
Qed.

Lemma settled_last parent (x : Held Tx) :
  parent ∈ held_missing x -> settled parent x = true <-> held_missing x = {[parent]}.
Proof.
  intros Hp. unfold settled, settle. rewrite bool_decide_eq_true. simpl.
  generalize dependent (held_missing x). intros m Hp. split; intros Hm; [|set_solver].
  apply set_eq. intros q. destruct (decide (q = parent)); set_solver.
Qed.

(** What a parent's arrival does to the area. *)
Definition after_parent (parent : Hash256) (x : Held Tx) : option (Held Tx) :=
  if bool_decide (parent ∈ held_missing x) then release_one parent x else Some x.

Lemma release_on_spec p parent :
  pending_ok p ->
  pending_ok (release_on p parent).2 /\
  (forall h, held (release_on p parent).2 !! h = held p !! h ≫= after_parent parent) /\
  (forall y, y ∈ (release_on p parent).1 <->
     exists x, held p !! hash y.1 = Some x /\ payload x = y /\ held_missing x = {[parent]}) /\
  NoDup (hash ∘ fst <$> (release_on p parent).1) /\
  Sorted by_round_le (release_on p parent).1.
Proof.
  intros Hok. unfold release_on. destruct (waiting_on p !! parent) as [children|] eqn:Hw.
  2:{ assert (forall h x, held p !! h = Some x -> parent ∉ held_missing x) as Hnone.
      { intros h x Hx Hp. assert (h ∈ waiters (waiting_on p) parent) as Hin
          by (apply (pend_waiting _ _ Hok); by exists x).
        unfold waiters in Hin. rewrite Hw in Hin. set_solver. }
      split; [done|]. split; [|split; [|split; constructor]].
      - intros h. simpl. destruct (held p !! h) as [x|] eqn:Hx; [|done]. simpl. unfold after_parent.
        by rewrite bool_decide_false by (by eapply Hnone).
      - intros y. split; [by intros ?%not_elem_of_nil|]. intros (x & Hx & _ & Hm).
        apply Hnone in Hx. set_solver. }
  assert (forall h, h ∈ children <-> exists x, held p !! h = Some x /\ parent ∈ held_missing x) as Hch.
  { intros h. pose proof (pend_waiting _ _ Hok parent h) as Hwt. unfold waiters in Hwt.
    rewrite Hw in Hwt. simpl in Hwt. rewrite Hwt. naive_solver. }
  destruct (release_children_spec parent [] (p <| waiting_on := delete parent (waiting_on p) |>)
    (elements children)) as (p' & -> & Hok' & Hp'); [apply NoDup_elements|by apply hide_parent|].
  simpl in *. set (f := fun h => x ← held p !! h; _).
  assert (forall h, held p' !! h = held p !! h ≫= after_parent parent) as Hheld.
  { intros h. rewrite Hp'. destruct (held p !! h) as [x|] eqn:Hx; [|by case_decide]. simpl.
    unfold after_parent. case_decide as Hin; rewrite elem_of_elements, Hch in Hin.
    - rewrite bool_decide_true; [done|]. naive_solver.
    - rewrite bool_decide_false; [done|]. naive_solver. }
  assert (forall h y, f h = Some y -> exists x, held p !! h = Some x /\ settled parent x = true /\
    payload x = y) as Hf.
  { intros h y. unfold f. intros (x & Hx & Hy)%bind_Some. destruct (settled parent x) eqn:Hs; naive_solver. }
  split_and!.
  - apply (show_parent p' parent); [done|]. intros h x. rewrite Hheld. intros (y & Hy & Ha)%bind_Some.
    unfold after_parent, release_one in Ha. case_bool_decide; [|by simplify_eq].
    destruct (settled parent y); simplify_eq. simpl. set_solver.
  - exact Hheld.
  - intros y. rewrite merge_sort_Permutation, list_elem_of_omap. split.
    + intros (h & Hin & (x & Hx & Hs & <-)%Hf). rewrite elem_of_elements, Hch in Hin.
      destruct Hin as (x' & Hx' & Hm). assert (x' = x) as -> by congruence. exists x. simpl.
      rewrite (pend_key _ _ Hok _ _ Hx). split; [done|]. split; [done|]. by apply settled_last.
    + intros (x & Hx & <- & Hm). simpl in Hx. exists (hash (held_block x)).
      rewrite elem_of_elements, Hch. split; [exists x; split; [done|set_solver]|].
      assert (settled parent x = true) as Hs by (apply settled_last; [set_solver|done]).
      unfold f. simpl. rewrite Hx. simpl. by rewrite Hs.
  - rewrite merge_sort_Permutation. apply omap_payload_NoDup; [|apply NoDup_elements].
    intros h y (x & Hx & _ & <-)%Hf. simpl. by apply (pend_key _ _ Hok).
  - apply Sorted_merge_sort. intros x y. unfold by_round_le. lia.
Qed.

(** ** Every call keeps the invariant *)

Inductive pending_op :=
| Hold (b : DagBlock) (txs : list Tx) (missing : list Hash256) (now : Z)
| ReleaseOn (parent : Hash256)
| ReleaseUpTo (current : Z)
| DrainAll
| Expire (now : Z).

Definition pending_apply p (op : pending_op) : PendingBlocks Tx :=
  match op with
  | Hold b txs missing now => (pending_hold p b txs missing now).2
  | ReleaseOn parent => (release_on p parent).2
  | ReleaseUpTo current => (release_up_to_round p current).2
  | DrainAll => (drain_all p).2
  | Expire now => (expire p now).2
  end.

Lemma pending_apply_ok p op : pending_ok p -> pending_ok (pending_apply p op).
Proof.
  intros Hok. destruct op; simpl.
  - by apply pending_hold_ok.
  - by apply release_on_spec.
  - apply remove_all_ok; [|done]. apply held_keys_NoDup.
  - apply remove_all_ok; [apply NoDup_fst_map_to_list|done].
  - unfold expire. cbn [snd]. apply (pending_wf_counters None (drop_all p (take_stale now (arrivals p))));
      [done..|]. by apply drop_all_wf.
Qed.

Lemma pending_run_ok p ops : pending_ok p -> pending_ok (foldl pending_apply p ops).
Proof. revert p. induction ops as [|op ops IH]; intros p Hok; [done|]. by apply IH, pending_apply_ok. Qed.

Lemma drain_all_empty p : held (drain_all p).2 = ∅.
Proof.
  unfold drain_all, remove_all. rewrite remove_all_eq by apply NoDup_fst_map_to_list. cbn [snd].
  apply map_empty. intros h. rewrite drop_all_held. case_decide as Hin; [done|].
  destruct (held p !! h) as [x|] eqn:Hx; [|done]. destruct Hin. apply list_elem_of_fmap.
  exists (h, x). split; [done|]. by apply elem_of_map_to_list.
Qed.

End PendingTheorems.

Arguments pending_op : clear implicits.

(** ** The theorems *)

(** C37: the holding area for early blocks stays bounded and consistent: after any
    sequence of [hold], [release_on], [release_up_to_round], [drain_all] and [expire]
    on an empty area there are at most 2048 held blocks and at most 256 of any author,
    each under its own hash; the arrival order, the per-author counters and the index
    from missing parents to waiting blocks agree exactly with the blocks held, and the
    eviction loop of [hold] always finds the oldest block to drop. *)
Theorem pending_area_bounded {Tx} (ops : list (pending_op Tx)) :
  let p := foldl pending_apply pending_new ops in
  (pending_len p <= MAX_PENDING_BLOCKS)%nat /\
  (forall a, Z.of_nat (author_count (held p) a) <= MAX_PENDING_PER_AUTHOR) /\
  (forall h x, held p !! h = Some x -> hash (held_block x) = h) /\
  (forall t h, (t, h) ∈ order p <-> exists x, held p !! h = Some x /\ held_since x = t) /\
  (forall a, default 0 (per_author p !! a) = Z.of_nat (author_count (held p) a)) /\
  (forall q h, h ∈ waiters (waiting_on p) q <->
     exists x, held p !! h = Some x /\ q ∈ held_missing x) /\
  (forall b txs missing now, pending_len (pending_hold p b txs missing now).2 <= MAX_PENDING_BLOCKS)%nat.
Proof.
  assert (pending_ok (foldl pending_apply pending_new ops)) as Hok
    by apply pending_run_ok, pending_new_ok.
  intros p. fold p in Hok. split_and!; try apply Hok.
  - intros a. by apply (per_author_count None).
  - intros q h. rewrite (pend_waiting _ _ Hok). naive_solver.
  - intros *. apply (pend_size None), pending_hold_ok, Hok.
Qed.

(** The arrival of a block releases exactly the held blocks that waited for it
    alone: [release_on] returns these, each once and in order of their rounds, removes
    them, takes the parent off the list of every other block that named it, and leaves
    all others as they were; the invariant of the area is kept. *)
Theorem release_on_exact {Tx} (p : PendingBlocks Tx) (parent : Hash256) (Hok : pending_ok p) :
  pending_ok (release_on p parent).2 /\
  (forall y, y ∈ (release_on p parent).1 <->
     exists x, held p !! hash y.1 = Some x /\ payload x = y /\ held_missing x = {[parent]}) /\
  NoDup (hash ∘ fst <$> (release_on p parent).1) /\
  Sorted by_round_le (release_on p parent).1 /\
  (forall h, held (release_on p parent).2 !! h =
     x ← held p !! h;
     if bool_decide (held_missing x = {[parent]}) then None
     else Some (x <| held_missing := held_missing x ∖ {[parent]} |>)).
Proof.
  destruct (release_on_spec p parent Hok) as (H1 & H2 & H3 & H4 & H5). split_and!; [done..|].
  intros h. rewrite H2. destruct (held p !! h) as [x|]; [|done]. simpl. unfold after_parent, release_one.
  case_bool_decide as Hp.
  - destruct (settled parent x) eqn:Hs.
    + apply settled_last in Hs; [|done]. by rewrite bool_decide_true.
    + rewrite bool_decide_false; [done|]. intros Hm. apply settled_last in Hm; [|done]. congruence.
  - rewrite bool_decide_false by set_solver. destruct x as [b txs m t]. simpl in *. do 2 f_equal. set_solver.
Qed.

Module DemoPending.

Definition early (h r : Z) : DagBlock := mkDagBlock 1 r [h + 1; h + 2] [] 0 h [] 0.

(** Three blocks: two wait for parent 7, one of them for 8 as well. *)
Definition area : PendingBlocks Z :=
  foldl pending_apply pending_new
    [Hold (early 20 6) [1] [7] 0; Hold (early 21 5) [2] [7] 1; Hold (early 22 5) [3] [7; 8] 2].

End DemoPending.

Lemma release_on_exact_witness :
  hash ∘ fst <$> (release_on DemoPending.area 7).1 = [21; 20] /\
  held_missing <$> held (release_on DemoPending.area 7).2 !! 22 = Some {[8]} /\
  pending_ok (release_on DemoPending.area 7).2.
Proof.
  destruct (release_on_exact DemoPending.area 7) as (Hok & _).
  - apply pending_run_ok, pending_new_ok.
  - split; [vm_compute; reflexivity|]. split; [vm_compute; reflexivity|exact Hok].
Defined.
