(* ===== verification/EngineSteps.v ===== *)
(** * Runs of the engine

    [quiet_step], [live_step] and [engine_step] have a rule for every method of
    [ConsensusEngine] that writes its state.  On what the commit rule depends on, every rule does one of three
    things ([abstract_step]): it adds one validated block, it drops whole rounds
    below the commit cursor, or it starts over with an empty DAG.  The invariants
    are proved for these three and carried to the methods by [step_refines]. *)

From S2P Require Import Prelude Crypto Validators Dag Security Blocks Certificates.
From S2P Require Import DataAvailability Engine DagInvariant CrossShard Commit History.

Section Abstract.
Context `{Crypto}.
Implicit Types e : ConsensusEngine.

(** The cursor is a [u64], and the rounds that need no parents are decided. *)
Record marks_ok e : Prop := {
  mark_current : u64 (current_round e);
  mark_cursor : u64 (last_committed_round e);
  mark_bootstrap r : recovery_bootstrap_round e = Some r -> r <= last_committed_round e;
  mark_base r : restart_base_round e = Some r -> r <= last_committed_round e;
  mark_boundary r : local_recovery_boundary_round e = Some r -> r <= last_committed_round e;
  mark_retained : 0 <= retained_rounds e;
}.

Definition marks e :=
  (current_round e, last_committed_round e, recovery_bootstrap_round e, restart_base_round e,
   local_recovery_boundary_round e, retained_rounds e).

Lemma marks_ok_ext e e' : marks e' = marks e -> marks_ok e -> marks_ok e'.
Proof.
  intros [= E1 E2 E3 E4 E5 E6] [H1 H2 H3 H4 H5 H6].
  split; rewrite ?E1, ?E2, ?E3, ?E4, ?E5, ?E6; auto.
Qed.

Definition no_blocks e : Prop :=
  dag e = ∅ /\ (forall r, blocks_in_round e r = []) /\ author_round_blocks e = ∅.

Lemma no_blocks_dag_ok e : no_blocks e -> dag_ok e.
Proof.
  intros (Hd & Hr & Ha). split; intros *; rewrite ?Hd, ?Hr, ?Ha, ?lookup_empty; try done.
  - by intros ?%not_elem_of_nil.
  - constructor.
Qed.

Lemma empty_dag_no_blocks e : dag_ok e -> dag e = ∅ -> no_blocks e.
Proof.
  intros Hok Hd. split; [done|]. split.
  - intros r. destruct (blocks_in_round e r) as [|h l] eqn:Hl; [done|].
    destruct (rounds_dag e Hok r h) as (b & Hb & _); [rewrite Hl; set_solver|].
    by rewrite Hd, lookup_empty in Hb.
  - apply map_empty. intros [a r]. destruct (author_round_blocks e !! (a, r)) as [h|] eqn:Ha; [|done].
    apply (author_dag e Hok) in Ha as (b & Hb & _). by rewrite Hd, lookup_empty in Hb.
Qed.

Lemma no_blocks_ext e e' :
  no_blocks e -> dag e' = dag e -> rounds e' = rounds e ->
  author_round_blocks e' = author_round_blocks e -> no_blocks e'.
Proof. unfold no_blocks, blocks_in_round. by intros ? -> -> ->. Qed.

(** A block that may enter the DAG of [e]: valid for the domain and, above the
    commit cursor, with the parents the active set demands. *)
Definition admissible e (b : DagBlock) : Prop :=
  block_ok b /\ dag e !! hash b = None /\ verify_hash_in (consensus_domain e) b = true /\
  verify_ordering b = true /\ can_produce_blocks (validator_set e) (author b) = true /\
  (last_committed_round e < round b -> parents_ok e (validator_set e) (excused_by e) b).

Inductive abstract_step : ConsensusEngine -> ConsensusEngine -> Prop :=
| abs_block e b s wd st da :
    admissible e b -> abstract_step e (with_block e b s wd st da)
| abs_quiet e e' :
    keeps_from (last_committed_round e') e e' ->
    last_committed_round e <= last_committed_round e' -> abstract_step e e'
| abs_cleared e e' :
    no_blocks e' -> abstract_step e e'.

Lemma abstract_step_dag_ok e e' : abstract_step e e' -> dag_ok e -> dag_ok e'.
Proof.
  destruct 1 as [e b s wd st da (?&?&?&?&?&?)|e e' ? ?|e e' ?]; intros Hok.
  - by apply dag_ok_insert.
  - by eapply keeps_from_dag_ok.
  - by apply no_blocks_dag_ok.
Qed.

(** A step that leaves the DAG part and the cursor alone. *)
Lemma abs_same e e' :
  dag_part e' = dag_part e -> last_committed_round e' = last_committed_round e ->
  abstract_step e e'.
Proof.
  intros Hp Hl. apply abs_quiet; [by apply keeps_from_same|lia].
Qed.

(** ** Views of one committee *)

(** The engine checks parents and commits with the committee [s]. *)
Definition same_committee (s : ValidatorSet) e : Prop :=
  validators (validator_set e) = validators s /\ quorum (validator_set e) = quorum s /\
  validators (frozen_validator_set e) = validators s /\ quorum (frozen_validator_set e) = quorum s.

(** Above the commit cursor the DAG is closed under quorums of parents; [excused]
    bounds the absences ever certified to this node. *)
Definition view_closed (s : ValidatorSet) (excused : Z -> Address -> Prop) e : Prop :=
  forall h b, dag e !! h = Some b -> last_committed_round e < round b -> parents_ok e s excused b.

Lemma abstract_step_closed s (ex : Z -> Address -> Prop) e e' :
  dag_ok e -> abstract_step e e' -> same_committee s e ->
  (forall r a, excused_by e r a -> ex r a) ->
  view_closed s ex e -> view_closed s ex e'.
Proof.
  intros Hok Hstep (Hv & Hq & _) Hex Hcl.
  destruct Hstep as [e b s' wd st da (?&Hnew&?&?&?&Hpar)|e e' (P & Hre & HP) Hle|e e' (Hd & _)].
  - assert (forall b0, parents_ok e s ex b0 -> parents_ok (with_block e b s' wd st da) s ex b0)
      as Hmono.
    { intros b0. apply parents_ok_mono; [|done|done]. intros p pb _ Hp. by apply dag_with_block_old. }
    intros h b0 [[<- <-]|[_ Hb0]]%dag_with_block Hr; apply Hmono; [|by eapply Hcl].
    apply (parents_ok_set _ (validator_set e)); [done..|]. eapply parents_ok_mono; [done|done|exact Hex|].
    by apply Hpar.
  - destruct Hre as (Hdag & _ & _ & _ & Hdom). intros h b [Hb _]%Hdag Hr.
    assert (parents_ok e s ex b) as Hp by (eapply Hcl; [done|lia]).
    apply (parents_ok_mono e e' s ex ex b); [|done|done|done]. intros p pb Hin Hpb. apply Hdag. split; [done|].
    apply HP. destruct Hp as (Hall & _). destruct (Hall p Hin) as (pb' & ? & ?). simplify_eq. lia.
  - intros h b. by rewrite Hd, lookup_empty.
Qed.

End Abstract.

(** ** The steps of the engine *)

Section Steps.
Context `{Crypto}.
Implicit Types e : ConsensusEngine.

(** One call of a method.  The side conditions are the ranges of the Rust types
    and, for the two methods that reposition the cursor from outside, what their
    callers hold: the local WAL is read at startup and its cursor is not behind
    the engine's, and [prune_below_round] is given a committed round. *)
Inductive quiet_step : ConsensusEngine -> ConsensusEngine -> Prop :=
| step_receive e b base e' :
    block_ok b -> receive_block_inner e b base = (Ok (), e') -> quiet_step e e'
| step_advance e now adv e' : advance_round e now = Ok (adv, e') -> quiet_step e e'
| step_force e now : quiet_step e (force_advance_round e now)
| step_commit e maximum live now l e' :
    try_commit_limited e maximum live now = Ok (l, e') -> quiet_step e e'
| step_prune e r : r <= last_committed_round e -> quiet_step e (prune_below_round e r).2
| step_skip_certificate e c signing e' :
    register_skip_certificate e c = Ok (signing, e') -> quiet_step e e'
| step_finality_certificate e c signing e' :
    register_finality_certificate e c = Ok (signing, e') -> quiet_step e e'
| step_certificate_domain e d e' : install_certificate_domain e d = Ok e' -> quiet_step e e'
| step_domain e d e' : install_consensus_domain e d = Ok e' -> quiet_step e e'
| step_recovery_cursor e source now r e' :
    0 <= source -> install_recovery_cursor e source now = Ok (r, e') -> quiet_step e e'
| step_generation e fl current next now e' :
    u64 fl -> u64 current -> u64 next ->
    install_recovery_generation_cursor e fl current next now = Ok e' -> quiet_step e e'
| step_finish_replay e e' : finish_recovery_generation_replay e = Ok e' -> quiet_step e e'
| step_restart_base e r e' : set_restart_base_round e r = Ok e' -> quiet_step e e'
| step_close_base e : quiet_step e (close_restart_base_round e)
| step_rebase e anchor now r e' :
    0 <= anchor -> rebase_to e anchor now = Ok (r, e') -> quiet_step e e'
| step_restore e r com now :
    u64 r -> last_committed_round e <= com -> quiet_step e (restore_round_from_local_wal e r com now)
| step_queue e v : quiet_step e (queue_validator e v)
| step_freeze e e' : freeze_epoch e = Ok e' -> quiet_step e e'
| step_join e a stake key shard e' : join_validator e a stake key shard = Ok e' -> quiet_step e e'
| step_leave e a stake e' : leave_validator e a = Ok (stake, e') -> quiet_step e e'
| step_update_stake e a stake e' : update_validator_stake e a stake = Ok e' -> quiet_step e e'
| step_epoch e ep e' : epoch_transition e = Ok (ep, e') -> quiet_step e e'
| step_update_set e s e' : update_validator_set e s = Ok e' -> quiet_step e e'
| step_slash e a amount removed e' : enforce_slash e a amount = Ok (removed, e') -> quiet_step e e'
| step_fraud e bh proposer claimed actual r now record e' :
    submit_fraud_proof e bh proposer claimed actual r now = Ok (record, e') -> quiet_step e e'
| step_lock e tx src tgt bh r now p e' :
    lock_cross_shard e tx src tgt bh r now = Ok (p, e') -> quiet_step e e'
| step_commit_lock e tx p e' : commit_cross_shard e tx = Ok (p, e') -> quiet_step e e'
| step_abort_lock e tx p e' : abort_cross_shard e tx = Ok (p, e') -> quiet_step e e'
| step_expire e timeout now : quiet_step e (expire_stale_locks_with_timeout e timeout now).2
| step_register_key e a key : quiet_step e (register_validator_key e a key)
| step_bootstrapping e active : quiet_step e (set_dag_bootstrapping e active)
| step_timer e now : quiet_step e (reset_round_timer e now)
| step_retained e r : quiet_step e (set_retained_rounds e r)
| step_retained_finality e r : quiet_step e (set_retained_finality_heights e r)
| step_da e c : quiet_step e (store_da_commitment e c)
| step_role e role : quiet_step e (e <| node_role := role |>).

(** A call of [propose_block] that returns the block [b]. *)
Definition proposes e (b : DagBlock) e' : Prop :=
  exists txs ts, Forall hash256 txs /\ u64 ts /\ propose_block e txs ts = Ok (b, e').

Definition live_step e e' : Prop := quiet_step e e' \/ exists b, proposes e b e'.

(** [reset_dag], which forgets even what this node signed, is kept apart. *)
Definition engine_step e e' : Prop := live_step e e' \/ exists now, e' = reset_dag e now.

Record engine_ok e : Prop := {
  ok_dag : dag_ok e;
  ok_marks : marks_ok e;
  ok_set : vs_wf (validator_set e);
  ok_frozen : vs_wf (frozen_validator_set e);
  ok_address : hash256 (local_address e);
}.

(** Everything the invariants read besides the DAG part. *)
Definition rest_part e := (marks e, validator_set e, frozen_validator_set e, local_address e).

Lemma engine_ok_rest e e' : rest_part e' = rest_part e -> dag_ok e' -> engine_ok e -> engine_ok e'.
Proof.
  intros Hr Hd [? ? ? ? ?].
  unfold rest_part in Hr. split; [done|apply (marks_ok_ext e)|..]; congruence.
Qed.

Lemma rest_of_prune_part e e' : prune_part e' = prune_part e -> rest_part e' = rest_part e.
Proof. intros [= E1 E2 E3 E4 E5 E6 E7 E8 E9 E10]. unfold rest_part, marks. congruence. Qed.

(** A method that writes neither the DAG part nor what the invariants read. *)
Lemma idle_refines e e' :
  dag_part e' = dag_part e -> rest_part e' = rest_part e -> engine_ok e ->
  engine_ok e' /\ abstract_step e e'.
Proof.
  intros Hd Hr Hok. split.
  - apply (engine_ok_rest e); [done| |done]. apply (dag_ok_ext e); [done|apply Hok].
  - apply abs_same; [done|]. unfold rest_part, marks in Hr. congruence.
Qed.

(** A method that writes the validator sets. *)
Lemma set_refines e e' :
  dag_part e' = dag_part e -> marks e' = marks e -> local_address e' = local_address e ->
  vs_wf (validator_set e') -> vs_wf (frozen_validator_set e') ->
  engine_ok e -> engine_ok e' /\ abstract_step e e'.
Proof.
  intros Hd Hm Ha Hs Hf [? ? ? ? ?]. split.
  - split; [by apply (dag_ok_ext e)|by apply (marks_ok_ext e)|done|done|by rewrite Ha].
  - apply abs_same; [done|]. unfold marks in Hm. congruence.
Qed.

Lemma set_change_refines e s :
  set_change (validator_set e) s -> engine_ok e ->
  forall e', dag_part e' = dag_part e -> rest_part e' = rest_part (e <| validator_set := s |>) ->
  engine_ok e' /\ abstract_step e e'.
Proof.
  intros Hc Hok e' Hd [= R1 R2 R3 R4 R5 R6 R7 R8 R9]. apply set_refines; try done.
  - unfold marks. congruence.
  - rewrite R7. eapply set_change_wf; [|done]. apply Hok.
  - rewrite R8. apply Hok.
Qed.

Lemma set_changes_wf s s' : rtc set_change s s' -> vs_wf s -> vs_wf s'.
Proof. induction 1 as [|s1 s2 s3 Hc _ IH]; [done|]. intros Hwf. by eapply IH, set_change_wf. Qed.

(** ** Receiving and proposing *)

Lemma check_parentage_above e b base :
  engine_ok e -> last_committed_round e < round b -> check_parentage e b base = Ok () ->
  parents_ok e (validator_set e) (excused_by e) b.
Proof.
  intros [_ [Hc Hl Hboot Hbase Hbound _] Hwf _ _] Hr. unfold check_parentage, u64 in *.
  rewrite bool_decide_false by lia. simpl. unfold is_recovery_bootstrap_round.
  rewrite bool_decide_false by (intros ?%Hboot; lia).
  unfold is_restart_base_round. rewrite (bool_decide_false (restart_base_round e = _))
    by (intros ?%Hbase; lia). rewrite andb_false_r.
  rewrite (bool_decide_false (local_recovery_boundary_round e = _)) by (intros ?%Hbound; lia).
  rewrite andb_false_r. apply check_parents_Ok; [done|lia].
Qed.

Lemma with_block_ok e b s wd st da :
  engine_ok e -> vs_wf s -> admissible e b -> engine_ok (with_block e b s wd st da).
Proof.
  intros [Hd Hm ? ? ?] Hs Ha. split; try done.
  - eapply abstract_step_dag_ok; [by apply abs_block|done].
  - by apply (marks_ok_ext e).
Qed.

Lemma receive_refines e b base e' :
  engine_ok e -> block_ok b -> receive_block_inner e b base = (Ok (), e') ->
  engine_ok e' /\ abstract_step e e'.
Proof.
  intros Hok Hb [(Hp & Hnew & Hh & Ho & _ & _ & Hpar)%validate_block_Ok
                 (s & wd & st & -> & Hs & _)%admit_block_eq]%receive_block_inner_Ok.
  assert (admissible e b) as Ha.
  { split_and!; try done. intros Hr. by eapply check_parentage_above. }
  split; [|by apply abs_block]. apply with_block_ok; [done| |done].
  eapply set_changes_wf; [done|apply Hok].
Qed.

Lemma propose_refines `{!CryptoLaws} inputs e txs ts b e' :
  derive_key_apart inputs -> hashed_within inputs e -> hashed_within inputs e' ->
  engine_ok e -> Forall hash256 txs -> u64 ts -> propose_block e txs ts = Ok (b, e') ->
  admissible e b /\ engine_ok e' /\ abstract_step e e'.
Proof.
  intros Hapart Hin Hin' Hok Htx Hts Hp.
  assert (block_ok b) as Hb.
  { eapply propose_block_ok; try done; try apply Hok. }
  assert (dag e !! hash b = None) as Hnew by (by eapply propose_fresh; try done; apply Hok).
  apply propose_block_Ok in Hp
    as (Hprod & Hau & Hro & _ & _ & _ & _ & Hpp & _ & Hv & Ho & wd & st & da & ->).
  assert (admissible e b) as Ha.
  { split_and!; try done; [by rewrite Hau|]. intros Hr.
    destruct (proposal_parents_Ok e (round b) (parents b)) as [[[?|Hboot] _]|Hpo];
      [apply Hok|apply Hok|done| | |].
    - destruct (mark_cursor e (ok_marks e Hok)). lia.
    - apply (mark_bootstrap e (ok_marks e Hok)) in Hboot. lia.
    - by apply Hpo. }
  split; [done|]. split; [|by apply abs_block]. apply with_block_ok; [done|apply Hok|done].
Qed.

(** ** Rounds *)

Lemma advance_round_eq e now adv e' :
  advance_round e now = Ok (adv, e') ->
  (adv = false /\ e' = e) \/
  (adv = true /\ current_round e + 1 <= u64_max /\
   e' = e <| current_round := current_round e + 1 |> <| force_advanced := false |>
          <| round_start := now |>).
Proof.
  unfold advance_round. intros (t & _ & Hrest)%bind_Ok.
  destruct (round_participation_satisfies_quorum _ _ _ _ _); [|naive_solver].
  destruct (checked_add _ _) eqn:Hc; [|naive_solver]. split_checked. naive_solver.
Qed.

(** Moving the current round alone. *)
Lemma current_refines e e' c :
  dag_part e' = dag_part e -> rest_part e' = rest_part (e <| current_round := c |>) ->
  u64 c -> engine_ok e -> engine_ok e' /\ abstract_step e e'.
Proof.
  intros Hd Hr Hc Hok. split.
  - apply (engine_ok_rest (e <| current_round := c |>)); [done| |].
    + apply (dag_ok_ext e); [done|apply Hok].
    + destruct Hok as [? [? ? ? ? ? ?] ? ? ?]. split; try done. by apply (dag_ok_ext e).
  - apply abs_same; [done|]. unfold rest_part, marks in Hr. simpl in Hr. congruence.
Qed.

Lemma advance_refines e now adv e' :
  engine_ok e -> advance_round e now = Ok (adv, e') -> engine_ok e' /\ abstract_step e e'.
Proof.
  intros Hok [[_ ->]|(_ & Hmax & ->)]%advance_round_eq; [by apply idle_refines|].
  apply (current_refines _ _ (current_round e + 1)); [done|done| |done].
  pose proof (mark_current e (ok_marks e Hok)). unfold u64 in *. lia.
Qed.

Lemma force_refines e now :
  engine_ok e -> engine_ok (force_advance_round e now) /\ abstract_step e (force_advance_round e now).
Proof.
  intros Hok. unfold force_advance_round. destruct (checked_add _ _) as [r|] eqn:Hc.
  - apply (current_refines _ _ r); [done|done| |done]. split_checked.
    pose proof (mark_current e (ok_marks e Hok)). unfold u64 in *. lia.
  - by apply idle_refines.
Qed.

(** ** Committing and pruning *)

Lemma commit_effect_refines e e' :
  engine_ok e -> commit_effect e e' -> engine_ok e' /\ abstract_step e e'.
Proof.
  intros Hok (r' & s & Hr & Hs & Hk & Hp).
  assert (last_committed_round e' = r') as Hl by (injection Hp; congruence).
  destruct Hok as [Hd [? Hc Hboot Hbase Hbound ?] Hwf ? ?].
  injection Hp as E1 E2 E3 E4 E5 E6 E7 E8 E9 E10. simpl in *. unfold u64 in *.
  split; [|apply abs_quiet; [by rewrite Hl|lia]]. split.
  - by eapply keeps_from_dag_ok.
  - split; rewrite ?E1, ?E2, ?E6, ?E7, ?E8, ?E10; unfold u64; try lia.
    + intros r ?%Hboot. lia.
    + intros r ?%Hbase. lia.
    + intros r ?%Hbound. lia.
  - rewrite E3. by eapply set_changes_wf.
  - by rewrite E4.
  - by rewrite E5.
Qed.

Lemma commit_has_effect e maximum live now l e' :
  engine_ok e -> try_commit_limited e maximum live now = Ok (l, e') -> commit_effect e e'.
Proof. intros [? [] ? ? ?] Hc. by eapply try_commit_limited_effect. Qed.

Lemma commit_refines e maximum live now l e' :
  engine_ok e -> try_commit_limited e maximum live now = Ok (l, e') ->
  engine_ok e' /\ abstract_step e e'.
Proof. intros Hok Hc. apply commit_effect_refines; [done|by eapply commit_has_effect]. Qed.

Lemma prune_has_effect e r :
  engine_ok e -> r <= last_committed_round e -> commit_effect e (prune_below_round e r).2.
Proof.
  intros [Hd [? ? ? ? ? ?] ? ? ?] Hr.
  destruct (prune_below_round_spec e r (last_committed_round e)) as [Hk Hp]; [done..|].
  exists (last_committed_round e), (validator_set e).
  split_and!; [lia|lia|constructor|done|]. rewrite Hp. by destruct e.
Qed.

(** ** Starting over *)

Lemma cleared_refines e e' :
  no_blocks e' -> marks_ok e' -> validator_set e' = validator_set e ->
  frozen_validator_set e' = frozen_validator_set e -> local_address e' = local_address e ->
  engine_ok e -> engine_ok e' /\ abstract_step e e'.
Proof.
  intros Hn Hm Hv Hf Ha [? ? ? ? ?]. split; [|by apply abs_cleared].
  split; [by apply no_blocks_dag_ok|done|congruence..].
Qed.

Lemma untouched_empty e : untouched e = true -> dag e = ∅ /\ current_round e = 0 /\ last_committed_round e = 0.
Proof. unfold untouched, dag_is_empty. intros. by dec_hyps. Qed.

Lemma certificate_domain_parts e d e' :
  install_certificate_domain e d = Ok e' -> dag_part e' = dag_part e /\ rest_part e' = rest_part e.
Proof.
  unfold install_certificate_domain. destruct (certificate_domain e); [case_bool_decide|];
    intros [= <-]; done.
Qed.

Lemma domain_refines e d e' :
  engine_ok e -> install_consensus_domain e d = Ok e' -> engine_ok e' /\ abstract_step e e'.
Proof.
  intros Hok. unfold install_consensus_domain. destruct (consensus_domain e).
  { case_bool_decide; [|done]. intros [? ?]%certificate_domain_parts. by apply idle_refines. }
  intros ([] & (Hd & _ & _)%require_Ok%untouched_empty & (e1 & He1 & [= <-])%bind_Ok)%bind_Ok.
  apply certificate_domain_parts in He1 as [[= D1 D2 D3 D4] [= R1 R2 R3 R4 R5 R6 R7 R8 R9]].
  apply cleared_refines; try done.
  - apply (no_blocks_ext e); [|done..]. apply empty_dag_no_blocks; [apply Hok|done].
  - apply (marks_ok_ext e); [|apply Hok]. unfold marks. simpl. congruence.
Qed.

Lemma recovery_cursor_refines e source now r e' :
  engine_ok e -> 0 <= source -> install_recovery_cursor e source now = Ok (r, e') ->
  engine_ok e' /\ abstract_step e e'.
Proof.
  intros Hok Hs. unfold install_recovery_cursor. intros Hrun. inv_ok. split_checked. subst.
  destruct (recovery_bootstrap_round e) as [r0|] eqn:Hb.
  { case_match; [|done]. simplify_eq. by apply idle_refines. }
  apply bind_Ok in Hrun as ([] & Hu%require_Ok%untouched_empty & [= <- <-]).
  destruct Hu as (Hd & Hc & Hl). destruct (ok_marks e Hok) as [? ? ? Hbase Hbound ?].
  unfold u64 in *. apply cleared_refines; try done.
  - apply (no_blocks_ext e); [|done..]. apply empty_dag_no_blocks; [apply Hok|done].
  - split; simpl; unfold u64; try done; try lia.
    + intros y [= <-]. lia.
    + intros y ?%Hbase. lia.
    + intros y ?%Hbound. lia.
Qed.

Lemma generation_refines e fl current next now e' :
  engine_ok e -> u64 fl -> u64 current -> u64 next ->
  install_recovery_generation_cursor e fl current next now = Ok e' ->
  engine_ok e' /\ abstract_step e e'.
Proof.
  intros Hok Hfl Hcur Hnext. unfold install_recovery_generation_cursor, dag_is_empty. intros Hrun.
  inv_ok. dec_hyps. destruct (ok_marks e Hok) as [? ? Hboot Hbase ? ?]. unfold u64 in *.
  apply cleared_refines; try done.
  - apply (no_blocks_ext e); [|done..]. apply empty_dag_no_blocks; [apply Hok|done].
  - split; simpl; unfold u64; try done; try lia.
    + intros y ?%Hboot. lia.
    + intros y ?%Hbase. lia.
    + intros y [= <-]. lia.
Qed.

Lemma restart_base_refines e r e' :
  engine_ok e -> set_restart_base_round e r = Ok e' -> engine_ok e' /\ abstract_step e e'.
Proof.
  intros Hok. unfold set_restart_base_round, dag_is_empty. intros Hrun. inv_ok. dec_hyps. subst.
  destruct (ok_marks e Hok) as [? ? ? ? ? ?]. apply cleared_refines; try done.
  - apply (no_blocks_ext e); [|done..]. apply empty_dag_no_blocks; [apply Hok|done].
  - split; try done. intros y [= <-]. simpl. lia.
Qed.

Lemma rebase_refines e anchor now r e' :
  engine_ok e -> 0 <= anchor -> rebase_to e anchor now = Ok (r, e') ->
  engine_ok e' /\ abstract_step e e'.
Proof.
  intros Hok Ha. unfold rebase_to, check_rebase. intros Hrun. inv_ok. dec_hyps. split_checked.
  destruct (ok_marks e Hok) as [? ? Hboot ? Hbound ?]. unfold u64 in *.
  apply cleared_refines; try done.
  split; simpl; unfold u64; try done; try lia.
  - intros y ?%Hboot. lia.
  - intros y [= <-]. lia.
  - intros y ?%Hbound. lia.
Qed.

Lemma restore_refines e r com now :
  engine_ok e -> u64 r -> last_committed_round e <= com ->
  engine_ok (restore_round_from_local_wal e r com now) /\
  abstract_step e (restore_round_from_local_wal e r com now).
Proof.
  intros Hok Hr Hcom. unfold restore_round_from_local_wal.
  case_bool_decide; [by apply idle_refines|]. case_bool_decide; [|by apply idle_refines].
  destruct Hok as [Hd [? ? Hboot Hbase Hbound ?] ? ? ?]. unfold u64 in *.
  split; [|apply abs_quiet; [by apply keeps_from_same|simpl; lia]].
  split; try done; [by apply (dag_ok_ext e)|]. split; simpl; unfold u64; try done; try lia.
  - intros y ?%Hboot. lia.
  - intros y ?%Hbase. lia.
  - intros y ?%Hbound. lia.
Qed.

Lemma reset_refines e now :
  engine_ok e -> engine_ok (reset_dag e now) /\ abstract_step e (reset_dag e now).
Proof.
  intros Hok. destruct (ok_marks e Hok) as [? ? ? ? ? ?]. by apply cleared_refines.
Qed.

(** ** Every method *)

Lemma freeze_refines e e' : engine_ok e -> freeze_epoch e = Ok e' -> engine_ok e' /\ abstract_step e e'.
Proof.
  intros Hok. unfold freeze_epoch, set_freeze. intros Hrun. inv_ok.
  rename select (validator_set_new _ _ = _) into Hn. apply validator_set_new_wf in Hn.
  by apply set_refines.
Qed.

Lemma membership_refines e e' :
  engine_ok e ->
  (exists a stake key shard, join_validator e a stake key shard = Ok e') \/
  (exists a stake, leave_validator e a = Ok (stake, e')) \/
  (exists a stake, update_validator_stake e a stake = Ok e') \/
  (exists ep, epoch_transition e = Ok (ep, e')) \/ (exists s, update_validator_set e s = Ok e') ->
  engine_ok e' /\ abstract_step e e'.
Proof.
  intros Hok [(a & stake & key & shard & Hrun)|[(a & stake & Hrun)|[(a & stake & Hrun)|
    [(ep & Hrun)|(s & Hrun)]]]].
  - unfold join_validator in Hrun. inv_ok. eapply set_change_refines; [by eapply change_join|done..].
  - unfold leave_validator in Hrun. apply bind_Ok in Hrun as ([x s'] & Hl & [= _ <-]).
    eapply set_change_refines; [by eapply change_leave|done..].
  - unfold update_validator_stake in Hrun. inv_ok.
    eapply set_change_refines; [by eapply change_stake|done..].
  - unfold epoch_transition in Hrun. inv_ok.
    eapply set_change_refines; [by eapply change_epoch|done..].
  - unfold update_validator_set in Hrun. inv_ok.
    eapply set_change_refines; [by eapply change_accept|done..].
Qed.

Lemma slash_refines e e' :
  engine_ok e ->
  (exists a amount removed, enforce_slash e a amount = Ok (removed, e')) \/
  (exists bh p c a r now record, submit_fraud_proof e bh p c a r now = Ok (record, e')) ->
  engine_ok e' /\ abstract_step e e'.
Proof.
  intros Hok [(a & amount & removed & Hrun)|(bh & p & c & a & r & now & record & Hrun)].
  - unfold enforce_slash in Hrun. case_match; inv_ok; [|by apply idle_refines].
    eapply set_change_refines; [by eapply change_slash|done..].
  - unfold submit_fraud_proof in Hrun. apply bind_Ok in Hrun as ([rc s1] & Hr & Hrun). inv_ok.
    apply set_refines; try done; [|apply Hok].
    eapply set_change_wf; [|by eapply change_slash]. eapply set_change_wf; [|by eapply change_report].
    apply Hok.
Qed.

Lemma lock_refines e e' :
  engine_ok e ->
  (exists tx src tgt bh r now p, lock_cross_shard e tx src tgt bh r now = Ok (p, e')) \/
  (exists tx p, commit_cross_shard e tx = Ok (p, e')) \/
  (exists tx p, abort_cross_shard e tx = Ok (p, e')) ->
  engine_ok e' /\ abstract_step e e'.
Proof.
  intros Hok [(tx & src & tgt & bh & r & now & p & Hrun)|[(tx & p & Hrun)|(tx & p & Hrun)]];
    unfold lock_cross_shard, commit_cross_shard, abort_cross_shard in Hrun; inv_ok;
    by apply idle_refines.
Qed.

Lemma quiet_refines e e' :
  engine_ok e -> quiet_step e e' -> engine_ok e' /\ abstract_step e e'.
Proof.
  intros Hok Hstep. destruct Hstep.
  - by eapply receive_refines.
  - by eapply advance_refines.
  - by apply force_refines.
  - by eapply commit_refines.
  - apply commit_effect_refines; [done|by apply prune_has_effect].
  - unfold register_skip_certificate in *. inv_ok. by apply idle_refines.
  - unfold register_finality_certificate in *. inv_ok. by apply idle_refines.
  - rename select (install_certificate_domain _ _ = _) into Hc.
    apply certificate_domain_parts in Hc as [? ?]. by apply idle_refines.
  - by eapply domain_refines.
  - by eapply recovery_cursor_refines.
  - by apply (generation_refines e fl current next now).
  - unfold finish_recovery_generation_replay in *. inv_ok. by apply idle_refines.
  - by eapply restart_base_refines.
  - destruct Hok as [? [? ? ? ? ? ?] ? ? ?]. split; [|by apply abs_same].
    split; try done. by apply (dag_ok_ext e).
  - by eapply rebase_refines.
  - by apply restore_refines.
  - unfold queue_validator. case_bool_decide; by apply idle_refines.
  - by apply freeze_refines.
  - apply membership_refines; [done|]. left. eauto.
  - apply membership_refines; [done|]. eauto 10.
  - apply membership_refines; [done|]. eauto 10.
  - apply membership_refines; [done|]. eauto 10.
  - apply membership_refines; [done|]. eauto 10.
  - apply slash_refines; [done|]. eauto 10.
  - apply slash_refines; [done|]. right. eauto 10.
  - apply lock_refines; [done|]. left. eauto 10.
  - apply lock_refines; [done|]. eauto 10.
  - apply lock_refines; [done|]. eauto 10.
  - destruct (expire_timeout_parts e timeout now) as [Hd Hp].
    by apply idle_refines; [|apply rest_of_prune_part|].
  - by apply idle_refines.
  - by apply idle_refines.
  - by apply idle_refines.
  - destruct Hok as [? [? ? ? ? ? ?] ? ? ?]. split; [|by apply abs_same].
    split; try done; [by apply (dag_ok_ext e)|]. split; try done. simpl.
    unfold PRUNE_DEPTH. lia.
  - by apply idle_refines.
  - by apply idle_refines.
  - by apply idle_refines.
Qed.

(** A step of the engine is an abstract step and keeps the invariant, if the hash has no
    collision among what is hashed for the blocks held before and after it. *)
Lemma step_refines `{!CryptoLaws} inputs e e' :
  derive_key_apart inputs -> hashed_within inputs e -> hashed_within inputs e' ->
  engine_ok e -> engine_step e e' -> engine_ok e' /\ abstract_step e e'.
Proof.
  intros ??? Hok [[Hstep|(b & txs & ts & ? & ? & ?)]|(now & ->)];
    [by apply quiet_refines| |by apply reset_refines].
  by eapply (propose_refines inputs e txs ts b e').
Qed.

(** A step that stays within [inputs]. *)
Definition step_within (inputs : list (string * list Z)) e e' : Prop :=
  engine_step e e' /\ hashed_within inputs e'.

End Steps.
