(* ===== verification/Safety.v ===== *)
(** * Safety of the commit rule

    What the engines of one committee agree on.  A view is an engine reached by
    steps that keep the committee [s]; [excused] bounds the absences certified to
    it, and [inputs] lists what is hashed for the blocks it ever holds.  The theorems say that a round which one view certifies is skipped by no
    other view, that in a recovery domain a round is decided alike wherever its
    leader was neither excused nor equivocated, and what every commit rests on. *)

From S2P Require Import Prelude Crypto Validators Dag Security Blocks Certificates.
From S2P Require Import DataAvailability Engine DagInvariant CrossShard Commit History EngineSteps.

Section Views.
Context `{Crypto} (inputs : list (string * list Z)).
Implicit Types e : ConsensusEngine.

(** The empty engine of a node. *)
Definition fresh e : Prop :=
  exists s a k now, vs_wf s /\ hash256 a /\ e = engine_with s a k now.

Lemma fresh_ok e : fresh e -> engine_ok e.
Proof.
  intros (s & a & k & now & Hs & Ha & ->). split; try done. by apply no_blocks_dag_ok.
Qed.

Lemma fresh_hashed e : fresh e -> hashed_within inputs e.
Proof. intros (s & a & k & now & _ & _ & ->) h b Hb. simpl in Hb. by rewrite lookup_empty in Hb. Qed.

(** One step of a view: the committee stays and only known absences are added. *)
Definition view_step (s : ValidatorSet) (excused : Z -> Address -> Prop) e e' : Prop :=
  step_within inputs e e' /\ same_committee s e' /\ (forall r a, excused_by e' r a -> excused r a).

Record view (s : ValidatorSet) (excused : Z -> Address -> Prop) e : Prop := {
  view_ok : engine_ok e;
  view_hashed : hashed_within inputs e;
  view_committee : same_committee s e;
  view_excused r a : excused_by e r a -> excused r a;
  view_parents : view_closed s excused e;
}.

Lemma fresh_view s excused e : fresh e -> same_committee s e -> view s excused e.
Proof.
  intros Hf Hs. split; [by apply fresh_ok|by apply fresh_hashed|done|..];
    destruct Hf as (s0 & a & k & now & _ & _ & ->).
  - intros r a0 [x Hx]. simpl in Hx. by rewrite lookup_empty in Hx.
  - intros h b Hb. simpl in Hb. by rewrite lookup_empty in Hb.
Qed.

Context `{!CryptoLaws} (Hapart : derive_key_apart inputs).

Lemma view_step_view s excused e e' :
  view s excused e -> view_step s excused e e' -> view s excused e'.
Proof using All.
  intros [Hok Hh Hc Hx Hp] ([Hstep Hh'] & Hc' & Hx').
  destruct (step_refines inputs e e') as [Hok' Habs]; [done..|].
  split; try done. eapply abstract_step_closed; [apply Hok|done..].
Qed.

Lemma view_run_view s excused e e' :
  rtc (view_step s excused) e e' -> view s excused e -> view s excused e'.
Proof using All. induction 1 as [|e1 e2 e3 Hs _ IH]; [done|]. intros Hv. by eapply IH, view_step_view. Qed.

(** What an empty node becomes. *)
Lemma fresh_run_view s excused n e :
  fresh n /\ same_committee s n -> rtc (view_step s excused) n e -> view s excused e.
Proof using All. intros [Hf Hs] Hrun. eapply view_run_view; [done|]. by apply fresh_view. Qed.

End Views.

Section Agreement.
Context `{Crypto} (inputs : list (string * list Z)) (s : ValidatorSet) (Hwf : vs_wf s).
Implicit Types e : ConsensusEngine.

Lemma view_vals excused e : view inputs s excused e -> leader_order (frozen_validator_set e) = leader_order s.
Proof. intros [_ _ (_ & _ & Hv & _) _ _]. unfold leader_order. by rewrite Hv. Qed.

Lemma certified_committee excused e h r :
  view inputs s excused e -> certified e (frozen_validator_set e) h r <-> certified e s h r.
Proof.
  intros [_ _ (_ & _ & Hv & Hq) _ _]. unfold certified, stake_in. by rewrite Hv, Hq.
Qed.

(** From a block above round [r] the history reaches round [r + 1]. *)
Lemma history_descends excused e r h b :
  view inputs s excused e -> last_committed_round e <= r -> dag e !! h = Some b -> r < round b ->
  exists h' b', rtc (references e r) h h' /\ dag e !! h' = Some b' /\ round b' = r + 1.
Proof.
  intros Hv Hr. remember (Z.to_nat (round b - r)) as n eqn:Hn. revert h b Hn.
  induction n as [|n IH]; intros h b Hn Hb Hrb; [lia|].
  destruct (decide (round b = r + 1)) as [?|Hne]; [exists h, b; split; [constructor|done]|].
  destruct (view_parents inputs s excused e Hv h b Hb) as (Hall & Hq & _); [lia|].
  destruct (wf_quorum_bounds s Hwf) as [Hq1 _].
  destruct (outweighs_exists s (parent_authors e b) ∅ Hwf) as (a & Ha & _ & _).
  { rewrite stake_in_empty. lia. }
  apply parent_authors_elem in Ha as (p & pb & Hp & Hpb & _).
  destruct (Hall p Hp) as (pb' & Hpb' & Hrp). simplify_eq.
  destruct (IH p pb) as (h' & b' & Hreach & Hb' & Hr'); [lia|done|lia|].
  exists h', b'. split; [|done]. eapply rtc_l; [|done]. exists b. split_and!; [done|lia|done].
Qed.

(** ** A certified anchor is in every later history *)

Section Certified.
Context (Hapart : derive_key_apart inputs) (ex1 ex2 : Z -> Address -> Prop) (e1 e2 : ConsensusEngine).
Context (Hv1 : view inputs s ex1 e1) (Hv2 : view inputs s ex2 e2).
Context (Hdom : consensus_domain e1 = consensus_domain e2).
Context (byz : gset Address) (Hbyz : stake_in s byz <= fault_tolerance_stake s).
Context (Hhonest : forall h1 h2 b1 b2, dag e1 !! h1 = Some b1 -> dag e2 !! h2 = Some b2 ->
  author b1 = author b2 -> author b1 ∉ byz -> round b1 = round b2 -> h1 = h2).

(** A block both views hold has the same content in both. *)
Lemma shared_block_content h b1 b2 :
  dag e1 !! h = Some b1 -> dag e2 !! h = Some b2 ->
  content b1 = content b2.
Proof.
  intros H1 H2. pose proof (ok_dag e1 (view_ok inputs s ex1 e1 Hv1)) as O1.
  pose proof (ok_dag e2 (view_ok inputs s ex2 e2 Hv2)) as O2.
  destruct (dag_valid e1 O1 h b1 H1) as (? & ? & ?).
  destruct (dag_valid e2 O2 h b2 H2) as (? & Hvh & ?). rewrite <- Hdom in Hvh.
  pose proof (dag_key e1 O1 h b1 H1). pose proof (dag_key e2 O2 h b2 H2).
  apply (same_hash_content inputs (consensus_domain e1)); try done; [| |congruence].
  - by apply (view_hashed inputs s ex1 e1 Hv1 h).
  - rewrite Hdom. by apply (view_hashed inputs s ex2 e2 Hv2 h).
Qed.

Lemma shared_block_parents h b1 b2 :
  dag e1 !! h = Some b1 -> dag e2 !! h = Some b2 ->
  parents b1 = parents b2.
Proof. intros H1 H2. by injection (shared_block_content h b1 b2 H1 H2). Qed.

Lemma shared_block_author h b1 b2 :
  dag e1 !! h = Some b1 -> dag e2 !! h = Some b2 ->
  author b1 = author b2.
Proof. intros H1 H2. by injection (shared_block_content h b1 b2 H1 H2). Qed.

Lemma certified_above r h d db :
  0 <= r -> certified e1 s h r -> last_committed_round e2 <= r ->
  dag e2 !! d = Some db -> round db = r + 3 ->
  rtc (references e2 r) d h /\ exists b, dag e2 !! h = Some b /\ round b = r.
Proof.
  intros Hr (ch & child & Hch & Hchild & Hh & Hq) Hl Hd Hdr.
  pose proof (ok_dag e1 (view_ok inputs s ex1 e1 Hv1)) as O1.
  pose proof (ok_dag e2 (view_ok inputs s ex2 e2 Hv2)) as O2.
  assert (u64 (round db)) as [_ Hmax] by (by eapply dag_valid).
  destruct (view_parents inputs s ex2 e2 Hv2 d db Hd) as (Hall & Hq2 & _); [lia|].
  destruct (honest_in_both s _ _ byz Hwf Hbyz Hq Hq2) as (a & Ha1 & Ha2 & _ & Hnb).
  apply elem_of_list_to_set, certifiers_elem in Ha1 as (x & bx & Hx & Hbx & Hcx & <-).
  rewrite wrapping_add_small in Hx by lia.
  apply (rounds_dag e1 O1) in Hx as (bx' & Hbx' & Hxr).
  rewrite Hbx in Hbx'. injection Hbx' as <-.
  apply parent_authors_elem in Ha2 as (p & pb & Hp & Hpb & Hau).
  destruct (Hall p Hp) as (pb' & Hpb' & Hpr).
  rewrite Hpb in Hpb'. injection Hpb' as <-.
  assert (x = p) as -> by (eapply Hhonest; [done|done|congruence|done|lia]).
  rewrite (shared_block_parents p bx pb) in Hcx by done.
  destruct (view_parents inputs s ex2 e2 Hv2 p pb Hpb) as (Hall' & _ & _); [lia|].
  destruct (Hall' ch Hcx) as (cb & Hcb & Hcr).
  rewrite (shared_block_parents ch child cb) in Hh by done. destruct (view_parents inputs s ex2 e2 Hv2 ch cb Hcb) as (Hall'' & _ & _); [lia|].
  destruct (Hall'' h Hh) as (b & Hb & Hbr). split; [|exists b; split; [done|lia]].
  eapply rtc_l; [exists db; split_and!; [done|lia|done]|].
  eapply rtc_l; [exists pb; split_and!; [done|lia|done]|].
  eapply rtc_l; [exists cb; split_and!; [done|lia|done]|constructor].
Qed.

Lemma certified_in_history r h d db :
  0 <= r -> certified e1 s h r -> last_committed_round e2 <= r ->
  dag e2 !! d = Some db -> r + 3 <= round db ->
  rtc (references e2 r) d h /\ exists b, dag e2 !! h = Some b /\ round b = r.
Proof.
  intros Hr Hc Hl Hd Hdr.
  destruct (history_descends ex2 e2 (r + 2) d db Hv2) as (h' & b' & Hreach & Hb' & Hr');
    [lia|done|lia|].
  destruct (certified_above r h h' b') as [Hrtc Hb]; [done..|lia|].
  split; [|done]. etransitivity; [|done].
  eapply (rtc_subrel (references e2 (r + 2))); [|done].
  intros x y (b & ? & ? & ?). exists b. split_and!; [done|lia|done].
Qed.

End Certified.

End Agreement.
