(* ===== verification/Network.v ===== *)
(** * Several engines on one network

    Scripts of events, as an executable semantics of a run: one engine
    ([run_checked]) or four honest validators that exchange the blocks they
    propose ([run_net]).  Delivery is reliable but in any order.  A script that
    runs is a run of [view_step]s, so that the theorems of Safety.v apply to it;
    the two runs at the end show where the commit rule outside a recovery domain
    stops short of agreement. *)

From S2P Require Import Prelude Crypto Validators Dag Security Blocks Certificates.
From S2P Require Import DataAvailability Engine DagInvariant CrossShard Commit History EngineSteps Safety.

Section Scripts.
Context `{Crypto}.
Implicit Types e : ConsensusEngine.

Inductive event :=
| EvReceive (b : DagBlock)
| EvAdvance
| EvPropose (txs : list Hash256) (ts : Z)
| EvCommit
| EvDomain (d : ConsensusDomain).

Definition run_event e (ev : event) : option ConsensusEngine :=
  match ev with
  | EvReceive b => match receive_block e b with (Ok _, e') => Some e' | _ => None end
  | EvAdvance => match advance_round e 0 with Ok (true, e') => Some e' | _ => None end
  | EvPropose txs ts => match propose_block e txs ts with Ok (_, e') => Some e' | _ => None end
  | EvCommit => match try_commit e 0 with Ok (_, e') => Some e' | _ => None end
  | EvDomain d => match install_consensus_domain e d with Ok e' => Some e' | _ => None end
  end.

(** The ranges of an event, and what a step of a view keeps. *)
Definition hash256b (h : Z) : bool := (0 <=? h) && (h <? 2 ^ 256).
Definition u64b (x : Z) : bool := (0 <=? x) && (x <=? u64_max).

Definition block_okb (b : DagBlock) : bool :=
  hash256b (author b) && u64b (round b) && forallb hash256b (parents b) &&
  forallb hash256b (transactions b) && u64b (timestamp b) && hash256b (ordering_commitment b).

Definition event_okb (ev : event) : bool :=
  match ev with
  | EvReceive b => block_okb b
  | EvPropose txs ts => forallb hash256b txs && u64b ts
  | _ => true
  end.

Definition same_committeeb (s : ValidatorSet) e : bool :=
  bool_decide (validators (validator_set e) = validators s) &&
  bool_decide (quorum (validator_set e) = quorum s) &&
  bool_decide (validators (frozen_validator_set e) = validators s) &&
  bool_decide (quorum (frozen_validator_set e) = quorum s) &&
  bool_decide (map_to_list (skip_certificates e) = []).

Fixpoint run_checked (s : ValidatorSet) e (evs : list event) : option ConsensusEngine :=
  match evs with
  | [] => Some e
  | ev :: evs' =>
      if event_okb ev then
        e' ← run_event e ev;
        if same_committeeb s e' then run_checked s e' evs' else None
      else None
  end.

(** Nobody is ever excused. *)
Definition nobody (r : Z) (a : Address) : Prop := False.

Lemma block_okb_ok b : block_okb b = true -> block_ok b.
Proof.
  unfold block_okb. intros Hb. dec_hyps. unfold block_ok.
  split_and!; [by apply hash256_eval|by apply u64_eval|by apply hashes256_eval|
    by apply hashes256_eval|by apply u64_eval|by apply hash256_eval].
Qed.

(** The events that sign nothing. *)
Definition quiet_event (ev : event) : bool := match ev with EvPropose _ _ => false | _ => true end.

Lemma run_event_step e ev e' :
  event_okb ev = true -> run_event e ev = Some e' ->
  if quiet_event ev then quiet_step e e' else exists b, proposes e b e'.
Proof.
  destruct ev as [b| |txs ts| |d]; simpl; intros Hok Hrun.
  - apply (step_receive e b false); [by apply block_okb_ok|]. unfold receive_block in Hrun.
    destruct (receive_block_inner e b false) as [[[]| |] ?]; naive_solver.
  - destruct (advance_round e 0) as [[[] ?]| |] eqn:Ha; simplify_eq. by eapply step_advance.
  - destruct (propose_block e txs ts) as [[b ?]| |] eqn:Hp; simplify_eq. dec_hyps.
    exists b, txs, ts. split; [by apply hashes256_eval|]. split; [by apply u64_eval|done].
  - destruct (try_commit e 0) as [[l ?]| |] eqn:Hc; simplify_eq. by eapply step_commit.
  - destruct (install_consensus_domain e d) eqn:Hd; simplify_eq. by eapply step_domain.
Qed.

Lemma run_event_live e ev e' :
  event_okb ev = true -> run_event e ev = Some e' -> live_step e e'.
Proof.
  intros Hok Hrun. apply run_event_step in Hrun; [|done].
  destruct (quiet_event ev); [by left|by right].
Qed.

Lemma same_committeeb_ok s e :
  same_committeeb s e = true -> same_committee s e /\ forall r a, excused_by e r a -> nobody r a.
Proof.
  unfold same_committeeb. intros Hc. dec_hyps. split; [done|].
  rename select (map_to_list _ = []) into Hm. apply map_to_list_empty_iff in Hm.
  intros r a [c Hsk]. by rewrite Hm, lookup_empty in Hsk.
Qed.

(** Every engine a script goes through stays within [inputs]. *)
Definition hashed_withinb (inputs : list (string * list Z)) e : bool :=
  forallb (fun hb : Hash256 * DagBlock =>
    forallb (fun i => existsb (fun j => bool_decide (i = j)) inputs)
      (block_inputs (consensus_domain e) hb.2)) (map_to_list (dag e)).

Fixpoint run_hashed (inputs : list (string * list Z)) e (evs : list event) : bool :=
  match evs with
  | [] => true
  | ev :: evs' =>
      match run_event e ev with
      | Some e' => hashed_withinb inputs e' && run_hashed inputs e' evs'
      | None => false
      end
  end.

Lemma hashed_withinb_ok inputs e : hashed_withinb inputs e = true -> hashed_within inputs e.
Proof.
  unfold hashed_withinb. rewrite forallb_forall. intros Hall h b Hb i Hi.
  assert (In (h, b) (map_to_list (dag e))) as Hin by (by apply list_elem_of_In, elem_of_map_to_list).
  specialize (Hall _ Hin). rewrite forallb_forall in Hall.
  specialize (Hall i (proj1 (list_elem_of_In _ _) Hi)).
  apply existsb_exists in Hall as (j & Hj & ->%bool_decide_eq_true). by apply list_elem_of_In.
Qed.

Lemma run_checked_steps inputs s e evs e' :
  run_checked s e evs = Some e' -> run_hashed inputs e evs = true ->
  rtc (view_step inputs s nobody) e e'.
Proof.
  revert e. induction evs as [|ev evs IH]; intros e; simpl; [intros [= <-]; constructor|].
  destruct (event_okb ev) eqn:Hok; [|done]. intros (e1 & H1 & Hrest)%bind_Some.
  destruct (same_committeeb s e1) eqn:Hc; [|done]. apply same_committeeb_ok in Hc as [? ?].
  rewrite H1. intros [Hh Hhs]%andb_true_iff. eapply rtc_l; [|by apply IH].
  split; [|done]. split; [left; by eapply run_event_live|by apply hashed_withinb_ok].
Qed.

(** A script that proposes nothing keeps the invariant. *)
Lemma run_event_ok e ev e' :
  engine_ok e -> quiet_event ev = true -> event_okb ev = true -> run_event e ev = Some e' ->
  engine_ok e'.
Proof.
  intros Hok Hq Hev Hrun. apply run_event_step in Hrun; [|done]. rewrite Hq in Hrun.
  by apply quiet_refines in Hrun as [? _].
Qed.

Lemma run_checked_ok s e evs e' :
  engine_ok e -> forallb quiet_event evs = true -> run_checked s e evs = Some e' -> engine_ok e'.
Proof.
  revert e. induction evs as [|ev evs IH]; intros e Hok; simpl; [by intros _ [= <-]|].
  intros [Hq Hqs]%andb_true_iff. destruct (event_okb ev) eqn:Hev; [|done].
  intros (e1 & H1 & Hrest)%bind_Some. destruct (same_committeeb s e1); [|done].
  eapply IH; [|done|done]. by eapply run_event_ok.
Qed.

(** Two engines hold at most one block per author and round, outside [byz]. *)
Definition consistentb (byz : gset Address) e1 e2 : bool :=
  forallb (fun x : Hash256 * DagBlock => forallb (fun y : Hash256 * DagBlock =>
    bool_decide (author x.2 <> author y.2) || bool_decide (author x.2 ∈ byz) ||
    bool_decide (round x.2 <> round y.2) || bool_decide (x.1 = y.1))
    (map_to_list (dag e2))) (map_to_list (dag e1)).

Lemma consistentb_ok byz e1 e2 :
  consistentb byz e1 e2 = true ->
  forall h1 h2 b1 b2, dag e1 !! h1 = Some b1 -> dag e2 !! h2 = Some b2 ->
    author b1 = author b2 -> author b1 ∉ byz -> round b1 = round b2 -> h1 = h2.
Proof.
  unfold consistentb. rewrite forallb_forall. intros Hall h1 h2 b1 b2 H1 H2 Ha Hb Hr.
  assert (In (h1, b1) (map_to_list (dag e1))) as I1 by (by apply list_elem_of_In, elem_of_map_to_list).
  specialize (Hall _ I1). rewrite forallb_forall in Hall.
  assert (In (h2, b2) (map_to_list (dag e2))) as I2 by (by apply list_elem_of_In, elem_of_map_to_list).
  specialize (Hall _ I2). simpl in Hall. rewrite !bool_decide_false in Hall by auto. simpl in Hall.
  by apply bool_decide_eq_true in Hall.
Qed.

(** ** A network of honest validators *)

Record net := mkNet { nodes : list ConsensusEngine; sent : list DagBlock }.

(** Node [i] proposes in its current round, moves to the next round, or receives
    the [k]-th block of an author in round [r].  [NByzantine] puts a block of a
    misbehaving author on the network. *)
Inductive net_event :=
| NPropose (i : nat)
| NAdvance (i : nat)
| NDeliver (i : nat) (a : Address) (r : Z) (k : nat)
| NByzantine (b : DagBlock).

(** The scripts without [NByzantine]. *)
Definition all_honest (evs : list net_event) : bool :=
  forallb (fun ev => match ev with NByzantine _ => false | _ => true end) evs.

Definition on_node (n : net) (i : nat) (f : ConsensusEngine -> option ConsensusEngine) : option net :=
  e ← nodes n !! i;
  e' ← f e;
  Some (mkNet (<[i := e']> (nodes n)) (sent n)).

Definition net_step (n : net) (ev : net_event) : option net :=
  match ev with
  | NPropose i =>
      e ← nodes n !! i;
      match propose_block e [current_round e + 1] 0 with
      | Ok (b, e') => Some (mkNet (<[i := e']> (nodes n)) (sent n ++ [b]))
      | _ => None
      end
  | NAdvance i => on_node n i (fun e => run_event e EvAdvance)
  | NDeliver i a r k =>
      b ← filter (fun b => author b = a /\ round b = r) (sent n) !! k;
      on_node n i (fun e => run_event e (EvReceive b))
  | NByzantine b => Some (mkNet (nodes n) (sent n ++ [b]))
  end.

Fixpoint run_net (n : net) (evs : list net_event) : option net :=
  match evs with
  | [] => Some n
  | ev :: evs' => n' ← net_step n ev; run_net n' evs'
  end.

(** The hashes a node commits when it runs the commit rule now. *)
Definition commits_of (n : net) (i : nat) : option (list Hash256) :=
  e ← nodes n !! i;
  match try_commit e 0 with Ok (l, _) => Some (hash <$> l) | _ => None end.

Definition net_runs (n : net) (evs : list net_event) : bool :=
  match run_net n evs with Some _ => true | None => false end.

Lemma net_runs_Some n evs :
  net_runs n evs = true -> run_net n evs = Some (default n (run_net n evs)).
Proof. unfold net_runs. by destruct (run_net n evs). Qed.

End Scripts.

(** ** Concrete runs *)

Module DemoRun.
Import Demo DemoNet.

Definition node (i : Z) : ConsensusEngine := new_with_keypair committee_set (addr i) (key i) 0.

Definition four_nodes : net := mkNet (node <$> [0; 1; 2; 3]) [].

(** Deliver to node [i] the blocks of [js] in round [r]. *)
Definition give (i : nat) (r : Z) (js : list Z) : list net_event :=
  (fun j => NDeliver i (addr j) r 0) <$> js.

(** Node [i] steps into the next round and proposes. *)
Definition next (i : nat) : list net_event := [NAdvance i; NPropose i].

Definition fork_script : list net_event :=
  (NPropose <$> [0; 1; 2; 3])%nat ++
  (* round 0 -> 1: node 0 builds on blocks 0 1 2, the others on 1 2 3 *)
  give 0 0 [1; 2] ++ next 0 ++ give 1 0 [2; 3] ++ next 1 ++
  give 2 0 [1; 3] ++ next 2 ++ give 3 0 [1; 2] ++ next 3 ++
  (* round 1 -> 2 *)
  give 0 0 [3] ++ give 0 1 [1; 2] ++ next 0 ++ give 1 1 [2; 3] ++ next 1 ++
  give 2 1 [1; 3] ++ next 2 ++ give 3 1 [1; 2] ++ next 3 ++
  (* round 2 -> 3 *)
  give 0 1 [3] ++ give 0 2 [1; 2] ++ next 0 ++ give 1 2 [2; 3] ++ next 1 ++
  give 2 2 [1; 3] ++ next 2 ++ give 3 2 [1; 2] ++ next 3 ++
  (* round 3 -> 4 *)
  give 0 2 [3] ++ give 0 3 [1; 3] ++ next 0 ++ give 1 3 [2; 3] ++ next 1 ++
  give 2 0 [0] ++ give 2 1 [0] ++ give 2 2 [0] ++ give 2 3 [0; 1] ++ next 2 ++
  give 3 3 [1; 2] ++ next 3 ++
  (* round 4 -> 5 *)
  give 0 3 [2] ++ give 0 4 [1; 2] ++ next 0 ++
  give 1 0 [0] ++ give 1 1 [0] ++ give 1 2 [0] ++ give 1 3 [0] ++ give 1 4 [2; 3] ++ next 1 ++
  give 2 3 [3] ++ give 2 4 [1; 3] ++ next 2 ++
  give 3 0 [0] ++ give 3 1 [0] ++ give 3 2 [0] ++ give 3 3 [0] ++ give 3 4 [0; 2] ++ next 3 ++
  (* round 5 -> 6: node 1 holds the blocks of 0 1 2, the others those of 0 2 3 *)
  give 1 4 [0] ++ give 1 5 [0; 2] ++ [NAdvance 1%nat] ++
  give 0 4 [3] ++ give 0 5 [2; 3] ++ next 0 ++
  give 2 4 [0] ++ give 2 5 [0; 3] ++ next 2 ++
  give 3 4 [1] ++ give 3 5 [0; 2] ++ next 3 ++
  (* round 6 at node 2 *)
  give 2 6 [0; 3] ++ [NAdvance 2%nat].

(** A second, signed block of validator 0 in round 0. *)
Definition twin : DagBlock :=
  let b := mkDagBlock (addr 0) 0 [] [77] 0 0 [] (compute_ordering_commitment [77]) in
  let b' := b <| hash := compute_hash b |> in
  match kp_sign (key 0) (hash b') with
  | Ok sig => b' <| signature := default [] (bincode_signature sig) |>
  | _ => b'
  end.

Definition give_twin (i : nat) : list net_event := [NDeliver i (addr 0) 0 1].

Definition twin_script : list net_event :=
  (NPropose <$> [0; 1; 2; 3])%nat ++ [NByzantine twin] ++
  (* round 0 -> 1: node 1 builds on the first block of 0, node 2 on its twin *)
  give 0 0 [1; 2] ++ next 0 ++ give 1 0 [0; 2] ++ next 1 ++
  give_twin 2 ++ give 2 0 [1] ++ next 2 ++ give 3 0 [1; 2] ++ next 3 ++
  (* round 1 -> 2 *)
  give_twin 0 ++ give 0 0 [3] ++ give 0 1 [2; 3] ++ next 0 ++
  give_twin 1 ++ give 1 0 [3] ++ give 1 1 [2; 3] ++ next 1 ++
  give 2 0 [0; 3] ++ give 2 1 [1; 3] ++ next 2 ++
  give 3 0 [0] ++ give 3 1 [0; 1] ++ next 3 ++
  (* round 2: node 1 gets the blocks of 2 and 3, node 2 those of 0 and 1 *)
  give 1 2 [2] ++ give 1 1 [0] ++ give 1 2 [3] ++ [NAdvance 1%nat] ++
  give 2 1 [0] ++ give 2 2 [0; 1] ++ [NAdvance 2%nat].

Definition twin_net : net := default four_nodes (run_net four_nodes twin_script).

Lemma twin_net_run : run_net four_nodes twin_script = Some twin_net.
Proof.
  unfold twin_net. rewrite <- (net_runs_Some four_nodes twin_script); [done|].
  vm_compute. reflexivity.
Qed.

(** Views of one committee that hold every block of the first [n] rounds, with or
    without a recovery domain. *)
Definition blk (dom : option ConsensusDomain) (i r : Z) (ps : list DagBlock) : DagBlock :=
  let b := mkDagBlock (addr i) r (sort_hashes (hash <$> ps)) [] 0 0 []
             (compute_ordering_commitment []) in
  let b' := b <| hash := block_hash_in dom b |> in
  match kp_sign (key i) (hash b') with
  | Ok sig => b' <| signature := default [] (bincode_signature sig) |>
  | _ => b'
  end.

Fixpoint full_rounds (dom : option ConsensusDomain) (n : nat) (r : Z) (prev : list DagBlock)
    : list (list DagBlock) :=
  match n with
  | O => []
  | S n' =>
      let bs := (fun i => blk dom i r prev) <$> [0; 1; 2; 3] in
      bs :: full_rounds dom n' (r + 1) bs
  end.

Definition full_script (dom : option ConsensusDomain) (n : nat) : list event :=
  match dom with Some d => [EvDomain d] | None => [] end ++
  mjoin ((fun bs => (EvReceive <$> bs) ++ [EvAdvance]) <$> full_rounds dom n 0 []).

Definition full_view (dom : option ConsensusDomain) (i : Z) (n : nat) : ConsensusEngine :=
  default (node i) (run_checked committee_set (node i) (full_script dom n)).

Definition full_runs (dom : option ConsensusDomain) (i : Z) (n : nat) : bool :=
  match run_checked committee_set (node i) (full_script dom n) with
  | Some _ => true
  | None => false
  end.

(** What is hashed for the blocks of the first [n] rounds. *)
Definition full_inputs (dom : option ConsensusDomain) (n : nat) : list (string * list Z) :=
  mjoin (full_rounds dom n 0 []) ≫= block_inputs dom.

Lemma full_view_run inputs dom i n :
  full_runs dom i n = true -> run_hashed inputs (node i) (full_script dom n) = true ->
  rtc (view_step inputs committee_set nobody) (node i) (full_view dom i n).
Proof.
  unfold full_view, full_runs. intros Hrun Hh.
  destruct (run_checked committee_set (node i) (full_script dom n)) as [e|] eqn:He; [|done].
  by eapply run_checked_steps.
Qed.

Lemma node_fresh i : hash256 (addr i) -> fresh (node i).
Proof. intros Ha. exists committee_set, (addr i), (Some (key i)), 0. split; [apply committee_wf|done]. Qed.

Lemma full_view_ok dom i n :
  hash256 (addr i) -> full_runs dom i n && forallb quiet_event (full_script dom n) = true ->
  engine_ok (full_view dom i n).
Proof.
  intros Ha [Hrun Hq]%andb_true_iff. unfold full_view, full_runs in *.
  destruct (run_checked committee_set (node i) (full_script dom n)) as [e|] eqn:He; [|done].
  eapply run_checked_ok; [|done|done]. by apply fresh_ok, node_fresh.
Qed.

Lemma node_committee i : same_committee committee_set (node i).
Proof. done. Qed.

(** The outcome of a proposal that succeeds. *)
Definition run_proposal (e : ConsensusEngine) (txs : list Hash256) : DagBlock * ConsensusEngine :=
  match propose_block e txs 0 with
  | Ok r => r
  | _ => (twin, e)
  end.

Lemma run_proposal_ok e txs :
  is_ok (propose_block e txs 0) = true ->
  propose_block e txs 0 = Ok ((run_proposal e txs).1, (run_proposal e txs).2).
Proof. unfold run_proposal. by destruct (propose_block e txs 0) as [[b e']| |]. Qed.

End DemoRun.
