(* ===== verification/Agreement.v ===== *)
(** * Theorems about the commit rule

    The correctness statements of the engine that speak about runs: the
    invariant of every reachable engine, what [try_commit] commits, what two
    views of a committee agree on, and two runs that show where agreement ends
    outside a recovery domain. *)

From S2P Require Import Prelude Crypto Validators Dag Security Blocks Certificates.
From S2P Require Import DataAvailability Engine DagInvariant CrossShard Commit History EngineSteps Safety Network.

(** ** Verdicts of views *)

Section Verdicts.
Context `{Crypto} (inputs : list (string * list Z)).
Implicit Types e : ConsensusEngine.

(** The verdict [try_commit] reaches on round [r]. *)
Definition verdict_of e (scan_end r : Z) : outcome ConsensusError verdict :=
  decide_round e (frozen_validator_set e) (leader_order (frozen_validator_set e))
    (bool_decide (is_Some (consensus_domain e))) scan_end r.

Lemma decides_block excused s e vals from to rd d :
  view inputs s excused e -> decides e (frozen_validator_set e) vals from to rd d ->
  exists b, dag e !! d = Some b /\ round b = rd /\ from <= rd.
Proof.
  intros Hv ((? & _) & (a & b & _ & Hin & Hb & _)%anchors_of_elem & _).
  apply (rounds_dag e (ok_dag e (view_ok inputs s excused e Hv))) in Hin as (b' & ? & ?).
  simplify_eq. eauto.
Qed.

Lemma anchor_block excused s e vals r h :
  view inputs s excused e -> h ∈ anchors_of e vals r ->
  exists b, dag e !! h = Some b /\ round b = r /\ leader_of vals r = Some (author b).
Proof.
  intros Hv (a & b & Hl & Hin & Hb & <-)%anchors_of_elem.
  apply (rounds_dag e (ok_dag e (view_ok inputs s excused e Hv))) in Hin as (b' & ? & ?).
  simplify_eq. eauto.
Qed.

Lemma frozen_wf excused s e : view inputs s excused e -> vs_wf (frozen_validator_set e).
Proof. intros Hv. apply (view_ok inputs s excused e Hv). Qed.

(** A round whose leader took part cannot be skipped: in a recovery domain every
    block one round above references a block of every member not excused. *)
Lemma unexcused_round_not_skipped s excused e scan_end r leader :
  vs_wf s -> view inputs s excused e -> is_Some (consensus_domain e) ->
  last_committed_round e <= r -> 0 <= r -> r + 3 <= u64_max ->
  leader_of (leader_order s) r = Some leader -> ~ excused r leader ->
  verdict_of e scan_end r <> Ok SkipRound.
Proof.
  intros Hwf Hv Hdom Hr Hr0 Hmax Hleader Hex Hskip. unfold verdict_of in Hskip.
  rewrite (view_vals inputs s excused e Hv) in Hskip.
  destruct (decide_round_spec e (frozen_validator_set e) (frozen_wf excused s e Hv)
    (leader_order s) (bool_decide (is_Some (consensus_domain e))) scan_end r Hr0 Hmax)
    as (v & Hv' & Hreason). rewrite Hskip in Hv'. injection Hv' as <-.
  destruct Hreason as (rd & d & Hdec & Hnone).
  destruct (decides_block excused s e _ _ _ _ _ Hv Hdec) as (db & Hdb & Hrd & Hle).
  destruct (history_descends inputs s Hwf excused e r d db Hv) as (c & cb & Hreach & Hcb & Hrc);
    [lia|done|lia|].
  destruct (view_parents inputs s excused e Hv c cb Hcb) as (Hall & _ & Hfull); [lia|].
  assert (exists v, v ∈ validators s /\ v_address v = leader) as (v & Hin & <-).
  { unfold leader_of in Hleader. apply list_elem_of_lookup_2 in Hleader.
    unfold leader_order in Hleader. rewrite elem_of_sort_hashes in Hleader.
    apply list_elem_of_fmap in Hleader as (v & -> & ?). eauto. }
  destruct (Hfull Hdom v Hin) as [Ha|Hx].
  2:{ replace (round cb - 1) with r in Hx by lia. done. }
  apply parent_authors_elem in Ha as (p & pb & Hp & Hpb & Hau).
  destruct (Hall p Hp) as (pb' & Hpb' & Hpr). rewrite Hpb in Hpb'. injection Hpb' as <-.
  destruct (Hnone p) as [_ Hnr].
  { apply anchors_of_elem. exists (v_address v), pb. split_and!; [done| |done|done].
    replace r with (round pb) by lia. apply (dag_rounds e); [apply Hv|done]. }
  apply Hnr. eapply rtc_r; [done|]. exists cb. split_and!; [done|lia|done].
Qed.

(** So a view that decides such a round commits the leader's block. *)
Lemma unexcused_commits s excused e scan_end r leader v :
  vs_wf s -> view inputs s excused e -> is_Some (consensus_domain e) ->
  last_committed_round e <= r -> 0 <= r -> r + 3 <= u64_max ->
  leader_of (leader_order s) r = Some leader -> ~ excused r leader ->
  verdict_of e scan_end r = Ok v -> v <> Fence ->
  exists h b, v = CommitAnchor h /\ dag e !! h = Some b /\ author b = leader /\ round b = r.
Proof.
  intros Hwf Hv Hdom Hr Hr0 Hmax Hleader Hex Hverdict Hnf.
  destruct v as [h| |]; [|exfalso; by eapply unexcused_round_not_skipped|done].
  unfold verdict_of in Hverdict. rewrite (view_vals inputs s excused e Hv) in Hverdict.
  apply decide_round_anchor in Hverdict; [|by eapply frozen_wf].
  apply (anchor_block excused s e _ _ _ Hv) in Hverdict as (b & ? & ? & ?).
  exists h, b. split_and!; [done|done|congruence|done].
Qed.

End Verdicts.

(** ** The theorems *)

(** C1: a round that one view commits directly is skipped by no other view.  Take
    two nodes of a committee with at most the tolerated stake misbehaving, both
    started empty and run through any engine steps that keep the committee.  If the
    anchor [h] of round [r] has two-round support at node 1, then node 2, whatever
    blocks it holds, never passes over round [r]: it commits an anchor (the same
    one when the leader is honest) or waits.  BLAKE3 is assumed to have no collision
    among [inputs], a list of the byte strings hashed for the blocks held along the
    two runs. *)
Theorem certified_round_never_skipped `{Crypto, !CryptoLaws} (inputs : list (string * list Z))
  (s : ValidatorSet) (byz : gset Address) (ex1 ex2 : Z -> Address -> Prop) (n1 e1 n2 e2 : ConsensusEngine)
  (r scan_end stake : Z) (h : Hash256) (v : verdict)
  (Hapart : derive_key_apart inputs) (Hwf : vs_wf s) (Hbyz : stake_in s byz <= fault_tolerance_stake s)
  (Hn1 : fresh n1 /\ same_committee s n1) (Hn2 : fresh n2 /\ same_committee s n2)
  (Hrun1 : rtc (view_step inputs s ex1) n1 e1) (Hrun2 : rtc (view_step inputs s ex2) n2 e2)
  (Hdom : consensus_domain e1 = consensus_domain e2)
  (Hhonest : forall h1 h2 b1 b2, dag e1 !! h1 = Some b1 -> dag e2 !! h2 = Some b2 ->
     author b1 = author b2 -> author b1 ∉ byz -> round b1 = round b2 -> h1 = h2)
  (Hr : last_committed_round e2 <= r) (Hmax : r + 3 <= u64_max)
  (Hanchor : h ∈ anchors_of e1 (leader_order s) r)
  (Hcert : two_round_commit_support e1 h r (frozen_validator_set e1) = Ok (Some stake))
  (Hv : verdict_of e2 scan_end r = Ok v) :
  v = Fence \/
  (exists h', v = CommitAnchor h' /\
     ((forall a, leader_of (leader_order s) r = Some a -> a ∉ byz) -> h' = h)).
Proof.
  pose proof (fresh_run_view inputs Hapart s ex1 n1 e1 Hn1 Hrun1) as V1.
  pose proof (fresh_run_view inputs Hapart s ex2 n2 e2 Hn2 Hrun2) as V2.
  pose proof (mark_cursor e2 (ok_marks e2 (view_ok inputs s ex2 e2 V2))) as [Hl0 _].
  destruct (two_round_commit_support_spec e1 _ h r (frozen_wf inputs ex1 s e1 V1)) as (o & Ho & Hiff).
  rewrite Hcert in Ho. injection Ho as <-.
  assert (certified e1 s h r) as Hc.
  { apply (certified_committee inputs s ex1 e1 h r V1), Hiff. eauto. }
  unfold verdict_of in Hv. rewrite (view_vals inputs s ex2 e2 V2) in Hv.
  destruct (decide_round_spec e2 (frozen_validator_set e2) (frozen_wf inputs ex2 s e2 V2)
    (leader_order s) (bool_decide (is_Some (consensus_domain e2))) scan_end r ltac:(lia) Hmax)
    as (v' & Hv' & Hreason). rewrite Hv in Hv'. injection Hv' as <-.
  apply (anchor_block inputs ex1 s e1 _ _ _ V1) in Hanchor as (b & Hb & Hbr & Hleader).
  destruct v as [h'| |]; [right|exfalso|by left].
  - exists h'. split; [done|]. intros Hlead. destruct Hreason as [Hanc _].
    apply (anchor_block inputs ex2 s e2 _ _ _ V2) in Hanc as (b' & Hb' & Hbr' & Hleader').
    symmetry. eapply Hhonest; [done|done|congruence|by apply Hlead|congruence].
  - destruct Hreason as (rd & d & Hdec & Hnone).
    destruct (decides_block inputs ex2 s e2 _ _ _ _ _ V2 Hdec) as (db & Hdb & Hrd & Hle).
    destruct (certified_in_history inputs s Hwf Hapart ex1 ex2 e1 e2 V1 V2 Hdom byz Hbyz Hhonest r h d db)
      as (Hreach & b' & Hb' & Hbr'); [lia|done|done|done|lia|].
    pose proof (shared_block_author inputs s Hapart ex1 ex2 e1 e2 V1 V2 Hdom h b b' Hb Hb') as Hau.
    destruct (Hnone h) as [_ []]; [|done]. apply anchors_of_elem.
    exists (author b'), b'. split_and!; [congruence| |done|done].
    rewrite <- Hbr'. apply (dag_rounds e2); [apply V2|done].
Qed.

Lemma certified_round_never_skipped_witness :
  let e1 := DemoRun.full_view None 1 3 in
  let e2 := DemoRun.full_view None 2 3 in
  let h := hash (DemoRun.blk None 0 0 []) in
  verdict_of e2 1 0 = Ok (CommitAnchor h) /\
  (CommitAnchor h = Fence \/
   (exists h', CommitAnchor h = CommitAnchor h' /\
      ((forall a, leader_of (leader_order DemoNet.committee_set) 0 = Some a ->
          a ∉ ({[DemoNet.addr 3]} : gset Address)) -> h' = h))).
Proof.
  intros e1 e2 h. assert (verdict_of e2 1 0 = Ok (CommitAnchor h)) as Hv by (vm_compute; reflexivity).
  split; [exact Hv|].
  apply (@certified_round_never_skipped Demo.demo_crypto Demo.demo_laws
    (DemoRun.full_inputs None 3) DemoNet.committee_set
    {[DemoNet.addr 3]} nobody nobody (DemoRun.node 1) e1 (DemoRun.node 2) e2 0 1 40000000 h).
  - apply (@derive_key_apartb_ok Demo.demo_crypto). vm_compute. reflexivity.
  - apply DemoNet.committee_wf.
  - apply Z.leb_le. vm_compute. reflexivity.
  - split; [apply DemoRun.node_fresh; eval_range|apply DemoRun.node_committee].
  - split; [apply DemoRun.node_fresh; eval_range|apply DemoRun.node_committee].
  - apply DemoRun.full_view_run; vm_compute; reflexivity.
  - apply DemoRun.full_view_run; vm_compute; reflexivity.
  - vm_compute. reflexivity.
  - apply consistentb_ok. vm_compute. reflexivity.
  - apply Z.leb_le. vm_compute. reflexivity.
  - unfold u64_max. lia.
  - apply (bool_decide_eq_true_1 (h ∈ anchors_of e1 _ 0)). vm_compute. reflexivity.
  - vm_compute. reflexivity.
  - exact Hv.
Defined.

(** C2: in a recovery domain two views decide a round alike.  When the leader of
    round [r] signed one block there and neither view accepted an absence
    certificate for it, then whichever of the two decides round [r] commits the
    leader's block, and both commit the same one.  BLAKE3 is assumed to have no collision
    among [inputs], a list of the byte strings hashed for the blocks held along the
    two runs. *)
Theorem recovery_round_agreement `{Crypto, !CryptoLaws} (inputs : list (string * list Z))
  (s : ValidatorSet)
  (ex1 ex2 : Z -> Address -> Prop) (n1 e1 n2 e2 : ConsensusEngine)
  (r end1 end2 : Z) (leader : Address) (v1 v2 : verdict)
  (Hapart : derive_key_apart inputs) (Hwf : vs_wf s)
  (Hn1 : fresh n1 /\ same_committee s n1) (Hn2 : fresh n2 /\ same_committee s n2)
  (Hrun1 : rtc (view_step inputs s ex1) n1 e1) (Hrun2 : rtc (view_step inputs s ex2) n2 e2)
  (Hdom1 : is_Some (consensus_domain e1)) (Hdom2 : is_Some (consensus_domain e2))
  (Hleader : leader_of (leader_order s) r = Some leader)
  (Hex : ~ ex1 r leader /\ ~ ex2 r leader)
  (Hone : forall h1 h2 b1 b2, dag e1 !! h1 = Some b1 -> dag e2 !! h2 = Some b2 ->
     author b1 = leader -> author b2 = leader -> round b1 = r -> round b2 = r -> h1 = h2)
  (Hr1 : last_committed_round e1 <= r) (Hr2 : last_committed_round e2 <= r)
  (Hmax : r + 3 <= u64_max)
  (Hv1 : verdict_of e1 end1 r = Ok v1) (Hv2 : verdict_of e2 end2 r = Ok v2)
  (Hd1 : v1 <> Fence) (Hd2 : v2 <> Fence) :
  exists h, v1 = CommitAnchor h /\ v2 = CommitAnchor h.
Proof.
  pose proof (fresh_run_view inputs Hapart s ex1 n1 e1 Hn1 Hrun1) as V1.
  pose proof (fresh_run_view inputs Hapart s ex2 n2 e2 Hn2 Hrun2) as V2.
  pose proof (mark_cursor e2 (ok_marks e2 (view_ok inputs s ex2 e2 V2))) as [Hl0 _].
  destruct (unexcused_commits inputs s ex1 e1 end1 r leader v1) as (h1 & b1 & -> & ? & ? & ?);
    [done..|lia|done|done|apply Hex|done|done|].
  destruct (unexcused_commits inputs s ex2 e2 end2 r leader v2) as (h2 & b2 & -> & ? & ? & ?);
    [done..|lia|done|done|apply Hex|done|done|].
  exists h1. split; [done|]. f_equal. symmetry. by eapply Hone.
Qed.

Lemma recovery_round_agreement_witness :
  let d := Some DemoDag.demo_domain in
  let e1 := DemoRun.full_view d 1 3 in
  let e2 := DemoRun.full_view d 2 4 in
  let h := hash (DemoRun.blk d 0 0 []) in
  verdict_of e1 1 0 = Ok (CommitAnchor h) /\ verdict_of e2 2 0 = Ok (CommitAnchor h) /\
  exists h', CommitAnchor h = CommitAnchor h' /\ CommitAnchor h = CommitAnchor h'.
Proof.
  intros d e1 e2 h.
  assert (verdict_of e1 1 0 = Ok (CommitAnchor h)) as Hv1 by (vm_compute; reflexivity).
  assert (verdict_of e2 2 0 = Ok (CommitAnchor h)) as Hv2 by (vm_compute; reflexivity).
  split; [exact Hv1|]. split; [exact Hv2|].
  apply (@recovery_round_agreement Demo.demo_crypto Demo.demo_laws
    (DemoRun.full_inputs d 4) DemoNet.committee_set nobody nobody (DemoRun.node 1) e1 (DemoRun.node 2) e2 0 1 2 (DemoNet.addr 0)).
  - apply (@derive_key_apartb_ok Demo.demo_crypto). vm_compute. reflexivity.
  - apply DemoNet.committee_wf.
  - split; [apply DemoRun.node_fresh; eval_range|apply DemoRun.node_committee].
  - split; [apply DemoRun.node_fresh; eval_range|apply DemoRun.node_committee].
  - apply DemoRun.full_view_run; vm_compute; reflexivity.
  - apply DemoRun.full_view_run; vm_compute; reflexivity.
  - exists DemoDag.demo_domain. vm_compute. reflexivity.
  - exists DemoDag.demo_domain. vm_compute. reflexivity.
  - vm_compute. reflexivity.
  - split; intros [].
  - assert (consistentb ∅ e1 e2 = true) as Hc by (vm_compute; reflexivity).
    intros h1 h2 b1 b2 H1 H2 Ha1 Ha2 Hr1 Hr2.
    apply (consistentb_ok ∅ e1 e2 Hc h1 h2 b1 b2 H1 H2); [by rewrite Ha1, Ha2| |by rewrite Hr1, Hr2].
    apply not_elem_of_empty.
  - apply Z.leb_le. vm_compute. reflexivity.
  - apply Z.leb_le. vm_compute. reflexivity.
  - unfold u64_max. lia.
  - exact Hv1.
  - exact Hv2.
  - discriminate.
  - discriminate.
Defined.

(** C16: [try_commit] on any engine that satisfies the invariant (with a committee
    frozen and the round below [u64::MAX]) returns, moves the commit cursor forward
    only, and commits in strictly ascending rounds only blocks it holds, never
    committed before, authored by the leader of their round and either supported by
    a quorum two rounds above or in the history of a supported anchor at least three
    rounds above.  Every round it passes is committed or skipped because such a later
    anchor's history lacks every block of its leader. *)
Theorem try_commit_sound `{Crypto} (e : ConsensusEngine) (now : Z)
  (Hok : engine_ok e) (Hround : 2 <= current_round e < u64_max)
  (Hepoch : epoch (frozen_validator_set e) <> 0) :
  let s := frozen_validator_set e in
  let vals := leader_order s in
  let scan_end := current_round e - 2 in
  let old := list_to_set (committed e) : gset Hash256 in
  exists l e', try_commit e now = Ok (l, e') /\
    last_committed_round e <= last_committed_round e' <=
      Z.max (last_committed_round e) (current_round e - 1) /\
    StronglySorted (fun b b' => round b < round b') l /\
    Forall (committed_block e s vals scan_end old (last_committed_round e)
              (last_committed_round e')) l /\
    (forall r, last_committed_round e <= r < last_committed_round e' ->
       (exists b, b ∈ l /\ round b = r) \/
       (exists h, h ∈ committed e /\ commit_reason e s vals scan_end r h) \/
       skip_reason e s vals scan_end r).
Proof.
  intros s vals scan_end old. destruct Hok as [Hd [? ? ? ? ? ?] ? Hwf ?].
  destruct (try_commit_limited_runs e u64_max true now) as (l & e' & Hrun & Hdec); [done..|].
  exists l, e'. split; [done|].
  pose proof (decided_cursor _ _ _ _ _ _ _ _ Hdec) as Hcur.
  destruct (decided_blocks _ _ _ _ _ _ _ _ Hd Hdec) as [Hl Hs].
  split; [lia|]. split; [done|]. split; [done|]. intros r Hr.
  eapply decided_rounds in Hdec as [?|[(h & Hh & ?)|?]]; [by left| |by auto|done..].
  right. left. exists h. by rewrite elem_of_list_to_set in Hh.
Qed.

Lemma try_commit_sound_witness :
  let e := DemoRun.full_view None 1 5 in
  let s := frozen_validator_set e in
  exists l e', try_commit e 0 = Ok (l, e') /\ length l = 3%nat /\
    StronglySorted (fun b b' => round b < round b') l /\
    Forall (committed_block e s (leader_order s) (current_round e - 2) (list_to_set (committed e))
              (last_committed_round e) (last_committed_round e')) l.
Proof.
  intros e s.
  destruct (@try_commit_sound Demo.demo_crypto e 0) as (l & e' & Hrun & _ & Hs & Hl & _).
  - apply DemoRun.full_view_ok; [eval_range|vm_compute; reflexivity].
  - split; [apply Z.leb_le|apply Z.ltb_lt]; vm_compute; reflexivity.
  - vm_compute. discriminate.
  - exists l, e'. split; [exact Hrun|]. split; [|split; [exact Hs|exact Hl]].
    assert ((fun r => match r with Ok (l0, _) => length l0 | _ => 0%nat end) (try_commit e 0) = 3%nat)
      as Hlen by (vm_compute; reflexivity).
    rewrite Hrun in Hlen. exact Hlen.
Defined.



(** C36: the history walk of [causal_history_contains] terminates within its fuel and
    answers exactly whether the target is reachable from the block through parent
    references of held blocks at or above the floor round. *)
Theorem history_walk_exact `{Crypto} (e : ConsensusEngine) (from target : Hash256) (floor : Z) :
  causal_history_contains e from target floor = true <-> rtc (references e floor) from target.
Proof. apply causal_history_reachable. Qed.

(** ** Forks outside a recovery domain *)

Section Forks.
Context `{Crypto}.
Implicit Types e : ConsensusEngine.

(** Two engines whose commits differ on the round of [b], a block of the second one. *)
Definition diverge e1 e2 e1' (l1 l2 : list DagBlock) (b : DagBlock) : Prop :=
  ~ (hash <$> l1) `prefix_of` (hash <$> l2) /\ ~ (hash <$> l2) `prefix_of` (hash <$> l1) /\
  b ∈ l2 /\ round b < last_committed_round e1' /\ Forall (fun b' => round b' <> round b) l1 /\
  (let s := frozen_validator_set e1 in
   skip_reason e1 s (leader_order s) (current_round e1 - 2) (round b)) /\
  (let s := frozen_validator_set e2 in ~ certified e2 s (hash b) (round b) /\
   commit_reason e2 s (leader_order s) (current_round e2 - 2) (round b) (hash b)).

Definition is_skip (v : outcome ConsensusError verdict) : bool :=
  match v with Ok SkipRound => true | _ => false end.
Definition is_anchor (h : Hash256) (v : outcome ConsensusError verdict) : bool :=
  match v with Ok (CommitAnchor h') => bool_decide (h = h') | _ => false end.

Definition vs_wfb (s : ValidatorSet) : bool :=
  match checked_validator_total_stake (validators s) with
  | Ok t => (t =? total_stake s) && (quorum s =? strict_supermajority_threshold (total_stake s))
  | _ => false
  end.

Lemma vs_wfb_ok s : vs_wfb s = true -> vs_wf s.
Proof.
  unfold vs_wfb, vs_wf. case_match; [|done..].
  intros [->%Z.eqb_eq ?%Z.eqb_eq]%andb_true_iff. done.
Qed.

Definition divergeb e1 e2 e1' (l1 l2 : list DagBlock) (b : DagBlock) : bool :=
  negb (bool_decide ((hash <$> l1) `prefix_of` (hash <$> l2))) &&
  negb (bool_decide ((hash <$> l2) `prefix_of` (hash <$> l1))) &&
  (round b <? last_committed_round e1') && forallb (fun b' => negb (round b' =? round b)) l1 &&
  u64b (round b + 3) && (0 <=? round b) &&
  vs_wfb (frozen_validator_set e1) && vs_wfb (frozen_validator_set e2) &&
  is_skip (verdict_of e1 (current_round e1 - 2) (round b)) &&
  is_anchor (hash b) (verdict_of e2 (current_round e2 - 2) (round b)) &&
  match two_round_commit_support e2 (hash b) (round b) (frozen_validator_set e2) with Ok None => true | _ => false end.

(** The reason of a verdict. *)
Lemma verdict_reason e scan_end r v :
  vs_wf (frozen_validator_set e) -> 0 <= r -> r + 3 <= u64_max -> verdict_of e scan_end r = Ok v ->
  let s := frozen_validator_set e in
  match v with
  | CommitAnchor h => commit_reason e s (leader_order s) scan_end r h
  | SkipRound => skip_reason e s (leader_order s) scan_end r
  | Fence => True
  end.
Proof.
  intros Hwf H0 Hmax Hv s. unfold verdict_of in Hv. fold s in Hv.
  destruct (decide_round_spec e s Hwf (leader_order s) (bool_decide (is_Some (consensus_domain e)))
    scan_end r H0 Hmax) as (v' & Hv' & Hr). rewrite Hv in Hv'. by injection Hv' as <-.
Qed.

Lemma divergeb_ok e1 e2 e1' l1 l2 b :
  divergeb e1 e2 e1' l1 l2 b = true -> b ∈ l2 -> diverge e1 e2 e1' l1 l2 b.
Proof.
  intros Hb Hin. unfold divergeb, u64b in Hb. dec_hyps.
  rename select (vs_wfb (frozen_validator_set e1) = true) into Hs1.
  rename select (vs_wfb (frozen_validator_set e2) = true) into Hs2.
  apply vs_wfb_ok in Hs1, Hs2.
  unfold diverge. split; [done|]. split; [done|]. split; [done|]. split; [lia|]. split; [|split; [|split]].
  - apply Forall_forall. intros b' Hb'%list_elem_of_In. rename select (forallb _ l1 = true) into Hl.
    rewrite forallb_forall in Hl. specialize (Hl b' Hb'). apply negb_true_iff, Z.eqb_neq in Hl. done.
  - apply (verdict_reason e1 _ _ SkipRound); [done|lia|lia|].
    rename select (is_skip _ = true) into Hv. unfold is_skip in Hv. by repeat case_match.
  - destruct (two_round_commit_support_spec e2 _ (hash b) (round b) Hs2) as (o & Ho & <-).
    rewrite Ho in *. case_match; [done|]. by intros [].
  - apply (verdict_reason e2 _ _ (CommitAnchor (hash b))); [done|lia|lia|].
    rename select (is_anchor _ _ = true) into Hv. unfold is_anchor in Hv. repeat case_match; try done.
    by apply bool_decide_eq_true in Hv as ->.
Qed.

(** A script after which nodes 1 and 2 diverge on the first block node 2 commits. *)
Definition fork_run (n0 : net) (script : list net_event) : option (net * ConsensusEngine * ConsensusEngine) :=
  n ← run_net n0 script; e1 ← nodes n !! 1%nat; e2 ← nodes n !! 2%nat; Some (n, e1, e2).

Definition forks (n0 : net) (script : list net_event) : bool :=
  match fork_run n0 script with
  | Some (n, e1, e2) =>
      match try_commit e1 0, try_commit e2 0 with
      | Ok (l1, e1'), Ok (b :: l2, e2') => divergeb e1 e2 e1' l1 (b :: l2) b
      | _, _ => false
      end
  | None => false
  end.

Lemma forks_ok n0 script :
  forks n0 script = true ->
  exists n e1 e2 e1' e2' l1 l2 b, run_net n0 script = Some n /\
    nodes n !! 1%nat = Some e1 /\ nodes n !! 2%nat = Some e2 /\
    try_commit e1 0 = Ok (l1, e1') /\ try_commit e2 0 = Ok (l2, e2') /\ diverge e1 e2 e1' l1 l2 b.
Proof.
  unfold forks. destruct (fork_run n0 script) as [[[n e1] e2]|] eqn:Hrun; [|done].
  unfold fork_run in Hrun. apply bind_Some in Hrun as (n' & Hn & Hrun).
  apply bind_Some in Hrun as (x1 & H1 & Hrun). apply bind_Some in Hrun as (x2 & H2 & [= -> -> ->]).
  destruct (try_commit e1 0) as [[l1 e1']| |] eqn:Hc1; [|done..].
  destruct (try_commit e2 0) as [[[|b l2] e2']| |] eqn:Hc2; [done| |done..].
  intros Hb. exists n, e1, e2, e1', e2', l1, (b :: l2), b. split_and!; try done.
  eapply divergeb_ok; [done|left].
Qed.

End Forks.

(** C39: outside a recovery domain four honest validators can commit different chains.
    There is a run in which every block is proposed by [propose_block] of its author,
    one per author and round, every delivery is accepted by [receive_block] and every
    round is left through [advance_round], after which [try_commit] at node 1 and at
    node 2 commits sequences of which neither extends the other.  They differ on the
    round of a block [b] that node 2 commits: node 1 moves its cursor past that round
    and commits nothing there, because a later certified anchor it holds does not reach
    the leader's block, and node 2 commits [b], which it does not see certified either,
    because a later certified anchor it holds reaches it. *)
Theorem honest_views_can_fork :
  exists (script : list net_event) (n : net) (e1 e2 e1' e2' : ConsensusEngine)
    (l1 l2 : list DagBlock) (b : DagBlock),
    all_honest script = true /\ run_net DemoRun.four_nodes script = Some n /\
    nodes n !! 1%nat = Some e1 /\ nodes n !! 2%nat = Some e2 /\
    try_commit e1 0 = Ok (l1, e1') /\ try_commit e2 0 = Ok (l2, e2') /\
    ~ (hash <$> l1) `prefix_of` (hash <$> l2) /\ ~ (hash <$> l2) `prefix_of` (hash <$> l1) /\
    b ∈ l2 /\ round b < last_committed_round e1' /\ Forall (fun b' => round b' <> round b) l1 /\
    (let s := frozen_validator_set e1 in
     skip_reason e1 s (leader_order s) (current_round e1 - 2) (round b)) /\
    (let s := frozen_validator_set e2 in ~ certified e2 s (hash b) (round b) /\
     commit_reason e2 s (leader_order s) (current_round e2 - 2) (round b) (hash b)).
Proof.
  exists DemoRun.fork_script.
  destruct (forks_ok DemoRun.four_nodes DemoRun.fork_script)
    as (n & e1 & e2 & e1' & e2' & l1 & l2 & b & ?); [vm_compute; reflexivity|].
  exists n, e1, e2, e1', e2', l1, l2, b. split; [vm_compute; reflexivity|done].
Qed.

(** Outside a recovery domain one equivocating leader, within the tolerated stake,
    makes two honest validators commit different blocks for the same round: each of
    them sees support for one of the twins only. *)
Theorem equivocating_leader_can_fork :
  exists (script : list net_event) (n : net) (h1 h2 : Hash256),
    Forall (fun ev => match ev with NByzantine b => author b = DemoNet.addr 0 | _ => True end) script /\
    stake_in DemoNet.committee_set {[DemoNet.addr 0]} <=
      fault_tolerance_stake DemoNet.committee_set /\
    run_net DemoRun.four_nodes script = Some n /\
    commits_of n 1 = Some [h1] /\ commits_of n 2 = Some [h2] /\ h1 <> h2.
Proof.
  exists DemoRun.twin_script, DemoRun.twin_net.
  exists (nth 0 (default [] (commits_of DemoRun.twin_net 1)) 0),
         (nth 0 (default [] (commits_of DemoRun.twin_net 2)) 0).
  split; [vm_compute; by repeat constructor|]. split; [apply Z.leb_le; vm_compute; reflexivity|].
  split.
  { exact DemoRun.twin_net_run. }
  split; [vm_compute; reflexivity|]. split; [vm_compute; reflexivity|]. vm_compute. discriminate.
Qed.
