(* ===== verification/BlockFlow.v ===== *)
(** * Blocks through the engine

    The functional behaviour of [receive_block] and [advance_round] on every
    input, and the acceptance of honest proposals by other engines. *)

From S2P Require Import Prelude Crypto Validators Dag Security Blocks Certificates.
From S2P Require Import DataAvailability Engine DagInvariant CrossShard Commit History EngineSteps Safety Network.

Section BlockFlow.
Context `{Crypto}.
Implicit Types e : ConsensusEngine.

(** ** Acceptance *)

(** The signature condition: a signature that reads, verifies for the author and
    uses the registered key; none is needed by an engine without a key. *)
Definition signature_acceptable e (b : DagBlock) : Prop :=
  match signature b with
  | [] => local_keypair e = None
  | _ => exists sig, bincode_read_signature (signature b) = Some sig /\
           sig_verify sig (hash b) (author b) = Ok () /\
           registered_key_matches e (author b) sig = true
  end.

Lemma is_ok_unit {E} (o : outcome E unit) : is_ok o = true <-> o = Ok ().
Proof. destruct o as [[]| |]; naive_solver. Qed.

Lemma check_signature_spec e b : check_signature e b = Ok () <-> signature_acceptable e b.
Proof.
  unfold check_signature, signature_acceptable. destruct (signature b) as [|x l] eqn:Hs; simpl.
  { by rewrite require_Ok, bool_decide_eq_true. }
  rewrite bind_Ok. setoid_rewrite ok_or_Ok. setoid_rewrite bind_Ok. setoid_rewrite require_Ok.
  setoid_rewrite is_ok_unit. split.
  - intros (sig & ? & [] & ? & ?). by exists sig.
  - intros (sig & ? & ? & ?). exists sig. split; [done|]. by exists ().
Qed.

(** What the parent rule asks of a block that did not come through a history
    import. *)
Definition parentage_acceptable e (b : DagBlock) : Prop :=
  if decide (round b = 0 \/ recovery_bootstrap_round e = Some (round b)) then parents b = []
  else if decide (local_recovery_replay_active e = true /\
                  local_recovery_boundary_round e = Some (round b))
  then parents b <> [] /\ 0 ∉ parents b /\ NoDup (parents b)
  else parents_ok e (validator_set e) (excused_by e) b.

Lemma check_parentage_spec e b :
  vs_wf (validator_set e) -> 0 <= round b ->
  check_parentage e b false = Ok () <-> parentage_acceptable e b.
Proof.
  intros Hwf Hr. unfold check_parentage, parentage_acceptable, is_recovery_bootstrap_round.
  rewrite <- (bool_decide_or (round b = 0)), andb_false_l. case_bool_decide as Hb.
  { rewrite decide_True by done. by rewrite require_Ok, bool_decide_eq_true. }
  rewrite decide_False by done. destruct (local_recovery_replay_active e); cbn [andb].
  2:{ rewrite decide_False by naive_solver. apply check_parents_Ok; [done|]. naive_solver lia. }
  case_bool_decide as Hbd.
  - rewrite decide_True by done. unfold well_formed_parents.
    rewrite require_Ok, !andb_true_iff, !negb_true_iff, !bool_decide_eq_false, bool_decide_eq_true.
    tauto.
  - rewrite decide_False by naive_solver. apply check_parents_Ok; [done|]. naive_solver lia.
Qed.

(** A block that [receive_block] takes. *)
Definition acceptable e (b : DagBlock) : Prop :=
  can_produce_blocks (validator_set e) (author b) = true /\ dag e !! hash b = None /\
  hash b = block_hash_in (consensus_domain e) b /\ verify_ordering b = true /\
  signature_acceptable e b /\ round b <= current_round e + 1 /\ parentage_acceptable e b.

Lemma validate_acceptable e b :
  vs_wf (validator_set e) -> 0 <= round b ->
  validate_block e b false = Ok () <-> acceptable e b.
Proof.
  intros Hwf Hr. rewrite validate_block_Ok, check_signature_spec, check_parentage_spec by done.
  unfold acceptable, saturating_sub. rewrite verify_hash_in_spec, bool_decide_eq_true.
  assert (Z.max 0 (round b - current_round e) <= 1 <-> round b <= current_round e + 1) by lia.
  tauto.
Qed.

Lemma admit_block_total e b : vs_wf (validator_set e) -> exists e', admit_block e b = Ok e'.
Proof.
  intros Hwf. unfold admit_block.
  assert (exists e1, match detect_equivocation e b with
     | Some p => punish_equivocation e b p | None => Ok (note_author_block e b) end = Ok e1)
    as [e1 ->]; [|by eexists].
  destruct (detect_equivocation e b) as [p|]; [|by eexists].
  unfold punish_equivocation. destruct (consensus_domain e); [by eexists|].
  destruct (report_offense _ _ _ _ _ _) as [[record s]| |] eqn:Hr; [|by eexists|].
  - destruct (slashed_members_ok s (author b) (sr_slash_amount record)) as (s' & -> & _).
    + eapply set_change_wf; [done|by eapply change_report].
    + by eapply report_offense_amount.
    + by eexists.
  - by apply report_offense_no_panic in Hr.
Qed.

Lemma validate_no_panic e b base : vs_wf (validator_set e) -> validate_block e b base <> Panic.
Proof.
  intros Hwf. unfold validate_block. no_panic.
  - unfold check_signature. destruct (negb _); no_panic.
  - unfold check_parentage, check_parents. repeat case_match; no_panic.
    rewrite tally_known_first_start by done. simpl. no_panic.
Qed.

(** ** Advancing *)

(** The authors of the blocks held in a round. *)
Definition round_authors e (r : Z) : gset Address :=
  list_to_set (authors_of e (blocks_in_round e r)).

(** Enough participation to leave a round. *)
Definition round_complete e (r : Z) : Prop :=
  quorum (validator_set e) <= stake_in (validator_set e) (round_authors e r) /\
  (is_Some (consensus_domain e) -> forall v, v ∈ validators (validator_set e) ->
     v_address v ∈ round_authors e r \/ excused_by e r (v_address v)).

Lemma advance_round_spec e now :
  vs_wf (validator_set e) ->
  exists adv e', advance_round e now = Ok (adv, e') /\
    (adv = true <-> round_complete e (current_round e) /\ current_round e < u64_max).
Proof.
  intros Hwf. unfold advance_round. rewrite tally_seen_first_start by done. cbn [mbind outcome_bind fst snd].
  pose proof (participation_spec e (validator_set e) (current_round e)
    (round_authors e (current_round e))
    (stake_in (validator_set e) (round_authors e (current_round e))) Hwf) as Hp.
  unfold round_authors in *. destruct (round_participation_satisfies_quorum _ _ _ _ _).
  - destruct (checked_add _ _) as [x|] eqn:Hc; split_checked; eexists _, _; (split; [done|]);
      unfold round_complete, round_authors; (split; [|try done]); intros; try done; [|lia].
    split; [by apply Hp|lia].
  - eexists _, _. split; [done|]. split; [done|]. intros [Hx _]. by apply Hp in Hx.
Qed.

(** ** Honest proposals *)

(** [e] would check the parents of [b] against blocks [e0] holds, under the same
    rules. *)
Definition in_sync_for e0 e (b : DagBlock) : Prop :=
  validator_set e = validator_set e0 /\ consensus_domain e = consensus_domain e0 /\
  recovery_bootstrap_round e = recovery_bootstrap_round e0 /\
  (local_recovery_replay_active e = false) /\
  round b <= current_round e + 1 /\ dag e !! hash b = None /\
  (forall p, p ∈ parents b -> dag e !! p = dag e0 !! p) /\
  (forall a, excused_by e0 (round b - 1) a -> excused_by e (round b - 1) a).

Lemma in_sync_parents e0 e b :
  in_sync_for e0 e b ->
  parents_ok e0 (validator_set e0) (excused_by e0) b -> parents_ok e (validator_set e) (excused_by e) b.
Proof.
  intros (Hs & Hd & _ & _ & _ & _ & Hp & Hx) (Hall & Hq & Hf).
  assert (parent_authors e b = parent_authors e0 b) as Ha.
  { apply set_eq. intros a. rewrite !parent_authors_elem. split; intros (p & pb & ? & Hpb & ?);
      exists p, pb; [rewrite <- Hp by done|rewrite Hp by done]; done. }
  unfold parents_ok. rewrite Hs, Hd, Ha. split_and!; [|done|].
  - intros p Hin. rewrite Hp by done. by apply Hall.
  - intros Hdom v Hv. destruct (Hf Hdom v Hv); auto.
Qed.

Lemma sign_proposal_signed e k b0 b :
  local_keypair e = Some k -> sign_proposal e b0 = Ok b ->
  exists sig, kp_sign k (hash b) = Ok sig /\ signature b = default [] (bincode_signature sig).
Proof.
  intros Hk. unfold sign_proposal. rewrite Hk. intros Hs.
  destruct (kp_sign k (hash b0)) as [sig| |] eqn:Hsig; [|discriminate..].
  injection Hs as <-. by exists sig.
Qed.

End BlockFlow.

(** ** The theorems *)

(** C29: [receive_block] accepts exactly the acceptable blocks: authored by a member
    that may produce blocks, new, with the hash of the engine's domain, in canonical
    order, signed by the author with the registered key, at most one round ahead, and
    with parents held one round below whose authors carry a quorum (in a recovery
    domain: every member not excused), or with the parent list its bootstrap or
    boundary round requires.  An accepted block is added to the DAG and its indexes
    and, in a recovery domain or without an equivocation, leaves the validator set
    alone; any other block is refused with an error and leaves the engine unchanged. *)
Theorem receive_block_exact `{Crypto} (e : ConsensusEngine) (b : DagBlock)
  (Hok : engine_ok e) (Hround : 0 <= round b) :
  (acceptable e b ->
   exists s wd st, receive_block e b = (Ok (), with_block e b s wd st (da_commitments e)) /\
     (is_Some (consensus_domain e) \/ detect_equivocation e b = None -> s = validator_set e)) /\
  (~ acceptable e b -> exists x, receive_block e b = (Err x, e)).
Proof.
  pose proof (ok_set e Hok) as Hwf. split.
  - intros Hacc. destruct (admit_block_total e b Hwf) as [e' He'].
    apply admit_block_eq in He' as He. destruct He as (s & wd & st & -> & _ & Hs).
    exists s, wd, st. split; [|done]. apply receive_block_inner_Ok.
    split; [by apply validate_acceptable|done].
  - intros Hn. unfold receive_block, receive_block_inner, receive_block_inner_with_persistence.
    destruct (validate_block e b false) as [[]|x|] eqn:Hv; [|by exists x|].
    + by apply validate_acceptable in Hv.
    + by apply validate_no_panic in Hv.
Qed.

Lemma receive_block_exact_witness :
  let e := DemoRun.full_view None 1 2 in
  let b := DemoRun.blk None 0 2 ((fun i => DemoRun.blk None i 1
             ((fun j => DemoRun.blk None j 0 []) <$> [0; 1; 2; 3])) <$> [0; 1; 2]) in
  exists s wd st, receive_block e b = (Ok (), with_block e b s wd st (da_commitments e)).
Proof.
  intros e b.
  assert (engine_ok e) as Hok by (apply DemoRun.full_view_ok; [eval_range|vm_compute; reflexivity]).
  assert (validate_block e b false = Ok ()) as Hv by (vm_compute; reflexivity).
  destruct (@receive_block_exact Demo.demo_crypto e b Hok) as [Hacc _].
  { apply Z.leb_le. vm_compute. reflexivity. }
  destruct Hacc as (s & wd & st & Hrun & _); [|exists s, wd, st; exact Hrun].
  apply validate_acceptable; [apply Hok|apply Z.leb_le; vm_compute; reflexivity|exact Hv].
Defined.

(** [advance_round] leaves the current round exactly when the blocks held in it
    come from a quorum of stake and, in a recovery domain, from every member that no
    absence certificate excuses for that round; it fails closed at [u64::MAX], and
    otherwise changes nothing. *)
Theorem advance_round_exact `{Crypto} (e : ConsensusEngine) (now : Z) (Hok : engine_ok e) :
  exists adv e', advance_round e now = Ok (adv, e') /\
    (adv = true <-> round_complete e (current_round e) /\ current_round e < u64_max) /\
    (adv = true -> e' = e <| current_round := current_round e + 1 |> <| force_advanced := false |>
                          <| round_start := now |>) /\
    (adv = false -> e' = e).
Proof.
  destruct (advance_round_spec e now (ok_set e Hok)) as (adv & e' & Hrun & Hiff).
  exists adv, e'. split; [done|]. split; [done|].
  destruct (advance_round_eq e now adv e' Hrun) as [[-> ->]|(-> & _ & ->)]; done.
Qed.

Lemma advance_round_exact_witness :
  exists e', advance_round (DemoRun.full_view None 1 2) 7 = Ok (false, e') /\
    e' = DemoRun.full_view None 1 2.
Proof.
  destruct (@advance_round_exact Demo.demo_crypto (DemoRun.full_view None 1 2) 7)
    as (adv & e' & Hrun & _ & _ & Hsame).
  { apply DemoRun.full_view_ok; [eval_range|vm_compute; reflexivity]. }
  assert ((fun o => match o with Ok (a, _) => a | _ => true end)
            (advance_round (DemoRun.full_view None 1 2) 7) = false) as Hadv
    by (vm_compute; reflexivity).
  rewrite Hrun in Hadv. cbv beta iota in Hadv. exists e'. rewrite Hrun, Hadv.
  split; [reflexivity|]. apply Hsame. exact Hadv.
Defined.

(** C30: a block an honest validator proposes is accepted by every engine in sync: with
    the same committee and domain, the parents held, the round in reach and the same
    absences certified.  The signature scheme is assumed to verify what it signs and
    bincode to encode a signature as a non-empty string. *)
Theorem honest_proposal_accepted `{Crypto, !CryptoLaws} (e0 e e0' : ConsensusEngine)
  (k : KeyPair) (txs : list Hash256) (ts : Z) (b : DagBlock)
  (Hok0 : engine_ok e0) (Hok : engine_ok e)
  (Hkey : local_keypair e0 = Some k) (Haddr : kp_address k = local_address e0)
  (Hsign : forall h sig, kp_sign k h = Ok sig -> sig_verify sig h (kp_address k) = Ok ())
  (Hwire : forall sig, exists x l, bincode_signature sig = Some (x :: l))
  (Hreg : forall sig, kp_sign k (hash b) = Ok sig ->
     registered_key_matches e (local_address e0) sig = true)
  (Hprop : propose_block e0 txs ts = Ok (b, e0'))
  (Hsync : in_sync_for e0 e b) :
  exists e', receive_block e b = (Ok (), e') /\ dag e' !! hash b = Some b.
Proof.
  destruct (admit_block_total e b (ok_set e Hok)) as [e' He'].
  exists e'. split; [|apply admit_block_eq in He' as (s & wd & st & -> & _); apply dag_with_block; by left].
  apply receive_block_inner_Ok. split; [|done].
  apply propose_block_Ok in Hprop
    as (Hprod & Hau & Hro & _ & _ & _ & _ & Hpp & Hsg & Hvh & Hvo & _).
  pose proof (mark_current e0 (ok_marks e0 Hok0)) as [Hr0 _].
  apply validate_acceptable; [apply Hok|lia|].
  pose proof Hsync as (Hs & Hd & Hboot & Hrep & Hreach & Hnew & _ & _).
  rewrite verify_hash_in_spec in Hvh. apply bool_decide_eq_true in Hvh.
  split_and!; [by rewrite Hs, Hau|done|by rewrite Hd|done| |done|].
  - apply (sign_proposal_signed e0 k) in Hsg as (sig & Hsig & Hsb); [|done].
    destruct (Hwire sig) as (x & l & Hw). rewrite Hw in Hsb. simpl in Hsb.
    unfold signature_acceptable. rewrite Hsb. exists sig.
    split; [by apply bincode_signature_read|]. rewrite Hau. split; [|by apply Hreg].
    rewrite <- Haddr. by apply Hsign.
  - unfold parentage_acceptable. rewrite Hboot, Hrep.
    destruct (proposal_parents_Ok e0 (round b) (parents b)) as [[Hb0 Hnil]|Hpo];
      [apply Hok0|apply Hok0|done|by rewrite decide_True|].
    case_decide as Hb0; [|rewrite decide_False by naive_solver; by eapply in_sync_parents; [|apply Hpo]].
    revert Hpp. unfold proposal_parents, is_recovery_bootstrap_round.
    rewrite <- bool_decide_or, bool_decide_true by done. by intros [= <-].
Qed.

Module DemoProposal.
Import Demo DemoNet DemoRun.

Definition proposer : ConsensusEngine := full_view None 0 2.
Definition receiver : ConsensusEngine := full_view None 1 2.

Definition proposed : DagBlock * ConsensusEngine := run_proposal proposer [8; 3].

Lemma no_excuses (e0 e : ConsensusEngine) r a :
  size (skip_certificates e0) = 0%nat -> excused_by e0 r a -> excused_by e r a.
Proof. intros He%map_size_empty_inv. unfold excused_by. rewrite He, lookup_empty. by intros [? ?]. Qed.

Lemma same_parents (e0 e : ConsensusEngine) ps p :
  forallb (fun p => bool_decide (dag e !! p = dag e0 !! p)) ps = true ->
  p ∈ ps -> dag e !! p = dag e0 !! p.
Proof.
  rewrite forallb_forall. intros Hp Hin%list_elem_of_In. exact (bool_decide_eq_true_1 _ (Hp p Hin)).
Qed.

Lemma no_registered_keys (e : ConsensusEngine) a sig :
  size (validator_keys e) = 0%nat -> registered_key_matches e a sig = true.
Proof. intros He%map_size_empty_inv. unfold registered_key_matches. by rewrite He, lookup_empty. Qed.

Definition holds_key (e : ConsensusEngine) (i : Z) : bool :=
  match local_keypair e with
  | Some (KpEd25519 sk) => bool_decide ((sk : list Z) = [i])
  | _ => false
  end.

Lemma holds_key_ok e i : holds_key e i = true -> local_keypair e = Some (key i).
Proof.
  unfold holds_key. destruct (local_keypair e) as [[]|]; intros Hk; try discriminate.
  by apply bool_decide_eq_true in Hk as ->.
Qed.

Lemma pad64_length l : length (pad64 l) = 64%nat.
Proof. unfold pad64. rewrite length_take, length_app, length_replicate. lia. Qed.

Lemma key_signs i h sig : kp_sign (key i) h = Ok sig -> sig_verify sig h (kp_address (key i)) = Ok ().
Proof.
  intros [= <-]. unfold sig_verify, kp_address, key.
  change (ed25519_sign ?k ?m) with (pad64 m). rewrite pad64_length.
  rewrite !bool_decide_true by done. cbn [mbind outcome_bind require].
  change (ed25519_verify ?k ?m ?g) with (bool_decide (g = pad64 m)).
  by rewrite bool_decide_true.
Qed.

Lemma in_sync : in_sync_for proposer receiver proposed.1.
Proof.
  split; [vm_compute; reflexivity|]. split; [vm_compute; reflexivity|].
  split; [vm_compute; reflexivity|]. split; [vm_compute; reflexivity|].
  split; [apply Z.leb_le; vm_compute; reflexivity|]. split; [vm_compute; reflexivity|]. split.
  - intros p. apply same_parents. vm_compute. reflexivity.
  - intros a. apply no_excuses. vm_compute. reflexivity.
Qed.

End DemoProposal.

Lemma honest_proposal_accepted_witness :
  exists e', receive_block DemoProposal.receiver DemoProposal.proposed.1 = (Ok (), e').
Proof.
  destruct (@honest_proposal_accepted Demo.demo_crypto Demo.demo_laws DemoProposal.proposer
    DemoProposal.receiver DemoProposal.proposed.2 (DemoNet.key 0) [8; 3] 0
    DemoProposal.proposed.1) as (e' & Hrun & _); [..|exists e'; exact Hrun].
  - apply DemoRun.full_view_ok; [eval_range|vm_compute; reflexivity].
  - apply DemoRun.full_view_ok; [eval_range|vm_compute; reflexivity].
  - apply DemoProposal.holds_key_ok. vm_compute. reflexivity.
  - vm_compute. reflexivity.
  - apply DemoProposal.key_signs.
  - intros sig. destruct sig; eexists _, _; reflexivity.
  - intros sig _. apply DemoProposal.no_registered_keys. vm_compute. reflexivity.
  - apply DemoRun.run_proposal_ok. vm_compute. reflexivity.
  - apply DemoProposal.in_sync.
Defined.
