(* ===== verification/Transfer.v ===== *)
(** * History transfer and held finality

    What [import_history] does to an engine, whatever run a peer sends, and what the
    finality certificates an engine holds are worth. *)

From S2P Require Import Prelude Crypto Validators Dag Security Blocks Certificates.
From S2P Require Import DataAvailability Engine History DagInvariant EngineSteps Network BlockFlow.

Section Transfer.
Context `{Crypto}.
Implicit Types e : ConsensusEngine.

(** ** The plan of an import holds blocks of the run, under their rounds *)

Definition planned (blocks : list DagBlock) (m : list (Z * list DagBlock)) : Prop :=
  forall r bs b, (r, bs) ∈ m -> b ∈ bs -> b ∈ blocks /\ round b = r.

Lemma push_round_planned blocks b m :
  b ∈ blocks -> planned blocks m -> planned blocks (push_round b m).
Proof.
  intros Hb. induction m as [|[r bs] m IH]; intros Hm r' bs' b'; cbn [push_round].
  { intros [= -> ->]%list_elem_of_singleton ->%list_elem_of_singleton. done. }
  assert (planned blocks m) as Hm' by (intros ? ? ? Hin; apply Hm; by right).
  case_bool_decide as Heq; [|case_bool_decide as Hlt].
  - intros [[= -> ->]|Hin]%elem_of_cons Hb'; [|by eapply Hm'].
    apply elem_of_app in Hb' as [Hb'| ->%list_elem_of_singleton]; [|done].
    eapply Hm; [by left|done].
  - intros [[= -> ->]|Hin]%elem_of_cons Hb'; [|by eapply Hm].
    by apply list_elem_of_singleton in Hb' as ->.
  - intros [[= -> ->]|Hin]%elem_of_cons Hb'; [eapply Hm; [by left|done]|by eapply IH].
Qed.

Lemma group_by_round_planned blocks : planned blocks (group_by_round blocks).
Proof.
  unfold group_by_round.
  assert (forall l m, (forall b, b ∈ l -> b ∈ blocks) -> planned blocks m ->
    planned blocks (foldl (fun m b => push_round b m) m l)) as Hall.
  { induction l as [|b l IH]; intros m Hl Hm; [done|]. cbn [foldl].
    apply IH; [set_solver|]. apply push_round_planned; [set_solver|done]. }
  apply Hall; [done|]. by intros r bs b ?%elem_of_nil.
Qed.

Lemma round_blocks_elem m r bs : round_blocks m r = Some bs -> (r, bs) ∈ m.
Proof.
  unfold round_blocks. intros ([i [r' bs']] & Hf & [= <-])%fmap_Some.
  apply list_find_Some in Hf as (Hi & Hr & _). simpl in Hr. subst.
  by eapply list_elem_of_lookup_2.
Qed.

Lemma restrict_to_base_planned e base blocks m m' :
  restrict_to_base e base m = Ok m' -> planned blocks m -> planned blocks m'.
Proof.
  unfold restrict_to_base. intros Hres Hm. apply bind_Ok in Hres as (u & _ & Hres).
  assert (planned blocks (filter (fun rb => base <= rb.1) m)) as Hm'.
  { intros r bs b [_ Hin]%list_elem_of_filter. by apply Hm. }
  destruct (round_blocks _ base) as [bs0|] eqn:Hbase; [|by injection Hres as <-].
  apply bind_Ok in Hres as (u' & _ & [= <-]).
  intros r bs b ([r1 bs1] & Heq & Hin)%list_elem_of_fmap Hb. simpl in Heq.
  case_bool_decide as Hr; [|simplify_eq; by eapply Hm'].
  injection Heq as -> ->. apply list_elem_of_filter in Hb as [_ Hb].
  eapply Hm'; [by apply round_blocks_elem|done].
Qed.

Lemma take_until_thin_planned e blocks m : planned blocks m -> planned blocks (take_until_thin e m).
Proof.
  induction m as [|[r bs] m IH]; intros Hm; [done|]. cbn [take_until_thin].
  assert (planned blocks m) as Hm' by (intros ? ? ? Hin; apply Hm; by right).
  destruct (thin_round e (r, bs)); [by intros ? ? ? ?%elem_of_nil|].
  intros r' bs' b [[= -> ->]|Hin]%elem_of_cons Hb; [eapply Hm; [by left|done]|by eapply IH].
Qed.

Lemma plan_import_planned e blocks max_rounds m :
  plan_import e blocks max_rounds = Ok m -> planned blocks m.
Proof.
  unfold plan_import. intros Hplan. apply bind_Ok in Hplan as (u & _ & Hplan).
  apply bind_Ok in Hplan as (m1 & Hm1 & Hplan). inv_ok.
  apply take_until_thin_planned. destruct (open_restart_base_round e) as [base|].
  - eapply restrict_to_base_planned; [exact Hm1|apply group_by_round_planned].
  - injection Hm1 as <-. apply group_by_round_planned.
Qed.

(** ** The run of an import *)

(** The calls an import makes, with the state of the persistence hook: a block is
    accepted after the hook took it, the hook may refuse a block, a round may be
    left.  [base] is the round whose blocks are admitted without their parents. *)
Inductive import_trace {S} (persist : persist_hook S) (base : option Z)
    : S * ConsensusEngine -> list DagBlock -> S * ConsensusEngine -> Prop :=
| it_done x : import_trace persist base x [] x
| it_accept st e b exempt st1 e1 bs y :
    (exempt = true -> base = Some (round b)) ->
    persist st b = (Ok (), st1) -> receive_block_inner e b exempt = (Ok (), e1) ->
    import_trace persist base (st1, e1) bs y -> import_trace persist base (st, e) (b :: bs) y
| it_refuse st e b x st1 bs y :
    persist st b = (x, st1) -> x <> Ok () ->
    import_trace persist base (st1, e) bs y -> import_trace persist base (st, e) bs y
| it_advance st e now adv e1 bs y :
    advance_round e now = Ok (adv, e1) ->
    import_trace persist base (st, e1) bs y -> import_trace persist base (st, e) bs y.

Lemma import_trace_app {S} (persist : persist_hook S) base x bs y bs' z :
  import_trace persist base x bs y -> import_trace persist base y bs' z ->
  import_trace persist base x (bs ++ bs') z.
Proof.
  induction 1 as [x|st e b exempt st1 e1 bs y He Hp Hr Htr IH|st e b x st1 bs y Hp Hx Htr IH|
    st e now adv e1 bs y Ha Htr IH]; intros Hz; [done|..].
  - simpl. eapply it_accept; [exact He|exact Hp|exact Hr|by apply IH].
  - eapply it_refuse; [exact Hp|exact Hx|by apply IH].
  - eapply it_advance; [exact Ha|by apply IH].
Qed.

(** What a piece of an import did: the blocks it accepted are among [bs]. *)
Definition imported {S} (persist : persist_hook S) base (bs : list DagBlock)
    (x y : S * ConsensusEngine) (n : Z) : Prop :=
  exists accepted, import_trace persist base x accepted y /\
    Forall (fun b => b ∈ bs) accepted /\ n = Z.of_nat (length accepted) /\
    vs_wf (validator_set y.2).

Definition total_hook {S} (persist : persist_hook S) : Prop := forall st b, (persist st b).1 <> Panic.

Lemma receive_wf e b exempt e' :
  vs_wf (validator_set e) -> receive_block_inner e b exempt = (Ok (), e') ->
  vs_wf (validator_set e') /\ current_round e' = current_round e.
Proof.
  intros Hwf [_ Hadm]%receive_block_inner_Ok.
  apply admit_block_eq in Hadm as (s & wd & st & -> & Hs & _). split; [|done]. simpl.
  induction Hs as [|s1 s2 s3 Hc _ IH]; [done|]. by eapply IH, set_change_wf.
Qed.

(** One block of the run. *)
Lemma receive_imported {S} (persist : persist_hook S) base e st b exempt x st' e' :
  vs_wf (validator_set e) -> (exempt = true -> base = Some (round b)) ->
  receive_block_inner_with_persistence e st b exempt persist = (x, st', e') ->
  imported persist base [b] (st, e) (st', e') (if is_ok x then 1 else 0) /\
  current_round e' = current_round e /\ (total_hook persist -> x <> Panic).
Proof.
  intros Hwf Hex Hrec. assert (x = Ok () \/ x <> Ok () /\ is_ok x = false) as [->|[Hx ->]]
    by (destruct x as [[]| |]; auto).
  - apply receive_with_persistence_Ok in Hrec as [Hp Hr].
    destruct (receive_wf e b exempt e' Hwf Hr) as [Hwf' Hc]. split; [|done].
    exists [b]. split; [|split; [apply Forall_singleton; set_solver|done]].
    eapply it_accept; [exact Hex|exact Hp|exact Hr|constructor].
  - pose proof (receive_with_persistence_refused _ _ _ _ _ _ _ _ Hrec Hx) as ->.
    unfold receive_block_inner_with_persistence in Hrec.
    destruct (admit_block_total e b Hwf) as [e1 Hadm]. rewrite Hadm in Hrec.
    destruct (validate_block e b exempt) as [[]|z|] eqn:Hv; [| |by apply validate_no_panic in Hv].
    + destruct (persist st b) as [[[]|z|] st1] eqn:Hp; simplify_eq.
      * split; [|done]. exists []. split; [|done]. eapply it_refuse; [exact Hp|done|constructor].
      * split; [exists []; split; [eapply it_refuse; [exact Hp|done|constructor]|done]|].
        split; [done|]. intros Htot. specialize (Htot st b). by rewrite Hp in Htot.
    + simplify_eq. split; [|done]. exists []. split; [constructor|done].
Qed.

Lemma imported_trans {S} (persist : persist_hook S) base bs bs' all x y z n n' :
  (forall b, b ∈ bs \/ b ∈ bs' -> b ∈ all) ->
  imported persist base bs x y n -> imported persist base bs' y z n' ->
  imported persist base all x z (n + n').
Proof.
  intros Hall (l & Ht & Hf & -> & _) (l' & Ht' & Hf' & -> & Hwf).
  exists (l ++ l'). split; [by eapply import_trace_app|]. rewrite length_app.
  split; [|split; [lia|done]]. apply Forall_app. split; eapply Forall_impl; eauto.
Qed.

Lemma imported_weaken {S} (persist : persist_hook S) base bs all x y n :
  (forall b, b ∈ bs -> b ∈ all) -> imported persist base bs x y n -> imported persist base all x y n.
Proof. intros Hall (l & Ht & Hf & -> & Hwf). exists l. split; [done|]. split; [|done]. eapply Forall_impl; eauto. Qed.

Lemma imported_nothing {S} (persist : persist_hook S) base bs st e :
  vs_wf (validator_set e) -> imported persist base bs (st, e) (st, e) 0.
Proof. intros. exists []. split; [constructor|done]. Qed.

Lemma import_blocks_imported {S} (persist : persist_hook S) base exempt bs :
  forall e st n f st' e' n', vs_wf (validator_set e) ->
  (forall b, b ∈ bs -> exempt = true -> base = Some (round b)) ->
  import_blocks e st persist exempt n bs = (f, st', e', n') ->
  imported persist base bs (st, e) (st', e') (n' - n) /\ current_round e' = current_round e /\
  (total_hook persist -> f <> AbortImport).
Proof.
  induction bs as [|b bs IH]; intros e st n f st' e' n' Hwf Hex Himp; cbn [import_blocks] in Himp.
  { simplify_eq. rewrite Z.sub_diag. split; [by apply imported_nothing|done]. }
  destruct (receive_block_inner_with_persistence e st b exempt persist) as [[x st1] e1] eqn:Hrec.
  destruct (receive_imported persist base e st b exempt x st1 e1) as (Hi & Hc & Htot);
    [done|intros; apply Hex; [by left|done]|done|].
  assert (forall k, is_ok x = bool_decide (k = 1) -> (k = 0 \/ k = 1) ->
    import_blocks e1 st1 persist exempt (n + k) bs = (f, st', e', n') ->
    imported persist base (b :: bs) (st, e) (st', e') (n' - n) /\ current_round e' = current_round e /\
    (total_hook persist -> f <> AbortImport)) as Hgo.
  { intros k Hk Hk01 Hrest. destruct (IH e1 st1 (n + k) f st' e' n') as (Hi' & Hc' & Hf); [|set_solver|done|].
    { by destruct Hi as (?&_&_&_&?). }
    split; [|split; [by rewrite Hc'|done]].
    replace (n' - n) with ((if is_ok x then 1 else 0) + (n' - (n + k))).
    - eapply imported_trans; [|exact Hi|exact Hi']. set_solver.
    - rewrite Hk. case_bool_decide; lia. }
  assert (is_ok x = false -> (st', e', n') = (st1, e1, n) ->
    imported persist base (b :: bs) (st, e) (st', e') (n' - n) /\ current_round e' = current_round e) as Hstop.
  { intros Hx [= -> -> ->]. rewrite Hx in Hi. rewrite Z.sub_diag. split; [|done].
    eapply imported_weaken; [|exact Hi]. set_solver. }
  destruct x as [[]|z|]; [by apply (Hgo 1); auto| |].
  - assert (z = DuplicateBlock \/ f <> AbortImport /\ (st', e', n') = (st1, e1, n)) as [->|[Hf Heq]].
    { destruct z; auto; right; simplify_eq; done. }
    + apply (Hgo 0); [done|by left|]. by rewrite Z.add_0_r.
    + destruct (Hstop eq_refl Heq). done.
  - simplify_eq. destruct (Hstop eq_refl eq_refl). split; [done|]. split; [done|]. intros Ht.
    by destruct (Htot Ht).
Qed.

Lemma import_rounds_imported {S} (persist : persist_hook S) base now blocks m :
  forall e st n reached f st' e' reached' n', vs_wf (validator_set e) ->
  planned blocks m -> reached = current_round e ->
  import_rounds e st persist base now reached n m = (f, st', e', reached', n') ->
  imported persist base blocks (st, e) (st', e') (n' - n) /\ reached' = current_round e' /\
  current_round e <= current_round e' /\ (total_hook persist -> f <> AbortImport).
Proof.
  induction m as [|[r bs] m IH]; intros e st n reached f st' e' reached' n' Hwf Hplan -> Himp;
    cbn [import_rounds] in Himp.
  { simplify_eq. rewrite Z.sub_diag. split; [by apply imported_nothing|done]. }
  assert (planned blocks m) as Hplan' by (intros ? ? ? Hin; apply Hplan; by right).
  assert (forall b, b ∈ bs -> b ∈ blocks /\ round b = r) as Hbs by (intros b Hb; eapply Hplan; [by left|done]).
  destruct (import_blocks e st persist _ n bs) as [[[f1 st1] e1] n1] eqn:Hblocks.
  apply (import_blocks_imported persist base) in Hblocks as (Hi & Hc & Hf); [|done|].
  2:{ intros b Hb ->%bool_decide_eq_true. f_equal. symmetry. by apply Hbs. }
  apply (imported_weaken _ _ _ blocks) in Hi; [|intros b Hb; by apply Hbs].
  assert (vs_wf (validator_set e1)) as Hwf1 by (by destruct Hi as (?&_&_&_&?)).
  assert (forall e2, imported persist base blocks (st1, e1) (st1, e2) 0 ->
    current_round e1 <= current_round e2 -> vs_wf (validator_set e2) ->
    import_rounds e2 st1 persist base now (current_round e2) n1 m = (f, st', e', reached', n') ->
    imported persist base blocks (st, e) (st', e') (n' - n) /\ reached' = current_round e' /\
    current_round e <= current_round e' /\ (total_hook persist -> f <> AbortImport)) as Hgo.
  { intros e2 Hi2 Hle Hwf2 Hrest.
    destruct (IH e2 st1 n1 _ f st' e' reached' n' Hwf2 Hplan' eq_refl Hrest) as (Hi3 & Hr & Hc3 & Hf3).
    split; [|split; [done|split; [lia|done]]].
    replace (n' - n) with ((n1 - n) + (0 + (n' - n1))) by lia.
    eapply imported_trans; [|exact Hi|eapply imported_trans; [|exact Hi2|exact Hi3]]; naive_solver. }
  destruct f1; [|simplify_eq; split; [done|split; [done|split; [lia|done]]]..].
  rewrite <- Hc in Himp. case_bool_decide; [|apply (Hgo e1); [by apply imported_nothing|lia|done|done]].
  destruct (advance_round_spec e1 now Hwf1) as (adv & e2 & Hadv & _). rewrite Hadv in Himp.
  assert (imported persist base blocks (st1, e1) (st1, e2) 0 /\ current_round e1 <= current_round e2 /\
    vs_wf (validator_set e2) /\ (adv = false -> current_round e2 = current_round e1)) as (H1 & H2 & H3 & H4).
  { assert (vs_wf (validator_set e2) /\ current_round e1 <= current_round e2 /\
      (adv = false -> current_round e2 = current_round e1)) as (?&?&?).
    { by destruct (advance_round_eq e1 now adv e2 Hadv) as [[-> ->]|(-> & _ & ->)]; simpl; auto with lia. }
    split; [|done]. exists []. split; [|done]. eapply it_advance; [exact Hadv|constructor]. }
  destruct adv; [by apply (Hgo e2)|]. apply (Hgo e2); [done..|]. by rewrite H4.
Qed.

(** The shape checks never abort. *)
Lemma push_round_nonempty b m : push_round b m <> [].
Proof. destruct m as [|[r bs] m]; simpl; [done|]. by repeat case_bool_decide. Qed.

Lemma group_by_round_nonempty blocks : blocks <> [] -> group_by_round blocks <> [].
Proof.
  unfold group_by_round. destruct blocks as [|b blocks] using rev_ind; [done|].
  intros _. rewrite foldl_snoc. apply push_round_nonempty.
Qed.

Lemma plan_import_no_panic e blocks max_rounds : plan_import e blocks max_rounds <> Panic.
Proof.
  unfold plan_import. apply bind_no_panic; [auto with no_panic|]. intros u Hne%require_Ok.
  apply negb_true_iff, bool_decide_eq_false in Hne.
  apply bind_no_panic.
  { destruct (open_restart_base_round e); [|done]. unfold restrict_to_base. no_panic.
    destruct (round_blocks _ _); no_panic. }
  intros m1 Hm1. assert (m1 <> []) as Hm1ne.
  { destruct (open_restart_base_round e) as [base|];
      [|injection Hm1 as <-; by apply group_by_round_nonempty].
    unfold restrict_to_base in Hm1. apply bind_Ok in Hm1 as (u' & Hne'%require_Ok & Hm1).
    apply negb_true_iff, bool_decide_eq_false in Hne'.
    destruct (round_blocks _ base); [|by injection Hm1 as <-].
    apply bind_Ok in Hm1 as (u'' & _ & [= <-]). intros Hnil%fmap_nil_inv. done. }
  destruct m1 as [|rb m1]; [done|].
  apply bind_no_panic; [done|]. intros first _. apply bind_no_panic.
  { destruct (last (rb :: m1)) eqn:Hl; [done|]. by apply last_None in Hl. }
  intros lst _. no_panic.
Qed.

End Transfer.

(** ** Held finality *)

(** Every certificate an engine holds is filed under its height, at most the highest
    height finalized, and verifies for the engine's domain and frozen committee. *)
Definition registry_ok `{Crypto} (e : ConsensusEngine) : Prop :=
  forall h c, finality_certificates e !! h = Some c ->
    fc_height c = h /\ h <= highest_finalized e /\
    exists d n, certificate_domain e = Some d /\ fc_verify c d (frozen_validator_set e) = Ok n.

(** What a registration leaves at a height. *)
Definition kept_or_pruned `{Crypto} (e' : ConsensusEngine) (h : Z) (b : Hash256) : Prop :=
  finalized_block_at e' h = Some b \/
  finalized_block_at e' h = None /\
    h < saturating_sub (highest_finalized e') (retained_finality_heights e').

Lemma register_finality_certificate_keeps `{Crypto} e c signing e' h c1 :
  register_finality_certificate e c = Ok (signing, e') ->
  (finality_certificates e !! h = Some c1 \/ c1 = c /\ h = fc_height c) ->
  kept_or_pruned e' h (fc_block_hash c1).
Proof.
  unfold register_finality_certificate. intros Hreg Hc1. inv_ok.
  unfold kept_or_pruned, finalized_block_at. simpl.
  set (certs := <[fc_height c := c]> (finality_certificates e)).
  assert (fc_block_hash <$> certs !! h = Some (fc_block_hash c1)) as Hat.
  { unfold certs. destruct (decide (h = fc_height c)) as [->|Hne].
    - rewrite lookup_insert_eq. destruct Hc1 as [Hheld|[-> _]]; [|done].
      rewrite Hheld in *. cbn [fmap option_fmap option_map].
      match goal with H : require _ _ = Ok _ |- _ => apply require_Ok, bool_decide_eq_true in H as -> end.
      done.
    - rewrite lookup_insert_ne by done. destruct Hc1 as [->|[_ ?]]; done. }
  case_bool_decide; [|by left].
  rewrite map_lookup_filter. apply fmap_Some in Hat as (c2 & -> & ->). simpl.
  case_guard; simpl; [by left|right; split; [done|lia]].
Qed.

Lemma register_finality_certificate_registry `{Crypto} e c signing e' :
  register_finality_certificate e c = Ok (signing, e') -> registry_ok e -> registry_ok e'.
Proof.
  unfold register_finality_certificate. intros Hreg Hok. inv_ok.
  intros h c1 Hc1. simpl in *.
  assert (<[fc_height c := c]> (finality_certificates e) !! h = Some c1) as Hin.
  { case_bool_decide; [|done]. by apply map_lookup_filter_Some in Hc1 as [? _]. }
  apply lookup_insert_Some in Hin as [[<- <-]|[_ Hin]].
  - split; [done|]. split; [lia|]. eauto.
  - destruct (Hok h c1 Hin) as (? & ? & d' & n & ? & ?). split; [done|]. split; [lia|]. eauto.
Qed.

(** Verification itself reports no conflict: only the registry does. *)
Definition no_conflict {A} (o : outcome CertificateError A) : Prop :=
  forall h b b', o <> Err (ConflictingFinality h b b').

Lemma bind_no_conflict {A B} (o : outcome CertificateError A) (f : A -> outcome CertificateError B) :
  no_conflict o -> (forall x, no_conflict (f x)) -> no_conflict (mbind f o).
Proof.
  intros Ho Hf. destruct o as [x|x|]; [apply Hf| |done].
  intros h b b' [= ->]. by apply (Ho h b b').
Qed.

Lemma fc_verify_no_conflict `{Crypto} c d s : no_conflict (fc_verify c d s).
Proof.
  assert (forall b x, (forall h b b', x <> ConflictingFinality h b b') -> no_conflict (require b x))
    as Hreq by (intros [] x Hx h b b'; simpl; congruence).
  unfold fc_verify. repeat (apply bind_no_conflict; [by apply Hreq|intros ?]).
  apply bind_no_conflict; [|intros n; apply bind_no_conflict; [by apply Hreq|done]].
  unfold fc_tally. generalize 0 at 1 as i. generalize 0 as n. generalize (∅ : gset Address).
  induction (fc_votes c) as [|v l IH]; intros seen n i; [done|]. cbn [vote_tally].
  do 2 (apply bind_no_conflict; [by apply Hreq|intros ?]). apply bind_no_conflict.
  - unfold fv_verify_against, verify_member_signature.
    apply bind_no_conflict; [by destruct (get_validator _ _)|]. intros m.
    by apply bind_no_conflict; [apply Hreq|].
  - intros stake. apply bind_no_conflict; [by destruct (checked_add n stake)|]. intros n'. apply IH.
Qed.

(** C8: importing history is nothing but ordinary operation: whatever blocks a peer
    sends, the engine that [import_history_with_persistence] leaves is reached by
    accepting, one after the other, some of those blocks through the normal validation,
    each after the persistence hook took it, and by leaving rounds through
    [advance_round]; only blocks of the open restart base round are admitted without
    their parents.  A run that succeeds reports the current round and has accepted a
    block or left a round, and with a hook that does not abort no input aborts the
    import. *)
Theorem import_history_is_a_run `{Crypto} {S} (persist : persist_hook S) (e : ConsensusEngine)
  (st : S) (blocks : list DagBlock) (max_rounds now : Z)
  (r : outcome ConsensusError Z) (st' : S) (e' : ConsensusEngine)
  (Hwf : vs_wf (validator_set e))
  (Hrun : import_history_with_persistence e st blocks max_rounds persist now = (r, st', e')) :
  exists accepted,
    import_trace persist (open_restart_base_round e) (st, e) accepted (st', e') /\
    Forall (fun b => b ∈ blocks) accepted /\ current_round e <= current_round e' /\
    (forall reached, r = Ok reached -> reached = current_round e' /\
       (accepted <> [] \/ current_round e < reached)) /\
    (total_hook persist -> r <> Panic).
Proof.
  unfold import_history_with_persistence in Hrun.
  destruct (plan_import e blocks max_rounds) as [m|x|] eqn:Hplan;
    [|simplify_eq; exists []; by repeat constructor|by apply plan_import_no_panic in Hplan].
  apply plan_import_planned in Hplan.
  destruct (import_rounds _ _ _ _ _ _ _ _) as [[[[f st1] e1] reached] n] eqn:Hrounds.
  eapply import_rounds_imported in Hrounds as (Hi & Hreached & Hle & Hf); [|done|done|done].
  destruct Hi as (accepted & Htr & Hin & Hn & _).
  assert (st' = st1 /\ e' = e1) as [-> ->] by (destruct f; repeat case_match; by simplify_eq).
  exists accepted. split; [done|]. split; [done|]. split; [done|]. split.
  - intros reached' ->. destruct f; [| |done|done]; (case_match eqn:Hnew; [done|]); simplify_eq;
      (split; [done|]); destruct accepted; [right|by left|right|by left]; simpl in Hn;
      rewrite bool_decide_true in Hnew by lia; apply bool_decide_eq_false in Hnew; lia.
  - intros Ht ->. specialize (Hf Ht). by destruct f; repeat case_match; simplify_eq.
Qed.

(** A run of two rounds for an engine that holds no block. *)
Module DemoTransfer.
Import Demo DemoRun.

Definition round0 : list DagBlock := (fun i => blk None i 0 []) <$> [0; 1; 2; 3].
Definition run : list DagBlock := ((fun i => blk None i 1 round0) <$> [0; 2; 3]) ++ round0.

Definition imported_run : outcome ConsensusError Z * list Hash256 * ConsensusEngine :=
  import_history_with_persistence (node 1) [] run 10 (fun st b => (Ok (), hash b :: st)) 5.

(** An engine of the recovery domain that holds a certificate of height 7. *)
Definition holding : ConsensusEngine :=
  let e := (node 1) <| certificate_domain := Some DemoDag.demo_domain |> in
  match register_finality_certificate e (DemoCert.certificate 50 [2; 0; 3]) with
  | Ok (_, e') => e'
  | _ => e
  end.

Lemma holding_ok : registry_ok holding.
Proof.
  unfold holding. set (e := (node 1) <| certificate_domain := _ |>).
  assert (registry_ok e) as He by (intros h c; unfold e; simpl; by rewrite lookup_empty).
  destruct (register_finality_certificate e _) as [[n e']| |] eqn:Hreg; [|done..].
  by eapply register_finality_certificate_registry.
Qed.

(** The conflict a registration reports. *)
Definition conflict {A} (o : outcome CertificateError A) : option (Z * Hash256 * Hash256) :=
  match o with Err (ConflictingFinality h b b') => Some (h, b, b') | _ => None end.

Lemma conflict_Some {A} (o : outcome CertificateError A) h b b' :
  conflict o = Some (h, b, b') -> o = Err (ConflictingFinality h b b').
Proof. destruct o as [|[]|]; simpl; congruence. Qed.

End DemoTransfer.

Lemma import_history_is_a_run_witness :
  exists accepted,
    import_trace (fun st b => (Ok (), hash b :: st)) None ([], DemoRun.node 1) accepted
      (DemoTransfer.imported_run.1.2, DemoTransfer.imported_run.2) /\
    Forall (fun b => b ∈ DemoTransfer.run) accepted /\
    current_round DemoTransfer.imported_run.2 = 2.
Proof.
  destruct DemoTransfer.imported_run as [[r st] e'] eqn:Hrun.
  assert (DemoTransfer.imported_run.1.1 = Ok 2) as Hr by (vm_compute; reflexivity).
  rewrite Hrun in Hr. cbn [fst snd] in *. unfold DemoTransfer.imported_run in Hrun.
  destruct (@import_history_is_a_run Demo.demo_crypto (list Hash256) _ (DemoRun.node 1) _ _ _ _ _ _ _
    DemoNet.committee_wf Hrun) as (accepted & Htr & Hin & _ & Hok & _).
  destruct (Hok 2 Hr) as [He _]. exists accepted. split; [exact Htr|]. split; [exact Hin|].
  symmetry. exact He.
Defined.

(** What an engine holds as final stays final.  On an engine whose certificates all
    verify, registering a finality certificate never aborts; if it succeeds, the new
    block and every block held before are reported at their heights as before, or lie
    below the retention window, and the certificates held still all verify; if it
    reports a conflict, the certificate held and the one refused convict more than the
    tolerated stake of signing two blocks. *)
Theorem finality_registry_sound `{Crypto} (e : ConsensusEngine) (c : FinalityCertificate)
  (Hwf : vs_wf (frozen_validator_set e)) (Hreg : registry_ok e) :
  match register_finality_certificate e c with
  | Ok (signing, e') =>
      registry_ok e' /\ kept_or_pruned e' (fc_height c) (fc_block_hash c) /\
      forall h b, finalized_block_at e h = Some b -> kept_or_pruned e' h b
  | Err (ConflictingFinality h b b') =>
      h = fc_height c /\ b' = fc_block_hash c /\ b <> b' /\
      exists held, finality_certificates e !! h = Some held /\ fc_block_hash held = b /\
        let double : gset Address := list_to_set (fc_voters held) ∩ list_to_set (fc_voters c) in
        fault_tolerance_stake (frozen_validator_set e) < stake_in (frozen_validator_set e) double /\
        forall a, a ∈ double ->
          (exists sig, sig_verify sig (fc_transcript held a) a = Ok ()) /\
          (exists sig, sig_verify sig (fc_transcript c a) a = Ok ())
  | Err _ => True
  | Panic => False
  end.
Proof.
  destruct (register_finality_certificate e c) as [[signing e']|x|] eqn:Hrun.
  - split; [by eapply register_finality_certificate_registry|].
    split; [eapply register_finality_certificate_keeps; [done|by right]|].
    intros h b (c1 & Hc1 & ->)%fmap_Some. eapply register_finality_certificate_keeps; [done|by left].
  - destruct x; try done. unfold register_finality_certificate in Hrun.
    destruct (certificate_domain e) as [d|] eqn:Hd; [|done]. simpl in Hrun.
    destruct (fc_verify c d _) as [n|x|] eqn:Hv; simpl in Hrun; [| |done].
    + destruct (finality_certificates e !! fc_height c) as [cert|] eqn:Hheld; [|done].
      unfold require in Hrun.
      destruct (bool_decide (fc_block_hash cert = _)) eqn:Hne; [discriminate Hrun|].
      apply bool_decide_eq_false in Hne.
      injection Hrun as <- <- <-. split; [done|]. split; [done|]. split; [done|].
      exists cert. split; [done|]. split; [done|].
      destruct (Hreg _ _ Hheld) as (_ & _ & d' & n' & Hd' & Hv'). rewrite Hd in Hd'. injection Hd' as <-.
      destruct (finality_overlap cert c d (frozen_validator_set e) n' n Hwf Hv' Hv) as [Hf Hall].
      split; [done|]. intros a Ha. apply (Hall a Ha).
    + injection Hrun as ->. by apply fc_verify_no_conflict in Hv.
  - revert Hrun. unfold register_finality_certificate.
    apply bind_no_panic; [auto with no_panic|]. intros d _.
    apply bind_no_panic; [by apply (verify_no_panic _ _ (mkSkipCertificate d 0 0 0 NoBlock []))|].
    intros n _. apply bind_no_panic; [by case_match; auto with no_panic|done].
Qed.

Lemma finality_registry_sound_witness :
  register_finality_certificate (H := Demo.demo_crypto) DemoTransfer.holding
    (DemoCert.certificate 51 [1; 2; 3]) = Err (ConflictingFinality 7 50 51) /\
  exists held, finality_certificates DemoTransfer.holding !! 7 = Some held /\
    fault_tolerance_stake (frozen_validator_set DemoTransfer.holding) <
    stake_in (frozen_validator_set DemoTransfer.holding)
      (list_to_set (fc_voters held) ∩ list_to_set (fc_voters (DemoCert.certificate 51 [1; 2; 3]))).
Proof.
  assert (register_finality_certificate (H := Demo.demo_crypto) DemoTransfer.holding
    (DemoCert.certificate 51 [1; 2; 3]) = Err (ConflictingFinality 7 50 51)) as Hrun
    by (apply DemoTransfer.conflict_Some; vm_compute; reflexivity).
  split; [exact Hrun|].
  pose proof (@finality_registry_sound Demo.demo_crypto DemoTransfer.holding
    (DemoCert.certificate 51 [1; 2; 3])) as Hsound.
  rewrite Hrun in Hsound.
  destruct Hsound as (_ & _ & _ & held & Hheld & _ & Hstake & _).
  - split; vm_compute; reflexivity.
  - exact DemoTransfer.holding_ok.
  - exists held. split; [exact Hheld|exact Hstake].
Defined.
