(* ===== verification/Signing.v ===== *)
(** * One proposal per round

    What keeps a validator from signing two blocks for one round: the index of its
    own blocks while the process runs, and the proposal floor across a restart or a
    rebase.  [signing_run] follows one validator through any number of processes,
    with the list of every block it ever signed. *)

From S2P Require Import Prelude Crypto Validators Dag Security Blocks Certificates.
From S2P Require Import DataAvailability Engine DagInvariant CrossShard Commit History EngineSteps.
From S2P Require Import Safety Network.

Section Signing.
Context `{Crypto}.
Implicit Types e : ConsensusEngine.













(** ** One validator over all its processes *)









End Signing.

(** ** Concrete processes *)

Section SigningScripts.
Context `{Crypto}.







End SigningScripts.

(** ** The theorems *)

Module DemoSigning.
Import Demo DemoNet DemoRun.








(** Validator 0 after a restart from a WAL that only reached round 0. *)
Definition restarted : ConsensusEngine := restore_round_from_local_wal (node 0) 0 0 0.

End DemoSigning.



(** The proposal floor does not cover round 0.  A validator that signed its block for
    round 0 and restarts from a WAL whose highest round is 0 can sign a second, different
    block for round 0: [restore_round_from_local_wal] leaves the floor at 0, and
    [propose_block] only consults a positive floor. *)
Theorem restart_in_round_zero_signs_twice :
  exists (b1 b2 : DagBlock) (e1 e2 : ConsensusEngine),
    let e0 := DemoRun.node 0 in
    propose_block e0 [5] 0 = Ok (b1, e1) /\
    propose_block (restore_round_from_local_wal e0 (round b1) 0 0) [6] 0 = Ok (b2, e2) /\
    author b1 = author b2 /\ round b1 = round b2 /\ hash b1 <> hash b2.
Proof.
  exists (DemoRun.run_proposal (DemoRun.node 0) [5]).1, (DemoRun.run_proposal DemoSigning.restarted [6]).1.
  exists (DemoRun.run_proposal (DemoRun.node 0) [5]).2, (DemoRun.run_proposal DemoSigning.restarted [6]).2.
  split; [apply DemoRun.run_proposal_ok; vm_compute; reflexivity|].
  assert (round (DemoRun.run_proposal (DemoRun.node 0) [5]).1 = 0) as Hr by (vm_compute; reflexivity).
  split; [rewrite Hr; apply DemoRun.run_proposal_ok; vm_compute; reflexivity|].
  split; [vm_compute; reflexivity|]. split; [vm_compute; reflexivity|]. vm_compute. discriminate.
Qed.
