(* ===== verification/Ledger.v ===== *)
(** * The ledger: state, transactions and the v3 families
    (crates/arc-state/src/lib.rs, crates/arc-types/src/transaction.rs)

    The account map with what executes transactions on it: the state of [StateDB] that
    execution reads and writes, the transaction type, the derivation of the addresses
    the state machine owns, and the three families protocol 3 admits: transfers, faucet
    claims and community rewards.

    [accounts], [validators] and the other concurrent maps are their contents; a
    transaction is one step.  The write-ahead log is the list of the records execution
    appends, and a log that is not active drops what is appended.  The text of an
    execution error is a label, without the values formatted into it.  The GPU cache of
    accounts and the Jellyfish tree are left out. *)

From S2P Require Import Prelude Crypto Merkle Validators Blocks.

(** ** Errors *)

Inductive StateError :=
| InsufficientBalance (have need : Z)
| InvalidNonce (expected got : Z)
| ContractNotFound (contract : Address)
| ExecutionError (what : string)
| PersistenceError (what : string).

(** ** Transactions *)

Inductive TxType :=
| TxTransfer | TxSettle | TxSwap | TxEscrow | TxStake | TxWasmCall | TxMultiSig
| TxDeployContract | TxRegisterAgent | TxJoinValidator | TxLeaveValidator
| TxClaimRewards | TxUpdateStake | TxGovernance | TxBridgeLock | TxBridgeMint
| TxBatchSettle | TxChannelOpen | TxChannelClose | TxChannelDispute | TxShardProof
| TxInferenceAttestation | TxInferenceChallenge | TxInferenceRegister
| TxInferenceEscrowOpen | TxInferenceEscrowRelease | TxInferenceEscrowRefund
| TxModelRegistration | TxModelRequest | TxShardCoverageClaim
| TxCapacityAdvertisement | TxShardAssignmentProposal | TxFaucetClaim
| TxInferenceRequest | TxInferenceVote | TxInferenceFinalize
| TxCommunityInferenceReward | TxNativeInferenceRequest | TxNativeInferenceFinalize
| TxNativeInferenceRefund.

#[global] Instance TxType_eq_dec : EqDecision TxType.
Proof. solve_decision. Defined.

(** The discriminants of the enumeration. *)
Definition tx_type_code (t : TxType) : Z :=
  match t with
  | TxTransfer => 1 | TxSettle => 2 | TxSwap => 3 | TxEscrow => 4 | TxStake => 5
  | TxWasmCall => 6 | TxMultiSig => 7 | TxDeployContract => 8 | TxRegisterAgent => 9
  | TxJoinValidator => 10 | TxLeaveValidator => 11 | TxClaimRewards => 12
  | TxUpdateStake => 13 | TxGovernance => 14 | TxBridgeLock => 15 | TxBridgeMint => 16
  | TxBatchSettle => 17 | TxChannelOpen => 18 | TxChannelClose => 19
  | TxChannelDispute => 20 | TxShardProof => 21 | TxInferenceAttestation => 22
  | TxInferenceChallenge => 23 | TxInferenceRegister => 24 | TxInferenceEscrowOpen => 25
  | TxInferenceEscrowRelease => 26 | TxInferenceEscrowRefund => 27
  | TxModelRegistration => 28 | TxModelRequest => 29 | TxShardCoverageClaim => 30
  | TxCapacityAdvertisement => 31 | TxShardAssignmentProposal => 32 | TxFaucetClaim => 33
  | TxInferenceRequest => 34 | TxInferenceVote => 35 | TxInferenceFinalize => 36
  | TxCommunityInferenceReward => 37 | TxNativeInferenceRequest => 38
  | TxNativeInferenceFinalize => 39 | TxNativeInferenceRefund => 40
  end.

Record SettleEntry := mkSettleEntry {
  se_agent_id : Address;
  se_service_hash : Hash256;
  se_amount : Z;
}.

Record WorkerInferenceCertificate := mkWorkerCertificate {
  wc_attestation_hash : Hash256;
  wc_nonce : Z;
  wc_challenge_period : Z;
  wc_signature : Signature;
}.

Record CommunityRewardValidatorApproval := mkApproval {
  ap_validator : Address;
  ap_public_key : list Z;
  ap_signature_halves : list Z * list Z;
}.

Record CommunityInferenceRewardBody := mkRewardBody {
  cr_chain_domain : Hash256;
  cr_job_id : Hash256;
  cr_coordinator : Address;
  cr_assignment_epoch : Hash256;
  cr_job_nonce : Z;
  cr_recovery_epoch : Z;
  cr_validator_set_id : Z;
  cr_transaction_domain : Hash256;
  cr_worker : Address;
  cr_model_id : Hash256;
  cr_input_hash : Hash256;
  cr_output_hash : Hash256;
  cr_max_tokens : Z;
  cr_expires_at_height : Z;
  cr_worker_certificate : WorkerInferenceCertificate;
  cr_validator_approvals : list CommunityRewardValidatorApproval;
}.

Record InferenceRequestBody := mkRequestBody {
  ir_request_id : Hash256;
  ir_model_id : Hash256;
  ir_input_hash : Hash256;
  ir_input_blob : list Z;
  ir_max_tokens : Z;
  ir_tier : Z;
  ir_max_reward : Z;
  ir_deadline_blocks : Z;
  ir_committee_size : Z;
}.

(** The native inference lane, which no transaction executor runs. *)
Inductive NativeFamily :=
| NativeInferenceRequest | NativeInferenceFinalize | NativeInferenceRefund.

(** The bodies, with the fields of their structs.  A byte array of 32 bytes is a
    [Hash256]; a string is its bytes. *)
Inductive TxBody :=
| BTransfer (to : Address) (amount : Z) (amount_commitment : option Hash256)
| BSettle (agent_id : Address) (service_hash : Hash256) (amount usage_units : Z)
    (amount_commitment : option Hash256)
| BSwap (counterparty : Address) (offer_amount receive_amount : Z)
    (offer_asset receive_asset : Hash256)
| BEscrow (beneficiary : Address) (amount : Z) (conditions_hash : Hash256) (is_create : bool)
| BStake (amount : Z) (is_stake : bool) (validator : Address)
| BMultiSig (inner_tx : TxBody) (signers : list Address) (threshold : Z)
| BRegisterAgent (agent_name capabilities endpoint : list Z) (protocol : Hash256)
    (metadata : list Z)
| BJoinValidator (pubkey : Hash256) (initial_stake : Z)
| BLeaveValidator
| BClaimRewards
| BUpdateStake (new_stake : Z)
| BGovernance (proposal_id : Z)
| BBridgeLock (destination_chain : Z) (destination_address : Hash256) (amount : Z)
| BBridgeMint (source_chain : Z) (source_tx_hash : Hash256) (recipient : Address) (amount : Z)
    (merkle_proof : list Z)
| BBatchSettle (entries : list SettleEntry)
| BChannelOpen (channel_id : Hash256) (counterparty : Address) (deposit timeout_blocks : Z)
| BChannelClose (channel_id : Hash256) (opener_balance counterparty_balance : Z)
    (counterparty_sig : list Z) (state_nonce : Z)
| BChannelDispute (channel_id : Hash256) (opener_balance counterparty_balance : Z)
    (other_party_sig : list Z) (state_nonce challenge_period : Z)
| BInferenceAttestation (model_id input_hash output_hash : Hash256)
    (challenge_period bond : Z)
| BInferenceChallenge (attestation_hash challenger_output_hash : Hash256) (challenger_bond : Z)
| BInferenceRegister (tier stake_bond : Z)
| BInferenceEscrowOpen (request_id model_id : Hash256) (max_fee max_tokens timeout_blocks : Z)
| BInferenceEscrowRelease (request_id : Hash256) (payer : Address) (model_id : Hash256)
    (max_tokens timeout_blocks : Z) (output_hash : Hash256) (proposer : Address)
    (replicas : list Address) (observer_pool treasury : Address)
| BInferenceEscrowRefund (request_id model_id : Hash256) (max_tokens timeout_blocks : Z)
| BModelRegistration (model_id metadata_hash chunk_tree_root : Hash256) (n_layers d_model : Z)
    (quantization : list Z) (registration_fee : Z) (royalty_recipient : Address)
| BModelRequest (request_id model_id : Hash256)
    (target_k_replication bond_per_layer_epoch max_wait_secs : Z)
| BShardCoverageClaim (model_id node_pubkey : Hash256) (ranges : list (Z * Z))
    (bond epoch_blocks : Z)
| BCapacityAdvertisement (node_pubkey : Hash256) (ram_bytes vram_bytes : Z)
    (bandwidth_mbps uptime_hint_mins stake : Z) (region : list Z)
| BShardAssignmentProposal (epoch_blocks : Z)
    (assignments : list (Hash256 * Hash256 * list (Z * Z))) (input_snapshot_hash : Hash256)
| BFaucetClaim (recipient : Address) (amount : Z)
| BInferenceRequest (body : InferenceRequestBody)
| BInferenceVote (request_id output_hash : Hash256) (output_blob : option (list Z))
    (vrf_proof : list Z) (committee_seed : Hash256)
| BInferenceFinalize (request_id : Hash256)
| BCommunityInferenceReward (body : CommunityInferenceRewardBody)
| BWasmCall (contract : Address) (function calldata : list Z) (value gas_limit : Z)
| BDeployContract (bytecode constructor_args : list Z) (state_rent_deposit : Z)
| BShardProof (shard_id block_height : Z) (block_hash prev_state_root post_state_root : Hash256)
    (tx_count : Z) (proof_data : list Z)
| BNative (family : NativeFamily) (payload : list Z).

Definition body_tx_type (b : TxBody) : TxType :=
  match b with
  | BTransfer _ _ _ => TxTransfer
  | BSettle _ _ _ _ _ => TxSettle
  | BSwap _ _ _ _ _ => TxSwap
  | BEscrow _ _ _ _ => TxEscrow
  | BStake _ _ _ => TxStake
  | BMultiSig _ _ _ => TxMultiSig
  | BRegisterAgent _ _ _ _ _ => TxRegisterAgent
  | BJoinValidator _ _ => TxJoinValidator
  | BLeaveValidator => TxLeaveValidator
  | BClaimRewards => TxClaimRewards
  | BUpdateStake _ => TxUpdateStake
  | BGovernance _ => TxGovernance
  | BBridgeLock _ _ _ => TxBridgeLock
  | BBridgeMint _ _ _ _ _ => TxBridgeMint
  | BBatchSettle _ => TxBatchSettle
  | BChannelOpen _ _ _ _ => TxChannelOpen
  | BChannelClose _ _ _ _ _ => TxChannelClose
  | BChannelDispute _ _ _ _ _ _ => TxChannelDispute
  | BInferenceAttestation _ _ _ _ _ => TxInferenceAttestation
  | BInferenceChallenge _ _ _ => TxInferenceChallenge
  | BInferenceRegister _ _ => TxInferenceRegister
  | BInferenceEscrowOpen _ _ _ _ _ => TxInferenceEscrowOpen
  | BInferenceEscrowRelease _ _ _ _ _ _ _ _ _ _ => TxInferenceEscrowRelease
  | BInferenceEscrowRefund _ _ _ _ => TxInferenceEscrowRefund
  | BModelRegistration _ _ _ _ _ _ _ _ => TxModelRegistration
  | BModelRequest _ _ _ _ _ => TxModelRequest
  | BShardCoverageClaim _ _ _ _ _ => TxShardCoverageClaim
  | BCapacityAdvertisement _ _ _ _ _ _ _ => TxCapacityAdvertisement
  | BShardAssignmentProposal _ _ _ => TxShardAssignmentProposal
  | BFaucetClaim _ _ => TxFaucetClaim
  | BInferenceRequest _ => TxInferenceRequest
  | BInferenceVote _ _ _ _ _ => TxInferenceVote
  | BInferenceFinalize _ => TxInferenceFinalize
  | BCommunityInferenceReward _ => TxCommunityInferenceReward
  | BWasmCall _ _ _ _ _ => TxWasmCall
  | BDeployContract _ _ _ => TxDeployContract
  | BShardProof _ _ _ _ _ _ _ => TxShardProof
  | BNative NativeInferenceRequest _ => TxNativeInferenceRequest
  | BNative NativeInferenceFinalize _ => TxNativeInferenceFinalize
  | BNative NativeInferenceRefund _ => TxNativeInferenceRefund
  end.

Record Transaction := mkTransaction {
  tx_type : TxType;
  tx_from : Address;
  tx_nonce : Z;
  tx_body : TxBody;
  tx_fee : Z;
  tx_gas_limit : Z;
  tx_hash : Hash256;
  tx_signature : Signature;
  tx_sig_verified : bool;
}.

(** bincode, for the values whose bytes are hashed, measured or stored. *)
Class TxCodec := {
  bincode_tx : Transaction -> option (list Z);
  bincode_tx_body : TxBody -> option (list Z);
  bincode_account : Account -> option (list Z);
  bincode_issuance_policy : list Z -> option (list Z);
  bincode_votes : list (Address * Hash256) -> option (list Z);
  read_votes : list Z -> option (list (Address * Hash256));
}.

(** ** Gas *)

Definition BATCH_SETTLE_MAX_ENTRIES : Z := 10000.
Definition BLOCK_GAS_LIMIT : Z := 30000000.

Definition gas_cost_for_tx (tx : Transaction) : Z :=
  match tx_body tx with
  | BTransfer _ _ _ => 21000
  | BSettle _ _ _ _ _ => 25000
  | BSwap _ _ _ _ _ => 30000
  | BEscrow _ _ _ _ => 35000
  | BStake _ _ _ => 25000
  | BMultiSig _ _ _ => 35000
  | BRegisterAgent _ _ _ _ _ => 30000
  | BJoinValidator _ _ => 30000
  | BLeaveValidator => 25000
  | BClaimRewards => 25000
  | BUpdateStake _ => 25000
  | BGovernance _ => 50000
  | BBridgeLock _ _ _ => 50000
  | BBridgeMint _ _ _ _ _ => 50000
  | BBatchSettle entries => 30000 + Z.of_nat (length entries) * 500
  | BChannelOpen _ _ _ _ => 40000
  | BChannelClose _ _ _ _ _ => 35000
  | BChannelDispute _ _ _ _ _ _ => 50000
  | BInferenceAttestation _ _ _ _ _ => 50000
  | BCommunityInferenceReward _ => 50000
  | BInferenceChallenge _ _ _ => 100000
  | BInferenceRegister _ _ => 50000
  | BInferenceEscrowOpen _ _ _ _ _ => 50000
  | BInferenceEscrowRelease _ _ _ _ _ _ _ _ _ _ => 80000
  | BInferenceEscrowRefund _ _ _ _ => 40000
  | BModelRegistration _ _ _ _ _ _ _ _ => 60000
  | BModelRequest _ _ _ _ _ => 50000
  | BShardCoverageClaim _ _ _ _ _ => 60000
  | BCapacityAdvertisement _ _ _ _ _ _ _ => 40000
  | BShardAssignmentProposal _ _ _ => 80000
  | BFaucetClaim _ _ => 25000
  | BInferenceRequest _ => 80000
  | BInferenceVote _ _ _ _ _ => 30000
  | BInferenceFinalize _ => 60000
  | BWasmCall _ _ _ _ _ => 21000
  | BDeployContract _ _ _ => 53000
  | BShardProof _ _ _ _ _ _ _ => 60000
  | BNative (NativeInferenceRequest | NativeInferenceFinalize) _ => 90000
  | BNative NativeInferenceRefund _ => 45000
  end.

(** [GasMeter::charge]: the result and the gas consumed after it. *)
Definition charge (limit consumed amount : Z) : outcome StateError unit * Z :=
  match checked_add consumed amount with
  | None => (Err (ExecutionError "gas: overflow"), consumed)
  | Some new_consumed =>
      if bool_decide (limit < new_consumed) then (Err (ExecutionError "gas: out of gas"), limit)
      else (Ok (), new_consumed)
  end.

(** [gas.charge(amount)?]: the gas consumed. *)
Definition charge_gas (limit consumed amount : Z) : outcome StateError Z :=
  let '(r, consumed') := charge limit consumed amount in
  _ ← r; Ok consumed'.

(** ** The state *)

Record RecoveryContext := mkRecoveryContext {
  rc_chain_id_hash : Hash256;
  rc_genesis_hash : Hash256;
  rc_recovery_epoch : Z;
  rc_validator_set_id : Z;
  rc_protocol_version : ProtocolVersion;
}.

(** An event of a contract, and what a block records of a transaction. *)
Record EventLog := mkEventLog {
  el_address : Address;
  el_topics : list Hash256;
  el_data : list Z;
  el_block_height : Z;
  el_tx_hash : Hash256;
  el_log_index : Z;
}.

Record TxReceipt := mkReceipt {
  rcp_tx_hash : Hash256;
  rcp_block_height : Z;
  rcp_block_hash : Hash256;
  rcp_index : Z;
  rcp_success : bool;
  rcp_gas_used : Z;
  rcp_value_commitment : option (list Z);
  rcp_inclusion_proof : option (list Z);
  rcp_logs : list EventLog;
}.

#[global] Instance TxReceipt_eta : Eta TxReceipt := fun r =>
  mkReceipt (rcp_tx_hash r) (rcp_block_height r) (rcp_block_hash r) (rcp_index r) (rcp_success r)
    (rcp_gas_used r) (rcp_value_commitment r) (rcp_inclusion_proof r) (rcp_logs r).

(** The records of the write-ahead log, and an entry: a record with the height it was
    appended at.  Three kinds are left out with the parts of the state they write: the
    identity registry ([SetIdentity]), the native lane ([InferenceTransition]) and the
    adoption of a checkpoint ([Rebase]). *)
Inductive WalOp :=
| SetAccount (addr : Address) (a : Account)
| SetStorage (addr : Address) (key : Hash256) (value : list Z)
| DeleteStorage (addr : Address) (key : Hash256)
| SetBlock (height : Z) (block : Block)
| SetReceipt (hash : Hash256) (receipt : TxReceipt)
| SetAgent (addr : Address) (name endpoint : string) (capabilities : list Z)
| SetContract (addr : Address) (bytecode : list Z)
| Checkpoint (root : Hash256)
| SetDagBlock (hash : Hash256) (bytes : list Z)
| SetDagRound (round : Z)
| CommitDagBlock (hash : Hash256)
| SetFullTransaction (hash : Hash256) (tx : Transaction)
| SetEventLogs (height : Z) (logs : list EventLog)
| SetValidatorState (validators : list (Address * Z)) (staking_pool : Z)
| SetRecoveryContext (context : RecoveryContext) (activation_height : option Z).

Record WalEntry := mkWalEntry { entry_op : WalOp; entry_height : Z }.

(** The history a node keeps: sealed blocks, the place of each transaction, receipts,
    bodies and event logs. *)
Record History := mkHistory {
  h_blocks : gmap Z Block;
  h_tx_index : gmap Hash256 (Z * Z);
  h_receipts : gmap Hash256 TxReceipt;
  h_full_transactions : gmap Hash256 Transaction;
  h_event_logs : gmap Z (list EventLog);
}.

#[global] Instance History_eta : Eta History := fun h =>
  mkHistory (h_blocks h) (h_tx_index h) (h_receipts h) (h_full_transactions h) (h_event_logs h).

(** [db_native_inference] and [db_native_migration] say whether the native inference
    context and the migration record are present; [db_pending_bond_releases] lists the
    entries of its ordered map by ascending height. *)
Record StateDB := mkStateDB {
  db_accounts : gmap Address Account;
  db_validators : gmap Address Z;
  db_staking_pool : Z;
  db_height : Z;
  db_pending_bond_releases : list (Z * list Address);
  db_wal_active : bool;
  db_wal : list WalEntry;
  db_storage : gmap Address (gmap Hash256 (list Z));
  db_contracts : gmap Address (list Z);
  db_tier1_pending : gmap Hash256 Z;
  db_dirty_accounts : gset Address;
  db_incremental_merkle : IncrementalMerkle;
  db_recovery_context : option RecoveryContext;
  db_community_rewards_v1_activation_height : Z;
  db_native_inference : bool;
  db_native_migration : bool;
  db_history : History;
}.

#[global] Instance Account_eta : Eta Account := fun a =>
  mkAccount (acc_address a) (acc_balance a) (acc_nonce a) (acc_code_hash a) (acc_storage_root a)
    (acc_staked_balance a).

#[global] Instance StateDB_eta : Eta StateDB := fun s =>
  mkStateDB (db_accounts s) (db_validators s) (db_staking_pool s) (db_height s)
    (db_pending_bond_releases s) (db_wal_active s) (db_wal s) (db_storage s)
    (db_contracts s) (db_tier1_pending s) (db_dirty_accounts s)
    (db_incremental_merkle s) (db_recovery_context s)
    (db_community_rewards_v1_activation_height s) (db_native_inference s) (db_native_migration s)
    (db_history s).

(** A method of the state: it may write before it fails. *)
Definition ledger (A : Type) : Type := StateDB -> outcome StateError A * StateDB.

#[global] Instance ledger_ret : MRet ledger := fun A a s => (Ok a, s).
#[global] Instance ledger_bind : MBind ledger := fun A B f m s =>
  match m s with
  | (Ok a, s') => f a s'
  | (Err e, s') => (Err e, s')
  | (Panic, s') => (Panic, s')
  end.

(** A computation that does not touch the state, and one that only reads it. *)
Definition pureL {A} (o : outcome StateError A) : ledger A := fun s => (o, s).
Definition readL {A} (f : StateDB -> A) : ledger A := fun s => (Ok (f s), s).
Definition checkL {A} (f : StateDB -> outcome StateError A) : ledger A := fun s => (f s, s).
Definition modifyL (f : StateDB -> StateDB) : ledger unit := fun s => (Ok (), f s).

(** ** Accessors *)

Definition get_account (addr : Address) (s : StateDB) : option Account := db_accounts s !! addr.

(** The detached candidate [get_account(..).unwrap_or_else(|| Account::new(.., 0))]. *)
Definition account_or_new (addr : Address) (s : StateDB) : Account :=
  default (account_new addr 0) (db_accounts s !! addr).

Definition insert_account (addr : Address) (a : Account) : ledger unit :=
  modifyL (fun s => s <| db_accounts := <[addr := a]> (db_accounts s) |>).

Definition get_or_create_account (addr : Address) : ledger Account := fun s =>
  let a := account_or_new addr s in
  (Ok a, s <| db_accounts := <[addr := a]> (db_accounts s) |>).

(** [self.wal.append(.., self.height())]: an inactive log drops the record. *)
Definition append_op (op : WalOp) : ledger unit :=
  modifyL (fun s => if db_wal_active s then s <| db_wal := db_wal s ++ [mkWalEntry op (db_height s)] |>
                    else s).

Definition wal_append (addr : Address) (a : Account) : ledger unit := append_op (SetAccount addr a).

(** [self.dirty_accounts.insert(..)], for each key. *)
Definition mark_dirty (keys : list Address) : ledger unit :=
  modifyL (fun s => s <| db_dirty_accounts := list_to_set keys ∪ db_dirty_accounts s |>).

(** An account written to the map and to the log. *)
Definition store_account (addr : Address) (a : Account) : ledger unit :=
  _ ← insert_account addr a; wal_append addr a.

(** ** Contract storage *)

Definition write_storage (addr : Address) (key : Hash256) (value : list Z) (s : StateDB) : StateDB :=
  s <| db_storage := <[addr := <[key := value]> (default ∅ (db_storage s !! addr))]> (db_storage s) |>.

Definition set_storage (addr : Address) (key : Hash256) (value : list Z) : ledger unit :=
  _ ← modifyL (write_storage addr key value); append_op (SetStorage addr key value).

Definition get_storage (addr : Address) (key : Hash256) (s : StateDB) : option (list Z) :=
  db_storage s !! addr ≫= lookup key.

(** ** Replay of the log *)

(** The index loses the transactions of a replaced block that still point at its height. *)
Definition unindex_replaced (height : Z) (old : option Block) (index : gmap Hash256 (Z * Z))
    : gmap Hash256 (Z * Z) :=
  match old with
  | Some b =>
      foldl (fun m h => match m !! h with
                        | Some (at_height, _) => if bool_decide (at_height = height) then delete h m else m
                        | None => m
                        end) index (blk_tx_hashes b)
  | None => index
  end.

Definition u32_max : Z := 2 ^ 32 - 1.

(** The transactions of a block, each at its position; a position above [u32] is left out. *)
Definition index_block (height : Z) (tx_hashes : list Hash256) (index : gmap Hash256 (Z * Z))
    : gmap Hash256 (Z * Z) :=
  foldl (fun m e => if bool_decide (Z.of_nat e.1 <= u32_max)
                    then <[e.2 := (height, Z.of_nat e.1)]> m else m) index (imap pair tx_hashes).

Definition apply_set_block (height : Z) (block : Block) (s : StateDB) : StateDB :=
  let h := db_history s in
  let index := unindex_replaced height (h_blocks h !! height) (h_tx_index h) in
  s <| db_history := h <| h_blocks := <[height := block]> (h_blocks h) |>
                       <| h_tx_index := index_block height (blk_tx_hashes block) index |> |>
    <| db_height := Z.max height (db_height s) |>.

Definition apply_wal_op (s : StateDB) (op : WalOp) : StateDB :=
  let h := db_history s in
  match op with
  | SetAccount addr a =>
      s <| db_accounts := <[addr := a]> (db_accounts s) |>
        <| db_dirty_accounts := {[addr]} ∪ db_dirty_accounts s |>
  | SetStorage addr key value => write_storage addr key value s
  | DeleteStorage addr key =>
      match db_storage s !! addr with
      | Some m => s <| db_storage := <[addr := delete key m]> (db_storage s) |>
      | None => s
      end
  | SetBlock height block => apply_set_block height block s
  | SetReceipt hash receipt =>
      s <| db_history := h <| h_receipts := <[hash := receipt]> (h_receipts h) |> |>
  | SetAgent _ _ _ _ => s
  | SetContract addr bytecode => s <| db_contracts := <[addr := bytecode]> (db_contracts s) |>
  | Checkpoint _ => s
  | SetDagBlock _ _ | SetDagRound _ | CommitDagBlock _ => s
  | SetFullTransaction hash tx =>
      s <| db_history := h <| h_full_transactions := <[hash := tx]> (h_full_transactions h) |> |>
  | SetEventLogs height logs =>
      s <| db_history := h <| h_event_logs := <[height := logs]> (h_event_logs h) |> |>
  | SetValidatorState validators staking_pool =>
      s <| db_validators := foldl (fun m e => <[e.1 := e.2]> m) ∅ validators |>
        <| db_staking_pool := staking_pool |>
  | SetRecoveryContext context activation_height =>
      s <| db_recovery_context := Some context |>
        <| db_community_rewards_v1_activation_height := default u64_max activation_height |>
  end.

Definition replay (s : StateDB) (entries : list WalEntry) : StateDB :=
  foldl (fun s e => apply_wal_op s (entry_op e)) s entries.

Definition MIN_VALIDATOR_STAKE : Z := 100000.

Definition add_staking_pool_checked (amount : Z) : ledger unit := fun s =>
  match checked_add (db_staking_pool s) amount with
  | Some p => (Ok (), s <| db_staking_pool := p |>)
  | None => (Err (ExecutionError "staking pool overflow"), s)
  end.

Definition subtract_staking_pool_checked (amount : Z) : ledger unit := fun s =>
  match checked_sub (db_staking_pool s) amount with
  | Some p => (Ok (), s <| db_staking_pool := p |>)
  | None => (Err (ExecutionError "staking pool underflow"), s)
  end.

Definition get_validator_stake (addr : Address) (s : StateDB) : option Z := db_validators s !! addr.

Definition is_active_validator (s : StateDB) (addr : Address) : bool :=
  match db_validators s !! addr with
  | Some stake => bool_decide (MIN_VALIDATOR_STAKE <= stake)
  | None => false
  end.

Definition active_validators (s : StateDB) : list (Address * Z) :=
  filter (fun e => MIN_VALIDATOR_STAKE <= e.2) (map_to_list (db_validators s)).

Definition community_rewards_v1_activation_height (s : StateDB) : option Z :=
  if bool_decide (db_community_rewards_v1_activation_height s = u64_max) then None
  else Some (db_community_rewards_v1_activation_height s).

Definition community_rewards_v1_active (s : StateDB) : bool :=
  match community_rewards_v1_activation_height s with
  | Some activation => bool_decide (activation <= db_height s)
  | None => false
  end.

Definition active_protocol_version (s : StateDB) : ProtocolVersion :=
  if db_native_inference s && negb (db_native_migration s) then mkProtocolVersion 4 0 0
  else default GENESIS (rc_protocol_version <$> db_recovery_context s).

Definition protocol_v3 (s : StateDB) : bool := bool_decide (major (active_protocol_version s) = 3).

Section Ledger.
Context `{Crypto, TxCodec}.

(** ** Transaction hashes and signatures *)

Definition tx_content (tx : Transaction) (body : list Z) : list Z :=
  [tx_type_code (tx_type tx)] ++ hash_to_bytes (tx_from tx) ++ u64_le (tx_nonce tx) ++ body ++
  u64_le (tx_fee tx) ++ u64_le (tx_gas_limit tx).

Definition tx_compute_hash {E} (tx : Transaction) : outcome E Hash256 :=
  body ← expect (bincode_tx_body (tx_body tx));
  Ok (blake3_derive_key "ARC-chain-tx-v1" (tx_content tx body)).

Definition tx_compute_hash_in_domain {E} (tx : Transaction) (recovery_domain : Hash256)
    : outcome E Hash256 :=
  body ← expect (bincode_tx_body (tx_body tx));
  Ok (blake3_derive_key "ARC-chain-tx-v3" (hash_to_bytes recovery_domain ++ tx_content tx body)).

Definition tx_verify_signature (tx : Transaction) : outcome SignatureError unit :=
  _ ← require (bool_decide (tx_type tx = body_tx_type (tx_body tx))) SigHashMismatch;
  expected ← tx_compute_hash tx;
  _ ← require (bool_decide (expected = tx_hash tx)) SigHashMismatch;
  sig_verify (tx_signature tx) (tx_hash tx) (tx_from tx).

Definition tx_verify_signature_in_domain (tx : Transaction) (recovery_domain : Hash256)
    : outcome SignatureError unit :=
  _ ← require (bool_decide (tx_type tx = body_tx_type (tx_body tx))) SigHashMismatch;
  expected ← tx_compute_hash_in_domain tx recovery_domain;
  _ ← require (bool_decide (tx_hash tx = expected)) SigHashMismatch;
  sig_verify (tx_signature tx) (tx_hash tx) (tx_from tx).

Definition domain_hash (c : RecoveryContext) : Hash256 :=
  blake3_derive_key "ARC-recovery-consensus-domain-v1"
    (hash_to_bytes (rc_chain_id_hash c) ++ hash_to_bytes (rc_genesis_hash c) ++
     u64_be (rc_recovery_epoch c) ++ u64_be (rc_validator_set_id c) ++
     to_be_bytes 2 (major (rc_protocol_version c)) ++ to_be_bytes 2 (minor (rc_protocol_version c)) ++
     to_be_bytes 2 (patch (rc_protocol_version c))).

Definition verify_transaction_signature (s : StateDB) (tx : Transaction)
    : outcome SignatureError unit :=
  match db_recovery_context s with
  | Some c => tx_verify_signature_in_domain tx (domain_hash c)
  | None => tx_verify_signature tx
  end.

(** [.map_err(|_| StateError::ExecutionError(..))] on a signature check. *)
Definition signature_or (o : outcome SignatureError unit) (what : string)
    : outcome StateError unit :=
  match o with
  | Ok u => Ok u
  | Err _ => Err (ExecutionError what)
  | Panic => Panic
  end.

(** ** Addresses the state machine owns *)

Inductive V3SystemAccountKind :=
| CommunityRewardJob | CommunityRewardCertificate | RecoveryRewardProbe
| CommunityRewardBlockBudget | CommunityRewardEpochBudget | CommunityRewardWorkerBudget
| CommunityRewardCoordinatorBudget | FaucetClaimMarker.

Definition kind_code (k : V3SystemAccountKind) : Z :=
  match k with
  | CommunityRewardJob => 1
  | CommunityRewardCertificate => 2
  | RecoveryRewardProbe => 3
  | CommunityRewardBlockBudget => 4
  | CommunityRewardEpochBudget => 5
  | CommunityRewardWorkerBudget => 6
  | CommunityRewardCoordinatorBudget => 7
  | FaucetClaimMarker => 8
  end.

Definition V3_SYSTEM_ACCOUNT_PREFIX : list Z := ascii_bytes "ARC-V3-REWARD:" ++ [0].

(** The address spelled by 32 bytes, in the big-endian order of [hash_to_bytes]. *)
Definition hash_of_bytes (l : list Z) : Hash256 := from_le_bytes (reverse l).

Definition v3_system_account_address (k : V3SystemAccountKind) (digest : Hash256) : Address :=
  hash_of_bytes (V3_SYSTEM_ACCOUNT_PREFIX ++ [kind_code k] ++ take 16 (hash_to_bytes digest)).

Definition is_v3_system_account (address : Address) : bool :=
  bool_decide (take 15 (hash_to_bytes address) = V3_SYSTEM_ACCOUNT_PREFIX) &&
  match hash_to_bytes address !! 15%nat with
  | Some b => bool_decide (1 <= b <= 8)
  | None => false
  end.

Definition v3_fee_treasury_address : Address := hash_bytes (ascii_bytes "arc-treasury").
Definition faucet_pool_address : Address := hash_bytes [0].
Definition inference_reward_treasury_address : Address := hash_bytes [1].
Definition bridge_escrow_address : Address := hash_bytes (ascii_bytes "ARC-bridge-escrow").

Definition is_legacy_reserved_system_account (address : Address) : bool :=
  bool_decide (address ∈ [faucet_pool_address; inference_reward_treasury_address; hash_bytes [2];
                          bridge_escrow_address; v3_fee_treasury_address]).

Definition is_reserved_system_account (address : Address) : bool :=
  is_legacy_reserved_system_account address ||
  bool_decide (address = hash_bytes (ascii_bytes "arc-treasury")) || is_v3_system_account address.

Definition faucet_marker_address (recipient : Address) : Address :=
  blake3_derive_key "ARC-faucet-recipient-marker-v1" (hash_to_bytes recipient).

Definition v3_faucet_marker_address (recipient : Address) : Address :=
  v3_system_account_address FaucetClaimMarker (faucet_marker_address recipient).

Definition marker_address (chain_domain job_id : Hash256) : Address :=
  hash_bytes (ascii_bytes "arc-community-reward-v1" ++ hash_to_bytes chain_domain ++
              hash_to_bytes job_id).

Definition v3_marker_address (chain_domain job_id : Hash256) : Address :=
  v3_system_account_address CommunityRewardJob (marker_address chain_domain job_id).

Definition certificate_marker_address (chain_domain worker attestation_hash : Hash256) : Address :=
  hash_bytes (ascii_bytes "arc-community-certificate-v1" ++ hash_to_bytes chain_domain ++
              hash_to_bytes worker ++ hash_to_bytes attestation_hash).

Definition v3_certificate_marker_address (chain_domain worker attestation_hash : Hash256) : Address :=
  v3_system_account_address CommunityRewardCertificate
    (certificate_marker_address chain_domain worker attestation_hash).

Definition RECOVERY_REWARD_PROBE_PREFIX : list Z := ascii_bytes "ARC-RCV-PROBE1" ++ [0; 0].

Definition recovery_probe_marker_address (chain_domain assignment_epoch : Hash256)
    : option Address :=
  if bool_decide (take 16 (hash_to_bytes assignment_epoch) = RECOVERY_REWARD_PROBE_PREFIX)
  then Some (hash_bytes (ascii_bytes "arc-recovery-reward-probe-marker-v1" ++
                         hash_to_bytes chain_domain ++ hash_to_bytes assignment_epoch))
  else None.

Definition v3_recovery_probe_marker_address (chain_domain assignment_epoch : Hash256)
    : option Address :=
  v3_system_account_address RecoveryRewardProbe <$>
    recovery_probe_marker_address chain_domain assignment_epoch.

Definition community_reward_budget_address (namespace : V3SystemAccountKind)
    (derivation_key : string) (height_or_epoch : Z) (identity : option Address) : Address :=
  v3_system_account_address namespace
    (blake3_derive_key derivation_key
       (u64_le height_or_epoch ++ from_option hash_to_bytes [] identity)).

Definition community_reward_block_budget_address (height : Z) : Address :=
  community_reward_budget_address CommunityRewardBlockBudget
    "ARC-community-reward-block-budget-v3" height None.
Definition community_reward_epoch_budget_address (epoch : Z) : Address :=
  community_reward_budget_address CommunityRewardEpochBudget
    "ARC-community-reward-epoch-budget-v3" epoch None.
Definition community_reward_worker_budget_address (epoch : Z) (worker : Address) : Address :=
  community_reward_budget_address CommunityRewardWorkerBudget
    "ARC-community-reward-worker-epoch-budget-v3" epoch (Some worker).
Definition community_reward_coordinator_budget_address (epoch : Z) (coordinator : Address)
    : Address :=
  community_reward_budget_address CommunityRewardCoordinatorBudget
    "ARC-community-reward-coordinator-epoch-budget-v3" epoch (Some coordinator).

(** ** The v3 envelope *)

Definition V3_MIN_TRANSFER_FEE : Z := 1.
Definition V3_MAX_TRANSACTION_BYTES : Z := 64 * 1024.

Definition v3_allows_transaction (b : TxBody) : bool :=
  match body_tx_type b with
  | TxTransfer | TxCommunityInferenceReward | TxFaucetClaim => true
  | _ => false
  end.

Definition is_native_body (b : TxBody) : bool :=
  match b with
  | BNative _ _ => true
  | _ => false
  end.

Definition validate_v3_transaction_envelope (s : StateDB) (tx : Transaction)
    : outcome StateError unit :=
  let native_authorized := db_native_migration s && db_native_inference s in
  _ ← require (bool_decide (tx_type tx = body_tx_type (tx_body tx)))
        (ExecutionError "transaction type/body mismatch");
  _ ← require (v3_allows_transaction (tx_body tx) ||
               native_authorized && is_native_body (tx_body tx))
        (ExecutionError "transaction type is unavailable in recovery protocol v3");
  bytes ← ok_or (bincode_tx tx)
            (ExecutionError "transaction cannot be size-checked for v3 admission");
  _ ← require (negb (bool_decide (V3_MAX_TRANSACTION_BYTES < Z.of_nat (length bytes))))
        (ExecutionError "transaction size exceeds v3 maximum");
  _ ← require (bool_decide (tx_gas_limit tx = 0) ||
               negb (bool_decide (tx_gas_limit tx < gas_cost_for_tx tx) ||
                     bool_decide (BLOCK_GAS_LIMIT < tx_gas_limit tx)))
        (ExecutionError "transaction gas limit is outside");
  signature_or (verify_transaction_signature s tx)
    "invalid transaction signature for recovery protocol v3".

(** ** Transfers *)

Definition validate_v3_transfer_admission (s : StateDB) (tx : Transaction) (to : Address)
    (amount : Z) (amount_commitment : option Hash256) : outcome StateError unit :=
  _ ← require (negb (bool_decide (amount = 0)))
        (ExecutionError "v3 transfer amount must be positive");
  _ ← require (negb (bool_decide (tx_fee tx < V3_MIN_TRANSFER_FEE)))
        (ExecutionError "v3 transfer fee is below minimum");
  _ ← require (bool_decide (amount_commitment = None))
        (ExecutionError "v3 transfer amount commitments are not active");
  _ ← require (negb (bool_decide (tx_from tx = to) || is_reserved_system_account (tx_from tx) ||
                     is_reserved_system_account to ||
                     bool_decide (tx_from tx = v3_fee_treasury_address) ||
                     bool_decide (to = v3_fee_treasury_address)))
        (ExecutionError "v3 transfer sender/recipient/system account collision");
  sender ← ok_or (get_account (tx_from tx) s)
             (InsufficientBalance 0 (saturating_add amount (tx_fee tx)));
  _ ← require (bool_decide (acc_nonce sender = tx_nonce tx))
        (InvalidNonce (acc_nonce sender) (tx_nonce tx));
  _ ← ok_or (checked_add (acc_nonce sender) 1) (ExecutionError "transfer nonce overflow");
  total_debit ← ok_or (checked_add amount (tx_fee tx))
                  (ExecutionError "transfer amount plus fee overflow");
  _ ← require (negb (bool_decide (acc_balance sender < total_debit)))
        (InsufficientBalance (acc_balance sender) total_debit);
  _ ← ok_or (checked_add (acc_balance (account_or_new to s)) amount)
        (ExecutionError "transfer recipient balance overflow");
  _ ← ok_or (checked_add (acc_balance (account_or_new v3_fee_treasury_address s)) (tx_fee tx))
        (ExecutionError "transfer fee treasury balance overflow");
  Ok ().

(** The protocol-3 branch of the [Transfer] arm of [execute_tx]. *)
Definition execute_transfer_v3 (tx : Transaction) (to : Address) (amount : Z)
    (amount_commitment : option Hash256) : ledger unit :=
  _ ← checkL (fun s => validate_v3_transfer_admission s tx to amount amount_commitment);
  total_debit ← pureL (ok_or (checked_add amount (tx_fee tx))
                         (ExecutionError "transfer amount plus fee overflow"));
  sender ← checkL (fun s => ok_or (get_account (tx_from tx) s)
                     (ExecutionError "v3 transfer sender disappeared after preflight"));
  receiver ← readL (account_or_new to);
  fee_treasury ← readL (account_or_new v3_fee_treasury_address);
  sender_balance ← pureL (ok_or (checked_sub (acc_balance sender) total_debit)
                            (ExecutionError "transfer sender balance underflow"));
  next_nonce ← pureL (ok_or (checked_add (acc_nonce sender) 1)
                        (ExecutionError "transfer nonce overflow"));
  receiver_balance ← pureL (ok_or (checked_add (acc_balance receiver) amount)
                              (ExecutionError "transfer recipient balance overflow"));
  treasury_balance ← pureL (ok_or (checked_add (acc_balance fee_treasury) (tx_fee tx))
                              (ExecutionError "transfer fee treasury balance overflow"));
  let sender' := sender <| acc_balance := sender_balance |> <| acc_nonce := next_nonce |> in
  let receiver' := receiver <| acc_balance := receiver_balance |> in
  let fee_treasury' := fee_treasury <| acc_balance := treasury_balance |> in
  _ ← insert_account (tx_from tx) sender';
  _ ← insert_account to receiver';
  _ ← insert_account v3_fee_treasury_address fee_treasury';
  _ ← wal_append (tx_from tx) sender';
  _ ← wal_append to receiver';
  wal_append v3_fee_treasury_address fee_treasury'.

(** The other branch. *)
Definition execute_transfer_legacy (tx : Transaction) (to : Address) (amount : Z) : ledger unit :=
  sender ← checkL (fun s => ok_or (get_account (tx_from tx) s) (InsufficientBalance 0 amount));
  _ ← pureL (require (bool_decide (acc_nonce sender = tx_nonce tx))
               (InvalidNonce (acc_nonce sender) (tx_nonce tx)));
  next_nonce ← pureL (ok_or (checked_add (acc_nonce sender) 1)
                        (ExecutionError "transfer nonce overflow"));
  _ ← pureL (require (negb (bool_decide (acc_balance sender < amount)))
               (InsufficientBalance (acc_balance sender) amount));
  if bool_decide (to = tx_from tx) then
    store_account (tx_from tx) (sender <| acc_nonce := next_nonce |>)
  else
    receiver ← readL (account_or_new to);
    sender_balance ← pureL (ok_or (checked_sub (acc_balance sender) amount)
                              (ExecutionError "transfer sender balance underflow"));
    receiver_balance ← pureL (ok_or (checked_add (acc_balance receiver) amount)
                                (ExecutionError "transfer recipient balance overflow"));
    let sender' := sender <| acc_balance := sender_balance |> <| acc_nonce := next_nonce |> in
    let receiver' := receiver <| acc_balance := receiver_balance |> in
    _ ← insert_account (tx_from tx) sender';
    _ ← insert_account to receiver';
    _ ← wal_append (tx_from tx) sender';
    wal_append to receiver'.

Definition execute_transfer (tx : Transaction) (to : Address) (amount : Z)
    (amount_commitment : option Hash256) : ledger unit :=
  v3 ← readL protocol_v3;
  if v3 : bool then execute_transfer_v3 tx to amount amount_commitment
  else execute_transfer_legacy tx to amount.

(** ** Faucet claims *)

Definition FAUCET_CLAIM_MAX : Z := 1000000000.
Definition COMMUNITY_REWARD_VALIDATOR_SET_SIZE : nat := 6.

(** The recipient is itself the marker of an earlier claim. *)
Definition is_faucet_marker (s : StateDB) (recipient : Address) : bool :=
  match get_account recipient s with
  | Some a => bool_decide (acc_balance a = 0) && bool_decide (acc_nonce a = 1) &&
              negb (bool_decide (acc_code_hash a = 0)) &&
              bool_decide (faucet_marker_address (acc_code_hash a) = recipient)
  | None => false
  end.

Definition contains_account (s : StateDB) (addr : Address) : bool :=
  bool_decide (is_Some (db_accounts s !! addr)).

Definition claimed_under_legacy_marker (s : StateDB) (recipient : Address) : bool :=
  match get_account (faucet_marker_address recipient) s with
  | Some a => bool_decide (acc_balance a = 0) && bool_decide (acc_staked_balance a = 0) &&
              bool_decide (acc_nonce a = 1) && bool_decide (acc_code_hash a = recipient) &&
              negb (bool_decide (acc_storage_root a = 0))
  | None => false
  end.

Definition validate_v3_faucet_admission (s : StateDB) (tx : Transaction) (recipient : Address)
    (amount : Z) : outcome StateError unit :=
  _ ← require (bool_decide (tx_fee tx = 0))
        (ExecutionError "faucet claim cannot charge an unaccounted transaction fee");
  _ ← require (bool_decide (length (active_validators s) = COMMUNITY_REWARD_VALIDATOR_SET_SIZE))
        (ExecutionError "faucet claim requires the exact recovery authority set");
  _ ← require (is_active_validator s (tx_from tx))
        (ExecutionError "faucet claim: signer is not an active validator");
  _ ← require (negb (bool_decide (amount = 0) || bool_decide (FAUCET_CLAIM_MAX < amount)))
        (ExecutionError "faucet claim: amount outside");
  let pool := faucet_pool_address in
  let marker := v3_faucet_marker_address recipient in
  _ ← require (negb (is_reserved_system_account recipient || bool_decide (marker = pool) ||
                     bool_decide (marker = recipient) || is_faucet_marker s recipient))
        (ExecutionError "faucet claim: system account address collision");
  _ ← require (negb (contains_account s marker))
        (ExecutionError "faucet claim: recipient has already claimed");
  _ ← require (negb (claimed_under_legacy_marker s recipient))
        (ExecutionError "faucet claim: recipient already claimed under legacy marker semantics");
  pool_account ← ok_or (get_account pool s)
                   (ExecutionError "faucet claim: system faucet pool account is not prefunded");
  _ ← require (negb (bool_decide (acc_balance pool_account < amount)))
        (InsufficientBalance (acc_balance pool_account) amount);
  _ ← ok_or (checked_add (acc_balance (account_or_new recipient s)) amount)
        (ExecutionError "faucet claim: recipient balance overflow");
  Ok ().

Definition execute_faucet_claim (tx : Transaction) (recipient : Address) (amount : Z)
    : ledger unit :=
  v3 ← readL protocol_v3;
  _ ← (if v3 : bool then checkL (fun s => validate_v3_faucet_admission s tx recipient amount)
       else mret ());
  _ ← checkL (fun s => require (is_active_validator s (tx_from tx))
                (ExecutionError "faucet claim: signer is not an active validator"));
  _ ← pureL (require (negb (bool_decide (amount = 0) || bool_decide (FAUCET_CLAIM_MAX < amount)))
               (ExecutionError "faucet claim: amount outside"));
  let pool_addr := faucet_pool_address in
  let marker_addr := if v3 : bool then v3_faucet_marker_address recipient
                     else faucet_marker_address recipient in
  let reserved := if v3 : bool then is_reserved_system_account recipient
                  else is_legacy_reserved_system_account recipient in
  _ ← checkL (fun s => require (negb (reserved || bool_decide (marker_addr = pool_addr) ||
                bool_decide (marker_addr = recipient) || is_faucet_marker s recipient))
                (ExecutionError "faucet claim: system account address collision"));
  _ ← checkL (fun s => require (negb (contains_account s marker_addr))
                (ExecutionError "faucet claim: recipient has already claimed"));
  pool ← checkL (fun s => ok_or (get_account pool_addr s)
           (ExecutionError "faucet claim: system faucet pool account is not prefunded"));
  _ ← pureL (require (negb (bool_decide (acc_balance pool < amount)))
               (InsufficientBalance (acc_balance pool) amount));
  receiver ← readL (account_or_new recipient);
  balance ← pureL (ok_or (checked_add (acc_balance receiver) amount)
                     (ExecutionError "faucet claim: recipient balance overflow"));
  let receiver' := receiver <| acc_balance := balance |> in
  let pool' := pool <| acc_balance := acc_balance pool - amount |> in
  let marker := (account_new marker_addr 0) <| acc_nonce := 1 |> <| acc_code_hash := recipient |>
                  <| acc_storage_root := hash_bytes (u64_be amount) |> in
  _ ← insert_account pool_addr pool';
  _ ← insert_account recipient receiver';
  _ ← insert_account marker_addr marker;
  _ ← wal_append pool_addr pool';
  _ ← wal_append recipient receiver';
  wal_append marker_addr marker.

(** ** Community rewards *)

Definition INFERENCE_ATTESTATION_REWARD : Z := 2500000000.
Definition COMMUNITY_REWARD_MIN_WORKER_STAKE : Z := 0.
Definition MAX_COMMUNITY_REWARD_APPROVALS : nat := 64.
Definition COMMUNITY_REWARD_APPROVALS_REQUIRED : Z := 5.
Definition V3_COMMUNITY_REWARD_EPOCH_BLOCKS : Z := 216000.
Definition V3_COMMUNITY_REWARD_MAX_PER_BLOCK : Z := 1.
Definition V3_COMMUNITY_REWARD_MAX_PER_EPOCH : Z := 40.
Definition V3_COMMUNITY_REWARD_MAX_PER_WORKER_EPOCH : Z := 8.
Definition V3_COMMUNITY_REWARD_MAX_PER_COORDINATOR_EPOCH : Z := 16.

Definition expected_chain_domain : Hash256 :=
  hash_bytes (ascii_bytes "arc-chain:0x415243:community-inference-reward:v1").

Definition derive_job_id (coordinator assignment_epoch : Hash256) (job_nonce : Z)
    (model_id input_hash : Hash256) (max_tokens : Z) : Hash256 :=
  blake3_derive_key "ARC-community-job-v4"
    (hash_to_bytes coordinator ++ hash_to_bytes assignment_epoch ++ u64_le job_nonce ++
     hash_to_bytes model_id ++ hash_to_bytes input_hash ++ to_le_bytes 4 max_tokens).

Definition validator_approval_commitment (b : CommunityInferenceRewardBody)
    : outcome StateError Hash256 :=
  let c := cr_worker_certificate b in
  certificate_signature ← expect (bincode_signature (wc_signature c));
  Ok (blake3_derive_key "ARC-community-inference-reward-validator-approval-v1"
    (hash_to_bytes (cr_chain_domain b) ++ hash_to_bytes (cr_job_id b) ++
     hash_to_bytes (cr_coordinator b) ++ hash_to_bytes (cr_assignment_epoch b) ++
     u64_le (cr_job_nonce b) ++ u64_be (cr_recovery_epoch b) ++ u64_be (cr_validator_set_id b) ++
     hash_to_bytes (cr_transaction_domain b) ++ hash_to_bytes (cr_worker b) ++
     hash_to_bytes (cr_model_id b) ++ hash_to_bytes (cr_input_hash b) ++
     hash_to_bytes (cr_output_hash b) ++ to_le_bytes 4 (cr_max_tokens b) ++
     u64_le (cr_expires_at_height b) ++ hash_to_bytes (wc_attestation_hash c) ++
     u64_le (wc_nonce c) ++ u64_le (wc_challenge_period c) ++
     u64_le (Z.of_nat (length certificate_signature)) ++ certificate_signature ++
     u64_le INFERENCE_ATTESTATION_REWARD)).

Definition approval_as_signature (a : CommunityRewardValidatorApproval) : Signature :=
  SigEd25519 (ap_public_key a) ((ap_signature_halves a).1 ++ (ap_signature_halves a).2).

Definition reconstruct_worker_attestation (b : CommunityInferenceRewardBody) : Transaction :=
  let c := cr_worker_certificate b in
  mkTransaction TxInferenceAttestation (cr_worker b) (wc_nonce c)
    (BInferenceAttestation (cr_model_id b) (cr_input_hash b) (cr_output_hash b)
       (wc_challenge_period c) 0)
    0 0 (wc_attestation_hash c) (wc_signature c) false.

(** The loop over the approvals, with the stake approved so far. *)
Fixpoint approved_stake_of (stakes : gmap Address Z) (commitment : Hash256) (seen : gset Address)
    (approved : Z) (l : list CommunityRewardValidatorApproval) : outcome StateError Z :=
  match l with
  | [] => Ok approved
  | a :: l' =>
      _ ← require (bool_decide (ap_validator a ∉ seen))
            (ExecutionError "community inference reward: duplicate validator approval");
      stake ← ok_or (stakes !! ap_validator a)
        (ExecutionError "community inference reward: approval signer is not an active validator");
      _ ← signature_or (sig_verify (approval_as_signature a) commitment (ap_validator a))
            "community inference reward: invalid Ed25519 approval";
      approved_stake_of stakes commitment ({[ap_validator a]} ∪ seen) (approved + stake) l'
  end.

Definition verify_community_reward_validator_approvals (s : StateDB)
    (b : CommunityInferenceRewardBody) : outcome StateError unit :=
  let approvals := cr_validator_approvals b in
  let active := active_validators s in
  let recovery := bool_decide (is_Some (db_recovery_context s)) in
  _ ← require (bool_decide (length approvals <= MAX_COMMUNITY_REWARD_APPROVALS)%nat)
        (ExecutionError "community inference reward: approvals exceed protocol maximum");
  _ ← require (negb (bool_decide (active = [])))
        (ExecutionError "community inference reward: active validator set is empty");
  _ ← require (bool_decide (length active <= MAX_COMMUNITY_REWARD_APPROVALS)%nat)
        (ExecutionError "community inference reward: active validator set exceeds maximum");
  _ ← require (negb recovery ||
               bool_decide (length active = COMMUNITY_REWARD_VALIDATOR_SET_SIZE))
        (ExecutionError "community inference reward: protocol-v3 committee size");
  let required_identities :=
    if recovery then COMMUNITY_REWARD_APPROVALS_REQUIRED
    else strict_supermajority_threshold (Z.of_nat (length active)) in
  _ ← require (negb (bool_decide (Z.of_nat (length approvals) < required_identities)))
        (ExecutionError "community inference reward: insufficient validator approval identities");
  let total_active_stake := foldr Z.add 0 active.*2 in
  let required_stake := total_active_stake * 2 / 3 + 1 in
  commitment ← validator_approval_commitment b;
  approved ← approved_stake_of (list_to_map active) commitment ∅ 0 approvals;
  require (negb (bool_decide (approved < required_stake)))
    (ExecutionError "community inference reward: insufficient approved stake").

Definition community_reward_issuance_policy_hash : outcome StateError Hash256 :=
  bytes ← expect (bincode_issuance_policy
    [INFERENCE_ATTESTATION_REWARD; V3_COMMUNITY_REWARD_EPOCH_BLOCKS;
     V3_COMMUNITY_REWARD_MAX_PER_BLOCK; V3_COMMUNITY_REWARD_MAX_PER_EPOCH;
     V3_COMMUNITY_REWARD_MAX_PER_WORKER_EPOCH; V3_COMMUNITY_REWARD_MAX_PER_COORDINATOR_EPOCH]);
  Ok (blake3_derive_key "ARC-community-reward-issuance-policy-v3" bytes).

Definition next_community_reward_budget_counter (s : StateDB) (address : Address)
    (code_hash : Hash256) (limit : Z) (label : string) : outcome StateError Account :=
  policy_hash ← community_reward_issuance_policy_hash;
  let a := account_or_new address s in
  _ ← (if negb (bool_decide (acc_nonce a = 0)) || negb (bool_decide (acc_code_hash a = 0)) then
         require (bool_decide (acc_balance a = 0) && bool_decide (acc_staked_balance a = 0) &&
                  bool_decide (acc_code_hash a = code_hash) &&
                  bool_decide (acc_storage_root a = policy_hash))
           (ExecutionError ("community inference reward: invalid budget account " ++ label))
       else
         require (bool_decide (acc_balance a = 0) && bool_decide (acc_staked_balance a = 0) &&
                  bool_decide (acc_storage_root a = 0))
           (ExecutionError ("community inference reward: budget address collides " ++ label)));
  next ← ok_or (checked_add (acc_nonce a) 1)
           (ExecutionError ("community inference reward: budget counter overflow " ++ label));
  _ ← require (negb (bool_decide (limit < next)))
        (ExecutionError ("community inference reward: issuance limit reached " ++ label));
  Ok (a <| acc_nonce := next |> <| acc_code_hash := code_hash |>
        <| acc_storage_root := policy_hash |>).

(** The addresses a v3 reward writes besides the treasury and the worker. *)
Definition v3_reward_markers (b : CommunityInferenceRewardBody)
    : Address * Address * option Address :=
  (v3_marker_address (cr_chain_domain b) (cr_job_id b),
   v3_certificate_marker_address (cr_chain_domain b) (cr_worker b)
     (wc_attestation_hash (cr_worker_certificate b)),
   v3_recovery_probe_marker_address (cr_chain_domain b) (cr_assignment_epoch b)).

Definition budget_collides (b : CommunityInferenceRewardBody) (addresses : list Address) : bool :=
  let '(job_marker, certificate_marker, probe_marker) := v3_reward_markers b in
  negb (bool_decide (NoDup addresses)) ||
  existsb (fun a => negb (is_v3_system_account a)) addresses ||
  existsb (fun a =>
    bool_decide (a = inference_reward_treasury_address) || bool_decide (a = cr_worker b) ||
    bool_decide (a = cr_coordinator b) || bool_decide (a = job_marker) ||
    bool_decide (a = certificate_marker) || bool_decide (probe_marker = Some a)) addresses.

Definition community_reward_budget_candidates_at (s : StateDB) (b : CommunityInferenceRewardBody)
    (height : Z) : outcome StateError (list (Address * Account)) :=
  let epoch := height / V3_COMMUNITY_REWARD_EPOCH_BLOCKS in
  let block_address := community_reward_block_budget_address height in
  let epoch_address := community_reward_epoch_budget_address epoch in
  let worker_address := community_reward_worker_budget_address epoch (cr_worker b) in
  let coordinator_address := community_reward_coordinator_budget_address epoch (cr_coordinator b) in
  _ ← require (negb (budget_collides b
                       [block_address; epoch_address; worker_address; coordinator_address]))
        (ExecutionError "community inference reward: issuance budget address collision");
  block ← next_community_reward_budget_counter s block_address
            (hash_bytes (ascii_bytes "ARC-community-reward-block-budget-v3"))
            V3_COMMUNITY_REWARD_MAX_PER_BLOCK "block";
  epoch_account ← next_community_reward_budget_counter s epoch_address
            (hash_bytes (ascii_bytes "ARC-community-reward-epoch-budget-v3"))
            V3_COMMUNITY_REWARD_MAX_PER_EPOCH "epoch";
  worker ← next_community_reward_budget_counter s worker_address (cr_worker b)
            V3_COMMUNITY_REWARD_MAX_PER_WORKER_EPOCH "worker epoch";
  coordinator ← next_community_reward_budget_counter s coordinator_address (cr_coordinator b)
            V3_COMMUNITY_REWARD_MAX_PER_COORDINATOR_EPOCH "coordinator epoch";
  Ok [(block_address, block); (epoch_address, epoch_account); (worker_address, worker);
      (coordinator_address, coordinator)].

(** The checks on the job that admission and execution share: from the chain domain to
    the stake of the worker. *)
Definition reward_job_checks (s : StateDB) (tx : Transaction) (b : CommunityInferenceRewardBody)
    (height : Z) : outcome StateError unit :=
  _ ← require (bool_decide (cr_chain_domain b = expected_chain_domain))
        (ExecutionError "community inference reward: wrong chain domain");
  _ ← require (negb (bool_decide (cr_job_id b = 0)))
        (ExecutionError "community inference reward: job_id cannot be zero");
  _ ← require (bool_decide (cr_coordinator b = tx_from tx) &&
               is_active_validator s (cr_coordinator b))
        (ExecutionError "community inference reward: coordinator must be the active outer signer");
  _ ← require (negb (bool_decide (cr_assignment_epoch b = 0)))
        (ExecutionError "community inference reward: assignment_epoch cannot be zero");
  _ ← match db_recovery_context s with
      | Some c =>
          require (bool_decide (cr_recovery_epoch b = rc_recovery_epoch c) &&
                   bool_decide (cr_validator_set_id b = rc_validator_set_id c) &&
                   bool_decide (cr_transaction_domain b = domain_hash c))
            (ExecutionError "community inference reward: recovery binding mismatch")
      | None =>
          require (bool_decide (cr_recovery_epoch b = 0) &&
                   bool_decide (cr_validator_set_id b = 0) &&
                   bool_decide (cr_transaction_domain b = 0))
            (ExecutionError "community inference reward: recovery binding is non-zero")
      end;
  _ ← require (bool_decide (cr_job_id b =
         derive_job_id (cr_coordinator b) (cr_assignment_epoch b) (cr_job_nonce b)
           (cr_model_id b) (cr_input_hash b) (cr_max_tokens b)))
        (ExecutionError "community inference reward: job_id does not match its assignment");
  _ ← require (negb (bool_decide (cr_max_tokens b = 0)))
        (ExecutionError "community inference reward: max_tokens must be positive");
  _ ← require (negb (bool_decide (cr_expires_at_height b < height)))
        (ExecutionError "community inference reward: job expired");
  _ ← signature_or (verify_transaction_signature s (reconstruct_worker_attestation b))
        "community inference reward: invalid worker certificate signature";
  let worker_stake := default 0 (get_validator_stake (cr_worker b) s) in
  require (negb (bool_decide (worker_stake < COMMUNITY_REWARD_MIN_WORKER_STAKE)))
    (ExecutionError "community inference reward: worker stake is below active policy minimum").

Definition reward_marker_collision (b : CommunityInferenceRewardBody)
    (job_marker certificate_marker : Address) (probe_marker : option Address) : bool :=
  let treasury := inference_reward_treasury_address in
  bool_decide (job_marker = certificate_marker) || bool_decide (job_marker = cr_worker b) ||
  bool_decide (certificate_marker = cr_worker b) || bool_decide (job_marker = treasury) ||
  bool_decide (certificate_marker = treasury) ||
  match probe_marker with
  | Some m => bool_decide (m = job_marker) || bool_decide (m = certificate_marker) ||
              bool_decide (m = cr_worker b) || bool_decide (m = cr_coordinator b) ||
              bool_decide (m = treasury)
  | None => false
  end.

(** None of the markers is taken. *)
Definition reward_unpaid (s : StateDB) (job_marker certificate_marker : Address)
    (probe_marker : option Address) : outcome StateError unit :=
  _ ← require (negb (contains_account s job_marker))
        (ExecutionError "community inference reward: job already paid");
  _ ← require (negb (contains_account s certificate_marker))
        (ExecutionError "community inference reward: worker certificate already paid");
  require (negb (match probe_marker with Some m => contains_account s m | None => false end))
    (ExecutionError "community inference reward: recovery probe already paid").

(** The shape of a marker the v2 state machine wrote. *)
Definition legacy_marker_at (s : StateDB) (addr : Address) : bool :=
  match get_account addr s with
  | Some a => bool_decide (acc_balance a = 0) && bool_decide (acc_staked_balance a = 0) &&
              bool_decide (acc_nonce a = 1) && negb (bool_decide (acc_code_hash a = 0))
  | None => false
  end.

(** The worker and the treasury a reward moves funds between, with the balance of the
    worker after it. *)
Definition reward_funds (s : StateDB) (b : CommunityInferenceRewardBody)
    : outcome StateError (Account * Account) :=
  let worker := account_or_new (cr_worker b) s in
  worker_balance ← ok_or (checked_add (acc_balance worker) INFERENCE_ATTESTATION_REWARD)
                     (ExecutionError "community inference reward: worker balance overflow");
  treasury ← ok_or (get_account inference_reward_treasury_address s)
               (ExecutionError "community inference reward: treasury is not funded");
  _ ← require (negb (bool_decide (acc_balance treasury < INFERENCE_ATTESTATION_REWARD)))
        (InsufficientBalance (acc_balance treasury) INFERENCE_ATTESTATION_REWARD);
  Ok (worker <| acc_balance := worker_balance |>, treasury).

Definition validate_community_reward_admission (s : StateDB) (tx : Transaction)
    (b : CommunityInferenceRewardBody) (execution_height : Z) : outcome StateError unit :=
  _ ← require (bool_decide (tx_fee tx = 0))
        (ExecutionError "community inference reward cannot charge a transaction fee");
  _ ← require (match community_rewards_v1_activation_height s with
               | Some activation => negb (bool_decide (execution_height < activation))
               | None => false
               end)
        (ExecutionError "community inference reward: protocol feature is not active");
  _ ← require (is_active_validator s (tx_from tx))
        (ExecutionError "community inference reward: signer is not an active validator");
  _ ← reward_job_checks s tx b execution_height;
  _ ← require (negb (bool_decide (cr_worker b = inference_reward_treasury_address) ||
                     is_reserved_system_account (cr_worker b) ||
                     is_reserved_system_account (cr_coordinator b)))
        (ExecutionError "community inference reward: worker/coordinator is a system account");
  let '(job_marker, certificate_marker, probe_marker) := v3_reward_markers b in
  _ ← require (negb (reward_marker_collision b job_marker certificate_marker probe_marker))
        (ExecutionError "community inference reward: marker address collision");
  _ ← reward_unpaid s job_marker certificate_marker probe_marker;
  _ ← require (negb (legacy_marker_at s (marker_address (cr_chain_domain b) (cr_job_id b))))
        (ExecutionError "community inference reward: job already paid under legacy marker");
  _ ← require (negb (legacy_marker_at s
                 (certificate_marker_address (cr_chain_domain b) (cr_worker b)
                    (wc_attestation_hash (cr_worker_certificate b)))))
        (ExecutionError "community inference reward: certificate paid under legacy marker");
  _ ← require (negb (match recovery_probe_marker_address (cr_chain_domain b)
                             (cr_assignment_epoch b) with
                     | Some m => legacy_marker_at s m
                     | None => false
                     end))
        (ExecutionError "community inference reward: recovery probe paid under legacy marker");
  _ ← verify_community_reward_validator_approvals s b;
  _ ← reward_funds s b;
  if protocol_v3 s then
    _ ← community_reward_budget_candidates_at s b execution_height; Ok ()
  else Ok ().

Definition reward_markers (v3 : bool) (b : CommunityInferenceRewardBody)
    : Address * Address * option Address :=
  if v3 then v3_reward_markers b
  else (marker_address (cr_chain_domain b) (cr_job_id b),
        certificate_marker_address (cr_chain_domain b) (cr_worker b)
          (wc_attestation_hash (cr_worker_certificate b)),
        recovery_probe_marker_address (cr_chain_domain b) (cr_assignment_epoch b)).

Definition marker_account (addr : Address) (code_hash storage_root : Hash256) : Account :=
  (account_new addr 0) <| acc_nonce := 1 |> <| acc_code_hash := code_hash |>
    <| acc_storage_root := storage_root |>.

(** Everything a reward writes, in the order it writes it. *)
Definition reward_writes (v3 : bool) (s : StateDB) (b : CommunityInferenceRewardBody)
    (worker treasury : Account) : outcome StateError (list (Address * Account)) :=
  let '(job_marker, certificate_marker, probe_marker) := reward_markers v3 b in
  _ ← require (negb (reward_marker_collision b job_marker certificate_marker probe_marker))
        (ExecutionError "community inference reward: marker address collision");
  budget ← (if v3 then community_reward_budget_candidates_at s b (db_height s) else Ok []);
  Ok ([(inference_reward_treasury_address, treasury); (cr_worker b, worker);
       (job_marker, marker_account job_marker (cr_worker b) (cr_output_hash b));
       (certificate_marker, marker_account certificate_marker (cr_worker b) (cr_job_id b))] ++
      match probe_marker with
      | Some m => [(m, marker_account m (cr_coordinator b) (cr_job_id b))]
      | None => []
      end ++ budget).

Fixpoint insert_accounts (l : list (Address * Account)) : ledger unit :=
  match l with
  | [] => mret ()
  | (addr, a) :: l' => _ ← insert_account addr a; insert_accounts l'
  end.

Fixpoint append_accounts (l : list (Address * Account)) : ledger unit :=
  match l with
  | [] => mret ()
  | (addr, a) :: l' => _ ← wal_append addr a; append_accounts l'
  end.

Definition execute_community_reward (tx : Transaction) (b : CommunityInferenceRewardBody)
    : ledger unit :=
  v3 ← readL protocol_v3;
  _ ← (if v3 : bool
       then checkL (fun s => validate_community_reward_admission s tx b (db_height s))
       else mret ());
  _ ← checkL (fun s => require (community_rewards_v1_active s)
         (ExecutionError "community inference reward: protocol feature is not active"));
  _ ← checkL (fun s => require (is_active_validator s (tx_from tx))
         (ExecutionError "community inference reward: signer is not an active validator"));
  _ ← checkL (fun s => signature_or (verify_transaction_signature s tx)
                "community inference reward: invalid validator signature");
  _ ← checkL (fun s => reward_job_checks s tx b (db_height s));
  _ ← pureL (require (negb (bool_decide (cr_worker b = inference_reward_treasury_address)))
        (ExecutionError "community inference reward: treasury cannot be the worker"));
  let '(job_marker, certificate_marker, probe_marker) := reward_markers v3 b in
  _ ← checkL (fun s => reward_unpaid s job_marker certificate_marker probe_marker);
  _ ← checkL (fun s => verify_community_reward_validator_approvals s b);
  funds ← checkL (fun s => reward_funds s b);
  treasury_balance ← pureL
    (ok_or (checked_sub (acc_balance funds.2) INFERENCE_ATTESTATION_REWARD)
       (ExecutionError "community inference reward: treasury balance underflow"));
  writes ← checkL (fun s => reward_writes v3 s b funds.1
                              (funds.2 <| acc_balance := treasury_balance |>));
  _ ← insert_accounts writes;
  append_accounts writes.

End Ledger.

(** ** Steps the arms of [execute_tx] share *)

(** The account of the sender, created if it is missing, with its nonce checked. *)
Definition load_sender (tx : Transaction) : ledger Account :=
  sender ← get_or_create_account (tx_from tx);
  _ ← pureL (require (bool_decide (acc_nonce sender = tx_nonce tx))
               (InvalidNonce (acc_nonce sender) (tx_nonce tx)));
  mret sender.

Definition need_balance (a : Account) (amount : Z) : outcome StateError unit :=
  require (negb (bool_decide (acc_balance a < amount)))
    (InsufficientBalance (acc_balance a) amount).

Definition bump_nonce (a : Account) : Account := a <| acc_nonce := wrapping_add (acc_nonce a) 1 |>.

(** [balance -= amount], behind its check. *)
Definition debit (a : Account) (amount : Z) : Account := a <| acc_balance := acc_balance a - amount |>.

(** [balance += amount] and [balance.saturating_add(amount)]. *)
Definition credit (a : Account) (amount : Z) : Account :=
  a <| acc_balance := wrapping_add (acc_balance a) amount |>.
Definition credit_saturating (a : Account) (amount : Z) : Account :=
  a <| acc_balance := saturating_add (acc_balance a) amount |>.

(** An account loaded, changed and stored. *)
Definition update_account (addr : Address) (f : Account -> Account) : ledger unit :=
  a ← get_or_create_account addr; store_account addr (f a).

Definition err {A} (what : string) : ledger A := pureL (Err (ExecutionError what)).
Definition ensure (b : bool) (what : string) : ledger unit :=
  pureL (require b (ExecutionError what)).

Definition wrapping_sub (a b : Z) : Z := (a - b) mod (u64_max + 1).
Definition wrapping_mul (a b : Z) : Z := (a * b) mod (u64_max + 1).
