(* ===== verification/Tier1.v ===== *)
(** * The tier-1 inference lane of the ledger
    (crates/arc-state/src/lib.rs, crates/arc-types/src/transaction.rs)

    A request locks its reward in an escrow account whose [code_hash] holds the status, the
    deadline and the committee size; members of a committee drawn from the validator
    registry vote for an output hash; anyone finalizes once every member has voted or the
    deadline has passed.  Votes, the requester and the prompt live in the contract storage
    of the escrow. *)

From S2P Require Import Prelude Crypto Validators Blocks Ledger.

(** The order in which a hash map of tallies is iterated. *)
Class HashOrder := {
  hash_order : gmap Hash256 nat -> list (Hash256 * nat);
  hash_order_entries : forall m, hash_order m ≡ₚ map_to_list m;
}.

Definition TIER1_STATUS_OPEN : Z := 0.
Definition TIER1_STATUS_VOTING : Z := 1.
Definition TIER1_STATUS_FINALIZED : Z := 2.
Definition TIER1_STATUS_REFUNDED : Z := 3.

Definition TIER1_INPUT_BLOB_MAX : Z := 32 * 1024.
Definition TIER1_OUTPUT_BLOB_MAX : Z := 16 * 1024.
Definition TIER1_ANTI_SPAM_FEE : Z := 1.
Definition TIER1_MAX_TOKENS : Z := 2048.
Definition TIER1_MIN_DEADLINE_BLOCKS : Z := 5.
Definition TIER1_MAX_DEADLINE_BLOCKS : Z := 1000.
Definition TIER1_REWARD_SHARE_VOTERS_BPS : Z := 7000.
Definition TIER1_REWARD_SHARE_REFUND_BPS : Z := 2000.
Definition TIER1_REWARD_SHARE_TREASURY_BPS : Z := 1000.

(** ** The packed code hash of a request escrow *)

Definition tier1_code (status deadline_blocks committee_size : Z) : Hash256 :=
  hash_of_bytes ([status] ++ u64_le deadline_blocks ++ [committee_size] ++ replicate 22 0).

Definition code_status (code : Hash256) : Z := nth 0 (hash_to_bytes code) 0.
Definition code_deadline (code : Hash256) : Z := from_le_bytes (take 8 (drop 1 (hash_to_bytes code))).
Definition code_committee (code : Hash256) : Z := nth 9 (hash_to_bytes code) 0.

(** [code_hash.0[0] = status]. *)
Definition set_code_status (status : Z) (code : Hash256) : Hash256 :=
  hash_of_bytes (status :: drop 1 (hash_to_bytes code)).

Definition status_actionable (status : Z) : bool :=
  bool_decide (status = TIER1_STATUS_OPEN) || bool_decide (status = TIER1_STATUS_VOTING).

Section Tier1.
Context `{Crypto, TxCodec}.

Definition tier1_escrow_address (request_id : Hash256) : Address :=
  hash_bytes (ascii_bytes "arc-infreq" ++ hash_to_bytes request_id).

(** The storage keys of an escrow. *)
Definition tier1_requester_key : Hash256 := hash_bytes (ascii_bytes "tier1.requester").
Definition tier1_input_blob_key : Hash256 := hash_bytes (ascii_bytes "tier1.input_blob").
Definition tier1_votes_key : Hash256 := hash_bytes (ascii_bytes "tier1.votes").
Definition tier1_request_id_key : Hash256 := hash_bytes (ascii_bytes "tier1.request_id").
Definition tier1_output_blob_key : Hash256 := hash_bytes (ascii_bytes "tier1.output_blob").
Definition tier1_final_output_key : Hash256 := hash_bytes (ascii_bytes "tier1.final_output_hash").

(** [bincode::deserialize(&get_storage(..).unwrap_or_default()).unwrap_or_default()]. *)
Definition tier1_votes (escrow_addr : Address) (s : StateDB) : list (Address * Hash256) :=
  default [] (read_votes (default [] (get_storage escrow_addr tier1_votes_key s))).

(** ** The committee *)

Definition tier1_seed (request_id : Hash256) (anchor_height : Z) : Hash256 :=
  hash_bytes (ascii_bytes "tier1-seed" ++ hash_to_bytes request_id ++ u64_le anchor_height).

Definition tier1_score (seed : Hash256) (a : Address) : Hash256 :=
  hash_bytes (hash_to_bytes seed ++ hash_to_bytes a).

(** The order the two stable sorts leave: by score, equal scores by address. *)
Definition score_le (x y : Address * Hash256) : Prop := x.2 < y.2 \/ x.2 = y.2 /\ x.1 <= y.1.

#[global] Instance score_le_dec : RelDecision score_le.
Proof. unfold RelDecision, score_le. intros x y. apply _. Defined.

Definition tier1_committee_for (s : StateDB) (request_id : Hash256)
    (anchor_height committee_size : Z) : list Address :=
  let seed := tier1_seed request_id anchor_height in
  let scored := (fun e : Address * Z => (e.1, tier1_score seed e.1)) <$>
                  map_to_list (db_validators s) in
  fst <$> take (Z.to_nat committee_size) (merge_sort score_le scored).

(** ** Requests *)

Definition tier1_metadata (b : InferenceRequestBody) (height : Z) : Hash256 :=
  hash_bytes (hash_to_bytes (ir_model_id b) ++ hash_to_bytes (ir_input_hash b) ++
              to_le_bytes 1 (ir_tier b) ++ to_le_bytes 4 (ir_max_tokens b) ++
              to_le_bytes 1 (ir_committee_size b) ++ u64_le (ir_deadline_blocks b) ++
              u64_le (ir_max_reward b) ++ u64_le height).

Definition request_bounds (b : InferenceRequestBody) : outcome StateError unit :=
  _ ← require (negb (bool_decide (TIER1_INPUT_BLOB_MAX < Z.of_nat (length (ir_input_blob b)))))
        (ExecutionError "tier1 request: input_blob exceeds maximum");
  _ ← require (negb (bool_decide (ir_max_tokens b = 0) ||
                     bool_decide (TIER1_MAX_TOKENS < ir_max_tokens b)))
        (ExecutionError "tier1 request: max_tokens outside");
  _ ← require (negb (bool_decide (ir_deadline_blocks b < TIER1_MIN_DEADLINE_BLOCKS) ||
                     bool_decide (TIER1_MAX_DEADLINE_BLOCKS < ir_deadline_blocks b)))
        (ExecutionError "tier1 request: deadline_blocks outside");
  _ ← require (negb (bool_decide (ir_committee_size b = 0) ||
                     bool_decide (32 < ir_committee_size b)))
        (ExecutionError "tier1 request: committee_size outside");
  _ ← require (bool_decide (ir_tier b = 1))
        (ExecutionError "tier1 request: only tier=1 supported in this phase");
  require (bool_decide (hash_bytes (ir_input_blob b) = ir_input_hash b))
    (ExecutionError "tier1 request: input_hash does not match blob").

Definition open_request_escrow (escrow : Account) (b : InferenceRequestBody) (height : Z) : Account :=
  escrow <| acc_balance := ir_max_reward b |> <| acc_nonce := height |>
         <| acc_code_hash := tier1_code TIER1_STATUS_OPEN (ir_deadline_blocks b)
                               (ir_committee_size b) |>
         <| acc_storage_root := tier1_metadata b height |>.

Definition execute_inference_request (tx : Transaction) (b : InferenceRequestBody) : ledger unit :=
  _ ← pureL (request_bounds b);
  sender ← load_sender tx;
  _ ← pureL (need_balance sender (ir_max_reward b));
  _ ← store_account (tx_from tx) (bump_nonce (debit sender (ir_max_reward b)));
  let escrow_addr := tier1_escrow_address (ir_request_id b) in
  escrow ← get_or_create_account escrow_addr;
  _ ← ensure (negb (negb (bool_decide (acc_balance escrow = 0)) ||
                    negb (bool_decide (acc_code_hash escrow = 0))))
        "tier1 request: request_id collides with existing escrow";
  height ← readL db_height;
  _ ← store_account escrow_addr (open_request_escrow escrow b height);
  _ ← set_storage escrow_addr tier1_requester_key (hash_to_bytes (tx_from tx));
  _ ← set_storage escrow_addr tier1_input_blob_key (ir_input_blob b);
  _ ← set_storage escrow_addr tier1_votes_key (default [] (bincode_votes []));
  _ ← set_storage escrow_addr tier1_request_id_key (hash_to_bytes (ir_request_id b));
  modifyL (fun s => s <| db_tier1_pending := <[ir_request_id b := height]> (db_tier1_pending s) |>).

(** ** Votes *)

Definition vote_bounds (output_hash : Hash256) (output_blob : option (list Z))
    : outcome StateError unit :=
  match output_blob with
  | None => Ok ()
  | Some blob =>
      _ ← require (negb (bool_decide (TIER1_OUTPUT_BLOB_MAX < Z.of_nat (length blob))))
            (ExecutionError "tier1 vote: output_blob exceeds maximum");
      require (bool_decide (hash_bytes blob = output_hash))
        (ExecutionError "tier1 vote: output_hash does not match attached blob")
  end.

(** Only the first attached blob is kept. *)
Definition keep_first_blob (escrow_addr : Address) (output_blob : option (list Z)) : ledger unit :=
  match output_blob with
  | None => mret ()
  | Some blob =>
      stored ← readL (get_storage escrow_addr tier1_output_blob_key);
      match stored with
      | Some _ => mret ()
      | None => set_storage escrow_addr tier1_output_blob_key blob
      end
  end.

Definition execute_inference_vote (tx : Transaction) (request_id output_hash : Hash256)
    (output_blob : option (list Z)) : ledger unit :=
  _ ← pureL (vote_bounds output_hash output_blob);
  sender ← load_sender tx;
  let escrow_addr := tier1_escrow_address request_id in
  escrow ← get_or_create_account escrow_addr;
  _ ← ensure (negb (bool_decide (acc_balance escrow = 0)))
        "tier1 vote: request not found or already settled";
  let status := code_status (acc_code_hash escrow) in
  _ ← ensure (status_actionable status) "tier1 vote: request status disallows voting";
  members ← readL (fun s => tier1_committee_for s request_id (acc_nonce escrow)
                              (code_committee (acc_code_hash escrow)));
  _ ← ensure (bool_decide (tx_from tx ∈ members)) "tier1 vote: signer not in committee";
  votes ← readL (tier1_votes escrow_addr);
  _ ← ensure (negb (existsb (fun v => bool_decide (v.1 = tx_from tx)) votes))
        "tier1 vote: duplicate vote from this validator";
  encoded ← pureL (ok_or (bincode_votes (votes ++ [(tx_from tx, output_hash)]))
                     (ExecutionError "tier1 vote: serialize votes"));
  _ ← set_storage escrow_addr tier1_votes_key encoded;
  _ ← keep_first_blob escrow_addr output_blob;
  _ ← store_account (tx_from tx) (bump_nonce sender);
  if bool_decide (status = TIER1_STATUS_OPEN) then
    store_account escrow_addr
      (escrow <| acc_code_hash := set_code_status TIER1_STATUS_VOTING (acc_code_hash escrow) |>)
  else mret ().

(** ** Settlement *)

Context `{HashOrder}.

Definition tally_votes (votes : list (Address * Hash256)) : gmap Hash256 nat :=
  foldl (fun m v => <[v.2 := S (default 0%nat (m !! v.2))]> m) ∅ votes.

(** [max_by_key] keeps the last of the greatest; [unwrap_or((ZERO, 0))]. *)
Definition majority_of (entries : list (Hash256 * nat)) : Hash256 * nat :=
  default (0, 0%nat)
    (foldl (fun best e => match best with
                          | Some b => if bool_decide (b.2 <= e.2)%nat then Some e else best
                          | None => Some e
                          end) None entries).

Definition agreeing_voters (votes : list (Address * Hash256)) (output : Hash256) : list Address :=
  fst <$> filter (fun v => v.2 = output) votes.

Definition min_agreement (committee_size : Z) : Z := Z.max (committee_size / 2 + 1) 1.

(** What each agreeing voter, the requester and the treasury get of a reward. *)
Definition tier1_split (max_reward n : Z) : Z * Z * Z :=
  let voters_pool := wrapping_mul max_reward TIER1_REWARD_SHARE_VOTERS_BPS / 10000 in
  let refund := wrapping_mul max_reward TIER1_REWARD_SHARE_REFUND_BPS / 10000 in
  let treasury := wrapping_mul max_reward TIER1_REWARD_SHARE_TREASURY_BPS / 10000 in
  let remainder := saturating_sub max_reward
                     (wrapping_add (wrapping_add voters_pool refund) treasury) in
  let per_voter := if bool_decide (n = 0) then 0 else voters_pool / n in
  let voter_rem := saturating_sub voters_pool (wrapping_mul per_voter n) in
  (per_voter, refund, wrapping_add (wrapping_add treasury remainder) voter_rem).

Fixpoint reward_each (l : list Address) (amount : Z) : ledger unit :=
  match l with
  | [] => mret ()
  | v :: l' => _ ← update_account v (fun a => credit_saturating a amount); reward_each l' amount
  end.

(** The requester read back from the storage of the escrow. *)
Definition tier1_requester (escrow_addr : Address) (s : StateDB) : option Address :=
  let bytes := default [] (get_storage escrow_addr tier1_requester_key s) in
  if bool_decide (length bytes = 32%nat) then Some (hash_of_bytes bytes) else None.

(** The two outcomes of a finalization, with the status they leave. *)
Definition pay_consensus (escrow_addr requester : Address) (max_reward : Z)
    (votes : list (Address * Hash256)) (output : Hash256) : ledger Z :=
  let agreeing := agreeing_voters votes output in
  let '(per_voter, refund, treasury) := tier1_split max_reward (Z.of_nat (length agreeing)) in
  _ ← reward_each agreeing per_voter;
  _ ← update_account requester (fun a => credit_saturating a refund);
  _ ← update_account faucet_pool_address (fun a => credit_saturating a treasury);
  _ ← set_storage escrow_addr tier1_final_output_key (hash_to_bytes output);
  mret TIER1_STATUS_FINALIZED.

Definition refund_request (requester : Address) (max_reward : Z) : ledger Z :=
  let fee := Z.min TIER1_ANTI_SPAM_FEE max_reward in
  _ ← update_account requester (fun a => credit_saturating a (max_reward - fee));
  _ ← (if bool_decide (0 < fee)
       then update_account faucet_pool_address (fun a => credit_saturating a fee)
       else mret ());
  mret TIER1_STATUS_REFUNDED.

Definition execute_inference_finalize (tx : Transaction) (request_id : Hash256) : ledger unit :=
  sender ← load_sender tx;
  _ ← store_account (tx_from tx) (bump_nonce sender);
  let escrow_addr := tier1_escrow_address request_id in
  escrow ← get_or_create_account escrow_addr;
  _ ← ensure (negb (bool_decide (acc_balance escrow = 0)))
        "tier1 finalize: request not found or already settled";
  _ ← ensure (status_actionable (code_status (acc_code_hash escrow)))
        "tier1 finalize: request status already terminal";
  let committee_size := code_committee (acc_code_hash escrow) in
  now ← readL db_height;
  votes ← readL (tier1_votes escrow_addr);
  let timeout_reached :=
    bool_decide (saturating_add (acc_nonce escrow) (code_deadline (acc_code_hash escrow)) <= now) in
  let all_voted := bool_decide (committee_size <= Z.of_nat (length votes)) in
  _ ← ensure (timeout_reached || all_voted) "tier1 finalize: not yet eligible";
  let majority := majority_of (hash_order (tally_votes votes)) in
  requester ← checkL (fun s => ok_or (tier1_requester escrow_addr s)
    (ExecutionError "tier1 finalize: requester not recorded in escrow storage"));
  let max_reward := acc_balance escrow in
  new_status ← (if bool_decide (min_agreement committee_size <= Z.of_nat majority.2)
                then pay_consensus escrow_addr requester max_reward votes majority.1
                else refund_request requester max_reward);
  _ ← store_account escrow_addr
        (escrow <| acc_balance := 0 |>
                <| acc_code_hash := set_code_status new_status (acc_code_hash escrow) |>);
  modifyL (fun s => s <| db_tier1_pending := delete request_id (db_tier1_pending s) |>).

(** ** Reads of the lane *)

Record Tier1RequestSnapshot := mkSnapshot {
  sn_request_id : Hash256;
  sn_escrow_addr : Address;
  sn_status : Z;
  sn_deadline_blocks : Z;
  sn_committee_size : Z;
  sn_anchor_height : Z;
  sn_input_blob : list Z;
  sn_votes : list (Address * Hash256);
  sn_max_reward : Z;
  sn_requester : Address;
}.

Definition tier1_request_snapshot (s : StateDB) (request_id : Hash256)
    : option Tier1RequestSnapshot :=
  let escrow_addr := tier1_escrow_address request_id in
  escrow ← get_account escrow_addr s;
  if bool_decide (acc_balance escrow = 0) && bool_decide (acc_code_hash escrow = 0) then None
  else Some (mkSnapshot request_id escrow_addr (code_status (acc_code_hash escrow))
               (code_deadline (acc_code_hash escrow)) (code_committee (acc_code_hash escrow))
               (acc_nonce escrow)
               (default [] (get_storage escrow_addr tier1_input_blob_key s))
               (tier1_votes escrow_addr s) (acc_balance escrow)
               (default escrow_addr (tier1_requester escrow_addr s))).

(** The index entry an account stands for, if it is an escrow still open. *)
Definition pending_entry (s : StateDB) (e : Address * Account) : option (Hash256 * Z) :=
  if status_actionable (code_status (acc_code_hash e.2)) then
    match get_storage e.1 tier1_request_id_key s with
    | Some raw => if bool_decide (length raw = 32%nat) then Some (hash_of_bytes raw, acc_nonce e.2)
                  else None
    | None => None
    end
  else None.

Definition rebuild_tier1_pending : ledger nat := fun s =>
  let l := omap (pending_entry s) (map_to_list (db_accounts s)) in
  (Ok (length l),
   s <| db_tier1_pending := foldl (fun m e => <[e.1 := e.2]> m) (db_tier1_pending s) l |>).

End Tier1.
