(* ===== verification/Contracts.v ===== *)
(** * Contracts on the ledger (crates/arc-state/src/lib.rs)

    Deployment of a WASM module and calls of it.  The engine that compiles a module and
    runs a function of it, with the host functions it imports, is a parameter: it reports
    the gas the guest used, whether the host raised its out-of-gas flag, whether the call
    trapped, and the storage writes the guest asked for. *)

From S2P Require Import Prelude Crypto Validators Blocks Ledger.

(** What the host functions answer from. *)
Record WasmHost := mkWasmHost {
  wh_caller : Address;
  wh_self_address : Address;
  wh_call_value : Z;
  wh_block_height : Z;
  wh_gas_limit : Z;
  wh_storage : gmap Hash256 (list Z);
}.

(** A module that does not compile or instantiate, one without the function, or a run. *)
Inductive WasmRun :=
| WasmInvalid
| WasmNoExport
| WasmRan (gas_used : Z) (out_of_gas trapped : bool) (writes : list (Hash256 * list Z)).

Class WasmEngine := {
  wasm_run : list Z -> list Z -> WasmHost -> WasmRun;
}.

Definition WASM_MAGIC : list Z := 0 :: ascii_bytes "asm".
Definition TX_DATA_BYTE : Z := 16.
Definition INIT_GAS_LIMIT : Z := 5000000.
Definition DEFAULT_WASM_GAS_LIMIT : Z := 10000000.

(** [bytecode.len() < 4 || &bytecode[..4] != WASM_MAGIC]. *)
Definition is_wasm (bytecode : list Z) : bool := bool_decide (take 4 bytecode = WASM_MAGIC).

Section Contracts.
Context `{Crypto, WasmEngine}.

Definition compute_contract_address (deployer : Address) (nonce : Z) : Address :=
  hash_bytes (ascii_bytes "ARC-chain-contract-addr-v1" ++ replicate 6 0 ++
              hash_to_bytes deployer ++ u64_le nonce).

Definition deploy_contract (addr : Address) (bytecode : list Z) : ledger unit :=
  _ ← modifyL (fun s => s <| db_contracts := <[addr := bytecode]> (db_contracts s) |>);
  append_op (SetContract addr bytecode).

(** The writes of a guest, flushed in the order it made them. *)
Fixpoint flush_writes (addr : Address) (writes : list (Hash256 * list Z)) : ledger unit :=
  match writes with
  | [] => mret ()
  | (key, value) :: writes' => _ ← set_storage addr key value; flush_writes addr writes'
  end.

(** [accounts.get_mut(&contract)]: nothing when the account is missing. *)
Definition take_back (contract : Address) (value : Z) : ledger unit :=
  modifyL (fun s =>
    match db_accounts s !! contract with
    | Some a => s <| db_accounts :=
                       <[contract := a <| acc_balance := wrapping_sub (acc_balance a) value |>]>
                         (db_accounts s) |>
    | None => s
    end).

(** The value of a call moved before it runs: the sender is only debited in the detached
    candidate. *)
Definition move_call_value (sender : Account) (contract : Address) (value : Z) : ledger Account :=
  if bool_decide (0 < value) then
    _ ← pureL (need_balance sender value);
    _ ← update_account contract (fun a => a <| acc_balance := value |>);
    mret (debit sender value)
  else mret sender.

Definition revert_call_value (from : Address) (sender : Account) (contract : Address) (value : Z)
    : ledger unit :=
  if bool_decide (0 < value) then
    _ ← insert_account from (sender <| acc_balance := value |>); take_back contract value
  else mret ().

Definition execute_wasm_call (tx : Transaction) (contract : Address) (function : list Z)
    (value gas_limit limit gas : Z) : ledger Z :=
  bytecode ← checkL (fun s => ok_or (db_contracts s !! contract) (ContractNotFound contract));
  _ ← ensure (is_wasm bytecode)
        "state-changing EVM calls are unavailable until canonical pre-root execution is activated";
  sender ← readL (account_or_new (tx_from tx));
  _ ← pureL (require (bool_decide (acc_nonce sender = tx_nonce tx))
               (InvalidNonce (acc_nonce sender) (tx_nonce tx)));
  sender' ← move_call_value sender contract value;
  let wasm_gas_limit := if bool_decide (0 < gas_limit) then gas_limit
                        else DEFAULT_WASM_GAS_LIMIT in
  run ← readL (fun s => wasm_run bytecode function
                 (mkWasmHost (tx_from tx) contract value (db_height s) wasm_gas_limit
                    (default ∅ (db_storage s !! contract))));
  match run with
  | WasmInvalid => err "WASM compile or instantiate"
  | WasmNoExport => err "function not found"
  | WasmRan wasm_gas_used out_of_gas trapped writes =>
      _ ← ensure (negb (out_of_gas || bool_decide (wasm_gas_limit < wasm_gas_used)))
            "WASM out of gas";
      if trapped : bool then
        _ ← revert_call_value (tx_from tx) sender' contract value; err "WASM exec failed"
      else
        _ ← flush_writes contract writes;
        _ ← store_account (tx_from tx) (bump_nonce sender');
        mret (charge limit gas (wasm_gas_used / 100)).2
  end.

(** The constructor, when it has arguments: a failed one removes what was deployed. *)
Definition run_constructor (tx : Transaction) (contract_addr : Address)
    (bytecode constructor_args : list Z) : ledger unit :=
  if bool_decide (constructor_args = []) then mret ()
  else
    run ← readL (fun s => wasm_run bytecode (ascii_bytes "init")
                   (mkWasmHost (tx_from tx) contract_addr 0 (db_height s) INIT_GAS_LIMIT ∅));
    match run with
    | WasmInvalid => err "WASM compile or instantiate"
    | WasmNoExport => mret ()
    | WasmRan _ out_of_gas trapped writes =>
        _ ← ensure (negb out_of_gas) "constructor out of gas";
        if trapped : bool then
          _ ← modifyL (fun s => s <| db_contracts := delete contract_addr (db_contracts s) |>);
          _ ← modifyL (fun s => s <| db_accounts := delete contract_addr (db_accounts s) |>);
          err "constructor exec"
        else flush_writes contract_addr writes
    end.

Definition execute_deploy_contract (tx : Transaction) (bytecode constructor_args : list Z)
    (state_rent_deposit limit gas : Z) : ledger Z :=
  sender ← load_sender tx;
  let total_cost := wrapping_add (tx_fee tx) state_rent_deposit in
  _ ← pureL (need_balance sender total_cost);
  _ ← ensure (is_wasm bytecode) "invalid WASM bytecode: missing magic header";
  gas' ← pureL (charge_gas limit gas (wrapping_mul (Z.of_nat (length bytecode)) TX_DATA_BYTE));
  let contract_addr := compute_contract_address (tx_from tx) (tx_nonce tx) in
  _ ← deploy_contract contract_addr bytecode;
  _ ← store_account contract_addr
        ((account_new contract_addr 0) <| acc_code_hash := hash_bytes bytecode |>);
  _ ← run_constructor tx contract_addr bytecode constructor_args;
  _ ← store_account (tx_from tx) (bump_nonce (debit sender total_cost));
  mret gas'.

End Contracts.
