(* ===== verification/Executor.v ===== *)
(** * The ledger: the other transaction families and [execute_tx]
    (crates/arc-state/src/lib.rs, crates/arc-types/src/transaction.rs)

    One definition per arm of [execute_tx] that protocol 3 does not admit, in the order
    of the match, then [execute_tx] itself and the sweep that returns matured bonds.
    [balance += x] and [nonce += 1] wrap, as the release profile compiles them.  An arm
    that uses [get_or_create_account] leaves the account it created behind when a later
    check fails. *)

From S2P Require Import Prelude Crypto Validators Blocks Ledger Tier1 Contracts.

(** The native inference lane: the accounts predicted for its transactions and its own
    admission once its context is activated. *)
Class NativeLane := {
  native_access_set : NativeFamily -> list Z -> list Address;
  native_lane_admission : StateDB -> list Transaction -> Z -> outcome StateError unit;
}.

Section Arms.
Context `{Crypto, TxCodec}.

(** ** Payments *)

Definition execute_settle (tx : Transaction) (agent_id : Address) (amount : Z) : ledger unit :=
  sender ← load_sender tx;
  _ ← pureL (need_balance sender amount);
  _ ← store_account (tx_from tx) (bump_nonce (debit sender amount));
  update_account agent_id (fun agent => credit_saturating agent amount).

Definition execute_swap (tx : Transaction) (counterparty_addr : Address)
    (offer_amount receive_amount : Z) : ledger unit :=
  sender ← load_sender tx;
  _ ← pureL (need_balance sender offer_amount);
  counterparty ← get_or_create_account counterparty_addr;
  _ ← pureL (need_balance counterparty receive_amount);
  _ ← insert_account (tx_from tx)
        (bump_nonce (credit_saturating (debit sender offer_amount) receive_amount));
  insert_account counterparty_addr
    (credit_saturating (debit counterparty receive_amount) offer_amount).

Definition execute_escrow (tx : Transaction) (beneficiary_addr : Address) (amount : Z)
    (is_create : bool) : ledger unit :=
  sender ← load_sender tx;
  if is_create then
    _ ← pureL (need_balance sender amount);
    insert_account (tx_from tx) (bump_nonce (debit sender amount))
  else
    beneficiary ← get_or_create_account beneficiary_addr;
    _ ← insert_account beneficiary_addr (credit_saturating beneficiary amount);
    insert_account (tx_from tx) (bump_nonce sender).

Definition execute_multisig (tx : Transaction) : ledger unit :=
  sender ← load_sender tx; insert_account (tx_from tx) (bump_nonce sender).

Definition execute_register_agent (tx : Transaction) : ledger unit :=
  sender ← load_sender tx;
  _ ← pureL (need_balance sender (tx_fee tx));
  insert_account (tx_from tx) (bump_nonce (debit sender (tx_fee tx))).

(** The u64 sum of the amounts, and the credits per recipient. *)
Definition settle_total (entries : list SettleEntry) : Z :=
  foldl (fun t e => wrapping_add t (se_amount e)) 0 entries.

Definition net_credits (entries : list SettleEntry) : gmap Address Z :=
  foldl (fun m e => <[se_agent_id e := wrapping_add (default 0 (m !! se_agent_id e)) (se_amount e)]> m)
    ∅ entries.

Fixpoint pay_credits (l : list (Address * Z)) : ledger unit :=
  match l with
  | [] => mret ()
  | (agent, amount) :: l' =>
      _ ← update_account agent (fun a => credit_saturating a amount); pay_credits l'
  end.

(** The recipients are paid in the order [map_to_list] gives; the source takes the one
    of its hash map. *)
Definition execute_batch_settle (tx : Transaction) (entries : list SettleEntry) : ledger unit :=
  _ ← ensure (negb (bool_decide (BATCH_SETTLE_MAX_ENTRIES < Z.of_nat (length entries))))
        "BatchSettle exceeds max entries";
  _ ← ensure (negb (bool_decide (length entries = 0%nat))) "BatchSettle with zero entries";
  sender ← load_sender tx;
  let total_amount := settle_total entries in
  _ ← pureL (need_balance sender total_amount);
  _ ← store_account (tx_from tx) (bump_nonce (debit sender total_amount));
  pay_credits (map_to_list (net_credits entries)).

(** ** Validators *)

Definition refuse_registry_change_under_native_binding (s : StateDB) : outcome StateError unit :=
  if db_native_migration s then Ok ()
  else require (negb (db_native_inference s))
         (ExecutionError "the validator registry is frozen by the active native inference binding").

Definition insert_validator (addr : Address) (stake : Z) : ledger unit :=
  modifyL (fun s => s <| db_validators := <[addr := stake]> (db_validators s) |>).
Definition remove_validator (addr : Address) : ledger unit :=
  modifyL (fun s => s <| db_validators := delete addr (db_validators s) |>).

(** An entry that reaches zero is removed. *)
Definition set_validator (addr : Address) (stake : Z) : ledger unit :=
  if bool_decide (stake = 0) then remove_validator addr else insert_validator addr stake.

Definition tracked_stake (addr : Address) (s : StateDB) : Z := default 0 (db_validators s !! addr).

Definition checked_nonce (sender : Account) (what : string) : ledger Z :=
  pureL (ok_or (checked_add (acc_nonce sender) 1) (ExecutionError what)).

Definition stake_covered (sender : Account) (stake : Z) : ledger unit :=
  ensure (negb (bool_decide (acc_staked_balance sender < stake)))
    "validator account stake is below tracked validator stake".

(** Funds moved between the balance and the stake of an account, with the pool. *)
Definition lock_stake (sender : Account) (amount : Z) : ledger Account :=
  new_balance ← pureL (ok_or (checked_sub (acc_balance sender) amount)
                         (ExecutionError "stake balance underflow"));
  new_account_stake ← pureL (ok_or (checked_add (acc_staked_balance sender) amount)
                               (ExecutionError "account stake overflow"));
  mret (sender <| acc_balance := new_balance |> <| acc_staked_balance := new_account_stake |>).

Definition unlock_stake (sender : Account) (amount : Z) : ledger Account :=
  new_account_stake ← pureL (ok_or (checked_sub (acc_staked_balance sender) amount)
                               (ExecutionError "account stake underflow"));
  new_balance ← pureL (ok_or (checked_add (acc_balance sender) amount)
                         (ExecutionError "unstake balance overflow"));
  mret (sender <| acc_balance := new_balance |> <| acc_staked_balance := new_account_stake |>).

Definition execute_stake (tx : Transaction) (amount : Z) (is_stake : bool) : ledger unit :=
  _ ← checkL refuse_registry_change_under_native_binding;
  sender ← load_sender tx;
  next_nonce ← checked_nonce sender "stake nonce overflow";
  if is_stake then
    _ ← pureL (need_balance sender amount);
    prev_stake ← readL (tracked_stake (tx_from tx));
    _ ← stake_covered sender prev_stake;
    sender' ← lock_stake sender amount;
    new_stake ← pureL (ok_or (checked_add prev_stake amount)
                         (ExecutionError "validator stake overflow"));
    _ ← add_staking_pool_checked amount;
    _ ← insert_validator (tx_from tx) new_stake;
    store_account (tx_from tx) (sender' <| acc_nonce := next_nonce |>)
  else
    prev_stake ← readL (tracked_stake (tx_from tx));
    _ ← pureL (require (negb (bool_decide (prev_stake < amount)))
                 (InsufficientBalance prev_stake amount));
    _ ← stake_covered sender prev_stake;
    sender' ← unlock_stake sender amount;
    new_stake ← pureL (ok_or (checked_sub prev_stake amount)
                         (ExecutionError "validator stake underflow"));
    _ ← subtract_staking_pool_checked amount;
    _ ← set_validator (tx_from tx) new_stake;
    store_account (tx_from tx) (sender' <| acc_nonce := next_nonce |>).

Definition execute_join_validator (tx : Transaction) (initial_stake : Z) : ledger unit :=
  _ ← checkL refuse_registry_change_under_native_binding;
  sender ← load_sender tx;
  next_nonce ← checked_nonce sender "validator join nonce overflow";
  _ ← pureL (need_balance sender initial_stake);
  _ ← ensure (negb (bool_decide (initial_stake < MIN_VALIDATOR_STAKE)))
        "initial stake below minimum";
  current_stake ← readL (tracked_stake (tx_from tx));
  _ ← ensure (bool_decide (current_stake = 0))
        "validator already has tracked stake; use UpdateStake";
  sender' ← lock_stake sender initial_stake;
  _ ← add_staking_pool_checked initial_stake;
  _ ← insert_validator (tx_from tx) initial_stake;
  store_account (tx_from tx) (sender' <| acc_nonce := next_nonce |>).

Definition execute_leave_validator (tx : Transaction) : ledger unit :=
  sender ← load_sender tx;
  next_nonce ← checked_nonce sender "validator exit nonce overflow";
  staked ← readL (tracked_stake (tx_from tx));
  sender' ← (if bool_decide (0 < staked) then
               _ ← stake_covered sender staked;
               sender' ← unlock_stake sender staked;
               _ ← subtract_staking_pool_checked staked;
               _ ← remove_validator (tx_from tx);
               mret sender'
             else mret sender);
  store_account (tx_from tx) (sender' <| acc_nonce := next_nonce |>).

(** [ClaimRewards] and [Governance] record a nonce. *)
Definition execute_nonce_only (tx : Transaction) : ledger unit :=
  sender ← load_sender tx; store_account (tx_from tx) (bump_nonce sender).

Definition execute_update_stake (tx : Transaction) (new_stake : Z) : ledger unit :=
  _ ← checkL refuse_registry_change_under_native_binding;
  sender ← load_sender tx;
  next_nonce ← checked_nonce sender "validator stake nonce overflow";
  current_stake ← readL (tracked_stake (tx_from tx));
  _ ← stake_covered sender current_stake;
  sender' ← (if bool_decide (current_stake < new_stake) then
               let diff := new_stake - current_stake in
               _ ← pureL (need_balance sender diff);
               sender' ← lock_stake sender diff;
               _ ← add_staking_pool_checked diff;
               mret sender'
             else if bool_decide (new_stake < current_stake) then
               let diff := current_stake - new_stake in
               sender' ← unlock_stake sender diff;
               _ ← subtract_staking_pool_checked diff;
               mret sender'
             else mret sender);
  _ ← set_validator (tx_from tx) new_stake;
  store_account (tx_from tx) (sender' <| acc_nonce := next_nonce |>).

(** ** Bridge and channels *)

Definition execute_bridge_lock (tx : Transaction) (amount : Z) : ledger unit :=
  sender ← load_sender tx;
  _ ← pureL (need_balance sender amount);
  _ ← store_account (tx_from tx) (bump_nonce (debit sender amount));
  update_account bridge_escrow_address (fun escrow => escrow <| acc_balance := amount |>).

Definition execute_bridge_mint (tx : Transaction) (recipient_addr : Address) (amount : Z)
    (merkle_proof : list Z) : ledger unit :=
  sender ← load_sender tx;
  _ ← ensure (negb (bool_decide (merkle_proof = [])))
        "bridge mint requires a non-empty merkle proof";
  _ ← store_account (tx_from tx) (bump_nonce sender);
  update_account recipient_addr (fun recipient => recipient <| acc_balance := amount |>).

Definition channel_address (channel_id : Hash256) : Address :=
  hash_bytes (ascii_bytes "arc-channel" ++ hash_to_bytes channel_id).

Definition execute_channel_open (tx : Transaction) (channel_id : Hash256) (counterparty : Address)
    (deposit : Z) : ledger unit :=
  sender ← load_sender tx;
  _ ← pureL (need_balance sender deposit);
  _ ← store_account (tx_from tx) (bump_nonce (debit sender deposit));
  update_account (channel_address channel_id) (fun escrow =>
    escrow <| acc_balance := deposit |> <| acc_code_hash := tx_from tx |>
           <| acc_storage_root := counterparty |>).

Definition channel_party (tx : Transaction) (escrow : Account) : bool :=
  bool_decide (tx_from tx = acc_code_hash escrow) ||
  bool_decide (tx_from tx = acc_storage_root escrow).

Definition execute_channel_close (tx : Transaction) (channel_id : Hash256)
    (opener_balance counterparty_balance : Z) : ledger unit :=
  sender ← load_sender tx;
  let escrow_addr := channel_address channel_id in
  escrow ← get_or_create_account escrow_addr;
  _ ← ensure (channel_party tx escrow)
        "channel close: sender is neither opener nor counterparty";
  height ← readL db_height;
  _ ← ensure (negb (bool_decide (0 < acc_staked_balance escrow) &&
                    bool_decide (height < acc_staked_balance escrow)))
        "channel close: active dispute in progress, wait for challenge period to expire";
  _ ← ensure (negb (bool_decide (acc_balance escrow <
                                 saturating_add opener_balance counterparty_balance)))
        "channel close exceeds locked funds";
  _ ← update_account escrow_addr (fun e => e <| acc_balance := 0 |>);
  _ ← store_account (tx_from tx) (credit (bump_nonce sender) opener_balance);
  let counterparty_addr := acc_storage_root escrow in
  if bool_decide (0 < counterparty_balance) && negb (bool_decide (counterparty_addr = 0)) then
    update_account counterparty_addr (fun c => credit c counterparty_balance)
  else mret ().

Definition execute_channel_dispute (tx : Transaction) (channel_id : Hash256)
    (opener_balance counterparty_balance state_nonce challenge_period : Z) : ledger unit :=
  sender ← load_sender tx;
  _ ← store_account (tx_from tx) (bump_nonce sender);
  let escrow_addr := channel_address channel_id in
  escrow ← get_or_create_account escrow_addr;
  height ← readL db_height;
  let disputed := bool_decide (0 < acc_staked_balance escrow) in
  _ ← ensure (negb (bool_decide (acc_balance escrow = 0)))
        "channel dispute: no funds locked in channel";
  _ ← ensure (channel_party tx escrow)
        "channel dispute: sender is neither opener nor counterparty";
  _ ← ensure (negb (bool_decide (challenge_period = 0) || bool_decide (100000 < challenge_period)))
        "channel dispute: challenge_period must be 1..=100000";
  _ ← ensure (negb (disputed && bool_decide (acc_staked_balance escrow <= height)))
        "channel dispute: challenge period has expired, state is finalized";
  _ ← ensure (negb (disputed && bool_decide (state_nonce <= acc_nonce escrow)))
        "channel dispute: state_nonce must exceed previously disputed nonce";
  _ ← ensure (negb (bool_decide (acc_balance escrow <
                                 saturating_add opener_balance counterparty_balance)))
        "channel dispute: claimed balances exceed locked funds";
  store_account escrow_addr
    (escrow <| acc_nonce := state_nonce |>
            <| acc_staked_balance := wrapping_add height challenge_period |>).

(** ** Inference attestations and their bonds *)

Definition ATTEST_ESCROW_MAGIC : list Z := ascii_bytes "ARCATB2" ++ [1].
Definition ATTEST_STATUS_OPEN : Z := 0.
Definition ATTEST_STATUS_CHALLENGED : Z := 1.
Definition MAX_BOND_RELEASES_PER_BLOCK : nat := 256.

(** The storage root of an attestation escrow, and the reading of it. *)
Definition attest_root (status : Z) : Hash256 :=
  hash_of_bytes (ATTEST_ESCROW_MAGIC ++ [status] ++ replicate 23 0).
Definition has_attest_magic (root : Hash256) : bool :=
  bool_decide (take 8 (hash_to_bytes root) = ATTEST_ESCROW_MAGIC).
Definition attest_status (root : Hash256) : Z := nth 8 (hash_to_bytes root) 0.

Definition attestation_escrow_address (attestation_hash : Hash256) : Address :=
  hash_bytes (ascii_bytes "arc-inference" ++ hash_to_bytes attestation_hash).

(** Insertion where the binary search of a sorted bucket misses. *)
Fixpoint bucket_insert (addr : Address) (l : list Address) : list Address :=
  match l with
  | [] => [addr]
  | x :: l' => if bool_decide (x = addr) then l
               else if bool_decide (addr < x) then addr :: l
               else x :: bucket_insert addr l'
  end.

(** [q.entry(h).or_default()] with the insertion into its bucket. *)
Fixpoint queue_insert (h : Z) (addr : Address) (q : list (Z * list Address))
    : list (Z * list Address) :=
  match q with
  | [] => [(h, [addr])]
  | (k, bucket) :: q' => if bool_decide (k = h) then (k, bucket_insert addr bucket) :: q'
                         else if bool_decide (h < k) then (h, [addr]) :: q
                         else (k, bucket) :: queue_insert h addr q'
  end.

Definition enqueue_release (release_height : Z) (addr : Address) : ledger unit :=
  modifyL (fun s => s <| db_pending_bond_releases :=
                           queue_insert release_height addr (db_pending_bond_releases s) |>).

Definition execute_inference_attestation (tx : Transaction) (challenge_period bond : Z)
    : ledger unit :=
  sender ← readL (account_or_new (tx_from tx));
  _ ← pureL (require (bool_decide (acc_nonce sender = tx_nonce tx))
               (InvalidNonce (acc_nonce sender) (tx_nonce tx)));
  next_nonce ← checked_nonce sender "inference attestation nonce overflow";
  _ ← pureL (need_balance sender bond);
  let escrow_addr := attestation_escrow_address (tx_hash tx) in
  escrow_candidate ←
    (if bool_decide (0 < bond) then
       _ ← checkL (fun s => require (negb (contains_account s escrow_addr))
                     (ExecutionError "inference attestation escrow already exists"));
       height ← readL db_height;
       release_height ← pureL (ok_or (checked_add height challenge_period)
         (ExecutionError "inference attestation release height overflow"));
       mret (Some (release_height,
               (account_new escrow_addr 0) <| acc_balance := bond |>
                 <| acc_code_hash := tx_from tx |> <| acc_nonce := release_height |>
                 <| acc_storage_root := attest_root ATTEST_STATUS_OPEN |>))
     else mret None);
  balance ← pureL (ok_or (checked_sub (acc_balance sender) bond)
                     (ExecutionError "inference attestation balance underflow"));
  _ ← store_account (tx_from tx)
        (sender <| acc_balance := balance |> <| acc_nonce := next_nonce |>);
  match escrow_candidate with
  | Some (release_height, escrow) =>
      _ ← store_account escrow_addr escrow; enqueue_release release_height escrow_addr
  | None => mret ()
  end.

(** The challenged mark replaces the status byte of a root that has the magic. *)
Definition mark_challenged (root : Hash256) : Hash256 :=
  if has_attest_magic root
  then hash_of_bytes (take 8 (hash_to_bytes root) ++ [ATTEST_STATUS_CHALLENGED] ++
                      drop 9 (hash_to_bytes root))
  else root.

Definition execute_inference_challenge (tx : Transaction) (attestation_hash : Hash256)
    (challenger_bond : Z) : ledger unit :=
  sender ← load_sender tx;
  _ ← pureL (need_balance sender challenger_bond);
  let escrow_addr := attestation_escrow_address attestation_hash in
  escrow ← get_or_create_account escrow_addr;
  _ ← ensure (negb (bool_decide (acc_balance escrow = 0)))
        "inference challenge: attestation escrow not found or already resolved";
  _ ← store_account (tx_from tx) (bump_nonce (debit sender challenger_bond));
  store_account escrow_addr
    ((credit escrow challenger_bond)
       <| acc_storage_root := mark_challenged (acc_storage_root escrow) |>).

(** Phase 1 of the sweep: up to [room] escrows due at [h], and the queue without them. *)
Fixpoint drain_due (room : nat) (h : Z) (q : list (Z * list Address))
    : list Address * list (Z * list Address) :=
  match q with
  | [] => ([], [])
  | (k, bucket) :: q' =>
      if bool_decide (h < k) || bool_decide (room = 0%nat) then ([], q)
      else
        let n := Nat.min room (length bucket) in
        let rest := drain_due (room - n) h q' in
        (take n bucket ++ rest.1,
         if bool_decide (drop n bucket = []) then rest.2 else (k, drop n bucket) :: rest.2)
  end.

(** Phase 2 for one escrow: whether it was refunded. *)
Definition release_bond (current_height : Z) (escrow_key : Address) : ledger bool :=
  escrow ← readL (get_account escrow_key);
  match escrow with
  | None => mret false
  | Some e =>
      if bool_decide (acc_balance e = 0) || negb (has_attest_magic (acc_storage_root e)) ||
         negb (bool_decide (attest_status (acc_storage_root e) = ATTEST_STATUS_OPEN))
      then mret false
      else if bool_decide (current_height < acc_nonce e) then
        _ ← enqueue_release (acc_nonce e) escrow_key; mret false
      else
        _ ← update_account (acc_code_hash e) (fun a => credit_saturating a (acc_balance e));
        _ ← mark_dirty [acc_code_hash e];
        _ ← update_account escrow_key (fun a => a <| acc_balance := 0 |> <| acc_storage_root := 0 |>);
        _ ← mark_dirty [escrow_key];
        mret true
  end.

Fixpoint release_bonds (current_height : Z) (due : list Address) : ledger nat :=
  match due with
  | [] => mret 0%nat
  | key :: due' =>
      refunded ← release_bond current_height key;
      rest ← release_bonds current_height due';
      mret (if refunded : bool then S rest else rest)
  end.

Definition sweep_matured_bond_releases (current_height : Z) : ledger nat := fun s =>
  let '(due, q) := drain_due MAX_BOND_RELEASES_PER_BLOCK current_height
                     (db_pending_bond_releases s) in
  release_bonds current_height due (s <| db_pending_bond_releases := q |>).

(** The queue read back from the accounts. *)
Definition open_escrow (a : Account) : bool :=
  negb (bool_decide (acc_balance a = 0)) && has_attest_magic (acc_storage_root a) &&
  bool_decide (attest_status (acc_storage_root a) = ATTEST_STATUS_OPEN).

Definition rebuild_pending_bond_releases : ledger nat := fun s =>
  let l := filter (fun e => open_escrow e.2 = true) (map_to_list (db_accounts s)) in
  (Ok (length l),
   s <| db_pending_bond_releases := foldl (fun q e => queue_insert (acc_nonce e.2) e.1 q) [] l |>).

Definition min_stake_of_tier (tier : Z) : Z :=
  nth (Z.to_nat tier) [0; 1000; 5000; 10000; 25000] 0.

Definition execute_inference_register (tx : Transaction) (tier stake_bond : Z) : ledger unit :=
  sender ← load_sender tx;
  _ ← ensure (negb (bool_decide (tier = 0) || bool_decide (4 < tier)))
        "inference register: invalid tier, must be 1-4";
  _ ← pureL (need_balance sender stake_bond);
  _ ← ensure (negb (bool_decide (stake_bond < min_stake_of_tier tier)))
        "inference register: stake below minimum for tier";
  let sender' := debit sender stake_bond in
  store_account (tx_from tx)
    (bump_nonce (sender' <| acc_staked_balance :=
                              wrapping_add (acc_staked_balance sender') stake_bond |>)).

(** ** Inference escrows *)

Definition escrow_address (request_id : Hash256) : Address :=
  hash_bytes (ascii_bytes "arc-inference-escrow" ++ hash_to_bytes request_id).

Definition escrow_commitment (payer : Address) (model_id : Hash256)
    (max_tokens timeout_blocks : Z) : Hash256 :=
  hash_bytes (hash_to_bytes payer ++ hash_to_bytes model_id ++ to_le_bytes 4 max_tokens ++
              u64_le timeout_blocks).

Definition execute_inference_escrow_open (tx : Transaction) (request_id model_id : Hash256)
    (max_fee max_tokens timeout_blocks : Z) : ledger unit :=
  sender ← load_sender tx;
  _ ← pureL (need_balance sender max_fee);
  let escrow_addr := escrow_address request_id in
  existing ← get_or_create_account escrow_addr;
  _ ← ensure (bool_decide (acc_balance existing = 0))
        "inference escrow open: request_id already has open escrow";
  _ ← store_account (tx_from tx) (bump_nonce (debit sender max_fee));
  height ← readL db_height;
  store_account escrow_addr
    (existing <| acc_balance := max_fee |> <| acc_nonce := height |>
       <| acc_storage_root := escrow_commitment (tx_from tx) model_id max_tokens timeout_blocks |>).

(** The 40/25/15/20 split of [total] with [n] replicas: what the proposer, each replica,
    the observer pool and the treasury get. *)
Definition revenue_split (total n : Z) : Z * Z * Z * Z :=
  let proposer_share := wrapping_mul total 40 / 100 in
  let replicas_pool := wrapping_mul total 25 / 100 in
  let observer_share := wrapping_mul total 15 / 100 in
  let per_replica := replicas_pool / n in
  let replicas_paid := wrapping_mul per_replica n in
  let treasury_share :=
    wrapping_sub (wrapping_sub (wrapping_sub total proposer_share) replicas_paid) observer_share in
  (proposer_share, per_replica, observer_share, treasury_share).

Fixpoint credit_each (l : list Address) (amount : Z) : ledger unit :=
  match l with
  | [] => mret ()
  | r :: l' => _ ← update_account r (fun a => credit a amount); credit_each l' amount
  end.

Definition execute_inference_escrow_release (tx : Transaction) (request_id : Hash256)
    (payer : Address) (model_id : Hash256) (max_tokens timeout_blocks : Z)
    (proposer : Address) (replicas : list Address) (observer_pool treasury : Address)
    : ledger unit :=
  sender ← load_sender tx;
  _ ← ensure (negb (bool_decide (replicas = [])))
        "inference escrow release: must name at least one replica";
  let escrow_addr := escrow_address request_id in
  escrow ← get_or_create_account escrow_addr;
  _ ← ensure (negb (bool_decide (acc_balance escrow = 0)))
        "inference escrow release: no open escrow for this request_id";
  _ ← ensure (bool_decide (acc_storage_root escrow =
                           escrow_commitment payer model_id max_tokens timeout_blocks))
        "inference escrow release: metadata commitment mismatch";
  _ ← store_account (tx_from tx) (bump_nonce sender);
  let '(proposer_share, per_replica, observer_share, treasury_share) :=
    revenue_split (acc_balance escrow) (Z.of_nat (length replicas)) in
  _ ← update_account proposer (fun a => credit a proposer_share);
  _ ← credit_each replicas per_replica;
  _ ← update_account observer_pool (fun a => credit a observer_share);
  _ ← update_account treasury (fun a => credit a treasury_share);
  store_account escrow_addr (escrow <| acc_balance := 0 |> <| acc_storage_root := 0 |>).

Definition execute_inference_escrow_refund (tx : Transaction) (request_id model_id : Hash256)
    (max_tokens timeout_blocks : Z) : ledger unit :=
  sender ← load_sender tx;
  let escrow_addr := escrow_address request_id in
  escrow ← get_or_create_account escrow_addr;
  _ ← ensure (negb (bool_decide (acc_balance escrow = 0)))
        "inference escrow refund: no open escrow for this request_id";
  _ ← ensure (bool_decide (acc_storage_root escrow =
                           escrow_commitment (tx_from tx) model_id max_tokens timeout_blocks))
        "inference escrow refund: caller is not the original payer (metadata mismatch)";
  now ← readL db_height;
  _ ← ensure (negb (bool_decide (now < wrapping_add (acc_nonce escrow) timeout_blocks)))
        "inference escrow refund: timeout not elapsed";
  _ ← store_account (tx_from tx) (bump_nonce (credit sender (acc_balance escrow)));
  store_account escrow_addr (escrow <| acc_balance := 0 |> <| acc_storage_root := 0 |>).

(** ** Models and shard coverage *)

Definition MIN_MODEL_REGISTRATION_FEE : Z := 1000.

Definition registry_account (model_id : Hash256) : Address :=
  hash_bytes (ascii_bytes "arc-model-registry" ++ hash_to_bytes model_id).
Definition request_account (request_id : Hash256) : Address :=
  hash_bytes (ascii_bytes "arc-model-request" ++ hash_to_bytes request_id).
Definition claim_account (model_id node_pubkey : Hash256) : Address :=
  hash_bytes (ascii_bytes "arc-shard-claim" ++ hash_to_bytes model_id ++ hash_to_bytes node_pubkey).
Definition capacity_account (node_pubkey : Hash256) : Address :=
  hash_bytes (ascii_bytes "arc-node-capacity" ++ hash_to_bytes node_pubkey).
Definition proposal_account (input_snapshot_hash : Hash256) : Address :=
  hash_bytes (ascii_bytes "arc-planner-proposal" ++ hash_to_bytes input_snapshot_hash).

Definition model_commitment (n_layers d_model : Z) (quantization : list Z)
    (chunk_tree_root : Hash256) (royalty_recipient : Address) : Hash256 :=
  hash_bytes (to_le_bytes 4 n_layers ++ to_le_bytes 4 d_model ++
              to_le_bytes 4 (Z.of_nat (length quantization)) ++ quantization ++
              hash_to_bytes chunk_tree_root ++ hash_to_bytes royalty_recipient).

Definition range_bytes (r : Z * Z) : list Z := to_le_bytes 4 r.1 ++ to_le_bytes 4 r.2.

Definition execute_model_registration (tx : Transaction) (model_id chunk_tree_root : Hash256)
    (n_layers d_model : Z) (quantization : list Z) (registration_fee : Z)
    (royalty_recipient : Address) : ledger unit :=
  sender ← load_sender tx;
  _ ← ensure (negb (bool_decide (32 < Z.of_nat (length quantization))))
        "model registration: quantization tag > 32 bytes";
  let fee := Z.max registration_fee MIN_MODEL_REGISTRATION_FEE in
  _ ← pureL (need_balance sender fee);
  let registry_addr := registry_account model_id in
  existing ← get_or_create_account registry_addr;
  _ ← ensure (bool_decide (acc_storage_root existing = 0))
        "model registration: model_id already registered";
  _ ← store_account (tx_from tx) (bump_nonce (debit sender fee));
  _ ← update_account v3_fee_treasury_address (fun tre => credit tre fee);
  height ← readL db_height;
  store_account registry_addr
    (existing <| acc_nonce := height |>
       <| acc_storage_root := model_commitment n_layers d_model quantization chunk_tree_root
                                royalty_recipient |>
       <| acc_balance := 0 |>).

Definition execute_model_request (tx : Transaction) (request_id model_id : Hash256)
    (target_k_replication bond_per_layer_epoch max_wait_secs : Z) : ledger unit :=
  sender ← load_sender tx;
  _ ← store_account (tx_from tx) (bump_nonce sender);
  height ← readL db_height;
  update_account (request_account request_id) (fun req =>
    req <| acc_balance := bond_per_layer_epoch |> <| acc_nonce := height |>
        <| acc_storage_root :=
             hash_bytes (hash_to_bytes model_id ++ to_le_bytes 4 target_k_replication ++
                         to_le_bytes 4 max_wait_secs ++ hash_to_bytes (tx_from tx)) |>).

Definition execute_shard_coverage_claim (tx : Transaction) (model_id node_pubkey : Hash256)
    (ranges : list (Z * Z)) (bond epoch_blocks : Z) : ledger unit :=
  sender ← load_sender tx;
  _ ← ensure (negb (bool_decide (bond = 0))) "shard coverage claim: bond must be > 0";
  _ ← ensure (negb (bool_decide (ranges = [])))
        "shard coverage claim: must claim at least one range";
  _ ← pureL (need_balance sender bond);
  _ ← store_account (tx_from tx) (bump_nonce (debit sender bond));
  let claim_addr := claim_account model_id node_pubkey in
  claim ← get_or_create_account claim_addr;
  _ ← ensure (bool_decide (acc_balance claim = 0))
        "shard coverage claim: prior claim still active";
  height ← readL db_height;
  store_account claim_addr
    (claim <| acc_balance := bond |> <| acc_nonce := height |>
           <| acc_storage_root := hash_bytes (concat (range_bytes <$> ranges) ++
                u64_le epoch_blocks ++ hash_to_bytes (tx_from tx)) |>).

Definition execute_capacity_advertisement (tx : Transaction) (node_pubkey : Hash256)
    (ram_bytes vram_bytes bandwidth_mbps uptime_hint_mins stake : Z) (region : list Z)
    : ledger unit :=
  sender ← load_sender tx;
  _ ← ensure (negb (bool_decide (8 < Z.of_nat (length region))))
        "capacity advertisement: region tag > 8 bytes";
  _ ← store_account (tx_from tx) (bump_nonce sender);
  height ← readL db_height;
  update_account (capacity_account node_pubkey) (fun cap =>
    cap <| acc_nonce := height |>
        <| acc_storage_root :=
             hash_bytes (u64_le ram_bytes ++ u64_le vram_bytes ++ to_le_bytes 4 bandwidth_mbps ++
                         to_le_bytes 4 uptime_hint_mins ++ u64_le stake ++
                         to_le_bytes 4 (Z.of_nat (length region)) ++ region) |>).

Definition execute_shard_assignment_proposal (tx : Transaction) (epoch_blocks : Z)
    (assignments : list (Hash256 * Hash256 * list (Z * Z))) (input_snapshot_hash : Hash256)
    : ledger unit :=
  sender ← load_sender tx;
  _ ← ensure (negb (bool_decide (length assignments = 0%nat)))
        "shard assignment proposal: must include at least one entry";
  _ ← store_account (tx_from tx) (bump_nonce sender);
  height ← readL db_height;
  update_account (proposal_account input_snapshot_hash) (fun prop =>
    prop <| acc_nonce := height |>
         <| acc_storage_root :=
              hash_bytes (u64_le epoch_blocks ++ hash_to_bytes input_snapshot_hash ++
                concat ((fun a : Hash256 * Hash256 * list (Z * Z) =>
                           hash_to_bytes a.1.1 ++ hash_to_bytes a.1.2 ++
                           concat (range_bytes <$> a.2)) <$> assignments)) |>).

(** ** Shard proofs *)

(** The build without the [stwo-prover] feature, which is off by default: the proof is
    recorded without a STARK verification. *)
Definition shard_proof_key (shard_id block_height : Z) : Address :=
  hash_bytes (ascii_bytes "arc-shard-proof" ++ to_le_bytes 2 shard_id ++ u64_le block_height).

Definition execute_shard_proof (tx : Transaction) (shard_id block_height : Z)
    (prev_state_root post_state_root : Hash256) (tx_count : Z) (proof_data : list Z)
    : ledger unit :=
  sender ← load_sender tx;
  _ ← store_account (tx_from tx) (bump_nonce sender);
  _ ← ensure (negb (bool_decide (proof_data = []))) "shard proof: empty proof data";
  _ ← ensure (negb (bool_decide (prev_state_root = post_state_root) && bool_decide (0 < tx_count)))
        "shard proof: state root unchanged despite transactions";
  update_account (shard_proof_key shard_id block_height) (fun record =>
    record <| acc_balance := from_le_bytes (take 8 (hash_to_bytes (hash_bytes proof_data))) |>
           <| acc_nonce := block_height |>).

(** ** The executor *)

Context `{HashOrder, WasmEngine, NativeLane}.

(** An arm that leaves the gas meter alone. *)
Definition charged (gas : Z) (m : ledger unit) : ledger Z := _ ← m; mret gas.

Definition execute_body (tx : Transaction) (limit gas : Z) : ledger Z :=
  match tx_body tx with
  | BTransfer to amount commitment => charged gas (execute_transfer tx to amount commitment)
  | BSettle agent_id _ amount _ _ => charged gas (execute_settle tx agent_id amount)
  | BSwap counterparty offer receive _ _ => charged gas (execute_swap tx counterparty offer receive)
  | BEscrow beneficiary amount _ is_create => charged gas (execute_escrow tx beneficiary amount is_create)
  | BStake amount is_stake _ => charged gas (execute_stake tx amount is_stake)
  | BMultiSig _ _ _ => charged gas (execute_multisig tx)
  | BRegisterAgent _ _ _ _ _ => charged gas (execute_register_agent tx)
  | BJoinValidator _ initial_stake => charged gas (execute_join_validator tx initial_stake)
  | BLeaveValidator => charged gas (execute_leave_validator tx)
  | BClaimRewards => charged gas (execute_nonce_only tx)
  | BUpdateStake new_stake => charged gas (execute_update_stake tx new_stake)
  | BGovernance _ => charged gas (execute_nonce_only tx)
  | BBridgeLock _ _ amount => charged gas (execute_bridge_lock tx amount)
  | BBridgeMint _ _ recipient amount proof => charged gas (execute_bridge_mint tx recipient amount proof)
  | BBatchSettle entries => charged gas (execute_batch_settle tx entries)
  | BChannelOpen channel_id counterparty deposit _ =>
      charged gas (execute_channel_open tx channel_id counterparty deposit)
  | BChannelClose channel_id opener counterparty _ _ =>
      charged gas (execute_channel_close tx channel_id opener counterparty)
  | BChannelDispute channel_id opener counterparty _ state_nonce challenge_period =>
      charged gas (execute_channel_dispute tx channel_id opener counterparty state_nonce challenge_period)
  | BInferenceAttestation _ _ _ challenge_period bond =>
      charged gas (execute_inference_attestation tx challenge_period bond)
  | BInferenceChallenge attestation_hash _ challenger_bond =>
      charged gas (execute_inference_challenge tx attestation_hash challenger_bond)
  | BInferenceRegister tier stake_bond => charged gas (execute_inference_register tx tier stake_bond)
  | BInferenceEscrowOpen request_id model_id max_fee max_tokens timeout_blocks =>
      charged gas (execute_inference_escrow_open tx request_id model_id max_fee max_tokens timeout_blocks)
  | BInferenceEscrowRelease request_id payer model_id max_tokens timeout_blocks _
      proposer replicas observer_pool treasury =>
      charged gas (execute_inference_escrow_release tx request_id payer model_id max_tokens timeout_blocks
        proposer replicas observer_pool treasury)
  | BInferenceEscrowRefund request_id model_id max_tokens timeout_blocks =>
      charged gas (execute_inference_escrow_refund tx request_id model_id max_tokens timeout_blocks)
  | BModelRegistration model_id _ chunk_tree_root n_layers d_model quantization fee royalty =>
      charged gas (execute_model_registration tx model_id chunk_tree_root n_layers d_model quantization
        fee royalty)
  | BModelRequest request_id model_id target_k bond max_wait =>
      charged gas (execute_model_request tx request_id model_id target_k bond max_wait)
  | BShardCoverageClaim model_id node_pubkey ranges bond epoch_blocks =>
      charged gas (execute_shard_coverage_claim tx model_id node_pubkey ranges bond epoch_blocks)
  | BCapacityAdvertisement node_pubkey ram vram bandwidth uptime stake region =>
      charged gas (execute_capacity_advertisement tx node_pubkey ram vram bandwidth uptime stake region)
  | BShardAssignmentProposal epoch_blocks assignments snapshot =>
      charged gas (execute_shard_assignment_proposal tx epoch_blocks assignments snapshot)
  | BFaucetClaim recipient amount => charged gas (execute_faucet_claim tx recipient amount)
  | BInferenceRequest body => charged gas (execute_inference_request tx body)
  | BInferenceVote request_id output_hash output_blob _ _ =>
      charged gas (execute_inference_vote tx request_id output_hash output_blob)
  | BInferenceFinalize request_id => charged gas (execute_inference_finalize tx request_id)
  | BCommunityInferenceReward body => charged gas (execute_community_reward tx body)
  | BWasmCall contract function _ value gas_limit =>
      execute_wasm_call tx contract function value gas_limit limit gas
  | BDeployContract bytecode constructor_args deposit =>
      execute_deploy_contract tx bytecode constructor_args deposit limit gas
  | BShardProof shard_id block_height _ prev post tx_count proof_data =>
      charged gas (execute_shard_proof tx shard_id block_height prev post tx_count proof_data)
  | BNative _ _ => err "native inference requires the canonical block publisher"
  end.

Definition execute_tx (tx : Transaction) : ledger Z :=
  _ ← ensure (bool_decide (tx_type tx = body_tx_type (tx_body tx)))
        "transaction type/body mismatch";
  v3 ← readL protocol_v3;
  _ ← (if v3 : bool then checkL (fun s => validate_v3_transaction_envelope s tx) else mret ());
  let effective_limit := if bool_decide (0 < tx_gas_limit tx) then tx_gas_limit tx
                         else BLOCK_GAS_LIMIT in
  gas ← pureL (charge_gas effective_limit 0 (gas_cost_for_tx tx));
  execute_body tx effective_limit gas.

Definition contains_native (transactions : list Transaction) : bool :=
  existsb (fun tx => is_native_body (tx_body tx)) transactions.

Definition validate_native_inference_block_admission_at (s : StateDB)
    (transactions : list Transaction) (height : Z) : outcome StateError unit :=
  if db_native_inference s then native_lane_admission s transactions height
  else require (negb (contains_native transactions))
         (ExecutionError "native inference protocol-4 context is not activated").

(** The admission of one transaction at the height it would execute at. *)
Definition validate_v3_transaction_admission_at (s : StateDB) (tx : Transaction)
    (execution_height : Z) : outcome StateError unit :=
  _ ← require (protocol_v3 s)
        (ExecutionError "protocol-v3 admission requested without an active recovery context");
  _ ← validate_v3_transaction_envelope s tx;
  match tx_body tx with
  | BTransfer to amount commitment => validate_v3_transfer_admission s tx to amount commitment
  | BFaucetClaim recipient amount => validate_v3_faucet_admission s tx recipient amount
  | BCommunityInferenceReward body =>
      validate_community_reward_admission s tx body execution_height
  | _ => if is_native_body (tx_body tx)
         then validate_native_inference_block_admission_at s [tx] execution_height
         else Err (ExecutionError "transaction family has no protocol-v3 admission handler")
  end.

End Arms.
