(* ===== verification/LedgerDemo.v ===== *)
(** * Concrete ledgers

    Instances of the parameters of the ledger (digests, bincode, the iteration order of a
    hash map, the WASM engine, the native lane) and a few states and signed transactions,
    on which the theorems about the ledger are evaluated. *)

From S2P Require Import Prelude Crypto Merkle Validators Blocks Ledger Tier1 Contracts Executor.

Module LedgerDemo.
Import Demo.

(** The checksum repeated over the 256 bits of a digest, so that addresses built from a
    part of a digest differ. *)
Definition spread (h : Hash256) : Hash256 := h * (2 ^ 192 + 2 ^ 128 + 2 ^ 64 + 1).

#[export] Instance wide_crypto : Crypto := {|
  blake3_hash bytes := spread (checksum 1 bytes);
  blake3_derive_key ctx bytes := spread (checksum (string_seed ctx) bytes);
  blake3_keyed_hash key bytes := spread (checksum (checksum 2 key) bytes);
  Ed25519Key := list Z;
  ed25519_verifying_key sk := sk;
  ed25519_sign sk msg := pad64 msg;
  ed25519_key_parses _ := true;
  ed25519_verify pk msg sig := bool_decide (sig = pad64 msg);
  Secp256k1Key := list Z;
  secp256k1_point sk := sk;
  secp256k1_sign _ _ := inl "unsupported";
  secp256k1_recover _ _ _ := None;
  ml_dsa_sign _ _ := inl "unsupported";
  ml_dsa_key_parses _ := false;
  ml_dsa_verify _ _ _ := false;
  falcon_sign _ _ := inl "unsupported";
  falcon_key_parses _ := false;
  falcon_sig_parses _ := false;
  falcon_verify _ _ _ := false;
  bincode_signature s := Some (write_signature s);
  bincode_read_signature := read_signature;
  bincode_hashes l := Some (Z.of_nat (length l) :: l);
  bincode_lock '(h, s, t) := Some [h; s; t];
  bincode_pair '(a, b) := Some [a; b];
|}.

(** A list of votes, two numbers for each. *)
Definition write_votes (l : list (Address * Hash256)) : list Z :=
  mjoin ((fun v : Address * Hash256 => [v.1; v.2]) <$> l).

Fixpoint parse_votes (bytes : list Z) : option (list (Address * Hash256)) :=
  match bytes with
  | [] => Some []
  | [_] => None
  | a :: h :: rest => l ← parse_votes rest; Some ((a, h) :: l)
  end.

Lemma parse_write_votes l : parse_votes (write_votes l) = Some l.
Proof.
  induction l as [|[a h] l IH]; [done|].
  change (parse_votes (write_votes ((a, h) :: l))) with
    (rest ← parse_votes (write_votes l); Some ((a, h) :: rest)). by rewrite IH.
Qed.

Definition write_account_bytes (a : Account) : list Z :=
  hash_to_bytes (acc_address a) ++ u64_le (acc_balance a) ++ u64_le (acc_nonce a) ++
  hash_to_bytes (acc_code_hash a) ++ hash_to_bytes (acc_storage_root a) ++
  u64_le (acc_staked_balance a).

Definition write_body (b : TxBody) : list Z :=
  tx_type_code (body_tx_type b) ::
  match b with
  | BTransfer to amount _ => hash_to_bytes to ++ u64_le amount
  | BSettle agent _ amount _ _ => hash_to_bytes agent ++ u64_le amount
  | BSwap c offer receive _ _ => hash_to_bytes c ++ u64_le offer ++ u64_le receive
  | BFaucetClaim recipient amount => hash_to_bytes recipient ++ u64_le amount
  | BInferenceAttestation m i o p bond => hash_to_bytes m ++ hash_to_bytes i ++ hash_to_bytes o ++
      u64_le p ++ u64_le bond
  | BCommunityInferenceReward b => hash_to_bytes (cr_job_id b) ++ hash_to_bytes (cr_worker b)
  | _ => []
  end.

#[export] Instance demo_codec : TxCodec := {|
  bincode_tx tx := Some (write_body (tx_body tx) ++ hash_to_bytes (tx_hash tx));
  bincode_tx_body b := Some (write_body b);
  bincode_account a := Some (write_account_bytes a);
  bincode_issuance_policy l := Some (mjoin (u64_le <$> l));
  bincode_votes l := Some (write_votes l);
  read_votes := parse_votes;
|}.

#[export] Instance demo_order : HashOrder := {|
  hash_order := map_to_list;
  hash_order_entries m := reflexivity _;
|}.

Definition reverse_order : HashOrder := {|
  hash_order m := reverse (map_to_list m);
  hash_order_entries m := reverse_Permutation _;
|}.

(** Every call writes one slot; the function [trap] traps after using all its gas. *)
#[export] Instance demo_wasm : WasmEngine := {|
  wasm_run bytecode function host :=
    if bool_decide (function = ascii_bytes "trap") then WasmRan 0 false true []
    else if bool_decide (function = ascii_bytes "burn") then WasmRan (wh_gas_limit host) true false []
    else WasmRan 100 false false [(7, [1; 2; 3])];
|}.

#[export] Instance demo_native : NativeLane := {|
  native_access_set _ _ := [];
  native_lane_admission _ _ _ := Err (ExecutionError "no native lane");
|}.

(** ** Transactions *)

Definition key_of (i : Z) : list Z := to_le_bytes 32 (i + 1).
Definition user (i : Z) : Address := address_from_ed25519_pubkey (key_of i).

Definition unsigned (i nonce : Z) (body : TxBody) (fee : Z) : Transaction :=
  mkTransaction (body_tx_type body) (user i) nonce body fee 0 0 (SigEd25519 [] []) false.

Definition sign_tx (i : Z) (domain : option Hash256) (tx : Transaction) : Transaction :=
  let h := match (match domain with
                  | None => tx_compute_hash (E := StateError) tx
                  | Some d => tx_compute_hash_in_domain tx d
                  end) with Ok h => h | _ => 0 end in
  mkTransaction (tx_type tx) (tx_from tx) (tx_nonce tx) (tx_body tx) (tx_fee tx) (tx_gas_limit tx)
    h (SigEd25519 (key_of i) (pad64 (hash_to_bytes h))) false.

Definition signed (i : Z) (domain : option Hash256) (nonce : Z) (body : TxBody) (fee : Z)
    : Transaction := sign_tx i domain (unsigned i nonce body fee).

(** ** States *)

Definition funded (l : list (Address * Z)) : gmap Address Account :=
  list_to_map ((fun p : Address * Z => (p.1, account_new p.1 p.2)) <$> l).

Definition state (accounts : gmap Address Account) (vals : gmap Address Z) (height : Z)
    (context : option RecoveryContext) : StateDB :=
  mkStateDB accounts vals (map_fold (fun _ v t => v + t) 0 vals) height [] true [] ∅ ∅ ∅ ∅ im_new
    context 0 false false (mkHistory ∅ ∅ ∅ ∅ ∅).

(** Before recovery: four funded users, the fourth of them a validator. *)
Definition legacy_state : StateDB :=
  state (funded [(user 0, 5000); (user 1, 6000); (user 2, 7000); (user 3, 1000000)])
    {[user 3 := 200000]} 10 None.

(** Protocol 3, with the six validators that its rewards and its faucet need. *)
Definition context : RecoveryContext :=
  mkRecoveryContext 11 12 1 3 (mkProtocolVersion 3 0 0).

Definition six_validators : gmap Address Z :=
  list_to_map ((fun i => (user i, 200000)) <$> [10; 11; 12; 13; 14; 15]).

Definition v3_state : StateDB :=
  state (funded [(user 0, 5000); (user 1, 6000); (faucet_pool_address, 1000000);
                 (inference_reward_treasury_address, 2500000000 * 100)])
    six_validators 100 (Some context).

Definition domain : option Hash256 := Some (domain_hash context).

Definition v3_transfer : Transaction := signed 0 domain 0 (BTransfer (user 1) 100 None) 2.
Definition v3_faucet (i : Z) : Transaction := signed 10 domain 0 (BFaucetClaim (user i) 500) 0.

(** A reward for a job of the validator 10, worked by the validator 15 and approved by
    five others. *)
Definition work : Transaction := signed 15 domain 0 (BInferenceAttestation 21 22 23 100 0) 0.

Definition reward_body (approvals : list CommunityRewardValidatorApproval)
    : CommunityInferenceRewardBody :=
  mkRewardBody expected_chain_domain (derive_job_id (user 10) 31 0 21 22 16) (user 10) 31 0 1 3
    (domain_hash context) (user 15) 21 22 23 16 1000
    (mkWorkerCertificate (tx_hash work) 0 100 (tx_signature work)) approvals.

Definition approval (i : Z) : CommunityRewardValidatorApproval :=
  let commitment := match validator_approval_commitment (reward_body []) with Ok h => h | _ => 0 end in
  mkApproval (user i) (key_of i)
    (take 32 (pad64 (hash_to_bytes commitment)), drop 32 (pad64 (hash_to_bytes commitment))).

Definition v3_reward : Transaction :=
  signed 10 domain 0
    (BCommunityInferenceReward (reward_body (approval <$> [10; 11; 12; 13; 14]))) 0.

End LedgerDemo.
