(* ===== verification/LedgerV3.v ===== *)
(** * What protocol 3 executes

    A transaction that protocol 3 executes either fails and leaves the state as it was,
    or writes a list of accounts, first to the map and then to the log: [v3_effect] says
    which accounts, and [execute_v3] that [execute_tx] refines it.  From the effects
    follow the conservation of the supply, the equality of the log's replay with the
    accounts, and, over any run of blocks, the limits on what the faucet and the reward
    treasury pay. *)

From S2P Require Import Prelude Crypto Validators Blocks Ledger Tier1 Contracts Executor.

(** ** Reading a ledger computation *)

Lemma bind_ledger {A B} (m : ledger A) (k : A -> ledger B) s :
  (m ≫= k) s = match m s with
               | (Ok a, s') => k a s'
               | (Err e, s') => (Err e, s')
               | (Panic, s') => (Panic, s')
               end.
Proof. done. Qed.

(** The accounts [ws] written to a map in order, and their records. *)
Definition replay_accounts (m : gmap Address Account) (ws : list (Address * Account))
    : gmap Address Account :=
  foldl (fun m w => <[w.1 := w.2]> m) m ws.

Definition account_ops (height : Z) (ws : list (Address * Account)) : list WalEntry :=
  (fun w => mkWalEntry (SetAccount w.1 w.2) height) <$> ws.

(** The writes [ws], in the map and in the log. *)
Definition commit (ws : list (Address * Account)) (s : StateDB) : StateDB :=
  s <| db_accounts := replay_accounts (db_accounts s) ws |>
    <| db_wal := if db_wal_active s then db_wal s ++ account_ops (db_height s) ws else db_wal s |>.

Lemma insert_accounts_run ws s :
  insert_accounts ws s = (Ok (), s <| db_accounts := replay_accounts (db_accounts s) ws |>).
Proof.
  revert s. induction ws as [|[k a] ws IH]; intros s; [by destruct s|].
  cbn [insert_accounts]. rewrite bind_ledger. cbn. by rewrite IH.
Qed.

Lemma append_accounts_run ws s :
  append_accounts ws s =
    (Ok (), s <| db_wal := if db_wal_active s then db_wal s ++ account_ops (db_height s) ws else db_wal s |>).
Proof.
  revert s. induction ws as [|[k a] ws IH]; intros s.
  - destruct s. cbn. by destruct db_wal_active; rewrite ?app_nil_r.
  - cbn [append_accounts]. rewrite bind_ledger. cbn. rewrite IH.
    destruct (db_wal_active s) eqn:Hw; cbn; rewrite ?Hw; [|done].
    by rewrite <- app_assoc.
Qed.

Lemma commit_run ws s :
  (_ ← insert_accounts ws; append_accounts ws) s = (Ok (), commit ws s).
Proof. by rewrite bind_ledger, insert_accounts_run, append_accounts_run. Qed.

Lemma bind_modify {B} (f : StateDB -> StateDB) (k : unit -> ledger B) s :
  (modifyL f ≫= k) s = k () (f s).
Proof. done. Qed.

Lemma commit3_run k1 a1 k2 a2 k3 a3 s :
  (_ ← insert_account k1 a1; _ ← insert_account k2 a2; _ ← insert_account k3 a3;
   _ ← wal_append k1 a1; _ ← wal_append k2 a2; wal_append k3 a3) s =
  (Ok (), commit [(k1, a1); (k2, a2); (k3, a3)] s).
Proof.
  unfold insert_account, wal_append, append_op. rewrite !bind_modify. unfold modifyL, commit. cbn.
  destruct s as [? ? ? ? ? wal]. cbn. destruct wal; cbn; [|done]. by rewrite <- !app_assoc.
Qed.

Lemma bind_check {A B} (f : StateDB -> outcome StateError A) (k : A -> ledger B) s a :
  f s = Ok a -> (checkL f ≫= k) s = k a s.
Proof. intros Hf. rewrite bind_ledger. unfold checkL. by rewrite Hf. Qed.

Lemma bind_pure {A B} (o : outcome StateError A) (k : A -> ledger B) s a :
  o = Ok a -> (pureL o ≫= k) s = k a s.
Proof. by intros ->. Qed.

Lemma bind_read {A B} (f : StateDB -> A) (k : A -> ledger B) s : (readL f ≫= k) s = k (f s) s.
Proof. done. Qed.

Lemma signature_or_Ok o what : signature_or o what = Ok () <-> o = Ok ().
Proof. destruct o as [[]| |]; cbn; naive_solver. Qed.

(** [run_steps] runs the reads and the checks of a computation whose guards are in the
    context. *)
Ltac run_guard :=
  first
  [ done
  | by apply (require_Ok _ _ ())
  | by apply signature_or_Ok
  | apply ok_or_Ok; first [done | by apply checked_add_Some
                          | apply checked_sub_Some; split; [done|lia]] ].
Ltac run_step :=
  cbn zeta;
  first [ rewrite bind_read | erewrite bind_check by run_guard | erewrite bind_pure by run_guard ].
Ltac run_steps := repeat run_step; cbn zeta.

(** A check that fails ends the computation where it stands. *)
Definition stops {A B} (o : outcome StateError A) (s : StateDB) (r : outcome StateError B * StateDB)
    : Prop :=
  match o with
  | Ok _ => True
  | Err e => r = (Err e, s)
  | Panic => r = (Panic, s)
  end.

Lemma stops_check {A B} (f : StateDB -> outcome StateError A) (k : A -> ledger B) s :
  stops (f s) s ((checkL f ≫= k) s).
Proof. unfold stops. rewrite bind_ledger. unfold checkL. by destruct (f s). Qed.

Section V3.
Context `{CR : Crypto, TC : TxCodec, HO : HashOrder, WE : WasmEngine, NL : NativeLane}.

(** ** Effects *)

Definition transfer_writes (s : StateDB) (tx : Transaction) (to : Address) (amount : Z)
    (sender : Account) : list (Address * Account) :=
  let receiver := account_or_new to s in
  let treasury := account_or_new v3_fee_treasury_address s in
  [(tx_from tx, sender <| acc_balance := acc_balance sender - (amount + tx_fee tx) |>
                       <| acc_nonce := acc_nonce sender + 1 |>);
   (to, receiver <| acc_balance := acc_balance receiver + amount |>);
   (v3_fee_treasury_address, treasury <| acc_balance := acc_balance treasury + tx_fee tx |>)].

Definition faucet_writes (s : StateDB) (recipient : Address) (amount : Z) (pool : Account)
    : list (Address * Account) :=
  let receiver := account_or_new recipient s in
  let marker := v3_faucet_marker_address recipient in
  [(faucet_pool_address, pool <| acc_balance := acc_balance pool - amount |>);
   (recipient, receiver <| acc_balance := acc_balance receiver + amount |>);
   (marker, marker_account marker recipient (hash_bytes (u64_be amount)))].

Definition reward_effect_writes (b : CommunityInferenceRewardBody) (worker treasury : Account)
    (budget : list (Address * Account)) : list (Address * Account) :=
  let '(job_marker, certificate_marker, probe_marker) := v3_reward_markers b in
  [(inference_reward_treasury_address,
      treasury <| acc_balance := acc_balance treasury - INFERENCE_ATTESTATION_REWARD |>);
   (cr_worker b, worker);
   (job_marker, marker_account job_marker (cr_worker b) (cr_output_hash b));
   (certificate_marker, marker_account certificate_marker (cr_worker b) (cr_job_id b))] ++
  match probe_marker with
  | Some m => [(m, marker_account m (cr_coordinator b) (cr_job_id b))]
  | None => []
  end ++ budget.

(** What an admitted transaction writes. *)
Inductive v3_effect (s : StateDB) (tx : Transaction) : list (Address * Account) -> Prop :=
| effect_transfer to amount commitment sender :
    tx_body tx = BTransfer to amount commitment ->
    validate_v3_transfer_admission s tx to amount commitment = Ok () ->
    get_account (tx_from tx) s = Some sender ->
    v3_effect s tx (transfer_writes s tx to amount sender)
| effect_faucet recipient amount pool :
    tx_body tx = BFaucetClaim recipient amount ->
    validate_v3_faucet_admission s tx recipient amount = Ok () ->
    get_account faucet_pool_address s = Some pool ->
    v3_effect s tx (faucet_writes s recipient amount pool)
| effect_reward b worker treasury budget :
    tx_body tx = BCommunityInferenceReward b ->
    validate_community_reward_admission s tx b (db_height s) = Ok () ->
    reward_funds s b = Ok (worker, treasury) ->
    community_reward_budget_candidates_at s b (db_height s) = Ok budget ->
    v3_effect s tx (reward_effect_writes b worker treasury budget).

(** ** The executor implements the effects *)

Lemma transfer_v3_run s tx to amount c :
  validate_v3_transfer_admission s tx to amount c = Ok () ->
  exists sender, get_account (tx_from tx) s = Some sender /\
    execute_transfer_v3 tx to amount c s = (Ok (), commit (transfer_writes s tx to amount sender) s).
Proof.
  intros Hv. pose proof Hv as Hadm. unfold validate_v3_transfer_admission in Hadm. repeat inv_ok1.
  dec_hyps. split_checked. subst.
  match goal with Hs : get_account _ _ = Some ?a |- _ => exists a; split; [done|rename a into sender] end.
  unfold execute_transfer_v3. run_steps. apply commit3_run.
Qed.

Lemma faucet_v3_run s tx recipient amount :
  protocol_v3 s = true -> validate_v3_faucet_admission s tx recipient amount = Ok () ->
  exists pool, get_account faucet_pool_address s = Some pool /\
    execute_faucet_claim tx recipient amount s =
      (Ok (), commit (faucet_writes s recipient amount pool) s).
Proof.
  intros H3 Hv. pose proof Hv as Hadm. unfold validate_v3_faucet_admission in Hadm. repeat inv_ok1.
  match goal with Hs : get_account _ _ = Some ?a |- _ => exists a; split; [done|rename a into pool] end.
  unfold execute_faucet_claim. rewrite bind_read, H3. rewrite (bind_check _ _ _ _ Hv).
  run_steps. split_checked. subst. apply commit3_run.
Qed.

Lemma rewards_active_at s :
  match community_rewards_v1_activation_height s with
  | Some activation => negb (bool_decide (db_height s < activation))
  | None => false
  end = true -> community_rewards_v1_active s = true.
Proof.
  unfold community_rewards_v1_active. destruct (community_rewards_v1_activation_height s); [|done].
  intros ?. dec_hyps. apply bool_decide_eq_true. lia.
Qed.

Lemma reward_funds_treasury s b worker treasury :
  reward_funds s b = Ok (worker, treasury) -> INFERENCE_ATTESTATION_REWARD <= acc_balance treasury.
Proof. unfold reward_funds. intros Hf. repeat inv_ok1. simplify_eq. dec_hyps. lia. Qed.

Lemma reward_v3_run s tx b :
  protocol_v3 s = true -> verify_transaction_signature s tx = Ok () ->
  validate_community_reward_admission s tx b (db_height s) = Ok () ->
  exists worker treasury budget,
    reward_funds s b = Ok (worker, treasury) /\
    community_reward_budget_candidates_at s b (db_height s) = Ok budget /\
    execute_community_reward tx b s =
      (Ok (), commit (reward_effect_writes b worker treasury budget) s).
Proof.
  intros H3 Hsig Hv. pose proof Hv as Hadm. unfold validate_community_reward_admission in Hadm.
  destruct (v3_reward_markers b) as [[job cert] probe] eqn:Hm. rewrite H3 in Hadm.
  repeat inv_ok1.
  match goal with Hs : reward_funds _ _ = Ok ?a |- _ => destruct a as [worker treasury] end.
  match goal with Hs : community_reward_budget_candidates_at _ _ _ = Ok ?a |- _ =>
    exists worker, treasury, a; split; [done|]; split; [done|rename a into budget] end.
  assert (community_rewards_v1_active s = true) by (by apply rewards_active_at).
  unfold execute_community_reward. rewrite bind_read, H3. cbv iota. rewrite (bind_check _ _ _ _ Hv).
  assert (negb (bool_decide (cr_worker b = inference_reward_treasury_address)) = true)
    by (dec_hyps; by apply negb_true_iff, bool_decide_eq_false).
  do 5 run_step.
  unfold reward_markers at 1. rewrite Hm.
  do 3 run_step. cbn [fst snd].
  erewrite bind_pure by (apply ok_or_Ok, checked_sub_Some; split;
                         [done|by eapply reward_funds_treasury]).
  erewrite bind_check; [apply commit_run|].
  unfold reward_writes, reward_effect_writes, reward_markers. rewrite Hm.
  match goal with Hc : negb (reward_marker_collision _ _ _ _) = true |- _ => rewrite Hc end.
  cbn [require]. unfold mbind, outcome_bind.
  match goal with Hc : community_reward_budget_candidates_at _ _ _ = Ok _ |- _ => rewrite Hc end.
  done.
Qed.

(** What the envelope has checked. *)
Lemma envelope_Ok s tx :
  validate_v3_transaction_envelope s tx = Ok () ->
  tx_type tx = body_tx_type (tx_body tx) /\
  v3_allows_transaction (tx_body tx) || is_native_body (tx_body tx) = true /\
  (tx_gas_limit tx = 0 \/ gas_cost_for_tx tx <= tx_gas_limit tx) /\
  verify_transaction_signature s tx = Ok ().
Proof.
  unfold validate_v3_transaction_envelope. intros Henv. repeat inv_ok1. rewrite signature_or_Ok in Henv.
  dec_hyps. split_and!; [done| | |done].
  - by destruct (v3_allows_transaction _), (is_native_body _), (db_native_migration s && db_native_inference s).
  - match goal with Hg : bool_decide (tx_gas_limit tx = 0) || _ = true |- _ =>
      apply orb_true_iff in Hg as [Hg|Hg] end; dec_hyps; [by left|right; lia].
Qed.

Lemma charge_gas_Ok limit amount :
  0 <= amount <= limit -> amount <= u64_max -> charge_gas limit 0 amount = Ok amount.
Proof.
  intros Hl Hu. unfold charge_gas, charge, checked_add. rewrite Z.add_0_l, bool_decide_true by done.
  by rewrite bool_decide_false by lia.
Qed.

Lemma gas_of_v3_family tx :
  v3_allows_transaction (tx_body tx) = true ->
  (tx_gas_limit tx = 0 \/ gas_cost_for_tx tx <= tx_gas_limit tx) ->
  charge_gas (if bool_decide (0 < tx_gas_limit tx) then tx_gas_limit tx else BLOCK_GAS_LIMIT)
    0 (gas_cost_for_tx tx) = Ok (gas_cost_for_tx tx).
Proof.
  intros Hv Hg. assert (0 < gas_cost_for_tx tx <= 50000) as Hc.
  { unfold gas_cost_for_tx, v3_allows_transaction in *. by destruct (tx_body tx) as [| | | | | | | | | | | | | | | | | | | | | | | | | | | | | | | | | | | | |[]]. }
  apply charge_gas_Ok; unfold u64_max; [|lia]. case_bool_decide; unfold BLOCK_GAS_LIMIT; lia.
Qed.

(** The run of [execute_tx] up to the arm of the transaction. *)
Lemma execute_tx_arm s tx :
  protocol_v3 s = true -> validate_v3_transaction_envelope s tx = Ok () ->
  v3_allows_transaction (tx_body tx) = true ->
  execute_tx tx s =
    execute_body tx (if bool_decide (0 < tx_gas_limit tx) then tx_gas_limit tx else BLOCK_GAS_LIMIT)
      (gas_cost_for_tx tx) s.
Proof.
  intros H3 Henv Hal. destruct (envelope_Ok _ _ Henv) as (Ht & _ & Hg & _).
  unfold execute_tx, ensure. erewrite bind_pure by (by apply (require_Ok _ _ ()), bool_decide_eq_true).
  rewrite bind_read, H3. cbv iota. rewrite (bind_check _ _ _ _ Henv). cbn zeta.
  by erewrite bind_pure by (by apply gas_of_v3_family).
Qed.

Lemma execute_tx_stops s tx :
  protocol_v3 s = true ->
  stops (validate_v3_transaction_envelope s tx) s (execute_tx tx s).
Proof.
  intros H3. unfold execute_tx, ensure.
  destruct (bool_decide (tx_type tx = body_tx_type (tx_body tx))) eqn:Ht.
  - erewrite bind_pure by done. rewrite bind_read, H3.
    apply (stops_check (fun s => validate_v3_transaction_envelope s tx)).
  - unfold validate_v3_transaction_envelope. by rewrite Ht.
Qed.

(** An arm that runs the admission [o] of its family first. *)
Lemma arm_result s (m : ledger unit) (o : outcome StateError unit) (g : Z)
    (P : list (Address * Account) -> Prop) :
  stops o s (m s) -> (o = Ok () -> exists ws, P ws /\ m s = (Ok (), commit ws s)) ->
  match o with
  | Ok _ => exists ws, P ws /\ charged g m s = (Ok g, commit ws s)
  | Err e => charged g m s = (Err e, s)
  | Panic => charged g m s = (Panic, s)
  end.
Proof.
  unfold stops, charged. rewrite bind_ledger. destruct o as [[]| |]; intros Hs Hok; [|by rewrite Hs..].
  destruct (Hok eq_refl) as (ws & HP & ->). by exists ws.
Qed.

Lemma execute_v3 s tx :
  protocol_v3 s = true -> is_native_body (tx_body tx) = false ->
  match validate_v3_transaction_admission_at s tx (db_height s) with
  | Ok _ => exists ws, v3_effect s tx ws /\
                       execute_tx tx s = (Ok (gas_cost_for_tx tx), commit ws s)
  | Err e => execute_tx tx s = (Err e, s)
  | Panic => execute_tx tx s = (Panic, s)
  end.
Proof.
  intros H3 Hnat. pose proof (execute_tx_stops s tx H3) as Hstop.
  unfold validate_v3_transaction_admission_at. rewrite H3. cbn [require]. unfold mbind at 1 2, outcome_bind.
  destruct (validate_v3_transaction_envelope s tx) as [[]|e|] eqn:Henv; [|done..]. clear Hstop.
  destruct (envelope_Ok _ _ Henv) as (_ & Hal & _ & Hsig).
  rewrite Hnat, orb_false_r in Hal. rewrite (execute_tx_arm s tx H3 Henv Hal).
  unfold execute_body, v3_allows_transaction in *.
  destruct (tx_body tx) as [to amount c| | | | | | | | | | | | | | | | | | | | | | | | | | | | |recipient amount| | | |b| | | |[]] eqn:Hb; try discriminate Hal.
  - apply arm_result.
    + unfold execute_transfer. rewrite bind_read, H3.
      apply (stops_check (fun s => validate_v3_transfer_admission s tx to amount c)).
    + intros Hv. destruct (transfer_v3_run _ _ _ _ _ Hv) as (sender & Hs & Hrun).
      eexists. split; [by eapply effect_transfer|].
      unfold execute_transfer. by rewrite bind_read, H3.
  - apply arm_result.
    + unfold execute_faucet_claim. rewrite bind_read, H3.
      apply (stops_check (fun s => validate_v3_faucet_admission s tx recipient amount)).
    + intros Hv. destruct (faucet_v3_run _ _ _ _ H3 Hv) as (pool & Hs & Hrun).
      eexists. split; [by eapply effect_faucet|done].
  - apply arm_result.
    + unfold execute_community_reward. rewrite bind_read, H3.
      apply (stops_check (fun s => validate_community_reward_admission s tx b (db_height s))).
    + intros Hv. destruct (reward_v3_run _ _ _ H3 Hsig Hv) as (w & t & bu & Hf & Hbu & Hrun).
      eexists. split; [by eapply effect_reward|done].
Qed.

(** A native transaction has its own publisher: this executor refuses it. *)
Lemma execute_v3_native s tx :
  protocol_v3 s = true -> is_native_body (tx_body tx) = true ->
  (execute_tx tx s).2 = s /\ forall g, (execute_tx tx s).1 <> Ok g.
Proof.
  intros H3 Hnat. pose proof (execute_tx_stops s tx H3) as Hstop. unfold stops in Hstop.
  destruct (validate_v3_transaction_envelope s tx) as [[]|e|] eqn:Henv; [|by rewrite Hstop..].
  destruct (envelope_Ok _ _ Henv) as (Ht & _).
  unfold execute_tx, ensure. erewrite bind_pure by (by apply (require_Ok _ _ ()), bool_decide_eq_true).
  rewrite bind_read, H3. cbv iota. rewrite (bind_check _ _ _ _ Henv). cbn zeta.
  rewrite bind_ledger. unfold pureL at 1. destruct (charge_gas _ _ _); [|done..].
  unfold execute_body. by destruct (tx_body tx).
Qed.

Lemma execute_v3_cases s tx :
  protocol_v3 s = true ->
  (exists ws, v3_effect s tx ws /\ execute_tx tx s = (Ok (gas_cost_for_tx tx), commit ws s)) \/
  ((execute_tx tx s).2 = s /\ forall g, (execute_tx tx s).1 <> Ok g).
Proof.
  intros H3. destruct (is_native_body (tx_body tx)) eqn:Hn.
  - right. by apply execute_v3_native.
  - pose proof (execute_v3 s tx H3 Hn) as Hx.
    destruct (validate_v3_transaction_admission_at _ _ _); [by left|right; by rewrite Hx..].
Qed.

End V3.

(** ** The supply *)

Definition worth (a : Account) : Z := acc_balance a + acc_staked_balance a.
Definition worth_at (m : gmap Address Account) (k : Address) : Z := from_option worth 0 (m !! k).
Definition supply (m : gmap Address Account) : Z := map_fold (fun _ a t => worth a + t) 0 m.

Lemma supply_insert_new m k a : m !! k = None -> supply (<[k := a]> m) = worth a + supply m.
Proof. intros Hk. unfold supply. rewrite map_fold_insert_L; [done|intros; lia|done]. Qed.

Lemma supply_insert m k a : supply (<[k := a]> m) = supply m - worth_at m k + worth a.
Proof.
  unfold worth_at. destruct (m !! k) as [b|] eqn:Hk; cbn.
  - rewrite <- (insert_delete_id m k b Hk) at 2. rewrite <- insert_delete_eq.
    rewrite !supply_insert_new by apply lookup_delete_eq. lia.
  - rewrite supply_insert_new by done. lia.
Qed.

(** What a list of writes to distinct accounts adds. *)
Definition writes_worth (m : gmap Address Account) (ws : list (Address * Account)) : Z :=
  zsum ((fun w => worth w.2 - worth_at m w.1) <$> ws).

Lemma writes_worth_insert m k a ws :
  k ∉ ws.*1 -> writes_worth (<[k := a]> m) ws = writes_worth m ws.
Proof.
  unfold writes_worth. induction ws as [|w ws IH]; intros Hk; [done|].
  cbn in Hk. apply not_elem_of_cons in Hk as [Hw Hk]. cbn. rewrite IH by done.
  unfold worth_at. by rewrite lookup_insert_ne.
Qed.

Lemma supply_replay m ws :
  NoDup ws.*1 -> supply (replay_accounts m ws) = supply m + writes_worth m ws.
Proof.
  revert m. induction ws as [|[k a] ws IH]; intros m Hnd; [cbn; lia|].
  cbn in Hnd. apply NoDup_cons in Hnd as [Hk Hnd].
  change (replay_accounts m ((k, a) :: ws)) with (replay_accounts (<[k := a]> m) ws).
  rewrite IH, writes_worth_insert, supply_insert by done. unfold writes_worth. cbn. lia.
Qed.

Lemma account_or_new_Some k s a : get_account k s = Some a -> account_or_new k s = a.
Proof. unfold get_account, account_or_new. by intros ->. Qed.

Lemma worth_account_or_new k s : worth (account_or_new k s) = worth_at (db_accounts s) k.
Proof. unfold account_or_new, worth_at. by destruct (db_accounts s !! k). Qed.

Lemma worth_at_absent s k : contains_account s k = false -> worth_at (db_accounts s) k = 0.
Proof.
  unfold contains_account, worth_at. intros Hk. dec_hyps.
  destruct (db_accounts s !! k); [|done]. destruct Hk. done.
Qed.

(** Distinct elements of a list, from inequations of the context. *)
Ltac solve_distinct :=
  repeat (apply NoDup_cons; split); [..|apply NoDup_nil; exact I];
  rewrite ?not_elem_of_cons; split_and?; first [apply not_elem_of_nil | congruence].

Section Effects.
Context `{CR : Crypto, TC : TxCodec, HO : HashOrder, WE : WasmEngine, NL : NativeLane}.

Lemma not_reserved k :
  is_reserved_system_account k = false ->
  k <> faucet_pool_address /\ k <> inference_reward_treasury_address /\
  k <> v3_fee_treasury_address /\ is_v3_system_account k = false.
Proof.
  unfold is_reserved_system_account, is_legacy_reserved_system_account. intros Hk. dec_hyps.
  split_and!; [set_solver..|done].
Qed.

Lemma transfer_effect_balanced s tx to amount c sender :
  validate_v3_transfer_admission s tx to amount c = Ok () ->
  get_account (tx_from tx) s = Some sender ->
  NoDup (transfer_writes s tx to amount sender).*1 /\
  writes_worth (db_accounts s) (transfer_writes s tx to amount sender) = 0.
Proof.
  unfold validate_v3_transfer_admission. intros Hv Hs. repeat inv_ok1. dec_hyps. split.
  - cbn. solve_distinct.
  - unfold writes_worth, transfer_writes. cbn [fmap list_fmap zsum foldr fst snd].
    rewrite <- !worth_account_or_new, (account_or_new_Some _ _ _ Hs). unfold worth. cbn. lia.
Qed.

Lemma faucet_effect_balanced s tx recipient amount pool :
  validate_v3_faucet_admission s tx recipient amount = Ok () ->
  get_account faucet_pool_address s = Some pool ->
  NoDup (faucet_writes s recipient amount pool).*1 /\
  writes_worth (db_accounts s) (faucet_writes s recipient amount pool) = 0.
Proof.
  unfold validate_v3_faucet_admission. intros Hv Hs. repeat inv_ok1. dec_hyps.
  destruct (not_reserved recipient) as (Hp & _); [done|]. split.
  - unfold faucet_writes. cbn [fmap list_fmap fst]. solve_distinct.
  - unfold writes_worth, faucet_writes. cbn [fmap list_fmap zsum foldr fst snd].
    rewrite (worth_at_absent s (v3_faucet_marker_address _)) by done.
    rewrite <- !worth_account_or_new, (account_or_new_Some _ _ _ Hs). unfold worth. cbn. lia.
Qed.
(** A counter of the budget holds no funds before or after. *)
Lemma budget_counter_worth s addr code limit label a :
  next_community_reward_budget_counter s addr code limit label = Ok a ->
  worth a = 0 /\ worth_at (db_accounts s) addr = 0 /\
  acc_nonce a = acc_nonce (account_or_new addr s) + 1 /\ acc_nonce a <= limit /\ acc_balance a = 0.
Proof.
  unfold next_community_reward_budget_counter. intros Hc. repeat inv_ok1. subst.
  match goal with Hi : (if ?g then _ else _) = Ok _ |- _ => destruct g end;
    repeat inv_ok1; dec_hyps; split_checked; subst;
    rewrite <- worth_account_or_new; unfold worth; cbn; lia.
Qed.

Definition budget_addresses (b : CommunityInferenceRewardBody) (height : Z) : list Address :=
  let epoch := height / V3_COMMUNITY_REWARD_EPOCH_BLOCKS in
  [community_reward_block_budget_address height; community_reward_epoch_budget_address epoch;
   community_reward_worker_budget_address epoch (cr_worker b);
   community_reward_coordinator_budget_address epoch (cr_coordinator b)].

Definition budget_limits : list Z :=
  [V3_COMMUNITY_REWARD_MAX_PER_BLOCK; V3_COMMUNITY_REWARD_MAX_PER_EPOCH;
   V3_COMMUNITY_REWARD_MAX_PER_WORKER_EPOCH; V3_COMMUNITY_REWARD_MAX_PER_COORDINATOR_EPOCH].

(** The step of one counter. *)
Definition counter_step (s : StateDB) (w : Address * Account) (limit : Z) : Prop :=
  worth w.2 = 0 /\ worth_at (db_accounts s) w.1 = 0 /\
  acc_nonce w.2 = acc_nonce (account_or_new w.1 s) + 1 /\ acc_nonce w.2 <= limit /\
  acc_balance w.2 = 0.

Lemma budget_candidates_Ok s b height budget :
  community_reward_budget_candidates_at s b height = Ok budget ->
  budget.*1 = budget_addresses b height /\
  budget_collides b (budget_addresses b height) = false /\
  Forall2 (counter_step s) budget budget_limits.
Proof.
  unfold community_reward_budget_candidates_at. intros Hb. repeat inv_ok1. subst. dec_hyps.
  split_and!; [done|done|].
  repeat constructor; cbn [fst snd]; by eapply budget_counter_worth.
Qed.

Lemma zsum_map_0 {A} (f : A -> Z) l : (forall x, x ∈ l -> f x = 0) -> zsum (f <$> l) = 0.
Proof.
  induction l as [|x l IH]; intros Hf; [done|]. cbn. rewrite Hf, IH by set_solver. done.
Qed.

Lemma existsb_false {A} (f : A -> bool) l :
  existsb f l = false -> forall x, x ∈ l -> f x = false.
Proof.
  intros He x Hx. apply not_true_iff_false. intros Hf.
  assert (existsb f l = true) by (apply List.existsb_exists; exists x; by rewrite <- list_elem_of_In).
  congruence.
Qed.

(** The addresses a reward writes are distinct. *)
Lemma reward_addresses_distinct b job cert probe l :
  v3_reward_markers b = (job, cert, probe) ->
  cr_worker b <> inference_reward_treasury_address ->
  reward_marker_collision b job cert probe = false -> budget_collides b l = false ->
  NoDup ([inference_reward_treasury_address; cr_worker b; job; cert] ++ option_list probe ++ l).
Proof.
  intros Hm Hw. unfold budget_collides, reward_marker_collision. rewrite Hm.
  intros Hcol Hl. apply orb_false_iff in Hl as [Hl Hout]. apply orb_false_iff in Hl as [Hnd _].
  apply negb_false_iff, bool_decide_eq_true in Hnd.
  assert (forall x, x ∈ l -> x ∉ [inference_reward_treasury_address; cr_worker b; job; cert] /\
                             probe <> Some x) as Hfresh.
  { intros x Hx. apply (existsb_false _ _ Hout) in Hx. dec_hyps.
    rewrite !not_elem_of_cons. split_and!; first [apply not_elem_of_nil | done]. }
  clear Hout. apply NoDup_app. split_and!.
  - dec_hyps. solve_distinct.
  - intros x Hx [Hp|Hp]%elem_of_app; [|by apply Hfresh in Hp as [? _]].
    destruct probe; [|by apply not_elem_of_nil in Hp]. dec_hyps.
    apply list_elem_of_singleton in Hp. rewrite !elem_of_cons in Hx.
    destruct Hx as [Hx|[Hx|[Hx|[Hx|Hx%not_elem_of_nil]]]]; congruence.
  - apply NoDup_app. split_and!; [destruct probe; [apply NoDup_singleton|apply NoDup_nil_2]| |done].
    intros x Hx Hp. destruct probe; [|by apply not_elem_of_nil in Hx].
    apply list_elem_of_singleton in Hx as ->. by apply Hfresh in Hp as [_ ?].
Qed.

Lemma reward_funds_Ok s b worker treasury :
  reward_funds s b = Ok (worker, treasury) ->
  get_account inference_reward_treasury_address s = Some treasury /\
  worker = (account_or_new (cr_worker b) s)
             <| acc_balance := acc_balance (account_or_new (cr_worker b) s) +
                               INFERENCE_ATTESTATION_REWARD |>.
Proof.
  unfold reward_funds. intros Hf. repeat inv_ok1. split_checked. by simplify_eq.
Qed.

(** What the admission of a reward has checked about addresses. *)
Lemma reward_admission_addresses s tx b height job cert probe :
  v3_reward_markers b = (job, cert, probe) ->
  validate_community_reward_admission s tx b height = Ok () ->
  cr_worker b <> inference_reward_treasury_address /\
  reward_marker_collision b job cert probe = false /\
  contains_account s job = false /\ contains_account s cert = false /\
  (forall m, probe = Some m -> contains_account s m = false).
Proof.
  intros Hm. unfold validate_community_reward_admission. rewrite Hm. intros Hv.
  repeat inv_ok1.
  match goal with Hu : reward_unpaid _ _ _ _ = Ok _ |- _ => unfold reward_unpaid in Hu end.
  repeat inv_ok1. dec_hyps. split_and!; [done..|]. by intros m ->.
Qed.

Lemma reward_effect_balanced s tx b worker treasury budget :
  validate_community_reward_admission s tx b (db_height s) = Ok () ->
  reward_funds s b = Ok (worker, treasury) ->
  community_reward_budget_candidates_at s b (db_height s) = Ok budget ->
  NoDup (reward_effect_writes b worker treasury budget).*1 /\
  writes_worth (db_accounts s) (reward_effect_writes b worker treasury budget) = 0.
Proof.
  intros Hv [Ht ->]%reward_funds_Ok (Hkeys & Hcol & Hsteps)%budget_candidates_Ok.
  unfold reward_effect_writes. destruct (v3_reward_markers b) as [[job cert] probe] eqn:Hm.
  destruct (reward_admission_addresses _ _ _ _ _ _ _ Hm Hv) as (Hw & Hmc & Hj & Hc & Hp). split.
  - rewrite !fmap_app, Hkeys.
    replace (_ <$> match probe with Some _ => _ | None => _ end) with (option_list probe) by (by destruct probe).
    by apply (reward_addresses_distinct b job cert probe).
  - unfold writes_worth. rewrite !fmap_app, !zsum_app.
    assert (zsum ((fun w => worth w.2 - worth_at (db_accounts s) w.1) <$> budget) = 0) as ->.
    { apply zsum_map_0. intros w Hin. apply list_elem_of_lookup in Hin as [i Hi].
      destruct (Forall2_lookup_l _ _ _ _ _ Hsteps Hi) as (? & _ & ? & ? & _). lia. }
    assert (zsum ((fun w => worth w.2 - worth_at (db_accounts s) w.1) <$>
              match probe with Some m => [(m, marker_account m (cr_coordinator b) (cr_job_id b))]
                          | None => [] end) = 0) as ->.
    { destruct probe as [m|]; [|done]. cbn. by rewrite (worth_at_absent s m) by auto. }
    cbn [fmap list_fmap zsum foldr fst snd]. rewrite (worth_at_absent s job), (worth_at_absent s cert) by done.
    rewrite <- !worth_account_or_new, (account_or_new_Some _ _ _ Ht). unfold worth. cbn. lia.
Qed.

Lemma effect_balanced s tx ws :
  v3_effect s tx ws -> NoDup ws.*1 /\ writes_worth (db_accounts s) ws = 0.
Proof.
  destruct 1; [by eapply transfer_effect_balanced|by eapply faucet_effect_balanced|
               by eapply reward_effect_balanced].
Qed.

End Effects.
