(* ===== verification/Bonds.v ===== *)
(** * Attestation bonds (crates/arc-state/src/lib.rs)

    What the sweep at the end of a block does: the queue is drained in the order of the
    release heights, at most [MAX_BOND_RELEASES_PER_BLOCK] escrows at a time, and an open
    escrow that is due is emptied into the account of its attester. *)

From S2P Require Import Prelude Crypto Merkle Validators Blocks Ledger Tier1 Contracts Executor.
From S2P Require Import LedgerV3.

(** ** Updates as state functions *)

Definition write_account (k : Address) (a : Account) (s : StateDB) : StateDB :=
  s <| db_accounts := <[k := a]> (db_accounts s) |>
    <| db_wal := if db_wal_active s then db_wal s ++ [mkWalEntry (SetAccount k a) (db_height s)] else db_wal s |>.

Definition marked (keys : list Address) (s : StateDB) : StateDB :=
  s <| db_dirty_accounts := list_to_set keys ∪ db_dirty_accounts s |>.

Lemma store_account_run k a s : store_account k a s = (Ok (), write_account k a s).
Proof.
  unfold store_account, insert_account, wal_append, append_op. rewrite bind_modify. unfold modifyL, write_account.
  destruct s as [? ? ? ? ? wal]. cbn. by destruct wal.
Qed.

Lemma update_account_run k f s :
  update_account k f s = (Ok (), write_account k (f (account_or_new k s)) s).
Proof.
  unfold update_account. rewrite bind_ledger. unfold get_or_create_account. cbv beta iota zeta.
  rewrite store_account_run. unfold write_account. destruct s. cbn. by rewrite insert_insert_eq.
Qed.

Definition cleared (a : Account) : Account := a <| acc_balance := 0 |> <| acc_storage_root := 0 |>.

(** The refund of the escrow [e] at [key]. *)
Definition pay_attester (e : Account) (s : StateDB) : StateDB :=
  write_account (acc_code_hash e)
    (credit_saturating (account_or_new (acc_code_hash e) s) (acc_balance e)) s.

Definition refunded (key : Address) (e : Account) (s : StateDB) : StateDB :=
  let s1 := marked [acc_code_hash e] (pay_attester e s) in
  marked [key] (write_account key (cleared (account_or_new key s1)) s1).

Definition requeued (key : Address) (e : Account) (s : StateDB) : StateDB :=
  s <| db_pending_bond_releases := queue_insert (acc_nonce e) key (db_pending_bond_releases s) |>.

Lemma release_bond_run h key s :
  release_bond h key s =
    match get_account key s with
    | Some e => if open_escrow e
                then if bool_decide (h < acc_nonce e) then (Ok false, requeued key e s)
                     else (Ok true, refunded key e s)
                else (Ok false, s)
    | None => (Ok false, s)
    end.
Proof.
  unfold release_bond. rewrite bind_read. destruct (get_account key s) as [e|]; [|done].
  unfold open_escrow. destruct (bool_decide (acc_balance e = 0)); [done|].
  destruct (has_attest_magic _); [|done]. destruct (bool_decide (attest_status _ = _)); [|done].
  cbn [negb orb andb]. case_bool_decide; [done|].
  rewrite bind_ledger, update_account_run. rewrite bind_ledger. unfold mark_dirty at 1, modifyL at 1.
  rewrite bind_ledger, update_account_run. done.
Qed.

Lemma release_bond_Ok h key s : exists b s', release_bond h key s = (Ok b, s').
Proof. rewrite release_bond_run. repeat case_match; eauto. Qed.

(** A preorder that the queue and the refunds respect relates the states around a sweep. *)
Section Sweep.
Context (h : Z) (R : StateDB -> StateDB -> Prop).
Context (R_refl : forall s, R s s) (R_trans : forall s1 s2 s3, R s1 s2 -> R s2 s3 -> R s1 s3).
Context (R_queue : forall s q, R s (s <| db_pending_bond_releases := q |>)).
Context (R_refund : forall s key e, get_account key s = Some e -> open_escrow e = true ->
           acc_nonce e <= h -> R s (refunded key e s)).

Lemma release_bonds_rel due s : exists n, (release_bonds h due s).1 = Ok n /\ R s (release_bonds h due s).2.
Proof.
  revert s. induction due as [|key due IH]; intros s; cbn [release_bonds]; [by exists 0%nat|].
  rewrite bind_ledger, release_bond_run.
  assert (exists b s', match get_account key s with
    | Some e => if open_escrow e
                then if bool_decide (h < acc_nonce e) then (Ok false, requeued key e s)
                     else (Ok true, refunded key e s)
                else (Ok false, s)
    | None => (Ok false, s) end = (Ok b, s') /\ R s s') as (b & s' & -> & Hs').
  { destruct (get_account key s) as [e|] eqn:Hk; [|by eexists _, _].
    destruct (open_escrow e) eqn:Ho; [|by eexists _, _].
    case_bool_decide; (eexists _, _; split; [done|]); [apply R_queue|]. apply R_refund; [done..|lia]. }
  destruct (IH s') as (n & Hn & Hr). rewrite bind_ledger.
  destruct (release_bonds h due s') as [r s2]. cbn in *. subst r. eexists. split; [done|]. by eapply R_trans.
Qed.

Lemma sweep_rel s :
  exists n, (sweep_matured_bond_releases h s).1 = Ok n /\ R s (sweep_matured_bond_releases h s).2.
Proof.
  unfold sweep_matured_bond_releases. destruct (drain_due _ _ _) as [due q].
  destruct (release_bonds_rel due (s <| db_pending_bond_releases := q |>)) as (n & Hn & Hr).
  exists n. split; [done|]. eapply R_trans; [apply (R_queue s q)|done].
Qed.
End Sweep.

(** ** The drain takes the earliest entries that are due *)

Definition entries (q : list (Z * list Address)) : list (Z * Address) :=
  q ≫= (fun e => (fun a => (e.1, a)) <$> e.2).

Definition due_entries (h : Z) (q : list (Z * list Address)) : list (Z * Address) :=
  filter (fun e => e.1 <= h) (entries q).

Lemma entries_cons k b q : entries ((k, b) :: q) = ((fun a => (k, a)) <$> b) ++ entries q.
Proof. done. Qed.

Lemma due_entries_late h k b q :
  h < k -> StronglySorted Z.lt (((k, b) :: q).*1) -> due_entries h ((k, b) :: q) = [].
Proof.
  intros Hk Hs. unfold due_entries. apply filter_none. cbn in Hs. apply StronglySorted_inv in Hs as [_ Hs].
  intros [k' a] Hin. cbn. rewrite entries_cons, elem_of_app in Hin. destruct Hin as [Hin|Hin].
  - apply list_elem_of_fmap in Hin as (? & [= -> _] & _). lia.
  - unfold entries in Hin. apply list_elem_of_bind in Hin as ([k2 b2] & Hin & Hin2).
    apply list_elem_of_fmap in Hin as (? & [= -> _] & _). rewrite Forall_forall in Hs.
    assert (k < k2); [|lia]. apply Hs. apply list_elem_of_fmap. by exists (k2, b2).
Qed.

Lemma due_entries_early h k b q :
  k <= h -> due_entries h ((k, b) :: q) = ((fun a => (k, a)) <$> b) ++ due_entries h q.
Proof.
  intros Hk. unfold due_entries. rewrite entries_cons, filter_app. f_equal.
  induction b as [|x b IH]; [done|]. by rewrite fmap_cons, filter_cons_True, IH by done.
Qed.

Lemma drain_due_spec room h q :
  StronglySorted Z.lt q.*1 ->
  (drain_due room h q).1 = (take room (due_entries h q)).*2 /\
  entries q = take room (due_entries h q) ++ entries (drain_due room h q).2.
Proof.
  revert room. induction q as [|[k b] q IH]; intros room Hs; [by destruct room|].
  cbn [drain_due]. destruct (bool_decide (h < k)) eqn:Hk.
  { dec_hyps. rewrite due_entries_late by done. by rewrite take_nil. }
  dec_hyps. cbn [orb]. case_bool_decide as Hroom; [by subst|].
  rewrite due_entries_early by lia. pose proof (StronglySorted_inv Hs) as [Hs' _].
  destruct (IH (room - Nat.min room (length b))%nat Hs') as [Hdue Hq]. clear IH.
  set (n := Nat.min room (length b)) in *. rewrite take_app, length_fmap.
  replace (room - length b)%nat with (room - n)%nat by lia.
  assert (take room ((fun a => (k, a)) <$> b) = (fun a => (k, a)) <$> take n b) as ->.
  { rewrite <- fmap_take. f_equal. unfold n. destruct (decide (room <= length b)%nat).
    - by rewrite Nat.min_l by lia.
    - by rewrite Nat.min_r, !take_ge by lia. }
  cbn [fst snd]. split.
  - rewrite fmap_app, <- list_fmap_compose. cbn. rewrite Hdue. by rewrite list_fmap_id.
  - rewrite entries_cons. rewrite <- (take_drop n b) at 1. rewrite fmap_app, <- !app_assoc. f_equal.
    case_bool_decide as Hd.
    + rewrite Hd. cbn. exact Hq.
    + destruct (decide (n = length b)) as [->|Hn]; [by rewrite drop_all in Hd|].
      assert (room - n = 0)%nat as Hr0 by lia. rewrite Hr0, take_0 in *. cbn [app] in *.
      by rewrite entries_cons, <- Hq.
Qed.

(** ** What a sweep pays *)

Definition balance_of (s : StateDB) (k : Address) : Z := acc_balance (account_or_new k s).

(** The escrow at [key], when a sweep at [h] refunds it. *)
Definition refundable (h : Z) (s : StateDB) (key : Address) : option Account :=
  e ← get_account key s;
  if open_escrow e && bool_decide (acc_nonce e <= h) then Some e else None.

(** The bonds that the escrows at [keys] return to [a]. *)
Definition payout (h : Z) (s : StateDB) (keys : list Address) (a : Address) : Z :=
  zsum ((fun key => match refundable h s key with
                    | Some e => if bool_decide (acc_code_hash e = a) then acc_balance e else 0
                    | None => 0
                    end) <$> keys).

Lemma refundable_Some h s key e :
  refundable h s key = Some e <->
  get_account key s = Some e /\ open_escrow e = true /\ acc_nonce e <= h.
Proof.
  unfold refundable. destruct (get_account key s) as [e'|]; cbn.
  2: { split; [done|by intros (? & _)]. }
  destruct (open_escrow e') eqn:Ho; cbn; [case_bool_decide|];
    (split; [intros [= <-]|intros ([= <-] & ? & ?)]); done || congruence.
Qed.

Lemma get_account_write k a s k' :
  get_account k' (write_account k a s) = if bool_decide (k = k') then Some a else get_account k' s.
Proof.
  unfold get_account, write_account. cbn. case_bool_decide as Hk; [subst; apply lookup_insert_eq|].
  by apply lookup_insert_ne.
Qed.

Lemma get_account_refunded key e s k :
  get_account key s = Some e -> acc_code_hash e <> key ->
  get_account k (refunded key e s) =
    if bool_decide (k = key) then Some (cleared e)
    else if bool_decide (k = acc_code_hash e)
    then Some (credit_saturating (account_or_new k s) (acc_balance e)) else get_account k s.
Proof.
  intros Hk Ha. unfold refunded, pay_attester.
  change (get_account k (marked ?l ?t)) with (get_account k t). rewrite get_account_write.
  change (account_or_new key (marked ?l ?t)) with (account_or_new key t).
  change (get_account k (marked ?l ?t)) with (get_account k t). rewrite get_account_write.
  rewrite (bool_decide_ext (key = k) (k = key)) by done. case_bool_decide as H1.
  - do 2 f_equal. unfold account_or_new. change (db_accounts ?t !! ?x) with (get_account x t).
    by rewrite get_account_write, bool_decide_false, Hk by done.
  - rewrite (bool_decide_ext (acc_code_hash e = k) (k = acc_code_hash e)) by done.
    case_bool_decide; by subst.
Qed.

(** The escrows are distinct and none of them is an attester of another. *)
Definition separate (h : Z) (s : StateDB) (keys : list Address) : Prop :=
  NoDup keys /\ forall key e, key ∈ keys -> refundable h s key = Some e -> acc_code_hash e ∉ keys.

Lemma refundable_kept h s s' (keys : list Address) key :
  (forall k, k ∈ keys -> get_account k s' = get_account k s) -> key ∈ keys ->
  refundable h s' key = refundable h s key.
Proof. intros Hs Hk. unfold refundable. by rewrite Hs. Qed.

Lemma separate_kept h s s' keys :
  (forall k, k ∈ keys -> get_account k s' = get_account k s) -> separate h s keys ->
  separate h s' keys.
Proof.
  intros Hs [Hnd Hsep]. split; [done|]. intros key e Hk. rewrite (refundable_kept h s s' keys) by done.
  by apply Hsep.
Qed.

Lemma payout_kept h s s' keys a :
  (forall k, k ∈ keys -> get_account k s' = get_account k s) -> payout h s' keys a = payout h s keys a.
Proof.
  intros Hs. unfold payout. f_equal. apply list_fmap_ext. intros i key Hi.
  apply list_elem_of_lookup_2 in Hi. by rewrite (refundable_kept h s s' keys).
Qed.

Lemma separate_tail h s key keys : separate h s (key :: keys) -> separate h s keys.
Proof.
  intros [Hnd Hsep]. apply NoDup_cons in Hnd as [_ Hnd]. split; [done|].
  intros k e Hk He. specialize (Hsep k e (list_elem_of_further _ _ _ Hk) He). set_solver.
Qed.

Definition balances_ok (s : StateDB) : Prop :=
  forall k e, get_account k s = Some e -> 0 <= acc_balance e <= u64_max.

Lemma balances_ok_new s k : balances_ok s -> 0 <= balance_of s k <= u64_max.
Proof.
  intros Hb. unfold balance_of, account_or_new. destruct (db_accounts s !! k) as [e|] eqn:He; [by eapply Hb|].
  cbn. unfold u64_max. lia.
Qed.

Lemma payout_nonneg h s keys a : balances_ok s -> 0 <= payout h s keys a.
Proof.
  intros Hb. unfold payout. induction keys as [|key keys IH]; cbn; [done|].
  destruct (refundable h s key) as [e|] eqn:He; [|lia]. apply refundable_Some in He as (He & _).
  apply Hb in He. case_bool_decide; lia.
Qed.

Lemma balances_ok_refunded h s key e :
  balances_ok s -> refundable h s key = Some e -> acc_code_hash e <> key ->
  balances_ok (refunded key e s).
Proof.
  intros Hb (Hk & _)%refundable_Some Ha k e'. rewrite get_account_refunded by done.
  case_bool_decide; [intros [= <-]; cbn; unfold u64_max; lia|].
  case_bool_decide; [|apply Hb]. intros [= <-]. cbn. pose proof (balances_ok_new s k Hb) as Hr.
  unfold balance_of in Hr. apply Hb in Hk. unfold saturating_add, u64_max in *. lia.
Qed.

Lemma release_bonds_cons h key due s :
  (release_bonds h (key :: due) s).2 = (release_bonds h due (release_bond h key s).2).2.
Proof.
  destruct (release_bond_Ok h key s) as (r & s1 & Hr). rewrite Hr. cbn [release_bonds snd].
  rewrite bind_ledger, Hr, bind_ledger. by destruct (release_bonds h due s1) as [[]].
Qed.

Lemma balance_of_get s s' a : get_account a s' = get_account a s -> balance_of s' a = balance_of s a.
Proof. unfold get_account, balance_of, account_or_new. by intros ->. Qed.

Lemma payout_cons h s key due a :
  payout h s (key :: due) a =
    match refundable h s key with
    | Some e => if bool_decide (acc_code_hash e = a) then acc_balance e else 0
    | None => 0
    end + payout h s due a.
Proof. done. Qed.

Lemma balance_of_refunded key e s a :
  get_account key s = Some e -> acc_code_hash e <> key -> a <> key ->
  balance_of (refunded key e s) a =
    if bool_decide (acc_code_hash e = a) then saturating_add (balance_of s a) (acc_balance e)
    else balance_of s a.
Proof.
  intros Hk Ha Hne. unfold balance_of at 1, account_or_new.
  change (db_accounts ?t !! ?x) with (get_account x t). rewrite get_account_refunded by done.
  rewrite (bool_decide_false (a = key)) by done.
  rewrite (bool_decide_ext (a = acc_code_hash e) (acc_code_hash e = a)) by done.
  case_bool_decide; [done|]. by apply balance_of_get.
Qed.

(** The escrows that are due are emptied, every other account is credited with the bonds
    that it is owed, and nothing else changes. *)
Lemma release_bonds_pay h due s :
  separate h s due -> balances_ok s -> let s' := (release_bonds h due s).2 in
  (forall k, k ∈ due -> get_account k s' =
     match refundable h s k with Some e => Some (cleared e) | None => get_account k s end) /\
  (forall a, a ∉ due -> balance_of s' a = Z.min (balance_of s a + payout h s due a) u64_max) /\
  (forall a, a ∉ due -> (forall k e, k ∈ due -> refundable h s k = Some e -> acc_code_hash e <> a) ->
     get_account a s' = get_account a s).
Proof.
  revert s. induction due as [|key due IH]; intros s Hsep Hb s'.
  { split_and!; [by intros k Hk%not_elem_of_nil| |done]. intros a _. unfold payout. cbn.
    pose proof (balances_ok_new s a Hb). lia. }
  subst s'. rewrite release_bonds_cons. pose proof Hsep as [Hnd Hatt].
  apply NoDup_cons in Hnd as [Hkey Hnd]. apply separate_tail in Hsep as Hsep'.
  rewrite release_bond_run. destruct (refundable h s key) as [e|] eqn:He.
  - assert (acc_code_hash e ∉ key :: due) as [Hne Ha]%not_elem_of_cons by (apply (Hatt key); [by left|done]).
    pose proof He as (Hk & Ho & Hn)%refundable_Some. rewrite Hk, Ho, bool_decide_false by lia. cbn [snd].
    assert (forall k, k ∈ due -> get_account k (refunded key e s) = get_account k s) as Hkept.
    { intros k Hin. rewrite get_account_refunded by done. rewrite !bool_decide_false; set_solver. }
    destruct (IH (refunded key e s)) as (Hdue & Hother & Hrest);
      [by eapply separate_kept|by eapply balances_ok_refunded|]. split_and!.
    + intros k [->|Hin]%elem_of_cons.
      * rewrite He, Hrest; [by rewrite get_account_refunded, bool_decide_true by done|done|].
        intros k e' Hin. rewrite (refundable_kept _ _ _ _ _ Hkept) by done. intros He' Heq.
        assert (acc_code_hash e' ∉ key :: due) by (apply (Hatt k); [by right|done]). set_solver.
      * rewrite Hdue by done. by rewrite (refundable_kept _ _ _ _ _ Hkept), Hkept by done.
    + intros a [Hak Hin]%not_elem_of_cons. rewrite Hother by done.
      rewrite (payout_kept _ _ _ _ _ Hkept), payout_cons, He, balance_of_refunded by done.
      pose proof (payout_nonneg h s due a Hb). case_bool_decide; [unfold saturating_add|]; lia.
    + intros a [Hak Hin]%not_elem_of_cons Hno. rewrite Hrest; [|done|].
      * rewrite get_account_refunded by done. rewrite !bool_decide_false; [done|..|done].
        intros ->. apply (Hno key e); [by left|done|done].
      * intros k e' Hin'. rewrite (refundable_kept _ _ _ _ _ Hkept) by done. apply Hno. by right.
  - match goal with |- context [release_bonds h due ?t] => set (s1 := t) end.
    assert (forall k, get_account k s1 = get_account k s) as Hkept.
    { intros k. unfold s1. unfold refundable in He. destruct (get_account key s) as [a|]; [|done].
      cbn in He. destruct (open_escrow a); [|done]. destruct (decide (h < acc_nonce a)).
      - by rewrite bool_decide_true.
      - by rewrite bool_decide_true in He by lia. }
    destruct (IH s1) as (Hdue & Hother & Hrest);
      [eapply separate_kept; [|done]; auto|intros k e'; rewrite Hkept; apply Hb|]. split_and!.
    + intros k [->|Hin]%elem_of_cons; [rewrite He, <- (Hkept key); apply Hrest; [done|]|].
      * intros k e'. unfold refundable. rewrite Hkept. fold (refundable h s k). intros Hin He' Heq.
        assert (acc_code_hash e' ∉ key :: due) by (apply (Hatt k); [by right|done]). set_solver.
      * rewrite Hdue by done. unfold refundable. by rewrite Hkept.
    + intros a [Hak Hin]%not_elem_of_cons. rewrite Hother by done. rewrite payout_cons, He.
      rewrite (payout_kept h s s1) by auto. by rewrite (balance_of_get s s1).
    + intros a [Hak Hin]%not_elem_of_cons Hno. rewrite Hrest, Hkept; [done|done|].
      intros k e' Hin'. unfold refundable. rewrite Hkept. fold (refundable h s k). apply Hno. by right.
Qed.

Lemma account_or_new_write k a k' s :
  account_or_new k' (write_account k a s) = if bool_decide (k = k') then a else account_or_new k' s.
Proof.
  unfold account_or_new. change (db_accounts ?t !! ?x) with (get_account x t).
  rewrite get_account_write. by case_bool_decide.
Qed.

Lemma write_supply k a s :
  supply (db_accounts (write_account k a s)) = supply (db_accounts s) - worth (account_or_new k s) + worth a.
Proof. unfold write_account. cbn. by rewrite supply_insert, worth_account_or_new. Qed.

(** Both conditions, evaluated on a state. *)
Definition state_check (s : StateDB) : bool :=
  forallb (fun p => bool_decide (0 <= acc_balance p.2 <= u64_max) && bool_decide (0 <= acc_nonce p.2))
    (map_to_list (db_accounts s)).

Lemma state_checked s : state_check s = true ->
  forall k e, get_account k s = Some e -> 0 <= acc_balance e <= u64_max /\ 0 <= acc_nonce e.
Proof.
  unfold state_check. rewrite forallb_forall. intros Hs k e He.
  assert ((k, e) ∈ map_to_list (db_accounts s)) as Hin by (by apply elem_of_map_to_list).
  specialize (Hs (k, e) (proj1 (list_elem_of_In _ _) Hin)). dec_hyps. done.
Qed.

Lemma balances_checked s : state_check s = true -> balances_ok s.
Proof. intros Hs k e He. by apply (state_checked s Hs k e). Qed.
