(* ===== verification/Tier1Laws.v ===== *)
(** * Laws of the tier-1 lane (crates/arc-state/src/lib.rs)

    Votes come from distinct members of the committee; a settlement pays out the reward of
    the request and no more, once; a request past its deadline can always be settled; and
    the result of a settlement does not depend on the order in which the tallies are
    iterated while the votes come from one committee. *)

From S2P Require Import Prelude Crypto Merkle Validators Blocks Ledger Tier1 Contracts Executor LedgerDemo.
From S2P Require Import LedgerV3 Bonds.

(** The code of [Vec<(Address, Hash256)>] round-trips. *)
Class VotesCodec `{TxCodec} : Prop :=
  read_votes_bincode l bytes : bincode_votes l = Some bytes -> read_votes bytes = Some l.

(** ** The packed code hash *)

Lemma to_from_le_bytes l : Forall byte l -> to_le_bytes (length l) (from_le_bytes l) = l.
Proof.
  unfold byte. induction 1 as [|b l Hb Hl IH]; [done|]. cbn [length to_le_bytes from_le_bytes].
  rewrite (Z.mul_comm 256), Z.mod_add, Z.div_add, (Z.mod_small b), (Z.div_small b), Z.add_0_l by lia. by rewrite IH.
Qed.

Lemma hash_bytes_of l : length l = 32%nat -> Forall byte l -> hash_to_bytes (hash_of_bytes l) = l.
Proof.
  intros Hlen Hl. unfold hash_to_bytes, to_be_bytes, hash_of_bytes.
  replace 32%nat with (length (reverse l)) by (by rewrite length_reverse).
  rewrite to_from_le_bytes by (by apply Forall_reverse). apply reverse_involutive.
Qed.

Lemma hash_to_bytes_bytes h : Forall byte (hash_to_bytes h).
Proof. unfold hash_to_bytes, to_be_bytes. apply Forall_reverse, to_le_bytes_byte. Qed.

Lemma set_code_status_bytes status code :
  byte status -> hash_to_bytes (set_code_status status code) = status :: drop 1 (hash_to_bytes code).
Proof.
  intros Hs. assert (length (hash_to_bytes code) = 32%nat) as Hlen by apply length_to_be_bytes.
  apply hash_bytes_of; [cbn [length]; rewrite length_drop, Hlen; lia|].
  constructor; [done|]. apply Forall_drop, hash_to_bytes_bytes.
Qed.

Lemma nth_drop_1 (l : list Z) i d : nth i (drop 1 l) d = nth (S i) l d.
Proof. destruct l as [|x l]; [by destruct i|]. by rewrite skipn_cons, skipn_O. Qed.

Lemma code_committee_status status code :
  byte status -> code_committee (set_code_status status code) = code_committee code.
Proof.
  intros Hs. unfold code_committee. rewrite set_code_status_bytes by done. apply (nth_drop_1 _ 8).
Qed.

(** ** Runs of the ledger *)

Lemma bind_run {A B} (m : ledger A) (k : A -> ledger B) s b s' :
  (m ≫= k) s = (Ok b, s') -> exists a s1, m s = (Ok a, s1) /\ k a s1 = (Ok b, s').
Proof. rewrite bind_ledger. destruct (m s) as [[a|e|] s1]; [|done..]. by eexists _, _. Qed.

Lemma check_run {A B} (f : StateDB -> outcome StateError A) (k : A -> ledger B) s b s' :
  (checkL f ≫= k) s = (Ok b, s') -> exists a, f s = Ok a /\ k a s = (Ok b, s').
Proof. rewrite bind_ledger. unfold checkL. destruct (f s); [|done..]. by eexists. Qed.

Lemma ensure_run {B} c what (k : unit -> ledger B) s b s' :
  (ensure c what ≫= k) s = (Ok b, s') -> c = true /\ k () s = (Ok b, s').
Proof. rewrite bind_ledger. unfold ensure, pureL, require. by destruct c. Qed.

Lemma ensure_then {B} c what (k : unit -> ledger B) s : c = true -> (ensure c what ≫= k) s = k () s.
Proof. by intros ->. Qed.

Lemma ensure_state c what s u s' : ensure c what s = (Ok u, s') -> s' = s.
Proof. unfold ensure, pureL. by intros [= _ ->]. Qed.

(** The sender loaded, with its nonce checked. *)
Definition loaded (k : Address) (s : StateDB) : StateDB :=
  s <| db_accounts := <[k := account_or_new k s]> (db_accounts s) |>.

Lemma load_sender_run tx s a s1 :
  load_sender tx s = (Ok a, s1) ->
  a = account_or_new (tx_from tx) s /\ acc_nonce a = tx_nonce tx /\ s1 = loaded (tx_from tx) s.
Proof.
  unfold load_sender. rewrite bind_ledger. unfold get_or_create_account. cbv beta iota zeta.
  rewrite bind_ledger. unfold pureL, require. case_bool_decide; [|done]. by intros [= <- <-].
Qed.

Lemma load_sender_ok tx s :
  acc_nonce (account_or_new (tx_from tx) s) = tx_nonce tx ->
  load_sender tx s = (Ok (account_or_new (tx_from tx) s), loaded (tx_from tx) s).
Proof.
  intros Hn. unfold load_sender. rewrite bind_ledger. unfold get_or_create_account. cbv beta iota zeta.
  rewrite bind_ledger. unfold pureL, require. by rewrite bool_decide_true.
Qed.

Lemma store_loaded k a s : store_account k a (loaded k s) = (Ok (), write_account k a s).
Proof. rewrite store_account_run. unfold write_account, loaded. destruct s. cbn. by rewrite insert_insert_eq. Qed.

Lemma account_or_new_loaded k k' s : account_or_new k' (loaded k s) = account_or_new k' s.
Proof.
  unfold loaded, account_or_new. cbn. destruct (decide (k = k')) as [<-|Hne].
  - by rewrite lookup_insert_eq.
  - by rewrite lookup_insert_ne.
Qed.

(** ** Credits *)

(** A step that adds at most [d] to the supply and lowers no balance. *)
Record pays (d : Z) (s s' : StateDB) : Prop := {
  pays_balances : balances_ok s';
  pays_supply : supply (db_accounts s') <= supply (db_accounts s) + d;
  pays_kept : forall k, balance_of s k <= balance_of s' k;
  pays_staked : forall k,
    acc_staked_balance (account_or_new k s') = acc_staked_balance (account_or_new k s);
}.

Lemma pays_refl s : balances_ok s -> pays 0 s s.
Proof. intros Hs. split; [done|lia|done|done]. Qed.

Lemma pays_trans d1 d2 s1 s2 s3 : pays d1 s1 s2 -> pays d2 s2 s3 -> pays (d1 + d2) s1 s3.
Proof.
  intros [Hb1 Hs1 Hk1 Ht1] [Hb2 Hs2 Hk2 Ht2]. split; [done|lia|intros k; specialize (Hk1 k); specialize (Hk2 k); lia|].
  intros k. by rewrite Ht2, Ht1.
Qed.

Lemma balances_write k a s :
  balances_ok s -> 0 <= acc_balance a <= u64_max -> balances_ok (write_account k a s).
Proof.
  intros Hs Ha k' e. rewrite get_account_write. case_bool_decide; [by intros [= <-]|apply Hs].
Qed.

Lemma pays_credit k x s :
  balances_ok s -> 0 <= x -> pays x s (write_account k (credit_saturating (account_or_new k s) x) s).
Proof.
  intros Hs Hx. pose proof (balances_ok_new s k Hs) as Hk. unfold balance_of in Hk. split.
  - apply balances_write; [done|]. cbn. unfold saturating_add, u64_max in *. lia.
  - rewrite write_supply. unfold worth, saturating_add. cbn. unfold saturating_add. lia.
  - intros k'. unfold balance_of. rewrite account_or_new_write. case_bool_decide as Hd; [subst|done].
    cbn. unfold saturating_add. lia.
  - intros k'. rewrite account_or_new_write. by case_bool_decide; subst.
Qed.

Section Laws.
Context `{CR : Crypto, TC : TxCodec}.

(** Storage is no account. *)
Lemma set_storage_accounts a k v s :
  exists s1, set_storage a k v s = (Ok (), s1) /\ db_accounts s1 = db_accounts s.
Proof.
  unfold set_storage, append_op. rewrite bind_modify. unfold modifyL, write_storage. eexists. split; [done|].
  by case_match.
Qed.

Lemma pays_accounts d s s1 s2 : db_accounts s2 = db_accounts s1 -> pays d s s1 -> pays d s s2.
Proof.
  intros Ha [Hb Hs Hk Ht]. split.
  - intros k e. unfold get_account. rewrite Ha. apply Hb.
  - by rewrite Ha.
  - intros k. unfold balance_of, account_or_new. rewrite Ha. apply Hk.
  - intros k. unfold account_or_new. rewrite Ha. apply Ht.
Qed.

Lemma reward_each_pays l x s :
  balances_ok s -> 0 <= x ->
  exists s1, reward_each l x s = (Ok (), s1) /\ pays (x * Z.of_nat (length l)) s s1.
Proof.
  intros Hs Hx. revert s Hs. induction l as [|v l IH]; intros s Hs; cbn [reward_each].
  { eexists. split; [done|]. rewrite Z.mul_0_r. by apply pays_refl. }
  rewrite bind_ledger, update_account_run. pose proof (pays_credit v x s Hs Hx) as H1.
  destruct (IH _ (pays_balances _ _ _ H1)) as (s2 & Hr & H2). exists s2. split; [done|].
  replace (x * Z.of_nat (length (v :: l))) with (x + x * Z.of_nat (length l)) by (cbn [length]; lia).
  by eapply pays_trans.
Qed.

(** The shares of a reward add up to it, also where the products wrap. *)
Lemma tier1_split_total reward n :
  0 <= reward <= u64_max -> 0 <= n ->
  let '(per_voter, refund, treasury) := tier1_split reward n in
  0 <= per_voter /\ 0 <= refund /\ 0 <= treasury /\ per_voter * n + refund + treasury = reward.
Proof.
  intros Hr Hn. unfold tier1_split.
  assert (forall bps, 0 <= bps -> 0 <= wrapping_mul reward bps / 10000 /\
    10000 * (wrapping_mul reward bps / 10000) <= reward * bps) as Hshare.
  { intros bps Hb. unfold wrapping_mul. pose proof (Z.mod_pos_bound (reward * bps) (u64_max + 1) ltac:(unfold u64_max; lia)).
    pose proof (Z.mod_le (reward * bps) (u64_max + 1) ltac:(nia) ltac:(unfold u64_max; lia)).
    split; [apply Z.div_pos; lia|]. pose proof (Z.mul_div_le ((reward * bps) mod (u64_max + 1)) 10000 ltac:(lia)). lia. }
  unfold TIER1_REWARD_SHARE_VOTERS_BPS, TIER1_REWARD_SHARE_REFUND_BPS, TIER1_REWARD_SHARE_TREASURY_BPS.
  destruct (Hshare 7000) as [V0 V1]; [lia|]. destruct (Hshare 2000) as [R0 R1]; [lia|].
  destruct (Hshare 1000) as [T0 T1]; [lia|].
  set (v := wrapping_mul reward 7000 / 10000) in *. set (r := wrapping_mul reward 2000 / 10000) in *.
  set (t := wrapping_mul reward 1000 / 10000) in *. clearbody v r t. clear Hshare.
  rewrite (wrapping_add_small v r), (wrapping_add_small (v + r) t) by lia.
  set (p := if bool_decide (n = 0) then 0 else v / n).
  assert (0 <= p /\ 0 <= p * n <= v) as [P0 P1].
  { unfold p. case_bool_decide; [lia|]. pose proof (Z.mul_div_le v n ltac:(lia)). pose proof (Z.div_pos v n).
    split; [lia|]. nia. }
  clearbody p. assert (wrapping_mul p n = p * n) as ->.
  { unfold wrapping_mul. apply Z.mod_small. lia. }
  assert (saturating_sub reward (v + r + t) = reward - (v + r + t)) as -> by (unfold saturating_sub; lia).
  assert (saturating_sub v (p * n) = v - p * n) as -> by (unfold saturating_sub; lia).
  rewrite (wrapping_add_small t), (wrapping_add_small _ (v - p * n)) by lia. lia.
Qed.

(** ** Settlement *)

Lemma credit_then {A} k x (m : ledger A) s :
  (_ ← update_account k (fun a => credit_saturating a x); m) s =
  m (write_account k (credit_saturating (account_or_new k s) x) s).
Proof. by rewrite bind_ledger, update_account_run. Qed.

Lemma pay_consensus_pays escrow_addr requester reward votes output s :
  balances_ok s -> 0 <= reward <= u64_max ->
  exists s1, pay_consensus escrow_addr requester reward votes output s = (Ok TIER1_STATUS_FINALIZED, s1) /\
             pays reward s s1.
Proof.
  intros Hs Hr. unfold pay_consensus. set (l := agreeing_voters votes output).
  pose proof (tier1_split_total reward (Z.of_nat (length l)) Hr ltac:(lia)) as Hsplit.
  destruct (tier1_split reward (Z.of_nat (length l))) as [[p r] t]. destruct Hsplit as (Hp & Hrf & Ht & Htotal).
  destruct (reward_each_pays l p s Hs Hp) as (s1 & H1 & P1). rewrite bind_ledger, H1. cbv beta iota.
  rewrite credit_then. pose proof (pays_credit requester r s1 (pays_balances _ _ _ P1) Hrf) as P2.
  set (s2 := write_account requester _ s1) in *. rewrite credit_then.
  pose proof (pays_credit faucet_pool_address t s2 (pays_balances _ _ _ P2) Ht) as P3.
  set (s3 := write_account faucet_pool_address _ s2) in *.
  destruct (set_storage_accounts escrow_addr tier1_final_output_key (hash_to_bytes output) s3) as (s4 & H4 & Ha).
  rewrite bind_ledger, H4. exists s4. split; [done|]. apply (pays_accounts _ _ s3); [done|].
  rewrite <- Htotal, <- Z.add_assoc. eapply pays_trans; [done|]. by eapply pays_trans.
Qed.

Lemma refund_request_pays requester reward s :
  balances_ok s -> 0 <= reward ->
  exists s1, refund_request requester reward s = (Ok TIER1_STATUS_REFUNDED, s1) /\ pays reward s s1.
Proof.
  intros Hs Hr. unfold refund_request, TIER1_ANTI_SPAM_FEE. set (fee := Z.min 1 reward). rewrite credit_then.
  assert (0 <= fee <= reward) as Hf by lia. clearbody fee.
  pose proof (pays_credit requester (reward - fee) s Hs ltac:(lia)) as P1.
  set (s1 := write_account requester _ s) in *. case_bool_decide as Hfee.
  - rewrite credit_then. eexists. split; [done|].
    replace reward with ((reward - fee) + fee) at 1 by lia. eapply pays_trans; [done|].
    apply pays_credit; [apply P1|lia].
  - rewrite bind_ledger. eexists. split; [done|]. replace reward with (reward - fee) at 1 by lia. done.
Qed.

(** The branch of a settlement. *)
Definition settlement (o : HashOrder) (escrow_addr requester : Address) (escrow : Account)
    (votes : list (Address * Hash256)) : ledger Z :=
  let majority := majority_of (hash_order (tally_votes votes)) in
  if bool_decide (min_agreement (code_committee (acc_code_hash escrow)) <= Z.of_nat majority.2)
  then pay_consensus escrow_addr requester (acc_balance escrow) votes majority.1
  else refund_request requester (acc_balance escrow).

Lemma settlement_pays o escrow_addr requester escrow votes s :
  balances_ok s -> 0 <= acc_balance escrow <= u64_max ->
  exists status s1, settlement o escrow_addr requester escrow votes s = (Ok status, s1) /\
                    pays (acc_balance escrow) s s1.
Proof.
  intros Hs He. unfold settlement. case_bool_decide.
  - destruct (pay_consensus_pays escrow_addr requester (acc_balance escrow) votes
      (majority_of (hash_order (tally_votes votes))).1 s Hs He) as (s1 & ? & ?). by eexists _, _.
  - destruct (refund_request_pays requester (acc_balance escrow) s Hs ltac:(lia)) as (s1 & ? & ?). by eexists _, _.
Qed.

(** The states in which a finalization reads the escrow. *)
Definition bumped (tx : Transaction) (s : StateDB) : StateDB :=
  write_account (tx_from tx) (bump_nonce (account_or_new (tx_from tx) s)) s.

Definition opened (tx : Transaction) (request_id : Hash256) (s : StateDB) : StateDB :=
  loaded (tier1_escrow_address request_id) (bumped tx s).

Definition closed (status : Z) (escrow : Account) : Account :=
  escrow <| acc_balance := 0 |> <| acc_code_hash := set_code_status status (acc_code_hash escrow) |>.

(** The conditions of a finalization, on the escrow and the height. *)
Definition eligible (escrow : Account) (votes : list (Address * Hash256)) (now : Z) : bool :=
  bool_decide (saturating_add (acc_nonce escrow) (code_deadline (acc_code_hash escrow)) <= now) ||
  bool_decide (code_committee (acc_code_hash escrow) <= Z.of_nat (length votes)).

Definition finalizable (s : StateDB) (request_id : Hash256) (escrow : Account) : Prop :=
  acc_balance escrow <> 0 /\ status_actionable (code_status (acc_code_hash escrow)) = true /\
  eligible escrow (tier1_votes (tier1_escrow_address request_id) s) (db_height s) = true.

(** A finalization, as one step. *)
Lemma finalize_run (o : HashOrder) tx request_id s u s' :
  let addr := tier1_escrow_address request_id in
  let s1 := opened tx request_id s in
  let escrow := account_or_new addr (bumped tx s) in
  execute_inference_finalize tx request_id s = (Ok u, s') <->
  acc_nonce (account_or_new (tx_from tx) s) = tx_nonce tx /\ finalizable s1 request_id escrow /\
  exists requester status s2, tier1_requester addr s1 = Some requester /\
    settlement o addr requester escrow (tier1_votes addr s1) s1 = (Ok status, s2) /\
    s' = write_account addr (closed status escrow) s2
           <| db_tier1_pending := delete request_id (db_tier1_pending s2) |>.
Proof.
  intros addr s1 escrow. unfold execute_inference_finalize, finalizable, eligible. fold addr. split.
  - intros (sender & t1 & (-> & Hn & ->)%load_sender_run & Hx)%bind_run. split; [done|].
    rewrite bind_ledger, store_loaded in Hx. cbv beta iota in Hx. fold (bumped tx s) in Hx.
    rewrite bind_ledger in Hx. change (get_or_create_account addr (bumped tx s)) with (@Ok StateError _ escrow, s1) in Hx.
    cbv beta iota in Hx. apply ensure_run in Hx as [Hb Hx]. apply ensure_run in Hx as [Ha Hx].
    rewrite !bind_read in Hx. apply ensure_run in Hx as [He Hx]. cbv zeta in Hx.
    apply check_run in Hx as (requester & Hr%ok_or_Ok & Hx). apply bind_run in Hx as (status & s2 & Hs & Hx).
    rewrite bind_ledger, store_account_run in Hx. injection Hx as <- <-. dec_hyps.
    split; [done|]. by exists requester, status, s2.
  - intros (Hn & (Hb & Ha & He) & requester & status & s2 & Hr & Hs & ->).
    rewrite bind_ledger, load_sender_ok, bind_ledger, store_loaded by done. cbv beta iota. fold (bumped tx s).
    rewrite bind_ledger. change (get_or_create_account addr (bumped tx s)) with (@Ok StateError _ escrow, s1).
    cbv beta iota. rewrite ensure_then by (by rewrite bool_decide_false). rewrite ensure_then by done.
    rewrite !bind_read, ensure_then by done. cbv zeta.
    rewrite (bind_check _ _ _ requester) by (by apply ok_or_Ok). fold (settlement o addr requester escrow (tier1_votes addr s1)).
    rewrite bind_ledger, Hs. cbv beta iota. rewrite bind_ledger, store_account_run. by destruct u.
Qed.

Lemma balance_bumped tx s k : balance_of (bumped tx s) k = balance_of s k.
Proof. unfold balance_of, bumped. rewrite account_or_new_write. by case_bool_decide; subst. Qed.

Lemma balances_opened tx request_id s : balances_ok s -> balances_ok (opened tx request_id s).
Proof.
  intros Hs. assert (balances_ok (bumped tx s)) as Hb.
  { apply balances_write; [done|]. apply (balances_ok_new s (tx_from tx) Hs). }
  intros k e. unfold opened, loaded, get_account. cbn.
  destruct (decide (tier1_escrow_address request_id = k)) as [<-|Hne].
  - rewrite lookup_insert_eq. intros [= <-]. apply (balances_ok_new (bumped tx s) _ Hb).
  - rewrite lookup_insert_ne by done. apply Hb.
Qed.

Lemma supply_opened tx request_id s : supply (db_accounts (opened tx request_id s)) = supply (db_accounts s).
Proof.
  set (addr := tier1_escrow_address request_id).
  change (supply (<[addr := account_or_new addr (bumped tx s)]> (db_accounts (bumped tx s))) = supply (db_accounts s)).
  rewrite supply_insert, <- worth_account_or_new. unfold bumped at 1. rewrite write_supply. unfold worth. cbn. lia.
Qed.

Lemma opened_account tx request_id s k : account_or_new k (opened tx request_id s) = account_or_new k (bumped tx s).
Proof. apply account_or_new_loaded. Qed.

(** A settled request leaves an empty escrow, which no finalization accepts. *)
Lemma empty_not_finalizable (o : HashOrder) tx request_id s u s' :
  balance_of s (tier1_escrow_address request_id) = 0 ->
  execute_inference_finalize tx request_id s <> (Ok u, s').
Proof.
  intros Hb (_ & (Hne & _) & _)%finalize_run. apply Hne. change (balance_of (bumped tx s) (tier1_escrow_address request_id) = 0).
  by rewrite balance_bumped.
Qed.

(** C14: a finalization that succeeds pays out no more than the escrow of the request holds,
    by consensus or by refund, empties the escrow and takes the request off the pending
    index; and the request is never settled again: no finalization of it succeeds from the
    state it leaves. *)
Theorem finalize_settles_once (o : HashOrder) tx request_id s s' :
  balances_ok s -> execute_inference_finalize tx request_id s = (Ok (), s') ->
  supply (db_accounts s') <= supply (db_accounts s) /\
  balance_of s' (tier1_escrow_address request_id) = 0 /\
  db_tier1_pending s' !! request_id = None /\
  forall tx' u s'', execute_inference_finalize tx' request_id s' <> (Ok u, s'').
Proof.
  intros Hs (_ & _ & requester & status & s2 & _ & Hset & ->)%finalize_run.
  set (addr := tier1_escrow_address request_id) in *. set (escrow := account_or_new addr (bumped tx s)) in *.
  pose proof (balances_opened tx request_id s Hs) as Hs1.
  assert (escrow = account_or_new addr (opened tx request_id s)) as Hesc by (symmetry; apply opened_account).
  assert (0 <= acc_balance escrow <= u64_max) as He by (rewrite Hesc; by apply balances_ok_new).
  destruct (settlement_pays o addr requester escrow (tier1_votes addr (opened tx request_id s)) _ Hs1 He)
    as (status' & s2' & Hset' & [_ Hsup Hkept Hstk]). rewrite Hset in Hset'. injection Hset' as <- <-.
  set (s' := write_account addr (closed status escrow) s2). specialize (Hkept addr). specialize (Hstk addr).
  assert (balance_of s' addr = 0) as H0.
  { unfold balance_of, s'. by rewrite account_or_new_write, bool_decide_true. }
  split_and!; [|exact H0|apply lookup_delete_eq|].
  - change (supply (db_accounts s') <= supply (db_accounts s)). unfold s'. rewrite write_supply.
    rewrite supply_opened in Hsup. unfold balance_of in Hkept. rewrite <- Hesc in Hkept, Hstk.
    unfold worth, closed. cbn. lia.
  - intros tx' u s''. by apply empty_not_finalizable.
Qed.

(** C24: a request never gets stuck: once its deadline has passed, an open escrow with a
    reward and a recorded requester is settled by a finalization of any other account with
    the right nonce, whatever the votes. *)
Theorem expired_request_settles (o : HashOrder) tx request_id s escrow requester :
  balances_ok s -> tx_from tx <> tier1_escrow_address request_id ->
  acc_nonce (account_or_new (tx_from tx) s) = tx_nonce tx ->
  get_account (tier1_escrow_address request_id) s = Some escrow ->
  acc_balance escrow <> 0 -> status_actionable (code_status (acc_code_hash escrow)) = true ->
  saturating_add (acc_nonce escrow) (code_deadline (acc_code_hash escrow)) <= db_height s ->
  tier1_requester (tier1_escrow_address request_id) s = Some requester ->
  exists s', execute_inference_finalize tx request_id s = (Ok (), s').
Proof.
  intros Hs Hne Hn Hget Hb Ha Hd Hr. set (addr := tier1_escrow_address request_id) in *.
  pose proof (balances_opened tx request_id s Hs) as Hs1.
  assert (account_or_new addr (bumped tx s) = escrow) as Hesc.
  { unfold bumped. rewrite account_or_new_write, bool_decide_false by done. by apply account_or_new_Some. }
  assert (0 <= acc_balance escrow <= u64_max) as He by (by eapply Hs).
  destruct (settlement_pays o addr requester escrow (tier1_votes addr (opened tx request_id s)) _ Hs1 He)
    as (status & s2 & Hset & _).
  eexists. apply finalize_run. fold addr. rewrite Hesc. split; [done|]. split.
  - split_and!; [done|done|]. unfold eligible. apply orb_true_iff. left. by apply bool_decide_eq_true.
  - by exists requester, status, s2.
Qed.

(** ** The order of the tallies *)

Definition votes_for (votes : list (Address * Hash256)) (output : Hash256) : nat :=
  length (filter (fun v => v.2 = output) votes).

Lemma tally_lookup votes output :
  default 0%nat (tally_votes votes !! output) = votes_for votes output.
Proof.
  unfold tally_votes, votes_for. induction votes as [|v votes IH] using rev_ind; [done|].
  rewrite foldl_app, filter_app, length_app. cbn [foldl]. destruct (decide (v.2 = output)) as [<-|Hne].
  - rewrite lookup_insert_eq, filter_cons_True by done. cbn. rewrite <- IH. lia.
  - rewrite lookup_insert_ne, filter_cons_False by done. cbn. lia.
Qed.

Lemma votes_for_two votes o1 o2 :
  o1 <> o2 -> (votes_for votes o1 + votes_for votes o2 <= length votes)%nat.
Proof.
  intros Hne. unfold votes_for. induction votes as [|v votes IH]; [done|]. rewrite !filter_cons.
  repeat case_decide; cbn; [congruence|lia..].
Qed.

(** The greatest tally. *)
Lemma majority_of_max entries :
  (forall e, e ∈ entries -> (e.2 <= (majority_of entries).2)%nat) /\
  (entries <> [] -> majority_of entries ∈ entries).
Proof.
  unfold majority_of. induction entries as [|e entries [Hmax Hin]] using rev_ind.
  { split; [by intros e ?%not_elem_of_nil|done]. }
  rewrite foldl_app. cbn [foldl]. destruct (foldl _ None entries) as [b|] eqn:Hf.
  - cbn [default from_option] in *. assert (entries <> []) as Hne by (by intros ->). specialize (Hin Hne).
    case_bool_decide as Hle; cbn; (split; [|intros _; apply elem_of_app; by auto using list_elem_of_here]);
      intros e' [He| ->%list_elem_of_singleton]%elem_of_app; try lia; specialize (Hmax _ He); cbn in Hmax; lia.
  - assert (entries = []) as ->.
    { destruct entries as [|x entries _] using rev_ind; [done|]. rewrite foldl_app in Hf. cbn in Hf.
      by destruct (foldl _ None entries); [case_bool_decide|]. }
    cbn. split; [by intros e' ->%list_elem_of_singleton|set_solver].
Qed.

(** With fewer votes than twice the agreement needed, an output that reaches it is alone. *)
Lemma majority_unique (o1 o2 : HashOrder) votes n :
  0 < n -> Z.of_nat (length votes) < 2 * n ->
  let m1 := majority_of (@hash_order o1 (tally_votes votes)) in
  let m2 := majority_of (@hash_order o2 (tally_votes votes)) in
  m1.2 = m2.2 /\ (n <= Z.of_nat m1.2 -> m1 = m2).
Proof.
  intros Hn Hlen. pose proof (@hash_order_entries o1 (tally_votes votes)) as E1.
  pose proof (@hash_order_entries o2 (tally_votes votes)) as E2.
  set (l1 := @hash_order o1 (tally_votes votes)) in *. set (l2 := @hash_order o2 (tally_votes votes)) in *.
  assert (l1 ≡ₚ l2) as E by (by rewrite E1, E2).
  destruct (majority_of_max l1) as [Hmax1 Hin1], (majority_of_max l2) as [Hmax2 Hin2]. cbn zeta.
  destruct (decide (l1 = [])) as [H1|H1].
  { rewrite H1 in E. apply Permutation_nil in E. rewrite H1, E. done. }
  assert (l2 <> []) as H2 by (intros H2; rewrite H2 in E; by apply Permutation_nil_r in E).
  specialize (Hin1 H1). specialize (Hin2 H2).
  revert Hmax1 Hin1 Hmax2 Hin2. generalize (majority_of l1) as m1. generalize (majority_of l2) as m2.
  intros m2 m1 Hmax1 Hin1 Hmax2 Hin2. assert (m1.2 = m2.2) as Heq.
  { apply Nat.le_antisymm; [apply Hmax2; by rewrite <- E|apply Hmax1; by rewrite E]. }
  split; [done|]. intros Hbig. rewrite E1 in Hin1. rewrite E2 in Hin2.
  destruct m1 as [o n1], m2 as [o' n2]. cbn in *. subst n2. f_equal.
  apply elem_of_map_to_list in Hin1, Hin2. destruct (decide (o = o')) as [|Hne]; [done|]. exfalso.
  pose proof (tally_lookup votes o) as T1. pose proof (tally_lookup votes o') as T2.
  rewrite Hin1 in T1. rewrite Hin2 in T2. cbn in T1, T2.
  pose proof (votes_for_two votes o o' Hne). lia.
Qed.

Lemma settlement_order (o1 o2 : HashOrder) addr requester escrow votes :
  Z.of_nat (length votes) < 2 * min_agreement (code_committee (acc_code_hash escrow)) ->
  settlement o1 addr requester escrow votes = settlement o2 addr requester escrow votes.
Proof.
  intros Hlen. unfold settlement. set (n := min_agreement _) in *.
  destruct (majority_unique o1 o2 votes n) as [H2 H1]; [unfold n, min_agreement; lia|done|]. cbn zeta.
  rewrite <- H2. case_bool_decide; [|done]. by rewrite H1.
Qed.

(** ** The committee *)

(** The votes of a request come from distinct members of its committee. *)
Definition voters_ok (s : StateDB) (request_id : Hash256) : Prop :=
  let addr := tier1_escrow_address request_id in
  let escrow := account_or_new addr s in
  NoDup (tier1_votes addr s).*1 /\
  forall v, v ∈ (tier1_votes addr s).*1 ->
    v ∈ tier1_committee_for s request_id (acc_nonce escrow) (code_committee (acc_code_hash escrow)).

Lemma committee_length s request_id anchor size :
  0 <= size -> Z.of_nat (length (tier1_committee_for s request_id anchor size)) <= size.
Proof. intros Hs. unfold tier1_committee_for. rewrite length_fmap, length_take. lia. Qed.

Lemma code_committee_byte code : 0 <= code_committee code < 256.
Proof.
  unfold code_committee. pose proof (hash_to_bytes_bytes code) as Hb.
  destruct (nth_in_or_default 9 (hash_to_bytes code) 0) as [Hin| ->]; [|lia].
  rewrite Forall_forall in Hb. apply Hb. by apply list_elem_of_In.
Qed.

Lemma voters_few s request_id :
  voters_ok s request_id ->
  Z.of_nat (length (tier1_votes (tier1_escrow_address request_id) s)) <
    2 * min_agreement (code_committee (acc_code_hash (account_or_new (tier1_escrow_address request_id) s))).
Proof.
  intros [Hnd Hin]. set (addr := tier1_escrow_address request_id) in *. set (e := account_or_new addr s) in *.
  pose proof (code_committee_byte (acc_code_hash e)) as Hc. set (c := code_committee _) in *.
  pose proof (committee_length s request_id (acc_nonce e) c ltac:(lia)) as Hlen.
  assert (length (tier1_votes addr s).*1 <= length (tier1_committee_for s request_id (acc_nonce e) c))%nat as Hle.
  { apply submseteq_length, NoDup_submseteq; [done|]. exact Hin. }
  rewrite length_fmap in Hle. unfold min_agreement.
  pose proof (Z.div_mod c 2 ltac:(lia)). pose proof (Z.mod_pos_bound c 2 ltac:(lia)). lia.
Qed.

(** C25: while the votes of a request come from distinct members of its committee, the result
    of its finalization and the state after it do not depend on the order in which the hash
    map of the tallies is iterated, so all nodes settle it alike. *)
Theorem finalize_order_independent (o1 o2 : HashOrder) tx request_id s :
  tx_from tx <> tier1_escrow_address request_id -> voters_ok s request_id ->
  @execute_inference_finalize _ _ o1 tx request_id s = @execute_inference_finalize _ _ o2 tx request_id s.
Proof.
  intros Hne Hok%voters_few. unfold execute_inference_finalize. set (addr := tier1_escrow_address request_id) in *.
  rewrite !(bind_ledger (load_sender tx)).
  destruct (load_sender tx s) as [[sender|e|] t] eqn:Hl; [|done..]. apply load_sender_run in Hl as (-> & _ & ->).
  rewrite !(bind_ledger (store_account _ _)), store_loaded. cbv beta iota. fold (bumped tx s).
  rewrite !(bind_ledger (get_or_create_account addr)).
  change (get_or_create_account addr (bumped tx s)) with
    (@Ok StateError _ (account_or_new addr (bumped tx s)), opened tx request_id s). cbv beta iota.
  assert (account_or_new addr (bumped tx s) = account_or_new addr s) as ->.
  { unfold bumped. by rewrite account_or_new_write, bool_decide_false. }
  set (escrow := account_or_new addr s) in *. set (s1 := opened tx request_id s).
  rewrite !(bind_ledger (ensure _ _)). destruct (ensure _ _ s1) as [[[]|e|] s2] eqn:H2; [|done..].
  apply ensure_state in H2 as ->. rewrite !(bind_ledger (ensure _ _)).
  destruct (ensure _ _ s1) as [[[]|e|] s2] eqn:H2; [|done..]. apply ensure_state in H2 as ->.
  rewrite !bind_read. rewrite !(bind_ledger (ensure _ _)).
  destruct (ensure _ _ s1) as [[[]|e|] s2] eqn:H2; [|done..]. apply ensure_state in H2 as ->. cbv zeta.
  rewrite !(bind_ledger (checkL _)). destruct (checkL _ s1) as [[requester|e|] s2] eqn:H2; [|done..].
  fold (settlement o1 addr requester escrow (tier1_votes addr s1)).
  fold (settlement o2 addr requester escrow (tier1_votes addr s1)).
  rewrite !(bind_ledger (settlement _ _ _ _ _)), (settlement_order o1 o2); [done|]. exact Hok.
Qed.

(** ** Votes *)

Lemma get_storage_set a k v s s1 :
  set_storage a k v s = (Ok (), s1) ->
  (forall k', get_storage a k' s1 = if decide (k = k') then Some v else get_storage a k' s) /\
  db_accounts s1 = db_accounts s /\ db_validators s1 = db_validators s.
Proof.
  unfold set_storage, append_op. rewrite bind_modify. unfold modifyL. intros [= <-].
  assert (forall k', get_storage a k' (write_storage a k v s) =
            if decide (k = k') then Some v else get_storage a k' s) as Hg.
  { intros k'. unfold get_storage, write_storage. cbn. rewrite lookup_insert_eq. cbn.
    destruct (decide (k = k')) as [<-|Hne]; [by rewrite lookup_insert_eq|]. rewrite lookup_insert_ne by done.
    by destruct (db_storage s !! a). }
  by case_match.
Qed.

(** What a step leaves in place of the votes of an escrow. *)
Definition keeps_votes (addr : Address) (s s' : StateDB) : Prop :=
  get_storage addr tier1_votes_key s' = get_storage addr tier1_votes_key s /\
  db_validators s' = db_validators s.

Lemma keeps_votes_write addr k a s : keeps_votes addr s (write_account k a s).
Proof. done. Qed.

Lemma keep_first_blob_votes addr blob s s' :
  tier1_votes_key <> tier1_output_blob_key ->
  keep_first_blob addr blob s = (Ok (), s') -> keeps_votes addr s s' /\ db_accounts s' = db_accounts s.
Proof.
  intros Hkeys. unfold keep_first_blob. destruct blob as [blob|]; [|by intros [= <-]].
  rewrite bind_read. destruct (get_storage addr tier1_output_blob_key s); [by intros [= <-]|].
  intros (Hg & Ha & Hv)%get_storage_set. unfold keeps_votes. rewrite Hg. by rewrite decide_False.
Qed.

Context `{VC : !VotesCodec}.

(** A vote that succeeds, step by step. *)
Lemma vote_run tx request_id output blob s s' :
  tier1_votes_key <> tier1_output_blob_key ->
  tx_from tx <> tier1_escrow_address request_id ->
  execute_inference_vote tx request_id output blob s = (Ok (), s') ->
  let addr := tier1_escrow_address request_id in
  let escrow := account_or_new addr s in
  tx_from tx ∈ tier1_committee_for s request_id (acc_nonce escrow) (code_committee (acc_code_hash escrow)) /\
  tx_from tx ∉ (tier1_votes addr s).*1 /\
  tier1_votes addr s' = tier1_votes addr s ++ [(tx_from tx, output)] /\
  db_validators s' = db_validators s /\
  acc_nonce (account_or_new addr s') = acc_nonce escrow /\
  code_committee (acc_code_hash (account_or_new addr s')) = code_committee (acc_code_hash escrow).
Proof.
  intros Hkeys Hne Hx addr escrow. unfold execute_inference_vote in Hx. fold addr in Hx.
  apply bind_run in Hx as (u & t0 & H0 & Hx). unfold pureL in H0. injection H0 as _ <-.
  apply bind_run in Hx as (sender & t1 & (-> & _ & ->)%load_sender_run & Hx).
  rewrite bind_ledger in Hx. set (s1 := loaded addr (loaded (tx_from tx) s)).
  change (get_or_create_account addr (loaded (tx_from tx) s)) with
    (@Ok StateError _ (account_or_new addr (loaded (tx_from tx) s)), s1) in Hx.
  rewrite account_or_new_loaded in Hx. cbv beta iota in Hx. fold escrow in Hx.
  apply ensure_run in Hx as [_ Hx]. apply ensure_run in Hx as [_ Hx]. rewrite bind_read in Hx.
  apply ensure_run in Hx as [Hmem Hx]. rewrite bind_read in Hx. apply ensure_run in Hx as [Hdup Hx].
  apply bind_run in Hx as (encoded & t2 & H2 & Hx). unfold pureL in H2. injection H2 as Henc <-.
  apply ok_or_Ok in Henc. apply bind_run in Hx as ([] & s2 & H2 & Hx).
  apply get_storage_set in H2 as (Hg & Ha2 & Hv2). apply bind_run in Hx as ([] & s3 & H3 & Hx).
  apply (keep_first_blob_votes _ _ _ _ Hkeys) in H3 as [[Hg3 Hv3] Ha3].
  rewrite bind_ledger, store_account_run in Hx. cbv beta iota in Hx.
  set (s4 := write_account (tx_from tx) _ s3) in Hx.
  assert (tier1_votes addr s4 = tier1_votes addr s ++ [(tx_from tx, output)]) as Hvotes.
  { unfold tier1_votes at 1. change (get_storage addr tier1_votes_key s4) with (get_storage addr tier1_votes_key s3).
    rewrite Hg3, Hg, decide_True by done. cbn. by rewrite (read_votes_bincode _ _ Henc). }
  assert (account_or_new addr s4 = escrow) as Hesc.
  { unfold s4. rewrite account_or_new_write, bool_decide_false by done.
    unfold account_or_new at 1. rewrite Ha3, Ha2. change (account_or_new addr s1 = escrow). unfold s1.
    by rewrite !account_or_new_loaded. }
  split; [by apply bool_decide_eq_true in Hmem|]. split.
  { intros (v & Hv & Hin)%list_elem_of_fmap. dec_hyps. pose proof (existsb_false _ _ Hdup v Hin) as Hf.
    cbn beta in Hf. dec_hyps. congruence. }
  case_bool_decide.
  - rewrite store_account_run in Hx. injection Hx as <-. split; [exact Hvotes|]. split; [exact (eq_trans Hv3 Hv2)|].
    rewrite account_or_new_write, bool_decide_true by done. cbn [set_field acc_nonce acc_code_hash].
    split; [done|]. by apply code_committee_status.
  - injection Hx as <-. rewrite Hesc. by split_and!; [|exact (eq_trans Hv3 Hv2)|..].
Qed.

(** A vote that succeeds comes from a member of the committee of its request that has not
    voted; it appends exactly this vote, and the votes remain those of distinct members. *)
Theorem vote_keeps_committee tx request_id output blob s s' :
  tier1_votes_key <> tier1_output_blob_key ->
  tx_from tx <> tier1_escrow_address request_id -> voters_ok s request_id ->
  execute_inference_vote tx request_id output blob s = (Ok (), s') ->
  tier1_votes (tier1_escrow_address request_id) s' =
    tier1_votes (tier1_escrow_address request_id) s ++ [(tx_from tx, output)] /\
  voters_ok s' request_id.
Proof.
  intros Hkeys Hne [Hnd Hin] Hx. destruct (vote_run _ _ _ _ _ _ Hkeys Hne Hx) as (Hm & Hd & Hv & Hr & Hn & Hc).
  split; [done|]. unfold voters_ok. rewrite Hv, Hn, Hc, fmap_app.
  unfold tier1_committee_for in *. rewrite Hr. split.
  - apply NoDup_app. split_and!; [done| |apply NoDup_singleton]. intros v Hv1 ->%list_elem_of_singleton. done.
  - intros v [Hv1| ->%list_elem_of_singleton]%elem_of_app; [by apply Hin|done].
Qed.

End Laws.

Section Witnesses.
Import LedgerDemo.

Definition tier_state : StateDB :=
  state (funded ((fun i => (user i, 500000)) <$> [0; 1; 2; 3])) {[user 3 := 200000]} 10 None.

(** A request for one answer, at 1000 for five blocks. *)
Definition demo_request : InferenceRequestBody :=
  mkRequestBody 77 1 (hash_bytes [1; 2]) [1; 2] 10 1 1000 5 1.

Definition request_tx : Transaction := signed 0 None 0 (BInferenceRequest demo_request) 0.
Definition vote_tx : Transaction := signed 3 None 0 (BInferenceVote 77 9 None [] 0) 0.
Definition finalize_tx : Transaction := signed 2 None 0 (BInferenceFinalize 77) 0.

Definition run_txs (l : list Transaction) (s : StateDB) : list (outcome StateError Z) * StateDB :=
  foldl (fun st tx => let '(r, s') := execute_tx tx st.2 in (st.1 ++ [r], s')) ([], s) l.

Definition requested : StateDB := (run_txs [request_tx] tier_state).2.
Definition voted : StateDB := (run_txs [request_tx; vote_tx] tier_state).2.

Lemma run_Ok {A} (m : ledger A) s a : (m s).1 = Ok a -> m s = (Ok a, (m s).2).
Proof. destruct (m s). cbn. by intros ->. Qed.

Lemma demo_votes_codec : VotesCodec.
Proof. intros l bytes [= <-]. apply parse_write_votes. Qed.

Lemma finalize_settles_once_witness :
  let s' := (execute_inference_finalize finalize_tx 77 voted).2 in
  supply (db_accounts s') <= supply (db_accounts voted) /\ balance_of s' (tier1_escrow_address 77) = 0.
Proof.
  destruct (finalize_settles_once demo_order finalize_tx 77 voted
    (execute_inference_finalize finalize_tx 77 voted).2) as (H1 & H2 & _).
  - apply balances_checked. by vm_compute.
  - apply run_Ok. by vm_compute.
  - by split.
Defined.

Lemma expired_request_settles_witness :
  exists s', execute_inference_finalize finalize_tx 77 (requested <| db_height := 15 |>) = (Ok (), s').
Proof.
  set (s := requested <| db_height := 15 |>).
  destruct (get_account (tier1_escrow_address 77) s) as [escrow|] eqn:He; [|by vm_compute in He].
  apply (expired_request_settles demo_order finalize_tx 77 s escrow (user 0)).
  - apply balances_checked. by vm_compute.
  - by vm_compute.
  - by vm_compute.
  - exact He.
  - vm_compute in He. injection He as <-. by vm_compute.
  - vm_compute in He. injection He as <-. by vm_compute.
  - vm_compute in He. injection He as <-. by vm_compute.
  - by vm_compute.
Defined.

Lemma voted_voters : voters_ok voted 77.
Proof.
  assert ((tier1_votes (tier1_escrow_address 77) voted).*1 = [user 3]) as Hv by by vm_compute.
  unfold voters_ok. rewrite Hv. split; [apply NoDup_singleton|]. intros v ->%list_elem_of_singleton.
  match goal with |- ?P => apply (bool_decide_eq_true_1 P) end. by vm_compute.
Qed.

Lemma finalize_order_independent_witness :
  @execute_inference_finalize _ _ demo_order finalize_tx 77 voted =
  @execute_inference_finalize _ _ reverse_order finalize_tx 77 voted.
Proof. apply (finalize_order_independent demo_order reverse_order); [by vm_compute|apply voted_voters]. Defined.

Lemma requested_voters : voters_ok requested 77.
Proof.
  assert (tier1_votes (tier1_escrow_address 77) requested = []) as Hv by by vm_compute.
  unfold voters_ok. rewrite Hv. split; [constructor|]. intros v Hin. destruct (not_elem_of_nil v Hin).
Qed.

Lemma vote_keeps_committee_witness :
  voters_ok (execute_inference_vote vote_tx 77 9 None requested).2 77.
Proof.
  apply (vote_keeps_committee (VC := demo_votes_codec) vote_tx 77 9 None requested);
    [by vm_compute|by vm_compute|apply requested_voters|]. apply run_Ok. by vm_compute.
Defined.

(** The registry changes between two votes, and each voter was the committee at its time. *)
Definition tied_txs : list Transaction :=
  [request_tx; vote_tx; signed 1 None 0 (BJoinValidator 0 200000) 0;
   signed 1 None 1 (BInferenceVote 77 8 None [] 0) 0].

Definition tied : StateDB := (run_txs tied_txs tier_state).2.

(** The committee of a request is drawn from the registry at the time of each vote, so a
    change of the registry lets more validators vote than the committee has seats.  Two
    outputs can then both reach the agreement, and which of them is paid depends on the
    iteration order of a hash map: nodes that run the same transactions end in different
    states. *)
Theorem tied_votes_diverge :
  (run_txs tied_txs tier_state).1 = [Ok 80000; Ok 30000; Ok 30000; Ok 30000] /\
  let paid o := balance_of (@execute_inference_finalize _ _ o finalize_tx 77 tied).2 (user 3) in
  paid demo_order <> paid reverse_order.
Proof. split; by vm_compute. Qed.

End Witnesses.
