(* ===== verification/LegacyGaps.v ===== *)
(** * Where the families before protocol 3 do not conserve funds

    Protocol 3 admits three families, whose conservation is proved.  The other families
    stay executable on a chain without a recovery context; runs of them on a small ledger
    show what their arms do to the sum of all balances. *)

From S2P Require Import Prelude Crypto Merkle Validators Blocks Ledger Tier1 Contracts Executor LedgerDemo.
From S2P Require Import LedgerV3 Bonds.

Section Gaps.
Import LedgerDemo.

(** What a transaction does: whether it succeeds, and the change of the supply. *)
Definition effect_of (s : StateDB) (tx : Transaction) : bool * Z :=
  let '(r, s') := execute_tx tx s in
  (match r with Ok _ => true | _ => false end, supply (db_accounts s') - supply (db_accounts s)).

Definition with_contract : StateDB :=
  legacy_state <| db_contracts := {[user 9 := [0; 97; 115; 109]]} |>.

Definition locked_once : StateDB :=
  (execute_tx (signed 0 None 0 (BBridgeLock 1 0 3000) 0) legacy_state).2.

(** Outside protocol 3 funds are created and destroyed.  A mint with any non-empty proof,
    the release of an escrow that was never funded, a swap of an account with itself and a
    batch whose total wraps succeed and create funds; a call of a contract that runs out of
    gas fails and has created its value; a second lock of the bridge destroys what the first
    one locked; and a swap takes the funds of a counterparty that signed nothing. *)
Theorem legacy_families_do_not_conserve :
  effect_of legacy_state (signed 0 None 0 (BBridgeMint 1 0 (user 5) 999 [1]) 0) = (true, 999) /\
  effect_of legacy_state (signed 0 None 0 (BEscrow (user 5) 777 0 false) 0) = (true, 777) /\
  effect_of legacy_state (signed 0 None 0 (BSwap (user 0) 5000 0 0 0) 0) = (true, 5000) /\
  effect_of legacy_state (signed 0 None 0 (BBatchSettle
    [mkSettleEntry (user 5) 0 (2 ^ 63); mkSettleEntry (user 6) 0 (2 ^ 63)]) 0) = (true, 2 ^ 64) /\
  effect_of with_contract (signed 0 None 0 (BWasmCall (user 9) (ascii_bytes "burn") [] 400 0) 0) = (false, 400) /\
  effect_of locked_once (signed 1 None 0 (BBridgeLock 1 0 100) 0) = (true, -3000) /\
  let s' := (execute_tx (signed 0 None 0 (BSwap (user 1) 0 6000 0 0) 0) legacy_state).2 in
  balance_of s' (user 0) = 11000 /\ balance_of s' (user 1) = 0.
Proof. vm_compute. split_and!; reflexivity. Qed.

End Gaps.
