(* ===== verification/Channel.v ===== *)
(** * Payment channels (crates/arc-channel/src/lib.rs)

    The off-chain machine of one party of a channel, the run of a payment between two of
    them, and the settlement of a channel on chain by the arm of [execute_tx] for
    [ChannelClose]. *)

From S2P Require Import Prelude Crypto Merkle Validators Blocks Ledger Tier1 Contracts Executor LedgerDemo.
From S2P Require Import LedgerV3 Bonds Tier1Laws.

Module Channel.

Inductive ChannelState := Opening | Open | Closing | Disputed | Closed.

#[global] Instance ChannelState_eq_dec : EqDecision ChannelState.
Proof. solve_decision. Defined.

Inductive Role := Opener | Counterparty.

Inductive ChannelError :=
| WrongState (actual : ChannelState)
| NoSignedState
| ConservationViolation (opener_bal counterparty_bal total : Z)
| NonceNotIncreasing (current got : Z)
| ChannelInsufficientBalance (have need : Z)
| InvalidSignature
| NotAuthorized.

Record StateCommitment := mkCommitment {
  sc_channel_id : Hash256;
  sc_nonce : Z;
  sc_opener_balance : Z;
  sc_counterparty_balance : Z;
  sc_proposer_sig : list Z;
  sc_acceptor_sig : option (list Z);
}.

#[global] Instance StateCommitment_eta : Eta StateCommitment := fun c =>
  mkCommitment (sc_channel_id c) (sc_nonce c) (sc_opener_balance c) (sc_counterparty_balance c)
    (sc_proposer_sig c) (sc_acceptor_sig c).

(** [VerifyingKey::verify_strict] of ed25519_dalek. *)
Class StrictVerify := { verify_strict : list Z -> list Z -> list Z -> bool }.

(** What a key signs verifies, in 64 bytes. *)
Class StrictLaw `{Crypto, StrictVerify} : Prop := {
  sign_length sk msg : length (ed25519_sign sk msg) = 64%nat;
  sign_verifies sk msg : verify_strict (ed25519_verifying_key sk) msg (ed25519_sign sk msg) = true;
}.

Section Machine.
Context `{CR : Crypto, SV : StrictVerify}.

Definition signing_payload (c : StateCommitment) : list Z :=
  hash_to_bytes (blake3_hash
    (ascii_bytes "arc-channel-state-v1" ++ hash_to_bytes (sc_channel_id c) ++ u64_le (sc_nonce c) ++
     u64_le (sc_opener_balance c) ++ u64_le (sc_counterparty_balance c))).

Definition is_fully_signed (c : StateCommitment) : bool := bool_decide (is_Some (sc_acceptor_sig c)).

Record ChannelStateMachine := mkMachine {
  ch_channel_id : Hash256;
  ch_role : Role;
  ch_state : ChannelState;
  ch_total_deposit : Z;
  ch_opener_balance : Z;
  ch_counterparty_balance : Z;
  ch_nonce : Z;
  ch_signing_key : Ed25519Key;
  ch_counterparty_vk : list Z;
  ch_history : list StateCommitment;
}.

#[global] Instance ChannelStateMachine_eta : Eta ChannelStateMachine := fun m =>
  mkMachine (ch_channel_id m) (ch_role m) (ch_state m) (ch_total_deposit m) (ch_opener_balance m)
    (ch_counterparty_balance m) (ch_nonce m) (ch_signing_key m) (ch_counterparty_vk m) (ch_history m).

Definition new (channel_id : Hash256) (role : Role) (total_deposit : Z) (signing_key : Ed25519Key)
    (counterparty_vk : list Z) : ChannelStateMachine :=
  let '(opener_balance, counterparty_balance) :=
    match role with Opener => (total_deposit, 0) | Counterparty => (0, total_deposit) end in
  mkMachine channel_id role Opening total_deposit opener_balance counterparty_balance 0 signing_key
    counterparty_vk [].

Definition in_state (m : ChannelStateMachine) (st : ChannelState) : outcome ChannelError unit :=
  require (bool_decide (ch_state m = st)) (WrongState (ch_state m)).

Definition confirm_open (m : ChannelStateMachine) : outcome ChannelError ChannelStateMachine :=
  _ ← in_state m Opening; Ok (m <| ch_state := Open |>).

(** [opener + counterparty != total], with the sum in 64 bits. *)
Definition conserved (m : ChannelStateMachine) (opener_balance counterparty_balance : Z)
    : outcome ChannelError unit :=
  require (bool_decide (wrapping_add opener_balance counterparty_balance = ch_total_deposit m))
    (ConservationViolation opener_balance counterparty_balance (ch_total_deposit m)).

(** The proposer signs the payload. *)
Definition signed_by (sk : Ed25519Key) (c : StateCommitment) : StateCommitment :=
  c <| sc_proposer_sig := ed25519_sign sk (signing_payload c) |>.

Definition propose_state (m : ChannelStateMachine) (opener_balance counterparty_balance : Z)
    : outcome ChannelError StateCommitment :=
  _ ← in_state m Open;
  _ ← conserved m opener_balance counterparty_balance;
  let new_nonce := wrapping_add (ch_nonce m) 1 in
  Ok (signed_by (ch_signing_key m)
        (mkCommitment (ch_channel_id m) new_nonce opener_balance counterparty_balance [] None)).

Definition pay (m : ChannelStateMachine) (amount : Z) : outcome ChannelError StateCommitment :=
  _ ← in_state m Open;
  match ch_role m with
  | Opener =>
      _ ← require (negb (bool_decide (ch_opener_balance m < amount)))
            (ChannelInsufficientBalance (ch_opener_balance m) amount);
      propose_state m (ch_opener_balance m - amount) (wrapping_add (ch_counterparty_balance m) amount)
  | Counterparty =>
      _ ← require (negb (bool_decide (ch_counterparty_balance m < amount)))
            (ChannelInsufficientBalance (ch_counterparty_balance m) amount);
      propose_state m (wrapping_add (ch_opener_balance m) amount) (ch_counterparty_balance m - amount)
  end.

(** The signature of the other party over a payload. *)
Definition check_sig (m : ChannelStateMachine) (payload sig : list Z) : outcome ChannelError unit :=
  _ ← require (bool_decide (length sig = 64%nat)) InvalidSignature;
  require (verify_strict (ch_counterparty_vk m) payload sig) InvalidSignature.

(** The commitment becomes the state of the machine. *)
Definition adopt (m : ChannelStateMachine) (c : StateCommitment) : ChannelStateMachine :=
  m <| ch_nonce := sc_nonce c |> <| ch_opener_balance := sc_opener_balance c |>
    <| ch_counterparty_balance := sc_counterparty_balance c |> <| ch_history := ch_history m ++ [c] |>.

Definition receive_state (m : ChannelStateMachine) (c : StateCommitment)
    : outcome ChannelError (StateCommitment * ChannelStateMachine) :=
  _ ← in_state m Open;
  _ ← require (bool_decide (sc_channel_id c = ch_channel_id m)) NotAuthorized;
  _ ← require (negb (bool_decide (sc_nonce c <= ch_nonce m)))
        (NonceNotIncreasing (ch_nonce m) (sc_nonce c));
  _ ← conserved m (sc_opener_balance c) (sc_counterparty_balance c);
  _ ← check_sig m (signing_payload c) (sc_proposer_sig c);
  let c' := c <| sc_acceptor_sig := Some (ed25519_sign (ch_signing_key m) (signing_payload c)) |> in
  Ok (c', adopt m c').

Definition finalize_state (m : ChannelStateMachine) (c : StateCommitment)
    : outcome ChannelError ChannelStateMachine :=
  match sc_acceptor_sig c with
  | None => Err InvalidSignature
  | Some sig => _ ← check_sig m (signing_payload c) sig; Ok (adopt m c)
  end.

Definition close (m : ChannelStateMachine) : outcome ChannelError (StateCommitment * ChannelStateMachine) :=
  _ ← in_state m Open;
  Ok (signed_by (ch_signing_key m)
        (mkCommitment (ch_channel_id m) (ch_nonce m) (ch_opener_balance m) (ch_counterparty_balance m)
           [] None),
      m <| ch_state := Closing |>).

Definition dispute (m : ChannelStateMachine) : outcome ChannelError StateCommitment :=
  ok_or (List.find is_fully_signed (reverse (ch_history m))) NoSignedState.

Definition confirm_closed (m : ChannelStateMachine) : ChannelStateMachine := m <| ch_state := Closed |>.

Definition my_balance (m : ChannelStateMachine) : Z :=
  match ch_role m with Opener => ch_opener_balance m | Counterparty => ch_counterparty_balance m end.

Definition their_balance (m : ChannelStateMachine) : Z :=
  match ch_role m with Opener => ch_counterparty_balance m | Counterparty => ch_opener_balance m end.

(** ** A payment between two machines *)

(** Two machines of one channel, in the same state, each with the key of the other. *)
Record paired (a b : ChannelStateMachine) : Prop := {
  paired_id : ch_channel_id a = ch_channel_id b;
  paired_open : ch_state a = Open /\ ch_state b = Open;
  paired_total : ch_total_deposit a = ch_total_deposit b;
  paired_balances : ch_opener_balance a = ch_opener_balance b /\
                    ch_counterparty_balance a = ch_counterparty_balance b;
  paired_nonce : ch_nonce a = ch_nonce b;
  paired_keys : ch_counterparty_vk b = ed25519_verifying_key (ch_signing_key a) /\
                ch_counterparty_vk a = ed25519_verifying_key (ch_signing_key b);
  paired_roles : ch_role a <> ch_role b;
}.

(** The balances are in range and add up to the deposit, without wrapping. *)
Record sound (m : ChannelStateMachine) : Prop := {
  sound_range : 0 <= ch_opener_balance m /\ 0 <= ch_counterparty_balance m;
  sound_total : ch_opener_balance m + ch_counterparty_balance m = ch_total_deposit m;
  sound_u64 : ch_total_deposit m <= u64_max;
}.

Context `{SL : !StrictLaw}.

Lemma check_sign m sk msg :
  ch_counterparty_vk m = ed25519_verifying_key sk -> check_sig m msg (ed25519_sign sk msg) = Ok ().
Proof.
  intros Hk. unfold check_sig. rewrite bool_decide_true by apply sign_length. cbn. by rewrite Hk, sign_verifies.
Qed.

Lemma in_state_Ok m st : ch_state m = st -> in_state m st = Ok ().
Proof. intros Hs. unfold in_state. by rewrite bool_decide_true. Qed.

Lemma conserved_Ok m o c :
  o + c = ch_total_deposit m -> 0 <= ch_total_deposit m <= u64_max -> conserved m o c = Ok ().
Proof. intros Ht Hu. unfold conserved. rewrite wrapping_add_small by lia. by rewrite bool_decide_true. Qed.

Lemma require_then {A} (b : bool) (e : ChannelError) (k : unit -> outcome ChannelError A) :
  b = true -> (require b e ≫= k) = k ().
Proof. by intros ->. Qed.

(** The state a payment moves to. *)
Definition paid (m : ChannelStateMachine) (amount : Z) : Z * Z :=
  match ch_role m with
  | Opener => (ch_opener_balance m - amount, ch_counterparty_balance m + amount)
  | Counterparty => (ch_opener_balance m + amount, ch_counterparty_balance m - amount)
  end.

Lemma pay_Ok m amount :
  ch_state m = Open -> sound m -> 0 <= amount <= my_balance m ->
  pay m amount = Ok (signed_by (ch_signing_key m)
    (mkCommitment (ch_channel_id m) (wrapping_add (ch_nonce m) 1) (paid m amount).1 (paid m amount).2 [] None)).
Proof.
  intros Hst [[Ho Hc] Ht Hu] Ha. unfold pay, propose_state, paid, my_balance in *.
  rewrite in_state_Ok by done. cbn [mbind outcome_bind]. destruct (ch_role m);
    rewrite require_then by (rewrite bool_decide_false by lia; done);
    rewrite ?(wrapping_add_small (ch_counterparty_balance m)), ?(wrapping_add_small (ch_opener_balance m)) by lia;
    by rewrite conserved_Ok by lia.
Qed.

Lemma receive_state_accepts m c :
  ch_state m = Open -> sc_channel_id c = ch_channel_id m -> ch_nonce m < sc_nonce c ->
  conserved m (sc_opener_balance c) (sc_counterparty_balance c) = Ok () ->
  check_sig m (signing_payload c) (sc_proposer_sig c) = Ok () ->
  let c' := c <| sc_acceptor_sig := Some (ed25519_sign (ch_signing_key m) (signing_payload c)) |> in
  receive_state m c = Ok (c', adopt m c').
Proof.
  intros Hst Hid Hn Hc Hs. unfold receive_state. rewrite in_state_Ok by done. cbn [mbind outcome_bind].
  rewrite require_then by (by apply bool_decide_eq_true).
  rewrite require_then by (rewrite bool_decide_false; [done|lia]). by rewrite Hc, Hs.
Qed.

(** C22: a payment between two machines in the same state goes through: the commitment of the
    payer is accepted by the other party and finalized by the payer; both end in the same
    state with the nonce one higher and the amount moved from the payer to the other, still
    adding up to the deposit, and either party can submit exactly this state in a dispute. *)
Theorem payment_round_trip a b amount :
  paired a b -> sound a -> 0 <= amount <= my_balance a -> 0 <= ch_nonce a < u64_max ->
  exists c c' a' b',
    pay a amount = Ok c /\ receive_state b c = Ok (c', b') /\ finalize_state a c' = Ok a' /\
    paired a' b' /\ sound a' /\ ch_nonce a' = ch_nonce a + 1 /\
    my_balance a' = my_balance a - amount /\ my_balance b' = my_balance b + amount /\
    dispute a' = Ok c' /\ dispute b' = Ok c'.
Proof.
  intros [Hid [Hoa Hob] Htot [Hbo Hbc] Hn [Hka Hkb] Hroles] Hs Ha Hnonce.
  rewrite (pay_Ok a amount Hoa Hs Ha). rewrite wrapping_add_small by lia.
  set (c0 := mkCommitment _ _ _ _ _ _). set (c := signed_by (ch_signing_key a) c0).
  set (c' := c <| sc_acceptor_sig := Some (ed25519_sign (ch_signing_key b) (signing_payload c)) |>).
  exists c, c', (adopt a c'), (adopt b c').
  assert ((paid a amount).1 + (paid a amount).2 = ch_total_deposit a /\
          0 <= (paid a amount).1 /\ 0 <= (paid a amount).2) as (Hsum & Hp1 & Hp2).
  { destruct Hs as [[? ?] ? ?]. unfold paid, my_balance in *. destruct (ch_role a); cbn; lia. }
  assert (receive_state b c = Ok (c', adopt b c')) as Hrecv.
  { pose proof (sound_u64 _ Hs). apply (receive_state_accepts b c); [done|done|cbn; lia|apply conserved_Ok; cbn; lia|].
    by apply (check_sign b (ch_signing_key a)). }
  assert (finalize_state a c' = Ok (adopt a c')) as Hfin.
  { change (finalize_state a c') with
      (_ ← check_sig a (signing_payload c) (ed25519_sign (ch_signing_key b) (signing_payload c)); Ok (adopt a c')).
    by rewrite check_sign. }
  assert (forall m, dispute (adopt m c') = Ok c') as Hdis.
  { intros m. unfold dispute. change (ch_history (adopt m c')) with (ch_history m ++ [c']).
    by rewrite reverse_snoc. }
  split_and!; [done|exact Hrecv|exact Hfin| | |done| | |apply Hdis|apply Hdis].
  - by split.
  - split; [done|done|apply Hs].
  - unfold my_balance, paid. cbn. unfold paid. by destruct (ch_role a).
  - unfold my_balance, paid. cbn. unfold paid. rewrite <- Hbo, <- Hbc.
    by destruct (ch_role a), (ch_role b).
Qed.

(** ** Runs of a machine *)

Inductive step : ChannelStateMachine -> ChannelStateMachine -> Prop :=
| step_open m m' : confirm_open m = Ok m' -> step m m'
| step_receive m c c' m' : receive_state m c = Ok (c', m') -> step m m'
| step_finalize m c m' : finalize_state m c = Ok m' -> step m m'
| step_close m c m' : close m = Ok (c, m') -> step m m'
| step_closed m : step m (confirm_closed m).

(** The other party has signed the state of the commitment, as proposer or as acceptor. *)
Definition peer_signed (m : ChannelStateMachine) (c : StateCommitment) : Prop :=
  verify_strict (ch_counterparty_vk m) (signing_payload c) (sc_proposer_sig c) = true \/
  exists sig, sc_acceptor_sig c = Some sig /\
              verify_strict (ch_counterparty_vk m) (signing_payload c) sig = true.

(** The machine is in the state of the last commitment of its history. *)
Definition at_commitment (m : ChannelStateMachine) (c : StateCommitment) : Prop :=
  sc_nonce c = ch_nonce m /\ sc_opener_balance c = ch_opener_balance m /\
  sc_counterparty_balance c = ch_counterparty_balance m.

Record tracked (m : ChannelStateMachine) : Prop := {
  tracked_signed : Forall (fun c => is_fully_signed c = true /\ peer_signed m c) (ch_history m);
  tracked_last : forall c, last (ch_history m) = Some c -> at_commitment m c;
}.

Lemma check_sig_Ok m payload sig : check_sig m payload sig = Ok () -> verify_strict (ch_counterparty_vk m) payload sig = true.
Proof. unfold check_sig. by intros (? & _ & Hv%require_Ok)%bind_Ok. Qed.

(** What the two updates have checked. *)
Lemma receive_state_Ok m c c' m' :
  receive_state m c = Ok (c', m') ->
  ch_state m = Open /\ ch_nonce m < sc_nonce c /\
  wrapping_add (sc_opener_balance c) (sc_counterparty_balance c) = ch_total_deposit m /\
  verify_strict (ch_counterparty_vk m) (signing_payload c) (sc_proposer_sig c) = true /\
  c' = c <| sc_acceptor_sig := Some (ed25519_sign (ch_signing_key m) (signing_payload c)) |> /\ m' = adopt m c'.
Proof.
  unfold receive_state, in_state, conserved.
  intros (? & H1%require_Ok & (? & H2%require_Ok & (? & H3%require_Ok & (? & H4%require_Ok & (u & H5 & H6)%bind_Ok)%bind_Ok)%bind_Ok)%bind_Ok)%bind_Ok.
  destruct u. apply check_sig_Ok in H5. dec_hyps. injection H6 as <- <-. split_and!; [done|lia|done..].
Qed.

Lemma finalize_state_Ok m c m' :
  finalize_state m c = Ok m' ->
  m' = adopt m c /\ exists sig, sc_acceptor_sig c = Some sig /\
    verify_strict (ch_counterparty_vk m) (signing_payload c) sig = true.
Proof.
  unfold finalize_state. destruct (sc_acceptor_sig c) as [sig|] eqn:Hs; [|done].
  intros ([] & H1%check_sig_Ok & [= <-])%bind_Ok. split; [done|]. by exists sig.
Qed.

Lemma adopt_tracked m c :
  tracked m -> is_fully_signed c = true -> peer_signed m c -> tracked (adopt m c).
Proof.
  intros [Hs _] Hf Hp. split.
  - change (ch_history (adopt m c)) with (ch_history m ++ [c]). apply Forall_app. split; [exact Hs|]. apply Forall_singleton. by split.
  - change (ch_history (adopt m c)) with (ch_history m ++ [c]). rewrite last_snoc. by intros c' [= <-].
Qed.

Lemma step_tracked m m' : step m m' -> tracked m -> tracked m'.
Proof.
  intros Hst Ht. destruct Hst as [m m' Hx|m c c' m' Hx|m c m' Hx|m c m' Hx|m].
  - unfold confirm_open in Hx. apply bind_Ok in Hx as (? & _ & [= <-]). by destruct Ht.
  - apply receive_state_Ok in Hx as (_ & _ & _ & Hv & -> & ->).
    apply adopt_tracked; [done|by apply bool_decide_eq_true; eexists|by left].
  - apply finalize_state_Ok in Hx as (-> & sig & Hs & Hv).
    apply adopt_tracked; [done|apply bool_decide_eq_true; by eexists|right; by exists sig].
  - unfold close in Hx. apply bind_Ok in Hx as (? & _ & [= _ <-]). by destruct Ht.
  - by destruct Ht.
Qed.

Lemma dispute_last m c :
  Forall (fun c => is_fully_signed c = true /\ peer_signed m c) (ch_history m) ->
  last (ch_history m) = Some c -> dispute m = Ok c /\ peer_signed m c.
Proof.
  intros Hs Hl. apply last_Some in Hl as [l Hl]. rewrite Hl in Hs. apply Forall_app in Hs as [_ Hs].
  apply Forall_singleton in Hs as [Hf Hp]. split; [|done]. unfold dispute. rewrite Hl, reverse_snoc. cbn.
  by rewrite Hf.
Qed.

(** Whatever a party does with its machine, once it has taken part in an update the state
    it submits in a dispute is its current state, with its nonce and its balances, and
    carries a signature of the other party over exactly this state. *)
Theorem dispute_submits_current_state id role total sk vk m :
  rtc step (new id role total sk vk) m -> ch_history m <> [] ->
  exists c, dispute m = Ok c /\ at_commitment m c /\ peer_signed m c.
Proof.
  intros Hr Hne. assert (tracked m) as [Hs Hl].
  { assert (tracked (new id role total sk vk)) as H0 by (destruct role; (split; [apply Forall_nil_2|done])).
    revert H0. induction Hr as [|x y z Hxy _ IH]; intros H0; [done|]. by eapply IH, step_tracked. }
  destruct (last (ch_history m)) as [c|] eqn:Hc.
  - exists c. destruct (dispute_last m c Hs Hc). split_and!; [done|by apply Hl|done].
  - by apply last_None in Hc.
Qed.

(** The steps without [finalize_state]. *)
Inductive checked_step : ChannelStateMachine -> ChannelStateMachine -> Prop :=
| checked_open m m' : confirm_open m = Ok m' -> checked_step m m'
| checked_receive m c c' m' : receive_state m c = Ok (c', m') -> checked_step m m'
| checked_close m c m' : close m = Ok (c, m') -> checked_step m m'
| checked_closed m : checked_step m (confirm_closed m).

(** An update that a machine receives is checked: over any run of these updates the nonce
    never goes back, the sum of the balances modulo 2^64 stays the deposit, and what was
    signed before is kept as a prefix of the history. *)
Theorem received_states_advance m m' :
  rtc checked_step m m' ->
  wrapping_add (ch_opener_balance m) (ch_counterparty_balance m) = ch_total_deposit m ->
  ch_nonce m <= ch_nonce m' /\ ch_history m `prefix_of` ch_history m' /\
  ch_total_deposit m' = ch_total_deposit m /\
  wrapping_add (ch_opener_balance m') (ch_counterparty_balance m') = ch_total_deposit m'.
Proof.
  induction 1 as [m|x y z Hxy _ IH]; intros Hw; [done|].
  assert (ch_nonce x <= ch_nonce y /\ ch_history x `prefix_of` ch_history y /\
          ch_total_deposit y = ch_total_deposit x /\
          wrapping_add (ch_opener_balance y) (ch_counterparty_balance y) = ch_total_deposit y)
    as (H1 & H2 & H3 & H4).
  { destruct Hxy as [x y Hx|x c c' y Hx|x c y Hx|x].
    - unfold confirm_open in Hx. by apply bind_Ok in Hx as (? & _ & [= <-]).
    - apply receive_state_Ok in Hx as (_ & Hn & Hc & _ & -> & ->). split_and!; [cbn; lia|by apply prefix_app_r|done|done].
    - unfold close in Hx. by apply bind_Ok in Hx as (? & _ & [= _ <-]).
    - done. }
  destruct (IH H4) as (? & ? & ? & ?). split_and!; [lia|by etrans|congruence|done].
Qed.

(** ** Settlement on chain *)

Context `{TC : TxCodec}.

(** The escrow that [ChannelOpen] leaves for the channel of a machine. *)
Record escrowed (m : ChannelStateMachine) (s : StateDB) (opener counterparty : Address) : Prop := {
  escrow_account : exists e, get_account (channel_address (ch_channel_id m)) s = Some e /\
    acc_balance e = ch_total_deposit m /\ acc_code_hash e = opener /\
    acc_storage_root e = counterparty /\ acc_staked_balance e = 0;
  escrow_apart : NoDup [channel_address (ch_channel_id m); opener; counterparty];
  escrow_named : counterparty <> 0;
  escrow_room : balance_of s opener + ch_total_deposit m <= u64_max /\
                balance_of s counterparty + ch_total_deposit m <= u64_max;
}.

Lemma channel_close_run tx id x y s e :
  acc_nonce (account_or_new (tx_from tx) s) = tx_nonce tx ->
  get_account (channel_address id) s = Some e -> tx_from tx <> channel_address id ->
  tx_from tx = acc_code_hash e -> acc_staked_balance e = 0 -> saturating_add x y <= acc_balance e ->
  execute_channel_close tx id x y s =
    let s1 := loaded (channel_address id) (loaded (tx_from tx) s) in
    let s2 := write_account (channel_address id) (e <| acc_balance := 0 |>) s1 in
    let s3 := write_account (tx_from tx) (credit (bump_nonce (account_or_new (tx_from tx) s)) x) s2 in
    if bool_decide (0 < y) && negb (bool_decide (acc_storage_root e = 0))
    then update_account (acc_storage_root e) (fun c => credit c y) s3 else (Ok (), s3).
Proof.
  intros Hn He Hne Hop Hst Hxy. unfold execute_channel_close.
  rewrite bind_ledger, load_sender_ok by done. cbv beta iota. rewrite bind_ledger.
  assert (account_or_new (channel_address id) (loaded (tx_from tx) s) = e) as Hacc.
  { rewrite account_or_new_loaded. by apply account_or_new_Some. }
  set (s1 := loaded (channel_address id) (loaded (tx_from tx) s)).
  change (get_or_create_account (channel_address id) (loaded (tx_from tx) s)) with
    (@Ok StateError _ (account_or_new (channel_address id) (loaded (tx_from tx) s)), s1).
  rewrite Hacc. cbv beta iota.
  rewrite ensure_then by (unfold channel_party; by rewrite Hop, bool_decide_true). rewrite bind_read.
  rewrite ensure_then by (by rewrite Hst). rewrite ensure_then by (by rewrite bool_decide_false by lia).
  rewrite bind_ledger, update_account_run. cbv beta iota.
  assert (account_or_new (channel_address id) s1 = e) as -> by (unfold s1; by rewrite account_or_new_loaded).
  rewrite bind_ledger, store_account_run. cbv beta iota zeta. by destruct (_ && _).
Qed.

(** C23: the state a machine closes with settles on chain: from an escrow that holds the
    deposit, a [ChannelClose] by the opener with the balances of the closing commitment
    succeeds, pays each party exactly its balance and empties the escrow. *)
Theorem closing_state_settles m c m' tx s counterparty :
  close m = Ok (c, m') -> sound m -> escrowed m s (tx_from tx) counterparty ->
  balances_ok s -> acc_nonce (account_or_new (tx_from tx) s) = tx_nonce tx ->
  exists s', execute_channel_close tx (sc_channel_id c) (sc_opener_balance c) (sc_counterparty_balance c) s
               = (Ok (), s') /\
    balance_of s' (tx_from tx) = balance_of s (tx_from tx) + ch_opener_balance m /\
    balance_of s' counterparty = balance_of s counterparty + ch_counterparty_balance m /\
    balance_of s' (channel_address (ch_channel_id m)) = 0.
Proof.
  intros Hc [[Ho Hcp] Ht Hu] [(e & He & Hbal & Hop & Hroot & Hstk) Hnd Hz [Hro Hrc]] Hb Hn.
  unfold close in Hc. apply bind_Ok in Hc as (? & _ & [= <- _]).
  rewrite !NoDup_cons, !not_elem_of_cons in Hnd. destruct Hnd as ((Hd1 & Hd2 & _) & (Hd3 & _) & _).
  set (addr := channel_address (ch_channel_id m)) in *.
  pose proof (balances_ok_new s (tx_from tx) Hb) as Hbf. pose proof (balances_ok_new s counterparty Hb) as Hbc.
  change (sc_channel_id (signed_by _ _)) with (ch_channel_id m).
  change (sc_opener_balance (signed_by _ _)) with (ch_opener_balance m).
  change (sc_counterparty_balance (signed_by _ _)) with (ch_counterparty_balance m).
  rewrite (channel_close_run tx (ch_channel_id m) _ _ s e);
    [|done|done|by intros Heq; apply Hd1|done|done|unfold saturating_add; lia].
  fold addr. cbv zeta. set (s1 := loaded addr (loaded (tx_from tx) s)).
  set (s3 := write_account (tx_from tx) _ _).
  assert (forall k, account_or_new k s1 = account_or_new k s) as Hs1.
  { intros k. unfold s1. by rewrite !account_or_new_loaded. }
  assert (forall k, account_or_new k s3 =
    if bool_decide (tx_from tx = k) then credit (bump_nonce (account_or_new (tx_from tx) s)) (ch_opener_balance m)
    else if bool_decide (addr = k) then e <| acc_balance := 0 |> else account_or_new k s) as Hs3.
  { intros k. unfold s3. by rewrite !account_or_new_write, Hs1. }
  assert (wrapping_add (balance_of s (tx_from tx)) (ch_opener_balance m) =
          balance_of s (tx_from tx) + ch_opener_balance m) as Hw by (apply wrapping_add_small; lia).
  rewrite Hroot, (bool_decide_false (counterparty = 0)), andb_true_r by done.
  case_bool_decide as Hpos; [rewrite update_account_run|]; (eexists; split; [done|]); unfold balance_of in *;
    rewrite ?account_or_new_write, ?(bool_decide_true (counterparty = counterparty)),
      ?(bool_decide_false (counterparty = _)) by congruence; rewrite !Hs3;
    rewrite !(bool_decide_true (tx_from tx = tx_from tx)), ?(bool_decide_true (addr = addr)),
      ?(bool_decide_false (tx_from tx = _)), ?(bool_decide_false (addr = counterparty)) by congruence.
  - split_and!; [exact Hw| |done]. apply wrapping_add_small. lia.
  - split_and!; [exact Hw|lia|done].
Qed.

End Machine.
End Channel.

Section Witnesses.
Import Channel LedgerDemo.

#[local] Instance demo_strict : StrictVerify := {|
  verify_strict pk msg sig := bool_decide (sig = Demo.pad64 msg);
|}.

Lemma demo_strict_law : StrictLaw.
Proof.
  split.
  - intros sk msg. cbn. unfold Demo.pad64. rewrite length_take, length_app, length_replicate. lia.
  - intros sk msg. by apply bool_decide_eq_true.
Qed.

(** Two machines over a deposit of 1000, of which the opener has paid 100. *)
Definition opener : ChannelStateMachine :=
  mkMachine 5 Opener Open 1000 900 100 1 (key_of 0) (key_of 1) [].
Definition other : ChannelStateMachine :=
  mkMachine 5 Counterparty Open 1000 900 100 1 (key_of 1) (key_of 0) [].

Lemma opener_paired : paired opener other.
Proof. by split. Qed.

Lemma opener_sound : sound opener.
Proof. split; unfold u64_max; cbn; lia. Qed.

Lemma payment_round_trip_witness :
  exists c c' a' b', pay opener 50 = Ok c /\ receive_state other c = Ok (c', b') /\
    finalize_state opener c' = Ok a' /\ my_balance a' = 850 /\ my_balance b' = 150.
Proof.
  destruct (payment_round_trip (SL := demo_strict_law) opener other 50) as
    (c & c' & a' & b' & H1 & H2 & H3 & _ & _ & _ & H4 & H5 & _).
  - apply opener_paired.
  - apply opener_sound.
  - cbn. lia.
  - unfold u64_max. cbn. lia.
  - by exists c, c', a', b'.
Defined.

(** A fresh pair, and the first payment of the counterparty. *)
Definition fresh (role : Role) : ChannelStateMachine :=
  (new 5 role 1000 (key_of (match role with Opener => 0 | Counterparty => 1 end))
     (key_of (match role with Opener => 1 | Counterparty => 0 end))) <| ch_state := Open |>.

Definition balance_after (m : ChannelStateMachine) (c : StateCommitment) : option Z :=
  match receive_state m c with Ok (_, m') => Some (my_balance m') | _ => None end.

Definition balance_after_pay (m payer : ChannelStateMachine) (amount : Z) : option Z :=
  match pay payer amount with Ok c => balance_after m c | _ => None end.

(** The nonces of a machine that receives [c] and then finalizes the signed state [old]. *)
Definition nonces_around (m : ChannelStateMachine) (c old : StateCommitment) : option (Z * Z) :=
  match receive_state m c with
  | Ok (_, m') =>
      match finalize_state m' (old <| sc_acceptor_sig := Some (sc_proposer_sig old) |>) with
      | Ok m2 => Some (ch_nonce m', ch_nonce m2)
      | _ => None
      end
  | _ => None
  end.

(** A commitment with these fields, signed by the other party. *)
Definition offer (nonce x y : Z) : StateCommitment :=
  signed_by (key_of 1) (mkCommitment 5 nonce x y [] None).

(** The opener after an update to 600 and 400. *)
Definition accepted : StateCommitment :=
  (offer 1 600 400) <| sc_acceptor_sig := Some (ed25519_sign (key_of 0) (signing_payload (offer 1 600 400))) |>.
Definition updated : ChannelStateMachine := adopt (fresh Opener) accepted.

Lemma updated_run : receive_state (fresh Opener) (offer 1 600 400) = Ok (accepted, updated).
Proof.
  apply receive_state_accepts; [done|done|done|by vm_compute|]. apply (check_sign (SL := demo_strict_law) _ (key_of 1)).
  done.
Qed.

Lemma dispute_submits_current_state_witness : exists c, dispute updated = Ok c /\ at_commitment updated c.
Proof.
  destruct (dispute_submits_current_state (CR := wide_crypto) 5 Opener 1000 (key_of 0) (key_of 1) updated) as (c & Hd & Hat & _).
  - apply (rtc_l _ _ (fresh Opener)); [by apply step_open|]. apply rtc_once.
    apply (step_receive _ (offer 1 600 400) accepted). apply updated_run.
  - by vm_compute.
  - exists c. by split.
Defined.

Lemma received_states_advance_witness : ch_nonce (fresh Opener) <= ch_nonce updated.
Proof.
  apply (received_states_advance (fresh Opener) updated).
  - apply rtc_once, (checked_receive _ (offer 1 600 400) accepted), updated_run.
  - by vm_compute.
Defined.

(** The opener closes: the deposit is in the escrow, and the first nonce is used. *)
Definition open_state : StateDB :=
  (execute_tx (signed 0 None 0 (BChannelOpen 5 (user 1) 1000 10) 0) legacy_state).2.
Definition close_tx : Transaction := signed 0 None 1 (BChannelClose 5 900 100 [] 1) 0.

Lemma opener_escrowed : escrowed opener open_state (tx_from close_tx) (user 1).
Proof.
  split.
  - destruct (get_account (channel_address 5) open_state) as [e|] eqn:He; [|by vm_compute in He].
    exists e. split; [done|]. vm_compute in He. injection He as <-. by vm_compute.
  - apply (bool_decide_eq_true_1 (NoDup [channel_address 5; user 0; user 1])). by vm_compute.
  - by vm_compute.
  - split; by vm_compute.
Qed.

Lemma closing_state_settles_witness :
  exists s', execute_channel_close close_tx 5 900 100 open_state = (Ok (), s') /\
    balance_of s' (user 1) = balance_of open_state (user 1) + 100.
Proof.
  destruct (close opener) as [[c m']| |] eqn:Hc; [|done..].
  destruct (closing_state_settles opener c m' close_tx open_state (user 1)) as (s' & Hx & _ & Hcp & _).
  - exact Hc.
  - apply opener_sound.
  - apply opener_escrowed.
  - apply balances_checked. by vm_compute.
  - by vm_compute.
  - exists s'. injection Hc as <- _. by split.
Defined.

(** What the machines do not check.  A fresh counterparty holds the whole deposit in its
    own view, so its first payment of 1 takes 999 of 1000 from the opener; a received state
    may wrap the sum of the balances, here 1001 and 2^64 - 1 over a deposit of 1000; and
    [finalize_state] checks neither the nonce nor the state, so a signature of the other party
    over an old state takes the machine back to it. *)
Theorem channel_checks_have_gaps :
  my_balance (fresh Opener) = 1000 /\
  balance_after_pay (fresh Opener) (fresh Counterparty) 1 = Some 1 /\
  balance_after (fresh Opener) (offer 1 1001 u64_max) = Some 1001 /\
  nonces_around (fresh Opener) (offer 2 700 300) (offer 1 600 400) = Some (2, 1).
Proof. vm_compute. split_and!; reflexivity. Qed.

End Witnesses.
