(* ===== verification/Locality.v ===== *)
(** * Locality of ledger computations

    A computation is local to a set of accounts when its result and its writes depend on
    those accounts alone, besides the fields that execution never writes; the synthetic
    key of the validator registry in the set stands for the registry and the staking
    pool.  Local computations with disjoint sets commute up to [state_equiv], which
    forgets the order of the log and the layout of the release queue. *)

From S2P Require Import Prelude Crypto Validators Blocks Ledger Tier1 Contracts Executor.

(** ** Equivalence of states *)

(** The fields no execution writes, and those a local computation does not. *)
Definition settings (s : StateDB) :=
  (db_height s, db_wal_active s, db_recovery_context s,
   db_community_rewards_v1_activation_height s, db_native_inference s, db_native_migration s,
   db_history s).

Definition consts (s : StateDB) :=
  (settings s, db_storage s, db_contracts s, db_tier1_pending s, db_dirty_accounts s,
   db_incremental_merkle s).

(** The escrows queued, with their heights. *)
Definition queue_members (q : list (Z * list Address)) : gset (Z * Address) :=
  list_to_set (q ≫= (fun e => (fun a => (e.1, a)) <$> e.2)).

Definition bucket_members (h : Z) (b : list Address) : gset (Z * Address) :=
  list_to_set ((fun a => (h, a)) <$> b).

Lemma queue_members_cons h b q :
  queue_members ((h, b) :: q) = bucket_members h b ∪ queue_members q.
Proof. unfold queue_members, bucket_members. cbn. apply list_to_set_app_L. Qed.

Lemma bucket_members_cons h a b : bucket_members h (a :: b) = {[(h, a)]} ∪ bucket_members h b.
Proof. done. Qed.

Lemma bucket_members_insert h a l :
  bucket_members h (bucket_insert a l) = {[(h, a)]} ∪ bucket_members h l.
Proof.
  induction l as [|y l IH]; cbn [bucket_insert]; [done|].
  case_bool_decide; [subst; rewrite bucket_members_cons; set_solver|].
  case_bool_decide; [done|]. rewrite !bucket_members_cons, IH. set_solver.
Qed.

Lemma queue_members_insert h a q :
  queue_members (queue_insert h a q) = {[(h, a)]} ∪ queue_members q.
Proof.
  induction q as [|[k b] q IH]; cbn [queue_insert]; [done|].
  case_bool_decide; [subst|case_bool_decide]; rewrite !queue_members_cons.
  - rewrite bucket_members_insert. set_solver.
  - rewrite bucket_members_cons. set_solver.
  - rewrite IH. set_solver.
Qed.

Record state_equiv (s t : StateDB) : Prop := {
  equiv_accounts : db_accounts s = db_accounts t;
  equiv_validators : db_validators s = db_validators t;
  equiv_pool : db_staking_pool s = db_staking_pool t;
  equiv_consts : consts s = consts t;
  equiv_wal : db_wal s ≡ₚ db_wal t;
  equiv_queue : queue_members (db_pending_bond_releases s) =
                queue_members (db_pending_bond_releases t);
}.

Infix "≈" := state_equiv (at level 70).

#[global] Instance state_equiv_equivalence : Equivalence state_equiv.
Proof.
  split.
  - by intros s.
  - intros s t [? ? ? ? ? ?]. by split.
  - intros s t u [? ? ? ? ? ?] [? ? ? ? ? ?]. split; congruence || by etrans.
Qed.

(** ** Locality *)

Section Locality.
Context `{Crypto, TxCodec}.

(** The key a transaction that reads or writes the registry adds to its accounts. *)
Definition validator_set_access_key : Address :=
  hash_bytes (ascii_bytes "arc-block-stm-validator-set-v1").

Lemma consts_settings s t : consts s = consts t -> settings s = settings t.
Proof. intros Hc. exact (f_equal (fun c => c.1.1.1.1.1) Hc). Qed.

(** Two states that a computation local to [S] cannot tell apart. *)
Record agree (S : gset Address) (s t : StateDB) : Prop := {
  agree_accounts : forall k, k ∈ S -> db_accounts s !! k = db_accounts t !! k;
  agree_registry : validator_set_access_key ∈ S ->
    db_validators s = db_validators t /\ db_staking_pool s = db_staking_pool t;
  agree_settings : settings s = settings t;
}.

(** What it leaves alone. *)
Record frame (S : gset Address) (s s' : StateDB) : Prop := {
  frame_accounts : forall k, k ∉ S -> db_accounts s' !! k = db_accounts s !! k;
  frame_registry : validator_set_access_key ∉ S ->
    db_validators s' = db_validators s /\ db_staking_pool s' = db_staking_pool s;
  frame_consts : consts s' = consts s;
}.

(** What it appends, to the log and to the queue. *)
Definition appends (ops : list WalEntry) (qs : gset (Z * Address)) (s s' : StateDB)
    : Prop :=
  db_wal s' = db_wal s ++ ops /\
  queue_members (db_pending_bond_releases s') = qs ∪ queue_members (db_pending_bond_releases s).

Definition local {A} (S : gset Address) (m : ledger A) : Prop :=
  forall s t, agree S s t ->
    (m s).1 = (m t).1 /\ agree S (m s).2 (m t).2 /\
    frame S s (m s).2 /\ frame S t (m t).2 /\
    exists ops qs, appends ops qs s (m s).2 /\ appends ops qs t (m t).2.

Lemma frame_refl S s : frame S s s.
Proof. by split. Qed.

Lemma frame_trans S s1 s2 s3 : frame S s1 s2 -> frame S s2 s3 -> frame S s1 s3.
Proof.
  intros [Ha Hr Hc] [Ha' Hr' Hc']. split; [|intros Hk; split|congruence].
  - intros k Hk. by rewrite Ha', Ha.
  - rewrite (proj1 (Hr' Hk)). by apply Hr.
  - rewrite (proj2 (Hr' Hk)). by apply Hr.
Qed.

Lemma appends_nil s s' :
  db_wal s' = db_wal s -> db_pending_bond_releases s' = db_pending_bond_releases s ->
  appends [] ∅ s s'.
Proof. intros Hw Hq. split; [by rewrite app_nil_r|]. rewrite Hq. set_solver. Qed.

Lemma appends_trans ops1 qs1 ops2 qs2 s1 s2 s3 :
  appends ops1 qs1 s1 s2 -> appends ops2 qs2 s2 s3 -> appends (ops1 ++ ops2) (qs2 ∪ qs1) s1 s3.
Proof.
  intros [Hw Hq] [Hw' Hq']. split; [by rewrite Hw', Hw, app_assoc|]. rewrite Hq', Hq. set_solver.
Qed.

(** A computation that writes nothing. *)
Lemma local_readonly {A} S (m : ledger A) (f : StateDB -> outcome StateError A) :
  (forall s, m s = (f s, s)) -> (forall s t, agree S s t -> f s = f t) -> local S m.
Proof.
  intros Hm Hf s t Hag. rewrite !Hm. cbn. split_and!; auto using frame_refl.
  exists [], ∅. split; by apply appends_nil.
Qed.

Lemma local_ret {A} S (a : A) : local S (mret a).
Proof. by apply (local_readonly _ _ (fun _ => Ok a)). Qed.

Lemma local_pure {A} S (o : outcome StateError A) : local S (pureL o).
Proof. by apply (local_readonly _ _ (fun _ => o)). Qed.

Lemma local_check {A} S (f : StateDB -> outcome StateError A) :
  (forall s t, agree S s t -> f s = f t) -> local S (checkL f).
Proof. by apply local_readonly. Qed.

Lemma local_read {A} S (f : StateDB -> A) :
  (forall s t, agree S s t -> f s = f t) -> local S (readL f).
Proof.
  intros Hf. apply (local_readonly _ _ (fun s => Ok (f s))); [done|].
  intros s t Hag. by rewrite (Hf s t Hag).
Qed.

Lemma local_bind {A B} S (m : ledger A) (k : A -> ledger B) :
  local S m -> (forall a, local S (k a)) -> local S (m ≫= k).
Proof.
  intros Hm Hk s t Hag. destruct (Hm s t Hag) as (Hr & Hag1 & Hf1 & Hf2 & ops & qs & Ha1 & Ha2).
  unfold mbind, ledger_bind. destruct (m s) as [r s1], (m t) as [r' t1]. cbn in *. subst r'.
  destruct r as [a|e|]; cbn; [|split_and!; [done..|by exists ops, qs]|split_and!; [done..|by exists ops, qs]].
  destruct (Hk a s1 t1 Hag1) as (Hr & Hag2 & Hf1' & Hf2' & ops' & qs' & Ha1' & Ha2').
  split_and!; [done|done|by eapply frame_trans|by eapply frame_trans|].
  exists (ops ++ ops'), (qs' ∪ qs). split; by eapply appends_trans.
Qed.

Lemma agree_insert S s t k a :
  agree S s t ->
  agree S (s <| db_accounts := <[k := a]> (db_accounts s) |>)
          (t <| db_accounts := <[k := a]> (db_accounts t) |>).
Proof.
  intros [Ha Hr Hc]. split; [|done..]. intros k' Hk'. cbn.
  destruct (decide (k = k')) as [->|Hne]; [by rewrite !lookup_insert_eq|].
  rewrite !lookup_insert_ne by done. by apply Ha.
Qed.

Lemma frame_insert S s k a :
  k ∈ S -> frame S s (s <| db_accounts := <[k := a]> (db_accounts s) |>).
Proof. intros Hk. split; [|done..]. intros k' Hk'. cbn. by rewrite lookup_insert_ne by set_solver. Qed.

Lemma local_insert S k a : k ∈ S -> local S (insert_account k a).
Proof.
  intros Hk s t Hag. unfold insert_account, modifyL. cbn [fst snd].
  split_and!; [done|by apply agree_insert|by apply frame_insert|by apply frame_insert|].
  exists [], ∅. split; by apply appends_nil.
Qed.

Lemma agree_account_or_new S s t k :
  k ∈ S -> agree S s t -> account_or_new k s = account_or_new k t.
Proof. intros Hk Hag. unfold account_or_new. by rewrite (agree_accounts _ _ _ Hag). Qed.

Lemma local_get_or_create S k : k ∈ S -> local S (get_or_create_account k).
Proof.
  intros Hk s t Hag. unfold get_or_create_account. cbn [fst snd].
  rewrite (agree_account_or_new _ _ _ _ Hk Hag).
  split_and!; [done|by apply agree_insert|by apply frame_insert|by apply frame_insert|].
  exists [], ∅. split; by apply appends_nil.
Qed.

Lemma local_wal S k a : local S (wal_append k a).
Proof.
  intros s t Hag. assert (db_wal_active s = db_wal_active t /\ db_height s = db_height t) as [Hw Hh].
  { pose proof (agree_settings _ _ _ Hag) as Hc. unfold settings in Hc. by simplify_eq. }
  destruct Hag as [Ha Hr Hc]. unfold wal_append, append_op, modifyL. cbn [fst snd]. rewrite Hw, Hh.
  split_and!; [done|destruct (db_wal_active t); by split..|].
  - exists (if db_wal_active t then [mkWalEntry (SetAccount k a) (db_height t)] else []), ∅.
    destruct (db_wal_active t); [split; (split; [done|cbn; set_solver])|split; by apply appends_nil].
Qed.

(** Updates of the registry and of the pool. *)
Lemma local_registry S (f : gmap Address Z -> gmap Address Z) :
  validator_set_access_key ∈ S -> local S (modifyL (fun s => s <| db_validators := f (db_validators s) |>)).
Proof.
  intros Hk s t [Ha Hr Hc]. destruct (Hr Hk) as [Hv Hp]. cbn. split_and!; [done| |by split..|].
  - split; [done| |done]. intros _. cbn. by rewrite Hv.
  - exists [], ∅. split; by apply appends_nil.
Qed.

Lemma local_pool S (f : Z -> option Z) e :
  validator_set_access_key ∈ S ->
  local S (fun s => match f (db_staking_pool s) with
                    | Some p => (Ok (), s <| db_staking_pool := p |>)
                    | None => (Err e, s)
                    end).
Proof.
  intros Hk s t [Ha Hr Hc]. destruct (Hr Hk) as [Hv Hp]. rewrite Hp.
  destruct (f (db_staking_pool t)) as [p|]; cbn; (split_and!; [done|by split|by split|by split|]);
    exists [], ∅; split; by apply appends_nil.
Qed.

Lemma local_enqueue S h a : local S (enqueue_release h a).
Proof.
  intros s t [Ha Hr Hc]. cbn. split_and!; [done|by split|by split|by split|].
  exists [], {[(h, a)]}. split; (split; [by rewrite app_nil_r|apply queue_members_insert]).
Qed.

(** ** Local computations respect the equivalence and commute *)

Lemma agree_equiv S s t : s ≈ t -> agree S s t.
Proof. intros [Ha Hv Hp Hc _ _]. split; [by rewrite Ha|done|by apply consts_settings]. Qed.

Lemma agree_frame S1 S2 s s' : S1 ## S2 -> frame S1 s s' -> agree S2 s s'.
Proof.
  intros Hd [Ha Hr Hc]. split; [|intros Hk; destruct Hr; [set_solver|done]|by apply consts_settings].
  intros k Hk. by rewrite Ha by set_solver.
Qed.

(** Two states that agree on [S] after local steps from equal accounts are equal. *)
Lemma frames_equal S s t s' t' :
  db_accounts s = db_accounts t -> db_validators s = db_validators t ->
  db_staking_pool s = db_staking_pool t ->
  frame S s s' -> frame S t t' -> agree S s' t' ->
  db_accounts s' = db_accounts t' /\ db_validators s' = db_validators t' /\
  db_staking_pool s' = db_staking_pool t'.
Proof.
  intros Ha Hv Hp [Fa Fr Fc] [Ga Gr Gc] [Aa Ar Ac]. split.
  - apply map_eq. intros k. destruct (decide (k ∈ S)); [by apply Aa|].
    by rewrite Fa, Ga, Ha.
  - destruct (decide (validator_set_access_key ∈ S)) as [Hk|Hk]; [by apply Ar|].
    rewrite (proj1 (Fr Hk)), (proj2 (Fr Hk)), (proj1 (Gr Hk)), (proj2 (Gr Hk)). done.
Qed.

Lemma local_respects {A} S (m : ledger A) s t :
  local S m -> s ≈ t -> (m s).1 = (m t).1 /\ (m s).2 ≈ (m t).2.
Proof.
  intros Hm Heq. destruct (Hm s t) as (Hr & Hag & Hf1 & Hf2 & ops & qs & [Hw Hq] & [Hw' Hq']);
    [by apply agree_equiv|]. split; [done|].
  destruct Heq as [Ha Hv Hp Hc Hwal Hqueue].
  destruct (frames_equal S s t (m s).2 (m t).2) as (? & ? & ?); [done..|].
  split; [done..| | |].
  - by rewrite (frame_consts _ _ _ Hf1), (frame_consts _ _ _ Hf2).
  - by rewrite Hw, Hw', Hwal.
  - by rewrite Hq, Hq', Hqueue.
Qed.

Lemma local_commute {A B} S1 S2 (m1 : ledger A) (m2 : ledger B) s :
  local S1 m1 -> local S2 m2 -> S1 ## S2 ->
  (m2 (m1 s).2).1 = (m2 s).1 /\ (m1 (m2 s).2).1 = (m1 s).1 /\
  (m2 (m1 s).2).2 ≈ (m1 (m2 s).2).2.
Proof.
  intros H1 H2 Hd. set (s1 := (m1 s).2). set (s2 := (m2 s).2).
  destruct (H1 s s (agree_equiv _ _ _ (reflexivity s))) as (_ & _ & F1 & _).
  destruct (H2 s s (agree_equiv _ _ _ (reflexivity s))) as (_ & _ & F2 & _).
  destruct (H2 s s1) as (R2 & A2 & _ & F21 & ops2 & qs2 & [W2 Q2] & [W21 Q21]);
    [by eapply agree_frame|].
  destruct (H1 s s2) as (R1 & A1 & _ & F12 & ops1 & qs1 & [W1 Q1] & [W12 Q12]);
    [by eapply agree_frame|].
  fold s1 s2 in F1, F2, A1, A2, W1, W2, Q1, Q2. split; [done|]. split; [done|].
  assert (db_validators (m2 s1).2 = db_validators (m1 s2).2 /\
          db_staking_pool (m2 s1).2 = db_staking_pool (m1 s2).2) as [Hv Hp].
  { destruct (decide (validator_set_access_key ∈ S1)) as [Hk|Hk]; [|destruct (decide (validator_set_access_key ∈ S2)) as [Hk2|Hk2]].
    - destruct (frame_registry _ _ _ F21) as [-> ->]; [set_solver|]. by apply A1.
    - destruct (frame_registry _ _ _ F12) as [-> ->]; [done|].
      destruct (agree_registry _ _ _ A2 Hk2) as [<- <-]. done.
    - destruct (frame_registry _ _ _ F21 Hk2), (frame_registry _ _ _ F12 Hk),
        (frame_registry _ _ _ F1 Hk), (frame_registry _ _ _ F2 Hk2). split; congruence. }
  split; [|done|done|..].
  - apply map_eq. intros k. destruct (decide (k ∈ S1)) as [Hk|Hk]; [|destruct (decide (k ∈ S2)) as [Hk2|Hk2]].
    + rewrite (frame_accounts _ _ _ F21) by set_solver. by apply A1.
    + rewrite (frame_accounts _ _ _ F12) by done. symmetry. by apply A2.
    + by rewrite (frame_accounts _ _ _ F21), (frame_accounts _ _ _ F12),
        (frame_accounts _ _ _ F1), (frame_accounts _ _ _ F2).
  - rewrite (frame_consts _ _ _ F21), (frame_consts _ _ _ F12), (frame_consts _ _ _ F1),
      (frame_consts _ _ _ F2). done.
  - rewrite W21, W12, W1, W2, <- !app_assoc. by rewrite (Permutation_app_comm ops1).
  - rewrite Q21, Q12, Q1, Q2. set_solver.
Qed.

(** ** What agreeing states have in common *)

Section Reads.
Context (S : gset Address) (s t : StateDB) (Hag : agree S s t).

Lemma agree_get_account k : k ∈ S -> get_account k s = get_account k t.
Proof. apply Hag. Qed.

Lemma agree_contains k : k ∈ S -> contains_account s k = contains_account t k.
Proof. intros Hk. unfold contains_account. by rewrite (agree_accounts _ _ _ Hag). Qed.

Lemma agree_height : db_height s = db_height t.
Proof. pose proof (agree_settings _ _ _ Hag) as Hc. unfold settings in Hc. by simplify_eq. Qed.

Lemma agree_recovery_context : db_recovery_context s = db_recovery_context t.
Proof. pose proof (agree_settings _ _ _ Hag) as Hc. unfold settings in Hc. by simplify_eq. Qed.

Lemma agree_protocol_v3 : protocol_v3 s = protocol_v3 t.
Proof.
  pose proof (agree_settings _ _ _ Hag) as Hc. unfold settings in Hc. simplify_eq.
  unfold protocol_v3, active_protocol_version.
  by repeat match goal with Hx : ?f s = ?f t |- _ => rewrite Hx end.
Qed.

Lemma agree_native_binding :
  refuse_registry_change_under_native_binding s = refuse_registry_change_under_native_binding t.
Proof.
  pose proof (agree_settings _ _ _ Hag) as Hc. unfold settings in Hc. simplify_eq.
  unfold refuse_registry_change_under_native_binding.
  by repeat match goal with Hx : ?f s = ?f t |- _ => rewrite Hx end.
Qed.

Lemma agree_rewards_active : community_rewards_v1_active s = community_rewards_v1_active t.
Proof.
  pose proof (agree_settings _ _ _ Hag) as Hc. unfold settings in Hc. simplify_eq.
  unfold community_rewards_v1_active, community_rewards_v1_activation_height.
  by repeat match goal with Hx : ?f s = ?f t |- _ => rewrite Hx end.
Qed.

Lemma agree_signature tx : verify_transaction_signature s tx = verify_transaction_signature t tx.
Proof. unfold verify_transaction_signature. by rewrite agree_recovery_context. Qed.

Lemma agree_validators : validator_set_access_key ∈ S -> db_validators s = db_validators t.
Proof. intros Hk. by apply (agree_registry _ _ _ Hag). Qed.

Lemma agree_active_validator k :
  validator_set_access_key ∈ S -> is_active_validator s k = is_active_validator t k.
Proof. intros Hk. unfold is_active_validator. by rewrite agree_validators. Qed.

Lemma agree_tracked_stake k :
  validator_set_access_key ∈ S -> tracked_stake k s = tracked_stake k t.
Proof. intros Hk. unfold tracked_stake. by rewrite agree_validators. Qed.

End Reads.

(** ** The shared steps of the arms *)

Lemma local_if {A} S (b : bool) (m1 m2 : ledger A) :
  local S m1 -> local S m2 -> local S (if b then m1 else m2).
Proof. by destruct b. Qed.

Lemma local_store S k a : k ∈ S -> local S (store_account k a).
Proof. intros Hk. apply local_bind; [by apply local_insert|intros _; apply local_wal]. Qed.

Lemma local_update S k f : k ∈ S -> local S (update_account k f).
Proof.
  intros Hk. apply local_bind; [by apply local_get_or_create|intros a; by apply local_store].
Qed.

Lemma local_load_sender S tx : tx_from tx ∈ S -> local S (load_sender tx).
Proof.
  intros Hk. apply local_bind; [by apply local_get_or_create|intros a].
  apply local_bind; [apply local_pure|intros _; apply local_ret].
Qed.

Lemma local_ensure S b what : local S (ensure b what).
Proof. apply local_pure. Qed.

Lemma local_read_account S k : k ∈ S -> local S (readL (account_or_new k)).
Proof. intros Hk. apply local_read. intros s t Hag. by apply (agree_account_or_new S). Qed.

Lemma local_check_account {A} S k (f : option Account -> outcome StateError A) :
  k ∈ S -> local S (checkL (fun s => f (get_account k s))).
Proof. intros Hk. apply local_check. intros s t Hag. by rewrite (agree_get_account S s t). Qed.

Lemma local_read_height S : local S (readL db_height).
Proof. apply local_read. intros s t Hag. by apply (agree_height S). Qed.

Lemma local_native_binding S : local S (checkL refuse_registry_change_under_native_binding).
Proof. apply local_check. intros s t Hag. by apply (agree_native_binding S). Qed.

Lemma local_tracked_stake S k :
  validator_set_access_key ∈ S -> local S (readL (tracked_stake k)).
Proof. intros Hk. apply local_read. intros s t Hag. by apply (agree_tracked_stake S). Qed.

Lemma local_insert_validator S k v :
  validator_set_access_key ∈ S -> local S (insert_validator k v).
Proof. apply local_registry. Qed.

Lemma local_remove_validator S k :
  validator_set_access_key ∈ S -> local S (remove_validator k).
Proof. apply local_registry. Qed.

Lemma local_set_validator S k v :
  validator_set_access_key ∈ S -> local S (set_validator k v).
Proof. intros Hk. apply local_if; [by apply local_remove_validator|by apply local_insert_validator]. Qed.

Lemma local_add_pool S amount :
  validator_set_access_key ∈ S -> local S (add_staking_pool_checked amount).
Proof. apply (local_pool _ (fun p => checked_add p amount)). Qed.

Lemma local_subtract_pool S amount :
  validator_set_access_key ∈ S -> local S (subtract_staking_pool_checked amount).
Proof. apply (local_pool _ (fun p => checked_sub p amount)). Qed.

Lemma local_lock_stake S a amount : local S (lock_stake a amount).
Proof. repeat (apply local_bind; [apply local_pure|intros ?]). apply local_ret. Qed.

Lemma local_unlock_stake S a amount : local S (unlock_stake a amount).
Proof. repeat (apply local_bind; [apply local_pure|intros ?]). apply local_ret. Qed.

Lemma local_checked_nonce S a what : local S (checked_nonce a what).
Proof. apply local_pure. Qed.

Lemma local_stake_covered S a v : local S (stake_covered a v).
Proof. apply local_ensure. Qed.

End Locality.

Create HintDb local.
#[export] Hint Resolve local_ret local_pure local_ensure local_insert local_store local_update
  local_load_sender local_get_or_create local_wal local_read_account local_read_height
  local_native_binding local_tracked_stake local_insert_validator local_remove_validator
  local_set_validator local_add_pool local_subtract_pool local_lock_stake local_unlock_stake
  local_checked_nonce local_stake_covered local_enqueue : local.

(** [solve_local] walks through the binds and branches of an arm. *)
Ltac solve_local :=
  cbv beta zeta;
  first
  [ apply local_bind; [solve_local|intros ?; solve_local]
  | apply local_if; solve_local
  | solve [eauto 3 with local]
  | idtac ].
