(* ===== verification/BlockStm.v ===== *)
(** * Parallel execution (crates/arc-state/src/block_stm.rs)

    The accounts predicted for a transaction, the partition of a block into batches, and
    the execution of the batches.  The transactions of a batch run in parallel in the
    source; here a batch runs in an arbitrary order of its transactions, each of them one
    step.

    The batches keep the order of transactions whose predicted accounts overlap, and for
    the families whose prediction covers what they touch every run of the batches is the
    sequential one, up to the order of the records in the log.  The bridge and channel
    families touch accounts that are not predicted. *)

From S2P Require Import Prelude Crypto Validators Blocks Ledger Tier1 Contracts Executor LedgerDemo.
From S2P Require Import Locality.

(** ** Definitions *)

Section Defs.
Context `{CR : Crypto, TC : TxCodec, HO : HashOrder, WE : WasmEngine, NL : NativeLane}.

(** The accounts a body adds to its sender. *)
Definition body_access_set (tx : Transaction) : list Address :=
  match tx_body tx with
  | BTransfer to _ _ => [to; v3_fee_treasury_address]
  | BSettle agent_id _ _ _ _ => [agent_id]
  | BSwap counterparty _ _ _ _ => [counterparty]
  | BStake _ _ validator => [validator; validator_set_access_key]
  | BEscrow beneficiary _ _ _ => [beneficiary]
  | BRegisterAgent _ _ _ _ _ | BMultiSig _ _ _ => []
  | BJoinValidator _ _ | BLeaveValidator | BUpdateStake _ => [validator_set_access_key]
  | BClaimRewards | BGovernance _ => []
  | BBridgeLock _ _ _ | BBridgeMint _ _ _ _ _ => []
  | BBatchSettle entries => se_agent_id <$> entries
  | BChannelOpen _ counterparty _ _ => [counterparty]
  | BChannelClose _ _ _ _ _ | BChannelDispute _ _ _ _ _ _ => []
  | BInferenceAttestation _ _ _ _ _ => [attestation_escrow_address (tx_hash tx)]
  | BCommunityInferenceReward b =>
      [inference_reward_treasury_address; validator_set_access_key; cr_worker b;
       marker_address (cr_chain_domain b) (cr_job_id b);
       v3_marker_address (cr_chain_domain b) (cr_job_id b);
       certificate_marker_address (cr_chain_domain b) (cr_worker b)
         (wc_attestation_hash (cr_worker_certificate b));
       v3_certificate_marker_address (cr_chain_domain b) (cr_worker b)
         (wc_attestation_hash (cr_worker_certificate b))] ++
      option_list (recovery_probe_marker_address (cr_chain_domain b) (cr_assignment_epoch b)) ++
      option_list (v3_recovery_probe_marker_address (cr_chain_domain b) (cr_assignment_epoch b))
  | BInferenceChallenge attestation_hash _ _ => [attestation_escrow_address attestation_hash]
  | BInferenceRegister _ _ => []
  | BInferenceEscrowOpen request_id _ _ _ _ => [escrow_address request_id]
  | BInferenceEscrowRelease request_id _ _ _ _ _ proposer replicas observer_pool treasury =>
      [escrow_address request_id; proposer] ++ replicas ++ [observer_pool; treasury]
  | BInferenceEscrowRefund request_id _ _ _ => [escrow_address request_id]
  | BModelRegistration model_id _ _ _ _ _ _ _ => [registry_account model_id]
  | BModelRequest request_id _ _ _ _ => [request_account request_id]
  | BShardCoverageClaim model_id node_pubkey _ _ _ => [claim_account model_id node_pubkey]
  | BCapacityAdvertisement node_pubkey _ _ _ _ _ _ => [capacity_account node_pubkey]
  | BShardAssignmentProposal _ _ _ => []
  | BFaucetClaim recipient _ =>
      [recipient; faucet_pool_address; faucet_marker_address recipient;
       v3_faucet_marker_address recipient; validator_set_access_key]
  | BInferenceRequest b => [tier1_escrow_address (ir_request_id b)]
  | BInferenceVote request_id _ _ _ _ => [tier1_escrow_address request_id]
  | BInferenceFinalize request_id => [tier1_escrow_address request_id; faucet_pool_address]
  | BWasmCall contract _ _ _ _ => [contract]
  | BDeployContract _ _ _ | BShardProof _ _ _ _ _ _ _ => []
  | BNative f payload => native_access_set f payload
  end.

Definition tx_access_set (tx : Transaction) : gset Address :=
  list_to_set (tx_from tx :: body_access_set tx).

(** The first batch after every earlier transaction that touches one of the accounts. *)
Definition batch_index (last_batch : gmap Address nat) (access : gset Address) : nat :=
  foldr Nat.max 0%nat ((fun a => from_option S 0%nat (last_batch !! a)) <$> elements access).

(** [batches.resize_with(batch_index + 1, Vec::new); batches[batch_index].push(i)]. *)
Definition push_batch (k i : nat) (batches : list (list nat)) : list (list nat) :=
  alter (fun b => b ++ [i]) k (batches ++ replicate (S k - length batches) []).

Definition partition_step (st : list (list nat) * gmap Address nat) (ia : nat * gset Address)
    : list (list nat) * gmap Address nat :=
  let '(batches, last_batch) := st in
  let '(i, access) := ia in
  let k := batch_index last_batch access in
  (push_batch k i batches, set_fold (fun a m => <[a := k]> m) last_batch access).

Definition partition_batches (transactions : list Transaction) : list (list nat) :=
  (foldl partition_step ([], ∅) (imap pair (tx_access_set <$> transactions))).1.

(** The transactions of [order] one after the other, with the outcome of each by its
    index in the block.  An outcome that aborts is recorded like the others. *)
Fixpoint run_order (transactions : list Transaction) (order : list nat) (s : StateDB)
    : gmap nat (outcome StateError Z) * StateDB :=
  match order with
  | [] => (∅, s)
  | i :: order' =>
      match transactions !! i with
      | Some tx =>
          let '(r, s1) := execute_tx tx s in
          let '(rs, s2) := run_order transactions order' s1 in
          (<[i := r]> rs, s2)
      | None => run_order transactions order' s
      end
  end.

(** A run of the batches, each in some order. *)
Definition batch_schedule (transactions : list Transaction) (order : list nat) : Prop :=
  exists batches, Forall2 Permutation batches (partition_batches transactions) /\
                  order = concat batches.

End Defs.

(** ** The prediction covers the families below *)

Section Covered.
Context `{CR : Crypto, TC : TxCodec, HO : HashOrder, WE : WasmEngine, NL : NativeLane}.

(** Families that touch nothing but the accounts predicted for them. *)
Definition predicted (b : TxBody) : bool :=
  match b with
  | BTransfer _ _ _ | BSettle _ _ _ _ _ | BSwap _ _ _ _ _ | BEscrow _ _ _ _ | BStake _ _ _
  | BMultiSig _ _ _ | BRegisterAgent _ _ _ _ _ | BJoinValidator _ _ | BLeaveValidator
  | BClaimRewards | BUpdateStake _ | BGovernance _ | BBatchSettle _
  | BInferenceAttestation _ _ _ _ _ | BInferenceChallenge _ _ _ | BInferenceRegister _ _
  | BInferenceEscrowOpen _ _ _ _ _ | BInferenceEscrowRelease _ _ _ _ _ _ _ _ _ _
  | BInferenceEscrowRefund _ _ _ _ | BModelRequest _ _ _ _ _ | BShardCoverageClaim _ _ _ _ _
  | BCapacityAdvertisement _ _ _ _ _ _ _ | BFaucetClaim _ _ => true
  | _ => false
  end.

Lemma agree_transfer_admission S s t tx to amount c :
  agree S s t -> tx_from tx ∈ S -> to ∈ S -> v3_fee_treasury_address ∈ S ->
  validate_v3_transfer_admission s tx to amount c = validate_v3_transfer_admission t tx to amount c.
Proof.
  intros Hag Hf Ht Hv. unfold validate_v3_transfer_admission.
  by rewrite (agree_get_account _ _ _ Hag _ Hf), !(agree_account_or_new _ _ _ _ Ht Hag),
    !(agree_account_or_new _ _ _ _ Hv Hag).
Qed.

Lemma agree_faucet_admission S s t tx recipient amount :
  agree S s t -> recipient ∈ S -> faucet_pool_address ∈ S ->
  faucet_marker_address recipient ∈ S -> v3_faucet_marker_address recipient ∈ S ->
  validator_set_access_key ∈ S ->
  validate_v3_faucet_admission s tx recipient amount =
  validate_v3_faucet_admission t tx recipient amount.
Proof.
  intros Hag Hr Hp Hm Hm3 Hv.
  unfold validate_v3_faucet_admission, is_faucet_marker, claimed_under_legacy_marker,
    active_validators.
  by rewrite !(agree_get_account _ _ _ Hag) by done; rewrite !(agree_contains _ _ _ Hag) by done;
    rewrite !(agree_validators _ _ _ Hag), (agree_active_validator _ _ _ Hag),
      (agree_account_or_new _ _ _ _ Hr Hag) by done.
Qed.

Lemma local_v3 S {A} (k : bool -> ledger A) :
  local S (k true) -> local S (k false) -> local S (v3 ← readL protocol_v3; k v3).
Proof.
  intros Ht Hf. apply local_bind; [|by intros []].
  apply local_read. intros s t Hag. by apply (agree_protocol_v3 S).
Qed.

Lemma local_transfer S tx to amount c :
  tx_from tx ∈ S -> to ∈ S -> v3_fee_treasury_address ∈ S ->
  local S (execute_transfer tx to amount c).
Proof.
  intros Hf Ht Hv. unfold execute_transfer, execute_transfer_v3, execute_transfer_legacy.
  apply local_v3; solve_local.
  - apply local_check. intros s t Hag. by apply (agree_transfer_admission S).
  - by apply (local_check_account S _ (fun a => ok_or a _)).
  - by apply (local_check_account S _ (fun a => ok_or a _)).
Qed.

Lemma local_faucet S tx recipient amount :
  recipient ∈ S -> faucet_pool_address ∈ S ->
  faucet_marker_address recipient ∈ S -> v3_faucet_marker_address recipient ∈ S ->
  validator_set_access_key ∈ S ->
  local S (execute_faucet_claim tx recipient amount).
Proof.
  intros Hr Hp Hm Hm3 Hv. unfold execute_faucet_claim.
  apply local_v3; solve_local;
    try (by apply (local_check_account S _ (fun a => ok_or a _)));
    apply local_check; intros s t Hag.
  - by apply (agree_faucet_admission S).
  - by rewrite (agree_active_validator S s t).
  - unfold is_faucet_marker. by rewrite (agree_get_account S s t).
  - by rewrite (agree_contains S s t).
  - by rewrite (agree_active_validator S s t).
  - unfold is_faucet_marker. by rewrite (agree_get_account S s t).
  - by rewrite (agree_contains S s t).
Qed.

Lemma local_pay_credits S l : (forall k, k ∈ l.*1 -> k ∈ S) -> local S (pay_credits l).
Proof.
  induction l as [|[k x] l IH]; cbn [pay_credits]; intros Hl; [apply local_ret|].
  apply local_bind; [apply local_update; set_solver|intros _; apply IH; set_solver].
Qed.

Lemma net_credits_dom entries k : k ∈ dom (net_credits entries) -> k ∈ se_agent_id <$> entries.
Proof.
  unfold net_credits. induction entries as [|e entries IH] using rev_ind; [set_solver|].
  rewrite foldl_app, fmap_app. cbn. set_solver.
Qed.

Lemma local_batch_settle S tx entries :
  tx_from tx ∈ S -> (forall k, k ∈ se_agent_id <$> entries -> k ∈ S) ->
  local S (execute_batch_settle tx entries).
Proof.
  intros Hf He. unfold execute_batch_settle. solve_local. apply local_pay_credits.
  intros k Hk. apply He, net_credits_dom. apply list_elem_of_fmap in Hk as ([k' x] & -> & Hin).
  apply elem_of_dom. exists x. by apply elem_of_map_to_list.
Qed.

Lemma local_attestation S tx p x :
  tx_from tx ∈ S -> attestation_escrow_address (tx_hash tx) ∈ S ->
  local S (execute_inference_attestation tx p x).
Proof.
  intros Hf He. unfold execute_inference_attestation. solve_local.
  - apply local_check. intros s t Hag. by rewrite (agree_contains S s t).
  - destruct a3 as [[h e]|]; solve_local.
Qed.

Lemma local_credit_each S l x : (forall k, k ∈ l -> k ∈ S) -> local S (credit_each l x).
Proof.
  induction l as [|k l IH]; cbn [credit_each]; intros Hl; [apply local_ret|].
  apply local_bind; [apply local_update; set_solver|intros _; apply IH; set_solver].
Qed.

Lemma local_escrow_release S tx r p m x y a l o t :
  tx_from tx ∈ S -> escrow_address r ∈ S -> a ∈ S -> (forall k, k ∈ l -> k ∈ S) -> o ∈ S -> t ∈ S ->
  local S (execute_inference_escrow_release tx r p m x y a l o t).
Proof.
  intros Hf Hr Ha Hl Ho Ht. unfold execute_inference_escrow_release. solve_local.
  by apply local_credit_each.
Qed.

Lemma local_execute_body tx limit gas :
  predicted (tx_body tx) = true -> local (tx_access_set tx) (execute_body tx limit gas).
Proof.
  intros Hp. assert (tx_from tx ∈ tx_access_set tx) as Hf by (unfold tx_access_set; set_solver).
  assert (Forall (.∈ tx_access_set tx) (body_access_set tx)) as Hb
    by (apply Forall_forall; unfold tx_access_set; set_solver).
  generalize dependent (tx_access_set tx). intros S Hf Hb.
  unfold execute_body, body_access_set in *. destruct (tx_body tx); try discriminate Hp;
    clear Hp; repeat (apply Forall_cons in Hb as [? Hb]); apply local_bind; try (intros; apply local_ret).
  all: try (solve [unfold execute_settle, execute_swap, execute_escrow, execute_multisig,
    execute_register_agent, execute_nonce_only, execute_stake, execute_join_validator,
    execute_leave_validator, execute_update_stake, execute_inference_challenge,
    execute_inference_register, execute_inference_escrow_open, execute_inference_escrow_refund,
    execute_model_request, execute_shard_coverage_claim, execute_capacity_advertisement;
    solve_local]).
  - by apply local_transfer.
  - by apply local_batch_settle; [|apply Forall_forall].
  - by apply local_attestation.
  - apply Forall_app in Hb as [Hr Hb]. repeat (apply Forall_cons in Hb as [? Hb]).
    by apply local_escrow_release; [..|apply Forall_forall| |].
  - by apply local_faucet.
Qed.

Lemma agree_envelope S s t tx :
  agree S s t -> validate_v3_transaction_envelope s tx = validate_v3_transaction_envelope t tx.
Proof.
  intros Hag. unfold validate_v3_transaction_envelope. rewrite (agree_signature S s t Hag).
  pose proof (agree_settings _ _ _ Hag) as Hc. unfold settings in Hc. simplify_eq.
  by repeat match goal with Hx : ?f s = ?f t |- _ => rewrite Hx end.
Qed.

Lemma local_execute_tx tx :
  predicted (tx_body tx) = true -> local (tx_access_set tx) (execute_tx tx).
Proof.
  intros Hp. unfold execute_tx. apply local_bind; [apply local_ensure|intros _].
  apply local_v3; solve_local; try (by apply local_execute_body).
  apply local_check. intros s t Hag. by apply (agree_envelope (tx_access_set tx)).
Qed.

End Covered.

(** ** The partition *)

Section Partition.

(** [i] is in batch [k]. *)
Definition in_batch (batches : list (list nat)) (k i : nat) : Prop :=
  exists b, batches !! k = Some b /\ i ∈ b.

Lemma push_batch_lookup k i batches k' :
  push_batch k i batches !! k' =
    if decide (k' = k) then Some (default [] (batches !! k) ++ [i])
    else if decide (k' < k)%nat then Some (default [] (batches !! k'))
    else batches !! k'.
Proof.
  unfold push_batch. set (padded := batches ++ _).
  assert (forall j, padded !! j = if decide (j <= k)%nat then Some (default [] (batches !! j))
                                  else batches !! j) as Hp.
  { intros j. unfold padded. destruct (decide (j < length batches)%nat) as [Hj|Hj].
    - rewrite lookup_app_l by done. destruct (lookup_lt_is_Some_2 _ _ Hj) as [b ->]. by case_decide.
    - rewrite lookup_app_r by lia. rewrite (lookup_ge_None_2 batches) by lia. case_decide.
      + apply lookup_replicate. split; [done|lia].
      + apply lookup_ge_None_2. rewrite length_replicate. lia. }
  case_decide; subst.
  - rewrite list_lookup_alter_eq, Hp, decide_True by done. done.
  - rewrite list_lookup_alter_ne by done. rewrite Hp. repeat case_decide; done || lia.
Qed.

Lemma in_push_batch k i batches k' j :
  in_batch (push_batch k i batches) k' j <-> in_batch batches k' j \/ (k' = k /\ j = i).
Proof.
  unfold in_batch. rewrite push_batch_lookup. repeat case_decide; subst.
  - split.
    + intros (b & [= <-] & Hj%elem_of_app). destruct (batches !! k); set_solver.
    + intros [(b & Hb & Hj)|[_ ->]]; eexists; (split; [done|]); rewrite ?Hb; set_solver.
  - split.
    + intros (b & [= <-] & Hj). left. destruct (batches !! k') as [b|]; [by exists b|set_solver].
    + intros [(b & Hb & Hj)|[? ?]]; [|done]. rewrite Hb. by exists b.
  - naive_solver.
Qed.

Lemma concat_push_batch k i batches : concat (push_batch k i batches) ≡ₚ i :: concat batches.
Proof.
  unfold push_batch. set (padded := batches ++ _).
  assert (concat padded = concat batches) as <-.
  { unfold padded. rewrite concat_app.
    replace (concat (replicate _ [])) with (@nil nat); [by rewrite app_nil_r|].
    generalize (S k - length batches)%nat. intros n. by induction n. }
  assert (k < length padded)%nat as Hk.
  { unfold padded. rewrite length_app, length_replicate. lia. }
  clearbody padded. revert k Hk. induction padded as [|b l IH]; intros k Hk; cbn in Hk; [lia|].
  destruct k as [|k]; cbn; [solve_Permutation|]. rewrite IH by lia. solve_Permutation.
Qed.

Lemma foldr_max_le (l : list nat) x : x ∈ l -> (x <= foldr Nat.max 0 l)%nat.
Proof. induction 1; cbn; lia. Qed.

Lemma batch_index_gt last access a l :
  a ∈ access -> last !! a = Some l -> (l < batch_index last access)%nat.
Proof.
  intros Ha Hl. unfold batch_index. apply foldr_max_le, list_elem_of_fmap. exists a.
  rewrite Hl. split; [done|by apply elem_of_elements].
Qed.

Lemma set_fold_insert (k : nat) (access : gset Address) (m : gmap Address nat) a :
  set_fold (fun a m => <[a := k]> m) m access !! a =
    if decide (a ∈ access) then Some k else m !! a.
Proof.
  assert (forall (r : gmap Address nat) (X : gset Address), (a ∈ X -> r !! a = Some k) /\ (a ∉ X -> r !! a = m !! a) ->
            r !! a = if decide (a ∈ X) then Some k else m !! a) as Hdec
    by (intros r X [? ?]; case_decide; auto).
  apply Hdec, (set_fold_ind_L (fun r X => (a ∈ X -> r !! a = Some k) /\ (a ∉ X -> r !! a = m !! a))).
  - set_solver.
  - intros x X r Hx [Hin Hout]. destruct (decide (x = a)) as [->|Hne].
    + rewrite lookup_insert_eq. set_solver.
    + rewrite lookup_insert_ne by done. set_solver.
Qed.

(** What holds of the batches of the first access sets. *)
Record partition_ok (accs : list (gset Address)) (batches : list (list nat))
    (last : gmap Address nat) : Prop := {
  part_indices : concat batches ≡ₚ seq 0 (length accs);
  part_last : forall i A a k, accs !! i = Some A -> a ∈ A -> in_batch batches k i ->
    exists l, last !! a = Some l /\ (k <= l)%nat;
  part_order : forall i j A B a k l, (i < j)%nat -> accs !! i = Some A -> accs !! j = Some B ->
    a ∈ A -> a ∈ B -> in_batch batches k i -> in_batch batches l j -> (k < l)%nat;
}.

Lemma in_batch_lt accs batches last k i :
  partition_ok accs batches last -> in_batch batches k i -> (i < length accs)%nat.
Proof.
  intros [Hi _ _] (b & Hb & Hin). assert (i ∈ concat batches) as Hc.
  { apply list_elem_of_In, in_concat. exists b. rewrite <- !list_elem_of_In.
    split; [by eapply list_elem_of_lookup_2|done]. }
  rewrite Hi in Hc. apply elem_of_seq in Hc. lia.
Qed.

Lemma partition_step_ok accs batches last A :
  partition_ok accs batches last ->
  let st := partition_step (batches, last) (length accs, A) in partition_ok (accs ++ [A]) st.1 st.2.
Proof.
  intros Hok. cbn. set (k0 := batch_index last A).
  assert (forall k i, in_batch batches k i -> (i < length accs)%nat) as Hlt
    by (intros k i; by apply in_batch_lt with last).
  split.
  - rewrite concat_push_batch, (part_indices _ _ _ Hok), length_app. cbn [length].
    rewrite Nat.add_1_r, seq_S. apply Permutation_cons_append.
  - intros i B a k Hi Ha Hin. rewrite set_fold_insert.
    apply in_push_batch in Hin as [Hin|[-> ->]].
    + rewrite lookup_app_l in Hi by (by eapply Hlt).
      destruct (part_last _ _ _ Hok _ _ _ _ Hi Ha Hin) as (l & Hl & Hle).
      case_decide; [|by exists l]. exists k0. split; [done|].
      assert (l < k0)%nat by (by apply (batch_index_gt last A a)). lia.
    + rewrite list_lookup_middle in Hi by done. simplify_eq. rewrite decide_True by done. by exists k0.
  - intros i j B C a k l Hij Hi Hj HB HC Hki Hlj.
    apply in_push_batch in Hki as [Hki|[-> ->]]; apply in_push_batch in Hlj as [Hlj|[-> ->]].
    + rewrite lookup_app_l in Hi, Hj by (by eapply Hlt). by eapply (part_order _ _ _ Hok).
    + rewrite lookup_app_l in Hi by (by eapply Hlt). rewrite list_lookup_middle in Hj by done.
      simplify_eq. destruct (part_last _ _ _ Hok _ _ _ _ Hi HB Hki) as (m & Hm & Hle).
      assert (m < k0)%nat by (by apply (batch_index_gt last C a)). lia.
    + apply Hlt in Hlj. lia.
    + lia.
Qed.

Lemma partition_foldl_ok accs rest batches last :
  partition_ok accs batches last ->
  let st := foldl partition_step (batches, last) (imap (fun i A => (length accs + i, A)%nat) rest) in
  partition_ok (accs ++ rest) st.1 st.2.
Proof.
  revert accs batches last. induction rest as [|A rest IH]; intros accs batches last Hok.
  - by rewrite app_nil_r.
  - cbn [imap foldl]. pose proof (partition_step_ok _ _ _ A Hok) as Hok'. cbn zeta in Hok'.
    rewrite Nat.add_0_r. destruct (partition_step _ _) as [batches' last'].
    specialize (IH _ _ _ Hok'). rewrite <- app_assoc in IH. cbn in IH. cbn zeta.
    rewrite (imap_ext _ (fun i B => (length (accs ++ [A]) + i, B)%nat)).
    + exact IH.
    + intros i B _. rewrite length_app. cbn. f_equal. lia.
Qed.

End Partition.

(** ** Reordering *)

(** [i] comes before [j] in [l]. *)
Definition before (l : list nat) (i j : nat) : Prop :=
  exists l1 l2, l = l1 ++ i :: l2 /\ j ∈ l2.

Lemma before_cons x l i j : before l i j -> before (x :: l) i j.
Proof. intros (l1 & l2 & -> & Hj). by exists (x :: l1), l2. Qed.

Lemma before_remove a x b i j :
  before (a ++ x :: b) i j -> i <> x -> j <> x -> before (a ++ b) i j.
Proof.
  intros (l1 & l2 & Heq & Hj) Hi Hjx. revert l1 Heq.
  induction a as [|y a IH]; intros [|z l1] Heq; simplify_eq/=.
  - by exists l1, l2.
  - exists [], (a ++ b). split; [done|set_solver].
  - destruct (IH l1) as (m1 & m2 & -> & Hm); [done|]. by exists (z :: m1), m2.
Qed.

Lemma before_NoDup l i j : NoDup l -> before l i j -> ~ before l j i.
Proof.
  intros Hnd (l1 & l2 & -> & Hj) (m1 & m2 & Heq & Hi). revert m1 Heq.
  induction l1 as [|y l1 IH]; intros [|z m1] Heq; simplify_eq/=; apply NoDup_cons in Hnd as [Hn Hnd].
  - set_solver.
  - set_solver.
  - set_solver.
  - by eapply IH.
Qed.

(** A permutation that keeps the order of conflicting elements is a sequence of swaps of
    neighbours that do not conflict. *)
Lemma reorder_ind (conflict : nat -> nat -> Prop) (R : list nat -> list nat -> Prop) :
  (forall l, R l l) -> (forall l1 l2 l3, R l1 l2 -> R l2 l3 -> R l1 l3) ->
  (forall x l1 l2, R l1 l2 -> R (x :: l1) (x :: l2)) ->
  (forall x y l, x <> y -> ~ conflict x y -> R (y :: x :: l) (x :: y :: l)) ->
  forall l l', NoDup l -> l' ≡ₚ l ->
    (forall i j, before l i j -> conflict i j -> before l' i j) -> R l' l.
Proof.
  intros Hrefl Htrans Hcons Hswap l. induction l as [|x l IH]; intros l' Hnd Hperm Hord.
  - apply Permutation_nil_r in Hperm as ->. apply Hrefl.
  - pose proof Hnd as [Hx Hndl]%NoDup_cons.
    assert (x ∈ l') as (a & b & ->)%list_elem_of_split by (rewrite Hperm; set_solver).
    assert (a ++ b ≡ₚ l) as Hab.
    { apply (Permutation_cons_inv (a := x)). rewrite <- Hperm. by apply Permutation_middle. }
    assert (NoDup (a ++ x :: b)) as Hnd' by (by rewrite Hperm).
    assert (forall y, y ∈ a -> x <> y /\ ~ conflict x y) as Hfree.
    { intros y Hy. assert (y ∈ l) by (rewrite <- Hab; set_solver). split; [set_solver|].
      intros Hc. apply (before_NoDup _ x y Hnd').
      - apply Hord; [|done]. by exists [], l.
      - apply list_elem_of_split in Hy as (a1 & a2 & ->).
        exists a1, (a2 ++ x :: b). split; [by rewrite <- app_assoc|set_solver]. }
    apply (Htrans _ (x :: a ++ b)).
    + clear - Hfree Htrans Hcons Hswap Hrefl. induction a as [|y a IHa]; [apply Hrefl|].
      apply (Htrans _ (y :: x :: a ++ b)); [apply Hcons, IHa; set_solver|].
      apply Hswap; apply Hfree; set_solver.
    + apply Hcons, IH; [done|done|]. intros i j Hij Hc.
      assert (i ∈ l /\ j ∈ l) as [? ?] by (destruct Hij as (l1 & l2 & -> & ?); set_solver).
      apply before_remove with x; [apply Hord; [by apply before_cons|done]|set_solver..].
Qed.

Lemma before_concat (bs : list (list nat)) k l b c i j :
  (k < l)%nat -> bs !! k = Some b -> i ∈ b -> bs !! l = Some c -> j ∈ c -> before (concat bs) i j.
Proof.
  revert k l. induction bs as [|x bs IH]; intros k l Hkl Hb Hi Hc Hj; [done|].
  destruct l as [|l]; [lia|]. cbn in Hc. destruct k as [|k]; simplify_eq/=.
  - apply list_elem_of_split in Hi as (l1 & l2 & ->).
    exists l1, (l2 ++ concat bs). split; [by rewrite <- app_assoc|].
    apply elem_of_app. right. apply list_elem_of_In, in_concat. exists c.
    rewrite <- !list_elem_of_In. split; [by eapply list_elem_of_lookup_2|done].
  - destruct (IH k l) as (l1 & l2 & -> & Hl2); [lia|done..|].
    exists (x ++ l1), l2. split; [by rewrite <- app_assoc|done].
Qed.

Lemma before_seq n i j : before (seq 0 n) i j -> (i < j < n)%nat.
Proof.
  intros (l1 & l2 & Heq & Hj). assert (seq 0 n !! length l1 = Some i) as Hi.
  { rewrite Heq. by apply list_lookup_middle. }
  apply list_elem_of_lookup in Hj as [p Hp].
  assert (seq 0 n !! (length l1 + S p)%nat = Some j) as Hj.
  { rewrite Heq, lookup_app_r by lia. by replace (length l1 + S p - length l1)%nat with (S p) by lia. }
  apply lookup_seq in Hi as [-> ?], Hj as [-> ?]. lia.
Qed.

Section Schedules.
Context `{CR : Crypto, TC : TxCodec, HO : HashOrder, WE : WasmEngine, NL : NativeLane} (txs : list Transaction).

Definition overlap (i j : nat) : Prop :=
  exists ti tj, txs !! i = Some ti /\ txs !! j = Some tj /\
                ~ tx_access_set ti ## tx_access_set tj.

Lemma partition_batches_ok :
  exists last, partition_ok (tx_access_set <$> txs) (partition_batches txs) last.
Proof.
  eexists. unfold partition_batches.
  pose proof (partition_foldl_ok [] (tx_access_set <$> txs) [] ∅) as Hok. cbn in Hok.
  apply Hok. split; [done|set_solver..].
Qed.

Lemma schedule_indices order :
  batch_schedule txs order -> order ≡ₚ seq 0 (length txs).
Proof.
  intros (bs & Hbs & ->). destruct partition_batches_ok as [last [Hi _ _]].
  rewrite length_fmap in Hi. rewrite <- Hi. clear Hi.
  induction Hbs as [|b c bs cs Hbc _ IH]; cbn; [done|]. by rewrite Hbc, IH.
Qed.

Lemma schedule_before order i j :
  batch_schedule txs order -> (i < j)%nat -> overlap i j -> before order i j.
Proof.
  intros Hs Hij (ti & tj & Hti & Htj & Hov). destruct Hs as (bs & Hbs & ->).
  destruct partition_batches_ok as [last Hok].
  assert (forall k t, txs !! k = Some t -> exists p, in_batch (partition_batches txs) p k) as Hin.
  { intros k t Hk. apply lookup_lt_Some in Hk. pose proof (part_indices _ _ _ Hok) as Hp.
    rewrite length_fmap in Hp. assert (k ∈ concat (partition_batches txs)) as Hc
      by (rewrite Hp; apply elem_of_seq; lia).
    apply list_elem_of_In, in_concat in Hc as (b & Hb & Hkb). rewrite <- !list_elem_of_In in *.
    apply list_elem_of_lookup in Hb as [p Hp']. by exists p, b. }
  destruct (Hin i ti Hti) as [k Hk], (Hin j tj Htj) as [l Hl].
  assert (k < l)%nat as Hkl.
  { rewrite elem_of_disjoint in Hov. apply dec_stable. intros Hnkl. apply Hov. intros a Ha Hb.
    apply Hnkl, (part_order _ _ _ Hok i j (tx_access_set ti) (tx_access_set tj) a k l Hij);
      try done; rewrite list_lookup_fmap, ?Hti, ?Htj; done. }
  destruct Hk as (b & Hb & Hib), Hl as (c & Hc & Hjc).
  destruct (Forall2_lookup_r _ _ _ _ _ Hbs Hb) as (b' & Hb' & Hpb).
  destruct (Forall2_lookup_r _ _ _ _ _ Hbs Hc) as (c' & Hc' & Hpc).
  apply (before_concat bs k l b' c'); [done|done|by rewrite Hpb|done|by rewrite Hpc].
Qed.

Context (Hpred : Forall (fun tx => predicted (tx_body tx) = true) txs).

Definition run_equiv (l l' : list nat) : Prop :=
  forall s t, s ≈ t -> (run_order txs l s).1 = (run_order txs l' t).1 /\
                       (run_order txs l s).2 ≈ (run_order txs l' t).2.

Lemma local_nth i tx : txs !! i = Some tx -> local (tx_access_set tx) (execute_tx tx).
Proof. intros Hi. apply local_execute_tx. by eapply Forall_lookup_1 in Hpred. Qed.

Lemma run_order_cons i tx l s :
  txs !! i = Some tx ->
  run_order txs (i :: l) s =
    (<[i := (execute_tx tx s).1]> (run_order txs l (execute_tx tx s).2).1,
     (run_order txs l (execute_tx tx s).2).2).
Proof.
  intros Hi. cbn. rewrite Hi. destruct (execute_tx tx s) as [r s1]. cbn.
  by destruct (run_order txs l s1).
Qed.

Lemma run_order_skip i l s : txs !! i = None -> run_order txs (i :: l) s = run_order txs l s.
Proof. intros Hi. cbn. by rewrite Hi. Qed.

Lemma run_equiv_cons i l l' : run_equiv l l' -> run_equiv (i :: l) (i :: l').
Proof.
  intros Hl s t Hst. destruct (txs !! i) as [tx|] eqn:Hi.
  - rewrite !(run_order_cons _ _ _ _ Hi). cbn.
    destruct (local_respects _ _ s t (local_nth _ _ Hi) Hst) as [Hr He].
    destruct (Hl _ _ He) as [Hrs Hs]. by rewrite Hr, Hrs.
  - rewrite !run_order_skip by done. by apply Hl.
Qed.

Lemma run_equiv_refl l : run_equiv l l.
Proof. induction l as [|i l IH]; [by intros s t|by apply run_equiv_cons]. Qed.

Lemma run_equiv_swap i j l :
  i <> j -> ~ overlap i j -> run_equiv (j :: i :: l) (i :: j :: l).
Proof.
  intros Hij Hov s t Hst. destruct (txs !! i) as [ti|] eqn:Hi.
  2: { assert (forall l s, run_order txs (i :: l) s = run_order txs l s) as Hskip
         by (intros; by apply run_order_skip).
       rewrite (Hskip (j :: l)). cbn [run_order]. rewrite Hi. by apply (run_equiv_refl (j :: l)). }
  destruct (txs !! j) as [tj|] eqn:Hj.
  2: { rewrite run_order_skip by done. cbn [run_order]. rewrite Hj, Hi.
       pose proof (run_equiv_refl (i :: l) s t Hst) as Hr. cbn [run_order] in Hr. by rewrite Hi in Hr. }
  rewrite !(run_order_cons i ti), !(run_order_cons j tj), (run_order_cons i ti) by done. cbn [fst snd].
  assert (tx_access_set ti ## tx_access_set tj) as Hdis.
  { apply dec_stable. intros Hn. apply Hov. by exists ti, tj. }
  destruct (local_commute _ _ _ _ t (local_nth _ _ Hi) (local_nth _ _ Hj) Hdis) as (R1 & R2 & He).
  destruct (local_respects _ _ s t (local_nth _ _ Hj) Hst) as [Rj Hsj].
  destruct (local_respects _ _ _ _ (local_nth _ _ Hi) Hsj) as [Ri Hsi].
  destruct (run_equiv_refl l (execute_tx ti (execute_tx tj s).2).2
              (execute_tx tj (execute_tx ti t).2).2) as [Hrs Hs].
  { rewrite Hsi. by symmetry. }
  split; [|done]. rewrite Hrs, Rj, Ri, R1, R2. by apply insert_insert_ne.
Qed.

Lemma schedule_runs_equal order s :
  batch_schedule txs order ->
  (run_order txs order s).1 = (run_order txs (seq 0 (length txs)) s).1 /\
  (run_order txs order s).2 ≈ (run_order txs (seq 0 (length txs)) s).2.
Proof.
  intros Hs. assert (run_equiv order (seq 0 (length txs))) as Hr; [|by apply Hr].
  apply (reorder_ind overlap run_equiv); [apply run_equiv_refl| |apply run_equiv_cons|
    apply run_equiv_swap|apply NoDup_seq|by apply schedule_indices|].
  - intros l1 l2 l3 H12 H23 u t Hut. destruct (H12 u t Hut) as [-> He], (H23 t t) as [-> He']; [done|].
    split; [done|by etrans].
  - intros i j Hij%before_seq Hov. apply schedule_before; [done|lia|done].
Qed.

End Schedules.

Section Claims.
Context `{CR : Crypto, TC : TxCodec, HO : HashOrder, WE : WasmEngine, NL : NativeLane}.

(** C9: parallel execution is serializable for the families whose accounts are predicted:
    running the batches of a block in any order inside each batch gives every transaction the
    result it has in the order of the block and ends in the same state, up to the order of
    the records in the log. *)
Theorem block_stm_serializable txs order s :
  Forall (fun tx => predicted (tx_body tx) = true) txs -> batch_schedule txs order ->
  (run_order txs order s).1 = (run_order txs (seq 0 (length txs)) s).1 /\
  (run_order txs order s).2 ≈ (run_order txs (seq 0 (length txs)) s).2.
Proof. intros Hp Hs. by apply schedule_runs_equal. Qed.

End Claims.

Section Witnesses.
Import LedgerDemo.

Definition two_settles : list Transaction :=
  [signed 0 None 0 (BSettle (user 5) 1 100 1 None) 0; signed 1 None 0 (BSettle (user 6) 1 200 1 None) 0].

Definition two_locks : list Transaction :=
  [signed 0 None 0 (BBridgeLock 1 0 100) 0; signed 1 None 0 (BBridgeLock 1 0 200) 0].

Lemma swapped_schedule txs : partition_batches txs = [[0%nat; 1%nat]] -> batch_schedule txs [1%nat; 0%nat].
Proof.
  intros Hp. exists [[1%nat; 0%nat]]. rewrite Hp. split; [|done]. repeat constructor.
Qed.

Lemma block_stm_serializable_witness :
  (run_order two_settles [1%nat; 0%nat] legacy_state).1 =
  (run_order two_settles [0%nat; 1%nat] legacy_state).1.
Proof.
  apply (block_stm_serializable two_settles [1%nat; 0%nat] legacy_state); [by repeat constructor|].
  apply swapped_schedule. by vm_compute.
Defined.

(** The prediction misses the escrow of the bridge, so parallel execution of locks is not
    serializable: two locks of different senders share a batch, and the balance the escrow
    ends with depends on which of them runs last. *)
Theorem bridge_locks_not_serializable :
  batch_schedule two_locks [1%nat; 0%nat] /\
  let balance order :=
    acc_balance <$> (db_accounts (run_order two_locks order legacy_state).2 !! bridge_escrow_address) in
  balance [0%nat; 1%nat] = Some 200 /\ balance [1%nat; 0%nat] = Some 100.
Proof. split; [apply swapped_schedule; by vm_compute|by vm_compute]. Qed.

End Witnesses.
