(* ===== verification/Footprint.v ===== *)
(** * What an execution may write

    One pass over the arms of [execute_tx] for every relation between the states before
    and after that the primitive writes respect: an account is only written at an address
    of a set that is computed before the execution.  The relation is instantiated twice:
    execution keeps the fields it only reads, and it changes no account besides those
    [mark_tx_accounts_dirty] marks and those it misses, which [unmarked] lists. *)

From S2P Require Import Prelude Crypto Validators Blocks Ledger Tier1 Contracts Executor.
From S2P Require Import LedgerV3 Locality.

(** ** The accounts a transaction is marked to change *)

Section Marks.
Context `{Crypto, TxCodec}.

(** What [mark_tx_accounts_dirty] adds to the sender, in the state before execution.  The bodies
    of the native lane are opaque here, so the escrows it marks for them are left out. *)
Definition body_marks (s : StateDB) (tx : Transaction) : list Address :=
  match tx_body tx with
  | BTransfer to _ _ => to :: (if protocol_v3 s then [v3_fee_treasury_address] else [])
  | BSettle agent_id _ _ _ _ => [agent_id]
  | BSwap counterparty _ _ _ _ => [counterparty]
  | BStake _ _ validator => [validator]
  | BWasmCall contract _ _ _ _ => [contract]
  | BEscrow beneficiary _ _ _ => [beneficiary]
  | BDeployContract _ _ _ => [compute_contract_address (tx_from tx) (tx_nonce tx)]
  | BRegisterAgent _ _ _ _ _ | BMultiSig _ _ _ => []
  | BJoinValidator _ _ | BLeaveValidator | BClaimRewards | BUpdateStake _ => []
  | BGovernance _ => []
  | BBridgeLock _ _ _ => [bridge_escrow_address]
  | BBridgeMint _ _ recipient _ _ => [recipient]
  | BBatchSettle entries => se_agent_id <$> entries
  | BChannelOpen channel_id counterparty _ _ => [counterparty; channel_address channel_id]
  | BChannelClose channel_id _ _ _ _ =>
      channel_address channel_id ::
      match get_account (channel_address channel_id) s with
      | Some escrow => if bool_decide (acc_storage_root escrow = 0) then []
                       else [acc_storage_root escrow]
      | None => []
      end
  | BChannelDispute channel_id _ _ _ _ _ => [channel_address channel_id]
  | BShardProof shard_id block_height _ _ _ _ _ => [shard_proof_key shard_id block_height]
  | BInferenceAttestation _ _ _ _ _ => [attestation_escrow_address (tx_hash tx)]
  | BCommunityInferenceReward b =>
      let v3 := protocol_v3 s in
      let '(job_marker, certificate_marker, probe_marker) := reward_markers v3 b in
      [cr_worker b; inference_reward_treasury_address; job_marker; certificate_marker] ++
      option_list probe_marker ++ (if v3 then budget_addresses b (db_height s) else [])
  | BInferenceChallenge attestation_hash _ _ => [attestation_escrow_address attestation_hash]
  | BInferenceRegister _ _ => []
  | BInferenceEscrowOpen request_id _ _ _ _ => [escrow_address request_id]
  | BInferenceEscrowRelease request_id _ _ _ _ _ proposer replicas observer_pool treasury =>
      [escrow_address request_id; proposer] ++ replicas ++ [observer_pool; treasury]
  | BInferenceEscrowRefund request_id _ _ _ => [escrow_address request_id]
  | BModelRegistration model_id _ _ _ _ _ _ _ =>
      [registry_account model_id; hash_bytes (ascii_bytes "arc-treasury")]
  | BModelRequest request_id _ _ _ _ => [request_account request_id]
  | BShardCoverageClaim model_id node_pubkey _ _ _ => [claim_account model_id node_pubkey]
  | BCapacityAdvertisement node_pubkey _ _ _ _ _ _ => [capacity_account node_pubkey]
  | BShardAssignmentProposal _ _ snapshot => [proposal_account snapshot]
  | BFaucetClaim recipient _ =>
      [recipient; faucet_pool_address;
       if protocol_v3 s then v3_faucet_marker_address recipient
       else faucet_marker_address recipient]
  | BInferenceRequest b => [tier1_escrow_address (ir_request_id b)]
  | BInferenceVote _ _ _ _ _ => []
  | BInferenceFinalize request_id => [tier1_escrow_address request_id; faucet_pool_address]
  | BNative _ _ => []
  end.

Definition mark_tx_accounts_dirty (s : StateDB) (tx : Transaction) : list Address :=
  tx_from tx :: body_marks s tx.

(** The accounts it misses: the escrow a vote flips to voting, the requester and the
    voters a settlement credits. *)
Definition unmarked (s : StateDB) (tx : Transaction) : list Address :=
  match tx_body tx with
  | BInferenceVote request_id _ _ _ _ => [tier1_escrow_address request_id]
  | BInferenceFinalize request_id =>
      let escrow_addr := tier1_escrow_address request_id in
      option_list (tier1_requester escrow_addr s) ++ (tier1_votes escrow_addr s).*1
  | _ => []
  end.

End Marks.

(** ** The pass *)

Lemma net_credits_agents entries k :
  k ∈ dom (net_credits entries) -> k ∈ se_agent_id <$> entries.
Proof.
  unfold net_credits. enough (forall m : gmap Address Z, dom (foldl (fun m e =>
      <[se_agent_id e := wrapping_add (default 0 (m !! se_agent_id e)) (se_amount e)]> m) m entries)
    ⊆@{gset Address} dom m ∪ list_to_set (se_agent_id <$> entries)) as Hs.
  { intros Hk%Hs. rewrite dom_empty_L, elem_of_union, elem_of_list_to_set in Hk. set_solver. }
  induction entries as [|e entries IH]; intros m; cbn; [set_solver|].
  etrans; [apply IH|]. rewrite dom_insert_L. set_solver.
Qed.

Section Footprint.
Context `{Crypto, TxCodec}.

(** The families that write the registry and the pool. *)
Definition registry_body (b : TxBody) : bool :=
  match b with
  | BStake _ _ _ | BJoinValidator _ _ | BLeaveValidator | BUpdateStake _ => true
  | _ => false
  end.

Section Relation.
Context (R : StateDB -> StateDB -> Prop) (D : Address -> Prop).
Context (R_refl : forall s, R s s) (R_trans : forall s1 s2 s3, R s1 s2 -> R s2 s3 -> R s1 s3).
Context (R_insert : forall s k a, D k -> R s (s <| db_accounts := <[k := a]> (db_accounts s) |>)).
Context (R_wal : forall s w, R s (s <| db_wal := w |>)).
Context (R_validators : forall s v, R s (s <| db_validators := v |>)).
Context (R_pool : forall s p, R s (s <| db_staking_pool := p |>)).
Context (R_enqueue : forall s h a, R s (s <| db_pending_bond_releases :=
                                             queue_insert h a (db_pending_bond_releases s) |>)).
Context (R_delete : forall s k, D k -> R s (s <| db_accounts := delete k (db_accounts s) |>)).
Context (R_storage : forall s m, R s (s <| db_storage := m |>)).
Context (R_contracts : forall s m, R s (s <| db_contracts := m |>)).
Context (R_pending : forall s m, R s (s <| db_tier1_pending := m |>)).

Definition within {A} (m : ledger A) (s : StateDB) : Prop := R s (m s).2.

Lemma within_ret {A} (a : A) s : within (mret a) s.
Proof. apply R_refl. Qed.

Lemma within_pure {A} (o : outcome StateError A) s : within (pureL o) s.
Proof. apply R_refl. Qed.

Lemma within_read {A} (f : StateDB -> A) s : within (readL f) s.
Proof. apply R_refl. Qed.

Lemma within_check {A} (f : StateDB -> outcome StateError A) s : within (checkL f) s.
Proof. apply R_refl. Qed.

Lemma within_bind {A B} (m : ledger A) (k : A -> ledger B) s :
  within m s -> (forall a s', m s = (Ok a, s') -> within (k a) s') -> within (m ≫= k) s.
Proof.
  unfold within, mbind, ledger_bind. intros Hm Hk. destruct (m s) as [[a|e|] s'] eqn:Hr; cbn in *; [|done..].
  eapply R_trans; [done|]. by apply Hk.
Qed.

Lemma within_checked {A B} (f : StateDB -> outcome StateError A) (k : A -> ledger B) s :
  (forall a, f s = Ok a -> within (k a) s) -> within (checkL f ≫= k) s.
Proof. intros Hk. apply within_bind; [apply within_check|]. intros a s' [= Ha <-]. by apply Hk. Qed.

Lemma within_pured {A B} (o : outcome StateError A) (k : A -> ledger B) s :
  (forall a, o = Ok a -> within (k a) s) -> within (pureL o ≫= k) s.
Proof. apply (within_checked (fun _ => o)). Qed.

Lemma within_reading {A B} (f : StateDB -> A) (k : A -> ledger B) s :
  within (k (f s)) s -> within (readL f ≫= k) s.
Proof. done. Qed.

Lemma within_if {A} (b : bool) (m1 m2 : ledger A) s :
  within m1 s -> within m2 s -> within (if b then m1 else m2) s.
Proof. by destruct b. Qed.

Lemma within_insert k a s : D k -> within (insert_account k a) s.
Proof. apply R_insert. Qed.

Lemma within_get_or_create k s : D k -> within (get_or_create_account k) s.
Proof. apply R_insert. Qed.

Lemma within_append op s : within (append_op op) s.
Proof.
  unfold within, append_op, modifyL. cbn [snd].
  pose proof (R_wal s (db_wal s ++ [mkWalEntry op (db_height s)])). by case_match.
Qed.

Lemma within_wal k a s : within (wal_append k a) s.
Proof. apply within_append. Qed.

Lemma within_store k a s : D k -> within (store_account k a) s.
Proof. intros Hk. apply within_bind; [by apply within_insert|intros; apply within_wal]. Qed.

Lemma within_update k f s : D k -> within (update_account k f) s.
Proof. intros Hk. apply within_bind; [by apply within_get_or_create|intros; by apply within_store]. Qed.

Lemma within_load_sender tx s : D (tx_from tx) -> within (load_sender tx) s.
Proof.
  intros Hk. apply within_bind; [by apply within_get_or_create|intros].
  apply within_bind; [apply within_pure|intros; apply within_ret].
Qed.

Lemma within_ensure b what s : within (ensure b what) s.
Proof. apply R_refl. Qed.

Lemma within_insert_validator k v s : within (insert_validator k v) s.
Proof. apply R_validators. Qed.

Lemma within_remove_validator k s : within (remove_validator k) s.
Proof. apply R_validators. Qed.

Lemma within_set_validator k v s : within (set_validator k v) s.
Proof. apply within_if; [apply within_remove_validator|apply within_insert_validator]. Qed.

Lemma within_add_pool x s : within (add_staking_pool_checked x) s.
Proof.
  unfold within, add_staking_pool_checked. destruct (checked_add _ _); [apply R_pool|apply R_refl].
Qed.

Lemma within_subtract_pool x s : within (subtract_staking_pool_checked x) s.
Proof.
  unfold within, subtract_staking_pool_checked. destruct (checked_sub _ _); [apply R_pool|apply R_refl].
Qed.

Lemma within_lock_stake a x s : within (lock_stake a x) s.
Proof. repeat (apply within_bind; [apply within_pure|intros]). apply within_ret. Qed.

Lemma within_unlock_stake a x s : within (unlock_stake a x) s.
Proof. repeat (apply within_bind; [apply within_pure|intros]). apply within_ret. Qed.

Lemma within_enqueue h a s : within (enqueue_release h a) s.
Proof. apply R_enqueue. Qed.

Lemma within_set_storage k key v s : within (set_storage k key v) s.
Proof. apply within_bind; [apply R_storage|intros; apply within_append]. Qed.

Lemma within_deploy k b s : within (deploy_contract k b) s.
Proof. apply within_bind; [apply R_contracts|intros; apply within_append]. Qed.

Lemma within_set_pending f s :
  within (modifyL (fun s => s <| db_tier1_pending := f (db_tier1_pending s) |>)) s.
Proof. apply R_pending. Qed.

Lemma within_remove_account k s :
  D k -> within (modifyL (fun s => s <| db_accounts := delete k (db_accounts s) |>)) s.
Proof. apply R_delete. Qed.

Lemma within_remove_contract k s :
  within (modifyL (fun s => s <| db_contracts := delete k (db_contracts s) |>)) s.
Proof. apply R_contracts. Qed.

Lemma within_take_back k x s : D k -> within (take_back k x) s.
Proof.
  intros Hk. unfold within, take_back, modifyL. cbn [snd].
  destruct (db_accounts s !! k); [by apply R_insert|apply R_refl].
Qed.

Lemma within_err {A} what s : within (err (A := A) what) s.
Proof. apply R_refl. Qed.

Create HintDb within.
Hint Resolve within_ret within_pure within_read within_check within_insert within_get_or_create
  within_wal within_store within_update within_load_sender within_ensure within_insert_validator
  within_remove_validator within_set_validator within_add_pool within_subtract_pool
  within_lock_stake within_unlock_stake within_enqueue within_set_storage within_deploy
  within_set_pending within_remove_account within_remove_contract within_take_back
  within_err : within.

Ltac solve_within :=
  cbv beta zeta;
  first
  [ solve [eauto 3 with within]
  | apply within_bind; [solve_within|intros ? ? _; solve_within]
  | apply within_if; solve_within
  | match goal with |- within (match ?x with _ => _ end) _ => destruct x; solve_within end
  | idtac ].

Lemma within_insert_accounts l s : (forall k, k ∈ l.*1 -> D k) -> within (insert_accounts l) s.
Proof.
  revert s. induction l as [|[k a] l IH]; intros s Hl; cbn [insert_accounts]; [apply within_ret|].
  apply within_bind; [apply within_insert, Hl; by left|intros; apply IH; intros k' Hk'; apply Hl; by right].
Qed.

Lemma within_append_accounts l s : within (append_accounts l) s.
Proof.
  revert s. induction l as [|[k a] l IH]; intros s; cbn [append_accounts]; [apply within_ret|].
  apply within_bind; [apply within_wal|intros; apply IH].
Qed.

Lemma within_pay_credits l s : (forall k, k ∈ l.*1 -> D k) -> within (pay_credits l) s.
Proof.
  revert s. induction l as [|[k x] l IH]; intros s Hl; cbn [pay_credits]; [apply within_ret|].
  apply within_bind; [apply within_update, Hl; by left|intros; apply IH; intros k' Hk'; apply Hl; by right].
Qed.

Lemma within_credit_each l x s : (forall k, k ∈ l -> D k) -> within (credit_each l x) s.
Proof.
  revert s. induction l as [|k l IH]; intros s Hl; cbn [credit_each]; [apply within_ret|].
  apply within_bind; [apply within_update, Hl; by left|intros; apply IH; intros k' Hk'; apply Hl; by right].
Qed.

Section Arms.
Context (tx : Transaction) (s : StateDB) (Hfrom : D (tx_from tx)).

Lemma within_transfer to x c :
  D to -> (protocol_v3 s = true -> D v3_fee_treasury_address) ->
  within (execute_transfer tx to x c) s.
Proof.
  intros Ht Hv. unfold execute_transfer. apply within_bind; [apply within_read|].
  intros v3 s' [= <- <-]. destruct (protocol_v3 s) eqn:H3.
  - specialize (Hv eq_refl). unfold execute_transfer_v3. solve_within.
  - unfold execute_transfer_legacy. solve_within.
Qed.

Lemma within_faucet recipient x :
  D faucet_pool_address -> D recipient ->
  D (if protocol_v3 s then v3_faucet_marker_address recipient else faucet_marker_address recipient) ->
  within (execute_faucet_claim tx recipient x) s.
Proof.
  intros Hp Hr Hm. unfold execute_faucet_claim. apply within_bind; [apply within_read|].
  intros v3 s' [= <- <-]. destruct (protocol_v3 s); solve_within.
Qed.

Lemma within_batch_settle entries :
  (forall k, k ∈ dom (net_credits entries) -> D k) -> within (execute_batch_settle tx entries) s.
Proof.
  intros He. unfold execute_batch_settle. solve_within. apply within_pay_credits.
  intros k Hk. apply He. apply list_elem_of_fmap in Hk as ([k' x] & -> & Hin).
  apply elem_of_dom. exists x. by apply elem_of_map_to_list.
Qed.

Lemma within_attestation p x :
  D (attestation_escrow_address (tx_hash tx)) -> within (execute_inference_attestation tx p x) s.
Proof. intros He. unfold execute_inference_attestation. solve_within. Qed.

Lemma within_escrow_release r p m x y a l o t :
  D (escrow_address r) -> D a -> (forall k, k ∈ l -> D k) -> D o -> D t ->
  within (execute_inference_escrow_release tx r p m x y a l o t) s.
Proof.
  intros. unfold execute_inference_escrow_release. solve_within. by apply within_credit_each.
Qed.

Lemma reward_writes_addresses v3 t b w tr ws :
  reward_writes v3 t b w tr = Ok ws ->
  forall k, k ∈ ws.*1 ->
    let '(job, cert, probe) := reward_markers v3 b in
    k ∈ [cr_worker b; inference_reward_treasury_address; job; cert] ++ option_list probe ++
        (if v3 then budget_addresses b (db_height t) else []).
Proof.
  unfold reward_writes. destruct (reward_markers v3 b) as [[job cert] probe]. intros Hw. repeat inv_ok1. subst.
  intros k. rewrite !fmap_cons, fmap_app, elem_of_app. cbn [fst]. rewrite !elem_of_cons, !elem_of_app.
  intros [?|[?|[?|[?|[Hk|Hk]]]]]; [tauto..| |].
  - right. left. by destruct probe.
  - right. right. destruct v3; [|by simplify_eq].
    match goal with Hb : community_reward_budget_candidates_at _ _ _ = Ok _ |- _ =>
      destruct (budget_candidates_Ok _ _ _ _ Hb) as (Hkeys & _) end. by rewrite Hkeys in Hk.
Qed.

Lemma within_reward b :
  (forall k, k ∈ (let '(job, cert, probe) := reward_markers (protocol_v3 s) b in
      [cr_worker b; inference_reward_treasury_address; job; cert] ++ option_list probe ++
      (if protocol_v3 s then budget_addresses b (db_height s) else [])) -> D k) ->
  within (execute_community_reward tx b) s.
Proof.
  intros Hk. unfold execute_community_reward. apply within_bind; [apply within_read|].
  intros v3 s' [= <- <-].
  apply within_bind; [by destruct (protocol_v3 s); [apply within_check|apply within_ret]|].
  intros u s' Hs'. assert (s' = s) as -> by (destruct (protocol_v3 s); by injection Hs').
  do 4 (apply within_checked; intros _ _). apply within_bind; [apply within_pure|intros _ ? [= _ <-]].
  destruct (reward_markers (protocol_v3 s) b) as [[job cert] probe] eqn:Hm.
  do 3 (apply within_checked; intros ? _). apply within_bind; [apply within_pure|intros ? ? [= _ <-]].
  apply within_checked. intros ws Hw. apply within_bind; [|intros; apply within_append_accounts].
  apply within_insert_accounts. intros k Hin. apply Hk.
  pose proof (reward_writes_addresses _ _ _ _ _ _ Hw k Hin) as Ha. by rewrite Hm in Ha.
Qed.

(** What an arm reads after [load_sender] is what was there before it. *)
Lemma load_sender_Ok a s' :
  load_sender tx s = (Ok a, s') ->
  a = account_or_new (tx_from tx) s /\
  s' = s <| db_accounts := <[tx_from tx := a]> (db_accounts s) |>.
Proof.
  unfold load_sender. rewrite bind_ledger. unfold get_or_create_account, pureL. cbv beta iota zeta.
  rewrite bind_ledger. case_bool_decide; cbn; [|done]. by intros [= <- <-].
Qed.

Lemma get_or_create_Ok k t a t' :
  get_or_create_account k t = (Ok a, t') -> a = account_or_new k t.
Proof. unfold get_or_create_account. cbv zeta. congruence. Qed.

Lemma account_or_new_kept k a k' :
  a = account_or_new k s ->
  account_or_new k' (s <| db_accounts := <[k := a]> (db_accounts s) |>) = account_or_new k' s.
Proof.
  intros ->. unfold account_or_new. cbn. destruct (decide (k = k')) as [->|Hne].
  - by rewrite lookup_insert_eq.
  - by rewrite lookup_insert_ne.
Qed.

Lemma within_channel_close id x y :
  D (channel_address id) ->
  (acc_storage_root (account_or_new (channel_address id) s) <> 0 ->
   D (acc_storage_root (account_or_new (channel_address id) s))) ->
  within (execute_channel_close tx id x y) s.
Proof.
  intros He Hc. unfold execute_channel_close. apply within_bind; [by apply within_load_sender|].
  intros sender s' [Hs ->]%load_sender_Ok.
  apply within_bind; [by apply within_get_or_create|]. intros escrow s' Hesc%get_or_create_Ok.
  rewrite account_or_new_kept in Hesc by done. subst escrow.
  do 6 (apply within_bind; [solve [eauto 3 with within]|intros ? ? _]).
  destruct (_ && _) eqn:Hb; [|apply within_ret]. dec_hyps. apply within_update, Hc. done.
Qed.

Lemma within_flush k ws t : within (flush_writes k ws) t.
Proof.
  revert t. induction ws as [|[key v] ws IH]; intros t; cbn [flush_writes]; [apply within_ret|].
  apply within_bind; [apply within_set_storage|intros; apply IH].
Qed.

Lemma within_reward_each l x t : (forall k, k ∈ l -> D k) -> within (reward_each l x) t.
Proof.
  revert t. induction l as [|k l IH]; intros t Hl; cbn [reward_each]; [apply within_ret|].
  apply within_bind; [apply within_update, Hl; by left|intros; apply IH; intros k' Hk'; apply Hl; by right].
Qed.

Context `{WasmEngine}.

Lemma within_wasm_call k f x g limit gas :
  D k -> within (execute_wasm_call tx k f x g limit gas) s.
Proof.
  intros Hk. unfold execute_wasm_call, move_call_value, revert_call_value.
  solve_within; apply within_flush.
Qed.

Lemma within_deploy_contract b args x limit gas :
  D (compute_contract_address (tx_from tx) (tx_nonce tx)) ->
  within (execute_deploy_contract tx b args x limit gas) s.
Proof.
  intros Hk. unfold execute_deploy_contract, run_constructor. solve_within; apply within_flush.
Qed.

Lemma within_request b :
  D (tier1_escrow_address (ir_request_id b)) -> within (execute_inference_request tx b) s.
Proof. intros Hk. unfold execute_inference_request. solve_within. Qed.

Lemma within_vote r h blob :
  D (tier1_escrow_address r) -> within (execute_inference_vote tx r h blob) s.
Proof. intros Hk. unfold execute_inference_vote, keep_first_blob. solve_within. Qed.

Lemma store_storage k a t u t' :
  store_account k a t = (Ok u, t') -> db_storage t' = db_storage t.
Proof.
  unfold store_account, insert_account, wal_append, append_op. rewrite bind_modify. unfold modifyL.
  intros [= _ <-]. cbn. by destruct (db_wal_active t).
Qed.

Lemma get_or_create_storage k t a t' :
  get_or_create_account k t = (Ok a, t') -> db_storage t' = db_storage t.
Proof. unfold get_or_create_account. cbv zeta. by intros [= _ <-]. Qed.

Context `{HashOrder}.

Lemma within_finalize r :
  D (tier1_escrow_address r) -> D faucet_pool_address ->
  (forall k, tier1_requester (tier1_escrow_address r) s = Some k -> D k) ->
  (forall k, k ∈ (tier1_votes (tier1_escrow_address r) s).*1 -> D k) ->
  within (execute_inference_finalize tx r) s.
Proof.
  intros He Hp Hr Hv. unfold execute_inference_finalize. set (e := tier1_escrow_address r) in *.
  apply within_bind; [by apply within_load_sender|]. intros sender s1 [_ Hs1]%load_sender_Ok.
  assert (db_storage s1 = db_storage s) as Hst by (by rewrite Hs1). clear Hs1.
  apply within_bind; [by apply within_store|]. intros _ s2 Hs2%store_storage.
  apply within_bind; [by apply within_get_or_create|]. intros escrow s3 Hs3%get_or_create_storage.
  assert (db_storage s3 = db_storage s) as Hst3 by congruence.
  assert (tier1_votes e s3 = tier1_votes e s) as Hvotes
    by (unfold tier1_votes, get_storage; by rewrite Hst3).
  assert (tier1_requester e s3 = tier1_requester e s) as Hreq
    by (unfold tier1_requester, get_storage; by rewrite Hst3).
  do 2 (apply within_pured; intros _ _). do 2 apply within_reading. apply within_pured. intros _ _.
  apply within_checked. intros k Hk%ok_or_Ok. rewrite Hreq in Hk. apply Hr in Hk. rewrite Hvotes.
  apply within_bind; [|intros; solve_within].
  unfold pay_consensus, refund_request. solve_within.
  apply within_reward_each. intros k' Hk'. apply Hv. unfold agreeing_voters in Hk'.
  apply list_elem_of_fmap in Hk' as (v & -> & Hin%list_elem_of_filter). apply list_elem_of_fmap.
  exists v. tauto.
Qed.

End Arms.

Context `{HashOrder, WasmEngine, NativeLane}.

(** The families that change neither the registry nor the pool. *)
Lemma within_plain_body tx limit gas s :
  registry_body (tx_body tx) = false ->
  (forall k, k ∈ mark_tx_accounts_dirty s tx ++ unmarked s tx -> D k) ->
  within (execute_body tx limit gas) s.
Proof.
  intros Hreg HD. assert (D (tx_from tx)) as Hf by (apply HD, elem_of_app; left; by left).
  assert (forall k, k ∈ body_marks s tx -> D k) as Hb
    by (intros k Hk; apply HD, elem_of_app; left; by right).
  assert (forall k, k ∈ unmarked s tx -> D k) as Hu by (intros k Hk; apply HD, elem_of_app; by right).
  clear HD. rewrite <- Forall_forall in Hb, Hu.
  unfold execute_body, body_marks, unmarked in *. destruct (tx_body tx); try discriminate Hreg;
    try (repeat (apply Forall_cons in Hb as [? Hb])); try (repeat (apply Forall_cons in Hu as [? Hu]));
    try (apply within_bind; [|intros; apply within_ret]).
  all: try (solve [unfold execute_settle, execute_swap, execute_escrow, execute_multisig,
    execute_register_agent, execute_nonce_only, execute_inference_challenge,
    execute_inference_register, execute_inference_escrow_open, execute_inference_escrow_refund,
    execute_model_request, execute_shard_coverage_claim, execute_capacity_advertisement,
    execute_bridge_lock, execute_bridge_mint, execute_channel_open, execute_channel_dispute,
    execute_model_registration, execute_shard_assignment_proposal, execute_shard_proof;
    solve_within]).
  - apply within_transfer; [done|done|]. intros Hv3. rewrite Hv3 in Hb. by apply Forall_cons in Hb as [? _].
  - apply within_batch_settle; [done|]. intros k Hk. rewrite Forall_forall in Hb. apply Hb.
    by apply net_credits_agents.
  - apply within_channel_close; [done|done|]. unfold account_or_new, get_account in *.
    destruct (db_accounts s !! channel_address channel_id) as [escrow|]; cbn; [|done].
    intros Hne. rewrite bool_decide_false in Hb by done. by apply Forall_cons in Hb as [? _].
  - apply Forall_app in Hb as [Hr Hb]. repeat (apply Forall_cons in Hb as [? Hb]).
    by apply within_escrow_release; [..|apply Forall_forall| |].
  - by apply within_faucet.
  - by apply within_vote.
  - apply Forall_app in Hu as [Hr Hv]. apply within_finalize; [done..| |by apply Forall_forall].
    intros k Hk. rewrite Hk in Hr. by apply Forall_cons in Hr as [? _].
  - apply within_reward. apply Forall_forall. by destruct (reward_markers _ _) as [[? ?] ?].
  - by apply within_wasm_call.
  - by apply within_deploy_contract.
Qed.

Lemma within_execute_body tx limit gas s :
  (forall k, k ∈ mark_tx_accounts_dirty s tx ++ unmarked s tx -> D k) ->
  within (execute_body tx limit gas) s.
Proof.
  intros HD. destruct (registry_body (tx_body tx)) eqn:Hreg; [|by apply within_plain_body].
  assert (D (tx_from tx)) as Hf by (apply HD; set_solver).
  unfold execute_body. destruct (tx_body tx); try discriminate Hreg;
    (apply within_bind; [|intros; apply within_ret]);
    unfold execute_stake, execute_join_validator, execute_leave_validator, execute_update_stake; solve_within.
Qed.

Lemma within_execute_tx tx s :
  (forall k, k ∈ mark_tx_accounts_dirty s tx ++ unmarked s tx -> D k) ->
  within (execute_tx tx) s.
Proof.
  intros HD. unfold execute_tx. apply within_pured. intros _ _. apply within_reading.
  apply within_bind; [by destruct (protocol_v3 s); [apply within_check|apply within_ret]|].
  intros u s' Hs'. assert (s' = s) as -> by (destruct (protocol_v3 s); by injection Hs').
  apply within_pured. intros gas _. by apply within_execute_body.
Qed.

Lemma within_plain_tx tx s :
  registry_body (tx_body tx) = false ->
  (forall k, k ∈ mark_tx_accounts_dirty s tx ++ unmarked s tx -> D k) -> within (execute_tx tx) s.
Proof.
  intros Hreg HD. unfold execute_tx. apply within_pured. intros _ _. apply within_reading.
  apply within_bind; [by destruct (protocol_v3 s); [apply within_check|apply within_ret]|].
  intros u s' Hs'. assert (s' = s) as -> by (destruct (protocol_v3 s); by injection Hs').
  apply within_pured. intros gas _. by apply within_plain_body.
Qed.

(** The sweep marks what it writes itself. *)
Context (R_dirty : forall s d, R s (s <| db_dirty_accounts := d |>)).
Context (R_queue : forall s q, R s (s <| db_pending_bond_releases := q |>)).
Context (D_all : forall k, D k).

Lemma within_sweep h s : within (sweep_matured_bond_releases h) s.
Proof.
  unfold within, sweep_matured_bond_releases. destruct (drain_due _ _ _) as [due q].
  apply (R_trans _ (s <| db_pending_bond_releases := q |>)); [apply R_queue|].
  change (within (release_bonds h due) (s <| db_pending_bond_releases := q |>)).
  generalize (s <| db_pending_bond_releases := q |>). clear s q.
  assert (forall ks s, within (mark_dirty ks) s) as Hd by (intros; apply R_dirty).
  induction due as [|k due IH]; intros s; cbn [release_bonds]; [apply within_ret|].
  apply within_bind; [|intros; apply within_bind; [apply IH|intros; apply within_ret]].
  unfold release_bond. solve_within.
Qed.

End Relation.

(** ** Its instances *)

Context `{HashOrder, WasmEngine, NativeLane}.

Lemma execute_tx_settings tx s : settings (execute_tx tx s).2 = settings s.
Proof.
  symmetry. apply (within_execute_tx (fun s s' => settings s = settings s') (fun _ => True)); try done.
  congruence.
Qed.

Lemma sweep_settings h s : settings (sweep_matured_bond_releases h s).2 = settings s.
Proof.
  symmetry. apply (within_sweep (fun s s' => settings s = settings s') (fun _ => True)); try done.
  congruence.
Qed.

(** The accounts outside [D] are kept, and so are the marks and the tree. *)
Definition keeps_outside (D : Address -> Prop) (s s' : StateDB) : Prop :=
  (forall k, ~ D k -> db_accounts s' !! k = db_accounts s !! k) /\
  db_dirty_accounts s' = db_dirty_accounts s /\
  db_incremental_merkle s' = db_incremental_merkle s.

Lemma execute_tx_footprint tx s :
  keeps_outside (fun k => k ∈ mark_tx_accounts_dirty s tx ++ unmarked s tx) s (execute_tx tx s).2.
Proof.
  set (D := fun k => k ∈ mark_tx_accounts_dirty s tx ++ unmarked s tx).
  apply (within_execute_tx (keeps_outside D) D); try done.
  - intros s1 s2 s3 (Ha & Hd & Hm) (Ha' & Hd' & Hm'). split_and!; [|congruence..].
    intros k Hk. by rewrite Ha', Ha.
  - intros t k a Hk. split_and!; [|done..]. intros k' Hk'. cbn. rewrite lookup_insert_ne; [done|].
    by intros <-.
  - intros t k Hk. split_and!; [|done..]. intros k' Hk'. cbn. rewrite lookup_delete_ne; [done|].
    by intros <-.
Qed.

End Footprint.
