(* ===== verification/Release.v ===== *)
(** * The release of attestation bonds (crates/arc-state/src/lib.rs)

    The queue of releases is kept in the order of the heights by everything that writes it,
    and a sweep refunds the earliest bonds that are due and loses none. *)

From S2P Require Import Prelude Crypto Merkle Validators Blocks Ledger Tier1 Contracts Executor LedgerDemo.
From S2P Require Import LedgerV3 Bonds Locality BlockStm Footprint.

(** ** The order of the queue *)

Definition queue_sorted (s : StateDB) : Prop := StronglySorted Z.lt (db_pending_bond_releases s).*1.

Lemma queue_insert_keys h a q k : k ∈ (queue_insert h a q).*1 -> k = h \/ k ∈ q.*1.
Proof.
  induction q as [|[k' b] q IH]; cbn [queue_insert]; [cbn; set_solver|].
  case_bool_decide; [cbn; set_solver|]. case_bool_decide; cbn; [set_solver|].
  rewrite !elem_of_cons. tauto.
Qed.

Lemma queue_insert_sorted h a q :
  StronglySorted Z.lt q.*1 -> StronglySorted Z.lt (queue_insert h a q).*1.
Proof.
  induction q as [|[k b] q IH]; cbn [queue_insert]; intros Hs; [repeat constructor|].
  cbn in Hs. pose proof (StronglySorted_inv Hs) as [Hs' Hk]. rewrite Forall_forall in Hk.
  case_bool_decide as H1; [done|]. case_bool_decide as H2.
  - cbn. constructor; [done|]. apply Forall_cons. split; [done|]. apply Forall_forall. intros x Hx.
    specialize (Hk x Hx). lia.
  - cbn. constructor; [by apply IH|]. apply Forall_forall. intros x [->|Hx]%queue_insert_keys; [lia|by apply Hk].
Qed.

Lemma drain_due_keys room h q k : k ∈ (drain_due room h q).2.*1 -> k ∈ q.*1.
Proof.
  revert room. induction q as [|[k' b] q IH]; intros room; cbn [drain_due]; [done|].
  destruct (_ || _); [done|]. cbn [fst snd]. case_bool_decide; cbn; [intros Hk; right; by eapply IH|].
  rewrite !elem_of_cons. intros [->|Hk]; [by left|right; by eapply IH].
Qed.

Lemma drain_due_sorted room h q :
  StronglySorted Z.lt q.*1 -> StronglySorted Z.lt (drain_due room h q).2.*1.
Proof.
  revert room. induction q as [|[k b] q IH]; intros room Hs; cbn [drain_due]; [done|].
  destruct (_ || _); [done|]. cbn in Hs. pose proof (StronglySorted_inv Hs) as [Hs' Hk]. cbn [snd].
  case_bool_decide; [by apply IH|]. cbn. constructor; [by apply IH|].
  apply Forall_forall. intros x Hx%drain_due_keys. by eapply Forall_forall in Hk.
Qed.

Section Release.
Context `{CR : Crypto, TC : TxCodec, HO : HashOrder, WE : WasmEngine, NL : NativeLane}.

Lemma execute_tx_queue tx s : queue_sorted s -> queue_sorted (execute_tx tx s).2.
Proof.
  apply (within_execute_tx (fun s s' => queue_sorted s -> queue_sorted s') (fun _ => True)); try done.
  - auto.
  - intros t h a Ht. by apply queue_insert_sorted.
Qed.

(** A refund leaves the queue, and an escrow that is not due goes back to it. *)
Lemma release_bonds_queue h due s :
  queue_sorted s ->
  queue_sorted (release_bonds h due s).2 /\
  queue_members (db_pending_bond_releases s) ⊆
    queue_members (db_pending_bond_releases (release_bonds h due s).2).
Proof.
  revert s. induction due as [|key due IH]; intros s Hs; [done|]. rewrite release_bonds_cons.
  assert (queue_sorted (release_bond h key s).2 /\
    queue_members (db_pending_bond_releases s) ⊆
    queue_members (db_pending_bond_releases (release_bond h key s).2)) as [Hs1 Hm1].
  { rewrite release_bond_run. destruct (get_account key s) as [e|]; [|done].
    destruct (open_escrow e); [|done]. case_bool_decide; [|done]. split; [by apply queue_insert_sorted|].
    change (db_pending_bond_releases (Ok false, requeued key e s).2) with
      (queue_insert (acc_nonce e) key (db_pending_bond_releases s)).
    rewrite queue_members_insert. apply union_subseteq_r. }
  destruct (IH _ Hs1) as [Hs2 Hm2]. split; [done|by etrans].
Qed.

(** The bonds a sweep takes: the earliest of those that are due. *)
Definition taken (h : Z) (s : StateDB) : list (Z * Address) :=
  take MAX_BOND_RELEASES_PER_BLOCK (due_entries h (db_pending_bond_releases s)).

(** C15: the queue of bond releases stays in the order of the heights under every transaction
    and under the sweep.  A sweep at a height always completes; it takes the 256 earliest
    bonds that are due, or all when they are fewer: each open escrow among them is emptied,
    every other account is credited with what it is owed up to the largest balance, and the
    bonds not taken stay queued. *)
Theorem matured_bonds_are_released h s :
  queue_sorted s -> balances_ok s -> separate h s (taken h s).*2 ->
  exists n s', sweep_matured_bond_releases h s = (Ok n, s') /\ queue_sorted s' /\
    (forall tx, queue_sorted (execute_tx tx s).2) /\
    (forall k e, k ∈ (taken h s).*2 -> refundable h s k = Some e -> get_account k s' = Some (cleared e)) /\
    (forall a, a ∉ (taken h s).*2 ->
       balance_of s' a = Z.min (balance_of s a + payout h s (taken h s).*2 a) u64_max) /\
    (forall e, e ∈ entries (db_pending_bond_releases s) -> e ∉ taken h s ->
       e ∈ queue_members (db_pending_bond_releases s')).
Proof.
  intros Hq Hb Hsep. unfold sweep_matured_bond_releases.
  destruct (drain_due_spec MAX_BOND_RELEASES_PER_BLOCK h _ Hq) as [Hdue Hent].
  pose proof (drain_due_sorted MAX_BOND_RELEASES_PER_BLOCK h _ Hq) as Hq1. fold (taken h s) in Hdue, Hent.
  destruct (drain_due _ _ _) as [due q]. cbn [fst snd] in *. subst due.
  set (s1 := s <| db_pending_bond_releases := q |>).
  destruct (release_bonds_rel h (fun _ _ => True)) with (taken h s).*2 s1 as (n & Hn & _); [done..|].
  pose proof (release_bonds_pay h (taken h s).*2 s1 Hsep Hb) as (Hk & Ha & _).
  destruct (release_bonds_queue h (taken h s).*2 s1 Hq1) as [Hq2 Hm].
  destruct (release_bonds h (taken h s).*2 s1) as [r s2]. cbn [fst snd] in *. subst r.
  exists n, s2. split_and!; [done|done|intros tx; by apply execute_tx_queue| |done|].
  - intros k e Hin He. rewrite Hk by done. change (refundable h s1 k) with (refundable h s k). by rewrite He.
  - intros e Hin Hnt. apply Hm. rewrite Hent, elem_of_app in Hin. destruct Hin as [|Hin]; [done|].
    by apply elem_of_list_to_set.
Qed.

End Release.

Section Witnesses.
Import LedgerDemo.

(** An attestation with a bond of 700 by user 0 at height 10, open for 5 blocks. *)
Definition bonded : Transaction := signed 0 None 0 (BInferenceAttestation 1 2 3 5 700) 0.
Definition bonded_state : StateDB := (execute_tx bonded legacy_state).2.
Definition bond_escrow : Address := attestation_escrow_address (tx_hash bonded).

Lemma matured_bonds_are_released_witness :
  balance_of bonded_state (user 0) = 4300 /\
  exists n s', sweep_matured_bond_releases 15 bonded_state = (Ok n, s') /\
    balance_of s' (user 0) = Z.min (4300 + payout 15 bonded_state [bond_escrow] (user 0)) u64_max.
Proof.
  assert (balance_of bonded_state (user 0) = 4300) as Hbal by by vm_compute.
  assert ((taken 15 bonded_state).*2 = [bond_escrow]) as Ht by by vm_compute.
  destruct (matured_bonds_are_released 15 bonded_state) as (n & s' & Hs & _ & _ & _ & Ha & _).
  - assert ((db_pending_bond_releases bonded_state).*1 = [15]) as Hk by by vm_compute.
    unfold queue_sorted. rewrite Hk. repeat constructor.
  - apply balances_checked. by vm_compute.
  - rewrite Ht. split; [apply NoDup_singleton|]. intros k e ->%list_elem_of_singleton He.
    assert (acc_code_hash <$> refundable 15 bonded_state bond_escrow = Some (user 0)) as Hu by by vm_compute.
    rewrite He in Hu. apply (inj Some) in Hu. rewrite Hu, list_elem_of_singleton. by vm_compute.
  - split; [done|]. exists n, s'. split; [done|]. rewrite Ha, Ht, Hbal; [done|].
    rewrite Ht, list_elem_of_singleton. by vm_compute.
Defined.

End Witnesses.
