(* ===== verification/BlockExec.v ===== *)
(** * Blocks of transactions (crates/arc-state/src/lib.rs)

    The admission of a block, the batched verification of its signatures and the loop
    that executes it, with the sweep of matured bonds at its end: the ledger side of
    [execute_block_verified_at_with_proof].  Blocks of the native inference lane, the
    changes of its binding, the header and the indexes are left out here; [Sealing] has
    them.  The call opens with [require_healthy_wal]; the modelled log never fails, so that
    check always passes and is left out. *)

From S2P Require Import Prelude Crypto Merkle Validators Blocks Ledger Tier1 Contracts Executor.
From S2P Require Import LedgerV3 Locality BlockStm Footprint.

(** [ed25519_dalek::verify_batch] on triples of message, signature and key.  Nothing is assumed
    of it: its documentation does not promise that each member of an accepted batch verifies alone. *)
Class BatchVerify := { verify_batch : list (list Z * list Z * list Z) -> bool }.

Section BlockExec.
Context `{CR : Crypto, TC : TxCodec, HO : HashOrder, WE : WasmEngine, NL : NativeLane, BatchVerify}.

(** ** Admission *)

Definition V3_MAX_TRANSACTIONS_PER_BLOCK : nat := 1024.
Definition V3_MAX_TRANSACTIONS_PER_SENDER_PER_BLOCK : nat := 1.

(** The loop over the transactions, with the hashes, senders and accounts so far. *)
Fixpoint v3_admission_loop (s : StateDB) (height : Z) (hashes : gset Hash256)
    (senders : gmap Address nat) (accessed : gset Address) (transactions : list Transaction)
    : outcome StateError unit :=
  match transactions with
  | [] => Ok ()
  | tx :: rest =>
      _ ← require (bool_decide (tx_hash tx ∉ hashes))
            (ExecutionError "v3 block contains a duplicate transaction hash");
      let sender_count := S (default 0%nat (senders !! tx_from tx)) in
      _ ← require (bool_decide (sender_count <= V3_MAX_TRANSACTIONS_PER_SENDER_PER_BLOCK)%nat)
            (ExecutionError "v3 block exceeds per-sender transaction limit");
      _ ← validate_v3_transaction_admission_at s tx height;
      _ ← require (bool_decide (tx_access_set tx ## accessed))
            (ExecutionError "v3 block contains overlapping transaction state access");
      v3_admission_loop s height ({[tx_hash tx]} ∪ hashes)
        (<[tx_from tx := sender_count]> senders) (tx_access_set tx ∪ accessed) rest
  end.

Definition validate_v3_block_admission_at (s : StateDB) (transactions : list Transaction)
    (execution_height : Z) : outcome StateError unit :=
  if contains_native transactions then
    _ ← require (protocol_v3 s) (ExecutionError "native v3 block requires recovery protocol v3");
    match transactions with
    | [tx] =>
        _ ← validate_v3_transaction_envelope s tx;
        validate_native_inference_block_admission_at s transactions execution_height
    | _ => Err (ExecutionError "native v3 blocks contain one native transition")
    end
  else
    _ ← require (bool_decide (length transactions <= V3_MAX_TRANSACTIONS_PER_BLOCK)%nat)
          (ExecutionError "v3 block exceeds the maximum of transactions");
    v3_admission_loop s execution_height ∅ ∅ ∅ transactions.

Definition validate_next_protocol_block_admission (s : StateDB) (transactions : list Transaction)
    : outcome StateError unit :=
  native_height ← ok_or (checked_add (db_height s) 1)
                    (ExecutionError "native block height overflow");
  _ ← validate_native_inference_block_admission_at s transactions native_height;
  if protocol_v3 s then
    height ← ok_or (checked_add (db_height s) 1)
               (ExecutionError "prospective v3 block height overflow");
    validate_v3_block_admission_at s transactions height
  else Ok ().

(** ** Signatures *)

Definition is_null (sig : Signature) : bool :=
  match sig with
  | SigEd25519 public_key signature =>
      bool_decide (public_key = replicate 32 0) && forallb (fun b => bool_decide (b = 0)) signature
  | _ => false
  end.

Definition is_unsigned (tx : Transaction) : bool := is_null (tx_signature tx).

(** What the first pass decides about a transaction: nothing, its validity, or that it
    joins the batch with this signature and key. *)
Inductive SigStage :=
| StageLater
| StageDecided (valid : bool)
| StageBatch (signature public_key : list Z).

Definition transaction_hash (s : StateDB) (tx : Transaction) : outcome StateError Hash256 :=
  match db_recovery_context s with
  | Some c => tx_compute_hash_in_domain tx (domain_hash c)
  | None => tx_compute_hash tx
  end.

Definition sig_stage (s : StateDB) (tx : Transaction) : outcome StateError SigStage :=
  if is_unsigned tx || tx_sig_verified tx then Ok StageLater
  else
    expected_hash ← transaction_hash s tx;
    if negb (bool_decide (expected_hash = tx_hash tx)) then Ok (StageDecided false)
    else
      match tx_signature tx with
      | SigEd25519 public_key signature =>
          if negb (bool_decide (address_from_ed25519_pubkey public_key = tx_from tx))
          then Ok (StageDecided false)
          else if bool_decide (length signature = 64%nat) && ed25519_key_parses public_key
          then Ok (StageBatch signature public_key)
          else Ok (StageDecided false)
      | _ => Ok StageLater
      end.

Definition signature_is_ok (s : StateDB) (tx : Transaction) : outcome StateError bool :=
  match verify_transaction_signature s tx with
  | Ok _ => Ok true
  | Err _ => Ok false
  | Panic => Panic
  end.

Fixpoint sig_stages (s : StateDB) (transactions : list Transaction)
    : outcome StateError (list SigStage) :=
  match transactions with
  | [] => Ok []
  | tx :: rest => stage ← sig_stage s tx; stages ← sig_stages s rest; Ok (stage :: stages)
  end.

Definition batch_of (transactions : list Transaction) (stages : list SigStage)
    : list (list Z * list Z * list Z) :=
  omap (fun p => match p.2 with
                 | StageBatch sig pk => Some (hash_to_bytes (tx_hash p.1), sig, pk)
                 | _ => None
                 end) (zip transactions stages).

(** An entry of [batch_sig_valid], once the batch is verified or its members one by one. *)
Definition stage_valid (s : StateDB) (batch_ok : bool) (tx : Transaction) (stage : SigStage)
    : outcome StateError (option bool) :=
  match stage with
  | StageLater => Ok None
  | StageDecided valid => Ok (Some valid)
  | StageBatch _ _ =>
      if batch_ok then Ok (Some true) else valid ← signature_is_ok s tx; Ok (Some valid)
  end.

Fixpoint stage_valids (s : StateDB) (batch_ok : bool) (l : list (Transaction * SigStage))
    : outcome StateError (list (option bool)) :=
  match l with
  | [] => Ok []
  | (tx, stage) :: l' =>
      valid ← stage_valid s batch_ok tx stage; valids ← stage_valids s batch_ok l';
      Ok (valid :: valids)
  end.

Definition batch_sig_valid (s : StateDB) (transactions : list Transaction)
    : outcome StateError (list (option bool)) :=
  stages ← sig_stages s transactions;
  stage_valids s (verify_batch (batch_of transactions stages)) (zip transactions stages).

(** ** The loop *)

(** One transaction, with its entry of [batch_sig_valid]. *)
Definition execute_verified (valid : option bool) (tx : Transaction) : ledger Z :=
  if tx_sig_verified tx then execute_tx tx
  else if is_unsigned tx then err "unsigned transaction"
  else
    match valid with
    | Some true => execute_tx tx
    | Some false => err "invalid signature"
    | None =>
        ok ← checkL (fun s => signature_is_ok s tx);
        if ok : bool then execute_tx tx else err "invalid signature"
    end.

(** A failed transaction leaves a receipt, and the loop goes on. *)
Definition recorded {A} (m : ledger A) : ledger (outcome StateError A) := fun s =>
  match m s with
  | (Panic, s') => (Panic, s')
  | (r, s') => (Ok r, s')
  end.

Fixpoint run_verified (l : list (Transaction * option bool))
    : ledger (list (outcome StateError Z)) :=
  match l with
  | [] => mret []
  | (tx, valid) :: l' =>
      marks ← readL (fun s => mark_tx_accounts_dirty s tx);
      _ ← mark_dirty marks;
      r ← recorded (execute_verified valid tx);
      rs ← run_verified l';
      mret (r :: rs)
  end.

Definition bump_height : ledger unit :=
  modifyL (fun s => s <| db_height := wrapping_add (db_height s) 1 |>).

Definition execute_block_verified (transactions : list Transaction)
    : ledger (list (outcome StateError Z)) :=
  _ ← checkL (fun s => validate_next_protocol_block_admission s transactions);
  _ ← bump_height;
  valids ← checkL (fun s => batch_sig_valid s transactions);
  rs ← run_verified (zip transactions valids);
  height ← readL db_height;
  _ ← sweep_matured_bond_releases height;
  mret rs.

(** The receipt of a result. *)
Definition receipt_of (tx : Transaction) (r : outcome StateError Z) : bool * Z :=
  match r with
  | Ok gas => (true, gas)
  | _ => (false, gas_cost_for_tx tx)
  end.

Lemma sig_stages_length s txs stages :
  sig_stages s txs = Ok stages -> length stages = length txs.
Proof.
  revert stages. induction txs as [|tx txs IH]; intros stages Hs; cbn in Hs; repeat inv_ok1;
    subst; cbn; [done|]. by rewrite (IH _ ltac:(done)).
Qed.

(** The state after a run of blocks. *)
Definition run_blocks (blocks : list (list Transaction)) (s : StateDB) : StateDB :=
  foldl (fun s b => (execute_block_verified b s).2) s blocks.

(** ** Relations that a block respects *)

Section Steps.
Context (R : StateDB -> StateDB -> Prop) (T : Transaction -> Prop).
Context (R_refl : forall s, R s s) (R_trans : forall s1 s2 s3, R s1 s2 -> R s2 s3 -> R s1 s3).
Context (R_dirty : forall s d, R s (s <| db_dirty_accounts := d |>)).
Context (R_height : forall s, R s (s <| db_height := wrapping_add (db_height s) 1 |>)).
Context (R_tx : forall tx s, T tx -> R s (execute_tx tx s).2).
Context (R_sweep : forall h s, R s (sweep_matured_bond_releases h s).2).

Lemma verified_steps valid tx s : T tx -> R s (recorded (execute_verified valid tx) s).2.
Proof.
  intros HT. enough (R s (execute_verified valid tx s).2) as Hv.
  { unfold recorded. by destruct (execute_verified valid tx s) as [[]]. }
  pose proof (R_tx tx s HT) as Hx. unfold execute_verified.
  destruct (tx_sig_verified tx); [done|]. destruct (is_unsigned tx); [apply R_refl|].
  destruct valid as [[]|]; [done|apply R_refl|]. rewrite bind_ledger. unfold checkL.
  destruct (signature_is_ok s tx) as [[]| |]; [done|apply R_refl..].
Qed.

Lemma run_verified_steps l s : Forall (fun p => T p.1) l -> R s (run_verified l s).2.
Proof.
  intros Hl. revert s. induction Hl as [|[tx valid] l HT _ IH]; intros s; cbn [run_verified]; [apply R_refl|].
  rewrite bind_read, bind_ledger. unfold mark_dirty, modifyL. set (s1 := s <| db_dirty_accounts := _ |>).
  assert (R s s1) as H1 by apply R_dirty. rewrite bind_ledger. pose proof (verified_steps valid tx s1 HT) as H2.
  destruct (recorded (execute_verified valid tx) s1) as [[r|e|] s2]; cbn [snd] in *; [|by eapply R_trans..].
  rewrite bind_ledger. specialize (IH s2). destruct (run_verified l s2) as [[rs|e|] s3]; cbn in *;
    by repeat (eapply R_trans; [done|]).
Qed.

Lemma block_steps b s : Forall T b -> R s (execute_block_verified b s).2.
Proof.
  intros Hb. unfold execute_block_verified. rewrite bind_ledger. unfold checkL at 1.
  destruct (validate_next_protocol_block_admission s b); [|apply R_refl..].
  unfold bump_height. rewrite bind_modify. set (s1 := s <| db_height := _ |>).
  assert (R s s1) as H1 by apply R_height. rewrite bind_ledger. unfold checkL.
  destruct (batch_sig_valid s1 b) as [valids|e|]; [|done..].
  assert (Forall (fun p : Transaction * option bool => T p.1) (zip b valids)) as Hz.
  { apply Forall_forall. intros [tx v] Hin. apply elem_of_zip_l in Hin. by eapply Forall_forall in Hb. }
  rewrite bind_ledger. pose proof (run_verified_steps _ s1 Hz) as H2.
  destruct (run_verified (zip b valids) s1) as [[rs|e|] s2]; cbn [snd] in *; [|by eapply R_trans..].
  rewrite bind_read, bind_ledger. pose proof (R_sweep (db_height s2) s2) as H3.
  destruct (sweep_matured_bond_releases (db_height s2) s2) as [[n|e|] s3]; cbn in *;
    by repeat (eapply R_trans; [done|]).
Qed.

Lemma run_blocks_steps blocks s : Forall (Forall T) blocks -> R s (run_blocks blocks s).
Proof.
  intros Hb. revert s. unfold run_blocks. induction Hb as [|b blocks Hb _ IH]; intros s; cbn; [apply R_refl|].
  eapply R_trans; [by apply (block_steps b)|apply IH].
Qed.

End Steps.

End BlockExec.

(** A batch verified one signature at a time. *)
Definition one_by_one `{Crypto} : BatchVerify := {|
  verify_batch l := forallb (fun '(m, sig, pk) => ed25519_verify pk m sig) l;
|}.
