(* ===== verification/Registry.v ===== *)
(** * The validator registry and the staking pool (crates/arc-state/src/lib.rs)

    The pool is a separate counter of what the registry records entry by entry.  The four
    families that write them move both together, and every other family leaves both. *)

From S2P Require Import Prelude Crypto Merkle Validators Blocks Ledger Tier1 Contracts Executor LedgerDemo.
From S2P Require Import LedgerV3 Bonds Locality BlockStm Footprint BlockExec Tier1Laws.

Definition total_stake (m : gmap Address Z) : Z := map_fold (fun _ v t => v + t) 0 m.

(** The pool is the sum of the tracked stakes. *)
Definition pool_ok (s : StateDB) : Prop := db_staking_pool s = total_stake (db_validators s).

Lemma total_stake_insert m k v : total_stake (<[k := v]> m) = total_stake m - default 0 (m !! k) + v.
Proof.
  unfold total_stake. destruct (m !! k) as [w|] eqn:Hk; cbn.
  - rewrite <- (insert_delete_id m k w Hk) at 2. rewrite <- insert_delete_eq.
    rewrite !map_fold_insert_L by (try apply lookup_delete_eq; intros; lia). lia.
  - rewrite map_fold_insert_L by (done || intros; lia). lia.
Qed.

Lemma total_stake_delete m k : total_stake (delete k m) = total_stake m - default 0 (m !! k).
Proof.
  destruct (m !! k) as [w|] eqn:Hk; cbn; [|rewrite delete_id by done; lia].
  rewrite <- (insert_delete_id m k w Hk) at 2. rewrite total_stake_insert, lookup_delete_eq. cbn. lia.
Qed.

(** ** Steps *)

Definition keeps {A} (s : StateDB) (m : ledger A) : Prop := pool_ok s -> pool_ok (m s).2.

Lemma keeps_read {A B} (f : StateDB -> A) (k : A -> ledger B) s : keeps s (k (f s)) -> keeps s (readL f ≫= k).
Proof. done. Qed.

(** A step that leaves the state as it is. *)
Definition reads {A} (m : ledger A) : Prop := forall s, (m s).2 = s.

Lemma keeps_reads {A B} (m : ledger A) (k : A -> ledger B) s :
  reads m -> (forall a, (m s).1 = Ok a -> keeps s (k a)) -> keeps s (m ≫= k).
Proof.
  unfold keeps. intros Hm Hk Hs. rewrite bind_ledger. specialize (Hm s). destruct (m s) as [[a|e|] s1]; cbn in Hm; subst;
    [by apply Hk|done..].
Qed.

Lemma reads_pure {A} (o : outcome StateError A) : reads (pureL o).
Proof. done. Qed.

Lemma reads_check {A} (f : StateDB -> outcome StateError A) : reads (checkL f).
Proof. done. Qed.

Lemma reads_bind {A B} (m : ledger A) (k : A -> ledger B) :
  reads m -> (forall a, reads (k a)) -> reads (m ≫= k).
Proof.
  intros Hm Hk s. rewrite bind_ledger. specialize (Hm s). destruct (m s) as [[a|e|] s1]; cbn in Hm; subst;
    [apply Hk|done..].
Qed.

Lemma reads_lock sender x : reads (lock_stake sender x).
Proof. unfold lock_stake. repeat (apply reads_bind; [apply reads_pure|intros]). done. Qed.

Lemma reads_unlock sender x : reads (unlock_stake sender x).
Proof. unfold unlock_stake. repeat (apply reads_bind; [apply reads_pure|intros]). done. Qed.

Lemma keeps_load_sender {B} tx (k : Account -> ledger B) s :
  (forall a, keeps (loaded (tx_from tx) s) (k a)) -> keeps s (load_sender tx ≫= k).
Proof.
  unfold keeps. intros Hk Hs. rewrite bind_ledger. unfold load_sender. rewrite bind_ledger.
  unfold get_or_create_account. cbv beta iota zeta. rewrite bind_ledger. unfold pureL, require.
  case_bool_decide; cbv beta iota; [|done]. by apply Hk.
Qed.

Lemma keeps_store k a s : keeps s (store_account k a).
Proof. unfold keeps. by rewrite store_account_run. Qed.

(** What the writes of an entry do to the sum. *)
Lemma set_validator_run k v s :
  exists m, set_validator k v s = (Ok (), s <| db_validators := m |>) /\
            total_stake m = total_stake (db_validators s) - tracked_stake k s + v.
Proof.
  unfold set_validator, tracked_stake. case_bool_decide as Hv.
  - eexists. split; [done|]. rewrite total_stake_delete. lia.
  - eexists. split; [done|]. apply total_stake_insert.
Qed.

(** The pool and an entry, moved together. *)
Lemma keeps_entry {A} (entry : ledger unit) (k : ledger A) s p a v :
  (exists m, entry (s <| db_staking_pool := p |>) =
     (Ok (), s <| db_staking_pool := p |> <| db_validators := m |>) /\
     total_stake m = total_stake (db_validators s) - tracked_stake a s + v) ->
  p = db_staking_pool s - tracked_stake a s + v ->
  (forall t, keeps t k) ->
  pool_ok s -> pool_ok ((_ ← entry; k) (s <| db_staking_pool := p |>)).2.
Proof.
  intros (m & Hm & Ht) Hp Hk Hs. rewrite bind_ledger, Hm. apply Hk. unfold pool_ok in *. cbn. lia.
Qed.

Lemma keeps_add_insert a x v acc s :
  v = tracked_stake a s + x ->
  keeps s (_ ← add_staking_pool_checked x; _ ← insert_validator a v; store_account a acc).
Proof.
  intros Hv Hs. rewrite bind_ledger. unfold add_staking_pool_checked.
  destruct (checked_add _ _) as [p|] eqn:Hp; [|done]. apply checked_add_Some in Hp as [-> _].
  apply (keeps_entry _ _ s _ a v); [|lia|intros; apply keeps_store|done].
  eexists. split; [done|]. apply total_stake_insert.
Qed.

Lemma keeps_sub_set a x v acc s :
  v = tracked_stake a s - x ->
  keeps s (_ ← subtract_staking_pool_checked x; _ ← set_validator a v; store_account a acc).
Proof.
  intros Hv Hs. rewrite bind_ledger. unfold subtract_staking_pool_checked.
  destruct (checked_sub _ _) as [p|] eqn:Hp; [|done]. apply checked_sub_Some in Hp as [-> _].
  apply (keeps_entry _ _ s _ a v); [|lia|intros; apply keeps_store|done].
  exact (set_validator_run a v (s <| db_staking_pool := db_staking_pool s - x |>)).
Qed.

Lemma keeps_add_set a x v acc s :
  v = tracked_stake a s + x ->
  keeps s (_ ← add_staking_pool_checked x; _ ← set_validator a v; store_account a acc).
Proof.
  intros Hv Hs. rewrite bind_ledger. unfold add_staking_pool_checked.
  destruct (checked_add _ _) as [p|] eqn:Hp; [|done]. apply checked_add_Some in Hp as [-> _].
  apply (keeps_entry _ _ s _ a v); [|lia|intros; apply keeps_store|done].
  exact (set_validator_run a v (s <| db_staking_pool := db_staking_pool s + x |>)).
Qed.

Lemma bind_assoc_run {A B C} (m : ledger A) (f : A -> ledger B) (k : B -> ledger C) s :
  ((m ≫= f) ≫= k) s = (m ≫= (fun a => f a ≫= k)) s.
Proof. rewrite !bind_ledger. by destruct (m s) as [[]]. Qed.

Lemma keeps_assoc {A B C} (m : ledger A) (f : A -> ledger B) (k : B -> ledger C) s :
  keeps s (m ≫= (fun a => f a ≫= k)) -> keeps s ((m ≫= f) ≫= k).
Proof. unfold keeps. by rewrite bind_assoc_run. Qed.

Lemma keeps_ret {A B} (a : A) (k : A -> ledger B) s : keeps s (k a) -> keeps s (mret a ≫= k).
Proof. done. Qed.

Section Registry.
Context `{CR : Crypto, TC : TxCodec, HO : HashOrder, WE : WasmEngine, NL : NativeLane}.

Ltac keeps_step :=
  cbn beta zeta;
  first
  [ apply keeps_read
  | apply keeps_reads; [first [apply reads_check|apply reads_pure|apply reads_lock|apply reads_unlock]|
                        intros ? ?]
  | apply keeps_load_sender; intros ?
  | apply keeps_assoc
  | apply keeps_ret ].

Lemma stake_keeps tx x b s : keeps s (execute_stake tx x b).
Proof.
  unfold execute_stake, checked_nonce, stake_covered, ensure. repeat keeps_step. destruct b; repeat keeps_step.
  - match goal with Hc : (pureL (ok_or (checked_add _ _) _) _).1 = Ok _ |- _ =>
      cbn in Hc; apply ok_or_Ok, checked_add_Some in Hc as [-> _] end. by apply keeps_add_insert.
  - match goal with Hc : (pureL (ok_or (checked_sub (tracked_stake _ _) _) _) _).1 = Ok _ |- _ =>
      cbn in Hc; apply ok_or_Ok, checked_sub_Some in Hc as [-> _] end. by apply keeps_sub_set.
Qed.

Lemma join_keeps tx x s : keeps s (execute_join_validator tx x).
Proof.
  unfold execute_join_validator, checked_nonce, ensure. repeat keeps_step.
  match goal with Hc : (pureL (require (bool_decide (tracked_stake _ _ = 0)) _) _).1 = Ok _ |- _ =>
    cbn in Hc; apply require_Ok, bool_decide_eq_true in Hc as Hz end.
  apply keeps_add_insert. rewrite Hz. lia.
Qed.

Lemma leave_keeps tx s : keeps s (execute_leave_validator tx).
Proof.
  unfold execute_leave_validator, checked_nonce, stake_covered, ensure. repeat keeps_step.
  case_bool_decide; repeat keeps_step; [|apply keeps_store].
  intros Hs. rewrite bind_ledger. unfold subtract_staking_pool_checked.
  destruct (checked_sub _ _) as [p|] eqn:Hp; [|done]. apply checked_sub_Some in Hp as [-> _].
  set (t := loaded (tx_from tx) s) in *. rewrite bind_assoc_run.
  apply (keeps_entry _ _ t _ (tx_from tx) 0); [|by rewrite Z.add_0_r|intros; apply keeps_ret, keeps_store|done].
  eexists. split; [done|]. rewrite Z.add_0_r. exact (total_stake_delete (db_validators t) (tx_from tx)).
Qed.

Lemma update_keeps tx x s : keeps s (execute_update_stake tx x).
Proof.
  unfold execute_update_stake, checked_nonce, stake_covered, ensure. repeat keeps_step.
  set (t := loaded (tx_from tx) s) in *.
  destruct (bool_decide (tracked_stake (tx_from tx) t < x)) eqn:Hlt;
    [|destruct (bool_decide (x < tracked_stake (tx_from tx) t)) eqn:Hgt]; repeat keeps_step.
  - refine (keeps_add_set _ _ _ _ _ _). lia.
  - refine (keeps_sub_set _ _ _ _ _ _). lia.
  - intros Hs. apply bool_decide_eq_false in Hlt, Hgt. destruct (set_validator_run (tx_from tx) x t) as (m & Hm & Ht).
    rewrite bind_ledger, Hm. apply keeps_store. unfold pool_ok in *. cbn in *. lia.
Qed.

(** ** Every transaction keeps the pool in step *)

Definition same_registry (s s' : StateDB) : Prop :=
  db_validators s' = db_validators s /\ db_staking_pool s' = db_staking_pool s.

Lemma plain_tx_registry tx s :
  registry_body (tx_body tx) = false -> same_registry s (execute_tx tx s).2.
Proof.
  intros Hreg. apply (within_plain_tx same_registry (fun _ => True)); try done.
  intros s1 s2 s3 [] []. split; congruence.
Qed.

Lemma sweep_registry h s : same_registry s (sweep_matured_bond_releases h s).2.
Proof.
  destruct (sweep_rel h same_registry) with s as (n & _ & Hr); try done.
  intros s1 s2 s3 [] []. split; congruence.
Qed.

Lemma registry_tx_keeps tx s : registry_body (tx_body tx) = true -> keeps s (execute_tx tx).
Proof.
  intros Hreg. unfold execute_tx, ensure. repeat keeps_step.
  apply keeps_reads; [by destruct (protocol_v3 s)|intros ? _]. repeat keeps_step.
  unfold execute_body. destruct (tx_body tx); try discriminate Hreg; unfold charged; intros Hs; rewrite bind_ledger.
  - pose proof (stake_keeps tx amount is_stake s Hs) as Hk. by destruct (execute_stake _ _ _ s) as [[]].
  - pose proof (join_keeps tx initial_stake s Hs) as Hk. by destruct (execute_join_validator _ _ s) as [[]].
  - pose proof (leave_keeps tx s Hs) as Hk. by destruct (execute_leave_validator _ s) as [[]].
  - pose proof (update_keeps tx new_stake s Hs) as Hk. by destruct (execute_update_stake _ _ s) as [[]].
Qed.

Lemma execute_tx_pool tx s : pool_ok s -> pool_ok (execute_tx tx s).2.
Proof.
  destruct (registry_body (tx_body tx)) eqn:Hreg; [by apply registry_tx_keeps|].
  destruct (plain_tx_registry tx s Hreg) as [Hv Hp]. unfold pool_ok. by rewrite Hv, Hp.
Qed.

(** C20: over any run of blocks the staking pool is the sum of the stakes in the validator
    registry: staking, joining, leaving and updating move both together, also when they fail
    half way, and no other family touches either. *)
Theorem pool_is_total_stake `{BV : BatchVerify} blocks s :
  pool_ok s -> pool_ok (run_blocks blocks s).
Proof.
  apply (run_blocks_steps (fun s s' => pool_ok s -> pool_ok s') (fun _ => True)); try done.
  - auto.
  - intros tx t _. apply execute_tx_pool.
  - intros h t. destruct (sweep_registry h t) as [Hv Hp]. unfold pool_ok. by rewrite Hv, Hp.
  - apply Forall_forall. intros b _. by apply Forall_forall.
Qed.

Lemma refused_run {A} (m : ledger A) s :
  db_native_migration s = false -> db_native_inference s = true ->
  (_ ← checkL refuse_registry_change_under_native_binding; m) s =
    (Err (ExecutionError "the validator registry is frozen by the active native inference binding"), s).
Proof.
  intros Hm Hi. rewrite bind_ledger. unfold checkL, refuse_registry_change_under_native_binding.
  by rewrite Hm, Hi.
Qed.

End Registry.

Section Witnesses.
Import LedgerDemo.
#[local] Existing Instance one_by_one.

Lemma pool_is_total_stake_witness :
  pool_ok (run_blocks [[signed 0 None 0 (BStake 1000 true (user 0)) 0]] legacy_state) /\
  db_staking_pool (run_blocks [[signed 0 None 0 (BStake 1000 true (user 0)) 0]] legacy_state) = 201000.
Proof.
  split; [|by vm_compute]. apply (pool_is_total_stake [[signed 0 None 0 (BStake 1000 true (user 0)) 0]]).
  by vm_compute.
Defined.

(** A native inference binding is active, and one validator has staked. *)
Definition frozen : StateDB :=
  (execute_tx (signed 3 None 0 (BStake 1000 true (user 3)) 0) (legacy_state <| db_validators := ∅ |>
     <| db_staking_pool := 0 |>)).2 <| db_native_inference := true |>.

(** An active native inference binding freezes the registry against staking, joining and
    updating, which fail and leave the state as it is, but not against leaving: a validator
    that leaves still succeeds and is removed. *)
Theorem leave_ignores_frozen_registry :
  (forall s tx amount b, db_native_migration s = false -> db_native_inference s = true ->
     (execute_stake tx amount b s).2 = s /\ (execute_join_validator tx amount s).2 = s /\
     (execute_update_stake tx amount s).2 = s) /\
  (execute_stake (signed 3 None 1 (BStake 5 true (user 3)) 0) 5 true frozen).1 =
    Err (ExecutionError "the validator registry is frozen by the active native inference binding") /\
  tracked_stake (user 3) frozen = 1000 /\
  let '(r, s') := execute_leave_validator (signed 3 None 1 BLeaveValidator 0) frozen in
  r = Ok () /\ tracked_stake (user 3) s' = 0.
Proof.
  split; [|vm_compute; split_and!; reflexivity]. intros s tx amount b Hm Hi. unfold execute_stake, execute_join_validator, execute_update_stake.
  by rewrite !refused_run.
Qed.

End Witnesses.
