(* ===== verification/StateRoot.v ===== *)
(** * The state root of the account-only branch
    (crates/arc-state/src/lib.rs, crates/arc-crypto/src/merkle.rs)

    Without a recovery context and without the Jellyfish tree, [compute_state_root] brings
    a persistent Merkle tree up to date from the accounts marked dirty.  The marks cover
    what the families below write, so the root is the one a node that starts cold computes
    from the accounts. *)

From S2P Require Import Prelude Crypto Merkle Validators Blocks Ledger Tier1 Contracts Executor.
From S2P Require Import LedgerDemo LedgerV3 Locality BlockStm Footprint BlockExec.

Section StateRoot.
Context `{CR : Crypto, TC : TxCodec}.

(** [hash_bytes(&bincode::serialize(account).expect(..))]. *)
Definition account_leaf (a : Account) : outcome StateError Hash256 :=
  bytes ← expect (bincode_account a); Ok (hash_bytes bytes).

(** A step that can only abort. *)
Definition abort_only {A} (o : outcome unit A) : outcome StateError A :=
  match o with Ok a => Ok a | _ => Panic end.

(** One dirty key: the tree, the positions changed, whether keys were added or removed. *)
Definition refresh_key (accounts : gmap Address Account)
    (st : IncrementalMerkle * list nat * bool) (key : Address)
    : outcome StateError (IncrementalMerkle * list nat * bool) :=
  let '(tree, changed_indices, structure_changed) := st in
  match accounts !! key with
  | Some account =>
      h ← account_leaf account;
      let '((idx, is_new), tree') := im_update tree key h in
      Ok (tree', changed_indices ++ [idx], structure_changed || is_new)
  | None =>
      let '(removed, tree') := im_remove tree key in
      Ok (tree', changed_indices, structure_changed || removed)
  end.

Fixpoint leaf_pairs (l : list (Address * Account)) : outcome StateError (list (Address * Hash256)) :=
  match l with
  | [] => Ok []
  | (key, account) :: l' =>
      h ← account_leaf account; rest ← leaf_pairs l'; Ok ((key, h) :: rest)
  end.

(** The bulk build a cold start does. *)
Definition cold_tree (accounts : gmap Address Account) : outcome StateError IncrementalMerkle :=
  pairs ← leaf_pairs (map_to_list accounts); abort_only (im_from_keyed_leaves pairs).

Definition updated_tree (accounts : gmap Address Account) (tree : IncrementalMerkle)
    (dirty_keys : list Address) : outcome StateError IncrementalMerkle :=
  if bool_decide (im_keys tree = []) && negb (bool_decide (accounts = ∅)) then cold_tree accounts
  else if bool_decide (dirty_keys = []) then Ok tree
  else
    st ← mfoldl (refresh_key accounts) (tree, [], false) dirty_keys;
    let '(tree', changed_indices, structure_changed) := st in
    if structure_changed : bool then Ok (im_rebuild tree')
    else abort_only (im_recompute_paths tree' changed_indices).

(** The dirty keys are taken in the order of [elements]; the source takes the one of its
    concurrent set. *)
Definition compute_account_root : ledger Hash256 := fun s =>
  let s' := s <| db_dirty_accounts := ∅ |> in
  match updated_tree (db_accounts s) (db_incremental_merkle s) (elements (db_dirty_accounts s)) with
  | Ok tree => (Ok (im_root tree), s' <| db_incremental_merkle := tree |>)
  | Err e => (Err e, s')
  | Panic => (Panic, s')
  end.

(** ** The tree stands for the accounts that are not dirty *)

Class AccountCodec : Prop := bincode_account_total a : is_Some (bincode_account a).

Context `{AC : !AccountCodec}.

Definition leaf_of (a : Account) : Hash256 := hash_bytes (default [] (bincode_account a)).

Lemma account_leaf_Ok a : account_leaf a = Ok (leaf_of a).
Proof. unfold account_leaf, leaf_of. by destruct (bincode_account_total a) as [bytes ->]. Qed.

Record tree_ok (dirty : gset Address) (accounts : gmap Address Account) (t : IncrementalMerkle)
    : Prop := {
  tree_wf : im_wf t;
  tree_built : t = im_rebuild t;
  tree_map : forall k, k ∉ dirty -> im_map t !! k = leaf_of <$> accounts !! k;
}.

Definition root_ok (s : StateDB) : Prop :=
  tree_ok (db_dirty_accounts s) (db_accounts s) (db_incremental_merkle s).

Lemma im_rebuild_idemp t : im_rebuild (im_rebuild t) = im_rebuild t.
Proof. unfold im_rebuild. destruct (im_leaves t) eqn:Hl; cbn; by rewrite Hl. Qed.

Lemma im_map_rebuild t : im_map (im_rebuild t) = im_map t.
Proof. unfold im_map, im_entries, im_rebuild. by destruct (im_leaves t) eqn:Hl; cbn; rewrite Hl. Qed.

(** The loop over the dirty keys, from a tree [t0]. *)
Definition loop_ok (accounts : gmap Address Account) (t0 : IncrementalMerkle) (done : list Address)
    (st : IncrementalMerkle * list nat * bool) : Prop :=
  let '(t, idxs, changed) := st in
  im_wf t /\
  (forall k, im_map t !! k = if decide (k ∈ done) then leaf_of <$> accounts !! k else im_map t0 !! k) /\
  (changed = false -> exists leaves, t = t0 <| im_leaves := leaves |> /\
     length leaves = length (im_leaves t0) /\ Forall (fun i => (i < length leaves)%nat) idxs /\
     forall i, i ∉ idxs -> leaves !! i = im_leaves t0 !! i).

Lemma refresh_key_ok accounts t0 done st key :
  loop_ok accounts t0 done st ->
  exists st', refresh_key accounts st key = Ok st' /\ loop_ok accounts t0 (done ++ [key]) st'.
Proof.
  destruct st as [[t idxs] changed]. intros (Hwf & Hmap & Hch). cbn [refresh_key].
  assert (forall m : gmap Address Hash256, (forall k, m !! k = if decide (k = key) then leaf_of <$> accounts !! key else im_map t !! k) ->
    forall k, m !! k = if decide (k ∈ done ++ [key]) then leaf_of <$> accounts !! k else im_map t0 !! k) as Hstep.
  { intros m Hm k. rewrite Hm, Hmap. repeat case_decide; set_solver. }
  destruct (accounts !! key) as [a|] eqn:Hk.
  - rewrite account_leaf_Ok. cbn. destruct (im_update_spec t key (leaf_of a) Hwf) as [Hwf' Hm'].
    destruct (im_update t key (leaf_of a)) as [[idx is_new] t'] eqn:Hu. cbn in *. eexists. split; [done|].
    split_and!; [done| |].
    + apply Hstep. intros k. rewrite Hm'. case_decide; [subst; by rewrite lookup_insert_eq|].
      by rewrite lookup_insert_ne.
    + intros [-> ->]%orb_false_iff. destruct (Hch eq_refl) as (leaves & -> & Hlen & Hin & Hout).
      unfold im_update in Hu. destruct Hwf as (Hs & Hl & Hidx).
      destruct (im_key_index _ !! key) as [i|] eqn:Hi; [|done]. injection Hu as <- <-. cbn in *.
      rewrite Hidx in Hi. apply index_keys_spec in Hi; [|by apply sorted_lt_NoDup].
      apply lookup_lt_Some in Hi. eexists. split; [done|]. rewrite length_insert. split_and!; [done| |].
      * apply Forall_app. split; [done|]. constructor; [lia|done].
      * intros j Hj. rewrite list_lookup_insert_ne by set_solver. apply Hout. set_solver.
  - destruct (im_remove_spec t key Hwf) as [Hwf' Hm'].
    destruct (im_remove t key) as [removed t'] eqn:Hr. cbn in *. eexists. split; [done|].
    split_and!; [done| |].
    + apply Hstep. intros k. rewrite Hm'. case_decide; [subst; by rewrite lookup_delete_eq|].
      by rewrite lookup_delete_ne.
    + intros [-> ->]%orb_false_iff. unfold im_remove in Hr.
      destruct (im_key_index t !! key); [done|]. injection Hr as <-. by apply Hch.
Qed.

Lemma refresh_loop_ok accounts t0 keys done st :
  loop_ok accounts t0 done st ->
  exists st', mfoldl (refresh_key accounts) st keys = Ok st' /\ loop_ok accounts t0 (done ++ keys) st'.
Proof.
  revert done st. induction keys as [|key keys IH]; intros done st Hst.
  - exists st. by rewrite app_nil_r.
  - cbn [mfoldl]. destruct (refresh_key_ok accounts t0 done st key Hst) as (st1 & -> & Hst1).
    destruct (IH _ _ Hst1) as (st2 & Hr & Hst2). exists st2. split; [done|].
    by rewrite <- app_assoc in Hst2.
Qed.

Lemma leaf_pairs_Ok l : leaf_pairs l = Ok ((fun e => (e.1, leaf_of e.2)) <$> l).
Proof.
  induction l as [|[k a] l IH]; [done|]. cbn [leaf_pairs]. rewrite account_leaf_Ok. cbn. by rewrite IH.
Qed.

Lemma windows_distinct_NoDup (l : list Hash256) : NoDup l -> windows_distinct l = true.
Proof.
  induction 1 as [|x l Hx _ IH]; [done|]. destruct l as [|y l]; [done|].
  change (windows_distinct (x :: y :: l)) with (negb (bool_decide (x = y)) && windows_distinct (y :: l)).
  rewrite IH, bool_decide_false; [done|]. intros ->. apply Hx. by left.
Qed.

Lemma im_from_keyed_map entries :
  NoDup entries.*1 ->
  exists t, im_from_keyed_leaves entries = Ok t /\ t = im_rebuild t /\ im_map t = list_to_map entries.
Proof.
  intros Hnd. unfold im_from_keyed_leaves.
  pose proof (merge_sort_Permutation entry_le entries) as Hp.
  assert (NoDup (merge_sort entry_le entries).*1) as Hnd' by (by rewrite Hp).
  rewrite windows_distinct_NoDup by done. eexists. split; [done|]. rewrite im_rebuild_idemp.
  split; [done|]. rewrite im_map_rebuild. unfold im_map, im_entries. cbn.
  rewrite zip_fst_snd. by apply list_to_map_proper.
Qed.

Lemma tree_ok_rebuild accounts t :
  im_wf t -> (forall k, im_map t !! k = leaf_of <$> accounts !! k) -> tree_ok ∅ accounts (im_rebuild t).
Proof.
  intros Hwf Hm. split; [by apply im_wf_rebuild|by rewrite im_rebuild_idemp|].
  intros k _. by rewrite im_map_rebuild.
Qed.

Lemma cold_tree_ok accounts : exists t, cold_tree accounts = Ok t /\ tree_ok ∅ accounts t.
Proof.
  unfold cold_tree. rewrite leaf_pairs_Ok. cbn.
  set (entries := (fun e : Address * Account => (e.1, leaf_of e.2)) <$> map_to_list accounts).
  assert (entries.*1 = (map_to_list accounts).*1) as Hfst
    by (unfold entries; by rewrite <- list_fmap_compose).
  destruct (im_from_keyed_map entries) as (t & Ht & Hb & Hm); [rewrite Hfst; apply NoDup_fst_map_to_list|].
  rewrite Ht. exists t. split; [done|]. split; [by eapply im_from_keyed_wf|done|].
  intros k _. rewrite Hm. change entries with (prod_map id leaf_of <$> map_to_list accounts).
  by rewrite list_to_map_fmap, list_to_map_to_list, lookup_fmap.
Qed.

Lemma updated_tree_ok accounts t keys :
  tree_ok (list_to_set keys) accounts t ->
  exists t', updated_tree accounts t keys = Ok t' /\ tree_ok ∅ accounts t'.
Proof.
  intros [Hwf Hb Hm]. unfold updated_tree. destruct (_ && _); [apply cold_tree_ok|].
  case_bool_decide as Hkeys; [subst keys; by exists t|].
  destruct (refresh_loop_ok accounts t keys [] (t, [], false)) as ([[t' idxs] changed] & -> & Hwf' & Hm' & Hch).
  { split_and!; [done|done|]. intros _. exists (im_leaves t).
    split_and!; [by destruct t|done|constructor|done]. }
  assert (forall k, im_map t' !! k = leaf_of <$> accounts !! k) as Hall.
  { intros k. rewrite Hm'. case_decide as Hk; [done|]. apply Hm. by rewrite elem_of_list_to_set. }
  cbn. destruct changed; [eexists; split; [done|by apply tree_ok_rebuild]|].
  destruct (Hch eq_refl) as (leaves & Ht' & Hlen & Hin & Hout).
  pose proof (recompute_is_rebuild t leaves idxs Hlen Hin Hout) as Hr. rewrite <- Hb, <- Ht' in Hr.
  rewrite Hr. eexists. split; [done|]. by apply tree_ok_rebuild.
Qed.

Lemma tree_ok_root accounts t1 t2 :
  tree_ok ∅ accounts t1 -> tree_ok ∅ accounts t2 -> im_root t1 = im_root t2.
Proof.
  intros [Hwf1 Hb1 Hm1] [Hwf2 Hb2 Hm2]. rewrite Hb1, Hb2. unfold im_root. rewrite !im_rebuild_levels.
  destruct (im_map_canonical t1 t2) as [_ ->]; [done..| |done].
  apply map_eq. intros k. rewrite Hm1, Hm2; set_solver.
Qed.

Lemma compute_account_root_ok s :
  root_ok s ->
  exists t tree, cold_tree (db_accounts s) = Ok t /\
    compute_account_root s =
      (Ok (im_root t), s <| db_dirty_accounts := ∅ |> <| db_incremental_merkle := tree |>) /\
    root_ok (s <| db_dirty_accounts := ∅ |> <| db_incremental_merkle := tree |>).
Proof.
  intros Hok. unfold root_ok in Hok. destruct (cold_tree_ok (db_accounts s)) as (t & Ht & Htok).
  destruct (updated_tree_ok (db_accounts s) (db_incremental_merkle s) (elements (db_dirty_accounts s)))
    as (t' & Hu & Htok'); [by rewrite list_to_set_elements_L|].
  exists t, t'. split; [done|]. unfold compute_account_root. rewrite Hu.
  split; [by rewrite (tree_ok_root (db_accounts s) t' t)|]. done.
Qed.

(** ** Execution keeps the tree and the marks in step *)

Definition marked_step (s s' : StateDB) : Prop :=
  db_dirty_accounts s ⊆ db_dirty_accounts s' /\
  (forall k, k ∉ db_dirty_accounts s' -> db_accounts s' !! k = db_accounts s !! k) /\
  db_incremental_merkle s' = db_incremental_merkle s.

Lemma marked_step_refl s : marked_step s s.
Proof. by split. Qed.

Lemma marked_step_trans s1 s2 s3 : marked_step s1 s2 -> marked_step s2 s3 -> marked_step s1 s3.
Proof.
  intros (Hd & Ha & Hm) (Hd' & Ha' & Hm'). split_and!; [set_solver| |congruence].
  intros k Hk. rewrite Ha' by done. apply Ha. set_solver.
Qed.

Lemma root_ok_step s s' : root_ok s -> marked_step s s' -> root_ok s'.
Proof.
  intros [Hwf Hb Hm] (Hd & Ha & Ht). unfold root_ok. rewrite Ht. split; [done|done|].
  intros k Hk. rewrite Ha by done. apply Hm. set_solver.
Qed.

(** An account updated and then marked. *)
Lemma update_then_mark k f s :
  exists s', (_ ← update_account k f; mark_dirty [k]) s = (Ok (), s') /\ marked_step s s' /\
    db_accounts s' !! k = Some (f (account_or_new k s)).
Proof.
  unfold update_account, get_or_create_account, store_account, insert_account, wal_append, append_op,
    mark_dirty. eexists. split; [reflexivity|].
  cbn. destruct (db_wal_active s); cbn; (split; [|by rewrite lookup_insert_eq]);
    (split_and!; [set_solver| |done]); intros k' Hk'; cbn in *; rewrite !lookup_insert_ne by set_solver; done.
Qed.

Lemma update_mark_bind {A} k f (m : ledger A) s :
  exists s', (_ ← update_account k f; _ ← mark_dirty [k]; m) s = m s' /\ marked_step s s'.
Proof.
  destruct (update_then_mark k f s) as (s' & Hs' & Hstep & _). exists s'. split; [|done].
  rewrite !bind_ledger in *. destruct (update_account k f s) as [[u|e|] s1]; [|done..].
  rewrite bind_ledger. by rewrite Hs'.
Qed.

Lemma release_bond_marked h k s : marked_step s (release_bond h k s).2.
Proof.
  unfold release_bond. rewrite bind_read. destruct (get_account k s) as [e|]; [|apply marked_step_refl].
  destruct (_ || _ || _); [apply marked_step_refl|]. case_bool_decide; [by split|].
  destruct (update_mark_bind (acc_code_hash e) (fun a => credit_saturating a (acc_balance e))
    (_ ← update_account k (fun a => a <| acc_balance := 0 |> <| acc_storage_root := 0 |>);
     _ ← mark_dirty [k]; mret true) s) as (s1 & -> & H1).
  destruct (update_mark_bind k (fun a => a <| acc_balance := 0 |> <| acc_storage_root := 0 |>)
    (mret true) s1) as (s2 & -> & H2).
  by eapply marked_step_trans.
Qed.

Lemma sweep_marked h s : marked_step s (sweep_matured_bond_releases h s).2.
Proof.
  unfold sweep_matured_bond_releases. destruct (drain_due _ _ _) as [due q].
  apply (marked_step_trans _ (s <| db_pending_bond_releases := q |>)); [by split|].
  generalize (s <| db_pending_bond_releases := q |>). clear s q.
  induction due as [|k due IH]; intros s; cbn [release_bonds]; [apply marked_step_refl|].
  rewrite bind_ledger. pose proof (release_bond_marked h k s) as Hk.
  destruct (release_bond h k s) as [[r|e|] s1]; cbn [snd] in *; [|done..].
  rewrite bind_ledger. specialize (IH s1).
  destruct (release_bonds h due s1) as [[n|e|] s2]; cbn in *; by eapply marked_step_trans.
Qed.

Context `{HO : HashOrder, WE : WasmEngine, NL : NativeLane, BV : BatchVerify}.

(** The families [mark_tx_accounts_dirty] marks completely. *)
Definition marked_family (b : TxBody) : bool :=
  match b with
  | BInferenceVote _ _ _ _ _ | BInferenceFinalize _ => false
  | _ => true
  end.

Lemma execute_marked tx s :
  marked_family (tx_body tx) = true -> list_to_set (mark_tx_accounts_dirty s tx) ⊆ db_dirty_accounts s ->
  marked_step s (execute_tx tx s).2.
Proof.
  intros Hf Hd. destruct (execute_tx_footprint tx s) as (Ha & Hd' & Hm).
  split_and!; [by rewrite Hd'| |done]. rewrite Hd'. intros k Hk. apply Ha.
  assert (unmarked s tx = []) as -> by (unfold unmarked; by destruct (tx_body tx)).
  rewrite app_nil_r. set_solver.
Qed.

Lemma verified_marked valid tx s :
  marked_family (tx_body tx) = true -> list_to_set (mark_tx_accounts_dirty s tx) ⊆ db_dirty_accounts s ->
  marked_step s (recorded (execute_verified valid tx) s).2.
Proof.
  intros Hf Hd. enough (marked_step s (execute_verified valid tx s).2) as Hs.
  { unfold recorded. by destruct (execute_verified valid tx s) as [[]]. }
  pose proof (execute_marked tx s Hf Hd) as He. pose proof (marked_step_refl s) as Hr.
  unfold execute_verified. destruct (tx_sig_verified tx); [done|]. destruct (is_unsigned tx); [done|].
  destruct valid as [[]|]; [done..|]. rewrite bind_ledger. unfold checkL.
  by destruct (signature_is_ok s tx) as [[]| |].
Qed.

Lemma mark_dirty_run keys s :
  mark_dirty keys s = (Ok (), s <| db_dirty_accounts := list_to_set keys ∪ db_dirty_accounts s |>).
Proof. done. Qed.

Lemma run_verified_marked l s :
  Forall (fun p => marked_family (tx_body p.1) = true) l -> marked_step s (run_verified l s).2.
Proof.
  intros Hl. revert s. induction Hl as [|[tx valid] l Hf _ IH]; intros s; cbn [run_verified];
    [apply marked_step_refl|].
  rewrite bind_read, bind_ledger, mark_dirty_run.
  set (s1 := s <| db_dirty_accounts := _ |>). assert (marked_step s s1) as H1 by (split_and!; [set_solver|done..]).
  assert (mark_tx_accounts_dirty s1 tx = mark_tx_accounts_dirty s tx) as Hm by done.
  rewrite bind_ledger. pose proof (verified_marked valid tx s1 Hf) as H2.
  rewrite Hm in H2. specialize (H2 ltac:(set_solver)).
  destruct (recorded (execute_verified valid tx) s1) as [[r|e|] s2]; cbn [snd] in *;
    [|by eapply marked_step_trans..].
  rewrite bind_ledger. specialize (IH s2).
  destruct (run_verified l s2) as [[n|e|] s3]; cbn in *;
    (eapply marked_step_trans; [done|by eapply marked_step_trans]).
Qed.

Lemma block_marked transactions s :
  Forall (fun tx => marked_family (tx_body tx) = true) transactions ->
  marked_step s (execute_block_verified transactions s).2.
Proof.
  intros Hf. unfold execute_block_verified. rewrite bind_ledger. unfold checkL at 1.
  destruct (validate_next_protocol_block_admission s transactions); [|apply marked_step_refl..].
  unfold bump_height. rewrite bind_modify. set (s1 := s <| db_height := _ |>).
  assert (marked_step s s1) as H1 by (by split). rewrite bind_ledger. unfold checkL.
  destruct (batch_sig_valid s1 transactions) as [valids|e|]; [|done..].
  assert (Forall (fun p : Transaction * option bool => marked_family (tx_body p.1) = true)
            (zip transactions valids)) as Hz.
  { apply Forall_forall. intros [tx v] Hin. apply elem_of_zip_l in Hin. by eapply Forall_forall in Hf. }
  rewrite bind_ledger. pose proof (run_verified_marked _ s1 Hz) as H2.
  destruct (run_verified (zip transactions valids) s1) as [[rs|e|] s2]; cbn [snd] in *;
    [|by eapply marked_step_trans..].
  rewrite bind_read, bind_ledger. pose proof (sweep_marked (db_height s2) s2) as H3.
  destruct (sweep_matured_bond_releases (db_height s2) s2) as [[n|e|] s3]; cbn in *;
    (eapply marked_step_trans; [done|by eapply marked_step_trans]).
Qed.

(** ** Sealed blocks *)

(** The tree is in step, or nothing has been built yet. *)
Definition root_ready (s : StateDB) : Prop := root_ok s \/ db_incremental_merkle s = im_new.

Lemma root_ready_step s s' : root_ready s -> marked_step s s' -> root_ready s'.
Proof.
  intros [Hr|Hn] Hs; [left; by eapply root_ok_step|right]. destruct Hs as (_ & _ & Hm). congruence.
Qed.

Lemma root_ok_empty s : db_incremental_merkle s = im_new -> db_accounts s = ∅ -> root_ok s.
Proof.
  intros Ht Ha. unfold root_ok. rewrite Ht, Ha. split; [by repeat constructor|done|]. intros k _.
  by rewrite lookup_empty.
Qed.

Lemma compute_account_root_ready s :
  root_ready s ->
  exists t, cold_tree (db_accounts s) = Ok t /\ (compute_account_root s).1 = Ok (im_root t) /\
            root_ready (compute_account_root s).2.
Proof.
  assert (root_ok s -> exists t, cold_tree (db_accounts s) = Ok t /\
    (compute_account_root s).1 = Ok (im_root t) /\ root_ready (compute_account_root s).2) as Hok.
  { intros (t & tree & Ht & Hc & Hr)%compute_account_root_ok. exists t. rewrite Hc. by split_and!; [..|left]. }
  intros [Hr|Hn]; [by apply Hok|]. destruct (decide (db_accounts s = ∅)) as [He|He].
  { apply Hok. by apply root_ok_empty. }
  destruct (cold_tree_ok (db_accounts s)) as (t & Ht & Htok). exists t.
  unfold compute_account_root, updated_tree. rewrite Hn, bool_decide_true, bool_decide_false, Ht by done.
  cbn. by split_and!; [..|left].
Qed.

(** A node that executes blocks and seals each with its root: the accounts after each block
    and the root it writes. *)
Fixpoint sealed_roots (blocks : list (list Transaction)) (s : StateDB)
    : list (gmap Address Account * outcome StateError Hash256) :=
  match blocks with
  | [] => []
  | b :: blocks' =>
      let s1 := (execute_block_verified b s).2 in
      let '(r, s2) := compute_account_root s1 in
      (db_accounts s1, r) :: sealed_roots blocks' s2
  end.

(** C10: over any run of blocks whose transactions are neither votes nor finalizations of the
    tier-1 lane, the incremental root of every block, computed from the accounts marked dirty,
    is the root that a node starting cold from the same accounts computes. *)
Theorem sealed_roots_are_cold_roots blocks s :
  root_ready s -> Forall (Forall (fun tx => marked_family (tx_body tx) = true)) blocks ->
  Forall (fun e => exists t, cold_tree e.1 = Ok t /\ e.2 = Ok (im_root t)) (sealed_roots blocks s).
Proof.
  intros Hs Hb. revert s Hs. induction Hb as [|b blocks Hb _ IH]; intros s Hs; cbn [sealed_roots]; [constructor|].
  pose proof (root_ready_step _ _ Hs (block_marked b s Hb)) as Hs1.
  destruct (compute_account_root_ready _ Hs1) as (t & Ht & Hr & Hs2).
  destruct (compute_account_root _) as [r s2]. cbn in Hr, Hs2. subst r.
  constructor; [by exists t|]. by apply IH.
Qed.

End StateRoot.

Section Witnesses.
Import LedgerDemo.
#[local] Existing Instance one_by_one.

Lemma demo_account_codec : AccountCodec.
Proof. intros a. by eexists. Qed.

Definition plain_blocks : list (list Transaction) :=
  [[signed 0 None 0 (BTransfer (user 5) 100 None) 0]; [signed 1 None 0 (BTransfer (user 6) 200 None) 0]].

Lemma sealed_roots_are_cold_roots_witness :
  Forall (fun e => exists t, cold_tree e.1 = Ok t /\ e.2 = Ok (im_root t))
    (sealed_roots plain_blocks legacy_state).
Proof.
  apply (sealed_roots_are_cold_roots (AC := demo_account_codec)); [by right|by repeat constructor].
Defined.

(** A request of the tier-1 lane, then a vote on it by its one validator. *)
Definition small_request : InferenceRequestBody :=
  mkRequestBody 77 1 (hash_bytes [1; 2]) [1; 2] 10 1 1000 5 1.

Definition vote_blocks : list (list Transaction) :=
  [[signed 0 None 0 (BInferenceRequest small_request) 0];
   [signed 3 None 0 (BInferenceVote 77 9 None [] 0) 0]].

Definition ok_value {E A} (o : outcome E A) : option A :=
  match o with Ok a => Some a | _ => None end.

(** A vote of the tier-1 lane writes the escrow of its request without marking it, so the
    root of the block with the vote is not the root of its accounts: a node that restarts
    computes another one. *)
Theorem vote_leaves_root_stale :
  (fun e => bool_decide (ok_value e.2 = im_root <$> ok_value (cold_tree e.1))) <$> sealed_roots vote_blocks legacy_state =
    [true; false].
Proof. by vm_compute. Qed.

End Witnesses.
