(* ===== verification/V3Blocks.v ===== *)
(** * Runs of protocol-3 blocks

    What holds over any sequence of blocks that [execute_block_verified] is given while
    protocol 3 is active: accounts never disappear and nonces never go back, so what an
    account marks as paid stays paid and what it counts is bounded. *)

From S2P Require Import Prelude Crypto Merkle Validators Blocks Ledger Tier1 Contracts Executor.
From S2P Require Import LedgerDemo LedgerV3 Bonds Locality BlockStm Footprint BlockExec.

Section V3Blocks.
Context `{CR : Crypto, TC : TxCodec, HO : HashOrder, WE : WasmEngine, NL : NativeLane, BV : BatchVerify}.

(** ** Growth *)

Definition nonce_in (m : gmap Address Account) (k : Address) : Z := from_option acc_nonce 0 (m !! k).

Definition grown (m m' : gmap Address Account) : Prop :=
  forall k, (is_Some (m !! k) -> is_Some (m' !! k)) /\ nonce_in m k <= nonce_in m' k.

Definition nonce_at (s : StateDB) (k : Address) : Z := nonce_in (db_accounts s) k.
Definition grows (s s' : StateDB) : Prop := grown (db_accounts s) (db_accounts s').

Lemma grown_trans m1 m2 m3 : grown m1 m2 -> grown m2 m3 -> grown m1 m3.
Proof. intros H1 H2 k. destruct (H1 k), (H2 k). split; [auto|lia]. Qed.

Lemma grows_refl s : grows s s.
Proof. by split. Qed.

Lemma grows_trans s1 s2 s3 : grows s1 s2 -> grows s2 s3 -> grows s1 s3.
Proof. apply grown_trans. Qed.

(** A write that does not lower the nonce of its account. *)
Lemma grown_insert m k a : nonce_in m k <= acc_nonce a -> grown m (<[k := a]> m).
Proof.
  intros Hn k'. unfold nonce_in in *. destruct (decide (k = k')) as [<-|Hne].
  - rewrite lookup_insert_eq. cbn. split; [done|lia].
  - by rewrite lookup_insert_ne.
Qed.

Lemma grown_replay m ws :
  NoDup ws.*1 -> Forall (fun w => nonce_in m w.1 <= acc_nonce w.2) ws -> grown m (replay_accounts m ws).
Proof.
  revert m. induction ws as [|[k a] ws IH]; intros m Hnd Hws; [by split|].
  cbn in Hnd. apply NoDup_cons in Hnd as [Hk Hnd]. apply Forall_cons in Hws as [Ha Hws]. cbn in Ha.
  eapply grown_trans; [by apply (grown_insert m k a)|]. apply (IH (<[k := a]> m)); [done|].
  rewrite Forall_forall in Hws |- *. intros w Hw. unfold nonce_in. rewrite lookup_insert_ne; [by apply Hws|].
  intros ->. apply Hk. by apply list_elem_of_fmap_2.
Qed.

Lemma nonce_account_or_new s k : acc_nonce (account_or_new k s) = nonce_at s k.
Proof. unfold account_or_new, nonce_at, nonce_in. by destruct (db_accounts s !! k). Qed.

Lemma nonce_absent s k : contains_account s k = false -> nonce_at s k = 0.
Proof.
  unfold contains_account, nonce_at, nonce_in. intros Hc%bool_decide_eq_false.
  by destruct (db_accounts s !! k); [destruct Hc|].
Qed.

Lemma nonce_present s k a : get_account k s = Some a -> nonce_at s k = acc_nonce a.
Proof. unfold get_account, nonce_at, nonce_in. by intros ->. Qed.

(** The writes of an effect do not lower a nonce. *)
Lemma effect_nonces s tx ws :
  v3_effect s tx ws -> Forall (fun w => nonce_at s w.1 <= acc_nonce w.2) ws.
Proof.
  destruct 1 as [to amount c sender _ _ Hs|recipient amount pool _ Hv Hs|b w t bu _ Hv Hf Hb].
  - unfold transfer_writes. repeat constructor; cbn [fst snd set_field acc_nonce];
      rewrite ?nonce_account_or_new; [rewrite (nonce_present _ _ _ Hs)|..]; cbn; lia.
  - unfold faucet_writes. unfold validate_v3_faucet_admission in Hv. repeat inv_ok1. dec_hyps.
    repeat constructor; cbn [fst snd]; [rewrite (nonce_present _ _ _ Hs); cbn; lia| |].
    + cbn. rewrite nonce_account_or_new. lia.
    + rewrite nonce_absent by done. cbn. lia.
  - apply reward_funds_Ok in Hf as [Ht ->]. apply budget_candidates_Ok in Hb as (_ & _ & Hsteps).
    unfold reward_effect_writes. destruct (v3_reward_markers b) as [[job cert] probe] eqn:Hm.
    destruct (reward_admission_addresses _ _ _ _ _ _ _ Hm Hv) as (_ & _ & Hj & Hc & Hp).
    apply Forall_app. split; [repeat constructor; cbn [fst snd]|apply Forall_app; split].
    + rewrite (nonce_present _ _ _ Ht). cbn. lia.
    + cbn. rewrite nonce_account_or_new. lia.
    + rewrite nonce_absent by done. cbn. lia.
    + rewrite nonce_absent by done. cbn. lia.
    + destruct probe as [m|]; [|constructor]. repeat constructor. cbn [fst snd].
      rewrite nonce_absent by auto. cbn. lia.
    + apply Forall_forall. intros x Hx. apply list_elem_of_lookup in Hx as [i Hi].
      destruct (Forall2_lookup_l _ _ _ _ _ Hsteps Hi) as (lim & _ & _ & _ & Hn & _).
      rewrite Hn, nonce_account_or_new. lia.
Qed.

Lemma effect_grows s tx ws : v3_effect s tx ws -> grows s (commit ws s).
Proof.
  intros He. unfold grows. change (db_accounts (commit ws s)) with (replay_accounts (db_accounts s) ws).
  apply grown_replay; [by eapply effect_balanced|by eapply effect_nonces].
Qed.

Lemma execute_v3_grows s tx : protocol_v3 s = true -> grows s (execute_tx tx s).2.
Proof.
  intros H3. destruct (execute_v3_cases s tx H3) as [(ws & He & ->)|[-> _]]; [|apply grows_refl].
  by eapply effect_grows.
Qed.

Lemma write_grows k a s : nonce_at s k <= acc_nonce a -> grows s (write_account k a s).
Proof. apply grown_insert. Qed.

Lemma refunded_grows key e s : grows s (refunded key e s).
Proof.
  apply (grows_trans _ (pay_attester e s)).
  - apply write_grows. cbn [credit_saturating set_field acc_nonce]. by rewrite <- nonce_account_or_new.
  - set (s1 := marked [acc_code_hash e] (pay_attester e s)).
    change (grows s1 (write_account key (cleared (account_or_new key s1)) s1)).
    apply write_grows. by rewrite <- nonce_account_or_new.
Qed.

Lemma sweep_grows h s : grows s (sweep_matured_bond_releases h s).2.
Proof.
  destruct (sweep_rel h grows grows_refl grows_trans) with s as (_ & _ & Hs); [by split| |done].
  intros. apply refunded_grows.
Qed.

Lemma protocol_v3_settings s s' : settings s' = settings s -> protocol_v3 s' = protocol_v3 s.
Proof.
  unfold settings. intros Hs. simplify_eq. unfold protocol_v3, active_protocol_version.
  by repeat match goal with Hx : ?f s' = ?f s |- _ => rewrite Hx end.
Qed.

(** ** Runs *)

Definition v3_event : Type := Z * Transaction.

(** The successful transactions of a block. *)
Definition ok_events (height : Z) (transactions : list Transaction)
    (rs : list (outcome StateError Z)) : list v3_event :=
  omap (fun p => match p.2 with Ok _ => Some (height, p.1) | _ => None end) (zip transactions rs).

Fixpoint run_chain (blocks : list (list Transaction)) (s : StateDB) : list v3_event * StateDB :=
  match blocks with
  | [] => ([], s)
  | b :: blocks' =>
      let '(r, s1) := execute_block_verified b s in
      let '(evs, s2) := run_chain blocks' s1 in
      (match r with Ok rs => ok_events (db_height s1) b rs | _ => [] end ++ evs, s2)
  end.

(** ** Relations that a run of blocks respects *)

Section Relation.
Context (R : StateDB -> StateDB -> Prop) (T : Transaction -> Prop).
Context (R_refl : forall s, R s s) (R_trans : forall s1 s2 s3, R s1 s2 -> R s2 s3 -> R s1 s3).
Context (R_dirty : forall s d, R s (s <| db_dirty_accounts := d |>)).
Context (R_height : forall s h, R s (s <| db_height := h |>)).
Context (R_queue : forall s q, R s (s <| db_pending_bond_releases := q |>)).
Context (R_commit : forall s tx ws, T tx -> v3_effect s tx ws -> R s (commit ws s)).
Context (R_refund : forall s key e, get_account key s = Some e -> open_escrow e = true ->
           R s (refunded key e s)).

Lemma verified_rel valid tx s :
  T tx -> protocol_v3 s = true -> R s (recorded (execute_verified valid tx) s).2.
Proof.
  intros HT H3. assert (R s (execute_tx tx s).2) as Hx.
  { destruct (execute_v3_cases s tx H3) as [(ws & He & ->)|[-> _]]; [by eapply R_commit|apply R_refl]. }
  enough (R s (execute_verified valid tx s).2) as Hv.
  { unfold recorded. by destruct (execute_verified valid tx s) as [[]]. }
  unfold execute_verified. destruct (tx_sig_verified tx); [done|]. destruct (is_unsigned tx); [apply R_refl|].
  destruct valid as [[]|]; [done|apply R_refl|]. rewrite bind_ledger. unfold checkL.
  destruct (signature_is_ok s tx) as [[]| |]; [done|apply R_refl..].
Qed.

Lemma recorded_settings valid tx s : settings (recorded (execute_verified valid tx) s).2 = settings s.
Proof.
  enough (settings (execute_verified valid tx s).2 = settings s) as Hv.
  { unfold recorded. by destruct (execute_verified valid tx s) as [[]]. }
  pose proof (execute_tx_settings tx s) as Hx.
  unfold execute_verified. destruct (tx_sig_verified tx); [done|]. destruct (is_unsigned tx); [done|].
  destruct valid as [[]|]; [done..|]. rewrite bind_ledger. unfold checkL.
  by destruct (signature_is_ok s tx) as [[]| |].
Qed.

Lemma run_verified_rel l s :
  Forall (fun p => T p.1) l -> protocol_v3 s = true ->
  R s (run_verified l s).2 /\ settings (run_verified l s).2 = settings s.
Proof.
  intros Hl. revert s. induction Hl as [|[tx valid] l HT _ IH]; intros s H3; cbn [run_verified]; [done|].
  rewrite bind_read, bind_ledger. unfold mark_dirty, modifyL. set (s1 := s <| db_dirty_accounts := _ |>).
  assert (R s s1) as Hr1 by apply R_dirty. rewrite bind_ledger.
  pose proof (verified_rel valid tx s1 HT H3) as Hr2. pose proof (recorded_settings valid tx s1) as Hs2.
  assert (settings s1 = settings s) as Hs1 by done.
  destruct (recorded (execute_verified valid tx) s1) as [[r|e|] s2]; cbn [snd] in *;
    [|split; [by eapply R_trans|by etrans]..].
  rewrite bind_ledger. specialize (IH s2). rewrite (protocol_v3_settings s s2) in IH by congruence.
  destruct (IH H3) as [Hr3 Hs3]. destruct (run_verified l s2) as [[rs|e|] s3]; cbn in *;
    (split; [by repeat (eapply R_trans; [done|])|congruence]).
Qed.

Lemma block_rel b s :
  Forall T b -> protocol_v3 s = true ->
  R s (execute_block_verified b s).2 /\ protocol_v3 (execute_block_verified b s).2 = true.
Proof.
  intros Hb H3. unfold execute_block_verified. rewrite bind_ledger. unfold checkL at 1 3.
  destruct (validate_next_protocol_block_admission s b); [|done..].
  unfold bump_height. rewrite bind_modify. set (s1 := s <| db_height := _ |>).
  assert (R s s1) as Hr1 by apply R_height. assert (protocol_v3 s1 = true) as H31 by done.
  rewrite bind_ledger. unfold checkL. destruct (batch_sig_valid s1 b) as [valids|e|] eqn:Hv; [|done..].
  assert (Forall (fun p : Transaction * option bool => T p.1) (zip b valids)) as Hz.
  { apply Forall_forall. intros [tx v] Hin. apply elem_of_zip_l in Hin. by eapply Forall_forall in Hb. }
  rewrite bind_ledger. destruct (run_verified_rel (zip b valids) s1 Hz H31) as [Hr2 Hs2].
  assert (protocol_v3 (run_verified (zip b valids) s1).2 = true) as H32
    by (by rewrite (protocol_v3_settings s1)).
  destruct (run_verified (zip b valids) s1) as [[rs|e|] s2]; cbn [snd] in *;
    [|split; [by eapply R_trans|done]..].
  rewrite bind_read, bind_ledger.
  destruct (sweep_rel (db_height s2) R R_refl R_trans R_queue) with s2 as (n & Hn & Hr3); [auto|].
  pose proof (sweep_settings (db_height s2) s2) as Hs3.
  destruct (sweep_matured_bond_releases (db_height s2) s2) as [r s3]. cbn in Hn, Hr3, Hs3. subst r. cbn.
  split; [by repeat (eapply R_trans; [done|])|]. by rewrite (protocol_v3_settings s2).
Qed.

Lemma chain_rel blocks s :
  Forall (Forall T) blocks -> protocol_v3 s = true -> R s (run_chain blocks s).2.
Proof.
  intros Hb. revert s. induction Hb as [|b blocks Hb _ IH]; intros s H3; cbn [run_chain]; [apply R_refl|].
  destruct (block_rel b s Hb H3) as [Hr1 H31]. destruct (execute_block_verified b s) as [r s1]. cbn in *.
  specialize (IH s1 H31). destruct (run_chain blocks s1) as [evs s2]. by eapply R_trans.
Qed.

End Relation.

(** ** The transactions a run executes *)

(** The transactions that succeed between two states, with the heights they execute at. *)
Inductive trace : StateDB -> list v3_event -> StateDB -> Prop :=
| trace_done s s' : grows s s' -> trace s [] s'
| trace_step s s1 tx g s2 evs s' :
    grows s s1 -> protocol_v3 s1 = true -> execute_tx tx s1 = (Ok g, s2) -> trace s2 evs s' ->
    trace s ((db_height s1, tx) :: evs) s'.

Lemma trace_grows s evs s' : trace s evs s' -> grows s s'.
Proof.
  induction 1 as [|s s1 tx g s2 evs s' Hg H3 Hx _ IH]; [done|].
  eapply grows_trans; [done|]. eapply grows_trans; [|done].
  pose proof (execute_v3_grows s1 tx H3) as He. by rewrite Hx in He.
Qed.

Lemma trace_before s0 s evs s' : grows s0 s -> trace s evs s' -> trace s0 evs s'.
Proof. intros Hg. destruct 1; econstructor; eauto using grows_trans. Qed.

Lemma trace_app s e1 s1 e2 s2 : trace s e1 s1 -> trace s1 e2 s2 -> trace s (e1 ++ e2) s2.
Proof.
  induction 1 as [|s t tx g t2 evs s' Hg H3 Hx _ IH]; intros H2; [by eapply trace_before|].
  cbn. econstructor; eauto.
Qed.

Lemma execute_verified_cases valid tx s :
  execute_verified valid tx s = execute_tx tx s \/
  ((execute_verified valid tx s).2 = s /\ forall g, (execute_verified valid tx s).1 <> Ok g).
Proof.
  unfold execute_verified. destruct (tx_sig_verified tx); [by left|].
  destruct (is_unsigned tx); [by right|]. destruct valid as [[]|]; [by left|by right|].
  rewrite bind_ledger. unfold checkL. destruct (signature_is_ok s tx) as [[]| |]; [by left|by right..].
Qed.

(** One transaction of the loop. *)
Lemma verified_trace valid tx s :
  protocol_v3 s = true ->
  let '(r, s') := recorded (execute_verified valid tx) s in
  settings s' = settings s /\ grows s s' /\
  match r with
  | Ok (Ok _) => trace s [(db_height s, tx)] s'
  | _ => True
  end.
Proof.
  intros H3. unfold recorded. pose proof (execute_v3_grows s tx H3) as Hg.
  pose proof (execute_tx_settings tx s) as Hs.
  destruct (execute_verified_cases valid tx s) as [->|[Hst Hno]].
  - destruct (execute_tx tx s) as [[g|e|] s'] eqn:Hx; cbn in *; [|by split_and!..].
    split_and!; [done|done|]. econstructor; [apply grows_refl|done|done|]. constructor. apply grows_refl.
  - destruct (execute_verified valid tx s) as [[g|e|] s'] eqn:Hx; cbn in *; subst;
      [by destruct (Hno g)|by split_and!; [|apply grows_refl|]..].
Qed.

Lemma run_verified_trace l s :
  protocol_v3 s = true ->
  let '(r, s') := run_verified l s in
  settings s' = settings s /\ grows s s' /\
  match r with
  | Ok rs => trace s (ok_events (db_height s) l.*1 rs) s'
  | _ => True
  end.
Proof.
  revert s. induction l as [|[tx valid] l IH]; intros s H3; cbn [run_verified].
  { split_and!; [done|apply grows_refl|]. constructor. apply grows_refl. }
  rewrite bind_read, bind_ledger. unfold mark_dirty, modifyL. set (s1 := s <| db_dirty_accounts := _ |>).
  assert (grows s s1) as Hg1 by (by split). rewrite bind_ledger.
  pose proof (verified_trace valid tx s1) as Hv. specialize (Hv H3).
  destruct (recorded (execute_verified valid tx) s1) as [[r|e|] s2]; destruct Hv as (Hs2 & Hg2 & Ht);
    [|by split_and!; [|eapply grows_trans|]..].
  rewrite bind_ledger. specialize (IH s2). rewrite (protocol_v3_settings s1 s2 Hs2) in IH. specialize (IH H3).
  destruct (run_verified l s2) as [[rs|e|] s3]; destruct IH as (Hs3 & Hg3 & Htr); cbn;
    (split_and!; [by etrans|by repeat (eapply grows_trans; [done|])|]); [|done..].
  assert (db_height s2 = db_height s) as Hh by (unfold settings in Hs2; by simplify_eq).
  rewrite Hh in Htr. unfold ok_events in *. cbn. apply (trace_before s s1); [done|].
  destruct r as [g|e|]; cbn; [by apply (trace_app s1 [(db_height s, tx)] s2)|by eapply trace_before..].
Qed.

Lemma stage_valids_length s ok l valids :
  stage_valids s ok l = Ok valids -> length valids = length l.
Proof.
  revert valids. induction l as [|[tx stage] l IH]; intros valids Hv; cbn in Hv; repeat inv_ok1;
    subst; cbn; [done|]. by rewrite (IH _ ltac:(done)).
Qed.

Lemma batch_sig_valid_length s txs valids :
  batch_sig_valid s txs = Ok valids -> length valids = length txs.
Proof.
  unfold batch_sig_valid. intros Hv. repeat inv_ok1.
  match goal with Hs : sig_stages _ _ = Ok _, Hv : stage_valids _ _ _ = Ok _ |- _ =>
    apply sig_stages_length in Hs; apply stage_valids_length in Hv; rewrite length_zip_with, Hs in Hv end.
  lia.
Qed.

Lemma block_trace b s :
  protocol_v3 s = true ->
  let '(r, s') := execute_block_verified b s in
  protocol_v3 s' = true /\ grows s s' /\
  match r with
  | Ok rs => trace s (ok_events (db_height s') b rs) s'
  | _ => True
  end.
Proof.
  intros H3. unfold execute_block_verified. rewrite bind_ledger. unfold checkL at 1.
  destruct (validate_next_protocol_block_admission s b); [|by split_and!; [|apply grows_refl|]..].
  unfold bump_height. rewrite bind_modify. set (s1 := s <| db_height := _ |>).
  assert (grows s s1) as Hg1 by (by split). assert (protocol_v3 s1 = true) as H31 by done.
  rewrite bind_ledger. unfold checkL. destruct (batch_sig_valid s1 b) as [valids|e|] eqn:Hv; [|done..].
  rewrite bind_ledger. pose proof (run_verified_trace (zip b valids) s1 H31) as Hr.
  rewrite fst_zip in Hr by (apply batch_sig_valid_length in Hv; lia).
  destruct (run_verified (zip b valids) s1) as [[rs|e|] s2]; destruct Hr as (Hs2 & Hg2 & Ht);
    [|by split_and!; [rewrite (protocol_v3_settings s1 s2)|eapply grows_trans|]..].
  rewrite bind_read, bind_ledger. pose proof (sweep_grows (db_height s2) s2) as Hg3.
  pose proof (sweep_settings (db_height s2) s2) as Hs3.
  destruct (sweep_matured_bond_releases (db_height s2) s2) as [r s3]. cbn [snd] in *.
  assert (protocol_v3 s3 = true) as H33 by (by rewrite (protocol_v3_settings s2 s3), (protocol_v3_settings s1 s2)).
  assert (grows s s3) as Hg by (by repeat (eapply grows_trans; [done|])).
  destruct r; cbn; (split_and!; [done|done|]); [|done..].
  assert (db_height s3 = db_height s1) as -> by (unfold settings in *; simplify_eq; congruence).
  apply (trace_before s s1); [done|]. rewrite <- (app_nil_r (ok_events _ _ _)). by eapply trace_app, trace_done.
Qed.

Lemma chain_trace blocks s :
  protocol_v3 s = true ->
  let '(evs, s') := run_chain blocks s in protocol_v3 s' = true /\ trace s evs s'.
Proof.
  revert s. induction blocks as [|b blocks IH]; intros s H3; cbn [run_chain].
  { split; [done|]. apply trace_done, grows_refl. }
  pose proof (block_trace b s H3) as Hb. destruct (execute_block_verified b s) as [r s1].
  destruct Hb as (H31 & Hg & Ht). specialize (IH s1 H31).
  destruct (run_chain blocks s1) as [evs s2]. destruct IH as [H32 Ht2]. split; [done|].
  destruct r as [rs|e|]; [by eapply trace_app|by eapply trace_before..].
Qed.

(** ** Bounds on a run *)

(** A quantity that growth does not lower and that each event of a kind raises by one,
    up to a limit, bounds the number of events of that kind. *)
Lemma trace_count (g : StateDB -> Z) (P : v3_event -> bool) (limit : Z) s evs s' :
  (forall s s', grows s s' -> g s <= g s') ->
  (forall s tx gas s', protocol_v3 s = true -> execute_tx tx s = (Ok gas, s') ->
     P (db_height s, tx) = true -> g s' = g s + 1 /\ g s' <= limit) ->
  trace s evs s' -> g s + Z.of_nat (length (filter (fun e => P e = true) evs)) <= Z.max limit (g s).
Proof.
  intros Hmono Hstep. induction 1 as [s s' Hg|s s1 tx gas s2 evs s' Hg H3 Hx _ IH]; [cbn; lia|].
  apply Hmono in Hg. pose proof (execute_v3_grows s1 tx H3) as Hg2. rewrite Hx in Hg2. cbn [snd] in Hg2. apply Hmono in Hg2.
  rewrite filter_cons. case_decide as HP; [|lia]. destruct (Hstep _ _ _ _ H3 Hx HP) as [Hn Hl].
  cbn [length]. lia.
Qed.

(** What a successful transaction of each kind went through. *)
Lemma executed_effect s tx gas s' :
  protocol_v3 s = true -> execute_tx tx s = (Ok gas, s') ->
  exists ws, v3_effect s tx ws /\ s' = commit ws s.
Proof.
  intros H3 Hx. destruct (execute_v3_cases s tx H3) as [(ws & He & Hr)|[_ Hno]].
  - exists ws. split; [done|]. congruence.
  - rewrite Hx in Hno. by destruct (Hno gas).
Qed.

Lemma lookup_replay_elem m ws k a :
  NoDup ws.*1 -> (k, a) ∈ ws -> replay_accounts m ws !! k = Some a.
Proof.
  revert m. induction ws as [|[k' a'] ws IH]; intros m Hnd Hin; [by apply not_elem_of_nil in Hin|].
  cbn in Hnd. apply NoDup_cons in Hnd as [Hk Hnd].
  change (replay_accounts m ((k', a') :: ws)) with (replay_accounts (<[k' := a']> m) ws).
  apply elem_of_cons in Hin as [[= -> ->]|Hin]; [|by apply IH].
  clear IH. revert m Hk. induction ws as [|[k2 a2] ws IH]; intros m Hk; [apply lookup_insert_eq|].
  cbn in Hk, Hnd. apply not_elem_of_cons in Hk as [Hne Hk]. apply NoDup_cons in Hnd as [_ Hnd].
  change (replay_accounts (<[k' := a']> m) ((k2, a2) :: ws)) with
    (replay_accounts (<[k2 := a2]> (<[k' := a']> m)) ws).
  rewrite insert_insert_ne by done. by apply IH.
Qed.

(** ** What is paid once *)

Definition present (k : Address) (s : StateDB) : Z := if contains_account s k then 1 else 0.

Lemma present_grows k s s' : grows s s' -> present k s <= present k s'.
Proof.
  intros Hg. destruct (Hg k) as [Hk _]. unfold present, contains_account.
  repeat case_bool_decide; tauto || lia.
Qed.

Lemma commit_present s tx ws k a :
  v3_effect s tx ws -> contains_account s k = false -> (k, a) ∈ ws ->
  present k (commit ws s) = present k s + 1 /\ present k (commit ws s) <= 1.
Proof.
  intros He Hc Hin. destruct (effect_balanced _ _ _ He) as [Hnd _].
  unfold present. rewrite Hc. unfold contains_account.
  change (db_accounts (commit ws s)) with (replay_accounts (db_accounts s) ws).
  by rewrite (lookup_replay_elem _ _ _ _ Hnd Hin).
Qed.

(** Events whose success takes an address that was free are at most one. *)
Lemma trace_once (P : v3_event -> bool) (k : Address) s evs s' :
  (forall s tx ws, v3_effect s tx ws -> P (db_height s, tx) = true ->
     contains_account s k = false /\ exists a, (k, a) ∈ ws) ->
  trace s evs s' -> (length (filter (fun e => P e = true) evs) <= 1)%nat.
Proof.
  intros HP Ht. enough (present k s + Z.of_nat (length (filter (fun e => P e = true) evs)) <= Z.max 1 (present k s)).
  { unfold present in *. destruct (contains_account s k); lia. }
  eapply (trace_count (present k)); [apply present_grows| |done].
  intros t tx gas t' H3 Hx HPe. destruct (executed_effect _ _ _ _ H3 Hx) as (ws & He & ->).
  destruct (HP _ _ _ He HPe) as (Hc & a & Hin). by eapply commit_present.
Qed.

Definition claims_for (recipient : Address) (e : v3_event) : bool :=
  match tx_body e.2 with
  | BFaucetClaim r _ => bool_decide (r = recipient)
  | _ => false
  end.

(** An effect whose transaction is a reward. *)
Definition reward_of (e : v3_event) : option CommunityInferenceRewardBody :=
  match tx_body e.2 with BCommunityInferenceReward b => Some b | _ => None end.

Definition rewards_job (chain_domain job_id : Hash256) (e : v3_event) : bool :=
  match reward_of e with
  | Some b => bool_decide (cr_chain_domain b = chain_domain) && bool_decide (cr_job_id b = job_id)
  | None => false
  end.

Definition rewards_certificate (chain_domain : Hash256) (worker : Address) (attestation : Hash256)
    (e : v3_event) : bool :=
  match reward_of e with
  | Some b => bool_decide (cr_chain_domain b = chain_domain) && bool_decide (cr_worker b = worker) &&
              bool_decide (wc_attestation_hash (cr_worker_certificate b) = attestation)
  | None => false
  end.

Definition rewards_probe (chain_domain assignment_epoch : Hash256) (e : v3_event) : bool :=
  match reward_of e with
  | Some b => bool_decide (cr_chain_domain b = chain_domain) &&
              bool_decide (cr_assignment_epoch b = assignment_epoch)
  | None => false
  end.

Lemma faucet_effect_marker s tx ws recipient :
  v3_effect s tx ws -> claims_for recipient (db_height s, tx) = true ->
  contains_account s (v3_faucet_marker_address recipient) = false /\
  exists a, (v3_faucet_marker_address recipient, a) ∈ ws.
Proof.
  unfold claims_for. cbn [snd].
  destruct 1 as [? ? ? ? Hb|r amount pool Hb Hv|? ? ? ? Hb]; rewrite Hb; try done. intros ->%bool_decide_eq_true.
  unfold validate_v3_faucet_admission in Hv. repeat inv_ok1. dec_hyps. split; [done|].
  unfold faucet_writes. eexists. do 2 right. by left.
Qed.

(** The markers a reward takes are free before it and written by it. *)
Lemma reward_effect_markers s tx ws b :
  v3_effect s tx ws -> reward_of (db_height s, tx) = Some b ->
  let '(job, cert, probe) := v3_reward_markers b in
  forall k, k ∈ [job; cert] ++ option_list probe ->
    contains_account s k = false /\ exists a, (k, a) ∈ ws.
Proof.
  unfold reward_of. cbn [snd].
  destruct 1 as [? ? ? ? Hb|? ? ? Hb|b' w t bu Hb Hv]; rewrite Hb; try done. intros [= ->].
  destruct (v3_reward_markers b) as [[job cert] probe] eqn:Hm.
  destruct (reward_admission_addresses _ _ _ _ _ _ _ Hm Hv) as (_ & _ & Hj & Hc & Hp).
  unfold reward_effect_writes. rewrite Hm. intros k. rewrite !elem_of_app, !elem_of_cons.
  intros [[->|[->|Hk%not_elem_of_nil]]|Hk]; [split; [done|]..|done|].
  - eexists. cbn. do 2 right. by left.
  - eexists. cbn. do 3 right. by left.
  - destruct probe as [m|]; [|by apply not_elem_of_nil in Hk]. apply list_elem_of_singleton in Hk as ->.
    split; [by apply Hp|]. eexists. cbn. do 4 right. by left.
Qed.

End V3Blocks.
