(* ===== verification/V3Ledger.v ===== *)
(** * Conservation and recovery under protocol 3

    Over any run of blocks: no transaction creates funds, the log replays to the accounts,
    and the claims, jobs and budgets that bound what the faucet and the reward treasury
    pay are respected. *)

From S2P Require Import Prelude Crypto Merkle Validators Blocks Ledger Tier1 Contracts Executor.
From S2P Require Import LedgerDemo LedgerV3 Bonds Locality BlockStm Footprint BlockExec V3Blocks.

Section V3Ledger.
Context `{CR : Crypto, TC : TxCodec, HO : HashOrder, WE : WasmEngine, NL : NativeLane, BV : BatchVerify}.

(** ** The supply *)

(** The fields of a transfer or a claim are unsigned. *)
Definition amounts_ok (tx : Transaction) : Prop :=
  0 <= tx_fee tx /\
  match tx_body tx with
  | BTransfer _ amount _ | BFaucetClaim _ amount => 0 <= amount
  | _ => True
  end.

Lemma balances_replay s ws :
  balances_ok s -> Forall (fun w => 0 <= acc_balance w.2 <= u64_max) ws -> balances_ok (commit ws s).
Proof.
  unfold balances_ok. change (db_accounts (commit ws s)) with (replay_accounts (db_accounts s) ws).
  unfold get_account. change (db_accounts (commit ws s)) with (replay_accounts (db_accounts s) ws).
  generalize (db_accounts s). intros m Hm Hws. revert m Hm.
  induction Hws as [|[k a] ws Ha _ IH]; intros m Hm; [done|]. cbn in Ha. apply (IH (<[k := a]> m)).
  intros k' e. destruct (decide (k = k')) as [<-|Hne].
  - rewrite lookup_insert_eq. by intros [= <-].
  - rewrite lookup_insert_ne by done. apply Hm.
Qed.

Lemma effect_balances s tx ws :
  balances_ok s -> amounts_ok tx -> v3_effect s tx ws ->
  Forall (fun w => 0 <= acc_balance w.2 <= u64_max) ws.
Proof.
  intros Hs [Hfee Hamt] He. pose proof (balances_ok_new s) as Hnew. unfold balance_of in Hnew.
  destruct He as [to amount c sender Hb Hv Hg|recipient amount pool Hb Hv Hg|b w t bu Hb Hv Hf Hbu].
  - rewrite Hb in Hamt. unfold validate_v3_transfer_admission in Hv. rewrite Hg in Hv.
    repeat inv_ok1. dec_hyps. split_checked. simplify_eq.
    pose proof (Hs _ _ Hg). pose proof (Hnew to Hs). pose proof (Hnew v3_fee_treasury_address Hs).
    unfold transfer_writes. repeat constructor; cbn; lia.
  - rewrite Hb in Hamt. unfold validate_v3_faucet_admission in Hv. rewrite Hg in Hv.
    repeat inv_ok1. dec_hyps. split_checked. simplify_eq.
    pose proof (Hs _ _ Hg). pose proof (Hnew recipient Hs).
    unfold faucet_writes. repeat constructor; cbn; unfold u64_max in *; lia.
  - apply budget_candidates_Ok in Hbu as (_ & _ & Hsteps).
    unfold reward_funds in Hf. repeat inv_ok1. dec_hyps. split_checked. simplify_eq.
    pose proof (Hnew (cr_worker b) Hs).
    match goal with Ht : get_account inference_reward_treasury_address s = Some _ |- _ =>
      pose proof (Hs _ _ Ht) end.
    unfold reward_effect_writes, INFERENCE_ATTESTATION_REWARD in *. destruct (v3_reward_markers b) as [[job cert] probe].
    apply Forall_app. split; [do 4 (apply Forall_cons; split; [cbn; unfold u64_max in *; lia|]); apply Forall_nil_2|].
    apply Forall_app. split; [by destruct probe; repeat constructor|].
    apply Forall_forall. intros w Hw. apply list_elem_of_lookup in Hw as [i Hi].
    destruct (Forall2_lookup_l _ _ _ _ _ Hsteps Hi) as (? & _ & _ & _ & _ & _ & ->). by unfold u64_max.
Qed.

(** A refund moves the bond, or destroys what the attester cannot hold. *)
Lemma refunded_supply key e s :
  balances_ok s -> get_account key s = Some e ->
  balances_ok (refunded key e s) /\
  supply (db_accounts (refunded key e s)) <= supply (db_accounts s).
Proof.
  intros Hs Hk. pose proof (Hs _ _ Hk) as He. pose proof (balances_ok_new s (acc_code_hash e) Hs) as Ha.
  unfold balance_of in Ha. unfold refunded. set (s1 := pay_attester e s).
  change (account_or_new key (marked ?l s1)) with (account_or_new key s1). split.
  - intros k a. change (get_account k (marked ?l ?t)) with (get_account k t). rewrite get_account_write.
    change (get_account k (marked ?l s1)) with (get_account k s1).
    case_bool_decide; [intros [= <-]; cbn; unfold u64_max; lia|]. unfold s1, pay_attester.
    rewrite get_account_write. case_bool_decide; [|apply Hs].
    intros [= <-]. cbn. unfold saturating_add, u64_max in *. lia.
  - change (db_accounts (marked ?l ?t)) with (db_accounts t). rewrite write_supply.
    change (account_or_new key (marked ?l s1)) with (account_or_new key s1).
    change (db_accounts (marked ?l s1)) with (db_accounts s1).
    unfold s1, pay_attester. rewrite write_supply, account_or_new_write.
    unfold worth, cleared. case_bool_decide as Hd; [|rewrite (account_or_new_Some _ _ _ Hk)];
      cbn [credit_saturating set_field acc_balance acc_staked_balance]; cbn; unfold saturating_add; lia.
Qed.

Definition supply_rel (s s' : StateDB) : Prop :=
  balances_ok s -> balances_ok s' /\ supply (db_accounts s') <= supply (db_accounts s).

Lemma effect_supply s tx ws : amounts_ok tx -> v3_effect s tx ws ->
  balances_ok s -> balances_ok (commit ws s) /\ supply (db_accounts (commit ws s)) = supply (db_accounts s).
Proof.
  intros Ht He Hs. split; [by eapply balances_replay, effect_balances|].
  change (db_accounts (commit ws s)) with (replay_accounts (db_accounts s) ws).
  destruct (effect_balanced s tx ws He) as [Hnd Hw]. rewrite supply_replay by done. lia.
Qed.

Lemma run_chain_supply blocks s :
  Forall (Forall amounts_ok) blocks -> protocol_v3 s = true -> supply_rel s (run_chain blocks s).2.
Proof.
  apply chain_rel; unfold supply_rel.
  - by intros.
  - intros s1 s2 s3 H12 H23 Hs. destruct (H12 Hs) as [Hs2 ?]. destruct (H23 Hs2). split; [done|lia].
  - intros t d Ht. by split; [exact Ht|].
  - intros t d Ht. by split; [exact Ht|].
  - intros t d Ht. by split; [exact Ht|].
  - intros t tx ws Htx He Ht. destruct (effect_supply t tx ws Htx He Ht) as [? ->]. by split.
  - intros t key e Hk _ Ht. by apply refunded_supply.
Qed.

(** ** The log *)

Definition logged_rel (s s' : StateDB) : Prop :=
  db_wal_active s = true -> db_wal_active s' = true /\
  exists ops, db_wal s' = db_wal s ++ ops /\
    forall t, db_accounts t = db_accounts s -> db_accounts (replay t ops) = db_accounts s'.

Lemma replay_account_ops t height ws :
  db_accounts (replay t (account_ops height ws)) = replay_accounts (db_accounts t) ws.
Proof.
  unfold replay, account_ops, replay_accounts. revert t.
  induction ws as [|[k a] ws IH]; intros t; [done|]. cbn [fmap list_fmap foldl]. by rewrite IH.
Qed.

Lemma logged_refl s : logged_rel s s.
Proof. intros Hw. split; [done|]. exists []. by rewrite app_nil_r. Qed.

Lemma logged_trans s1 s2 s3 : logged_rel s1 s2 -> logged_rel s2 s3 -> logged_rel s1 s3.
Proof.
  intros H12 H23 Hw. destruct (H12 Hw) as (Hw2 & ops1 & Hl1 & Hr1).
  destruct (H23 Hw2) as (Hw3 & ops2 & Hl2 & Hr2). split; [done|]. exists (ops1 ++ ops2).
  split; [by rewrite app_assoc, <- Hl1|]. intros t Ht. unfold replay. rewrite foldl_app. apply Hr2.
  by apply Hr1.
Qed.

(** A write through the log. *)
Lemma logged_write k a s : logged_rel s (write_account k a s).
Proof.
  intros Hw. split; [done|]. unfold write_account. cbn. rewrite Hw. exists [mkWalEntry (SetAccount k a) (db_height s)].
  split; [done|]. cbn. by intros t ->.
Qed.

Lemma run_chain_logged blocks s : protocol_v3 s = true -> logged_rel s (run_chain blocks s).2.
Proof.
  intros H3. apply (chain_rel logged_rel (fun _ => True)); [apply logged_refl|apply logged_trans|..].
  - intros t d. apply (logged_refl t).
  - intros t d. apply (logged_refl t).
  - intros t d. apply (logged_refl t).
  - intros t tx ws _ _ Hw. split; [done|]. exists (account_ops (db_height t) ws). split; [cbn; by rewrite Hw|].
    intros t' Ht. rewrite replay_account_ops, Ht. done.
  - intros t key e _ _. unfold refunded, pay_attester. set (t1 := write_account (acc_code_hash e) _ t).
    apply (logged_trans _ t1); [apply logged_write|].
    apply (logged_trans _ (write_account key (cleared (account_or_new key t1)) t1)); [apply logged_write|].
    apply (logged_refl (write_account key (cleared (account_or_new key t1)) t1)).
  - apply Forall_forall. intros b _. by apply Forall_forall.
  - done.
Qed.

(** ** Issuance *)

Lemma trace_budget (P : v3_event -> bool) (k : Address) (limit : Z) s evs s' :
  0 <= limit -> 0 <= nonce_at s k ->
  (forall s tx ws, v3_effect s tx ws -> P (db_height s, tx) = true ->
     exists a, (k, a) ∈ ws /\ acc_nonce a = nonce_at s k + 1 /\ acc_nonce a <= limit) ->
  trace s evs s' -> Z.of_nat (length (filter (fun e => P e = true) evs)) <= limit.
Proof.
  intros Hl Hn HP Ht.
  enough (nonce_at s k + Z.of_nat (length (filter (fun e => P e = true) evs)) <= Z.max limit (nonce_at s k))
    by lia.
  eapply (trace_count (fun t => nonce_at t k)); [| |done].
  - intros t t' Hg. apply Hg.
  - intros t tx gas t' H3 Hx HPe. destruct (executed_effect _ _ _ _ H3 Hx) as (ws & He & ->).
    destruct (HP _ _ _ He HPe) as (a & Hin & Ha & Hle). destruct (effect_balanced _ _ _ He) as [Hnd _].
    unfold nonce_at at 1 3, nonce_in.
    change (db_accounts (commit ws t)) with (replay_accounts (db_accounts t) ws).
    rewrite (lookup_replay_elem _ _ _ _ Hnd Hin). cbn. lia.
Qed.

(** The counters a reward raises. *)
Lemma reward_effect_counters s tx ws b i k limit :
  v3_effect s tx ws -> reward_of (db_height s, tx) = Some b ->
  budget_addresses b (db_height s) !! i = Some k -> budget_limits !! i = Some limit ->
  exists a, (k, a) ∈ ws /\ acc_nonce a = nonce_at s k + 1 /\ acc_nonce a <= limit.
Proof.
  unfold reward_of. cbn [snd].
  destruct 1 as [? ? ? ? Hb|? ? ? Hb|b' w t bu Hb Hv Hf Hbu]; rewrite Hb; try done. intros [= ->] Hk Hlim.
  apply budget_candidates_Ok in Hbu as (Haddr & _ & Hsteps). rewrite <- Haddr in Hk.
  apply list_lookup_fmap_Some in Hk as ([k' a] & -> & Hi).
  destruct (Forall2_lookup_l _ _ _ _ _ Hsteps Hi) as (lim & Hlim' & _ & _ & Hn & Hle & _). simplify_eq.
  cbn [fst snd] in *. exists a. rewrite Hn, nonce_account_or_new in *. split_and!; [|done|lia].
  unfold reward_effect_writes. destruct (v3_reward_markers b) as [[job cert] probe].
  rewrite !elem_of_app. do 2 right. by eapply list_elem_of_lookup_2.
Qed.

Definition reward_marker_list (b : CommunityInferenceRewardBody) : list Address :=
  let '(job, cert, probe) := v3_reward_markers b in [job; cert] ++ option_list probe.

(** Rewards that share a marker are paid once. *)
Lemma rewards_once (P : v3_event -> bool) (k : Address) s evs s' :
  trace s evs s' ->
  (forall e, P e = true -> exists b, reward_of e = Some b /\ k ∈ reward_marker_list b) ->
  (length (filter (fun e => P e = true) evs) <= 1)%nat.
Proof.
  intros Ht HP. eapply trace_once; [|exact Ht]. intros t tx ws He HPe.
  destruct (HP _ HPe) as (b & Hb & Hk). pose proof (reward_effect_markers t tx ws b He Hb) as Hm.
  unfold reward_marker_list in Hk. destruct (v3_reward_markers b) as [[job cert] probe]. by apply Hm.
Qed.

(** The rewards of a run whose height and body satisfy [Q]. *)
Definition rewards_with (Q : Z -> CommunityInferenceRewardBody -> bool) (evs : list v3_event)
    : list v3_event :=
  filter (fun e => match reward_of e with Some b => Q e.1 b | None => false end = true) evs.

Lemma rewards_bounded Q i k limit s evs s' :
  0 <= limit -> 0 <= nonce_at s k -> budget_limits !! i = Some limit ->
  (forall h b, Q h b = true -> budget_addresses b h !! i = Some k) ->
  trace s evs s' -> Z.of_nat (length (rewards_with Q evs)) <= limit.
Proof.
  intros Hl Hn Hlim HQ. unfold rewards_with.
  apply (trace_budget (fun e => match reward_of e with Some b => Q e.1 b | None => false end) k limit); [done..|].
  intros t tx ws He HP. cbn [fst] in HP. destruct (reward_of (db_height t, tx)) as [b|] eqn:Hr; [|done].
  eapply reward_effect_counters; [done|done|by apply HQ|done].
Qed.

(** ** The properties of protocol 3 *)

(** C4: execution under protocol 3 is its admission followed by its writes: a transaction
    outside the native lane that is admitted succeeds, charges the cost of its family and
    commits exactly the writes of its effect to the accounts and to the log; one that is not
    admitted returns the error of the admission and leaves the state as it was, and a native
    one never succeeds here. *)
Theorem v3_execution_refines_effects s tx :
  protocol_v3 s = true ->
  match validate_v3_transaction_admission_at s tx (db_height s) with
  | Ok _ => if is_native_body (tx_body tx)
            then (execute_tx tx s).2 = s /\ forall g, (execute_tx tx s).1 <> Ok g
            else exists ws, v3_effect s tx ws /\
                            execute_tx tx s = (Ok (gas_cost_for_tx tx), commit ws s)
  | r => (execute_tx tx s).2 = s /\
         (is_native_body (tx_body tx) = false ->
            (execute_tx tx s).1 = match r with Err e => Err e | _ => Panic end) /\
         forall g, (execute_tx tx s).1 <> Ok g
  end.
Proof.
  intros H3. destruct (is_native_body (tx_body tx)) eqn:Hn.
  - destruct (execute_v3_native s tx H3 Hn). by destruct (validate_v3_transaction_admission_at _ _ _).
  - pose proof (execute_v3 s tx H3 Hn) as Hx.
    by destruct (validate_v3_transaction_admission_at _ _ _); [|rewrite Hx..].
Qed.

(** C6: no run of blocks creates funds under protocol 3: balances stay within 64 bits, every
    transaction that succeeds keeps the sum of the balances and the stakes of all accounts
    exactly, and over any run of blocks, the refunds of bonds included, the sum never grows. *)
Theorem v3_run_never_mints blocks s evs s' :
  protocol_v3 s = true -> balances_ok s -> Forall (Forall amounts_ok) blocks ->
  run_chain blocks s = (evs, s') ->
  balances_ok s' /\ supply (db_accounts s') <= supply (db_accounts s) /\
  forall t tx g t', protocol_v3 t = true -> balances_ok t -> amounts_ok tx ->
    execute_tx tx t = (Ok g, t') -> supply (db_accounts t') = supply (db_accounts t).
Proof.
  intros H3 Hs Hb Hr. destruct (run_chain_supply blocks s Hb H3 Hs) as [Hs' Hle].
  rewrite Hr in Hs', Hle. split_and!; [done..|]. intros t tx g t' Ht3 Ht Htx Hx.
  destruct (executed_effect _ _ _ _ Ht3 Hx) as (ws & He & ->). by apply (effect_supply t tx).
Qed.

(** With the log active, the records that a run of blocks appends under protocol 3
    replay to the accounts the run ends with, from any state with the accounts it started
    with. *)
Theorem v3_log_recovers_accounts blocks s evs s' :
  protocol_v3 s = true -> db_wal_active s = true -> run_chain blocks s = (evs, s') ->
  exists ops, db_wal s' = db_wal s ++ ops /\
    forall t, db_accounts t = db_accounts s -> db_accounts (replay t ops) = db_accounts s'.
Proof.
  intros H3 Hw Hr. destruct (run_chain_logged blocks s H3 Hw) as (_ & ops & Hl & Hrep).
  rewrite Hr in Hl, Hrep. by exists ops.
Qed.

(** Over any run of blocks the faucet pays a recipient at most once. *)
Theorem v3_faucet_pays_once blocks s evs s' recipient :
  protocol_v3 s = true -> run_chain blocks s = (evs, s') ->
  (length (filter (fun e => claims_for recipient e = true) evs) <= 1)%nat.
Proof.
  intros H3 Hr. pose proof (chain_trace blocks s H3) as Ht. rewrite Hr in Ht. destruct Ht as [_ Ht].
  eapply trace_once; [|done]. intros t tx ws He Hc. by apply (faucet_effect_marker t tx ws recipient).
Qed.

(** Over any run of blocks the reward treasury pays a job, a worker certificate and a
    recovery probe at most once each. *)
Theorem v3_reward_pays_once blocks s evs s' chain job worker attestation epoch :
  protocol_v3 s = true -> run_chain blocks s = (evs, s') ->
  (length (filter (fun e => rewards_job chain job e = true) evs) <= 1)%nat /\
  (length (filter (fun e => rewards_certificate chain worker attestation e = true) evs) <= 1)%nat /\
  (is_Some (v3_recovery_probe_marker_address chain epoch) ->
   (length (filter (fun e => rewards_probe chain epoch e = true) evs) <= 1)%nat).
Proof.
  intros H3 Hr. pose proof (chain_trace blocks s H3) as Ht. rewrite Hr in Ht. destruct Ht as [_ Ht].
  split_and!; [..|intros [m Hm]].
  - apply (rewards_once _ (v3_marker_address chain job) s evs s' Ht). intros [h tx]. unfold rewards_job.
    destruct (reward_of _) as [b|]; [|done].
    intros [<-%bool_decide_eq_true <-%bool_decide_eq_true]%andb_true_iff. exists b. split; [done|by left].
  - apply (rewards_once _ (v3_certificate_marker_address chain worker attestation) s evs s' Ht).
    intros [h tx]. unfold rewards_certificate. destruct (reward_of _) as [b|]; [|done].
    intros [[<-%bool_decide_eq_true <-%bool_decide_eq_true]%andb_true_iff <-%bool_decide_eq_true]%andb_true_iff.
    exists b. split; [done|right; by left].
  - apply (rewards_once _ m s evs s' Ht). intros [h tx]. unfold rewards_probe.
    destruct (reward_of _) as [b|]; [|done].
    intros [<-%bool_decide_eq_true <-%bool_decide_eq_true]%andb_true_iff. exists b. split; [done|].
    unfold reward_marker_list. cbn. rewrite Hm. do 2 right. by left.
Qed.

(** C21: over any run of blocks of a chain under protocol 3 (the family that issues
    community rewards), at most one reward is paid at a height, 40 in an epoch of 216,000
    blocks, 8 to a worker and 16 through a coordinator in an epoch.  Legacy families are not
    covered. *)
Theorem v3_reward_issuance_bounded blocks s evs s' :
  protocol_v3 s = true -> (forall k, 0 <= nonce_at s k) -> run_chain blocks s = (evs, s') ->
  let epoch h := h / V3_COMMUNITY_REWARD_EPOCH_BLOCKS in
  (forall height, Z.of_nat (length (rewards_with (fun h _ => bool_decide (h = height)) evs)) <= 1) /\
  (forall e, Z.of_nat (length (rewards_with (fun h _ => bool_decide (epoch h = e)) evs)) <= 40) /\
  (forall e worker, Z.of_nat (length (rewards_with (fun h b =>
     bool_decide (epoch h = e) && bool_decide (cr_worker b = worker)) evs)) <= 8) /\
  (forall e coordinator, Z.of_nat (length (rewards_with (fun h b =>
     bool_decide (epoch h = e) && bool_decide (cr_coordinator b = coordinator)) evs)) <= 16).
Proof.
  intros H3 Hn Hr epoch. pose proof (chain_trace blocks s H3) as Ht. rewrite Hr in Ht.
  destruct Ht as [_ Ht]. split_and!; [intros h|intros e|intros e w|intros e c].
  - eapply (rewards_bounded _ 0 (community_reward_block_budget_address h)); [done|apply Hn|done| |done].
    by intros h' b ->%bool_decide_eq_true.
  - eapply (rewards_bounded _ 1 (community_reward_epoch_budget_address e)); [done|apply Hn|done| |done].
    by intros h' b <-%bool_decide_eq_true.
  - eapply (rewards_bounded _ 2 (community_reward_worker_budget_address e w)); [done|apply Hn|done| |done].
    by intros h' b [<-%bool_decide_eq_true <-%bool_decide_eq_true]%andb_true_iff.
  - eapply (rewards_bounded _ 3 (community_reward_coordinator_budget_address e c)); [done|apply Hn|done| |done].
    by intros h' b [<-%bool_decide_eq_true <-%bool_decide_eq_true]%andb_true_iff.
Qed.

End V3Ledger.

(** ** Witnesses *)

Section Witnesses.
Import LedgerDemo.
#[local] Existing Instance one_by_one.

Definition demo_blocks : list (list Transaction) := [[v3_transfer; v3_faucet 2]; [v3_reward]; [v3_faucet 2]].

Lemma v3_state_nonces k : 0 <= nonce_at v3_state k.
Proof.
  unfold nonce_at, nonce_in. destruct (db_accounts v3_state !! k) as [e|] eqn:He; [|done].
  by apply (state_checked v3_state ltac:(by vm_compute) k e).
Qed.

(** What the run executes: the last claim is refused. *)
Lemma demo_run :
  (fun e : v3_event => (e.1, tx_type e.2)) <$> (run_chain demo_blocks v3_state).1 =
    [(101, TxTransfer); (101, TxFaucetClaim); (102, TxCommunityInferenceReward)].
Proof. by vm_compute. Qed.

Lemma v3_execution_refines_effects_witness :
  validate_v3_transaction_admission_at v3_state v3_transfer (db_height v3_state) = Ok () /\
  exists ws, v3_effect v3_state v3_transfer ws /\
    execute_tx v3_transfer v3_state = (Ok (gas_cost_for_tx v3_transfer), commit ws v3_state).
Proof.
  assert (validate_v3_transaction_admission_at v3_state v3_transfer (db_height v3_state) = Ok ()) as Ha
    by by vm_compute.
  split; [done|]. assert (protocol_v3 v3_state = true) as H3 by by vm_compute.
  pose proof (v3_execution_refines_effects v3_state v3_transfer H3) as Ht. rewrite Ha in Ht. exact Ht.
Defined.

Lemma v3_run_never_mints_witness :
  let '(evs, s') := run_chain demo_blocks v3_state in
  supply (db_accounts s') <= supply (db_accounts v3_state).
Proof.
  destruct (run_chain demo_blocks v3_state) as [evs s'] eqn:Hr.
  eapply (v3_run_never_mints demo_blocks v3_state evs s'); [by vm_compute|apply balances_checked; by vm_compute| |exact Hr].
  repeat constructor; by vm_compute.
Defined.

Lemma v3_log_recovers_accounts_witness :
  let '(evs, s') := run_chain demo_blocks v3_state in
  exists ops, db_wal s' = ops /\ db_accounts (replay v3_state ops) = db_accounts s'.
Proof.
  destruct (run_chain demo_blocks v3_state) as [evs s'] eqn:Hr.
  destruct (v3_log_recovers_accounts demo_blocks v3_state evs s') as (ops & Hl & Hrep);
    [by vm_compute|done|exact Hr|]. exists ops. by split; [|apply Hrep].
Defined.

Lemma v3_faucet_pays_once_witness :
  let evs := (run_chain demo_blocks v3_state).1 in
  length evs = 3%nat /\ (length (filter (fun e => claims_for (user 2) e = true) evs) <= 1)%nat.
Proof.
  split; [by rewrite <- (length_fmap (fun e : v3_event => (e.1, tx_type e.2))), demo_run|].
  eapply (v3_faucet_pays_once demo_blocks v3_state _ (run_chain demo_blocks v3_state).2);
    [by vm_compute|apply surjective_pairing].
Defined.

Lemma v3_reward_pays_once_witness :
  let evs := (run_chain demo_blocks v3_state).1 in
  let job := cr_job_id (reward_body []) in
  (length (filter (fun e => rewards_job expected_chain_domain job e = true) evs) <= 1)%nat.
Proof.
  destruct (v3_reward_pays_once demo_blocks v3_state _ (run_chain demo_blocks v3_state).2
    expected_chain_domain (cr_job_id (reward_body [])) 0 0 0 ltac:(by vm_compute)
    (surjective_pairing _)) as [Hj _]. exact Hj.
Defined.

Lemma v3_reward_issuance_bounded_witness :
  let evs := (run_chain demo_blocks v3_state).1 in
  ((fun e : v3_event => (e.1, tx_type e.2)) <$> evs) !! 2%nat = Some (102, TxCommunityInferenceReward) /\
  Z.of_nat (length (rewards_with (fun h _ => bool_decide (h = 102)) evs)) <= 1.
Proof.
  split; [by rewrite demo_run|].
  destruct (v3_reward_issuance_bounded demo_blocks v3_state _ (run_chain demo_blocks v3_state).2
    ltac:(by vm_compute) v3_state_nonces (surjective_pairing _)) as [Hb _].
  exact (Hb 102).
Defined.

End Witnesses.
