(* ===== verification/Admission.v ===== *)
(** * The admission of a protocol-3 block (crates/arc-state/src/lib.rs)

    What [validate_v3_block_admission_at] promises: the transactions of an admitted block
    touch disjoint accounts, so that each of them, admitted against the state before the
    block, succeeds where it executes. *)

From S2P Require Import Prelude Crypto Merkle Validators Blocks Ledger Tier1 Contracts Executor.
From S2P Require Import LedgerDemo LedgerV3 Bonds Locality BlockStm Footprint BlockExec V3Blocks.

Section Admission.
Context `{CR : Crypto, TC : TxCodec, HO : HashOrder, WE : WasmEngine, NL : NativeLane, BV : BatchVerify}.

(** ** What an admission reads *)

(** The accounts that the admission at a height reads and that the effect writes. *)
Definition v3_keys (tx : Transaction) (height : Z) : gset Address :=
  tx_access_set tx ∪
  match tx_body tx with
  | BCommunityInferenceReward b => list_to_set (budget_addresses b height)
  | _ => ∅
  end.

Lemma agree_budget_counter S s t a code limit label :
  agree S s t -> a ∈ S ->
  next_community_reward_budget_counter s a code limit label =
  next_community_reward_budget_counter t a code limit label.
Proof.
  intros Hag Ha. unfold next_community_reward_budget_counter. by rewrite (agree_account_or_new _ _ _ _ Ha Hag).
Qed.

Lemma agree_budget S s t b h :
  agree S s t -> Forall (.∈ S) (budget_addresses b h) ->
  community_reward_budget_candidates_at s b h = community_reward_budget_candidates_at t b h.
Proof.
  intros Hag Hb. unfold budget_addresses in Hb. rewrite !Forall_cons in Hb. destruct Hb as (? & ? & ? & ? & _).
  unfold community_reward_budget_candidates_at. by rewrite !(agree_budget_counter S s t) by done.
Qed.

Lemma agree_job_checks S s t tx b h :
  agree S s t -> validator_set_access_key ∈ S -> reward_job_checks s tx b h = reward_job_checks t tx b h.
Proof.
  intros Hag Hv. unfold reward_job_checks, get_validator_stake.
  by rewrite (agree_active_validator _ _ _ Hag), (agree_recovery_context _ _ _ Hag),
    (agree_signature _ _ _ Hag), (agree_validators _ _ _ Hag) by done.
Qed.

Lemma agree_approvals S s t b :
  agree S s t -> validator_set_access_key ∈ S ->
  verify_community_reward_validator_approvals s b = verify_community_reward_validator_approvals t b.
Proof.
  intros Hag Hv. unfold verify_community_reward_validator_approvals, active_validators.
  by rewrite (agree_validators _ _ _ Hag), (agree_recovery_context _ _ _ Hag) by done.
Qed.

Lemma agree_activation S s t :
  agree S s t -> community_rewards_v1_activation_height s = community_rewards_v1_activation_height t.
Proof.
  intros Hag. pose proof (agree_settings _ _ _ Hag) as Hc. unfold settings in Hc. simplify_eq.
  unfold community_rewards_v1_activation_height.
  by repeat match goal with Hx : ?f s = ?f t |- _ => rewrite Hx end.
Qed.

Lemma agree_reward_admission S s t tx b h :
  agree S s t -> tx_body tx = BCommunityInferenceReward b ->
  Forall (.∈ S) (body_access_set tx) -> Forall (.∈ S) (budget_addresses b h) ->
  validate_community_reward_admission s tx b h = validate_community_reward_admission t tx b h.
Proof.
  intros Hag Hb Hacc Hbud. unfold body_access_set in Hacc. rewrite Hb in Hacc.
  rewrite !Forall_app, !Forall_cons in Hacc.
  destruct Hacc as ((Ht & Hv & Hw & Hj & Hj3 & Hc & Hc3 & _) & Hp & Hp3).
  unfold validate_community_reward_admission, v3_reward_markers, reward_unpaid, legacy_marker_at, reward_funds.
  rewrite (agree_activation _ _ _ Hag), (agree_active_validator _ _ _ Hag),
    (agree_job_checks _ _ _ _ _ _ Hag), (agree_approvals _ _ _ _ Hag), (agree_budget _ _ _ _ _ Hag),
    (agree_protocol_v3 _ _ _ Hag), (agree_account_or_new _ _ _ _ Hw Hag) by done.
  rewrite !(agree_get_account _ _ _ Hag) by done. rewrite !(agree_contains _ _ _ Hag) by done.
  destruct (recovery_probe_marker_address _ _) as [m|], (v3_recovery_probe_marker_address _ _) as [m3|];
    cbn in Hp, Hp3; rewrite ?Forall_singleton in *;
    rewrite ?(agree_get_account _ _ _ Hag m), ?(agree_contains _ _ _ Hag m3) by done; done.
Qed.

Lemma access_elem tx : tx_from tx ∈ tx_access_set tx /\ Forall (.∈ tx_access_set tx) (body_access_set tx).
Proof.
  unfold tx_access_set. split; [set_solver|]. apply Forall_forall. intros k. set_solver.
Qed.

(** The admission of a transaction outside the native lane reads its accounts. *)
Lemma agree_admission s t tx h :
  is_native_body (tx_body tx) = false -> agree (v3_keys tx h) s t ->
  validate_v3_transaction_admission_at s tx h = validate_v3_transaction_admission_at t tx h.
Proof.
  intros Hn Hag. unfold validate_v3_transaction_admission_at. rewrite Hn.
  rewrite (agree_protocol_v3 _ _ _ Hag), (agree_envelope _ _ _ _ Hag).
  destruct (access_elem tx) as [Hf Hacc].
  assert (tx_from tx ∈ v3_keys tx h) as Hf' by (unfold v3_keys; set_solver).
  assert (Forall (.∈ v3_keys tx h) (body_access_set tx)) as Hacc'.
  { eapply Forall_impl; [exact Hacc|]. unfold v3_keys. set_solver. }
  destruct (tx_body tx) as [to amount c| | | | | | | | | | | | | | | | | | | | | | | | | | | | |recipient amount| | | |b| | | |[]] eqn:Hb; try done.
  - pose proof Hacc' as Ha. unfold body_access_set in Ha. rewrite Hb, !Forall_cons in Ha.
    destruct Ha as (? & ? & _). by rewrite (agree_transfer_admission _ _ _ _ _ _ _ Hag).
  - pose proof Hacc' as Ha. unfold body_access_set in Ha. rewrite Hb, !Forall_cons in Ha.
    destruct Ha as (? & ? & ? & ? & ? & _). by rewrite (agree_faucet_admission _ _ _ _ _ _ Hag).
  - rewrite (agree_reward_admission _ _ _ _ _ _ Hag Hb Hacc'); [done|].
    apply Forall_forall. intros k Hk. unfold v3_keys. rewrite Hb. set_solver.
Qed.

(** ** What an effect writes *)

Lemma effect_keys s tx ws :
  v3_effect s tx ws -> forall k, k ∈ ws.*1 -> k ∈ v3_keys tx (db_height s).
Proof.
  destruct (access_elem tx) as [Hf Hacc]. rewrite Forall_forall in Hacc.
  destruct 1 as [to amount c sender Hb|r amount pool Hb|b w t bu Hb Hv Hfu Hbu]; intros k Hk;
    unfold body_access_set in Hacc; rewrite Hb in Hacc; unfold v3_keys; rewrite Hb.
  - unfold transfer_writes in Hk. cbn in Hk. set_solver.
  - unfold faucet_writes in Hk. cbn in Hk. set_solver.
  - apply budget_candidates_Ok in Hbu as (Hkeys & _). unfold reward_effect_writes in Hk.
    unfold v3_reward_markers in Hk. rewrite !fmap_app, Hkeys in Hk.
    rewrite !elem_of_app in Hk. apply elem_of_union. destruct Hk as [Hk|[Hk|Hk]].
    + left. apply Hacc, elem_of_app. left. cbn in Hk. rewrite !elem_of_cons in *. tauto.
    + left. apply Hacc, elem_of_app. right. apply elem_of_app. right.
      by destruct (v3_recovery_probe_marker_address _ _).
    + right. by apply elem_of_list_to_set.
Qed.

Lemma commit_agree S s tx ws :
  v3_effect s tx ws -> S ## v3_keys tx (db_height s) -> agree S s (commit ws s).
Proof.
  intros He Hd. split; [|done..]. intros k Hk. cbn. symmetry. unfold replay_accounts.
  assert (k ∉ ws.*1) as Hkw by (intros Hin; apply (effect_keys _ _ _ He) in Hin; set_solver).
  clear - Hkw. generalize (db_accounts s). induction ws as [|[k' a] ws IH]; intros m; [done|]. cbn in Hkw |- *.
  apply not_elem_of_cons in Hkw as [Hne Hkw]. rewrite IH by done. by apply lookup_insert_ne.
Qed.

(** ** The accounts of the families *)

Definition is_transfer (tx : Transaction) : bool :=
  match tx_body tx with BTransfer _ _ _ => true | _ => false end.

(** An account that every transaction of a family accesses. *)
Definition family_key (transfer : bool) : Address :=
  if transfer then v3_fee_treasury_address else validator_set_access_key.

Lemma admitted_family s tx h :
  is_native_body (tx_body tx) = false -> validate_v3_transaction_admission_at s tx h = Ok () ->
  verify_transaction_signature s tx = Ok () /\ family_key (is_transfer tx) ∈ tx_access_set tx.
Proof.
  intros Hn. unfold validate_v3_transaction_admission_at. intros Ha. repeat inv_ok1.
  match goal with He : validate_v3_transaction_envelope _ _ = Ok _ |- _ =>
    destruct (envelope_Ok _ _ He) as (_ & Hal & _ & Hsig) end.
  split; [done|]. rewrite Hn, orb_false_r in Hal. destruct (access_elem tx) as [_ Hacc].
  unfold v3_allows_transaction, body_access_set, is_transfer, family_key in *.
  destruct (tx_body tx) as [to amount c| | | | | | | | | | | | | | | | | | | | | | | | | | | | |recipient amount| | | |b| | | |[]] eqn:Hb; try discriminate Hal.
  - rewrite !Forall_cons in Hacc. by destruct Hacc as (_ & ? & _).
  - rewrite !Forall_cons in Hacc. by destruct Hacc as (_ & _ & _ & _ & ? & _).
  - rewrite Forall_app, !Forall_cons in Hacc. by destruct Hacc as ((_ & ? & _) & _).
Qed.

(** Budget accounts are system accounts, which a transfer cannot name. *)
Lemma transfer_keys_plain s tx to amount c :
  is_v3_system_account v3_fee_treasury_address = false ->
  tx_body tx = BTransfer to amount c -> validate_v3_transfer_admission s tx to amount c = Ok () ->
  forall k, k ∈ tx_access_set tx -> is_v3_system_account k = false.
Proof.
  intros Hfee Hb Hv k Hk. unfold validate_v3_transfer_admission in Hv. repeat inv_ok1. dec_hyps.
  unfold is_reserved_system_account in *. dec_hyps.
  unfold tx_access_set, body_access_set in Hk. rewrite Hb in Hk.
  rewrite elem_of_list_to_set, !elem_of_cons in Hk. by destruct Hk as [->|[->|[->|Hk%not_elem_of_nil]]].
Qed.

Lemma budget_system s tx b h k :
  tx_body tx = BCommunityInferenceReward b -> protocol_v3 s = true ->
  validate_v3_transaction_admission_at s tx h = Ok () -> k ∈ budget_addresses b h ->
  is_v3_system_account k = true.
Proof.
  intros Hb H3 Ha Hk. unfold validate_v3_transaction_admission_at in Ha. rewrite Hb in Ha. repeat inv_ok1.
  unfold validate_community_reward_admission in Ha.
  destruct (v3_reward_markers b) as [[job cert] probe] eqn:Hm. rewrite H3 in Ha. repeat inv_ok1.
  match goal with Hc : community_reward_budget_candidates_at _ _ _ = Ok _ |- _ =>
    apply budget_candidates_Ok in Hc as (_ & Hcol & _) end.
  unfold budget_collides in Hcol. rewrite Hm in Hcol.
  apply orb_false_iff in Hcol as [[_ Hsys]%orb_false_iff _].
  pose proof (existsb_false _ _ Hsys k Hk) as Hs. cbn beta in Hs. by apply negb_false_iff.
Qed.

(** A transfer and another transaction with disjoint access sets. *)
Lemma transfer_disjoint s h tx tx' :
  is_v3_system_account v3_fee_treasury_address = false -> protocol_v3 s = true ->
  is_transfer tx = true -> validate_v3_transaction_admission_at s tx h = Ok () ->
  validate_v3_transaction_admission_at s tx' h = Ok () ->
  tx_access_set tx ## tx_access_set tx' -> v3_keys tx h ## v3_keys tx' h.
Proof.
  intros Hfee H3 Ht Ha Ha' Hd. unfold is_transfer in Ht.
  destruct (tx_body tx) as [to amount c| | | | | | | | | | | | | | | | | | | | | | | | | | | | | | | | | | | | |] eqn:Hb; try discriminate Ht.
  unfold validate_v3_transaction_admission_at in Ha. rewrite Hb in Ha. repeat inv_ok1.
  unfold v3_keys at 1. rewrite Hb, union_empty_r_L. unfold v3_keys. apply disjoint_union_r. split; [done|].
  destruct (tx_body tx') eqn:Hb'; try apply disjoint_empty_r.
  intros k Hk Hk'%elem_of_list_to_set.
  pose proof (transfer_keys_plain _ _ _ _ _ Hfee Hb Ha k Hk).
  pose proof (budget_system _ _ _ _ _ Hb' H3 Ha' Hk'). congruence.
Qed.

Definition admitted (s : StateDB) (h : Z) (tx : Transaction) : Prop :=
  is_native_body (tx_body tx) = false /\ validate_v3_transaction_admission_at s tx h = Ok ().

Lemma admitted_overlap s h tx1 tx2 :
  admitted s h tx1 -> admitted s h tx2 -> is_transfer tx1 = is_transfer tx2 ->
  ~ tx_access_set tx1 ## tx_access_set tx2.
Proof.
  intros [Hn1 Ha1] [Hn2 Ha2] Heq Hd. destruct (admitted_family _ _ _ Hn1 Ha1) as [_ Hk1].
  destruct (admitted_family _ _ _ Hn2 Ha2) as [_ Hk2]. rewrite Heq in Hk1. set_solver.
Qed.

Lemma admitted_disjoint s h tx1 tx2 :
  is_v3_system_account v3_fee_treasury_address = false -> protocol_v3 s = true ->
  admitted s h tx1 -> admitted s h tx2 ->
  tx_access_set tx1 ## tx_access_set tx2 -> v3_keys tx1 h ## v3_keys tx2 h.
Proof.
  intros Hfee H3 Ha1 Ha2 Hd. destruct (is_transfer tx1) eqn:Ht1; [|destruct (is_transfer tx2) eqn:Ht2].
  - apply (transfer_disjoint s); [done..|apply Ha1|apply Ha2|done].
  - symmetry. apply (transfer_disjoint s); [done..|apply Ha2|apply Ha1|done].
  - destruct (admitted_overlap _ _ _ _ Ha1 Ha2); [congruence|done].
Qed.

(** ** The admission of a block *)

(** What the loop has checked: every transaction is admitted on its own, and the accounts
    of each are disjoint from the accounts of those before it. *)
Fixpoint pairwise (accessed : gset Address) (l : list Transaction) : Prop :=
  match l with
  | [] => True
  | tx :: l' => tx_access_set tx ## accessed /\ pairwise (tx_access_set tx ∪ accessed) l'
  end.

Lemma admission_loop_Ok s h hashes senders accessed l :
  v3_admission_loop s h hashes senders accessed l = Ok () ->
  Forall (fun tx => validate_v3_transaction_admission_at s tx h = Ok ()) l /\ pairwise accessed l.
Proof.
  revert hashes senders accessed. induction l as [|tx l IH]; intros hashes senders accessed Hl;
    cbn [v3_admission_loop] in Hl; [done|]. repeat inv_ok1. dec_hyps.
  destruct (IH _ _ _ Hl) as [Hv Hp]. split; [by constructor|by split].
Qed.

Lemma pairwise_elem accessed l tx : pairwise accessed l -> tx ∈ l -> tx_access_set tx ## accessed.
Proof.
  revert accessed. induction l as [|tx' l IH]; intros accessed; [by intros _ ?%not_elem_of_nil|].
  intros [Hd Hp] [->|Hin]%elem_of_cons; [done|]. specialize (IH _ Hp Hin). set_solver.
Qed.

(** Two transactions of a family overlap, and there are two families. *)
Lemma admitted_at_most_two s h l :
  Forall (admitted s h) l -> pairwise ∅ l -> (length l <= 2)%nat.
Proof.
  destruct l as [|tx1 [|tx2 [|tx3 l]]]; cbn [length]; try lia.
  rewrite !Forall_cons. intros (H1 & H2 & H3 & _) (_ & D2 & D3 & _). exfalso.
  pose proof (admitted_overlap _ _ _ _ H1 H2) as N12. pose proof (admitted_overlap _ _ _ _ H1 H3) as N13.
  pose proof (admitted_overlap _ _ _ _ H2 H3) as N23.
  assert (tx_access_set tx1 ## tx_access_set tx2) as D12 by (clear - D2; set_solver).
  assert (tx_access_set tx1 ## tx_access_set tx3) as D13 by (clear - D3; set_solver).
  assert (tx_access_set tx2 ## tx_access_set tx3) as D23 by (clear - D3; set_solver).
  destruct (is_transfer tx1), (is_transfer tx2), (is_transfer tx3);
    first [by apply N12|by apply N13|by apply N23].
Qed.

(** ** Signatures of an admitted transaction *)

(** The execution accepts the signature: it was verified before, or it is not the null
    signature, which the loop refuses before looking at it. *)
Definition signed_tx (tx : Transaction) : bool := tx_sig_verified tx || negb (is_unsigned tx).

Lemma expect_bind_ok {E1 E2 A B} (o : option A) (f : A -> B) b :
  (a ← expect (E := E1) o; Ok (f a)) = Ok b -> (a ← expect (E := E2) o; Ok (f a)) = Ok b.
Proof. destruct o as [a|]; [|done]. cbn. intros Ha. f_equal. congruence. Qed.

Lemma compute_hash_ok {E1 E2} tx h :
  tx_compute_hash (E := E1) tx = Ok h -> tx_compute_hash (E := E2) tx = Ok h.
Proof. apply expect_bind_ok. Qed.

Lemma compute_hash_in_domain_ok {E1 E2} tx d h :
  tx_compute_hash_in_domain (E := E1) tx d = Ok h -> tx_compute_hash_in_domain (E := E2) tx d = Ok h.
Proof. apply expect_bind_ok. Qed.

Lemma verify_parts s tx :
  verify_transaction_signature s tx = Ok () ->
  transaction_hash s tx = Ok (tx_hash tx) /\ sig_verify (tx_signature tx) (tx_hash tx) (tx_from tx) = Ok ().
Proof.
  unfold verify_transaction_signature, transaction_hash.
  destruct (db_recovery_context s) as [c|];
    [unfold tx_verify_signature_in_domain|unfold tx_verify_signature];
    intros (? & _ & (h & Hh & (? & Hr%require_Ok%bool_decide_eq_true & Hv)%bind_Ok)%bind_Ok)%bind_Ok; subst;
    (split; [|done]).
  - by eapply compute_hash_in_domain_ok.
  - by eapply compute_hash_ok.
Qed.

Lemma stage_of_verified s tx :
  verify_transaction_signature s tx = Ok () ->
  exists stage, sig_stage s tx = Ok stage /\ stage <> StageDecided false.
Proof.
  intros [Hh Hv]%verify_parts. unfold sig_stage. destruct (is_unsigned tx || tx_sig_verified tx); [by eexists|].
  rewrite Hh. cbn. rewrite bool_decide_true by done. cbn. unfold sig_verify in Hv.
  destruct (tx_signature tx); [|by eexists..]. repeat inv_ok1. dec_hyps.
  rewrite !bool_decide_true by done. cbn.
  match goal with Hk : ed25519_key_parses _ = true |- _ => rewrite Hk end. by eexists.
Qed.

Lemma valid_of_verified s ok tx stage :
  verify_transaction_signature s tx = Ok () -> stage <> StageDecided false ->
  exists valid, stage_valid s ok tx stage = Ok valid /\ valid <> Some false.
Proof.
  intros Hv Hst. destruct stage as [|[]|]; [by exists None|by exists (Some true)|done|].
  exists (Some true). split; [|done]. cbn. unfold signature_is_ok. rewrite Hv. by destruct ok.
Qed.

Lemma batch_of_verified s l :
  Forall (fun tx => verify_transaction_signature s tx = Ok ()) l ->
  exists valids, batch_sig_valid s l = Ok valids /\ length valids = length l /\
                 Forall (fun v => v <> Some false) valids.
Proof.
  intros Hl. assert (exists stages, sig_stages s l = Ok stages /\ length stages = length l /\
    Forall (fun st => st <> StageDecided false) stages) as (stages & Hs & Hlen & Hst).
  { induction Hl as [|tx l Hv _ (stages & Hs & Hlen & Hst)]; [by exists []|].
    destruct (stage_of_verified s tx Hv) as (st & H1 & H2). exists (st :: stages). cbn.
    rewrite H1. cbn. rewrite Hs. cbn. split_and!; [done|congruence|by constructor]. }
  unfold batch_sig_valid. rewrite Hs. unfold mbind, outcome_bind. generalize (verify_batch (batch_of l stages)) as ok.
  intros ok. clear Hs. revert stages Hlen Hst.
  induction Hl as [|tx l Hv _ IH]; intros [|st stages] Hlen Hst; try done; [by exists []|].
  apply Forall_cons in Hst as [Hst1 Hst]. destruct (IH stages) as (vs & H1 & H2 & H3); [cbn in Hlen; lia|done|].
  destruct (valid_of_verified s ok tx st Hv Hst1) as (v & Hv1 & Hv2). exists (v :: vs). cbn.
  rewrite Hv1. cbn. rewrite H1. cbn. split_and!; [done|congruence|by constructor].
Qed.

(** ** Execution of an admitted block *)

Lemma execute_verified_signed valid tx s :
  signed_tx tx = true -> valid <> Some false -> verify_transaction_signature s tx = Ok () ->
  execute_verified valid tx s = execute_tx tx s.
Proof.
  intros Hs Hv Hsig. unfold execute_verified, signed_tx in *. destruct (tx_sig_verified tx); [done|].
  cbn in Hs. destruct (is_unsigned tx); [done|]. destruct valid as [[]|]; [done..|].
  rewrite bind_ledger. unfold checkL, signature_is_ok. by rewrite Hsig.
Qed.

(** A transaction admitted in a state that agrees with this one on its accounts. *)
Lemma admitted_executes valid tx s t :
  protocol_v3 t = true -> admitted s (db_height t) tx -> signed_tx tx = true -> valid <> Some false ->
  agree (v3_keys tx (db_height t)) s t ->
  exists ws, v3_effect t tx ws /\
    recorded (execute_verified valid tx) t = (Ok (Ok (gas_cost_for_tx tx)), commit ws t).
Proof.
  intros H3 [Hn Ha] Hs Hv Hag. rewrite (agree_admission s t tx) in Ha by done.
  destruct (admitted_family _ _ _ Hn Ha) as [Hsig _].
  pose proof (execute_v3 t tx H3 Hn) as Hx. rewrite Ha in Hx. destruct Hx as (ws & He & Hx).
  exists ws. split; [done|]. unfold recorded. by rewrite execute_verified_signed, Hx.
Qed.

Lemma run_admitted s l valids t accessed :
  is_v3_system_account v3_fee_treasury_address = false -> protocol_v3 t = true ->
  protocol_v3 s = true ->
  length valids = length l -> Forall (fun v => v <> Some false) valids ->
  Forall (admitted s (db_height t)) l -> Forall (fun tx => signed_tx tx = true) l ->
  pairwise accessed l -> Forall (fun tx => agree (v3_keys tx (db_height t)) s t) l ->
  exists t', run_verified (zip l valids) t = (Ok ((fun tx => Ok (gas_cost_for_tx tx)) <$> l), t').
Proof.
  intros Hfee H3 Hs3 Hlen Hval. revert l t accessed H3 Hlen.
  induction Hval as [|v valids Hv _ IH]; intros [|tx l] t accessed H3 Hlen Hadm Hsig Hpw Hag; try done.
  { by eexists. }
  apply Forall_cons in Hadm as [Ha1 Hadm], Hsig as [Hs1 Hsig], Hag as [Hag1 Hag]. destruct Hpw as [_ Hpw].
  cbn [zip zip_with run_verified]. rewrite bind_read, bind_ledger. unfold mark_dirty, modifyL.
  set (t1 := t <| db_dirty_accounts := _ |>).
  assert (forall S, agree S s t -> agree S s t1) as Hmark by (intros S [? ? ?]; by split).
  destruct (admitted_executes v tx s t1 H3 Ha1 Hs1 Hv) as (ws & He & Hx); [by apply Hmark|].
  rewrite bind_ledger, Hx. cbv beta iota zeta.
  destruct (IH l (commit ws t1) (tx_access_set tx ∪ accessed)) as (t' & Ht'); [done|cbn in Hlen; lia|done..| |].
  - rewrite Forall_forall in Hadm, Hag |- *. intros tx' Hin.
    assert (v3_keys tx' (db_height t) ## v3_keys tx (db_height t)) as Hd.
    { symmetry. apply (admitted_disjoint s); [done..|by apply Hadm|].
      pose proof (pairwise_elem _ _ _ Hpw Hin). set_solver. }
    pose proof (commit_agree (v3_keys tx' (db_height t)) t1 tx ws He Hd) as Hc.
    specialize (Hmark _ (Hag _ Hin)). destruct Hmark as [Ma Mr Mc], Hc as [Ca Cr Cc].
    split; [intros k Hk; rewrite Ma by done; by apply Ca| |by etrans].
    intros Hk. destruct (Mr Hk), (Cr Hk). split; by etrans.
  - rewrite bind_ledger, Ht'. by eexists.
Qed.

Lemma admission_height s h' tx h :
  is_native_body (tx_body tx) = false ->
  validate_v3_transaction_admission_at (s <| db_height := h' |>) tx h =
  validate_v3_transaction_admission_at s tx h.
Proof. intros Hn. unfold validate_v3_transaction_admission_at. by rewrite Hn. Qed.

(** What the admission of the next block has checked. *)
Lemma next_admission_Ok s b :
  protocol_v3 s = true -> validate_next_protocol_block_admission s b = Ok () ->
  db_height s + 1 <= u64_max /\
  if contains_native b then length b = 1%nat
  else Forall (admitted s (db_height s + 1)) b /\ pairwise ∅ b.
Proof.
  intros H3 Ha. unfold validate_next_protocol_block_admission in Ha. rewrite H3 in Ha. repeat inv_ok1.
  split_checked. subst. split; [done|]. unfold validate_v3_block_admission_at in Ha.
  destruct (contains_native b) eqn:Hn; repeat inv_ok1; [by destruct b as [|tx []]|].
  destruct (admission_loop_Ok _ _ _ _ _ _ Ha) as [Hv Hp]. split; [|done].
  rewrite Forall_forall in Hv |- *. intros tx Hin. split; [|by apply Hv].
  apply not_true_iff_false. intros Hnat. unfold contains_native in Hn.
  apply (existsb_false _ _ Hn) in Hin. congruence.
Qed.

(** C19: an admitted protocol-3 block runs to completion and every one of its transactions
    succeeds with the gas of its family, although each was admitted against the state
    before the block: the admission of a block outside the native lane, for signed
    transactions, leaves nothing to fail in execution. *)
Theorem v3_admitted_block_succeeds s b :
  protocol_v3 s = true -> is_v3_system_account v3_fee_treasury_address = false ->
  contains_native b = false -> Forall (fun tx => signed_tx tx = true) b -> 0 <= db_height s ->
  validate_next_protocol_block_admission s b = Ok () ->
  exists s', execute_block_verified b s = (Ok ((fun tx => Ok (gas_cost_for_tx tx)) <$> b), s').
Proof.
  intros H3 Hfee Hn Hsig Hh0 Ha. pose proof (next_admission_Ok s b H3 Ha) as [Hh Hadm]. rewrite Hn in Hadm.
  destruct Hadm as [Hadm Hpw]. unfold execute_block_verified. rewrite (bind_check _ _ _ _ Ha).
  unfold bump_height. rewrite bind_modify. set (s1 := s <| db_height := _ |>).
  assert (db_height s1 = db_height s + 1) as Hh1.
  { apply wrapping_add_small. lia. }
  destruct (batch_of_verified s1 b) as (valids & Hb & Hlen & Hval).
  { eapply Forall_impl; [exact Hadm|]. intros tx [Hnat Hv].
    by destruct (admitted_family _ _ _ Hnat Hv) as [Hsg _]. }
  rewrite (bind_check _ _ _ _ Hb).
  assert (Forall (admitted s1 (db_height s1)) b) as Hadm1.
  { rewrite Hh1. eapply Forall_impl; [exact Hadm|]. intros tx [Hnat Hv]. split; [done|].
    unfold s1. by rewrite admission_height. }
  destruct (run_admitted s1 b valids s1 ∅) as (s2 & Hrun); [done..| |].
  { apply Forall_forall. intros tx _. by split. }
  rewrite bind_ledger, Hrun. cbv beta iota zeta. rewrite bind_read, bind_ledger.
  destruct (sweep_rel (db_height s2) (fun _ _ => True)) with s2 as (n & Hsw & _); [done..|].
  destruct (sweep_matured_bond_releases (db_height s2) s2) as [r s3]. cbn in Hsw. subst r. by exists s3.
Qed.

(** An admitted protocol-3 block has at most two transactions: one transfer, since every
    transfer pays its fee to the same account, and one claim or reward, since these all read
    the validator set; a native block has one. *)
Theorem v3_block_at_most_two s b :
  protocol_v3 s = true -> validate_next_protocol_block_admission s b = Ok () -> (length b <= 2)%nat.
Proof.
  intros H3 Ha. destruct (next_admission_Ok s b H3 Ha) as [_ Hb]. destruct (contains_native b); [lia|].
  destruct Hb as [Hadm Hpw]. by eapply admitted_at_most_two.
Qed.

End Admission.

Section Witnesses.
Import LedgerDemo.
#[local] Existing Instance one_by_one.

Lemma demo_block_admitted :
  validate_next_protocol_block_admission v3_state [v3_transfer; v3_faucet 2] = Ok ().
Proof. by vm_compute. Qed.

Lemma v3_admitted_block_succeeds_witness :
  exists s', execute_block_verified [v3_transfer; v3_faucet 2] v3_state =
    (Ok ((fun tx => Ok (gas_cost_for_tx tx)) <$> [v3_transfer; v3_faucet 2]), s').
Proof.
  eapply (v3_admitted_block_succeeds v3_state [v3_transfer; v3_faucet 2]);
    [by vm_compute|by vm_compute|done|by repeat constructor|done|apply demo_block_admitted].
Defined.

Lemma v3_block_at_most_two_witness : (length [v3_transfer; v3_faucet 2] <= 2)%nat.
Proof. eapply (v3_block_at_most_two v3_state); [by vm_compute|apply demo_block_admitted]. Defined.

End Witnesses.
