(* ===== verification/Authentication.v ===== *)
(** * Authentication of the transactions of a block (crates/arc-state/src/lib.rs)

    [execute_block_verified_at_with_proof] verifies the Ed25519 signatures of a block in a
    batch, falls back to one by one when the batch fails, and leaves the other schemes to the
    loop.  Whatever the path, a transaction succeeds only with a signature of its sender
    that verifies alone or in an accepted batch. *)

From S2P Require Import Prelude Crypto Merkle Validators Blocks Ledger Tier1 Contracts Executor.
From S2P Require Import LedgerDemo LedgerV3 Bonds Locality BlockStm Footprint BlockExec V3Blocks.

Section Authentication.
Context `{CR : Crypto, TC : TxCodec, HO : HashOrder, WE : WasmEngine, NL : NativeLane, BV : BatchVerify}.

(** A member of a batch: the hash, signature and key of a transaction of the block. *)
Definition batch_member (b : list Transaction) (m : list Z * list Z * list Z) : Prop :=
  exists tx pk sig, tx ∈ b /\ tx_signature tx = SigEd25519 pk sig /\
    m = (hash_to_bytes (tx_hash tx), sig, pk).

(** A batch of signatures of the block was accepted that has the signature of [tx] over its
    hash under a key whose address is the sender. *)
Definition batch_accepted (s : StateDB) (b : list Transaction) (tx : Transaction) : Prop :=
  exists pk sig batch,
    tx_signature tx = SigEd25519 pk sig /\ address_from_ed25519_pubkey pk = tx_from tx /\
    ed25519_key_parses pk = true /\ length sig = 64%nat /\ transaction_hash s tx = Ok (tx_hash tx) /\
    (hash_to_bytes (tx_hash tx), sig, pk) ∈ batch /\ Forall (batch_member b) batch /\
    verify_batch batch = true.

(** The transaction was verified when it entered the mempool, or its signature verifies in
    this state, alone or in an accepted batch. *)
Definition authenticated (s : StateDB) (b : list Transaction) (tx : Transaction) : Prop :=
  tx_sig_verified tx = true \/ verify_transaction_signature s tx = Ok () \/ batch_accepted s b tx.

(** What a transaction that enters the batch has passed. *)
Lemma stage_batch_checks s tx sig pk :
  sig_stage s tx = Ok (StageBatch sig pk) ->
  tx_signature tx = SigEd25519 pk sig /\ address_from_ed25519_pubkey pk = tx_from tx /\
  ed25519_key_parses pk = true /\ length sig = 64%nat /\ transaction_hash s tx = Ok (tx_hash tx).
Proof.
  unfold sig_stage. destruct (is_unsigned tx || tx_sig_verified tx); [done|].
  intros (h & Hh & Hs)%bind_Ok. destruct (bool_decide (h = tx_hash tx)) eqn:Hd; [|done]. dec_hyps. subst h.
  cbn [negb] in Hs. destruct (tx_signature tx) as [pk' sig'| | |] eqn:Hsig; try done.
  destruct (bool_decide (address_from_ed25519_pubkey pk' = tx_from tx)) eqn:Ha; [|done]. cbn [negb] in Hs.
  destruct (bool_decide (length sig' = 64%nat)) eqn:Hl; [|done].
  destruct (ed25519_key_parses pk') eqn:Hp; [|done]. injection Hs as -> ->. dec_hyps. done.
Qed.

Lemma signature_is_ok_true s tx : signature_is_ok s tx = Ok true -> verify_transaction_signature s tx = Ok ().
Proof. unfold signature_is_ok. by destruct (verify_transaction_signature s tx) as [[]| |]. Qed.

(** An entry that the loop trusts. *)
Definition vouched (s : StateDB) (b : list Transaction) (tx : Transaction) (valid : option bool) : Prop :=
  valid = Some true -> verify_transaction_signature s tx = Ok () \/ batch_accepted s b tx.

Lemma stage_vouched s b ok tx stage valid :
  sig_stage s tx = Ok stage -> stage_valid s ok tx stage = Ok valid ->
  (forall sig pk, ok = true -> stage = StageBatch sig pk -> batch_accepted s b tx) ->
  vouched s b tx valid.
Proof.
  intros Hs Hv Hb ->. destruct stage as [|[]|sig pk]; cbn in Hv; [done| |done|].
  - unfold sig_stage in Hs. destruct (is_unsigned tx || tx_sig_verified tx); [done|].
    apply bind_Ok in Hs as (h & _ & Hs).
    destruct (negb (bool_decide (h = tx_hash tx))); [done|]. destruct (tx_signature tx); try done.
    destruct (negb _); [done|]. by destruct (_ && _).
  - destruct ok; [right; by eapply Hb|].
    apply bind_Ok in Hv as (v & Hv & [= ->]). left. by apply signature_is_ok_true.
Qed.

Lemma sig_stages_zip s b stages :
  sig_stages s b = Ok stages -> Forall (fun p => p.1 ∈ b /\ sig_stage s p.1 = Ok p.2) (zip b stages).
Proof.
  revert stages. induction b as [|tx b IH]; intros stages Hst; cbn in Hst; [by injection Hst as <-|].
  apply bind_Ok in Hst as (st & H1 & (sts & H2 & [= <-])%bind_Ok). cbn. constructor; [split; [left|done]|].
  eapply Forall_impl; [by apply IH|]. intros p [? ?]. split; [by right|done].
Qed.

Lemma batch_of_members s b stages :
  sig_stages s b = Ok stages -> Forall (batch_member b) (batch_of b stages).
Proof.
  intros Hst%sig_stages_zip. rewrite Forall_forall in Hst. apply Forall_forall. intros m Hm.
  apply list_elem_of_omap in Hm as ([tx st] & [Hin Hs]%Hst & Heq). cbn in *. destruct st as [| |sig pk]; try done.
  injection Heq as <-. apply stage_batch_checks in Hs as (? & _). exists tx, pk, sig. done.
Qed.

Lemma stages_vouched s b ok c stages valids :
  sig_stages s c = Ok stages -> stage_valids s ok (zip c stages) = Ok valids ->
  (forall p, p ∈ zip c stages -> forall sig pk, ok = true -> p.2 = StageBatch sig pk ->
     batch_accepted s b p.1) ->
  Forall2 (vouched s b) c valids.
Proof.
  revert stages valids. induction c as [|tx c IH]; intros stages valids Hst Hv Hb; cbn in Hst.
  { injection Hst as <-. cbn in Hv. by injection Hv as <-. }
  apply bind_Ok in Hst as (st & H1 & (sts & H2 & [= <-])%bind_Ok). cbn in Hv.
  apply bind_Ok in Hv as (v & Hv1 & (vs & Hv2 & [= <-])%bind_Ok). constructor.
  - eapply stage_vouched; [done..|]. apply (Hb (tx, st)). left.
  - eapply IH; [done..|]. intros p Hin. apply Hb. by right.
Qed.

Lemma batch_vouched s b valids : batch_sig_valid s b = Ok valids -> Forall2 (vouched s b) b valids.
Proof.
  unfold batch_sig_valid. intros (stages & Hst & Hv)%bind_Ok.
  set (ok := verify_batch (batch_of b stages)) in Hv.
  assert (forall p, p ∈ zip b stages -> forall sig pk, ok = true -> p.2 = StageBatch sig pk ->
            batch_accepted s b p.1) as Hb.
  { intros [tx st] Hin sig pk Hok Hp. cbn in Hp. subst st. pose proof (sig_stages_zip _ _ _ Hst) as Hz.
    rewrite Forall_forall in Hz. destruct (Hz _ Hin) as [_ (?&?&?&?&?)%stage_batch_checks].
    exists pk, sig, (batch_of b stages). split_and!; try done; [|by eapply batch_of_members].
    apply list_elem_of_omap. by exists (tx, StageBatch sig pk). }
  by eapply stages_vouched.
Qed.

Lemma verified_authenticated s b t valid tx g t' :
  settings t = settings s -> vouched s b tx valid ->
  execute_verified valid tx t = (Ok g, t') -> authenticated s b tx.
Proof.
  intros Hs Hv. unfold execute_verified, authenticated. destruct (tx_sig_verified tx); [by left|].
  destruct (is_unsigned tx); [done|]. intros Hx. right. destruct valid as [[]|]; [|done|].
  - by apply Hv.
  - left. rewrite bind_ledger in Hx. unfold checkL in Hx.
    destruct (signature_is_ok t tx) as [[]| |] eqn:Hok; try done. apply signature_is_ok_true in Hok.
    assert (db_recovery_context t = db_recovery_context s) as Hr by exact (f_equal (fun c => c.1.1.1.1.2) Hs).
    unfold verify_transaction_signature in *. by rewrite <- Hr.
Qed.

Lemma run_authenticated s b l t rs t' :
  settings t = settings s -> Forall (fun p => vouched s b p.1 p.2) l ->
  run_verified l t = (Ok rs, t') ->
  Forall2 (fun p r => forall g, r = Ok g -> authenticated s b p.1) l rs.
Proof.
  intros Hs Hl. revert t rs Hs. induction Hl as [|[tx valid] l Hv _ IH]; intros t rs Hs Hr; cbn [run_verified] in Hr.
  { by injection Hr as <- <-. }
  rewrite bind_read, bind_ledger in Hr. unfold mark_dirty, modifyL in Hr. set (t1 := t <| db_dirty_accounts := _ |>) in Hr.
  assert (settings t1 = settings s) as Hs1 by done. rewrite bind_ledger in Hr.
  pose proof (recorded_settings valid tx t1) as Hs2.
  destruct (recorded (execute_verified valid tx) t1) as [[r|e|] t2] eqn:Hx; [|done..]. cbn [snd] in Hs2.
  rewrite bind_ledger in Hr.
  destruct (run_verified l t2) as [[rs'|e|] t3] eqn:Hrun; [|done..]. injection Hr as <- <-.
  constructor; [|by eapply IH; [etrans|]]. intros g ->. cbn.
  unfold recorded in Hx. destruct (execute_verified valid tx t1) as [[g'|e|] t2'] eqn:He; [|done..].
  injection Hx as -> ->. by eapply (verified_authenticated s b t1).
Qed.

(** C13: whatever block is executed, a transaction of it succeeds only if it was already
    verified when it entered the mempool, or its signature verifies alone in the domain of
    the state before the block, or it is an Ed25519 signature over its own hash under a key
    whose address is the sender and belongs to a batch of signatures of the block that the
    batch verifier accepted.  Nothing is assumed of the batch verifier; the other signature
    schemes are always verified alone. *)
Theorem block_transactions_authenticated s b rs s' :
  execute_block_verified b s = (Ok rs, s') ->
  Forall2 (fun tx r => forall g, r = Ok g -> authenticated s b tx) b rs.
Proof.
  unfold execute_block_verified. rewrite bind_ledger. unfold checkL at 1.
  destruct (validate_next_protocol_block_admission s b); [|done..].
  unfold bump_height. rewrite bind_modify. set (s1 := s <| db_height := _ |>).
  rewrite bind_ledger. unfold checkL. destruct (batch_sig_valid s1 b) as [valids|e|] eqn:Hb; [|done..].
  rewrite bind_ledger. destruct (run_verified (zip b valids) s1) as [[rs'|e|] s2] eqn:Hr; [|done..].
  rewrite bind_read, bind_ledger. destruct (sweep_matured_bond_releases _ s2) as [[]]; [|done..].
  intros [= <- <-]. apply batch_vouched in Hb. pose proof (Forall2_length _ _ _ Hb) as Hlen.
  assert (Forall2 (fun p r => forall g, r = Ok g -> authenticated s1 b p.1) (zip b valids) rs') as Hf.
  { eapply run_authenticated; [done| |exact Hr]. clear - Hb. revert Hb. generalize (vouched s1 b). intros P Hb. by induction Hb; constructor. }
  apply (Forall2_fmap_l fst (fun tx r => forall g, r = Ok g -> authenticated s1 b tx)) in Hf.
  by rewrite fst_zip in Hf by lia.
Qed.

End Authentication.

Section Witnesses.
Import LedgerDemo.
#[local] Existing Instance one_by_one.

(** A block of two signed transfers, the second with a signature that does not verify. *)
Definition forged : Transaction :=
  let tx := signed 1 None 0 (BTransfer (user 2) 100 None) 2 in
  mkTransaction (tx_type tx) (tx_from tx) (tx_nonce tx) (tx_body tx) (tx_fee tx) (tx_gas_limit tx)
    (tx_hash tx) (SigEd25519 (key_of 1) (replicate 64 1)) false.

Definition half_forged : list Transaction := [signed 0 None 0 (BTransfer (user 1) 100 None) 2; forged].

Lemma half_forged_results :
  (execute_block_verified half_forged legacy_state).1 =
    Ok [Ok 21000; Err (ExecutionError "invalid signature")].
Proof. by vm_compute. Qed.

Lemma block_transactions_authenticated_witness :
  Forall2 (fun tx r => forall g, r = Ok g -> authenticated legacy_state half_forged tx) half_forged
    [Ok 21000; Err (ExecutionError "invalid signature")].
Proof.
  apply (block_transactions_authenticated legacy_state half_forged _
           (execute_block_verified half_forged legacy_state).2).
  rewrite <- half_forged_results. apply surjective_pairing.
Defined.

End Witnesses.
