(* ===== verification/Sealing.v ===== *)
(** * Sealed blocks
    (crates/arc-state/src/lib.rs, crates/arc-state/src/recovery.rs)

    [execute_block_verified_at_with_proof]: the transactions of a block are executed, the
    state root is taken, the block and its receipts are recorded in the history and in the
    write-ahead log, and a checkpoint of the root closes the block.  Under a recovery
    context the root commits every section of the consensus state; otherwise it is the
    account root of StateRoot.v.  The Jellyfish tree and the index of transactions by
    account are not modelled. *)

From S2P Require Import Prelude Crypto Merkle Validators Blocks Ledger Tier1 Contracts Executor.
From S2P Require Import LedgerDemo LedgerV3 Bonds Locality BlockStm Footprint BlockExec StateRoot V3Blocks.

(** bincode of the sections of the state root and of an inclusion proof.  The identity
    registry is not part of the model: its section is a constant. *)
Class SectionCodec := {
  bincode_accounts : list (Address * Account) -> option (list Z);
  bincode_storage : list (Address * list (Hash256 * list Z)) -> option (list Z);
  bincode_contracts : list (Address * list Z) -> option (list Z);
  bincode_identities : option (list Z);
  bincode_validators : list (Address * Z) -> option (list Z);
  bincode_staking_pool : Z -> option (list Z);
  bincode_activation : option Z -> option (list Z);
  bincode_proof : MerkleProof -> option (list Z);
}.

(** The native lane at a block boundary: the execution of its blocks, and the change of
    binding that falls due at a height. *)
Class NativeBlocks := {
  execute_native_inference_block_at :
    list Transaction -> Address -> Z -> Hash256 -> ledger (Block * list TxReceipt);
  apply_due_binding_change : ledger unit;
}.

(** Nothing falls due on a chain that has no native context and no migration record. *)
Class NativeBlocksLaw `{NativeBlocks} : Prop :=
  no_binding_due s : db_native_inference s = false -> db_native_migration s = false ->
    apply_due_binding_change s = (Ok (), s).

(** Entries in the order of their keys. *)
Definition key_le {A} (x y : Z * A) : Prop := x.1 <= y.1.

#[global] Instance key_le_dec {A} : RelDecision (@key_le A).
Proof. intros x y. unfold key_le. apply _. Defined.

Lemma foldl_insert_reverse {A} (l : list (Z * A)) :
  foldl (fun m e => <[e.1 := e.2]> m) (∅ : gmap Z A) l = list_to_map (reverse l).
Proof.
  induction l as [|e l IH] using rev_ind; [done|]. rewrite foldl_app, reverse_app. cbn [foldl]. by rewrite IH.
Qed.

Lemma foldl_insert_map {A} (m : gmap Z A) (l : list (Z * A)) :
  l ≡ₚ map_to_list m -> foldl (fun m e => <[e.1 := e.2]> m) ∅ l = m.
Proof.
  intros Hp. rewrite foldl_insert_reverse. rewrite <- (list_to_map_to_list m).
  assert (reverse l ≡ₚ map_to_list m) as Hr by (by rewrite reverse_Permutation).
  apply list_to_map_proper; [|done]. rewrite Hr. apply NoDup_fst_map_to_list.
Qed.

Lemma activation_read_back s :
  default u64_max (community_rewards_v1_activation_height s) = db_community_rewards_v1_activation_height s.
Proof. unfold community_rewards_v1_activation_height. by case_bool_decide. Qed.

Section Sealing.
Context `{CR : Crypto, TC : TxCodec, HC : HeaderCodec, SC : SectionCodec}.
Context `{HO : HashOrder, WE : WasmEngine, NL : NativeLane, BV : BatchVerify, NB : NativeBlocks}.

(** ** The state root *)

Definition sorted_entries {A} (m : gmap Z A) : list (Z * A) := merge_sort key_le (map_to_list m).

Definition section_bytes (label : string) (hash : Hash256) : list Z :=
  u64_be (Z.of_nat (String.length label)) ++ ascii_bytes label ++ hash_to_bytes hash.

Definition commit_serialized (label : string) (value : option (list Z)) : outcome StateError (list Z) :=
  bytes ← expect value;
  Ok (section_bytes label
        (blake3_derive_key "ARC-full-state-section-v1"
           (u64_be (Z.of_nat (String.length label)) ++ ascii_bytes label ++
            u64_be (Z.of_nat (length bytes)) ++ bytes))).

Definition consensus_state_root_from_sections (context : RecoveryContext)
    (activation : option Z) (accounts : list (Address * Account))
    (storage : list (Address * list (Hash256 * list Z))) (contracts : list (Address * list Z))
    (validators : list (Address * Z)) (staking_pool : Z) : outcome StateError Hash256 :=
  accounts_bytes ← commit_serialized "accounts" (bincode_accounts accounts);
  storage_bytes ← commit_serialized "storage" (bincode_storage storage);
  contracts_bytes ← commit_serialized "contracts" (bincode_contracts contracts);
  identities_bytes ← commit_serialized "identities" bincode_identities;
  validators_bytes ← commit_serialized "validators" (bincode_validators validators);
  pool_bytes ← commit_serialized "staking_pool" (bincode_staking_pool staking_pool);
  activation_bytes ← commit_serialized "community_rewards_v1_activation_height"
                       (bincode_activation activation);
  Ok (blake3_derive_key "ARC-full-consensus-state-v1"
        (section_bytes "domain" (domain_hash context) ++ accounts_bytes ++ storage_bytes ++
         contracts_bytes ++ identities_bytes ++ validators_bytes ++ pool_bytes ++ activation_bytes)).

(** The root that a state would have with these accounts and storage slots replaced. *)
Definition compute_recovery_state_root_with (s : StateDB) (context : RecoveryContext)
    (replacements : list (Address * Account)) (storage_replacements : list (Address * Hash256 * list Z))
    : outcome StateError Hash256 :=
  let accounts := foldl (fun m e => <[e.1 := e.2]> m) (db_accounts s) replacements in
  let storage := foldl (fun m e => <[e.1.1 := <[e.1.2 := e.2]> (default ∅ (m !! e.1.1))]> m) (db_storage s)
                   storage_replacements in
  consensus_state_root_from_sections context (community_rewards_v1_activation_height s)
    (sorted_entries accounts) (sorted_entries (sorted_entries <$> storage))
    (sorted_entries (db_contracts s)) (sorted_entries (db_validators s)) (db_staking_pool s).

Definition compute_recovery_state_root (s : StateDB) (context : RecoveryContext)
    : outcome StateError Hash256 := compute_recovery_state_root_with s context [] [].

Definition compute_state_root : ledger Hash256 := fun s =>
  match db_recovery_context s with
  | Some context => (compute_recovery_state_root s context, s)
  | None => compute_account_root s
  end.

(** ** Sealing *)

Definition u32_of_nat (i : nat) : Z := Z.of_nat i mod (u32_max + 1).

(** [bincode::serialize(&proof).ok()], where the tree has a proof. *)
Definition inclusion_bytes (tree : list (list Hash256)) (i : nat) : outcome StateError (option (list Z)) :=
  proof ← abort_only (merkle_proof tree i); Ok (proof ≫= bincode_proof).

(** The receipts of the transactions from position [i] on. *)
Fixpoint seal_receipts (height : Z) (block_hash : Hash256) (tree : list (list Hash256)) (i : nat)
    (l : list (Transaction * outcome StateError Z)) : outcome StateError (list TxReceipt) :=
  match l with
  | [] => Ok []
  | (tx, r) :: l' =>
      proof ← inclusion_bytes tree i;
      rest ← seal_receipts height block_hash tree (S i) l';
      Ok (mkReceipt (tx_hash tx) height block_hash (u32_of_nat i) (receipt_of tx r).1 (receipt_of tx r).2
            None proof [] :: rest)
  end.

(** One transaction, its receipt and its place in the history. *)
Definition record_tx (height : Z) (h : History) (e : nat * (Transaction * TxReceipt)) : History :=
  let '(i, (tx, receipt)) := e in
  h <| h_receipts := <[tx_hash tx := receipt]> (h_receipts h) |>
    <| h_tx_index := <[tx_hash tx := (height, u32_of_nat i)]> (h_tx_index h) |>
    <| h_full_transactions := <[tx_hash tx := tx]> (h_full_transactions h) |>.

Definition record_block (height : Z) (block : Block) (transactions : list Transaction)
    (receipts : list TxReceipt) (h : History) : History :=
  let h' := foldl (record_tx height) h (imap pair (zip transactions receipts)) in
  h' <| h_blocks := <[height := block]> (h_blocks h') |>.

Fixpoint append_ops (ops : list WalOp) : ledger unit :=
  match ops with
  | [] => mret ()
  | op :: ops' => _ ← append_op op; append_ops ops'
  end.

(** The receipt and the body of each transaction, the registry and the recovery context. *)
Definition restart_artifacts (transactions : list Transaction) (receipts : list TxReceipt) (s : StateDB)
    : list WalOp :=
  (zip transactions receipts ≫= (fun e => [SetReceipt (tx_hash e.1) e.2;
                                           SetFullTransaction (tx_hash e.1) e.1])) ++
  [SetValidatorState (sorted_entries (db_validators s)) (db_staking_pool s)] ++
  match db_recovery_context s with
  | Some context => [SetRecoveryContext context (community_rewards_v1_activation_height s)]
  | None => []
  end.

Definition persist_restart_artifacts (transactions : list Transaction) (receipts : list TxReceipt)
    : ledger unit := fun s => append_ops (restart_artifacts transactions receipts s) s.

(** The header: the parent is the block recorded one height below, if any. *)
Definition seal_header (s : StateDB) (transactions : list Transaction) (producer : Address)
    (timestamp : Z) (proof_hash state_root : Hash256) : BlockHeader :=
  let height := db_height s in
  let parent := from_option blk_hash 0 (h_blocks (db_history s) !! (height - 1)) in
  mkBlockHeader height timestamp parent (merkle_root (from_leaves (tx_hash <$> transactions)))
    state_root proof_hash (u32_of_nat (length transactions)) producer (active_protocol_version s) None.

Definition seal_block (transactions : list Transaction) (rs : list (outcome StateError Z))
    (producer : Address) (timestamp : Z) (proof_hash : Hash256) : ledger (Block * list TxReceipt) :=
  state_root ← compute_state_root;
  height ← readL db_height;
  header ← readL (fun s => seal_header s transactions producer timestamp proof_hash state_root);
  let hashes := tx_hash <$> transactions in
  let block := block_new header hashes in
  receipts ← pureL (seal_receipts height (blk_hash block) (from_leaves hashes) 0 (zip transactions rs));
  _ ← modifyL (fun s => s <| db_history := record_block height block transactions receipts (db_history s) |>);
  _ ← append_op (SetBlock height block);
  _ ← persist_restart_artifacts transactions receipts;
  _ ← append_op (Checkpoint state_root);
  mret (block, receipts).

(** The whole call, for a log whose writes do not fail. *)
Definition execute_block_verified_at_with_proof (transactions : list Transaction) (producer : Address)
    (timestamp : Z) (proof_hash : Hash256) : ledger (Block * list TxReceipt) :=
  native ← readL (fun s => db_native_inference s &&
                           (negb (db_native_migration s) || contains_native transactions));
  if native : bool then execute_native_inference_block_at transactions producer timestamp proof_hash
  else
    rs ← execute_block_verified transactions;
    _ ← apply_due_binding_change;
    seal_block transactions rs producer timestamp proof_hash.

(** ** What a block of protocol 3 writes *)

(** The sections of the state that its families leave alone. *)
Definition sections (s : StateDB) := (db_storage s, db_contracts s, db_validators s, db_staking_pool s).

(** Accounts written through the log, at an unchanged height. *)
Definition writes_rel (s s' : StateDB) : Prop :=
  settings s' = settings s /\ sections s' = sections s /\
  (db_wal_active s = true ->
   exists ws, db_wal s' = db_wal s ++ account_ops (db_height s) ws /\
              db_accounts s' = replay_accounts (db_accounts s) ws).

Lemma writes_refl s : writes_rel s s.
Proof. split_and!; [done..|]. intros _. exists []. by rewrite app_nil_r. Qed.

Lemma writes_trans s1 s2 s3 : writes_rel s1 s2 -> writes_rel s2 s3 -> writes_rel s1 s3.
Proof.
  intros (Hs1 & Hc1 & Hw1) (Hs2 & Hc2 & Hw2). split_and!; [congruence..|]. intros Hw.
  destruct (Hw1 Hw) as (ws1 & Hl1 & Ha1).
  assert (db_wal_active s2 = true /\ db_height s2 = db_height s1) as [Hact Hh]
    by (unfold settings in Hs1; simplify_eq; split; congruence).
  destruct (Hw2 Hact) as (ws2 & Hl2 & Ha2). exists (ws1 ++ ws2).
  rewrite Hl2, Hl1, Hh, Ha2, Ha1. unfold account_ops, replay_accounts.
  by rewrite fmap_app, foldl_app, app_assoc.
Qed.

Lemma writes_commit ws s : writes_rel s (commit ws s).
Proof. split_and!; [done..|]. intros Hw. exists ws. cbn. by rewrite Hw. Qed.

Lemma writes_write k a s : writes_rel s (write_account k a s).
Proof. split_and!; [done..|]. intros Hw. exists [(k, a)]. cbn. by rewrite Hw. Qed.

Lemma writes_refunded key e s : writes_rel s (refunded key e s).
Proof.
  unfold refunded, pay_attester. set (t1 := write_account (acc_code_hash e) _ s).
  apply (writes_trans _ t1); [apply writes_write|].
  apply (writes_trans _ (write_account key (cleared (account_or_new key t1)) t1)); [apply writes_write|].
  apply (writes_refl (write_account key (cleared (account_or_new key t1)) t1)).
Qed.

(** The loop and the sweep. *)
Lemma run_verified_length l s rs s' : run_verified l s = (Ok rs, s') -> length rs = length l.
Proof.
  revert s rs s'. induction l as [|[tx valid] l IH]; intros s rs s'; cbn [run_verified]; [by intros [= <- _]|].
  rewrite bind_read, bind_ledger. unfold mark_dirty, modifyL. rewrite bind_ledger.
  destruct (recorded _ _) as [[r|e|] s2]; [|done..]. rewrite bind_ledger.
  destruct (run_verified l s2) as [[rs'|e|] s3] eqn:Hr; [|done..]. intros [= <- _]. cbn. by rewrite (IH _ _ _ Hr).
Qed.

Lemma block_writes b s rs s' :
  protocol_v3 s = true -> 0 <= db_height s -> execute_block_verified b s = (Ok rs, s') ->
  db_height s' = db_height s + 1 /\ db_height s' <= u64_max /\ length rs = length b /\
  writes_rel (s <| db_height := db_height s' |>) s'.
Proof.
  intros H3 H0. unfold execute_block_verified. rewrite bind_ledger. unfold checkL at 1.
  destruct (validate_next_protocol_block_admission s b) as [[]| |] eqn:Hadm; [|done..].
  assert (db_height s + 1 <= u64_max) as Hmax.
  { unfold validate_next_protocol_block_admission in Hadm. apply bind_Ok in Hadm as (h & Hh & _).
    apply ok_or_Ok, checked_add_Some in Hh. lia. }
  unfold bump_height. rewrite bind_modify, wrapping_add_small by lia. set (s1 := s <| db_height := _ |>).
  rewrite bind_ledger. unfold checkL. destruct (batch_sig_valid s1 b) as [valids|e|] eqn:Hv; [|done..].
  rewrite bind_ledger.
  destruct (run_verified_rel writes_rel (fun _ => True) writes_refl writes_trans) with (zip b valids) s1
    as [Hr Hs]; [intros t d; apply (writes_refl t)|intros; apply writes_commit|by apply Forall_forall|done|].
  destruct (run_verified (zip b valids) s1) as [[rs'|e|] s2] eqn:Hrun; cbn [snd] in Hr, Hs; [|done..].
  rewrite bind_read, bind_ledger.
  destruct (sweep_rel (db_height s2) writes_rel writes_refl writes_trans) with s2 as (n & Hn & Hw);
    [intros t q; apply (writes_refl t)|intros; apply writes_refunded|].
  pose proof (sweep_settings (db_height s2) s2) as Hs3.
  destruct (sweep_matured_bond_releases (db_height s2) s2) as [r s3]. cbn in Hn, Hw, Hs3. subst r.
  intros [= <- <-]. assert (db_height s3 = db_height s + 1) as Hh3.
  { transitivity (db_height s1); [|done]. unfold settings in *. simplify_eq. congruence. }
  split_and!; [done|lia| |rewrite Hh3; by eapply writes_trans].
  rewrite (run_verified_length _ _ _ _ Hrun), length_zip_with, (batch_sig_valid_length _ _ _ Hv). lia.
Qed.

(** ** What sealing writes *)

Definition entries_at (height : Z) (ops : list WalOp) : list WalEntry :=
  (fun op => mkWalEntry op height) <$> ops.

(** The records that close a block. *)
Definition closing_ops (s : StateDB) (block : Block) (transactions : list Transaction)
    (receipts : list TxReceipt) (root : Hash256) : list WalOp :=
  SetBlock (db_height s) block :: restart_artifacts transactions receipts s ++ [Checkpoint root].

Lemma append_ops_run ops s :
  db_wal_active s = true ->
  append_ops ops s = (Ok (), s <| db_wal := db_wal s ++ entries_at (db_height s) ops |>).
Proof.
  revert s. induction ops as [|op ops IH]; intros s Hw; cbn [append_ops].
  - rewrite app_nil_r. by destruct s.
  - rewrite bind_ledger. unfold append_op, modifyL. rewrite Hw, IH by done. cbn. by rewrite <- app_assoc.
Qed.

Lemma seal_block_run txs rs producer timestamp proof_hash s context blk receipts s' :
  db_wal_active s = true -> db_recovery_context s = Some context ->
  seal_block txs rs producer timestamp proof_hash s = (Ok (blk, receipts), s') ->
  exists root,
    compute_recovery_state_root s context = Ok root /\
    blk = block_new (seal_header s txs producer timestamp proof_hash root) (tx_hash <$> txs) /\
    seal_receipts (db_height s) (blk_hash blk) (from_leaves (tx_hash <$> txs)) 0 (zip txs rs) = Ok receipts /\
    s' = s <| db_history := record_block (db_height s) blk txs receipts (db_history s) |>
           <| db_wal := db_wal s ++ entries_at (db_height s) (closing_ops s blk txs receipts root) |>.
Proof.
  intros Hw Hc. unfold seal_block. rewrite bind_ledger. unfold compute_state_root. rewrite Hc.
  destruct (compute_recovery_state_root s context) as [root|e|] eqn:Hr; [|done..].
  rewrite !bind_read, bind_ledger. unfold pureL.
  set (block := block_new _ _). destruct (seal_receipts _ _ _ _ _) as [rcps|e|] eqn:Hrc; [|done..].
  rewrite bind_modify. set (s1 := s <| db_history := _ |>). rewrite bind_ledger.
  unfold append_op at 1, modifyL. change (db_wal_active s1) with (db_wal_active s). rewrite Hw.
  set (s2 := s1 <| db_wal := _ |>). rewrite bind_ledger. unfold persist_restart_artifacts.
  rewrite append_ops_run by done. rewrite bind_ledger. unfold append_op, modifyL.
  intros [= <- <- <-]. exists root. split_and!; [done..|].
  unfold closing_ops, s2, s1, entries_at. cbn. rewrite Hw, !fmap_app, <- !app_assoc. done.
Qed.

(** ** A sealed block of protocol 3 *)

Record sealed (txs : list Transaction) (proof_hash : Hash256) (s : StateDB) (blk : Block)
    (receipts : list TxReceipt) (s' : StateDB) (ws : list (Address * Account)) (root : Hash256)
    (context : RecoveryContext) : Prop := {
  sealed_context : db_recovery_context s = Some context;
  sealed_height : db_height s' = db_height s + 1;
  sealed_height_bound : db_height s' <= u64_max;
  sealed_length : length receipts = length txs;
  sealed_count : (length txs <= V3_MAX_TRANSACTIONS_PER_BLOCK)%nat;
  sealed_accounts : db_accounts s' = replay_accounts (db_accounts s) ws;
  sealed_sections : sections s' = sections s;
  sealed_settings : settings s' = settings (s <| db_height := db_height s' |> <| db_history := db_history s' |>);
  sealed_history : db_history s' = record_block (db_height s') blk txs receipts (db_history s);
  sealed_wal : db_wal s' = db_wal s ++ account_ops (db_height s') ws ++
                           entries_at (db_height s') (closing_ops s' blk txs receipts root);
  sealed_root : compute_recovery_state_root s' context = Ok root;
  sealed_receipts : forall i r, receipts !! i = Some r ->
    rcp_block_height r = db_height s' /\ rcp_index r = u32_of_nat i;
  sealed_hash : blk_hash blk = block_compute_hash (blk_header blk);
  sealed_hashes : blk_tx_hashes blk = tx_hash <$> txs;
  sealed_bh_height : bh_height (blk_header blk) = db_height s';
  sealed_bh_root : bh_state_root (blk_header blk) = root;
  sealed_bh_parent : bh_parent_hash (blk_header blk) =
    from_option blk_hash 0 (h_blocks (db_history s) !! db_height s);
  sealed_bh_proof : bh_proof_hash (blk_header blk) = proof_hash;
}.

Lemma seal_receipts_spec height block_hash tree i l receipts :
  seal_receipts height block_hash tree i l = Ok receipts ->
  length receipts = length l /\
  forall j r, receipts !! j = Some r -> rcp_block_height r = height /\ rcp_index r = u32_of_nat (i + j).
Proof.
  revert i receipts. induction l as [|[tx o] l IH]; intros i receipts Hs; cbn in Hs; repeat inv_ok1; subst.
  { by split. }
  destruct (IH _ _ ltac:(done)) as [Hl Hr]. split; [cbn; by rewrite Hl|]. intros [|j] r; cbn.
  - intros [= <-]. by rewrite Nat.add_0_r.
  - intros Hj. destruct (Hr j r Hj) as [-> ->]. split; [done|]. f_equal. lia.
Qed.

Lemma v3_context s :
  protocol_v3 s = true -> db_native_inference s = false -> exists context, db_recovery_context s = Some context.
Proof.
  unfold protocol_v3, active_protocol_version. intros H3 Hn. rewrite Hn in H3. cbn in H3.
  destruct (db_recovery_context s) as [c|]; [by exists c|done].
Qed.

Lemma admitted_count b s rs s' :
  protocol_v3 s = true -> execute_block_verified b s = (Ok rs, s') ->
  (length b <= V3_MAX_TRANSACTIONS_PER_BLOCK)%nat.
Proof.
  intros H3. unfold execute_block_verified. rewrite bind_ledger. unfold checkL at 1.
  destruct (validate_next_protocol_block_admission s b) as [[]| |] eqn:Hadm; [intros _|done..].
  unfold validate_next_protocol_block_admission in Hadm. rewrite H3 in Hadm. repeat inv_ok1.
  match goal with Hv : validate_v3_block_admission_at _ _ _ = Ok _ |- _ => rename Hv into Hv' end.
  unfold validate_v3_block_admission_at in Hv'. destruct (contains_native b).
  - repeat inv_ok1. destruct b as [|tx [|]]; [done| |done]. unfold V3_MAX_TRANSACTIONS_PER_BLOCK. cbn. lia.
  - repeat inv_ok1. by eapply bool_decide_eq_true_1.
Qed.

(** The root reads the sections, the context and the activation height. *)
Lemma root_local s s' context :
  db_accounts s' = db_accounts s -> sections s' = sections s ->
  db_community_rewards_v1_activation_height s' = db_community_rewards_v1_activation_height s ->
  compute_recovery_state_root s' context = compute_recovery_state_root s context.
Proof.
  unfold sections. intros Ha Hc Hact. simplify_eq.
  unfold compute_recovery_state_root, compute_recovery_state_root_with, community_rewards_v1_activation_height.
  repeat match goal with He : ?f s' = ?f s |- _ => rewrite He; clear He end. done.
Qed.

Lemma closing_ops_local s s' blk txs receipts root :
  db_height s' = db_height s -> sections s' = sections s ->
  db_recovery_context s' = db_recovery_context s ->
  db_community_rewards_v1_activation_height s' = db_community_rewards_v1_activation_height s ->
  closing_ops s' blk txs receipts root = closing_ops s blk txs receipts root.
Proof.
  unfold sections. intros Hh Hc Hctx Hact. simplify_eq.
  unfold closing_ops, restart_artifacts, community_rewards_v1_activation_height.
  by repeat match goal with He : ?f s' = ?f s |- _ => rewrite He; clear He end.
Qed.

Context `{NLaw : !NativeBlocksLaw}.

Lemma execute_sealed txs producer timestamp proof_hash s blk receipts s' :
  protocol_v3 s = true -> 0 <= db_height s -> db_wal_active s = true ->
  db_native_inference s = false -> db_native_migration s = false ->
  execute_block_verified_at_with_proof txs producer timestamp proof_hash s = (Ok (blk, receipts), s') ->
  exists ws root context, sealed txs proof_hash s blk receipts s' ws root context.
Proof.
  intros H3 H0 Hw Hn Hm. unfold execute_block_verified_at_with_proof. rewrite bind_read, Hn. cbn [andb].
  rewrite bind_ledger. destruct (execute_block_verified txs s) as [[rs|e|] s1] eqn:Hx; [|done..].
  destruct (block_writes _ _ _ _ H3 H0 Hx) as (Hh & Hmax & Hlen & Hset & Hsec & Hws).
  pose proof (admitted_count _ _ _ _ H3 Hx) as Hcount.
  destruct (Hws Hw) as (ws & Hwal & Hacc). destruct (v3_context s H3 Hn) as [context Hctx].
  assert (db_native_inference s1 = false /\ db_native_migration s1 = false /\ db_wal_active s1 = true /\
          db_recovery_context s1 = Some context /\ db_history s1 = db_history s) as (Hn1 & Hm1 & Hw1 & Hc1 & Hi1).
  { unfold settings in Hset. cbn in Hset. simplify_eq. split_and!; congruence. }
  rewrite bind_ledger, no_binding_due by done. intros Hseal.
  destruct (seal_block_run _ _ _ _ _ _ _ _ _ _ Hw1 Hc1 Hseal) as (root & Hroot & Hblk & Hrc & Hs').
  apply seal_receipts_spec in Hrc as [Hl Hr]. rewrite length_zip_with in Hl.
  exists ws, root, context. rewrite Hblk in *. clear Hblk Hseal. split; rewrite ?Hs'; try done.
  - lia.
  - unfold settings in *. cbn in Hset |- *. simplify_eq. congruence.
  - by rewrite <- Hi1.
  - cbn [db_wal db_height set_field]. rewrite Hwal, <- app_assoc. done.
  - cbn. by rewrite Hi1, Hh, Z.add_simpl_r.
Qed.

(** ** A refused block *)

(** Past the admission a call ends in a value or in an abort, never in an error. *)
Definition no_error {E A} (o : outcome E A) : Prop := match o with Err _ => False | _ => True end.

Lemma no_error_bind {E A B} (o : outcome E A) (k : A -> outcome E B) :
  no_error o -> (forall a, no_error (k a)) -> no_error (a ← o; k a).
Proof. destruct o; [intros _ Hk; apply Hk|done..]. Qed.

Lemma no_error_expect {E A} (o : option A) : no_error (expect o : outcome E A).
Proof. by destruct o. Qed.

Lemma no_error_signatures s b : no_error (batch_sig_valid s b).
Proof.
  assert (forall tx, no_error (transaction_hash s tx)) as Hh.
  { intros tx. unfold transaction_hash, tx_compute_hash_in_domain, tx_compute_hash.
    case_match; apply no_error_bind; done || apply no_error_expect. }
  apply no_error_bind.
  - induction b as [|tx b IH]; [done|]. cbn. apply no_error_bind.
    + unfold sig_stage. case_match; [done|]. apply no_error_bind; [done|]. intros h. repeat case_match; done.
    + intros stage. by apply no_error_bind.
  - intros stages. set (ok := verify_batch _). clearbody ok.
    induction (zip b stages) as [|[tx stage] l IH]; [done|]. cbn. apply no_error_bind; [|intros v; by apply no_error_bind].
    destruct stage; cbn; try done. destruct ok; [done|]. apply no_error_bind; [|done].
    unfold signature_is_ok. by case_match.
Qed.

Lemma no_error_run l s : no_error (run_verified l s).1.
Proof.
  revert s. induction l as [|[tx valid] l IH]; intros s; [done|]. cbn [run_verified].
  rewrite bind_read, bind_ledger. unfold mark_dirty, modifyL. rewrite bind_ledger. unfold recorded.
  destruct (execute_verified _ _ _) as [[r|e|] s2]; [| |done]; rewrite bind_ledger; specialize (IH s2);
    by destruct (run_verified l s2) as [[]].
Qed.

Lemma refused_execution b s e s' : execute_block_verified b s = (Err e, s') -> s' = s.
Proof.
  unfold execute_block_verified. rewrite bind_ledger. unfold checkL at 1.
  destruct (validate_next_protocol_block_admission s b) as [[]|x|]; [|by intros [= _ <-]|done].
  unfold bump_height. rewrite bind_modify. set (s1 := s <| db_height := _ |>).
  rewrite bind_ledger. unfold checkL. pose proof (no_error_signatures s1 b) as Hb.
  destruct (batch_sig_valid s1 b) as [valids|x|]; [|done..]. rewrite bind_ledger.
  pose proof (no_error_run (zip b valids) s1) as Hr. destruct (run_verified (zip b valids) s1) as [[rs|x|] s2]; [|done..].
  rewrite bind_read, bind_ledger.
  destruct (sweep_rel (db_height s2) (fun _ _ => True)) with s2 as (n & Hn & _); [done..|].
  destruct (sweep_matured_bond_releases (db_height s2) s2) as [r s3]. cbn in Hn. by subst r.
Qed.

Lemma no_error_receipts height block_hash tree i l : no_error (seal_receipts height block_hash tree i l).
Proof.
  revert i. induction l as [|[tx r] l IH]; intros i; [done|]. cbn. apply no_error_bind.
  - apply no_error_bind; [|done]. unfold abort_only. by case_match.
  - intros proof. by apply no_error_bind.
Qed.

Lemma no_error_root s context : no_error (compute_recovery_state_root s context).
Proof.
  unfold compute_recovery_state_root, compute_recovery_state_root_with, consensus_state_root_from_sections.
  repeat (apply no_error_bind; [apply no_error_bind; [apply no_error_expect|done]|intros ?]). done.
Qed.

Lemma refused_block txs producer timestamp proof_hash s e s' :
  protocol_v3 s = true -> 0 <= db_height s -> db_native_inference s = false -> db_native_migration s = false ->
  execute_block_verified_at_with_proof txs producer timestamp proof_hash s = (Err e, s') -> s' = s.
Proof.
  intros H3 H0 Hn Hm. unfold execute_block_verified_at_with_proof. rewrite bind_read, Hn. cbn [andb].
  rewrite bind_ledger. destruct (execute_block_verified txs s) as [[rs|x|] s1] eqn:Hx; [| |done].
  2: { intros [= _ <-]. by eapply refused_execution. }
  destruct (block_writes _ _ _ _ H3 H0 Hx) as (_ & _ & _ & Hset & _). destruct (v3_context s H3 Hn) as [context Hctx].
  assert (db_native_inference s1 = false /\ db_native_migration s1 = false /\
          db_recovery_context s1 = Some context) as (Hn1 & Hm1 & Hc1).
  { unfold settings in Hset. cbn in Hset. simplify_eq. split_and!; congruence. }
  rewrite bind_ledger, no_binding_due by done. unfold seal_block. rewrite bind_ledger.
  unfold compute_state_root. rewrite Hc1. pose proof (no_error_root s1 context) as Hr.
  destruct (compute_recovery_state_root s1 context) as [root|x|]; [|done..].
  rewrite !bind_read, bind_ledger. unfold pureL. pose proof (no_error_receipts (db_height s1)
    (blk_hash (block_new (seal_header s1 txs producer timestamp proof_hash root) (tx_hash <$> txs)))
    (from_leaves (tx_hash <$> txs)) 0 (zip txs rs)) as Hrc.
  destruct (seal_receipts _ _ _ _ _) as [rcps|x|]; [|done..]. rewrite bind_modify, bind_ledger.
  unfold append_op at 1, modifyL. rewrite bind_ledger. unfold persist_restart_artifacts.
  assert (forall ops t, (append_ops ops t).1 = Ok ()) as Ho.
  { induction ops as [|op ops IH]; intros t; [done|]. cbn [append_ops]. rewrite bind_ledger. apply IH. }
  match goal with |- context [append_ops _ ?u] => set (t := u) end. specialize (Ho (restart_artifacts txs rcps t) t).
  destruct (append_ops _ t) as [r t2]. cbn in Ho. subst r. rewrite bind_ledger. by unfold append_op, modifyL.
Qed.

End Sealing.

(** ** Instances *)

Module SealingDemo.
Import LedgerDemo.

#[export] Instance scalar_header : HeaderCodec := {|
  bincode_header h := [bh_height h; bh_timestamp h; bh_parent_hash h; bh_tx_root h; bh_state_root h;
                       bh_proof_hash h; bh_tx_count h; bh_producer h];
  bincode_read_header _ := None;
|}.

#[export] Instance flat_sections : SectionCodec := {|
  bincode_accounts l := Some (l ≫= (fun e => e.1 :: write_account_bytes e.2));
  bincode_storage l := Some (l ≫= (fun e => e.1 :: (e.2 ≫= (fun x => x.1 :: x.2))));
  bincode_contracts l := Some (l ≫= (fun e => e.1 :: e.2));
  bincode_identities := Some [];
  bincode_validators l := Some (l ≫= (fun e => [e.1; e.2]));
  bincode_staking_pool p := Some [p];
  bincode_activation o := Some (from_option (fun h => [h]) [] o);
  bincode_proof p := Some [mp_leaf p; mp_root p];
|}.

#[export] Instance no_native_blocks : NativeBlocks := {|
  execute_native_inference_block_at _ _ _ _ := err "no native lane";
  apply_due_binding_change := mret ();
|}.

#[export] Instance no_native_blocks_law : NativeBlocksLaw.
Proof. by intros s. Qed.

#[export] Existing Instance one_by_one.

(** The state at the transition block 100. *)
Definition transition : Block :=
  block_new (mkBlockHeader 100 0 0 0 0 0 0 0 (rc_protocol_version context) None) [].

Definition activated : StateDB := v3_state <| db_history := mkHistory {[100 := transition]} ∅ ∅ ∅ ∅ |>.

End SealingDemo.
