(* ===== verification/Recovery.v ===== *)
(** * Restart from the write-ahead log
    (crates/arc-state/src/recovery.rs)

    A node that was activated from a signed checkpoint reopens by installing the
    checkpoint again and replaying the log written since.  [plan_post_recovery_wal] finds
    the last complete block boundary, [VerifiedRecoveryWalReplay::apply] replays up to it
    and checks the root of every checkpoint, the index of transactions is rebuilt, and
    [verify_recovery_restart] checks the chain of blocks.  Here the log is the list of its
    entries; WalFile.v reads it from bytes.  The state a checkpoint installs is an
    argument: the verification of checkpoint files is not modelled. *)

From S2P Require Import Prelude Crypto Merkle Validators Blocks Ledger Tier1 Contracts Executor.
From S2P Require Import LedgerDemo LedgerV3 Bonds Locality BlockStm Footprint BlockExec StateRoot V3Blocks.
From S2P Require Import Sealing.

#[global] Instance ProtocolVersion_eq_dec : EqDecision ProtocolVersion.
Proof. solve_decision. Defined.

#[global] Instance RecoveryContext_eq_dec : EqDecision RecoveryContext.
Proof. solve_decision. Defined.

Section Recovery.
Context `{CR : Crypto, TC : TxCodec, HC : HeaderCodec, SC : SectionCodec}.

(** ** The plan *)

Record WalScan := mkWalScan {
  sc_previous_entry_height : Z;
  sc_latest_boundary : option (Z * Hash256);
  sc_latest_block : option (Z * Hash256);
  sc_set_block_seen : bool;
  sc_checkpoint_seen : bool;
  sc_first_gap : option Z;
  sc_expected : Z;
  sc_accepted : nat;
  sc_error : option string;
}.

#[global] Instance WalScan_eta : Eta WalScan := fun c =>
  mkWalScan (sc_previous_entry_height c) (sc_latest_boundary c) (sc_latest_block c)
    (sc_set_block_seen c) (sc_checkpoint_seen c) (sc_first_gap c) (sc_expected c) (sc_accepted c)
    (sc_error c).

Definition scan_fails (what : string) (c : WalScan) : WalScan := c <| sc_error := Some what |>.

Definition scan_block (c : WalScan) (tag height : Z) (block : Block) : WalScan :=
  if negb (bool_decide (height = tag)) || negb (bool_decide (bh_height (blk_header block) = height))
  then scan_fails "post-recovery SetBlock has inconsistent heights" c
  else if negb (bool_decide (blk_hash block = block_compute_hash (blk_header block)))
  then scan_fails "post-recovery SetBlock has an invalid header hash" c
  else if sc_set_block_seen c
  then scan_fails "post-recovery WAL rewrites canonical block height" c
  else c <| sc_set_block_seen := true |>
         <| sc_latest_block := Some (height, bh_state_root (blk_header block)) |>.

(** A boundary that is not the expected one leaves a gap; the first gap is remembered. *)
Definition scan_checkpoint (c : WalScan) (sequence : nat) (tag : Z) (root : Hash256) : WalScan :=
  if sc_checkpoint_seen c then scan_fails "post-recovery WAL has duplicate checkpoints" c
  else if negb (sc_set_block_seen c)
  then scan_fails "post-recovery checkpoint has no preceding SetBlock" c
  else if negb (bool_decide (sc_latest_block c = Some (tag, root)))
  then scan_fails "post-recovery block/checkpoint mismatch" c
  else
    let c' := c <| sc_checkpoint_seen := true |> <| sc_latest_boundary := Some (tag, root) |>
                <| sc_accepted := S sequence |> in
    if negb (bool_decide (tag = sc_expected c))
    then c' <| sc_first_gap := Some (default (sc_expected c) (sc_first_gap c)) |>
    else match checked_add (sc_expected c) 1 with
         | Some next => c' <| sc_expected := next |>
         | None => scan_fails "post-recovery block height overflows u64" c'
         end.

Definition scan_entry (transition_height : Z) (c : WalScan) (sequence : nat) (e : WalEntry) : WalScan :=
  let tag := entry_height e in
  match sc_error c with
  | Some _ => c
  | None =>
      if bool_decide (tag <= transition_height)
      then scan_fails "post-recovery WAL entry targets a height at/before transition" c
      else if bool_decide (tag < sc_previous_entry_height c)
      then scan_fails "post-recovery WAL height regresses" c
      else
        let c := if bool_decide (tag = sc_previous_entry_height c) then c
                 else c <| sc_previous_entry_height := tag |> <| sc_set_block_seen := false |>
                        <| sc_checkpoint_seen := false |> in
        match entry_op e with
        | SetBlock height block => scan_block c tag height block
        | Checkpoint root => scan_checkpoint c sequence tag root
        | _ => c
        end
  end.

Fixpoint scan_log (transition_height : Z) (sequence : nat) (c : WalScan) (entries : list WalEntry) : WalScan :=
  match entries with
  | [] => c
  | e :: entries' => scan_log transition_height (S sequence) (scan_entry transition_height c sequence e) entries'
  end.

(** The number of entries to replay and the boundary they end with. *)
Record PostRecoveryWalPlan := mkPlan {
  plan_accepted : nat;
  plan_last_checkpoint : option (Z * Hash256);
}.

Definition scan_start (transition_height expected : Z) : WalScan :=
  mkWalScan transition_height None None false false None expected 0 None.

(** What the scan of the whole log decides. *)
Definition plan_of_scan (c : WalScan) : outcome StateError PostRecoveryWalPlan :=
  _ ← match sc_error c with Some what => Err (PersistenceError what) | None => Ok () end;
  match sc_latest_boundary c with
  | None => Ok (mkPlan 0 None)
  | Some (height, root) =>
      _ ← require (bool_decide (sc_first_gap c = None))
            (PersistenceError "post-recovery WAL lacks a contiguous SetBlock + Checkpoint boundary");
      next ← ok_or (checked_add height 1)
               (PersistenceError "post-recovery checkpoint height overflows u64");
      _ ← require (bool_decide (sc_expected c = next))
            (PersistenceError "post-recovery WAL is missing a complete block checkpoint");
      Ok (mkPlan (sc_accepted c) (Some (height, root)))
  end.

Definition plan_post_recovery_wal (entries : list WalEntry) (transition_height : Z)
    : outcome StateError PostRecoveryWalPlan :=
  expected ← ok_or (checked_add transition_height 1)
               (PersistenceError "recovery transition height overflows u64");
  plan_of_scan (scan_log transition_height 0 (scan_start transition_height expected) entries).

(** ** Verified replay *)

(** The root of a state, and the state after taking it. *)
Definition take_root (s : StateDB) : outcome StateError (Hash256 * StateDB) :=
  let '(r, s') := compute_state_root s in root ← r; Ok (root, s').

Fixpoint strictly_ascending (l : list (Address * Z)) : bool :=
  match l with
  | x :: (y :: _) as l' => bool_decide (x.1 < y.1) && strictly_ascending l'
  | _ => true
  end.

(** Whether a record can change the state root. *)
Definition changes_root (s : StateDB) (op : WalOp) : bool :=
  match op with
  | SetValidatorState validators staking_pool =>
      negb (bool_decide (staking_pool = db_staking_pool s)) ||
      negb (bool_decide (length validators = size (db_validators s))) ||
      negb (strictly_ascending validators) ||
      existsb (fun e => negb (bool_decide (db_validators s !! e.1 = Some e.2))) validators
  | SetRecoveryContext context activation_height =>
      negb (bool_decide (db_recovery_context s = Some context)) ||
      negb (bool_decide (community_rewards_v1_activation_height s = activation_height))
  | SetAccount _ _ | SetStorage _ _ _ | DeleteStorage _ _ | SetContract _ _ => true
  | SetBlock _ _ | SetReceipt _ _ | SetAgent _ _ _ _ | SetDagBlock _ _ | SetDagRound _
  | CommitDagBlock _ | SetFullTransaction _ _ | SetEventLogs _ _ | Checkpoint _ => false
  end.

(** One entry, with the root that is known to be the one of the state, if any. *)
Definition replay_apply (st : option Hash256 * StateDB) (e : WalEntry)
    : outcome StateError (option Hash256 * StateDB) :=
  let '(verified_root, s) := st in
  let verified_root := if changes_root s (entry_op e) then None else verified_root in
  let s := apply_wal_op s (entry_op e) in
  match entry_op e with
  | Checkpoint expected_root =>
      block ← ok_or (h_blocks (db_history s) !! entry_height e)
                (PersistenceError "post-recovery checkpoint has no replayed block");
      _ ← require (bool_decide (bh_state_root (blk_header block) = expected_root))
            (PersistenceError "post-recovery block/checkpoint root mismatch");
      actual ← match verified_root with Some root => Ok (root, s) | None => take_root s end;
      _ ← require (bool_decide (actual.1 = expected_root))
            (PersistenceError "post-recovery WAL state root mismatch");
      Ok (Some actual.1, actual.2)
  | _ => Ok (verified_root, s)
  end.

Definition apply_verified_recovery_wal (s : StateDB) (entries : list WalEntry)
    : outcome StateError (option Hash256 * StateDB) := mfoldl replay_apply (None, s) entries.

(** ** The index and the last checks *)

Definition location (r : TxReceipt) : Z * Z := (rcp_block_height r, rcp_index r).

(** The index of the receipts, merged with the signed one. *)
Definition merge_signed (index : gmap Hash256 (Z * Z)) (e : Hash256 * (Z * Z))
    : outcome StateError (gmap Hash256 (Z * Z)) :=
  _ ← match index !! e.1 with
      | Some replayed => require (bool_decide (replayed = e.2))
          (PersistenceError "replayed transaction index conflicts with signed retained location")
      | None => Ok ()
      end;
  Ok (<[e.1 := e.2]> index).

Definition rebuild_recovery_transaction_indexes (signed : list (Hash256 * (Z * Z))) (s : StateDB)
    : outcome StateError StateDB :=
  let h := db_history s in
  index ← mfoldl merge_signed (location <$> h_receipts h) signed;
  Ok (s <| db_history := h <| h_tx_index := index |> |>).

(** The blocks from [height] on, [n] of them, linked to [previous]. *)
Fixpoint check_links (blocks : gmap Z Block) (previous : Block) (height : Z) (n : nat)
    : outcome StateError unit :=
  match n with
  | O => Ok ()
  | S n' =>
      block ← ok_or (blocks !! height) (PersistenceError "canonical block missing after replay");
      _ ← require (bool_decide (bh_parent_hash (blk_header block) = blk_hash previous) &&
                   bool_decide (blk_hash block = block_compute_hash (blk_header block)))
            (PersistenceError "canonical block linkage/hash invalid");
      _ ← require (negb (bool_decide (major (bh_protocol_version (blk_header block)) = 3) &&
                         bool_decide (bh_proof_hash (blk_header block) = 0)))
            (PersistenceError "protocol-v3 canonical block is not bound to a DAG decision");
      check_links blocks block (height + 1) n'
  end.

Definition verify_recovery_restart (plan : PostRecoveryWalPlan) (transition_height : Z) (s : StateDB)
    : outcome StateError StateDB :=
  s ← (if bool_decide (plan_accepted plan = 0%nat) then Ok s
       else
         boundary ← ok_or (plan_last_checkpoint plan)
                      (PersistenceError "post-recovery WAL has no complete block checkpoint");
         _ ← require (bool_decide (db_height s = boundary.1))
               (PersistenceError "post-recovery WAL is not block-atomic");
         actual ← take_root s;
         _ ← require (bool_decide (actual.1 = boundary.2))
               (PersistenceError "post-recovery WAL state root mismatch");
         Ok actual.2);
  first ← ok_or (h_blocks (db_history s) !! transition_height) (PersistenceError "transition block missing");
  _ ← check_links (h_blocks (db_history s)) first (transition_height + 1)
        (Z.to_nat (db_height s - transition_height));
  Ok s.

Definition finish_restart (plan : PostRecoveryWalPlan) (transition_height : Z)
    (signed : list (Hash256 * (Z * Z))) (replayed : StateDB) : outcome StateError StateDB :=
  s ← rebuild_recovery_transaction_indexes signed replayed;
  verify_recovery_restart plan transition_height s.

(** Reopening over the state that the checkpoint installs at its transition height. *)
Definition restart (base : StateDB) (signed : list (Hash256 * (Z * Z))) (entries : list WalEntry)
    : outcome StateError StateDB :=
  plan ← plan_post_recovery_wal entries (db_height base);
  replayed ← apply_verified_recovery_wal base (take (plan_accepted plan) entries);
  finish_restart plan (db_height base) signed replayed.2.

(** ** The known root is the root *)

(** The replay that takes the root at every checkpoint. *)
Definition replay_checked (s : StateDB) (e : WalEntry) : outcome StateError StateDB :=
  let s := apply_wal_op s (entry_op e) in
  match entry_op e with
  | Checkpoint expected_root =>
      block ← ok_or (h_blocks (db_history s) !! entry_height e)
                (PersistenceError "post-recovery checkpoint has no replayed block");
      _ ← require (bool_decide (bh_state_root (blk_header block) = expected_root))
            (PersistenceError "post-recovery block/checkpoint root mismatch");
      actual ← take_root s;
      _ ← require (bool_decide (actual.1 = expected_root))
            (PersistenceError "post-recovery WAL state root mismatch");
      Ok actual.2
  | _ => Ok s
  end.

(** What the root of a recovery-bound state depends on. *)
Definition root_inputs (s : StateDB) :=
  (db_recovery_context s, db_accounts s, sections s, db_community_rewards_v1_activation_height s).

Lemma take_root_bound s context :
  db_recovery_context s = Some context ->
  take_root s = (root ← compute_recovery_state_root s context; Ok (root, s)).
Proof. intros Hc. unfold take_root, compute_state_root. by rewrite Hc. Qed.

Lemma root_inputs_root s s' context :
  root_inputs s' = root_inputs s -> compute_recovery_state_root s' context = compute_recovery_state_root s context.
Proof.
  intros Hr. apply root_local.
  - exact (f_equal (fun c => c.1.1.2) Hr).
  - exact (f_equal (fun c => c.1.2) Hr).
  - exact (f_equal snd Hr).
Qed.

Lemma strictly_ascending_sorted (l : list (Address * Z)) :
  strictly_ascending l = true -> StronglySorted Z.lt l.*1.
Proof.
  intros Hl. apply Sorted_StronglySorted; [intros x y z; lia|].
  induction l as [|x [|y l] IH]; cbn; [constructor|by repeat constructor|].
  cbn in Hl. apply andb_true_iff in Hl as [Hxy%bool_decide_eq_true Hl]. constructor; [by apply IH|].
  by constructor.
Qed.

(** A record of the registry that passes the test for a no-op leaves the registry. *)
Lemma registry_no_op (m : gmap Address Z) (l : list (Address * Z)) :
  length l = size m -> strictly_ascending l = true ->
  existsb (fun e => negb (bool_decide (m !! e.1 = Some e.2))) l = false ->
  foldl (fun m e => <[e.1 := e.2]> m) ∅ l = m.
Proof.
  intros Hl Hs He. apply foldl_insert_map. apply strictly_ascending_sorted in Hs.
  assert (NoDup l) as Hnd by (apply (NoDup_fmap_1 fst), sorted_lt_NoDup; done).
  apply submseteq_length_Permutation.
  - apply NoDup_submseteq; [done|]. intros [k v] Hin. apply elem_of_map_to_list.
    destruct (decide (m !! k = Some v)) as [|Hne]; [done|].
    assert (existsb (fun e => negb (bool_decide (m !! e.1 = Some e.2))) l = true) as Hx.
    { apply existsb_exists. exists (k, v). split; [by apply list_elem_of_In|]. cbn. by rewrite bool_decide_false. }
    congruence.
  - rewrite Hl. by rewrite length_map_to_list.
Qed.

(** A record that cannot change the root leaves what it depends on. *)
Lemma unchanged_root_inputs s op :
  changes_root s op = false -> root_inputs (apply_wal_op s op) = root_inputs s.
Proof.
  destruct op as [| | | | | | | | | | | | |vals pool|context act]; try done; cbn [changes_root].
  - intros Hc. apply orb_false_iff in Hc as [Hc Hx]. apply orb_false_iff in Hc as [Hc Hs].
    apply orb_false_iff in Hc as [Hp Hl]. apply negb_false_iff in Hp, Hl, Hs.
    apply bool_decide_eq_true in Hp, Hl. unfold root_inputs, sections. cbn.
    by rewrite (registry_no_op (db_validators s)), Hp.
  - intros Hc. apply orb_false_iff in Hc as [Hx Ha]. apply negb_false_iff in Hx, Ha.
    apply bool_decide_eq_true in Hx, Ha. unfold root_inputs, sections. cbn. by rewrite <- Ha, activation_read_back, Hx.
Qed.

Definition bound (s : StateDB) : Prop := is_Some (db_recovery_context s).

Definition known_root (r : option Hash256) (s : StateDB) : Prop :=
  match r with
  | Some root => exists context, db_recovery_context s = Some context /\ compute_recovery_state_root s context = Ok root
  | None => True
  end.

Lemma bound_apply s op : bound s -> bound (apply_wal_op s op).
Proof. intros Hb. destruct op; try done; cbn; [by case_match|by eexists]. Qed.

Lemma known_root_apply r s op :
  known_root r s -> known_root (if changes_root s op then None else r) (apply_wal_op s op).
Proof.
  intros Hr. destruct (changes_root s op) eqn:Hc; [done|]. apply unchanged_root_inputs in Hc.
  destruct r as [root|]; [|done]. destruct Hr as (context & Hctx & Hroot). exists context. split.
  - rewrite <- Hctx. exact (f_equal (fun c => c.1.1.1) Hc).
  - by rewrite (root_inputs_root s).
Qed.

(** One entry: the same verdict and the same state, and the known root is the root. *)
Lemma replay_apply_checked r s e :
  bound s -> known_root r s ->
  match replay_apply (r, s) e with
  | Ok (r', s') => replay_checked s e = Ok s' /\ bound s' /\ known_root r' s'
  | Err x => replay_checked s e = Err x
  | Panic => replay_checked s e = Panic
  end.
Proof.
  intros Hb Hr. pose proof (bound_apply s (entry_op e) Hb) as Hb1.
  pose proof (known_root_apply r s (entry_op e) Hr) as Hr1. unfold replay_apply, replay_checked.
  set (r1 := if changes_root s (entry_op e) then None else r) in *. set (s1 := apply_wal_op s (entry_op e)) in *.
  destruct (entry_op e) as [| | | | | | |expected| | | | | | |]; try by split_and!.
  destruct (h_blocks (db_history s1) !! entry_height e) as [b|]; [|done]. cbn [ok_or mbind outcome_bind].
  destruct (bool_decide (bh_state_root (blk_header b) = expected)); [|done]. cbn [require mbind outcome_bind].
  destruct Hb1 as [context Hctx]. rewrite (take_root_bound s1 context) by done.
  destruct r1 as [root|].
  - destruct Hr1 as (context' & Hc' & Hroot). assert (context' = context) as -> by congruence. rewrite Hroot.
    cbn [mbind outcome_bind fst snd]. destruct (bool_decide (root = expected)); [|done].
    split_and!; [done|by exists context|by exists context].
  - destruct (compute_recovery_state_root s1 context) as [root|x|] eqn:Hroot; cbn [mbind outcome_bind fst snd]; [|done..].
    destruct (bool_decide (root = expected)); [|done]. split_and!; [done|by exists context|by exists context].
Qed.

Lemma replay_verified_checked r s entries :
  bound s -> known_root r s ->
  (st ← mfoldl replay_apply (r, s) entries; Ok st.2) = mfoldl replay_checked s entries.
Proof.
  revert r s. induction entries as [|e entries IH]; intros r s Hb Hr; [done|]. cbn [mfoldl].
  pose proof (replay_apply_checked r s e Hb Hr) as Hs.
  destruct (replay_apply (r, s) e) as [[r' s']|x|]; [destruct Hs as (-> & Hb' & Hr')|by rewrite Hs..].
  by apply IH.
Qed.

(** The replay leaves the configuration of the node. *)
Definition flags (s : StateDB) := (db_wal_active s, db_native_inference s, db_native_migration s).

Lemma flags_apply s op : flags (apply_wal_op s op) = flags s.
Proof. destruct op; try done; cbn; by case_match. Qed.

Lemma replay_checked_flags s entries s' :
  bound s -> mfoldl replay_checked s entries = Ok s' -> flags s' = flags s.
Proof.
  revert s. induction entries as [|e entries IH]; intros s Hb Hm; [by injection Hm as ->|].
  cbn [mfoldl] in Hm. apply bind_Ok in Hm as (s1 & Hs1 & Hm). assert (flags s1 = flags s /\ bound s1) as [Hf Hb1].
  { pose proof (flags_apply s (entry_op e)) as Hf. pose proof (bound_apply s (entry_op e) Hb) as Hb1.
    unfold replay_checked in Hs1. destruct (entry_op e); try (injection Hs1 as <-; done).
    repeat inv_ok1. destruct Hb1 as [context Hc].
    match goal with Ht : take_root _ = Ok _ |- _ => rewrite (take_root_bound _ _ Hc) in Ht end.
    repeat inv_ok1. subst. cbn. split; [done|by exists context]. }
  rewrite <- Hf. by apply IH.
Qed.

(** C11: the verified replay of the log keeps the last root it took until a record that can
    change the root is applied.  On a state with a recovery context it accepts the same
    logs as the replay that takes the root at every checkpoint, with the same errors and
    the same state. *)
Theorem cached_replay_exact (s : StateDB) (entries : list WalEntry)
    (Hbound : is_Some (db_recovery_context s)) :
  (st ← apply_verified_recovery_wal s entries; Ok st.2) = mfoldl replay_checked s entries.
Proof. by apply replay_verified_checked. Qed.

End Recovery.

Section Witnesses.
Import LedgerDemo SealingDemo.

Lemma cached_replay_exact_witness :
  let log := [mkWalEntry (SetBlock 100 transition) 100; mkWalEntry (Checkpoint 0) 100;
              mkWalEntry (SetAccount 5 (account_new 5 1)) 101] in
  (st ← apply_verified_recovery_wal activated log; Ok st.2) = mfoldl replay_checked activated log.
Proof. apply cached_replay_exact. by eexists. Defined.

End Witnesses.
