(* ===== verification/Restart.v ===== *)
(** * A restart recovers the last sealed block

    The log that a run of sealed blocks writes, cut anywhere, restarts to the state after
    the last block whose checkpoint is in what is left. *)

From S2P Require Import Prelude Crypto Merkle Validators Blocks Ledger Tier1 Contracts Executor.
From S2P Require Import LedgerDemo LedgerV3 Bonds Locality BlockStm Footprint BlockExec StateRoot V3Blocks.
From S2P Require Import Sealing Recovery.

(** What a restart has to bring back. *)
Definition durable (s : StateDB) :=
  (db_accounts s, sections s,
   (db_height s, db_recovery_context s, db_community_rewards_v1_activation_height s), db_history s).

Lemma replay_app s l1 l2 : replay s (l1 ++ l2) = replay (replay s l1) l2.
Proof. apply foldl_app. Qed.

Lemma replay_writes t h ws :
  durable (replay t (account_ops h ws)) =
  durable (t <| db_accounts := replay_accounts (db_accounts t) ws |>).
Proof.
  unfold replay, account_ops, replay_accounts. revert t.
  induction ws as [|[k a] ws IH]; intros t; [by destruct t|]. cbn [fmap list_fmap foldl]. by rewrite IH.
Qed.

(** ** The history a block records *)

(** The index, the receipts and the bodies after [l], transactions at their positions. *)
Lemma record_txs_run height h l :
  foldl (record_tx height) h l =
  mkHistory (h_blocks h)
    (foldl (fun m e => <[tx_hash e.2.1 := (height, u32_of_nat e.1)]> m) (h_tx_index h) l)
    (foldl (fun m e => <[tx_hash e.2.1 := e.2.2]> m) (h_receipts h) l)
    (foldl (fun m e => <[tx_hash e.2.1 := e.2.1]> m) (h_full_transactions h) l)
    (h_event_logs h).
Proof.
  revert h. induction l as [|[i [tx r]] l IH]; intros h; [by destruct h|]. cbn [foldl]. by rewrite IH.
Qed.

(** What the receipts and bodies of a log do to the history. *)
Lemma replay_artifacts t height l :
  replay t (entries_at height (l ≫= (fun e => [SetReceipt (tx_hash e.1) e.2;
                                               SetFullTransaction (tx_hash e.1) e.1]))) =
  t <| db_history := mkHistory (h_blocks (db_history t)) (h_tx_index (db_history t))
         (foldl (fun m e => <[tx_hash e.1 := e.2]> m) (h_receipts (db_history t)) l)
         (foldl (fun m e => <[tx_hash e.1 := e.1]> m) (h_full_transactions (db_history t)) l)
         (h_event_logs (db_history t)) |>.
Proof.
  revert t. induction l as [|[tx r] l IH]; intros t.
  - destruct t as [? ? ? ? ? ? ? ? ? ? ? ? ? ? ? ? h]. by destruct h.
  - cbn [mbind list_bind app]. unfold entries_at. cbn [fmap list_fmap]. unfold replay. cbn [foldl].
    change (foldl _ ?s (_ <$> _)) with (replay s (entries_at height (l ≫= (fun e => [SetReceipt (tx_hash e.1) e.2;
      SetFullTransaction (tx_hash e.1) e.1])))).
    by rewrite IH.
Qed.

Lemma foldl_imap_snd {A B} (g : B -> A -> B) (f : nat -> nat) (m : B) (l : list A) :
  foldl (fun m e => g m e.2) m (imap (fun i x => (f i, x)) l) = foldl g m l.
Proof.
  revert f m. induction l as [|x l IH]; intros f m; [done|]. cbn [imap foldl]. apply (IH (f ∘ S)).
Qed.

Lemma index_block_from (height : Z) txs (receipts : list TxReceipt) (f : nat -> nat)
    (index : gmap Hash256 (Z * Z)) :
  length receipts = length txs ->
  (forall i, (i < length txs)%nat -> Z.of_nat (f i) <= u32_max) ->
  foldl (fun m e => if bool_decide (Z.of_nat e.1 <= u32_max)
                    then <[e.2 := (height, Z.of_nat e.1)]> m else m) index
    (imap (fun i x => (f i, x)) (tx_hash <$> txs)) =
  foldl (fun m e => <[tx_hash e.2.1 := (height, u32_of_nat e.1)]> m) index
    (imap (fun i x => (f i, x)) (zip txs receipts)).
Proof.
  revert receipts f index. induction txs as [|tx txs IH]; intros [|r receipts] f index Hl Hf; try done.
  cbn [fmap list_fmap zip zip_with imap foldl fst snd]. specialize (Hf 0%nat ltac:(cbn; lia)) as Hf0.
  rewrite bool_decide_true by done.
  replace (u32_of_nat (f 0%nat)) with (Z.of_nat (f 0%nat)) by (unfold u32_of_nat; rewrite Z.mod_small; lia).
  apply (IH receipts (f ∘ S)); [by injection Hl|]. intros i Hi. apply (Hf (S i)). cbn. lia.
Qed.

Lemma record_block_run height blk txs receipts h :
  length receipts = length txs -> Z.of_nat (length txs) <= u32_max -> blk_tx_hashes blk = tx_hash <$> txs ->
  record_block height blk txs receipts h =
  mkHistory (<[height := blk]> (h_blocks h)) (index_block height (blk_tx_hashes blk) (h_tx_index h))
    (foldl (fun m e => <[tx_hash e.1 := e.2]> m) (h_receipts h) (zip txs receipts))
    (foldl (fun m e => <[tx_hash e.1 := e.1]> m) (h_full_transactions h) (zip txs receipts))
    (h_event_logs h).
Proof.
  intros Hl Hn Hh. unfold record_block, index_block. rewrite record_txs_run, Hh.
  unfold set_field. cbn. f_equal.
  - symmetry. apply (index_block_from height txs receipts id); [done|]. intros i Hi. cbn. lia.
  - apply (foldl_imap_snd (fun m e => <[tx_hash e.1 := e.2]> m) id).
  - apply (foldl_imap_snd (fun m e => <[tx_hash e.1 := e.1]> m) id).
Qed.

(** ** The replay of one block *)

Section Restart.
Context `{CR : Crypto, TC : TxCodec, HC : HeaderCodec, SC : SectionCodec}.

Lemma replay_closing s' blk txs receipts root context t :
  db_recovery_context s' = Some context -> db_height t <= db_height s' ->
  h_blocks (db_history t) !! db_height s' = None -> length receipts = length txs ->
  Z.of_nat (length txs) <= u32_max -> blk_tx_hashes blk = tx_hash <$> txs ->
  durable (replay t (entries_at (db_height s') (closing_ops s' blk txs receipts root))) =
  (db_accounts t, (db_storage t, db_contracts t, db_validators s', db_staking_pool s'),
   (db_height s', Some context, db_community_rewards_v1_activation_height s'),
   record_block (db_height s') blk txs receipts (db_history t)).
Proof.
  intros Hc Hh Hnone Hl Hn Hhs. rewrite record_block_run by done.
  unfold closing_ops, restart_artifacts, entries_at. rewrite Hc, fmap_cons, !fmap_app, <- !app_assoc.
  change (replay t (?e :: ?l)) with (replay (apply_wal_op t (entry_op e)) l).
  cbn [entry_op apply_wal_op]. unfold apply_set_block. rewrite Hnone. cbn [unindex_replaced].
  set (t1 := t <| db_history := _ |> <| db_height := _ |>).
  rewrite replay_app. change ((fun op => mkWalEntry op (db_height s')) <$> ?l) with (entries_at (db_height s') l).
  rewrite replay_artifacts. set (t2 := t1 <| db_history := _ |>).
  change (replay t2 _) with (t2 <| db_validators := foldl (fun m e => <[e.1 := e.2]> m) ∅ (sorted_entries (db_validators s')) |>
    <| db_staking_pool := db_staking_pool s' |> <| db_recovery_context := Some context |>
    <| db_community_rewards_v1_activation_height :=
         default u64_max (community_rewards_v1_activation_height s') |>).
  rewrite activation_read_back, (foldl_insert_map (db_validators s')) by apply merge_sort_Permutation.
  unfold durable, sections. cbn. by rewrite Z.max_l by lia.
Qed.

Lemma replay_sealed txs proof_hash s blk receipts s' ws root context t :
  sealed txs proof_hash s blk receipts s' ws root context ->
  h_blocks (db_history s) !! db_height s' = None -> durable t = durable s ->
  durable (replay t (account_ops (db_height s') ws ++
                     entries_at (db_height s') (closing_ops s' blk txs receipts root))) = durable s'.
Proof.
  intros Hsd Hnone Hd. rewrite replay_app. pose proof (replay_writes t (db_height s') ws) as Hw.
  set (t1 := replay t _) in *. pose proof (sealed_settings _ _ _ _ _ _ _ _ _ Hsd) as Hst.
  pose proof (sealed_sections _ _ _ _ _ _ _ _ _ Hsd) as Hsc. pose proof (sealed_height _ _ _ _ _ _ _ _ _ Hsd) as Hh.
  pose proof (sealed_context _ _ _ _ _ _ _ _ _ Hsd) as Hc.
  unfold durable, sections, settings in Hd, Hw, Hst, Hsc. cbn in Hw, Hst. simplify_eq.
  rewrite (replay_closing _ _ _ _ _ context); try congruence.
  - unfold durable, sections. rewrite (sealed_history _ _ _ _ _ _ _ _ _ Hsd), (sealed_accounts _ _ _ _ _ _ _ _ _ Hsd).
    congruence.
  - lia.
  - by apply (sealed_length _ _ _ _ _ _ _ _ _ Hsd).
  - pose proof (sealed_count _ _ _ _ _ _ _ _ _ Hsd) as Hn. unfold V3_MAX_TRANSACTIONS_PER_BLOCK, u32_max in *. lia.
  - by apply (sealed_hashes _ _ _ _ _ _ _ _ _ Hsd).
Qed.

(** ** The scan of one block *)

Definition quiet (op : WalOp) : bool :=
  match op with SetBlock _ _ | Checkpoint _ => false | _ => true end.

(** The scan as it reaches a height. *)
Definition enter (h : Z) (c : WalScan) : WalScan :=
  if bool_decide (h = sc_previous_entry_height c) then c
  else c <| sc_previous_entry_height := h |> <| sc_set_block_seen := false |> <| sc_checkpoint_seen := false |>.

Lemma enter_enter h c : enter h (enter h c) = enter h c.
Proof.
  unfold enter at 2 3. case_bool_decide as Hh; unfold enter; [by rewrite bool_decide_true|].
  by rewrite bool_decide_true.
Qed.

Lemma scan_entry_at tr c n op h :
  sc_error c = None -> tr < h -> sc_previous_entry_height c <= h ->
  scan_entry tr c n (mkWalEntry op h) =
  match op with
  | SetBlock height block => scan_block (enter h c) h height block
  | Checkpoint root => scan_checkpoint (enter h c) n h root
  | _ => enter h c
  end.
Proof.
  intros He Ht Hp. unfold scan_entry. cbn [entry_height entry_op]. rewrite He.
  rewrite (bool_decide_false (h <= tr)), (bool_decide_false (h < _)) by lia. done.
Qed.

Lemma enter_error h c : sc_error (enter h c) = sc_error c.
Proof. unfold enter. by case_bool_decide. Qed.

Lemma enter_previous h c : sc_previous_entry_height (enter h c) = h.
Proof. unfold enter. by case_bool_decide. Qed.

Lemma scan_log_app tr n c l1 l2 :
  scan_log tr n c (l1 ++ l2) = scan_log tr (n + length l1) (scan_log tr n c l1) l2.
Proof.
  revert n c. induction l1 as [|e l1 IH]; intros n c; cbn; [by rewrite Nat.add_0_r|].
  rewrite IH. f_equal. lia.
Qed.

Lemma scan_quiet tr n c h ops :
  sc_error c = None -> tr < h -> sc_previous_entry_height c <= h -> forallb quiet ops = true ->
  scan_log tr n c (entries_at h ops) = c \/ scan_log tr n c (entries_at h ops) = enter h c.
Proof.
  revert n c. induction ops as [|op ops IH]; intros n c He Ht Hp Hq; [by left|].
  change (entries_at h (op :: ops)) with (mkWalEntry op h :: entries_at h ops). cbn [scan_log].
  apply andb_true_iff in Hq as [Hop Hq].
  assert (scan_entry tr c n (mkWalEntry op h) = enter h c) as -> by (rewrite scan_entry_at by done; by destruct op).
  right. destruct (IH (S n) (enter h c)) as [->| ->]; rewrite ?enter_error, ?enter_previous, ?enter_enter; done.
Qed.

(** The scan after the blocks up to [s], of a log that starts at the height [tr]. *)
Record at_boundary (c : WalScan) (s : StateDB) (boundary : option (Z * Hash256)) (accepted : nat) : Prop := {
  ab_error : sc_error c = None;
  ab_gap : sc_first_gap c = None;
  ab_previous : sc_previous_entry_height c <= db_height s;
  ab_expected : sc_expected c = db_height s + 1;
  ab_boundary : sc_latest_boundary c = boundary;
  ab_accepted : sc_accepted c = accepted;
}.

(** The records of a block before its checkpoint. *)
Definition open_ops (s' : StateDB) (blk : Block) (txs : list Transaction) (receipts : list TxReceipt)
    (ws : list (Address * Account)) : list WalOp :=
  ((fun w => SetAccount w.1 w.2) <$> ws) ++ SetBlock (db_height s') blk :: restart_artifacts txs receipts s'.

Lemma segment_ops s' blk txs receipts ws root :
  account_ops (db_height s') ws ++ entries_at (db_height s') (closing_ops s' blk txs receipts root) =
  entries_at (db_height s') (open_ops s' blk txs receipts ws) ++
  [mkWalEntry (Checkpoint root) (db_height s')].
Proof.
  unfold open_ops, closing_ops, entries_at, account_ops. rewrite !fmap_app, !fmap_cons, !fmap_app, <- list_fmap_compose.
  by rewrite <- !app_assoc.
Qed.

Lemma artifacts_quiet txs receipts s : forallb quiet (restart_artifacts txs receipts s) = true.
Proof.
  unfold restart_artifacts. rewrite !forallb_app. apply andb_true_iff. split.
  - induction (zip txs receipts) as [|e l IH]; [done|]. cbn. apply IH.
  - cbn. by destruct (db_recovery_context s).
Qed.

Lemma writes_quiet (ws : list (Address * Account)) : forallb quiet ((fun w => SetAccount w.1 w.2) <$> ws) = true.
Proof. by induction ws. Qed.

(** A block that the scan accepts, whatever it has seen before. *)
Definition block_seen (h : Z) (root : Hash256) (c : WalScan) : WalScan :=
  (enter h c) <| sc_set_block_seen := true |> <| sc_latest_block := Some (h, root) |>.

Lemma block_seen_fresh h root c :
  sc_previous_entry_height c < h ->
  block_seen h root c =
  mkWalScan h (sc_latest_boundary c) (Some (h, root)) true false (sc_first_gap c) (sc_expected c)
    (sc_accepted c) (sc_error c).
Proof. intros Hp. unfold block_seen, enter. by rewrite bool_decide_false by lia. Qed.

Lemma scan_with_block txs proof_hash s blk receipts s' ws root context tr n c q :
  sealed txs proof_hash s blk receipts s' ws root context ->
  sc_error c = None -> sc_previous_entry_height c <= db_height s -> tr <= db_height s ->
  forallb quiet q = true ->
  scan_log tr n c (entries_at (db_height s') (((fun w => SetAccount w.1 w.2) <$> ws) ++
                                              SetBlock (db_height s') blk :: q)) =
  block_seen (db_height s') root c.
Proof.
  intros Hsd He Hp Ht Hq. pose proof (sealed_height _ _ _ _ _ _ _ _ _ Hsd) as Hh.
  unfold entries_at. rewrite fmap_app, scan_log_app, fmap_cons. fold (entries_at (db_height s')).
  change (?f <$> ?l) with (entries_at (db_height s') l). set (h := db_height s') in *.
  assert (scan_entry tr (scan_log tr n c (entries_at h ((fun w => SetAccount w.1 w.2) <$> ws)))
            (n + length (entries_at h ((fun w => SetAccount w.1 w.2) <$> ws))) (mkWalEntry (SetBlock h blk) h) =
          block_seen h root c) as Hb.
  { destruct (scan_quiet tr n c h ((fun w => SetAccount w.1 w.2) <$> ws)) as [->| ->];
      [done|lia|lia|apply writes_quiet|..]; rewrite scan_entry_at, ?enter_enter
        by (rewrite ?enter_error, ?enter_previous; done || lia).
    all: unfold scan_block; rewrite (bool_decide_true (h = h)), (bool_decide_true (bh_height _ = _)),
      (bool_decide_true (blk_hash _ = _)) by (apply Hsd || done); cbn [negb orb].
    all: unfold block_seen, enter; rewrite bool_decide_false by lia; cbn.
    all: by rewrite (sealed_bh_root _ _ _ _ _ _ _ _ _ Hsd). }
  cbn [scan_log]. rewrite Hb. destruct (scan_quiet tr (S (n + length (entries_at h ((fun w => SetAccount w.1 w.2) <$> ws))))
    (block_seen h root c) h q) as [->| ->]; try done.
  - unfold block_seen. cbn. by rewrite enter_error.
  - lia.
  - unfold block_seen. cbn. by rewrite enter_previous.
  - unfold enter at 1. rewrite bool_decide_true; [done|]. unfold block_seen. cbn. by rewrite enter_previous.
Qed.

Lemma scan_partial txs proof_hash s blk receipts s' ws root context tr n c boundary accepted ops :
  sealed txs proof_hash s blk receipts s' ws root context ->
  at_boundary c s boundary accepted -> tr <= db_height s ->
  ops `prefix_of` open_ops s' blk txs receipts ws ->
  let c' := scan_log tr n c (entries_at (db_height s') ops) in
  sc_error c' = None /\ sc_first_gap c' = None /\ sc_expected c' = db_height s + 1 /\
  sc_latest_boundary c' = boundary /\ sc_accepted c' = accepted.
Proof.
  intros Hsd [He Hg Hp Hx Hb Ha] Ht Hpre. pose proof (sealed_height _ _ _ _ _ _ _ _ _ Hsd) as Hh.
  unfold open_ops in Hpre. cbn zeta.
  assert (forall c', c' = c \/ c' = enter (db_height s') c \/ c' = block_seen (db_height s') root c ->
    sc_error c' = None /\ sc_first_gap c' = None /\ sc_expected c' = db_height s + 1 /\
    sc_latest_boundary c' = boundary /\ sc_accepted c' = accepted) as Hc.
  { intros c' [->|[->| ->]]; unfold block_seen, enter; [done|case_bool_decide; done..]. }
  apply Hc. apply prefix_app_split in Hpre as [[q Hq]|([|op q] & -> & Hq)].
  - destruct (scan_quiet tr n c (db_height s') ops) as [->| ->]; [done|lia|lia| |by left|by right; left].
    pose proof (writes_quiet ws) as Hw. rewrite Hq, forallb_app in Hw. by apply andb_true_iff in Hw as [? _].
  - rewrite app_nil_r.
    destruct (scan_quiet tr n c (db_height s') ((fun w => SetAccount w.1 w.2) <$> ws)) as [->| ->];
      [done|lia|lia|apply writes_quiet|by left|by right; left].
  - apply prefix_cons_inv_1 in Hq as Hop. apply prefix_cons_inv_2 in Hq as [q' Hq]. subst op. right; right.
    apply (scan_with_block _ _ _ _ _ _ _ _ _ _ _ _ _ Hsd); [done..|].
    pose proof (artifacts_quiet txs receipts s') as Hw. rewrite Hq, forallb_app in Hw.
    by apply andb_true_iff in Hw as [? _].
Qed.

Lemma scan_segment txs proof_hash s blk receipts s' ws root context tr n c boundary accepted :
  sealed txs proof_hash s blk receipts s' ws root context ->
  at_boundary c s boundary accepted -> tr <= db_height s -> db_height s' < u64_max ->
  at_boundary (scan_log tr n c (entries_at (db_height s') (open_ops s' blk txs receipts ws) ++
                                [mkWalEntry (Checkpoint root) (db_height s')])) s'
    (Some (db_height s', root)) (n + length (open_ops s' blk txs receipts ws) + 1).
Proof.
  intros Hsd [He Hg Hp Hx Hb Ha] Ht Hmax. pose proof (sealed_height _ _ _ _ _ _ _ _ _ Hsd) as Hh.
  rewrite scan_log_app. unfold open_ops at 2.
  rewrite (scan_with_block _ _ _ _ _ _ _ _ _ _ _ _ _ Hsd) by (done || apply artifacts_quiet). cbn [scan_log].
  rewrite block_seen_fresh by lia. rewrite He, Hg, Hx, Hb, Ha, scan_entry_at by (done || cbn; lia).
  unfold entries_at. rewrite length_fmap. set (m := (n + _)%nat). rewrite Hh in *. cbn [sc_previous_entry_height].
  unfold enter. cbn [sc_previous_entry_height]. rewrite bool_decide_true by done.
  unfold scan_checkpoint. cbn [sc_checkpoint_seen sc_set_block_seen sc_latest_block sc_expected sc_first_gap negb].
  rewrite !bool_decide_true by done. cbn [negb].
  rewrite (proj2 (checked_add_Some _ _ (db_height s + 1 + 1))) by lia.
  split; cbn; try done; lia.
Qed.

(** ** The verified replay of one block *)

Lemma durable_root_inputs t s : durable t = durable s -> root_inputs t = root_inputs s.
Proof.
  intros Hd. unfold root_inputs.
  rewrite (f_equal (fun c => c.1.1.1) Hd : db_accounts t = db_accounts s).
  rewrite (f_equal (fun c => c.1.1.2) Hd : sections t = sections s).
  rewrite (f_equal (fun c => c.1.2.1.2) Hd : db_recovery_context t = db_recovery_context s).
  by rewrite (f_equal (fun c => c.1.2.2) Hd : db_community_rewards_v1_activation_height t = _).
Qed.

Lemma durable_history t s : durable t = durable s -> db_history t = db_history s.
Proof. intros Hd. exact (f_equal snd Hd). Qed.

Lemma durable_height t s : durable t = durable s -> db_height t = db_height s.
Proof. intros Hd. exact (f_equal (fun c => c.1.2.1.1) Hd). Qed.

Lemma durable_context t s : durable t = durable s -> db_recovery_context t = db_recovery_context s.
Proof. intros Hd. exact (f_equal (fun c => c.1.2.1.2) Hd). Qed.

Lemma known_root_durable r t s : durable t = durable s -> known_root r s -> known_root r t.
Proof.
  intros Hd. destruct r as [root|]; [|done]. intros (context & Hc & Hr). exists context.
  by rewrite (durable_context _ _ Hd), (root_inputs_root s _ _ (durable_root_inputs _ _ Hd)).
Qed.

(** The root of a sealed state. *)
Lemma sealed_known_root txs proof_hash s blk receipts s' ws root context :
  sealed txs proof_hash s blk receipts s' ws root context ->
  db_recovery_context s' = Some context /\ compute_recovery_state_root s' context = Ok root.
Proof.
  intros Hsd. split; [|apply Hsd].
  pose proof (sealed_settings _ _ _ _ _ _ _ _ _ Hsd) as Hst. unfold settings in Hst. cbn in Hst. simplify_eq.
  rewrite <- (sealed_context _ _ _ _ _ _ _ _ _ Hsd). congruence.
Qed.

Definition no_checkpoint (op : WalOp) : bool := match op with Checkpoint _ => false | _ => true end.

Lemma checked_open t h ops :
  forallb no_checkpoint ops = true ->
  mfoldl replay_checked t (entries_at h ops) = Ok (replay t (entries_at h ops)).
Proof.
  revert t. induction ops as [|op ops IH]; intros t Hn; [done|]. apply andb_true_iff in Hn as [Hop Hn].
  change (entries_at h (op :: ops)) with (mkWalEntry op h :: entries_at h ops).
  change (replay t (?e :: ?l)) with (replay (apply_wal_op t (entry_op e)) l). cbn [mfoldl].
  rewrite <- IH by done. by destruct op.
Qed.

Lemma quiet_no_checkpoint ops : forallb quiet ops = true -> forallb no_checkpoint ops = true.
Proof.
  induction ops as [|op ops IH]; [done|]. cbn. intros [Hq Hr]%andb_true_iff.
  rewrite IH by done. by destruct op.
Qed.

Lemma open_no_checkpoint s' blk txs receipts ws : forallb no_checkpoint (open_ops s' blk txs receipts ws) = true.
Proof.
  unfold open_ops. rewrite forallb_app, quiet_no_checkpoint by apply writes_quiet. cbn.
  apply quiet_no_checkpoint, artifacts_quiet.
Qed.

Lemma sealed_block_at txs proof_hash s blk receipts s' ws root context :
  sealed txs proof_hash s blk receipts s' ws root context -> h_blocks (db_history s') = <[db_height s' := blk]> (h_blocks (db_history s)).
Proof.
  intros Hsd. rewrite (sealed_history _ _ _ _ _ _ _ _ _ Hsd). unfold record_block. by rewrite record_txs_run.
Qed.

Lemma checked_segment txs proof_hash s blk receipts s' ws root context t :
  sealed txs proof_hash s blk receipts s' ws root context ->
  h_blocks (db_history s) !! db_height s' = None -> durable t = durable s ->
  exists t', mfoldl replay_checked t (entries_at (db_height s') (open_ops s' blk txs receipts ws) ++
                                      [mkWalEntry (Checkpoint root) (db_height s')]) = Ok t' /\
             durable t' = durable s'.
Proof.
  intros Hsd Hnone Hd. pose proof (replay_sealed _ _ _ _ _ _ _ _ _ t Hsd Hnone Hd) as Hr.
  rewrite segment_ops, replay_app in Hr. set (l := entries_at _ _) in *.
  change (replay (replay t l) [mkWalEntry (Checkpoint root) (db_height s')]) with (replay t l) in Hr.
  exists (replay t l). split; [|done]. rewrite mfoldl_app.
  assert (mfoldl replay_checked t l = Ok (replay t l)) as -> by apply checked_open, open_no_checkpoint.
  cbn [mbind outcome_bind mfoldl]. unfold replay_checked. cbn [entry_op entry_height apply_wal_op].
  rewrite (durable_history _ _ Hr), (sealed_block_at _ _ _ _ _ _ _ _ _ Hsd), lookup_insert_eq.
  cbn [ok_or mbind outcome_bind]. rewrite bool_decide_true by apply Hsd. cbn [require mbind outcome_bind].
  rewrite (take_root_bound _ context), (root_inputs_root s'), (sealed_root _ _ _ _ _ _ _ _ _ Hsd).
  - cbn [mbind outcome_bind fst snd]. by rewrite bool_decide_true.
  - by apply durable_root_inputs.
  - rewrite (durable_context _ _ Hr). by apply (sealed_known_root _ _ _ _ _ _ _ _ _ Hsd).
Qed.

(** ** Runs of sealed blocks *)

Context `{HO : HashOrder, WE : WasmEngine, NL : NativeLane, BV : BatchVerify, NB : NativeBlocks}.
Context `{NLaw : !NativeBlocksLaw}.

Record BlockRequest := mkRequest {
  rq_transactions : list Transaction;
  rq_producer : Address;
  rq_timestamp : Z;
  rq_proof_hash : Hash256;
}.

Definition run_request (r : BlockRequest) : ledger (Block * list TxReceipt) :=
  execute_block_verified_at_with_proof (rq_transactions r) (rq_producer r) (rq_timestamp r) (rq_proof_hash r).

(** A node of protocol 3 outside the native lane, at the tip of its blocks. *)
Record node_ok (s : StateDB) : Prop := {
  nk_v3 : protocol_v3 s = true;
  nk_height : 0 <= db_height s;
  nk_wal : db_wal_active s = true;
  nk_native : db_native_inference s = false;
  nk_migration : db_native_migration s = false;
  nk_tip : is_Some (h_blocks (db_history s) !! db_height s);
  nk_above : forall h, db_height s < h -> h_blocks (db_history s) !! h = None;
}.

Lemma sealed_node txs proof_hash s blk receipts s' ws root context :
  node_ok s -> sealed txs proof_hash s blk receipts s' ws root context -> node_ok s'.
Proof.
  intros [H3 H0 Hw Hn Hm Ht Ha] Hsd. pose proof (sealed_settings _ _ _ _ _ _ _ _ _ Hsd) as Hst.
  pose proof (sealed_height _ _ _ _ _ _ _ _ _ Hsd) as Hh. pose proof (sealed_block_at _ _ _ _ _ _ _ _ _ Hsd) as Hb.
  split; try (unfold settings in Hst; cbn in Hst; simplify_eq; congruence).
  - by rewrite (protocol_v3_settings _ _ Hst).
  - lia.
  - rewrite Hb, lookup_insert_eq. by eexists.
  - intros h Hlt. rewrite Hb, lookup_insert_ne by lia. apply Ha. lia.
Qed.

Lemma run_request_sealed r s blk receipts s1 :
  node_ok s -> run_request r s = (Ok (blk, receipts), s1) ->
  exists ws root context, sealed (rq_transactions r) (rq_proof_hash r) s blk receipts s1 ws root context.
Proof. intros Hk. apply execute_sealed; apply Hk. Qed.

(** ** The chain and the index *)

(** The blocks above the transition, each linked to the one below and bound to a decision. *)
Definition linked (h0 : Z) (s : StateDB) : Prop :=
  is_Some (h_blocks (db_history s) !! h0) /\
  forall h, h0 < h <= db_height s ->
    exists prev b, h_blocks (db_history s) !! (h - 1) = Some prev /\ h_blocks (db_history s) !! h = Some b /\
      bh_parent_hash (blk_header b) = blk_hash prev /\ blk_hash b = block_compute_hash (blk_header b) /\
      bh_proof_hash (blk_header b) <> 0.

Lemma sealed_linked txs proof_hash s blk receipts s' ws root context h0 :
  node_ok s -> h0 <= db_height s -> proof_hash <> 0 ->
  sealed txs proof_hash s blk receipts s' ws root context -> linked h0 s -> linked h0 s'.
Proof.
  intros Hk Hle Hpf Hsd [Hb0 Hl]. pose proof (sealed_block_at _ _ _ _ _ _ _ _ _ Hsd) as Hb.
  pose proof (sealed_height _ _ _ _ _ _ _ _ _ Hsd) as Hh. rewrite Hh in Hb. split.
  - rewrite Hb, lookup_insert_ne by lia. done.
  - intros h Hr. rewrite Hb. destruct (decide (h = db_height s + 1)) as [->|Hne].
    + destruct (nk_tip s Hk) as [prev Hp]. exists prev, blk.
      rewrite lookup_insert_eq, Z.add_simpl_r, lookup_insert_ne by lia. split_and!; try done.
      * rewrite (sealed_bh_parent _ _ _ _ _ _ _ _ _ Hsd), Hp. done.
      * apply Hsd.
      * by rewrite (sealed_bh_proof _ _ _ _ _ _ _ _ _ Hsd).
    + rewrite !lookup_insert_ne by lia. apply Hl. lia.
Qed.

Lemma check_links_linked h0 s n h prev :
  linked h0 s -> h0 <= h -> h_blocks (db_history s) !! h = Some prev -> db_height s = h + Z.of_nat n ->
  check_links (h_blocks (db_history s)) prev (h + 1) n = Ok ().
Proof.
  intros Hl. revert h prev. induction n as [|n IH]; intros h prev Hh Hp Hn; [done|]. cbn [check_links].
  destruct (proj2 Hl (h + 1)) as (prev' & b & Hp' & Hb & Hpar & Hhash & Hpf); [lia|].
  rewrite Hb, Z.add_simpl_r in *. assert (prev' = prev) as -> by congruence. cbn [ok_or mbind outcome_bind].
  rewrite !(bool_decide_true _ Hpar), (bool_decide_true _ Hhash), (bool_decide_false _ Hpf), andb_false_r. cbn.
  apply IH; [lia|done|lia].
Qed.

(** The rebuilt index is the one of the state. *)
Definition index_ok (signed : list (Hash256 * (Z * Z))) (s : StateDB) : Prop :=
  mfoldl merge_signed (location <$> h_receipts (db_history s)) signed = Ok (h_tx_index (db_history s)).

Lemma merge_signed_insert signed m index k v :
  k ∉ signed.*1 -> mfoldl merge_signed m signed = Ok index ->
  mfoldl merge_signed (<[k := v]> m) signed = Ok (<[k := v]> index).
Proof.
  revert m. induction signed as [|[k' v'] signed IH]; intros m Hk Hm; [by injection Hm as ->|].
  cbn [mfoldl] in *. apply not_elem_of_cons in Hk as [Hne Hk]. cbn [fst] in Hne. unfold merge_signed at 2 in Hm.
  unfold merge_signed at 2. cbn [fst snd] in *. rewrite lookup_insert_ne by done.
  destruct (m !! k'); [destruct (bool_decide _); [|done]|]; cbn [require mbind outcome_bind] in *.
  all: rewrite insert_insert_ne by done; by apply IH.
Qed.

Lemma record_txs_index signed height h l :
  Forall (fun e => tx_hash e.2.1 ∉ signed.*1 /\ location e.2.2 = (height, u32_of_nat e.1)) l ->
  mfoldl merge_signed (location <$> h_receipts h) signed = Ok (h_tx_index h) ->
  mfoldl merge_signed (location <$> h_receipts (foldl (record_tx height) h l)) signed =
  Ok (h_tx_index (foldl (record_tx height) h l)).
Proof.
  revert h. induction l as [|[i [tx r]] l IH]; intros h Hf Hm; [done|].
  apply Forall_cons in Hf as [[Hn Hloc] Hf]. cbn [foldl]. apply IH; [done|]. cbn in *.
  rewrite fmap_insert, Hloc. by apply merge_signed_insert.
Qed.

Lemma sealed_index txs proof_hash s blk receipts s' ws root context signed :
  sealed txs proof_hash s blk receipts s' ws root context ->
  Forall (fun tx => tx_hash tx ∉ signed.*1) txs -> index_ok signed s -> index_ok signed s'.
Proof.
  intros Hsd Hf Hi. unfold index_ok in *. rewrite (sealed_history _ _ _ _ _ _ _ _ _ Hsd). unfold record_block.
  apply record_txs_index; [|done]. apply Forall_lookup. intros i [j [tx r]] Hl.
  rewrite list_lookup_imap in Hl. apply fmap_Some in Hl as ([tx' r'] & Hz & [= -> -> ->]).
  apply lookup_zip_with_Some in Hz as (tx & r & [= -> ->] & Htx & Hr). cbn. split.
  - by eapply Forall_lookup in Hf.
  - destruct (sealed_receipts _ _ _ _ _ _ _ _ _ Hsd _ _ Hr) as [Hh Hx]. unfold location. by rewrite Hh, Hx.
Qed.

(** ** A run and the prefixes of its log *)

Section Run.
Context (signed : list (Hash256 * (Z * Z))) (h0 : Z).

(** A request of the consensus: the block is bound to a decision, and its transactions are
    not among the retained ones. *)
Definition fresh_request (r : BlockRequest) : Prop :=
  rq_proof_hash r <> 0 /\ Forall (fun tx => tx_hash tx ∉ signed.*1) (rq_transactions r).

(** A node reopened at [s] with the log of [s]. *)
Record resumes (s t : StateDB) : Prop := {
  rs_durable : durable t = durable s;
  rs_wal : db_wal t = db_wal s;
  rs_node : node_ok t;
}.

(** The states after each block of a run; a refused request is passed over, and the node
    may be reopened between two requests. *)
Inductive sealed_run : StateDB -> list StateDB -> Prop :=
| run_done s : sealed_run s []
| run_block s r result s1 states :
    fresh_request r -> run_request r s = (Ok result, s1) -> sealed_run s1 states ->
    sealed_run s (s1 :: states)
| run_refused s r e s1 states :
    run_request r s = (Err e, s1) -> sealed_run s1 states -> sealed_run s states
| run_reopened s t states : resumes s t -> sealed_run t states -> sealed_run s states.

Definition final (s : StateDB) (states : list StateDB) : StateDB := default s (last states).

Record good (s : StateDB) : Prop := {
  gd_node : node_ok s;
  gd_above : h0 <= db_height s;
  gd_linked : linked h0 s;
  gd_index : index_ok signed s;
}.

Lemma good_resumes s t : good s -> resumes s t -> good t.
Proof.
  intros [Hk Ha Hl Hi] [Hd _ Hn]. split; [done|by rewrite (durable_height _ _ Hd)|..].
  - unfold linked in *. by rewrite (durable_height _ _ Hd), (durable_history _ _ Hd).
  - unfold index_ok in *. by rewrite (durable_history _ _ Hd).
Qed.

(** What a restart needs to know of a block that the run seals. *)
Definition segment (s s1 : StateDB) (ops : list WalOp) (root : Hash256) : Prop :=
  exists r blk receipts ws context,
    sealed (rq_transactions r) (rq_proof_hash r) s blk receipts s1 ws root context /\
    ops = open_ops s1 blk (rq_transactions r) receipts ws.

Lemma good_block s r blk receipts s1 :
  good s -> fresh_request r -> run_request r s = (Ok (blk, receipts), s1) ->
  good s1 /\ exists ops root, segment s s1 ops root /\
    db_wal s1 = db_wal s ++ entries_at (db_height s1) ops ++ [mkWalEntry (Checkpoint root) (db_height s1)].
Proof.
  intros [Hk Ha Hl Hi] [Hpf Hf] Hr. destruct (run_request_sealed _ _ _ _ _ Hk Hr) as (ws & root & context & Hsd).
  pose proof (sealed_height _ _ _ _ _ _ _ _ _ Hsd) as Hh. split.
  - split; [by eapply sealed_node|lia|by eapply sealed_linked|by eapply sealed_index].
  - exists (open_ops s1 blk (rq_transactions r) receipts ws), root. split; [by exists r, blk, receipts, ws, context|].
    rewrite <- segment_ops. apply Hsd.
Qed.

Lemma run_wal s states : good s -> sealed_run s states -> exists log, db_wal (final s states) = db_wal s ++ log.
Proof.
  intros Hg Hrun.
  induction Hrun as [s|s r [blk receipts] s1 states Hf Hr Hrun IH|s r e s1 states Hr Hrun IH|s t states Hrs Hrun IH].
  - exists []. by rewrite app_nil_r.
  - destruct (good_block _ _ _ _ _ Hg Hf Hr) as (Hg1 & ops & root & _ & Hw). destruct (IH Hg1) as [log Hlog].
    unfold final in *. rewrite last_cons. eexists. etrans; [|rewrite app_assoc; by rewrite <- Hw].
    by destruct (last states).
  - assert (s1 = s) as -> by (eapply refused_block; [..|exact Hr]; apply Hg). by apply IH.
  - destruct (IH (good_resumes _ _ Hg Hrs)) as [log Hlog]. exists log. rewrite <- (rs_wal _ _ Hrs), <- Hlog.
    unfold final. by destruct (last states); [|symmetry; apply Hrs].
Qed.

Definition is_checkpoint (e : WalEntry) : bool := negb (no_checkpoint (entry_op e)).

Definition checkpoints (l : list WalEntry) : nat := length (filter (fun e => is_checkpoint e = true) l).

Lemma checkpoints_open h ops l :
  forallb no_checkpoint ops = true -> checkpoints (entries_at h ops ++ l) = checkpoints l.
Proof.
  intros Hn. unfold checkpoints. rewrite filter_app. replace (filter _ (entries_at h ops)) with (@nil WalEntry); [done|].
  induction ops as [|op ops IH]; [done|]. apply andb_true_iff in Hn as [Hop Hn].
  change (entries_at h (op :: ops)) with (mkWalEntry op h :: entries_at h ops).
  rewrite filter_cons_False; [by apply IH|]. unfold is_checkpoint. cbn. by rewrite Hop.
Qed.

(** Every state of a run is good, and its log holds a checkpoint for each block so far. *)
Lemma run_states s states k sk :
  good s -> sealed_run s states -> (s :: states) !! k = Some sk ->
  good sk /\ exists log, db_wal sk = db_wal s ++ log /\ checkpoints log = k /\
    db_wal sk `prefix_of` db_wal (final s states).
Proof.
  intros Hg Hrun. revert k sk.
  induction Hrun as [s|s r [blk receipts] s1 states Hf Hr Hrun IH|s r e s1 states Hr Hrun IH|s t states Hrs Hrun IH]; intros k sk Hk.
  - destruct k as [|k]; [|done]. injection Hk as <-. split; [done|]. exists []. by rewrite app_nil_r.
  - destruct (good_block _ _ _ _ _ Hg Hf Hr) as (Hg1 & ops & root & Hseg & Hw).
    assert (final s (s1 :: states) = final s1 states) as Hfin by (unfold final; rewrite last_cons; by destruct (last states)).
    destruct k as [|k].
    + injection Hk as <-. split; [done|]. exists []. rewrite app_nil_r. split_and!; [done..|]. rewrite Hfin.
      destruct (run_wal _ _ Hg1 Hrun) as [log ->]. rewrite Hw, <- app_assoc. by apply prefix_app_r.
    + destruct (IH Hg1 k sk Hk) as (Hgk & log & Hl & Hc & Hp). split; [done|]. rewrite Hfin.
      eexists. split_and!; [rewrite Hl, Hw, <- app_assoc; done| |done].
      destruct Hseg as (r' & blk' & receipts' & ws & context & _ & ->). rewrite <- app_assoc.
      rewrite checkpoints_open by apply open_no_checkpoint. 
      change (S (checkpoints log) = S k). by rewrite Hc.
  - assert (s1 = s) as -> by (eapply refused_block; [..|exact Hr]; apply Hg). by apply IH.
  - assert (db_wal (final t states) = db_wal (final s states)) as Hfin
      by (unfold final; destruct (last states); [done|apply Hrs]).
    rewrite <- Hfin, <- (rs_wal _ _ Hrs). pose proof (good_resumes _ _ Hg Hrs) as Hgt. destruct k as [|k]; [|by apply IH].
    injection Hk as <-. split; [done|]. rewrite <- (rs_wal _ _ Hrs).
    destruct (IH Hgt 0%nat t eq_refl) as (_ & log & H). by exists log.
Qed.

(** What the entries [p] after the state [s] restart to: [l1] of them replay to [sk]. *)
Record recovers (s : StateDB) (p l1 : list WalEntry) (sk : StateDB) : Prop := {
  rv_prefix : l1 `prefix_of` p;
  rv_scan : forall n c boundary accepted, at_boundary c s boundary accepted ->
    let c' := scan_log h0 n c p in
    sc_error c' = None /\ sc_first_gap c' = None /\ sc_expected c' = db_height sk + 1 /\
    (l1 = [] /\ durable sk = durable s /\ sc_latest_boundary c' = boundary /\ sc_accepted c' = accepted \/
     l1 <> [] /\ sc_accepted c' = (n + length l1)%nat /\
     exists root, known_root (Some root) sk /\ sc_latest_boundary c' = Some (db_height sk, root));
  rv_replay : forall t, durable t = durable s ->
    exists t', mfoldl replay_checked t l1 = Ok t' /\ durable t' = durable sk;
  rv_wal : db_wal sk = db_wal s ++ l1;
}.

Lemma recovers_durable s t p l1 sk :
  durable t = durable s -> db_wal t = db_wal s -> recovers t p l1 sk -> recovers s p l1 sk.
Proof.
  intros Hd Hw [Hp Hs Hr Hl]. split; [done| | |by rewrite <- Hw].
  - intros n c b a [He Hg Hpr Hx Hb Ha]. rewrite <- Hd. rewrite <- (durable_height _ _ Hd) in *.
    by apply (Hs n c b a).
  - intros t' Ht'. apply Hr. by rewrite Hd.
Qed.

Lemma recovers_partial s s1 ops root p :
  good s -> segment s s1 ops root -> p `prefix_of` entries_at (db_height s1) ops ->
  recovers s p [] s /\ checkpoints p = 0%nat.
Proof.
  intros Hg (r & blk & receipts & ws & context & Hsd & ->) [q Hp].
  set (ops := open_ops _ _ _ _ _) in *.
  assert (p = entries_at (db_height s1) (take (length p) ops)) as Hpe.
  { unfold entries_at in *. rewrite fmap_take, Hp, take_app_length. done. }
  set (ops' := take (length p) ops) in *. assert (ops' `prefix_of` ops) as Hpre by apply prefix_take.
  clearbody ops'. subst p. split.
  - split; [apply prefix_nil| |intros t Ht; by exists t|by rewrite app_nil_r].
    intros n c b a Hc. destruct (scan_partial _ _ _ _ _ _ _ _ _ h0 n c b a ops' Hsd Hc (gd_above s Hg) Hpre)
      as (He & Hgp & Hx & Hb & Ha). cbn zeta. split_and!; [done..|]. by left.
  - rewrite <- (app_nil_r (entries_at _ _)). apply checkpoints_open. destruct Hpre as [q' Hq].
    pose proof (open_no_checkpoint s1 blk (rq_transactions r) receipts ws) as Hn. fold ops in Hn.
    rewrite Hq, forallb_app in Hn. by apply andb_true_iff in Hn as [? _].
Qed.

Lemma recovers_segment s s1 ops root p l1 sk :
  good s -> segment s s1 ops root -> db_height s1 < u64_max -> recovers s1 p l1 sk ->
  let seg := entries_at (db_height s1) ops ++ [mkWalEntry (Checkpoint root) (db_height s1)] in
  recovers s (seg ++ p) (seg ++ l1) sk /\ checkpoints (seg ++ p) = S (checkpoints p).
Proof.
  intros Hg (r & blk & receipts & ws & context & Hsd & ->) Hmax [Hp Hs Hr Hl] seg.
  assert (length seg = length (open_ops s1 blk (rq_transactions r) receipts ws) + 1)%nat as Hlen.
  { unfold seg, entries_at. rewrite length_app, length_fmap. done. }
  assert (seg ++ l1 <> []) as Hne by (unfold seg; by destruct (entries_at _ _)). split.
  - split; [by apply prefix_app| | |].
    3: { rewrite Hl, (sealed_wal _ _ _ _ _ _ _ _ _ Hsd), segment_ops, <- app_assoc. done. }
    + intros n c b a Hc. cbn zeta. rewrite scan_log_app.
      pose proof (scan_segment _ _ _ _ _ _ _ _ _ h0 n c b a Hsd Hc (gd_above s Hg) Hmax) as Hb. fold seg in Hb.
      specialize (Hs (n + length seg)%nat _ _ _ Hb) as (He & Hgp & Hx & Hcase). split_and!; [done..|]. right.
      split; [done|]. rewrite length_app, Nat.add_assoc. destruct Hcase as [(-> & Hd & -> & ->)|(_ & -> & Hroot)]; [|done].
      split; [rewrite Hlen; cbn; lia|]. exists root. rewrite (durable_height _ _ Hd). split; [|done].
      apply (known_root_durable _ _ _ Hd). exists context. by eapply sealed_known_root.
    + intros t Ht. pose proof (nk_above s (gd_node s Hg)) as Hnone.
      destruct (checked_segment _ _ _ _ _ _ _ _ _ t Hsd) as (t1 & Ht1 & Hd1); [|done|].
      { apply Hnone. rewrite (sealed_height _ _ _ _ _ _ _ _ _ Hsd). lia. }
      rewrite mfoldl_app. fold seg in Ht1. rewrite Ht1. by apply Hr.
  - unfold seg. rewrite <- app_assoc. by rewrite checkpoints_open by apply open_no_checkpoint.
Qed.

Lemma run_prefix s states log p :
  good s -> sealed_run s states -> Forall (fun s' => db_height s' < u64_max) states ->
  db_wal (final s states) = db_wal s ++ log -> p `prefix_of` log ->
  exists l1 sk sk', recovers s p l1 sk /\ good sk /\
    (s :: states) !! checkpoints p = Some sk' /\ durable sk = durable sk' /\ db_wal sk = db_wal sk'.
Proof.
  intros Hg Hrun. revert log p.
  induction Hrun as [s|s r [blk receipts] s1 states Hf Hr Hrun IH|s r e s1 states Hr Hrun IH|s t states Hrs Hrun IH];
    intros log p Hmax Hlog Hp.
  - assert (log = []) as -> by (apply (app_inv_head (db_wal s)); by rewrite app_nil_r).
    apply prefix_nil_inv in Hp as ->. exists [], s, s. split_and!; [|done..].
    split; [done| |intros t Ht; by exists t|by rewrite app_nil_r]. intros n c b a [He Hgp Hpr Hx Hb Ha]. cbn. split_and!; [done..|]. by left.
  - destruct (good_block _ _ _ _ _ Hg Hf Hr) as (Hg1 & ops & root & Hseg & Hw).
    destruct (run_wal _ _ Hg1 Hrun) as [log' Hlog']. apply Forall_cons in Hmax as [Hm Hmax].
    assert (log = (entries_at (db_height s1) ops ++ [mkWalEntry (Checkpoint root) (db_height s1)]) ++ log') as ->.
    { apply (app_inv_head (db_wal s)). rewrite <- Hlog. unfold final in *. rewrite last_cons, app_assoc, <- Hw, <- Hlog'.
      by destruct (last states). }
    rewrite <- app_assoc in Hp. apply prefix_app_split in Hp as [Hp|([|e q] & -> & Hq)].
    + destruct (recovers_partial _ _ _ _ _ Hg Hseg Hp) as [Hrc ->]. by exists [], s, s.
    + rewrite app_nil_r. destruct (recovers_partial _ _ _ _ _ Hg Hseg (reflexivity _)) as [Hrc ->]. by exists [], s, s.
    + apply prefix_cons_inv_1 in Hq as He. apply prefix_cons_inv_2 in Hq. subst e.
      destruct (IH Hg1 log' q) as (l1 & sk & sk' & Hrc & Hgk & Hsk & Heq); [done..|].
      destruct (recovers_segment _ _ _ _ _ _ _ Hg Hseg Hm Hrc) as [Hrc' Hcp].
      rewrite <- app_assoc in Hrc', Hcp. cbn [app] in Hrc', Hcp. rewrite Hcp. by eexists _, sk, sk'.
  - assert (s1 = s) as -> by (eapply refused_block; [..|exact Hr]; apply Hg). by apply (IH Hg log).
  - destruct Hrs as [Hd Hw Hn]. destruct (IH (good_resumes _ _ Hg (Build_resumes _ _ Hd Hw Hn)) log p)
      as (l1 & sk & sk' & Hrc & Hgk & Hsk & Hdk & Hwk); [done| |done|].
    { rewrite Hw, <- Hlog. unfold final. by destruct (last states). }
    exists l1, sk. destruct (checkpoints p) as [|k]; [exists s; injection Hsk as <-|exists sk'];
      split_and!; try done; try (by eapply recovers_durable); congruence.
Qed.

(** The last steps of a restart, over a replayed state. *)
Lemma reindexed s t :
  index_ok signed s -> durable t = durable s ->
  exists t', rebuild_recovery_transaction_indexes signed t = Ok t' /\ durable t' = durable s /\ flags t' = flags t.
Proof.
  intros Hi Hd. unfold rebuild_recovery_transaction_indexes. rewrite (durable_history _ _ Hd), Hi.
  eexists. split_and!; [done| |done]. rewrite <- Hd. unfold durable, sections. cbn. rewrite (durable_history _ _ Hd).
  by destruct (db_history s).
Qed.

Lemma verified_links s t plan :
  good s -> durable t = durable s ->
  (plan_accepted plan = 0%nat \/
   exists root, known_root (Some root) s /\ plan_last_checkpoint plan = Some (db_height s, root)) ->
  verify_recovery_restart plan h0 t = Ok t.
Proof.
  intros Hg Hd Hplan. unfold verify_recovery_restart.
  assert ((if bool_decide (plan_accepted plan = 0%nat) then Ok t
           else boundary ← ok_or (plan_last_checkpoint plan)
                      (PersistenceError "post-recovery WAL has no complete block checkpoint");
                _ ← require (bool_decide (db_height t = boundary.1))
                      (PersistenceError "post-recovery WAL is not block-atomic");
                actual ← take_root t;
                _ ← require (bool_decide (actual.1 = boundary.2))
                      (PersistenceError "post-recovery WAL state root mismatch");
                Ok actual.2) = Ok t) as ->.
  { destruct Hplan as [->|(root & (context & Hc & Hroot) & ->)]; [done|]. case_bool_decide; [done|].
    cbn [ok_or mbind outcome_bind fst]. rewrite bool_decide_true by by apply durable_height.
    cbn [require mbind outcome_bind]. rewrite (take_root_bound t context), (root_inputs_root s), Hroot.
    - cbn [mbind outcome_bind fst snd]. by rewrite bool_decide_true.
    - by apply durable_root_inputs.
    - rewrite <- Hc. by apply durable_context. }
  cbn [mbind outcome_bind]. rewrite (durable_history _ _ Hd), (durable_height _ _ Hd).
  destruct (proj1 (gd_linked s Hg)) as [first Hfirst]. pose proof (gd_above s Hg).
  rewrite Hfirst. cbn [ok_or mbind outcome_bind].
  by rewrite (check_links_linked h0 s) by (done || apply gd_linked, Hg || lia).
Qed.

Lemma planned s p l1 sk :
  db_height s = h0 -> db_height s < u64_max -> db_height sk < u64_max -> 0 <= h0 -> recovers s p l1 sk ->
  exists plan, plan_post_recovery_wal p h0 = Ok plan /\ plan_accepted plan = length l1 /\
    (plan_accepted plan = 0%nat \/
     exists root, known_root (Some root) sk /\ plan_last_checkpoint plan = Some (db_height sk, root)).
Proof.
  intros Hh Hm Hmk H0 [_ Hscan _ _]. unfold plan_post_recovery_wal.
  rewrite (proj2 (checked_add_Some _ _ (h0 + 1))) by lia. cbn [ok_or mbind outcome_bind].
  unfold plan_of_scan. destruct (Hscan 0%nat (scan_start h0 (h0 + 1)) None 0%nat)
    as (-> & -> & Hx & [(-> & _ & -> & _)|(Hne & Hacc & root & Hroot & Hb)]).
  { split; cbn; try done; lia. }
  - cbn [mbind outcome_bind]. eexists. split; [done|]. split; [done|]. by left.
  - rewrite Hb. cbn [mbind outcome_bind]. rewrite bool_decide_true by done. cbn [require mbind outcome_bind].
    rewrite Hx, (proj2 (checked_add_Some _ _ (db_height sk + 1))) by lia. cbn [ok_or mbind outcome_bind].
    rewrite bool_decide_true by done. cbn [require mbind outcome_bind]. eexists. split; [done|]. cbn.
    split; [done|]. right. by exists root.
Qed.

(** The replay of what the plan keeps, and the last checks. *)
Lemma recovers_restart base s p l1 sk :
  db_height s = h0 -> db_height s < u64_max -> db_height sk < u64_max -> good s -> good sk ->
  durable base = durable s -> recovers s p l1 sk ->
  exists plan t, plan_post_recovery_wal p h0 = Ok plan /\ plan_accepted plan = length l1 /\
    (st ← apply_verified_recovery_wal base l1; finish_restart plan h0 signed st.2) = Ok t /\
    durable t = durable sk /\ flags t = flags base.
Proof.
  intros Hh Hm Hmk Hg Hgk Hd Hrc. assert (0 <= h0) as H0 by (rewrite <- Hh; apply Hg).
  destruct (planned _ _ _ _ Hh Hm Hmk H0 Hrc) as (plan & Hplan & Htake & Hb).
  destruct (rv_replay _ _ _ _ Hrc base Hd) as (t1 & Hr & Hd1).
  assert (bound base) as Hbd.
  { destruct (v3_context s) as [context Hc]; [apply Hg..|]. exists context. rewrite <- Hc. by apply durable_context. }
  destruct (reindexed sk t1 (gd_index sk Hgk) Hd1) as (t & Ht & Hdt & Hft).
  exists plan, t. split_and!; [done..| |done|].
  - pose proof (replay_verified_checked None base l1 Hbd I) as Hv. rewrite Hr in Hv.
    fold (apply_verified_recovery_wal base l1) in Hv.
    destruct (apply_verified_recovery_wal base l1) as [[root t1']|x|]; [|done..].
    injection Hv as ->. unfold finish_restart. cbn [mbind outcome_bind snd]. rewrite Ht.
    by eapply verified_links.
  - rewrite Hft. by eapply replay_checked_flags.
Qed.

(** The run from the state of a signed checkpoint, stopped with [p] left of its log. *)
Lemma run_restarts base s0 states p :
  db_height s0 = h0 -> node_ok s0 -> index_ok signed s0 -> durable base = durable s0 -> db_wal s0 = [] ->
  sealed_run s0 states -> Forall (fun s => db_height s < u64_max) (s0 :: states) ->
  p `prefix_of` db_wal (final s0 states) ->
  exists sk plan t, (s0 :: states) !! checkpoints p = Some sk /\
    plan_post_recovery_wal p h0 = Ok plan /\ db_wal sk `prefix_of` p /\
    plan_accepted plan = length (db_wal sk) /\
    (st ← apply_verified_recovery_wal base (db_wal sk); finish_restart plan h0 signed st.2) = Ok t /\
    durable t = durable sk /\ flags t = flags base.
Proof.
  intros Hh Hnode Hindex Hbase Hwal Hrun Hheights Hp.
  assert (good s0) as Hg by (split; [done|lia| |done]; split; [rewrite <- Hh; apply Hnode|lia]).
  apply Forall_cons in Hheights as Hhs. destruct Hhs as [Hm Hms].
  destruct (run_prefix s0 states (db_wal (final s0 states)) p) as (l1 & sk & sk' & Hrc & Hgk & Hsk & Hdk & Hwk); try done.
  { by rewrite Hwal. }
  destruct (recovers_restart base s0 p l1 sk) as (plan & t & Hplan & Htake & Ht & Hd & Hf); try done.
  { rewrite (durable_height _ _ Hdk). rewrite Forall_lookup in Hheights. by eapply Hheights. }
  assert (db_wal sk' = l1) as Hl by (rewrite <- Hwk, (rv_wal _ _ _ _ Hrc), Hwal; done).
  exists sk', plan, t. rewrite Hl. split_and!; try done; [apply Hrc|congruence].
Qed.

End Run.

(** Crash recovery.  A protocol-3 node starts from the state [s0] of a signed
    checkpoint with an empty log and seals blocks, refusing some requests and reopening now
    and then; it stops after any number of log records, with [p] what is left of the log.
    Reopening over the same checkpoint succeeds, and brings back exactly the accounts,
    sections, height, context and history of the state after the last block whose
    checkpoint record is in [p]: a half written block is dropped, a checkpointed one is
    never lost. *)
Theorem restart_recovers_sealed_block (signed : list (Hash256 * (Z * Z))) (base s0 : StateDB)
    (states : list StateDB) (p : list WalEntry)
    (Hnode : node_ok s0) (Hindex : index_ok signed s0) (Hbase : durable base = durable s0)
    (Hwal : db_wal s0 = []) (Hrun : sealed_run signed s0 states)
    (Hheights : Forall (fun s => db_height s < u64_max) (s0 :: states))
    (Hprefix : p `prefix_of` db_wal (final s0 states)) :
  exists sk t, (s0 :: states) !! checkpoints p = Some sk /\
    restart base signed p = Ok t /\ durable t = durable sk.
Proof.
  destruct (run_restarts signed (db_height s0) base s0 states p) as (sk & plan & t & Hsk & Hplan & [q Hq] & Hacc & Ht & Hd & _);
    try done.
  exists sk, t. split_and!; [done| |done]. unfold restart. rewrite (durable_height _ _ Hbase), Hplan.
  cbn [mbind outcome_bind]. by rewrite Hacc, Hq, take_app_length.
Qed.

End Restart.

(** ** Witnesses *)

Module DemoRestart.
Import LedgerDemo SealingDemo.

(** A block of one transfer over the transition state. *)
Definition request : BlockRequest := mkRequest [v3_transfer] (user 10) 7 9.

Definition sealed_state : StateDB := (run_request request activated).2.

Definition sealed_at : option Z :=
  match run_request request activated with (Ok _, s) => Some (db_height s) | _ => None end.

Lemma sealed_at_101 : sealed_at = Some 101.
Proof. by vm_compute. Qed.

Lemma activated_node : node_ok activated.
Proof.
  split; try (by vm_compute); [by eexists|]. intros h Hh.
  change (({[100 := transition]} : gmap Z Block) !! h = None). apply lookup_singleton_ne. cbn in Hh. lia.
Qed.

Lemma demo_sealed_run : sealed_run [] activated [sealed_state] /\ db_height sealed_state = 101.
Proof.
  pose proof sealed_at_101 as Ha. unfold sealed_at in Ha. unfold sealed_state.
  destruct (run_request request activated) as [[result|e|] s1] eqn:Hr; [|done..]. split; [|by injection Ha].
  eapply (run_block _ _ request result); [split; [done|]|done|constructor].
  repeat constructor. apply not_elem_of_nil.
Qed.

(** Stopped after three records of the block. *)
Definition torn_log : list WalEntry := take 3 (db_wal sealed_state).

End DemoRestart.

Section Witnesses.
Import LedgerDemo SealingDemo DemoRestart.

Lemma restart_recovers_sealed_block_witness :
  exists sk t, [activated; sealed_state] !! checkpoints torn_log = Some sk /\
    restart activated [] torn_log = Ok t /\ durable t = durable sk.
Proof.
  destruct demo_sealed_run as [Hrun Hh].
  apply (restart_recovers_sealed_block [] activated activated [sealed_state]);
    [apply activated_node|done|done|done|exact Hrun| |apply prefix_take].
  apply Forall_cons. split; [done|]. apply Forall_singleton. by rewrite Hh.
Defined.

End Witnesses.
