(* ===== verification/WalFile.v ===== *)
(** * The file of the write-ahead log (crates/arc-state/src/wal.rs)

    A record is written as a frame: its length in four bytes, then its encoding with a
    checksum and a sequence number.  Three readers take a file apart again: the one that
    classifies a torn tail for the recovery layer, the strict one, and the one of the legacy
    start that stops at the first frame it cannot read.  The encoding and the checksum are
    parameters.  Segments, the writer thread and failures of the file system are not
    modelled: the file is the list of its bytes. *)

From S2P Require Import Prelude Crypto Merkle Validators Blocks Ledger Tier1 Contracts Executor LedgerDemo.

Definition MAX_WAL_ENTRY_BYTES : Z := 256 * 1024 * 1024.

(** A record as the file holds it. *)
Record WalRecord := mkRecord {
  rec_height : Z;
  rec_sequence : Z;
  rec_op : WalOp;
  rec_checksum : Z;
}.

Definition entry_of (r : WalRecord) : WalEntry := mkWalEntry (rec_op r) (rec_height r).

(** bincode of a record and of what its checksum covers, and CRC-32. *)
Class WalCodec := {
  bincode_record : WalRecord -> option (list Z);
  bincode_read_record : list Z -> option WalRecord;
  bincode_covered : Z -> Z -> WalOp -> option (list Z);
  crc32 : list Z -> Z;
}.

(** bincode writes at least a byte, and reads a record back. *)
Class WalCodecLaw `{WalCodec} : Prop :=
  record_reads_back r data : bincode_record r = Some data ->
    data <> [] /\ (Z.of_nat (length data) <= MAX_WAL_ENTRY_BYTES -> bincode_read_record data = Some r).

Inductive RepairableWalTail := TruncatedFrameLength | TruncatedFramePayload.

#[global] Instance RepairableWalTail_eq_dec : EqDecision RepairableWalTail.
Proof. solve_decision. Defined.

(** The frame at the head of the bytes that are left. *)
Inductive FrameRead :=
| Torn (tail : RepairableWalTail)
| Whole (r : WalRecord) (rest : list Z) (frame_end : Z).

Section WalFile.
Context `{CR : Crypto, WC : WalCodec}.

(** ** Writing *)

Definition write_entry (r : WalRecord) : outcome string (list Z) :=
  data ← ok_or (bincode_record r) "entry serialization";
  _ ← require (bool_decide (Z.of_nat (length data) <= MAX_WAL_ENTRY_BYTES)) "entry framing";
  _ ← require (bool_decide (Z.of_nat (length data) <= u32_max)) "entry framing";
  Ok (to_le_bytes 4 (Z.of_nat (length data)) ++ data).

Definition write_pending_entry (block_height sequence : Z) (op : WalOp)
    : outcome string (WalRecord * list Z) :=
  payload ← ok_or (bincode_covered block_height sequence op) "checksum serialization";
  let r := mkRecord block_height sequence op (crc32 payload) in
  frame ← write_entry r;
  Ok (r, frame).

(** The entries of a log from the sequence number [sequence] on, with their frames. *)
Fixpoint write_log (sequence : Z) (entries : list WalEntry) : outcome string (list (WalRecord * list Z)) :=
  match entries with
  | [] => Ok []
  | e :: entries' =>
      next ← ok_or (checked_add sequence 1) "sequence assignment";
      frame ← write_pending_entry (entry_height e) sequence (entry_op e);
      frames ← write_log next entries';
      Ok (frame :: frames)
  end.

Definition file_of (frames : list (WalRecord * list Z)) : list Z := mjoin frames.*2.

(** ** Reading *)

Section Reading.
Context {E : Type} (io : string -> E).

Definition next_frame (original_bytes offset : Z) (rest : list Z) : outcome E FrameRead :=
  if bool_decide (length rest < 4)%nat then Ok (Torn TruncatedFrameLength)
  else
    let len := from_le_bytes (take 4 rest) in
    _ ← require (negb (bool_decide (len = 0) || bool_decide (MAX_WAL_ENTRY_BYTES < len)))
          (io "invalid WAL frame length");
    data_start ← ok_or (checked_add offset 4) (io "WAL byte offset overflow");
    frame_end ← ok_or (checked_add data_start len) (io "WAL byte offset overflow");
    let data := take (Z.to_nat len) (drop 4 rest) in
    if bool_decide (original_bytes < frame_end) || bool_decide (Z.of_nat (length data) < len)
    then Ok (Torn TruncatedFramePayload)
    else
      r ← ok_or (bincode_read_record data) (io "invalid WAL entry encoding");
      Ok (Whole r (drop (Z.to_nat len) (drop 4 rest)) frame_end).

Definition check_record (r : WalRecord) : outcome E unit :=
  payload ← ok_or (bincode_covered (rec_height r) (rec_sequence r) (rec_op r)) (io "serialization");
  require (bool_decide (rec_checksum r = crc32 payload)) (io "WAL checksum mismatch").

(** The loop of [visit_repairable_wal_prefix]: every whole record is shown to [visitor] with
    the offset where its frame ends. *)
Fixpoint visit_frames {A} (visitor : A -> WalRecord -> Z -> outcome E A) (fuel : nat) (original_bytes : Z)
    (rest : list Z) (offset expected_sequence entry_count : Z) (st : A)
    : outcome E (A * (Z * option RepairableWalTail)) :=
  match fuel with
  | O => Panic
  | S fuel' =>
      match rest with
      | [] =>
          _ ← require (bool_decide (offset = original_bytes))
                (io "WAL parsed byte count differs from file size");
          Ok (st, (entry_count, None))
      | _ :: _ =>
          frame ← next_frame original_bytes offset rest;
          match frame with
          | Torn tail => Ok (st, (entry_count, Some tail))
          | Whole r rest' frame_end =>
              _ ← check_record r;
              _ ← require (bool_decide (rec_sequence r = expected_sequence)) (io "WAL sequence gap");
              expected_sequence' ← ok_or (checked_add expected_sequence 1) (io "WAL sequence overflow");
              entry_count' ← ok_or (checked_add entry_count 1) (io "WAL entry count overflow");
              st' ← visitor st r frame_end;
              visit_frames visitor fuel' original_bytes rest' frame_end expected_sequence' entry_count' st'
          end
      end
  end.

Record RepairableWalSummary := mkSummary {
  sum_entry_count : Z;
  sum_original_bytes : Z;
  sum_original_hash : Hash256;
  sum_torn_tail : option RepairableWalTail;
}.

Definition visit_repairable_wal_prefix {A} (visitor : A -> WalRecord -> Z -> outcome E A)
    (file : list Z) (st : A) : outcome E (A * RepairableWalSummary) :=
  let original_bytes := Z.of_nat (length file) in
  res ← visit_frames visitor (S (length file)) original_bytes file 0 0 0 st;
  Ok (res.1, mkSummary res.2.1 original_bytes (blake3_hash file) res.2.2).

(** The collecting reader: the records with the ends of their frames. *)
Definition read_repairable_wal_prefix (file : list Z)
    : outcome E (list (WalRecord * Z) * RepairableWalSummary) :=
  visit_repairable_wal_prefix (fun entries r frame_end => Ok (entries ++ [(r, frame_end)])) file [].

(** The strict reader of one segment, and the number it expects next. *)
Fixpoint read_strict_frames (fuel : nat) (original_bytes : Z) (rest : list Z) (offset : Z)
    (expected_sequence : option Z) : outcome E (list WalRecord) :=
  match fuel with
  | O => Panic
  | S fuel' =>
      match rest with
      | [] => Ok []
      | _ :: _ =>
          frame ← next_frame original_bytes offset rest;
          match frame with
          | Torn _ => Err (io "truncated WAL frame")
          | Whole r rest' frame_end =>
              _ ← check_record r;
              let expected := default (rec_sequence r) expected_sequence in
              _ ← require (bool_decide (rec_sequence r = expected)) (io "WAL sequence gap");
              next ← ok_or (checked_add expected 1) (io "WAL sequence overflow");
              entries ← read_strict_frames fuel' original_bytes rest' frame_end (Some next);
              Ok (r :: entries)
          end
      end
  end.

Definition read_wal_strict (file : list Z) : outcome E (list WalRecord) :=
  read_strict_frames (S (length file)) (Z.of_nat (length file)) file 0 (Some 0).

(** The reader of the legacy start: it stops at the first frame that it cannot read, and
    does not look at sequence numbers. *)
Fixpoint read_wal_frames (fuel : nat) (original_bytes : Z) (rest : list Z) (offset : Z) : list WalRecord :=
  match fuel, rest with
  | S fuel', _ :: _ =>
      match next_frame original_bytes offset rest with
      | Ok (Whole r rest' frame_end) =>
          let payload := default [] (bincode_covered (rec_height r) (rec_sequence r) (rec_op r)) in
          if bool_decide (rec_checksum r = crc32 payload)
          then r :: read_wal_frames fuel' original_bytes rest' frame_end
          else []
      | _ => []
      end
  | _, _ => []
  end.

Definition read_wal (file : list Z) : list WalRecord :=
  read_wal_frames (S (length file)) (Z.of_nat (length file)) file 0.

(** ** The frames of a written log *)

(** A frame that the readers take apart into its record. *)
Definition framed (fr : WalRecord * list Z) : Prop :=
  exists data, fr.2 = to_le_bytes 4 (Z.of_nat (length data)) ++ data /\ data <> [] /\
    Z.of_nat (length data) <= MAX_WAL_ENTRY_BYTES /\ bincode_read_record data = Some fr.1 /\
    exists payload, bincode_covered (rec_height fr.1) (rec_sequence fr.1) (rec_op fr.1) = Some payload /\
      rec_checksum fr.1 = crc32 payload.

(** The records from a sequence number on. *)
Fixpoint numbered (sequence : Z) (frames : list (WalRecord * list Z)) : Prop :=
  match frames with
  | [] => True
  | fr :: frames' => rec_sequence fr.1 = sequence /\ sequence + 1 <= u64_max /\ numbered (sequence + 1) frames'
  end.

(** The records with the ends of their frames. *)
Fixpoint frame_ends (offset : Z) (frames : list (WalRecord * list Z)) : list (WalRecord * Z) :=
  match frames with
  | [] => []
  | fr :: frames' => (fr.1, offset + Z.of_nat (length fr.2)) :: frame_ends (offset + Z.of_nat (length fr.2)) frames'
  end.

Lemma valid_length len :
  0 < len <= MAX_WAL_ENTRY_BYTES -> negb (bool_decide (len = 0) || bool_decide (MAX_WAL_ENTRY_BYTES < len)) = true.
Proof. intros [? ?]. by rewrite !bool_decide_false by lia. Qed.

Lemma next_frame_whole original offset fr q :
  framed fr -> 0 <= offset -> original = offset + Z.of_nat (length (fr.2 ++ q)) -> original <= u64_max ->
  next_frame original offset (fr.2 ++ q) = Ok (Whole fr.1 q (offset + Z.of_nat (length fr.2))).
Proof.
  intros (data & Hfr & Hne & Hmax & Hread & _) H0 Ho Hu. assert (data <> [] -> (0 < length data)%nat) as Hpos
    by (by destruct data; cbn; [|lia]). specialize (Hpos Hne).
  unfold next_frame. rewrite Hfr, <- app_assoc in *. rewrite !length_app, length_to_le_bytes in Ho.
  rewrite bool_decide_false by (rewrite !length_app, length_to_le_bytes; lia).
  rewrite (take_app_length' (to_le_bytes _ _)), (drop_app_length' (to_le_bytes _ _)) by (by rewrite length_to_le_bytes).
  rewrite from_to_le_bytes by (unfold MAX_WAL_ENTRY_BYTES in Hmax; cbn; lia).
  rewrite valid_length by lia. cbn [require mbind outcome_bind].
  rewrite (proj2 (checked_add_Some _ _ (offset + 4))) by lia. cbn [ok_or mbind outcome_bind].
  rewrite (proj2 (checked_add_Some _ _ (offset + 4 + Z.of_nat (length data)))) by lia. cbn [ok_or mbind outcome_bind].
  rewrite Nat2Z.id, take_app_length, drop_app_length, !bool_decide_false by lia. cbn [orb].
  rewrite Hread, length_app, length_to_le_bytes. cbn [ok_or mbind outcome_bind]. do 2 f_equal. lia.
Qed.

(** What is left of a frame that was not written to its end. *)
Lemma next_frame_torn original offset fr f :
  framed fr -> f `prefix_of` fr.2 -> f <> fr.2 -> 0 <= offset -> original = offset + Z.of_nat (length f) ->
  offset + Z.of_nat (length fr.2) <= u64_max ->
  exists tail, next_frame original offset f = Ok (Torn tail).
Proof.
  intros (data & Hfr & Hne & Hmax & _) Hp Hneq H0 Ho Hu. unfold next_frame.
  case_bool_decide as Hl; [by eexists|]. assert (0 < length data)%nat as Hpos by (destruct data; [done|cbn; lia]).
  rewrite Hfr, length_app, length_to_le_bytes in Hu.
  assert (exists d, f = to_le_bytes 4 (Z.of_nat (length data)) ++ d /\ (length d < length data)%nat) as (d & -> & Hd).
  { destruct Hp as [q Hq]. rewrite Hfr in Hq, Hneq. exists (drop 4 f).
    assert (take 4 f = to_le_bytes 4 (Z.of_nat (length data))) as Ht.
    { apply (f_equal (take 4)) in Hq. rewrite take_app_length', take_app_le in Hq by (rewrite ?length_to_le_bytes; lia). done. }
    split; [by rewrite <- Ht, take_drop|]. apply (f_equal length) in Hq as Hlen.
    rewrite !length_app, length_to_le_bytes in Hlen. rewrite length_drop.
    destruct (decide (length q = 0)%nat) as [->%nil_length_inv|]; [|lia]. by rewrite app_nil_r in Hq. }
  rewrite (take_app_length' (to_le_bytes _ _)), (drop_app_length' (to_le_bytes _ _)) by (by rewrite length_to_le_bytes).
  rewrite length_app, length_to_le_bytes in Ho.
  rewrite from_to_le_bytes by (unfold MAX_WAL_ENTRY_BYTES in Hmax; cbn; lia).
  rewrite valid_length by lia. cbn [require mbind outcome_bind].
  rewrite (proj2 (checked_add_Some _ _ (offset + 4))) by lia. cbn [ok_or mbind outcome_bind].
  rewrite (proj2 (checked_add_Some _ _ (offset + 4 + Z.of_nat (length data)))) by lia. cbn [ok_or mbind outcome_bind].
  rewrite bool_decide_true by lia. by eexists.
Qed.

Lemma check_framed fr : framed fr -> check_record fr.1 = Ok ().
Proof.
  intros (data & _ & _ & _ & _ & payload & Hp & Hc). unfold check_record. rewrite Hp. cbn [ok_or mbind outcome_bind].
  by rewrite bool_decide_true.
Qed.

Lemma file_of_cons fr frames : file_of (fr :: frames) = fr.2 ++ file_of frames.
Proof. done. Qed.

Lemma framed_nonempty fr q : framed fr -> fr.2 ++ q <> [].
Proof. intros (data & -> & Hne & _). by destruct data. Qed.

(** The loops run through whole frames. *)
Lemma visit_whole {A} (visitor : A -> WalRecord -> Z -> outcome E A) frames fuel original tail offset seq st :
  Forall framed frames -> numbered seq frames -> 0 <= offset ->
  original = offset + Z.of_nat (length (file_of frames ++ tail)) -> original <= u64_max ->
  visit_frames visitor (length frames + fuel) original (file_of frames ++ tail) offset seq seq st =
  (st' ← mfoldl (fun st e => visitor st e.1 e.2) st (frame_ends offset frames);
   visit_frames visitor fuel original tail (offset + Z.of_nat (length (file_of frames)))
     (seq + Z.of_nat (length frames)) (seq + Z.of_nat (length frames)) st').
Proof.
  revert offset seq st. induction frames as [|fr frames IH]; intros offset seq st Hf Hn H0 Ho Hu.
  { cbn [length frame_ends mfoldl mbind outcome_bind]. change (file_of []) with (@nil Z). cbn [length]. by rewrite !Z.add_0_r. }
  apply Forall_cons in Hf as [Hfr Hf]. destruct Hn as (Hs & Hsu & Hn). rewrite file_of_cons, <- app_assoc in *.
  cbn [length Nat.add visit_frames frame_ends mfoldl fst snd].
  pose proof (framed_nonempty fr (file_of frames ++ tail) Hfr) as Hne.
  destruct (fr.2 ++ file_of frames ++ tail) as [|b bytes] eqn:Hb; [done|]. rewrite <- Hb, next_frame_whole by (done || congruence).
  cbn [mbind outcome_bind]. rewrite (check_framed _ Hfr). cbn [mbind outcome_bind]. rewrite bool_decide_true by done.
  cbn [require mbind outcome_bind]. rewrite (proj2 (checked_add_Some _ _ (seq + 1))) by lia. cbn [ok_or mbind outcome_bind].
  destruct (visitor st fr.1 _) as [st1|x|]; [|done..]. cbn [mbind outcome_bind].
  rewrite <- Hb in Ho. rewrite length_app in Ho. rewrite IH; [|done|done|lia|lia|done].
  rewrite length_app. replace (seq + 1 + Z.of_nat (length frames)) with (seq + Z.of_nat (S (length frames))) by lia.
  by rewrite Nat2Z.inj_add, Z.add_assoc.
Qed.

Lemma strict_whole frames fuel original tail offset seq :
  Forall framed frames -> numbered seq frames -> 0 <= offset ->
  original = offset + Z.of_nat (length (file_of frames ++ tail)) -> original <= u64_max ->
  read_strict_frames (length frames + fuel) original (file_of frames ++ tail) offset (Some seq) =
  (l ← read_strict_frames fuel original tail (offset + Z.of_nat (length (file_of frames)))
         (Some (seq + Z.of_nat (length frames))); Ok (frames.*1 ++ l)).
Proof.
  revert offset seq. induction frames as [|fr frames IH]; intros offset seq Hf Hn H0 Ho Hu.
  { change (file_of []) with (@nil Z). cbn [length Nat.add fmap list_fmap app]. rewrite !Z.add_0_r.
    by destruct (read_strict_frames _ _ _ _ _). }
  apply Forall_cons in Hf as [Hfr Hf]. destruct Hn as (Hs & Hsu & Hn). rewrite file_of_cons, <- app_assoc in *.
  cbn [length Nat.add read_strict_frames]. pose proof (framed_nonempty fr (file_of frames ++ tail) Hfr) as Hne.
  destruct (fr.2 ++ file_of frames ++ tail) as [|b bytes] eqn:Hb; [done|]. rewrite <- Hb, next_frame_whole by (done || congruence).
  cbn [mbind outcome_bind]. rewrite (check_framed _ Hfr). cbn [mbind outcome_bind from_option id]. rewrite bool_decide_true by done.
  cbn [require mbind outcome_bind]. rewrite (proj2 (checked_add_Some _ _ (seq + 1))) by lia. cbn [ok_or mbind outcome_bind].
  rewrite <- Hb in Ho. rewrite length_app in Ho. rewrite IH; [|done|done|lia|lia|done].
  rewrite length_app. replace (seq + 1 + Z.of_nat (length frames)) with (seq + Z.of_nat (S (length frames))) by lia.
  rewrite Nat2Z.inj_add, Z.add_assoc. by destruct (read_strict_frames fuel _ _ _ _).
Qed.

Lemma read_whole frames fuel original tail offset :
  Forall framed frames -> 0 <= offset ->
  original = offset + Z.of_nat (length (file_of frames ++ tail)) -> original <= u64_max ->
  read_wal_frames (length frames + fuel) original (file_of frames ++ tail) offset =
  frames.*1 ++ read_wal_frames fuel original tail (offset + Z.of_nat (length (file_of frames))).
Proof.
  revert offset. induction frames as [|fr frames IH]; intros offset Hf H0 Ho Hu.
  { change (file_of []) with (@nil Z). cbn [length Nat.add fmap list_fmap app]. by rewrite Z.add_0_r. }
  apply Forall_cons in Hf as [Hfr Hf]. rewrite file_of_cons, <- app_assoc in *.
  cbn [length Nat.add read_wal_frames]. pose proof (framed_nonempty fr (file_of frames ++ tail) Hfr) as Hne.
  destruct (fr.2 ++ file_of frames ++ tail) as [|b bytes] eqn:Hb; [done|]. rewrite <- Hb, next_frame_whole by (done || congruence).
  destruct (Hfr) as (data & _ & _ & _ & _ & payload & Hp & Hc). rewrite Hp. cbn [from_option id]. rewrite bool_decide_true by done.
  rewrite <- Hb in Ho. rewrite length_app in Ho. rewrite IH; [|done|lia|lia|done].
  cbn [fmap list_fmap app]. by rewrite length_app, Nat2Z.inj_add, Z.add_assoc.
Qed.

(** ** A file cut anywhere *)

(** The first [n] frames are whole, and [tail] is what is left of the next one. *)
Record cut (frames : list (WalRecord * list Z)) (f : list Z) (n : nat) (tail : list Z) : Prop := {
  cut_file : f = file_of (take n frames) ++ tail;
  cut_count : (n <= length frames)%nat;
  cut_tail : tail = [] \/
    tail <> [] /\ exists fr, frames !! n = Some fr /\ tail `prefix_of` fr.2 /\ tail <> fr.2;
}.

Lemma cut_exists frames f : f `prefix_of` file_of frames -> exists n tail, cut frames f n tail.
Proof.
  revert f. induction frames as [|fr frames IH]; intros f Hp.
  { apply prefix_nil_inv in Hp as ->. exists 0%nat, []. split; [done|done|by left]. }
  rewrite file_of_cons in Hp. apply prefix_app_split in Hp as [Hp|(q & -> & Hq)].
  - destruct (decide (f = fr.2)) as [->|Hne].
    { exists 1%nat, []. split; [|cbn; lia|by left]. cbn [take]. by rewrite file_of_cons, !app_nil_r. }
    exists 0%nat, f. split; [done|cbn; lia|]. destruct f as [|b f]; [by left|]. right. split; [done|]. by exists fr.
  - destruct (IH q Hq) as (n & tail & [-> Hn Ht]). exists (S n), tail. split; [|cbn; lia|done].
    cbn [take]. by rewrite file_of_cons, app_assoc.
Qed.

Lemma file_of_app l1 l2 : file_of (l1 ++ l2) = file_of l1 ++ file_of l2.
Proof. unfold file_of. by rewrite fmap_app, join_app. Qed.

Lemma length_file_of frames : Forall framed frames -> (length frames <= length (file_of frames))%nat.
Proof.
  induction 1 as [|fr frames Hfr Hf IH]; [done|]. rewrite file_of_cons, length_app. cbn [length].
  pose proof (framed_nonempty fr [] Hfr) as Hne. rewrite app_nil_r in Hne. destruct fr.2; [done|cbn; lia].
Qed.

(** The bounds that the readers need on the whole frames of a cut file. *)
Lemma cut_bounds frames f n tail :
  Forall framed frames -> Z.of_nat (length (file_of frames)) <= u64_max -> cut frames f n tail ->
  Forall framed (take n frames) /\ length (take n frames) = n /\ (n <= length f)%nat /\
  Z.of_nat (length f) <= u64_max.
Proof.
  intros Hf Hu [-> Hn Ht]. assert (Forall framed (take n frames)) as Hft by by apply Forall_take.
  pose proof (length_file_of _ Hft) as Hl. rewrite length_take_le in Hl by done.
  split_and!; [done|by apply length_take_le|rewrite length_app; lia|].
  rewrite length_app. rewrite <- (take_drop n frames), file_of_app, length_app in Hu.
  destruct Ht as [->|(_ & fr & Hfr & Hp & _)]; [cbn; lia|].
  rewrite (drop_S _ _ _ Hfr), file_of_cons, length_app in Hu. apply prefix_length in Hp. lia.
Qed.

Lemma numbered_take seq frames n : numbered seq frames -> numbered seq (take n frames).
Proof.
  revert seq n. induction frames as [|fr frames IH]; intros seq [|n] Hn; try done.
  destruct Hn as (Hs & Hu & Hn). cbn. split_and!; [done..|by apply IH].
Qed.

(** What the loops do with the end of a cut file. *)
Lemma torn_end frames f n tail :
  Forall framed frames -> Z.of_nat (length (file_of frames)) <= u64_max -> cut frames f n tail -> tail <> [] ->
  exists torn, next_frame (Z.of_nat (length f)) (Z.of_nat (length (file_of (take n frames)))) tail = Ok (Torn torn).
Proof.
  intros Hf Hu [-> Hn Ht] Hne. destruct Ht as [|(_ & fr & Hfr & Hp & Hneq)]; [done|].
  apply (next_frame_torn _ _ fr); [|done|done|lia|by rewrite length_app, Nat2Z.inj_add|].
  - by eapply Forall_lookup in Hf.
  - rewrite <- (take_drop n frames), file_of_app, length_app, (drop_S _ _ _ Hfr), file_of_cons, length_app in Hu. lia.
Qed.

Lemma visit_cut frames f n tail :
  Forall framed frames -> numbered 0 frames -> Z.of_nat (length (file_of frames)) <= u64_max ->
  cut frames f n tail ->
  exists torn, (torn = None <-> tail = []) /\
    forall A (visitor : A -> WalRecord -> Z -> outcome E A) st,
      visit_repairable_wal_prefix visitor f st =
      (st' ← mfoldl (fun st e => visitor st e.1 e.2) st (frame_ends 0 (take n frames));
       Ok (st', mkSummary (Z.of_nat n) (Z.of_nat (length f)) (blake3_hash f) torn)).
Proof.
  intros Hf Hnum Hu Hc. destruct (cut_bounds _ _ _ _ Hf Hu Hc) as (Hft & Hl & Hn & Hfu).
  assert (exists torn, (torn = None <-> tail = []) /\
    forall A (visitor : A -> WalRecord -> Z -> outcome E A) st fuel,
      visit_frames visitor (S fuel) (Z.of_nat (length f)) tail (Z.of_nat (length (file_of (take n frames))))
        (Z.of_nat n) (Z.of_nat n) st = Ok (st, (Z.of_nat n, torn))) as (torn & Htorn & Hend).
  { destruct tail as [|b tail'] eqn:Ht.
    - exists None. split; [done|]. intros A visitor st fuel. cbn [visit_frames].
      rewrite (cut_file _ _ _ _ Hc), app_nil_r, bool_decide_true by done. done.
    - destruct (torn_end _ _ _ _ Hf Hu Hc) as [torn Hnext]; [done|]. exists (Some torn). split; [done|].
      intros A visitor st fuel. cbn [visit_frames]. by rewrite Hnext. }
  exists torn. split; [done|]. intros A visitor st. unfold visit_repairable_wal_prefix.
  replace (S (length f)) with (length (take n frames) + S (length f - n))%nat by lia.
  pose proof (visit_whole visitor (take n frames) (S (length f - n)) (Z.of_nat (length f)) tail 0 0 st) as Hw.
  rewrite <- (cut_file _ _ _ _ Hc), !Z.add_0_l, Hl in Hw. rewrite Hl, Hw; [|done|by apply numbered_take|done..].
  destruct (mfoldl _ _ _) as [st'|x|]; [|done..]. cbn [mbind outcome_bind]. by rewrite Hend.
Qed.

Lemma collect_frames l (records : list (WalRecord * Z)) :
  mfoldl (fun st e => Ok (st ++ [(e.1, e.2)])) records l = (Ok (records ++ l) : outcome E _).
Proof.
  revert records. induction l as [|[r k] l IH]; intros records; cbn; [by rewrite app_nil_r|].
  by rewrite IH, <- app_assoc.
Qed.

Lemma frame_ends_records offset frames : (frame_ends offset frames).*1 = frames.*1.
Proof. revert offset. induction frames as [|fr frames IH]; intros offset; cbn; [done|]. by rewrite IH. Qed.

(** The strict and the legacy reader on a cut file. *)
Lemma strict_cut frames f n tail :
  Forall framed frames -> numbered 0 frames -> Z.of_nat (length (file_of frames)) <= u64_max ->
  cut frames f n tail ->
  read_wal_strict f = if bool_decide (tail = []) then Ok (take n frames).*1 else Err (io "truncated WAL frame").
Proof.
  intros Hf Hnum Hu Hc. destruct (cut_bounds _ _ _ _ Hf Hu Hc) as (Hft & Hl & Hn & Hfu). unfold read_wal_strict.
  replace (S (length f)) with (length (take n frames) + S (length f - n))%nat by lia.
  pose proof (strict_whole (take n frames) (S (length f - n)) (Z.of_nat (length f)) tail 0 0) as Hw.
  rewrite <- (cut_file _ _ _ _ Hc), !Z.add_0_l in Hw. rewrite Hw; [|done|by apply numbered_take|done..].
  cbn [read_strict_frames]. destruct tail as [|b tail'] eqn:Ht.
  - cbn [mbind outcome_bind]. by rewrite app_nil_r.
  - destruct (torn_end _ _ _ _ Hf Hu Hc) as [torn ->]; [done|]. done.
Qed.

Lemma read_cut frames f n tail :
  Forall framed frames -> Z.of_nat (length (file_of frames)) <= u64_max ->
  cut frames f n tail -> read_wal f = (take n frames).*1.
Proof.
  intros Hf Hu Hc. destruct (cut_bounds _ _ _ _ Hf Hu Hc) as (Hft & Hl & Hn & Hfu). unfold read_wal.
  replace (S (length f)) with (length (take n frames) + S (length f - n))%nat by lia.
  pose proof (read_whole (take n frames) (S (length f - n)) (Z.of_nat (length f)) tail 0) as Hw.
  rewrite <- (cut_file _ _ _ _ Hc), !Z.add_0_l in Hw. rewrite Hw; [|done..].
  cbn [read_wal_frames]. destruct tail as [|b tail'] eqn:Ht; [by rewrite app_nil_r|].
  destruct (torn_end _ _ _ _ Hf Hu Hc) as [torn ->]; [done|]. by rewrite app_nil_r.
Qed.

(** No further frame of the log is whole in a cut file. *)
Lemma cut_maximal frames f n tail :
  Forall framed frames -> cut frames f n tail ->
  n = length frames \/ (length f < length (file_of (take (S n) frames)))%nat.
Proof.
  intros Hf [-> Hn Ht]. destruct (decide (n = length frames)) as [|Hne]; [by left|]. right.
  destruct (lookup_lt_is_Some_2 frames n) as [fr Hfr]; [lia|].
  rewrite (take_S_r _ _ _ Hfr), file_of_app, !length_app, file_of_cons, app_nil_r.
  enough (length tail < length fr.2)%nat by lia. destruct Ht as [->|(_ & fr' & Hfr' & [q Hq] & Hne')].
  - eapply Forall_lookup in Hf; [|done]. pose proof (framed_nonempty fr [] Hf) as Hn'. rewrite app_nil_r in Hn'.
    destruct fr.2; [done|cbn; lia].
  - assert (fr' = fr) as -> by congruence. rewrite Hq, length_app in *.
    destruct q; [by rewrite app_nil_r in Hne'|cbn; lia].
Qed.

End Reading.

Section Written.
Context `{WL : !WalCodecLaw}.

Lemma write_log_framed seq entries frames :
  write_log seq entries = Ok frames ->
  Forall framed frames /\ numbered seq frames /\ entry_of <$> frames.*1 = entries.
Proof.
  revert seq frames. induction entries as [|e entries IH]; intros seq frames Hw; cbn in Hw; repeat inv_ok1; [by subst|].
  subst. match goal with Hn : checked_add _ _ = Some _ |- _ => apply checked_add_Some in Hn as [-> Hu] end.
  match goal with Hr : write_log _ _ = Ok _ |- _ => destruct (IH _ _ Hr) as (Hf & Hnum & He) end.
  unfold write_pending_entry, write_entry in *. repeat inv_ok1. subst.
  match goal with Hd : bincode_record _ = Some ?d |- _ => destruct (record_reads_back _ _ Hd) as [Hne Hread] end.
  repeat match goal with Hb : bool_decide _ = true |- _ => apply bool_decide_eq_true in Hb end.
  cbn. split_and!; [|done..|by destruct e]. constructor; [|done]. eexists. cbn.
  split_and!; [done|done|done|by apply Hread|by eexists].
Qed.

(** C12: the log file cut at any byte.  The reader of the recovery layer returns the records
    of exactly the frames that are whole, with the offsets where they end, and reports a
    torn tail if and only if bytes are left over; the legacy reader returns the same
    records; the strict reader accepts the file if and only if it ends with a frame. *)
Theorem torn_log_reads_whole_frames {E} (io : string -> E) entries frames f
    (Hwritten : write_log 0 entries = Ok frames) (Hsize : Z.of_nat (length (file_of frames)) <= u64_max)
    (Hprefix : f `prefix_of` file_of frames) :
  exists n torn,
    file_of (take n frames) `prefix_of` f /\
    (n = length frames \/ (length f < length (file_of (take (S n) frames)))%nat) /\
    entry_of <$> (take n frames).*1 = take n entries /\
    read_repairable_wal_prefix io f =
      Ok (frame_ends 0 (take n frames), mkSummary (Z.of_nat n) (Z.of_nat (length f)) (blake3_hash f) torn) /\
    (torn = None <-> f = file_of (take n frames)) /\
    read_wal io f = (take n frames).*1 /\
    read_wal_strict io f =
      match torn with None => Ok (take n frames).*1 | Some _ => Err (io "truncated WAL frame") end.
Proof.
  destruct (write_log_framed _ _ _ Hwritten) as (Hf & Hnum & He). destruct (cut_exists _ _ Hprefix) as (n & tail & Hc).
  destruct (visit_cut io _ _ _ _ Hf Hnum Hsize Hc) as (torn & Htorn & Hvisit). exists n, torn.
  pose proof (cut_file _ _ _ _ Hc) as Hfile. split_and!.
  - rewrite Hfile. by apply prefix_app_r.
  - by eapply cut_maximal.
  - by rewrite !fmap_take, He.
  - unfold read_repairable_wal_prefix. by rewrite Hvisit, collect_frames.
  - rewrite Htorn. split; [intros Ht; by rewrite Hfile, Ht, app_nil_r|].
    intros Ht. apply (app_inv_head (file_of (take n frames))). by rewrite <- Hfile, app_nil_r.
  - by eapply read_cut.
  - rewrite (strict_cut io _ _ _ _ Hf Hnum Hsize Hc). destruct torn as [torn|].
    + by rewrite bool_decide_false by (intros Ht; by apply Htorn in Ht).
    + by rewrite bool_decide_true by by apply Htorn.
Qed.

End Written.

End WalFile.

(** ** Instances *)

Module WalDemo.
Import Demo LedgerDemo.

(** A codec for the records of a block without transactions. *)
Definition write_op (op : WalOp) : option (list Z) :=
  match op with
  | SetAccount k a => Some [1; k; acc_address a; acc_balance a; acc_nonce a; acc_code_hash a;
                            acc_storage_root a; acc_staked_balance a]
  | SetBlock height (mkBlock (mkBlockHeader h ts pa tx st pr n p (mkProtocolVersion ma mi pt) None) hashes hash) =>
      Some ([2; height; hash; h; ts; pa; tx; st; pr; n; p; ma; mi; pt] ++ hashes)
  | SetValidatorState validators pool => Some (3 :: pool :: write_votes validators)
  | SetRecoveryContext (mkRecoveryContext c g e v (mkProtocolVersion ma mi pt)) activation =>
      Some (4 :: c :: g :: e :: v :: ma :: mi :: pt :: from_option (fun h => [h]) [] activation)
  | Checkpoint root => Some [5; root]
  | _ => None
  end.

Definition parse_op (bytes : list Z) : option WalOp :=
  match bytes with
  | [1; k; a; b; n; c; s; st] => Some (SetAccount k (mkAccount a b n c s st))
  | 2 :: height :: hash :: h :: ts :: pa :: tx :: st :: pr :: n :: p :: ma :: mi :: pt :: hashes =>
      Some (SetBlock height (mkBlock (mkBlockHeader h ts pa tx st pr n p (mkProtocolVersion ma mi pt) None) hashes hash))
  | 3 :: pool :: rest => validators ← parse_votes rest; Some (SetValidatorState validators pool)
  | 4 :: c :: g :: e :: v :: ma :: mi :: pt :: rest =>
      Some (SetRecoveryContext (mkRecoveryContext c g e v (mkProtocolVersion ma mi pt)) (head rest))
  | [5; root] => Some (Checkpoint root)
  | _ => None
  end.

Lemma parse_write_op op bytes : write_op op = Some bytes -> parse_op bytes = Some op.
Proof.
  destruct op as [k a| | |h [[? ? ? ? ? ? ? ? [] []] hashes hash]| | | |root| | | | | |vals pool|[? ? ? ? []] act]; try done; cbn;
    intros [= <-]; try done; cbn.
  - by destruct a.
  - by rewrite parse_write_votes.
  - by destruct act.
Qed.

#[export] Instance demo_wal : WalCodec := {|
  bincode_record r :=
    bytes ← write_op (rec_op r); Some (rec_height r :: rec_sequence r :: rec_checksum r :: bytes);
  bincode_read_record bytes :=
    match bytes with
    | h :: s :: c :: rest => op ← parse_op rest; Some (mkRecord h s op c)
    | _ => None
    end;
  bincode_covered h s op := bytes ← write_op op; Some (h :: s :: bytes);
  crc32 bytes := checksum 3 bytes mod 2 ^ 32;
|}.

#[export] Instance demo_wal_law : WalCodecLaw.
Proof.
  intros [h s op c] data Hd. cbn in Hd. destruct (write_op op) as [bytes|] eqn:Hop; [|done].
  injection Hd as <-. split; [done|]. intros _. cbn. by rewrite (parse_write_op _ _ Hop).
Qed.

Definition demo_entries : list WalEntry :=
  [mkWalEntry (SetAccount 5 (account_new 5 1)) 101; mkWalEntry (Checkpoint 7) 101].

Definition demo_frames : list (WalRecord * list Z) :=
  match write_log 0 demo_entries with Ok frames => frames | _ => [] end.

End WalDemo.

Section Witnesses.
Import LedgerDemo WalDemo.

(** A file of two records, cut inside the second. *)
Lemma torn_log_reads_whole_frames_witness :
  exists torn, read_repairable_wal_prefix id (take 20 (file_of demo_frames)) =
    Ok (frame_ends 0 (take 1 demo_frames), mkSummary 1 20 (blake3_hash (take 20 (file_of demo_frames))) torn) /\
    torn <> None.
Proof.
  destruct (torn_log_reads_whole_frames id demo_entries demo_frames (take 20 (file_of demo_frames)))
    as (n & torn & Hpre & Hmax & _ & Hread & Htorn & _); [by vm_compute|by vm_compute|apply prefix_take|].
  assert (n = 1%nat) as ->.
  { destruct n as [|[|n]]; [|done|].
    - destruct Hmax as [H|H]; [by vm_compute in H|]. apply Nat.ltb_lt in H. by vm_compute in H.
    - apply prefix_length, Nat.leb_le in Hpre. exfalso. destruct n as [|n]; by vm_compute in Hpre. }
  exists torn. split; [exact Hread|]. rewrite Htorn. by vm_compute.
Defined.

End Witnesses.
