(* ===== verification/Reopen.v ===== *)
(** * Reopening from the log file (crates/arc-state/src/recovery.rs)

    The restart of Recovery.v over the bytes of the log: the file is planned, replayed into
    a scratch state, its tail is moved away and the file is cut at the last checkpoint, and
    the kept part is replayed into the state that the node goes on with.  The life of a
    node is a sequence of blocks, refusals and crashes that leave any prefix of the file. *)

From S2P Require Import Prelude Crypto Merkle Validators Blocks Ledger Tier1 Contracts Executor.
From S2P Require Import LedgerDemo LedgerV3 Bonds Locality BlockStm Footprint BlockExec StateRoot V3Blocks.
From S2P Require Import Sealing Recovery Restart WalFile.

(** Why bytes are dropped; the code keeps the reason as a string. *)
Inductive TailReason :=
| ReasonNone
| ReasonTorn (tail : RepairableWalTail)
| ReasonUncommittedBytes
| ReasonBeforeCheckpoint (entries : Z) (tail : option RepairableWalTail)
| ReasonAfterCheckpoint (entries : Z) (tail : option RepairableWalTail).

#[global] Instance TailReason_eq_dec : EqDecision TailReason.
Proof. solve_decision. Defined.

(** The plan with what it says of the file. *)
Record WalFilePlan := mkFilePlan {
  fp_plan : PostRecoveryWalPlan;
  fp_source_entry_count : Z;
  fp_source_torn_tail : option RepairableWalTail;
  fp_accepted_prefix_hash : Hash256;
  fp_original_hash : Hash256;
  fp_original_bytes : Z;
  fp_accepted_prefix_bytes : Z;
  fp_quarantined_tail_bytes : Z;
  fp_tail_reason : TailReason;
}.

#[global] Instance WalFilePlan_eta : Eta WalFilePlan := fun p =>
  mkFilePlan (fp_plan p) (fp_source_entry_count p) (fp_source_torn_tail p) (fp_accepted_prefix_hash p)
    (fp_original_hash p) (fp_original_bytes p) (fp_accepted_prefix_bytes p)
    (fp_quarantined_tail_bytes p) (fp_tail_reason p).

Section Reopen.
Context `{CR : Crypto, TC : TxCodec, HC : HeaderCodec, SC : SectionCodec, WC : WalCodec}.

(** ** The plan of a file *)

(** One record; the end of the accepted prefix moves with the number of accepted entries. *)
Definition plan_record (transition_height : Z) (st : WalScan * Z) (r : WalRecord) (frame_end : Z)
    : outcome StateError (WalScan * Z) :=
  let c := scan_entry transition_height st.1 (Z.to_nat (rec_sequence r)) (entry_of r) in
  Ok (c, if bool_decide (sc_accepted c = sc_accepted st.1) then st.2 else frame_end).

(** The entries and the torn frame after the last checkpoint. *)
Definition tail_reason (valid_tail : Z) (torn : option RepairableWalTail) : TailReason :=
  match bool_decide (valid_tail = 0), torn with
  | true, None => ReasonNone
  | true, Some tail => ReasonTorn tail
  | false, _ => ReasonAfterCheckpoint valid_tail torn
  end.

Definition plan_wal_file (file : list Z) (transition_height : Z) : outcome StateError WalFilePlan :=
  expected ← ok_or (checked_add transition_height 1)
               (PersistenceError "recovery transition height overflows u64");
  res ← visit_repairable_wal_prefix PersistenceError (plan_record transition_height) file
          (scan_start transition_height expected, 0);
  let '((c, accepted_prefix_bytes), summary) := res in
  let count := sum_entry_count summary in
  let original_bytes := sum_original_bytes summary in
  let torn := sum_torn_tail summary in
  plan ← plan_of_scan c;
  match plan_last_checkpoint plan with
  | None =>
      let reason :=
        if bool_decide (count = 0) then
          if bool_decide (original_bytes = 0) then ReasonNone
          else match torn with Some tail => ReasonTorn tail | None => ReasonUncommittedBytes end
        else ReasonBeforeCheckpoint count torn in
      Ok (mkFilePlan plan count torn (blake3_hash []) (sum_original_hash summary) original_bytes 0
            original_bytes reason)
  | Some _ =>
      quarantined ← ok_or (checked_sub original_bytes accepted_prefix_bytes)
                      (PersistenceError "post-recovery checkpoint offset exceeds WAL file size");
      valid_tail ← ok_or (checked_sub count (Z.of_nat (plan_accepted plan)))
                     (PersistenceError "post-recovery checkpoint count exceeds parsed entries");
      let reason := tail_reason valid_tail torn in
      _ ← require (Bool.eqb (bool_decide (quarantined = 0)) (bool_decide (reason = ReasonNone)))
            (PersistenceError "post-recovery WAL physical tail accounting contradicts its classification");
      Ok (mkFilePlan plan count torn (blake3_hash []) (sum_original_hash summary) original_bytes
            accepted_prefix_bytes quarantined reason)
  end.

(** ** Reading the file again *)

Definition verify_post_recovery_wal_reread (summary : RepairableWalSummary) (plan : WalFilePlan)
    : outcome StateError unit :=
  require (bool_decide (sum_entry_count summary = fp_source_entry_count plan) &&
           bool_decide (sum_original_bytes summary = fp_original_bytes plan) &&
           bool_decide (sum_original_hash summary = fp_original_hash plan) &&
           bool_decide (sum_torn_tail summary = fp_source_torn_tail plan))
    (PersistenceError "recovery WAL changed between validation and replay; refusing startup").

Definition verify_post_recovery_prefix_reread (summary : RepairableWalSummary) (plan : WalFilePlan)
    : outcome StateError unit :=
  require (bool_decide (sum_entry_count summary = Z.of_nat (plan_accepted (fp_plan plan))) &&
           bool_decide (sum_original_bytes summary = fp_accepted_prefix_bytes plan) &&
           bool_decide (sum_original_hash summary = fp_accepted_prefix_hash plan) &&
           bool_decide (sum_torn_tail summary = None))
    (PersistenceError "repaired recovery WAL differs from its validated accepted prefix").

Definition replay_record (accepted : nat) (st : option Hash256 * StateDB) (r : WalRecord) (frame_end : Z)
    : outcome StateError (option Hash256 * StateDB) :=
  if bool_decide (rec_sequence r < Z.of_nat accepted) then replay_apply st (entry_of r) else Ok st.

Definition apply_verified_recovery_wal_stream (base : StateDB) (file : list Z) (plan : WalFilePlan)
    (expect_original_file : bool) : outcome StateError StateDB :=
  res ← visit_repairable_wal_prefix PersistenceError (replay_record (plan_accepted (fp_plan plan))) file
          (None, base);
  _ ← (if expect_original_file then verify_post_recovery_wal_reread res.2 plan
       else verify_post_recovery_prefix_reread res.2 plan);
  Ok res.1.2.

(** The file is the one that was planned; the hash of the part to keep. *)
Definition hash_wal_identity_and_prefix (file : list Z) (expected_bytes : Z) (expected_hash : Hash256)
    (prefix_bytes : Z) : outcome StateError Hash256 :=
  _ ← require (bool_decide (prefix_bytes <= expected_bytes))
        (PersistenceError "WAL prefix length exceeds expected size");
  _ ← require (bool_decide (Z.of_nat (length file) = expected_bytes))
        (PersistenceError "state WAL size changed before hashing");
  _ ← require (bool_decide (blake3_hash file = expected_hash))
        (PersistenceError "state WAL content changed while hashing");
  Ok (blake3_hash (take (Z.to_nat prefix_bytes) file)).

Definition verify_wal_file_identity (file : list Z) (expected_bytes : Z) (expected_hash : Hash256)
    : outcome StateError unit :=
  _ ← require (bool_decide (Z.of_nat (length file) = expected_bytes))
        (PersistenceError "state WAL identity changed before replay");
  require (bool_decide (blake3_hash file = expected_hash))
    (PersistenceError "state WAL content changed before replay").

(** The tail that is preserved, and the file that is left. *)
Definition quarantine_and_truncate_wal_tail (file : list Z) (accepted_prefix_bytes original_bytes : Z)
    (expected_original_hash : Hash256) : outcome StateError (list Z * list Z) :=
  _ ← require (bool_decide (Z.of_nat (length file) = original_bytes) &&
               bool_decide (accepted_prefix_bytes < original_bytes))
        (PersistenceError "state WAL repair boundary is stale or empty");
  _ ← require (bool_decide (blake3_hash file = expected_original_hash))
        (PersistenceError "state WAL changed after checkpoint validation and before quarantine");
  Ok (drop (Z.to_nat accepted_prefix_bytes) file, take (Z.to_nat accepted_prefix_bytes) file).

(** The writer opens the file with the checks of the strict reader and goes on after its
    last record. *)
Definition open_log (file : list Z) : outcome StateError (list WalEntry) :=
  records ← read_wal_strict PersistenceError file; Ok (entry_of <$> (records : list WalRecord)).

Definition with_log (entries : list WalEntry) (s : StateDB) : StateDB := s <| db_wal := entries |>.

(** The state that the node goes on with, and the file it appends to. *)
Definition reopen (base : StateDB) (signed : list (Hash256 * (Z * Z))) (file : list Z)
    : outcome StateError (StateDB * list Z) :=
  let transition_height := db_height base in
  plan ← plan_wal_file file transition_height;
  prefix_hash ← hash_wal_identity_and_prefix file (fp_original_bytes plan) (fp_original_hash plan)
                  (fp_accepted_prefix_bytes plan);
  let plan := plan <| fp_accepted_prefix_hash := prefix_hash |> in
  staged ← apply_verified_recovery_wal_stream base file plan true;
  _ ← finish_restart (fp_plan plan) transition_height signed staged;
  let clean := bool_decide (fp_quarantined_tail_bytes plan = 0) in
  file' ← (if clean then
             _ ← verify_wal_file_identity file (fp_original_bytes plan) (fp_original_hash plan); Ok file
           else
             parts ← quarantine_and_truncate_wal_tail file (fp_accepted_prefix_bytes plan)
                       (fp_original_bytes plan) (fp_original_hash plan);
             Ok parts.2);
  entries ← open_log file';
  replayed ← apply_verified_recovery_wal_stream base file' plan clean;
  s ← finish_restart (fp_plan plan) transition_height signed replayed;
  Ok (with_log entries s, file').

(** ** The plan of a cut file *)

Lemma scan_accepted tr c n e :
  sc_accepted (scan_entry tr c n e) = sc_accepted c \/ sc_accepted (scan_entry tr c n e) = S n.
Proof.
  unfold scan_entry, scan_block, scan_checkpoint, scan_fails.
  repeat first [case_match | case_bool_decide]; cbn; auto.
Qed.

Lemma planned_records tr c b frames offset seq :
  numbered (Z.of_nat seq) frames -> (sc_accepted c <= seq)%nat ->
  let c' := scan_log tr seq c (entry_of <$> frames.*1) in
  (sc_accepted c' = sc_accepted c \/ (seq < sc_accepted c' <= seq + length frames)%nat) /\
  mfoldl (fun st e => plan_record tr st e.1 e.2) (c, b) (frame_ends offset frames) =
  Ok (c', if bool_decide (sc_accepted c' = sc_accepted c) then b
          else offset + Z.of_nat (length (file_of (take (sc_accepted c' - seq) frames)))).
Proof.
  revert c b offset seq. induction frames as [|[r fr] frames IH]; intros c b offset seq Hn Hle.
  { split; [by left|]. cbn. by rewrite bool_decide_true. }
  destruct Hn as (Hs & _ & Hn). cbn [fst] in Hs. cbn [fmap list_fmap scan_log frame_ends mfoldl fst snd].
  unfold plan_record at 2. cbn [fst snd mbind outcome_bind]. rewrite Hs, Nat2Z.id.
  set (c1 := scan_entry tr c seq (entry_of r)). pose proof (scan_accepted tr c seq (entry_of r)) as Hc1. fold c1 in Hc1.
  replace (Z.of_nat seq + 1) with (Z.of_nat (S seq)) in Hn by lia.
  destruct (IH c1 (if bool_decide (sc_accepted c1 = sc_accepted c) then b else offset + Z.of_nat (length fr))
    (offset + Z.of_nat (length fr)) (S seq) Hn ltac:(lia)) as [Hacc ->]. clear IH.
  set (c' := scan_log tr (S seq) c1 (entry_of <$> frames.*1)) in *. cbn [length].
  split; [destruct Hc1, Hacc; lia|]. do 2 f_equal. destruct Hacc as [Heq|Hgt].
  - rewrite Heq, (bool_decide_true (sc_accepted c1 = sc_accepted c1)) by done. destruct Hc1 as [Hc1|Hc1]; rewrite Hc1.
    + by rewrite bool_decide_true.
    + rewrite bool_decide_false by lia. replace (S seq - seq)%nat with 1%nat by lia. cbn [take].
      by rewrite file_of_cons, app_nil_r.
  - rewrite !(bool_decide_false (sc_accepted c' = _)) by lia.
    replace (sc_accepted c' - seq)%nat with (S (sc_accepted c' - S seq)) by lia. cbn [take].
    rewrite file_of_cons, length_app. cbn [snd]. lia.
Qed.

Lemma plan_of_scan_shape c plan :
  plan_of_scan c = Ok plan -> plan = mkPlan 0 None \/ exists boundary, plan = mkPlan (sc_accepted c) (Some boundary).
Proof.
  unfold plan_of_scan. intros Hp. destruct (sc_error c); [done|]. cbn [mbind outcome_bind] in Hp.
  destruct (sc_latest_boundary c) as [[height root]|]; [|injection Hp as <-; by left].
  repeat inv_ok1. subst. right. by eexists.
Qed.

Lemma tail_reason_none valid_tail torn : tail_reason valid_tail torn = ReasonNone <-> valid_tail = 0 /\ torn = None.
Proof. unfold tail_reason. case_bool_decide; destruct torn; naive_solver. Qed.

(** The replay of the records of a file is the replay of the entries it accepts. *)
Lemma replayed_records m frames offset seq st :
  numbered (Z.of_nat seq) frames ->
  mfoldl (fun st e => replay_record m st e.1 e.2) st (frame_ends offset frames) =
  mfoldl replay_apply st (take (m - seq) (entry_of <$> frames.*1)).
Proof.
  revert offset seq st. induction frames as [|[r fr] frames IH]; intros offset seq st Hn; [by destruct (m - seq)%nat|].
  destruct Hn as (Hs & _ & Hn). cbn [fst] in Hs. replace (Z.of_nat seq + 1) with (Z.of_nat (S seq)) in Hn by lia.
  cbn [frame_ends mfoldl fst snd fmap list_fmap]. unfold replay_record at 2. rewrite Hs.
  destruct (decide (seq < m)%nat) as [Hlt|Hge].
  - rewrite bool_decide_true by lia. replace (m - seq)%nat with (S (m - S seq)) by lia. cbn [take mfoldl].
    destruct (replay_apply st (entry_of r)) as [st'|x|]; [|done..]. by apply IH.
  - rewrite bool_decide_false by lia. cbn [mbind outcome_bind]. rewrite (IH _ (S seq)) by done.
    by replace (m - seq)%nat with 0%nat by lia; replace (m - S seq)%nat with 0%nat by lia.
Qed.

Section Cut.
Context (frames : list (WalRecord * list Z)) (f : list Z) (n : nat) (tail : list Z).
Context (Hf : Forall framed frames) (Hnum : numbered 0 frames).
Context (Hsize : Z.of_nat (length (file_of frames)) <= u64_max) (Hcut : cut frames f n tail).

Let kept (m : nat) : list Z := file_of (take m frames).

Lemma cut_kept m :
  (m <= n)%nat -> exists rest, f = kept m ++ rest /\ (rest = [] <-> m = n /\ tail = []).
Proof.
  intros Hm. exists (file_of (drop m (take n frames)) ++ tail). split.
  - rewrite app_assoc. unfold kept. rewrite <- file_of_app. replace (take m frames) with (take m (take n frames))
      by (rewrite take_take; f_equal; lia). rewrite take_drop. apply Hcut.
  - rewrite app_nil. pose proof (cut_count _ _ _ _ Hcut) as Hn. split.
    + intros [Hd Ht]. split; [|done]. destruct (decide (m = n)) as [|Hne]; [done|].
      assert (Forall framed (drop m (take n frames))) as Hfd by by apply Forall_drop, Forall_take.
      apply length_file_of in Hfd. rewrite Hd, length_drop, length_take_le in Hfd by done. cbn in Hfd. lia.
    + intros [-> ->]. by rewrite drop_ge by (rewrite length_take_le; done).
Qed.

Lemma plan_cut tr plan torn :
  (torn = None <-> tail = []) ->
  (forall A (visitor : A -> WalRecord -> Z -> outcome StateError A) st,
     visit_repairable_wal_prefix PersistenceError visitor f st =
     (st' ← mfoldl (fun st e => visitor st e.1 e.2) st (frame_ends 0 (take n frames));
      Ok (st', mkSummary (Z.of_nat n) (Z.of_nat (length f)) (blake3_hash f) torn))) ->
  plan_post_recovery_wal (entry_of <$> (take n frames).*1) tr = Ok plan ->
  (plan_accepted plan <= n)%nat /\
  exists reason, plan_wal_file f tr =
    Ok (mkFilePlan plan (Z.of_nat n) torn (blake3_hash []) (blake3_hash f) (Z.of_nat (length f))
          (Z.of_nat (length (kept (plan_accepted plan))))
          (Z.of_nat (length f) - Z.of_nat (length (kept (plan_accepted plan)))) reason).
Proof.
  intros Htorn Hvisit Hp. unfold plan_post_recovery_wal in Hp. unfold plan_wal_file.
  apply bind_Ok in Hp as (expected & -> & Hp). cbn [mbind outcome_bind]. rewrite Hvisit.
  assert (length (take n frames) = n) as Hlen by apply length_take_le, Hcut.
  destruct (planned_records tr (scan_start tr expected) 0 (take n frames) 0 0) as [Hacc ->];
    [by apply numbered_take|done|]. set (c := scan_log tr 0 _ _) in *. cbn [mbind outcome_bind sum_entry_count
    sum_original_bytes sum_original_hash sum_torn_tail]. rewrite Hp. cbn [mbind outcome_bind].
  change (sc_accepted (scan_start tr expected)) with 0%nat in *.
  apply plan_of_scan_shape in Hp as [->|[boundary ->]]; cbn [plan_last_checkpoint plan_accepted].
  { split; [lia|]. eexists. unfold kept. rewrite take_0. cbn. by rewrite Z.sub_0_r. }
  assert (sc_accepted c <= n)%nat as Hm by (destruct Hacc; lia). split; [done|].
  assert ((if bool_decide (sc_accepted c = 0%nat) then 0
           else 0 + Z.of_nat (length (file_of (take (sc_accepted c - 0) (take n frames))))) =
          Z.of_nat (length (kept (sc_accepted c)))) as ->.
  { unfold kept. case_bool_decide as H0; [by rewrite H0, take_0|]. by rewrite Nat.sub_0_r, take_take, Nat.min_l by lia. }
  destruct (cut_kept _ Hm) as (rest & Hfile & Hrest).
  assert (length f = length (kept (sc_accepted c)) + length rest)%nat as Hl by by rewrite Hfile, length_app.
  rewrite (proj2 (checked_sub_Some (Z.of_nat (length f)) _ (Z.of_nat (length rest)))) by lia. cbn [ok_or mbind outcome_bind].
  rewrite (proj2 (checked_sub_Some _ _ (Z.of_nat n - Z.of_nat (sc_accepted c)))) by lia. cbn [ok_or mbind outcome_bind].
  rewrite (bool_decide_ext (Z.of_nat (length rest) = 0) (tail_reason (Z.of_nat n - Z.of_nat (sc_accepted c)) torn = ReasonNone)).
  2: { rewrite tail_reason_none, Htorn. transitivity (rest = []); [destruct rest; cbn; split; done || lia|].
    rewrite Hrest. split; intros [? ?]; split; done || lia. }
  rewrite eqb_reflx. cbn [require mbind outcome_bind]. eexists. do 2 f_equal. lia.
Qed.

(** The replay of a file that has at least the accepted records. *)
Lemma stream_file (k : nat) base file torn fp plan (expect : bool) :
  (plan_accepted plan <= k)%nat -> fp_plan fp = plan ->
  (forall A (visitor : A -> WalRecord -> Z -> outcome StateError A) st,
     visit_repairable_wal_prefix PersistenceError visitor file st =
     (st' ← mfoldl (fun st e => visitor st e.1 e.2) st (frame_ends 0 (take k frames));
      Ok (st', mkSummary (Z.of_nat k) (Z.of_nat (length file)) (blake3_hash file) torn))) ->
  (if expect then verify_post_recovery_wal_reread (mkSummary (Z.of_nat k) (Z.of_nat (length file)) (blake3_hash file) torn) fp
   else verify_post_recovery_prefix_reread (mkSummary (Z.of_nat k) (Z.of_nat (length file)) (blake3_hash file) torn) fp) = Ok () ->
  apply_verified_recovery_wal_stream base file fp expect =
  (st ← apply_verified_recovery_wal base (take (plan_accepted plan) (entry_of <$> frames.*1)); Ok st.2).
Proof.
  intros Hk <- Hvisit Hcheck. unfold apply_verified_recovery_wal_stream. rewrite Hvisit.
  rewrite (replayed_records _ _ 0 0) by by apply numbered_take. rewrite Nat.sub_0_r.
  rewrite !fmap_take, take_take, Nat.min_l by done. unfold apply_verified_recovery_wal.
  destruct (mfoldl replay_apply _ _) as [st|x|]; [|done..]. cbn [mbind outcome_bind fst snd]. by rewrite Hcheck.
Qed.

Lemma reopen_cut base signed plan t :
  plan_post_recovery_wal (entry_of <$> (take n frames).*1) (db_height base) = Ok plan ->
  (st ← apply_verified_recovery_wal base (take (plan_accepted plan) (entry_of <$> frames.*1));
   finish_restart plan (db_height base) signed st.2) = Ok t ->
  (plan_accepted plan <= n)%nat /\
  reopen base signed f =
    Ok (with_log (take (plan_accepted plan) (entry_of <$> frames.*1)) t, kept (plan_accepted plan)).
Proof.
  intros Hplan Ht. destruct (visit_cut PersistenceError _ _ _ _ Hf Hnum Hsize Hcut) as (torn & Htorn & Hvisit).
  destruct (plan_cut _ _ _ Htorn Hvisit Hplan) as [Hm [reason Hfp]]. split; [done|]. set (m := plan_accepted plan) in *.
  destruct (cut_kept m Hm) as (rest & Hfile & Hrest).
  assert (length f = length (kept m) + length rest)%nat as Hl by by rewrite Hfile, length_app.
  assert (cut frames (kept m) m []) as Hcm by (pose proof (cut_count _ _ _ _ Hcut); split; [by rewrite app_nil_r|lia|by left]).
  destruct (visit_cut PersistenceError _ _ _ _ Hf Hnum Hsize Hcm) as (torn' & Htorn' & Hvisit').
  assert (torn' = None) as -> by by apply Htorn'. unfold reopen. rewrite Hfp. cbn [mbind outcome_bind fp_original_bytes
    fp_original_hash fp_accepted_prefix_bytes]. unfold hash_wal_identity_and_prefix.
  rewrite !bool_decide_true by (done || lia). cbn [require mbind outcome_bind].
  assert (take (Z.to_nat (Z.of_nat (length (kept m)))) f = kept m) as Htake by by rewrite Nat2Z.id, Hfile, take_app_length.
  rewrite Htake. match goal with |- context [apply_verified_recovery_wal_stream base f ?x true] => set (fp := x) end.
  apply bind_Ok in Ht as ([root t1] & Happ & Ht). cbn [snd] in Ht.
  assert (apply_verified_recovery_wal_stream base f fp true = Ok t1) as Hstream.
  { rewrite (stream_file n base f torn fp plan) by (done || by apply require_Ok; rewrite !bool_decide_true). fold m. by rewrite Happ. }
  rewrite Hstream. cbn [mbind outcome_bind]. change (fp_plan fp) with plan. rewrite Ht. cbn [mbind outcome_bind].
  assert (open_log (kept m) = Ok (take m (entry_of <$> frames.*1))) as Hopen.
  { unfold open_log. rewrite (strict_cut _ _ _ _ _ Hf Hnum Hsize Hcm). cbn. by rewrite !fmap_take. }
  change (fp_quarantined_tail_bytes fp) with (Z.of_nat (length f) - Z.of_nat (length (kept m))).
  change (fp_original_bytes fp) with (Z.of_nat (length f)). change (fp_original_hash fp) with (blake3_hash f).
  change (fp_accepted_prefix_bytes fp) with (Z.of_nat (length (kept m))). case_bool_decide as Hq.
  - assert (f = kept m) as Hfk by (destruct rest; [by rewrite Hfile, app_nil_r|cbn in Hl; lia]).
    unfold verify_wal_file_identity. rewrite !bool_decide_true by done. cbn [require mbind outcome_bind].
    rewrite Hfk at 1. rewrite Hopen. cbn [mbind outcome_bind]. rewrite Hstream. cbn [mbind outcome_bind].
    rewrite Ht. cbn [mbind outcome_bind]. by rewrite <- Hfk.
  - unfold quarantine_and_truncate_wal_tail. rewrite !bool_decide_true by (done || lia).
    cbn [andb require mbind outcome_bind snd]. rewrite Htake, Hopen. cbn [mbind outcome_bind].
    rewrite (stream_file m base (kept m) None fp plan) by (done || by apply require_Ok; rewrite !bool_decide_true).
    fold m. rewrite Happ. cbn [mbind outcome_bind snd]. rewrite Ht. done.
Qed.

End Cut.

(** ** The life of a node *)

Lemma write_log_take seq entries frames m :
  write_log seq entries = Ok frames -> write_log seq (take m entries) = Ok (take m frames).
Proof.
  revert seq frames m. induction entries as [|e entries IH]; intros seq frames m Hw; cbn in Hw; repeat inv_ok1; subst.
  { by rewrite !take_nil. }
  destruct m as [|m]; [done|]. cbn [take write_log].
  match goal with Hn : checked_add _ _ = Some _ |- _ => rewrite Hn end. cbn [ok_or mbind outcome_bind].
  match goal with Hp : write_pending_entry _ _ _ = Ok _ |- _ => rewrite Hp end. cbn [mbind outcome_bind].
  by rewrite (IH _ _ m ltac:(done)).
Qed.

Lemma checkpoints_prefix (l p : list WalEntry) : l `prefix_of` p -> (checkpoints l <= checkpoints p)%nat.
Proof. intros [q ->]. unfold checkpoints. rewrite filter_app, length_app. lia. Qed.

Lemma prefix_of_take {A} (l p : list A) : l `prefix_of` p -> l = take (length l) p.
Proof. intros [q ->]. by rewrite take_app_length. Qed.

(** A file that holds the whole log of an entry list holds its entries. *)
Lemma cut_holds frames f n tail m :
  Forall framed frames -> cut frames f n tail -> (m <= length frames)%nat ->
  file_of (take m frames) `prefix_of` f -> (m <= n)%nat.
Proof.
  intros Hf Hc Hm Hp. destruct (cut_maximal _ _ _ _ Hf Hc) as [->|Hlt]; [done|].
  destruct (decide (m <= n)%nat) as [|Hgt]; [done|]. apply prefix_length in Hp.
  assert (take (S n) frames `prefix_of` take m frames) as [q Hq].
  { replace (take (S n) frames) with (take (S n) (take m frames)) by (rewrite take_take; f_equal; lia). apply prefix_take. }
  rewrite Hq, file_of_app, length_app in Hp. lia.
Qed.

Context `{HO : HashOrder, WE : WasmEngine, NL : NativeLane, BV : BatchVerify, NB : NativeBlocks}.
Context `{NLaw : !NativeBlocksLaw, WL : !WalCodecLaw}.

Lemma node_ok_durable s t :
  node_ok s -> durable t = durable s -> flags t = flags s -> node_ok t.
Proof.
  intros [H3 H0 Hw Hn Hm Ht Ha] Hd Hf. unfold flags in Hf. injection Hf as Hfw Hfn Hfm.
  assert (protocol_v3 t = protocol_v3 s) as Hp.
  { unfold protocol_v3, active_protocol_version. by rewrite Hfn, Hfm, (durable_context _ _ Hd). }
  split; rewrite ?(durable_height _ _ Hd), ?(durable_history _ _ Hd), ?Hp; done || congruence.
Qed.

Section Life.
Context (base s0 : StateDB) (signed : list (Hash256 * (Z * Z))).

(** The node activated at [s0] from a signed checkpoint, which installs [base]. *)
Record activation : Prop := {
  act_node : node_ok s0;
  act_flags : flags base = flags s0;
  act_index : index_ok signed s0;
  act_base : durable base = durable s0;
  act_wal : db_wal s0 = [];
  act_height : db_height s0 < u64_max;
}.

Lemma activation_good : activation -> good signed (db_height s0) s0.
Proof. intros [Hn _ Hi _ _ _]. split; [done|lia| |done]. split; [apply Hn|lia]. Qed.

Lemma reopen_run chain frames f :
  activation -> sealed_run signed s0 chain -> Forall (fun s => db_height s < u64_max) chain ->
  write_log 0 (db_wal (final s0 chain)) = Ok frames -> Z.of_nat (length (file_of frames)) <= u64_max ->
  f `prefix_of` file_of frames ->
  exists k sk t frames', (s0 :: chain) !! k = Some sk /\ reopen base signed f = Ok (t, file_of frames') /\
    resumes sk t /\ checkpoints (db_wal t) = k /\ write_log 0 (db_wal t) = Ok frames' /\
    forall j sj frames_j, (s0 :: chain) !! j = Some sj -> write_log 0 (db_wal sj) = Ok frames_j ->
      file_of frames_j `prefix_of` f -> (j <= k)%nat.
Proof.
  intros Hact Hrun Hmax Hw Hu Hp. pose proof (activation_good Hact) as Hg. destruct Hact as [Hn Hfl Hi Hb Hl Hh].
  destruct (write_log_framed _ _ _ Hw) as (Hf & Hnum & He). destruct (cut_exists _ _ Hp) as (n & tail & Hc).
  set (entries := db_wal (final s0 chain)) in *.
  destruct (run_restarts signed (db_height s0) base s0 chain (take n entries))
    as (sk & plan & t & Hsk & Hplan & Hpre & Hacc & Ht & Hd & Hft); try done; [by constructor|apply prefix_take|].
  destruct (run_states _ _ _ _ _ _ Hg Hrun Hsk) as (Hgk & log & Hlog & Hck & Hpk). rewrite Hl in Hlog. cbn in Hlog.
  assert (take (plan_accepted plan) entries = db_wal sk) as Htake by (rewrite Hacc; symmetry; by apply prefix_of_take).
  assert (db_height base = db_height s0) as Hbh by by apply durable_height.
  destruct (reopen_cut frames f n tail Hf Hnum Hu Hc base signed plan t) as [Hm Hre].
  { by rewrite Hbh, !fmap_take, He. }
  { by rewrite Hbh, He, Htake. }
  rewrite He, Htake in Hre. exists (checkpoints (take n entries)), sk, (with_log (db_wal sk) t), (take (plan_accepted plan) frames).
  split_and!; [done|done| |by subst log|by rewrite <- Htake; apply write_log_take|].
  - split; [done|done|]. apply (node_ok_durable sk); [apply Hgk|done|]. change (flags t = flags sk).
    rewrite Hft, Hfl. destruct (gd_node _ _ _ Hgk), Hn. unfold flags. congruence.
  - intros j sj frames_j Hj Hwj Hpj. destruct (run_states _ _ _ _ _ _ Hg Hrun Hj) as (_ & logj & Hlogj & <- & Hpfx).
    rewrite Hl in Hlogj. cbn in Hlogj. subst logj. fold entries in Hpfx. pose proof (prefix_length _ _ Hpfx) as Hlj.
    apply prefix_of_take in Hpfx. set (m := length (db_wal sj)) in *. rewrite Hpfx in Hwj.
    rewrite (write_log_take _ _ _ _ Hw) in Hwj. injection Hwj as <-.
    assert (m <= n)%nat as Hle.
    { eapply cut_holds; [exact Hf|exact Hc| |exact Hpj]. rewrite <- He, !length_fmap in Hlj. done. }
    apply checkpoints_prefix. rewrite Hpfx. replace (take m entries) with (take m (take n entries))
      by (rewrite take_take; f_equal; lia). apply prefix_take.
Qed.

(** The blocks that the log of the node holds, and its state.  A crash leaves any prefix of
    the file, whose size the file system bounds by a u64. *)
Inductive life : list StateDB -> StateDB -> Prop :=
| life_start : life [] s0
| life_block chain s r result s1 :
    life chain s -> fresh_request signed r -> run_request r s = (Ok result, s1) -> db_height s1 < u64_max ->
    life (chain ++ [s1]) s1
| life_refused chain s r e s1 :
    life chain s -> run_request r s = (Err e, s1) -> life chain s1
| life_crash chain s frames f t file' :
    life chain s -> write_log 0 (db_wal s) = Ok frames -> Z.of_nat (length (file_of frames)) <= u64_max ->
    f `prefix_of` file_of frames -> reopen base signed f = Ok (t, file') ->
    life (take (checkpoints (db_wal t)) chain) t.

Lemma final_cons s s1 states : final s (s1 :: states) = final s1 states.
Proof. unfold final. rewrite last_cons. by destruct (last states). Qed.

Lemma run_snoc s chain cur r result s1 :
  good signed (db_height s0) s -> sealed_run signed s chain -> resumes (final s chain) cur ->
  fresh_request signed r -> run_request r cur = (Ok result, s1) -> sealed_run signed s (chain ++ [s1]).
Proof.
  intros Hg Hrun Hcur Hf Hr.
  induction Hrun as [s|s r' [blk receipts] s2 states Hf' Hr' Hrun IH|s r' e s2 states Hr' Hrun IH|s t states Hrs Hrun IH].
  - eapply run_reopened; [exact Hcur|]. eapply run_block; [exact Hf|exact Hr|constructor].
  - destruct (good_block _ _ _ _ _ _ _ Hg Hf' Hr') as (Hg2 & _). cbn [app].
    eapply run_block; [exact Hf'|exact Hr'|]. apply IH; [done|]. by rewrite final_cons in Hcur.
  - assert (s2 = s) as -> by (eapply refused_block; [..|exact Hr']; apply Hg). by apply IH.
  - eapply run_reopened; [exact Hrs|]. apply IH; [by eapply good_resumes|]. unfold final in *.
    destruct (last states); [done|]. destruct Hcur, Hrs. cbn in *. split; [congruence|congruence|done].
Qed.

Lemma run_take s chain k : sealed_run signed s chain -> sealed_run signed s (take k chain).
Proof.
  intros Hrun. revert k. induction Hrun as [s|s r result s1 states Hf Hr Hrun IH|s r e s1 states Hr Hrun IH|s t states Hrs Hrun IH];
    intros k.
  - rewrite take_nil. constructor.
  - destruct k as [|k]; [constructor|]. cbn [take]. by eapply run_block.
  - by eapply run_refused.
  - by eapply run_reopened.
Qed.

Lemma final_take s chain k sk : (s :: chain) !! k = Some sk -> final s (take k chain) = sk.
Proof.
  revert s k. induction chain as [|s1 chain IH]; intros s k Hk.
  - destruct k; [by injection Hk|done].
  - destruct k as [|k]; [by injection Hk|]. cbn [take]. rewrite final_cons. by apply IH.
Qed.

Lemma life_run chain s :
  activation -> life chain s ->
  sealed_run signed s0 chain /\ resumes (final s0 chain) s /\ Forall (fun s => db_height s < u64_max) chain.
Proof.
  intros Hact Hlife. pose proof (activation_good Hact) as Hg.
  induction Hlife as [|chain s r [blk receipts] s1 Hlife (Hrun & Hrs & Hmax) Hf Hr Hh|chain s r e s1 Hlife (Hrun & Hrs & Hmax) Hr
    |chain s frames f t file' Hlife (Hrun & Hrs & Hmax) Hw Hu Hp Hre].
  - split_and!; [constructor| |done]. split; [done|done|apply Hact].
  - split_and!; [by eapply run_snoc| |apply Forall_app; by repeat constructor].
    unfold final. rewrite last_snoc. destruct (run_request_sealed _ _ _ _ _ (rs_node _ _ Hrs) Hr) as (ws & root & context & Hsd).
    split; [done|done|]. by eapply sealed_node; [apply (rs_node _ _ Hrs)|].
  - assert (s1 = s) as -> by (eapply refused_block; [..|exact Hr]; apply Hrs). done.
  - rewrite (rs_wal _ _ Hrs) in Hw.
    destruct (reopen_run _ _ _ Hact Hrun Hmax Hw Hu Hp) as (k & sk & t' & frames' & Hk & Hre' & Hrs' & Hck & _).
    rewrite Hre in Hre'. injection Hre' as <- ->. rewrite Hck.
    split_and!; [by apply run_take|by rewrite (final_take _ _ _ _ Hk)|by apply Forall_take].
Qed.

End Life.

(** C5: crash recovery.  A protocol-3 node is activated from a signed checkpoint and lives
    through blocks, refused requests and crashes, each of which leaves any prefix of the
    bytes of its log file.  At every moment of such a life, whatever prefix a crash leaves,
    reopening succeeds.  It returns to one of the states that the log held: the accounts,
    the sections, the height, the context and the history are those after block [k], the log
    is the one of that state and is what is left in the file.  No block is lost whose log
    was on disk: [k] is at least the number of every block whose records the prefix holds. *)
Theorem reopening_recovers_blocks (base s0 : StateDB) (signed : list (Hash256 * (Z * Z)))
    (chain : list StateDB) (s : StateDB) (frames : list (WalRecord * list Z)) (f : list Z)
    (Hact : activation base s0 signed) (Hlife : life base s0 signed chain s)
    (Hlog : write_log 0 (db_wal s) = Ok frames) (Hsize : Z.of_nat (length (file_of frames)) <= u64_max)
    (Hcrash : f `prefix_of` file_of frames) :
  exists k sk t frames',
    (s0 :: chain) !! k = Some sk /\ reopen base signed f = Ok (t, file_of frames') /\
    durable t = durable sk /\ db_wal t = db_wal sk /\ write_log 0 (db_wal t) = Ok frames' /\
    forall j sj frames_j, (s0 :: chain) !! j = Some sj -> write_log 0 (db_wal sj) = Ok frames_j ->
      file_of frames_j `prefix_of` f -> (j <= k)%nat.
Proof.
  destruct (life_run _ _ _ _ _ Hact Hlife) as (Hrun & Hrs & Hmax). rewrite (rs_wal _ _ Hrs) in Hlog.
  destruct (reopen_run _ _ _ _ _ _ Hact Hrun Hmax Hlog Hsize Hcrash)
    as (k & sk & t & frames' & Hk & Hre & [Hd Hw _] & _ & Hw' & Hkeep).
  by exists k, sk, t, frames'.
Qed.

End Reopen.

(** ** Witnesses *)

Module ReopenDemo.
Import LedgerDemo SealingDemo DemoRestart WalDemo.

(** A block without transactions over the transition state, and its log. *)
Definition empty_request : BlockRequest := mkRequest [] (user 10) 7 9.

Definition empty_sealed : StateDB := (run_request empty_request activated).2.

Definition log_frames (s : StateDB) : list (WalRecord * list Z) :=
  match write_log 0 (db_wal s) with Ok frames => frames | _ => [] end.

(** The height and the size of the log after a call that succeeds. *)
Definition height_and_size {A} (o : outcome StateError A * StateDB) : option (Z * Z) :=
  match o with
  | (Ok _, s) =>
      match write_log 0 (db_wal s) with
      | Ok frames => Some (db_height s, Z.of_nat (length (file_of frames)))
      | _ => None
      end
  | _ => None
  end.

Lemma height_and_size_Some {A} (o : outcome StateError A * StateDB) h n :
  height_and_size o = Some (h, n) ->
  exists result, o = (Ok result, o.2) /\ db_height o.2 = h /\ write_log 0 (db_wal o.2) = Ok (log_frames o.2) /\
    Z.of_nat (length (file_of (log_frames o.2))) = n.
Proof.
  destruct o as [[result|e|] s]; [|done..]. unfold log_frames. cbn [height_and_size snd].
  destruct (write_log 0 (db_wal s)) as [frames|e|]; [|done..]. intros [= <- <-]. by exists result.
Qed.

Lemma empty_sealed_at : height_and_size (run_request empty_request activated) = Some (101, 67).
Proof. by vm_compute. Qed.

Lemma empty_sealed_run :
  exists result, run_request empty_request activated = (Ok result, empty_sealed) /\
    db_height empty_sealed = 101 /\ write_log 0 (db_wal empty_sealed) = Ok (log_frames empty_sealed) /\
    Z.of_nat (length (file_of (log_frames empty_sealed))) = 67.
Proof. exact (height_and_size_Some _ _ _ empty_sealed_at). Qed.

Lemma demo_activation : activation activated activated [].
Proof. by split; [apply activated_node|..]. Qed.

Lemma demo_life : life activated activated [] [empty_sealed] empty_sealed.
Proof.
  destruct empty_sealed_run as (result & Hr & Hh & _).
  apply (life_block activated activated [] [] activated empty_request result); [constructor|by split|done|by rewrite Hh].
Qed.

End ReopenDemo.

Section Witnesses.
Import LedgerDemo SealingDemo DemoRestart WalDemo ReopenDemo.

(** The file cut one byte before its end restarts to a state that the log held. *)
Lemma reopening_recovers_blocks_witness :
  exists k sk t frames', [activated; empty_sealed] !! k = Some sk /\
    reopen activated [] (take 66 (file_of (log_frames empty_sealed))) = Ok (t, file_of frames') /\
    durable t = durable sk.
Proof.
  destruct empty_sealed_run as (result & _ & _ & Hw & Hl).
  destruct (reopening_recovers_blocks activated activated [] [empty_sealed] empty_sealed (log_frames empty_sealed)
    (take 66 (file_of (log_frames empty_sealed)))) as (k & sk & t & frames' & Hk & Hre & Hd & _);
    [apply demo_activation|apply demo_life|exact Hw|by rewrite Hl|apply prefix_take|].
  exact (ex_intro _ k (ex_intro _ sk (ex_intro _ t (ex_intro _ frames' (conj Hk (conj Hre Hd)))))).
Defined.

End Witnesses.
